(* ===== verification/_CoqProject ===== *)
-Q . S2P
Prelude.v
Sorted.v
Merge.v
Chain.v
Txn.v
Policy.v
Metrics.v
Store.v
StoreLemmas.v
StoreInv.v
StoreCorrect.v
StoreLimits.v
StorePreflight.v
StoreTyped.v
StoreWitness.v
Wal.v
WalReplay.v
WalWriter.v
WalReader.v
Checkpoint.v
Persist.v
PersistLemmas.v
PersistCorrect.v
PersistOpen.v
PersistSystem.v
PersistWitness.v
Journal.v
CowJournal.v
CowCorrect.v
CowRecovery.v
CowWitness.v
Jbd2.v
CrcIncr.v
CrcLinear.v
CrcCorrect.v
CrcUsers.v
CrcWitness.v
Jbd2Replay.v
Jbd2Writer.v
Jbd2Codec.v
Jbd2Order.v
Jbd2Log.v
Jbd2Apply.v
Jbd2Commit.v
Jbd2Crash.v
Jbd2Boundary.v
Jbd2Frame.v
Jbd2Super.v
Jbd2System.v
Jbd2Progress.v
Jbd2Witness.v
FastCommit.v
FastCommitCorrect.v
