(* ===== verification/Prelude.v ===== *)
(** * A verification development of the FrankenFS storage layers

    FrankenFS stores file-system blocks in a multi-version store with
    serializable snapshot isolation and makes commits durable with a
    write-ahead log and checkpoints (the crate [src/crates/ffs-mvcc]).  It writes
    ext4 images through a JBD2 journal, and its own through a copy-on-write
    journal ([src/crates/ffs-journal]), under checksums that it updates
    incrementally ([src/crates/ffs-ondisk]); the durability boundary of
    [src/crates/ffs-core] ties the JBD2 journal to the home blocks.  This library
    models these layers as executable Rocq definitions and proves the properties
    their users rely on.

    ** The parts of the program and where they are

    - [Prelude]: machine integers, panics ([outcome]), [Result] ([res]), byte
      strings, tactics and hint databases shared by all files.
    - [Sorted]: sorted vectors and binary searches of the standard library,
      sorting as a class, ordered maps.
    - [Merge] (lib.rs): merge proofs, their byte ranges, the preflight
      validators and the whole-block merges.
    - [Chain] (lib.rs, compression.rs): version chains, the visibility search,
      the representations of a version, trimming and pruning.  The compressors
      are the class [VersionCodec].
    - [Txn] (lib.rs): transactions, staging, copy-on-write bookkeeping, the
      serialized form, the detection of dangerous structures.
    - [Policy], [Metrics] (lib.rs): contention metrics, the adaptive merge
      policy, histograms and counters.
    - [Store] (store.rs): [MvccStore] with begin, read, preflight, the commit
      paths, abort, snapshots, chain pressure, pruning and eviction.
      [StoreLemmas], [StoreInv], [StoreCorrect], [StoreLimits],
      [StorePreflight] and [StoreTyped] hold its proofs, [StoreWitness] its
      scenarios.
    - [Wal] (wal.rs): the header and the records of the log.  CRC-32C is the
      class [Crc32c].
    - [WalReplay] (wal_replay.rs): the replay loop and the replay of a buffer.
    - [WalReader] (wal_replay/reader.rs): the streaming record reader.
    - [WalWriter] (wal_writer.rs, wal_writer/stream.rs): appends, verification,
      sync policies, rollback, sealing, truncation.
    - [Checkpoint] (persist.rs, persist/checkpoint_reader.rs): the writer and
      the reader of the checkpoint format.
    - [Persist] (persist.rs, wal_writer/namespace.rs): [PersistentMvccStore]
      with commit and rollback, checkpoint publication, truncation, ownership
      of the log and opening.  [PersistLemmas], [PersistCorrect], [PersistOpen]
      and [PersistSystem] hold its proofs, [PersistWitness] its scenarios.
    - [Journal] (ffs-block lib.rs, ffs-journal lib.rs): the block device as the
      journals use it, regions, segments and fields.
    - [CowJournal] (ffs-journal lib.rs): the native copy-on-write journal;
      [CowCorrect], [CowRecovery] hold its proofs, [CowWitness] its scenarios.
    - [Jbd2] (ffs-journal lib.rs): the format of the JBD2 log and its checksums.
      [Jbd2Replay] is the replay engine with [apply_replay] and [clear_journal],
      [Jbd2Writer] the transactions and the writer.  [Jbd2Codec] shows that what
      is encoded is read back, [Jbd2Order] recovers the commit order from
      wrapping sequences, [Jbd2Log] and [Jbd2Apply] are the scan and the effect
      of a log, [Jbd2Commit] and [Jbd2Crash] a commit under failures and power
      failures.
    - [Jbd2Boundary] (ffs-core lib.rs): [ext4_journal_and_checkpoint] and the
      [needs_recovery] flag.  [Jbd2Frame], [Jbd2Super], [Jbd2System] and
      [Jbd2Progress] hold its proofs, [Jbd2Witness] the scenarios of the journal.
    - [CrcIncr] (ffs-ondisk crc_incremental.rs, ext4.rs): the incremental
      CRC-32C and the checksums of bitmaps and directory blocks.  [CrcLinear],
      [CrcCorrect] and [CrcUsers] hold their proofs, [CrcWitness] the samples.
    - [FastCommit] (ffs-journal lib.rs): the replay of the fast-commit area;
      [FastCommitCorrect] holds its proofs.

    The parts are composed as in the code: a commit of the persistent store runs
    the commit of [Store], encodes the merged writes with [Wal] and appends them
    with [WalWriter]; opening loads a [Checkpoint] and replays the log with
    [WalReader] into the same store.  The boundary of [Jbd2Boundary] runs the
    writer of [Jbd2Writer] on the device of [Journal], and recovery runs the
    engine of [Jbd2Replay] on what is left of that device.

    ** How code is represented

    Unsigned integers are [Z] with their width written out where the code relies
    on it ([checked_add], [saturating_add], [add64]).  A byte
    string is [list Z] with [bytes_ok].  A panic is the value [Panic], an error
    a value of [res].  Mutation is state passing; the fallible stateful code of
    the log and the checkpoint is in the monad [replayM].  Hash maps are [gmap],
    ordered maps are sorted lists.  Durations that the code measures are
    arguments ([Timing]).

    Files and system calls: a file is its bytes and the length of its durable
    prefix ([WalFile]); every call takes its answer from an argument ([Io],
    [OpenIo], [PublishIo], a [Source] script), so that the theorems hold for
    every combination of failures, short reads, interruptions and
    cancellations.  After a power failure the durable prefix and any part of the
    rest is there; a shrinking [set_len] takes effect at once.  The checkpoint
    path has a visible and a durable entry ([CheckpointFile]).

    Block devices: a [Device] is what is durable, the writes since the last
    successful sync in order, and the answers of the next writes and syncs: a
    write is done, fails with some of its blocks written, or fails and leaves
    other bytes of the same length.  The computations on it are in the monad
    [devM].  A power failure ([power_failure]) keeps what is durable and any
    selection of the later writes.  A crash between two writes is a run whose next
    write fails with nothing written.

    ** What the theorems show

    - The store: every operation keeps the representation invariant and the
      Rust types; a registered snapshot always reads the same; a successful
      commit installs exactly the merged writes and a failed one changes
      nothing; first committer wins, no lost update, no write skew; chains stay
      bounded; eviction and trimming drop nothing that can be read.
    - Merges: validators decide merges, a merge is a three-way merge and does
      not depend on the order.
    - The log: the codec is a bijection onto valid records; replay applies the
      longest valid run of any bytes; the streaming reader computes what the
      buffer replay computes; an append of a batch is all or nothing.
    - Checkpoints: a round trip, and safety of loading arbitrary bytes.
    - The durable store: a commit is all or nothing in memory and on file; in
      all runs with crashes, failed and repeated openings, acknowledged commits
      are durable, recovery finds a prefix of the history, and a stopped store
      can be opened again.  [PersistSystem] states this as invariants of a
      transition system, by induction over its steps.
    - The copy-on-write journal: its codec is a bijection, recovery is exact for
      appends that fail or tear, and replay can be interrupted.
    - The JBD2 journal: the strict and the tolerant parser agree; a replay of a
      log is exact and restartable; a commit is atomic and durable for all
      failures and power failures.
    - The durability boundary: it never panics; whatever fails, and wherever the
      power fails, replaying the log finds all home blocks old or all of them
      new; on a healthy device it fails only by rejecting the transaction with
      nothing changed.  A block write is taken to land whole or not at all here
      ([untorn]), since the two superblocks are updated in place, and the log to be
      empty at the start ([quiescent]).
    - Checksums: the incremental update of a region, of a bitmap and of a
      directory block equals the full computation.
    - Fast commits: on arbitrary bytes the replay takes exactly the operations of
      the checksummed transactions of one cycle, or asks for a fallback.
    - Six theorems record behaviour that differs from what the code intends:
      [zero_length_range_panics], [preflight_accepts_install_refuses],
      [adaptive_switch_between_phases], [checkpoint_elsewhere_loses_commit],
      [preflight_undercounts_alternation] and
      [retry_after_failed_checkpoint_tears].

    ** Fuel

    Loops over a source or a log take fuel: [replay_records] the length of the
    data ([replay_loop_terminates] shows it is never used up), [read_exact] and
    its variants the number of bytes wanted plus the length of the remaining
    script, the payload loops the number of bytes.  The lemmas on them exclude
    [Panic], which is what running out of fuel returns.  The parsers of [Jbd2]
    and [FastCommit] take the length of the block or of the data as fuel, each
    iteration consuming a byte at least; [scan_loop] takes the number of blocks of
    the log, each iteration consuming one, [write_body] the number of items, and
    [crc32c_shift_bits] the 64 bits of its count.  [strict_loop_fuel] shows that
    more fuel changes nothing in the parser of tags; for the other loops the
    theorems on what they compute do.

    ** Parameters

    [VersionCodec] (zstd and brotli: decompression inverts compression),
    [UnstableSort] ([sort_unstable_by_key]: a sorted permutation), [Crc32c],
    [Crc32cAppend] (a 32-bit value, and that appending continues it) and, for the
    incremental checksums, [Crc32cStandard] (the crate computes CRC-32C).  Each
    has an instance ([RleCodec], [InsertionSort], [BitwiseCrc],
    [BitwiseCrcAppend], [BitwiseCrcStandard]) with which the scenarios compute.

    ** Not modelled

    Tracing, the evidence sink and the global telemetry counters, debug
    assertions, the epoch collector that defers drops (rcu.rs and the counters
    around it are pure bookkeeping), the locks (each operation of the
    persistent store holds its locks to the end, so operations are atomic
    steps), allocation failures of [try_reserve], writing committed blocks to a
    block device and the zero-copy reads of store.rs, the sharded store
    (sharded.rs), the snapshot registry and the block-device adapter of lib.rs.

    Of the journals: cancellation of reads (a cancelled write is a failed one),
    the thread pool that reads staged blocks (its results are consumed in order),
    the log buffers of wal_buffer.rs, whose interleavings of atomics need a
    concurrent logic, the helpers for benchmarks and tests, and applying
    fast-commit operations, which is ffs-core's.  Of ffs-core only the boundary is
    modelled: its callers capture dirty blocks from all of the file system.  The
    checksums of inodes, extents, group descriptors and attributes, the parsers of
    ffs-ondisk and the other crates of the workspace (allocation, extent trees,
    directories, FUSE, repair, tools) are outside this development. *)

From stdpp Require Import base sorting numbers gmap list.

Declare Scope ffs_scope.
Delimit Scope ffs_scope with ffs.

Local Open Scope Z_scope.

(** ** Machine integers

    A [w]-bit unsigned integer is a [Z] kept in [0, 2^w).  The widths are
    written out where the Rust code relies on them; [usize] is 64 bits wide. *)

Definition u8_max : Z := 2 ^ 8 - 1.
Definition u16_max : Z := 2 ^ 16 - 1.
Definition u32_max : Z := 2 ^ 32 - 1.
Definition u64_max : Z := 2 ^ 64 - 1.
Definition usize_max : Z := u64_max.

Definition checked_add (mx a b : Z) : option Z :=
  if a + b <=? mx then Some (a + b) else None.
Definition checked_sub (a b : Z) : option Z :=
  if b <=? a then Some (a - b) else None.
Definition checked_mul (mx a b : Z) : option Z :=
  if a * b <=? mx then Some (a * b) else None.
Definition saturating_add (mx a b : Z) : Z := Z.min (a + b) mx.
Definition saturating_sub (a b : Z) : Z := Z.max (a - b) 0.
Definition saturating_mul (mx a b : Z) : Z := Z.min (a * b) mx.

(** [u8::not]: the 8-bit complement. *)
Definition not8 (x : Z) : Z := Z.lxor x 255.
(** [u64::not]: the 64-bit complement. *)
Definition not64 (x : Z) : Z := Z.lxor x u64_max.

(** ** Panics

    Rust code that indexes or slices out of range, or fails an [assert!],
    panics.  [outcome] keeps that possibility explicit. *)

Inductive outcome (A : Type) : Type :=
| Ret (a : A)
| Panic.
Arguments Ret {A} _.
Arguments Panic {A}.

#[global] Instance outcome_ret : MRet outcome := λ A a, Ret a.
#[global] Instance outcome_bind : MBind outcome :=
  λ A B f m, match m with Ret a => f a | Panic => Panic end.

#[global] Instance outcome_fmap : FMap outcome :=
  λ A B f m, match m with Ret a => Ret (f a) | Panic => Panic end.

#[global] Instance outcome_eq_dec `{EqDecision A} : EqDecision (outcome A).
Proof. solve_decision. Defined.

(** ** Results: Rust's [Result<A, E>]. *)

Inductive res (E A : Type) : Type :=
| Ok (a : A)
| Err (e : E).
Arguments Ok {E A} _.
Arguments Err {E A} _.

#[global] Instance res_ret {E} : MRet (res E) := λ A a, Ok a.
#[global] Instance res_bind {E} : MBind (res E) :=
  λ A B f m, match m with Ok a => f a | Err e => Err e end.

#[global] Instance res_eq_dec `{EqDecision E, EqDecision A} : EqDecision (res E A).
Proof. solve_decision. Defined.

Definition ok_or {E A} (o : option A) (e : E) : res E A :=
  match o with Some a => Ok a | None => Err e end.

(** ** Byte buffers and slices *)

Abbreviation bytes := (list Z).

Definition byte_ok (b : Z) : Prop := 0 <= b < 256.
Definition bytes_ok (l : bytes) : Prop := Forall byte_ok l.

Definition zlen {A} (l : list A) : Z := Z.of_nat (length l).

(** [&l[a..b]]: panics when [a > b] or [b > len]. *)
Definition slice {A} (l : list A) (a b : Z) : outcome (list A) :=
  if (0 <=? a) && (a <=? b) && (b <=? zlen l)
  then Ret (take (Z.to_nat (b - a)) (drop (Z.to_nat a) l))
  else Panic.

(** [&l[a..]] *)
Definition slice_from {A} (l : list A) (a : Z) : outcome (list A) :=
  slice l a (zlen l).

(** [dst[a..b].copy_from_slice(src)]: panics on a bad range or a length mismatch. *)
Definition copy_range {A} (dst : list A) (a b : Z) (src : list A) : outcome (list A) :=
  _ ← slice dst a b;
  if zlen src =? b - a
  then Ret (take (Z.to_nat a) dst ++ src ++ drop (Z.to_nat b) dst)
  else Panic.

(** [l[i]] *)
Definition index {A} (l : list A) (i : Z) : outcome A :=
  if 0 <=? i
  then match l !! Z.to_nat i with Some x => Ret x | None => Panic end
  else Panic.

(** [Iterator::try_fold]-style loops over a list in the [outcome] monad. *)
Fixpoint foldM {A B} (f : B → A → outcome B) (acc : B) (l : list A) : outcome B :=
  match l with
  | [] => Ret acc
  | x :: l' => acc' ← f acc x; foldM f acc' l'
  end.

(** [iter().all(..)] with a body that may panic: stops at the first [false]. *)
Fixpoint allM {A} (f : A → outcome bool) (l : list A) : outcome bool :=
  match l with
  | [] => Ret true
  | x :: l' => b ← f x; if (b : bool) then allM f l' else Ret false
  end.

(** ** Little-endian encodings: [to_le_bytes] / [from_le_bytes]. *)

Fixpoint le_bytes (n : nat) (x : Z) : bytes :=
  match n with
  | O => []
  | S n' => x mod 256 :: le_bytes n' (x / 256)
  end.

Fixpoint le_value (l : bytes) : Z :=
  match l with
  | [] => 0
  | b :: l' => b + 256 * le_value l'
  end.

(** ** [sort_unstable_by_key]

    The order of elements with equal keys is unspecified, so a client may use
    only the two laws: the result is a permutation, and it is sorted whenever
    the comparison is a total preorder. *)

Class UnstableSort : Type := {
  sort_by : ∀ {A : Type}, (A → A → bool) → list A → list A;
  sort_by_perm : ∀ A (le : A → A → bool) l, sort_by le l ≡ₚ l;
  sort_by_sorted : ∀ A (le : A → A → bool) l,
    (∀ x y, le x y = true ∨ le y x = true) →
    (∀ x y z, le x y = true → le y z = true → le x z = true) →
    StronglySorted (λ x y, le x y = true) (sort_by le l);
}.

(** A (stable) insertion sort, the routine the standard library uses on short slices. *)
Section insertion_sort.
Context {A : Type} (le : A → A → bool).

Fixpoint insert_sorted (x : A) (l : list A) : list A :=
  match l with
  | [] => [x]
  | y :: l' => if le x y then x :: y :: l' else y :: insert_sorted x l'
  end.

Fixpoint insertion_sort (l : list A) : list A :=
  match l with
  | [] => []
  | x :: l' => insert_sorted x (insertion_sort l')
  end.

Lemma insert_sorted_perm x l : insert_sorted x l ≡ₚ x :: l.
Proof.
  induction l as [|y l IH]; simpl; [done|].
  destruct (le x y); [done|]. rewrite IH. apply Permutation_swap.
Qed.

Lemma insertion_sort_perm l : insertion_sort l ≡ₚ l.
Proof.
  induction l as [|x l IH]; simpl; [done|]. by rewrite insert_sorted_perm, IH.
Qed.

Hypothesis le_total : ∀ x y, le x y = true ∨ le y x = true.
Hypothesis le_trans : ∀ x y z, le x y = true → le y z = true → le x z = true.

Lemma insert_sorted_sorted x l :
  StronglySorted (λ x y, le x y = true) l →
  StronglySorted (λ x y, le x y = true) (insert_sorted x l).
Proof.
  induction l as [|y l IH]; simpl; intros Hs.
  { repeat constructor. }
  apply StronglySorted_inv in Hs as [Hs Hall].
  destruct (le x y) eqn:Hxy.
  - constructor; [by constructor|]. constructor; [done|].
    eapply Forall_impl; [exact Hall|]. simpl. eauto.
  - constructor; [auto|]. apply Forall_forall. intros z Hz.
    rewrite (insert_sorted_perm x l) in Hz.
    apply elem_of_cons in Hz as [->|Hz].
    + destruct (le_total x y); congruence.
    + rewrite Forall_forall in Hall. auto.
Qed.

Lemma insertion_sort_sorted l : StronglySorted (λ x y, le x y = true) (insertion_sort l).
Proof. induction l; simpl; [constructor|]. by apply insert_sorted_sorted. Qed.
End insertion_sort.

Definition InsertionSort : UnstableSort := {|
  sort_by := λ A le l, insertion_sort le l;
  sort_by_perm := λ A le l, insertion_sort_perm le l;
  sort_by_sorted := λ A le l Ht Htr, insertion_sort_sorted le Ht Htr l;
|}.

(** ** Shared lemmas *)

Create HintDb ffs.

Lemma outcome_bind_Ret {A B} (m : outcome A) (f : A → outcome B) (b : B) :
  m ≫= f = Ret b ↔ ∃ a, m = Ret a ∧ f a = Ret b.
Proof. destruct m; simpl; naive_solver. Qed.

Lemma outcome_fmap_Ret {A B} (f : A → B) (m : outcome A) (b : B) :
  f <$> m = Ret b → ∃ a, m = Ret a ∧ b = f a.
Proof. destruct m; [|done]. intros [= <-]. eauto. Qed.

Lemma zlen_nonneg {A} (l : list A) : 0 <= zlen l.
Proof. unfold zlen. lia. Qed.
Lemma zlen_inj {A B} (l : list A) (k : list B) : zlen l = zlen k → length l = length k.
Proof. unfold zlen. lia. Qed.
Lemma zlen_app {A} (l k : list A) : zlen (l ++ k) = zlen l + zlen k.
Proof. unfold zlen. rewrite length_app. lia. Qed.
Lemma zlen_cons {A} (x : A) l : zlen (x :: l) = 1 + zlen l.
Proof. unfold zlen. simpl. lia. Qed.
Lemma zlen_nil {A} : zlen (@nil A) = 0.
Proof. done. Qed.

#[export] Hint Rewrite @zlen_app @zlen_cons @zlen_nil : zlen.
#[export] Hint Resolve zlen_nonneg : ffs.

(** Case analysis on the boolean guards of a definition, as facts over [Z]. *)
Ltac bool_to_prop :=
  repeat match goal with
  | H : (_ && _) = true |- _ => apply andb_true_iff in H; destruct H
  | H : (_ && _) = false |- _ => apply andb_false_iff in H
  | H : (_ || _) = false |- _ => apply orb_false_iff in H; destruct H
  | H : (_ || _) = true |- _ => apply orb_true_iff in H
  | H : negb _ = true |- _ => apply negb_true_iff in H
  | H : negb _ = false |- _ => apply negb_false_iff in H
  | H : (_ <=? _) = true |- _ => apply Z.leb_le in H
  | H : (_ <=? _) = false |- _ => apply Z.leb_gt in H
  | H : (_ <? _) = true |- _ => apply Z.ltb_lt in H
  | H : (_ <? _) = false |- _ => apply Z.ltb_ge in H
  | H : (_ =? _) = true |- _ => apply Z.eqb_eq in H
  | H : (_ =? _) = false |- _ => apply Z.eqb_neq in H
  end.

(** Split on the innermost [if] of the goal. *)
Ltac case_if :=
  match goal with
  | |- context [if ?b then _ else _] =>
      lazymatch type of b with bool => destruct b eqn:?; bool_to_prop end
  end.

(** The same, keeping the boolean fact under the given name. *)
Tactic Notation "case_if" "as" ident(H) :=
  match goal with
  | |- context [if ?b then _ else _] =>
      lazymatch type of b with bool => destruct b eqn:H end
  end.

Ltac case_if_in H :=
  match type of H with
  | context [if ?b then _ else _] =>
      lazymatch type of b with bool => destruct b eqn:?; bool_to_prop end
  end.

Lemma slice_Ret {A} (l : list A) a b s :
  slice l a b = Ret s ↔
  0 <= a <= b ∧ b <= zlen l ∧ s = take (Z.to_nat (b - a)) (drop (Z.to_nat a) l).
Proof.
  unfold slice. case_if; bool_to_prop; split; naive_solver lia.
Qed.

Lemma slice_ok {A} (l : list A) a b :
  0 <= a <= b → b <= zlen l →
  slice l a b = Ret (take (Z.to_nat (b - a)) (drop (Z.to_nat a) l)).
Proof. intros. by apply slice_Ret. Qed.

Lemma slice_length {A} (l : list A) a b s :
  slice l a b = Ret s → zlen s = b - a.
Proof.
  intros (?&?&->)%slice_Ret. unfold zlen in *.
  rewrite length_take, length_drop. lia.
Qed.

Lemma slice_lookup {A} (l : list A) a b s (i : nat) :
  slice l a b = Ret s → a <= Z.of_nat i < b → s !! (i - Z.to_nat a)%nat = l !! i.
Proof.
  intros (?&?&->)%slice_Ret Hi.
  rewrite lookup_take_lt, lookup_drop by lia. f_equal. lia.
Qed.

(** Two slices over the same range are equal exactly when the buffers agree there. *)
Lemma slice_eq_iff {A} (l k s t : list A) a b :
  slice l a b = Ret s → slice k a b = Ret t →
  s = t ↔ ∀ i : nat, a <= Z.of_nat i < b → l !! i = k !! i.
Proof.
  intros Hs Ht. split.
  - intros -> i Hi. by rewrite <-(slice_lookup l a b t), <-(slice_lookup k a b t).
  - intros Hall. apply list_eq. intros j.
    destruct (decide (Z.of_nat j < b - a)) as [Hj|Hj].
    + apply slice_Ret in Hs as (?&?&->), Ht as (?&?&->).
      rewrite !lookup_take_lt, !lookup_drop by lia. apply Hall. lia.
    + rewrite !lookup_ge_None_2; [done|..];
        [apply slice_length in Ht | apply slice_length in Hs]; unfold zlen in *; lia.
Qed.

Lemma copy_range_ok {A} (dst src : list A) a b :
  0 <= a <= b → b <= zlen dst → zlen src = b - a →
  copy_range dst a b src = Ret (take (Z.to_nat a) dst ++ src ++ drop (Z.to_nat b) dst).
Proof.
  intros. unfold copy_range. rewrite slice_ok by done. simpl.
  by rewrite (proj2 (Z.eqb_eq _ _)).
Qed.

Lemma copy_range_lookup {A} (dst src r : list A) a b (i : nat) :
  copy_range dst a b src = Ret r →
  r !! i = if (a <=? Z.of_nat i) && (Z.of_nat i <? b) then src !! (i - Z.to_nat a)%nat
           else dst !! i.
Proof.
  unfold copy_range. intros (s&Hs&Hr)%outcome_bind_Ret.
  apply slice_Ret in Hs as (?&?&_).
  destruct (zlen src =? b - a) eqn:Hl; [|done]. bool_to_prop. injection Hr as <-.
  unfold zlen in *. rewrite !lookup_app.
  case_if.
  - rewrite lookup_take_ge by lia. rewrite length_take.
    replace (i - _)%nat with (i - Z.to_nat a)%nat by lia.
    destruct (lookup_lt_is_Some_2 src (i - Z.to_nat a)%nat) as [x ->]; [lia|done].
  - destruct Heqb0; bool_to_prop.
    + rewrite lookup_take_lt by lia. destruct (dst !! i) eqn:E; [done|].
      apply lookup_ge_None in E. lia.
    + rewrite lookup_take_ge, length_take by lia.
      rewrite (lookup_ge_None_2 src) by lia. rewrite lookup_drop. f_equal. lia.
Qed.

Lemma copy_range_length {A} (dst src r : list A) a b :
  copy_range dst a b src = Ret r → length r = length dst.
Proof.
  unfold copy_range. intros (s&Hs&Hr)%outcome_bind_Ret.
  apply slice_Ret in Hs as (?&?&_).
  destruct (zlen src =? b - a) eqn:Hl; [|done]. bool_to_prop. injection Hr as <-.
  unfold zlen in *. rewrite !length_app, length_take, length_drop. lia.
Qed.

(** ** Little-endian lemmas *)

Lemma le_bytes_length n x : length (le_bytes n x) = n.
Proof. revert x. induction n; intros; simpl; auto. Qed.

Lemma zlen_le_bytes n x : zlen (le_bytes n x) = Z.of_nat n.
Proof. unfold zlen. by rewrite le_bytes_length. Qed.

Lemma le_bytes_ok n x : bytes_ok (le_bytes n x).
Proof.
  revert x. induction n as [|n IH]; intros x; simpl; constructor; [|apply IH].
  unfold byte_ok. pose proof (Z.mod_pos_bound x 256). lia.
Qed.

Lemma le_value_bytes n x : 0 <= x < 256 ^ Z.of_nat n → le_value (le_bytes n x) = x.
Proof.
  revert x. induction n as [|n IH]; intros x Hx; simpl.
  { change (256 ^ Z.of_nat 0) with 1 in Hx. lia. }
  rewrite Nat2Z.inj_succ, Z.pow_succ_r in Hx by lia.
  rewrite IH by (split; [apply Z.div_pos | apply Z.div_lt_upper_bound]; lia).
  pose proof (Z.div_mod x 256). lia.
Qed.

Lemma le_value_bound l : bytes_ok l → 0 <= le_value l < 256 ^ zlen l.
Proof.
  induction 1 as [|b l Hb Hl IH]; [done|].
  unfold byte_ok in *. rewrite zlen_cons, Z.add_1_l, Z.pow_succ_r by apply zlen_nonneg.
  simpl. lia.
Qed.

Lemma le_bytes_value l : bytes_ok l → le_bytes (length l) (le_value l) = l.
Proof.
  induction 1 as [|b l Hb Hl IH]; [done|]. simpl. unfold byte_ok in Hb.
  rewrite (Z.mul_comm 256), Z.mod_add, Z.mod_small by lia.
  rewrite Z.div_add, Z.div_small, Z.add_0_l by lia. by rewrite IH.
Qed.

(** A value of a fixed-width field is in range and is written back as the
    bytes it was read from. *)
Lemma le_field n l : bytes_ok l → length l = n →
  0 <= le_value l < 256 ^ Z.of_nat n ∧ le_bytes n (le_value l) = l.
Proof.
  intros Hl <-. split; [apply (le_value_bound l Hl) | by apply le_bytes_value].
Qed.

#[export] Hint Rewrite zlen_le_bytes : zlen.

(** Slicing a concatenation at its seams. *)
Lemma slice_app {A} (pre mid post : list A) a b :
  zlen pre = a → b = a + zlen mid → slice (pre ++ mid ++ post) a b = Ret mid.
Proof.
  intros <- ->. pose proof (zlen_nonneg pre). pose proof (zlen_nonneg mid).
  pose proof (zlen_nonneg post). apply slice_Ret. autorewrite with zlen.
  split_and!; try lia. unfold zlen in *. rewrite Nat2Z.id, drop_app_length.
  by rewrite Z.add_simpl_l, Nat2Z.id, take_app_length.
Qed.

Lemma slice_from_app {A} (pre post : list A) a :
  zlen pre = a → slice_from (pre ++ post) a = Ret post.
Proof.
  intros Ha. unfold slice_from. rewrite <-(app_nil_r post) at 1.
  apply slice_app; [done|]. rewrite zlen_app. lia.
Qed.

Lemma index_Ret {A} (l : list A) i x :
  index l i = Ret x ↔ 0 <= i ∧ l !! Z.to_nat i = Some x.
Proof.
  unfold index. case_if; [destruct (l !! Z.to_nat i) | ]; naive_solver lia.
Qed.

(** Adjacent slices concatenate, and a slice splits at any seam of its value. *)
Lemma slice_app_iff {A} (l s t : list A) a b :
  slice l a b = Ret (s ++ t) ↔
  slice l a (a + zlen s) = Ret s ∧ slice l (a + zlen s) b = Ret t.
Proof.
  pose proof (zlen_nonneg s). pose proof (zlen_nonneg t). split.
  - intros Hs. pose proof (slice_length _ _ _ _ Hs) as Hl. rewrite zlen_app in Hl.
    apply slice_Ret in Hs as (?&?&Hst).
    assert (l = take (Z.to_nat a) l ++ (s ++ t) ++ drop (Z.to_nat b) l) as Hd.
    { rewrite Hst. rewrite <-(take_drop (Z.to_nat a) l) at 1. f_equal.
      rewrite <-(take_drop (Z.to_nat (b - a)) (drop (Z.to_nat a) l)) at 1.
      rewrite drop_drop. do 2 f_equal. lia. }
    assert (zlen (take (Z.to_nat a) l) = a).
    { unfold zlen in *. rewrite length_take. lia. }
    rewrite Hd. split.
    + rewrite <-(app_assoc s). by apply slice_app.
    + rewrite <-(app_assoc s), app_assoc. apply slice_app; [rewrite zlen_app|]; lia.
  - intros [Hs Ht]. pose proof (slice_length _ _ _ _ Ht) as Hl.
    apply slice_Ret in Hs as (?&?&Hs), Ht as (?&?&Ht). apply slice_Ret.
    split_and!; [lia..|]. rewrite Hs at 1. rewrite Ht.
    replace (Z.to_nat (a + zlen s)) with (Z.to_nat (zlen s) + Z.to_nat a)%nat by lia.
    replace (Z.to_nat (a + zlen s - a)) with (Z.to_nat (zlen s)) by lia.
    replace (Z.to_nat (b - a)) with (Z.to_nat (zlen s) + Z.to_nat (b - (a + zlen s)))%nat by lia.
    rewrite <-take_take_drop, drop_drop. do 3 f_equal. lia.
Qed.

Lemma slice_full {A} (l s : list A) : slice l 0 (zlen l) = Ret s ↔ s = l.
Proof.
  rewrite slice_Ret. rewrite Z.sub_0_r, drop_0. unfold zlen. rewrite Nat2Z.id, firstn_all.
  split; [naive_solver | intros ->; split_and!; [lia..|done]].
Qed.

Lemma slice_bytes_ok l a b s : slice l a b = Ret s → bytes_ok l → bytes_ok s.
Proof. intros (_&_&->)%slice_Ret Hl. by apply Forall_take, Forall_drop. Qed.

(** [&(&l[..e])[a..]] is [&l[a..e]]. *)
Lemma slice_of_prefix {A} (l r s : list A) a e :
  slice l 0 e = Ret r → slice_from r a = Ret s ↔ slice l a e = Ret s.
Proof.
  intros Hr. pose proof (slice_length _ _ _ _ Hr) as Hl. unfold slice_from.
  rewrite Hl, Z.sub_0_r. apply slice_Ret in Hr as (?&?&->).
  rewrite !slice_Ret, Hl, drop_0, !Z.sub_0_r, !take_drop_commute, take_take.
  split; intros (?&?&->); (split_and!; [lia..|]); do 2 f_equal; lia.
Qed.
