(* ===== verification/Sorted.v ===== *)
(** * Sorted sequences

    The standard library pieces the crate relies on for ordered data: the
    halving search of slices ([partition_point], [binary_search_by_key]) and
    [BTreeMap]/[BTreeSet], modelled as association lists with strictly
    ascending keys so that iteration order, first and last key are explicit. *)

From stdpp Require Import base sorting numbers gmap list.
From S2P Require Import Prelude.

Local Open Scope Z_scope.

(** ** Searching *)

(** The halving loop of [slice::partition_point] (binary search by a predicate). *)
Fixpoint partition_loop (fuel : nat) (pred : nat → bool) (base size : nat) : nat :=
  match fuel with
  | O => base
  | S fuel' =>
      if (size <=? 1)%nat then base
      else
        let half := Nat.div2 size in
        let mid := (base + half)%nat in
        partition_loop fuel' pred (if pred mid then mid else base) (size - half)
  end.

Definition partition_point {A} (pred : A → bool) (l : list A) : nat :=
  let at_index i := match l !! i with Some x => pred x | None => false end in
  match length l with
  | O => O
  | S _ =>
      let base := partition_loop (length l) at_index 0 (length l) in
      if at_index base then S base else base
  end.

(** [usize::checked_sub(1)] on an index. *)
Definition nat_checked_pred (n : nat) : option nat :=
  match n with O => None | S m => Some m end.

(** [slice::binary_search_by_key]: the loop moves right while the probed key is
    not greater; the final probe decides between the hit and the insertion point. *)
Definition binary_search_by_key {A} (key : A → Z) (l : list A) (k : Z) : nat + nat :=
  let not_greater i := match l !! i with Some x => key x <=? k | None => false end in
  match length l with
  | O => inr O
  | S _ =>
      let base := partition_loop (length l) not_greater 0 (length l) in
      match l !! base with
      | Some x => if key x =? k then inl base
                  else inr (if key x <? k then S base else base)
      | None => inr base
      end
  end.

(** ** Ordered maps and sets *)

Abbreviation smap V := (list (Z * V)).

Fixpoint sm_get {V} (k : Z) (m : smap V) : option V :=
  match m with
  | [] => None
  | (k', v) :: m' => if k =? k' then Some v else sm_get k m'
  end.

Fixpoint sm_insert {V} (k : Z) (v : V) (m : smap V) : smap V :=
  match m with
  | [] => [(k, v)]
  | (k', v') :: m' =>
      if k <? k' then (k, v) :: m
      else if k =? k' then (k, v) :: m'
      else (k', v') :: sm_insert k v m'
  end.

Fixpoint sm_remove {V} (k : Z) (m : smap V) : smap V :=
  match m with
  | [] => []
  | (k', v) :: m' => if k =? k' then m' else (k', v) :: sm_remove k m'
  end.

Abbreviation sset := (list (Z * unit)).

Definition ss_insert (k : Z) (s : sset) : sset := sm_insert k () s.

Definition ss_contains (k : Z) (s : sset) : bool := bool_decide (is_Some (sm_get k s)).

(** [first_key_value]/[last_key_value] projected to the keys. *)
Definition key_span {V} (m : smap V) : option (Z * Z) :=
  f ← head m; l ← last m; Some (f.1, l.1).

(** ** Order *)

(** Keys never decrease / strictly increase along the list. *)
Definition seq_sorted {T} (commit_seq : T → Z) (l : list T) : Prop :=
  ∀ i j x y, (i < j)%nat → l !! i = Some x → l !! j = Some y → commit_seq x <= commit_seq y.

Definition seq_strict {T} (commit_seq : T → Z) (l : list T) : Prop :=
  ∀ i j x y, (i < j)%nat → l !! i = Some x → l !! j = Some y → commit_seq x < commit_seq y.

(** The executable form of [seq_strict], comparing neighbours. *)
Fixpoint ascendingb {T} (commit_seq : T → Z) (l : list T) : bool :=
  match l with
  | x :: (y :: _) as l' => (commit_seq x <? commit_seq y) && ascendingb commit_seq l'
  | _ => true
  end.

Definition sm_wf {V} (m : smap V) : Prop := seq_strict fst m.

(** ** Search lemmas *)

Lemma div2_bounds n : (2 <= n)%nat → (1 <= Nat.div2 n < n)%nat.
Proof.
  intros Hn. pose proof (Nat.div2_odd n) as Hodd. destruct (Nat.odd n); simpl in Hodd; lia.
Qed.

(** The loop keeps the boundary of a downward closed predicate inside its window. *)
Lemma partition_loop_spec fuel pred base size k :
  (1 <= size <= S fuel)%nat →
  (base <= k <= base + size)%nat →
  (∀ i, (i < k)%nat → pred i = true) →
  (∀ i, (k <= i < base + size)%nat → pred i = false) →
  let b := partition_loop fuel pred base size in
  (pred b = true ∧ S b = k) ∨ (k = base ∧ b = base ∧ pred b = false).
Proof.
  revert base size. induction fuel as [|fuel IH]; intros base size Hsize Hk Hlt Hge; cbn.
  - assert (size = 1%nat) as -> by lia.
    destruct (decide (k = base)) as [->|]; [rewrite Hge by lia; auto|].
    left. split; [apply Hlt|]; lia.
  - destruct (Nat.leb_spec size 1) as [|Hgt].
    + assert (size = 1%nat) as -> by lia.
      destruct (decide (k = base)) as [->|]; [rewrite Hge by lia; auto|].
      left. split; [apply Hlt|]; lia.
    + pose proof (div2_bounds size ltac:(lia)) as Hhalf.
      destruct (pred (base + Nat.div2 size)%nat) eqn:Hmid.
      * assert (base + Nat.div2 size < k)%nat.
        { destruct (decide (base + Nat.div2 size < k)%nat); [done|].
          rewrite Hge in Hmid by lia. done. }
        destruct (IH (base + Nat.div2 size)%nat (size - Nat.div2 size)%nat) as [?|(?&?&?)];
          [lia|lia|done|intros; apply Hge; lia|by left|lia].
      * assert (k <= base + Nat.div2 size)%nat.
        { destruct (decide (k <= base + Nat.div2 size)%nat); [done|].
          rewrite Hlt in Hmid by lia. done. }
        apply IH; [lia| |done|intros; apply Hge; lia].
        pose proof (Nat.div2_odd size) as Hodd. destruct (Nat.odd size); simpl in Hodd; lia.
Qed.

(** [partition_point] returns the length of the satisfying prefix. *)
Lemma partition_point_spec {A} (pred : A → bool) (l : list A) k :
  (k <= length l)%nat →
  (∀ i x, (i < k)%nat → l !! i = Some x → pred x = true) →
  (∀ i x, (k <= i)%nat → l !! i = Some x → pred x = false) →
  partition_point pred l = k.
Proof.
  intros Hk Hlt Hge. unfold partition_point.
  destruct (length l) as [|n] eqn:Hlen; [lia|]. rewrite <-Hlen in *.
  set (at_index := λ i, match l !! i with Some x => pred x | None => false end).
  destruct (partition_loop_spec (length l) at_index 0 (length l) k) as [[Hp Heq]|(->&Hb&Hp)].
  - lia.
  - lia.
  - intros i Hi. unfold at_index. destruct (l !! i) eqn:Hx; [by eapply Hlt|].
    apply lookup_ge_None in Hx. lia.
  - intros i Hi. unfold at_index. destruct (l !! i) eqn:Hx; [|done]. eapply Hge; [|done]. lia.
  - set (b := partition_loop _ _ _ _) in *. unfold at_index in Hp. by rewrite Hp.
  - rewrite Hb. rewrite Hb in Hp. unfold at_index in Hp. by rewrite Hp.
Qed.

Lemma seq_strict_sorted {T} (commit_seq : T → Z) l :
  seq_strict commit_seq l → seq_sorted commit_seq l.
Proof. intros Hs i j x y Hij Hx Hy. pose proof (Hs i j x y Hij Hx Hy). lia. Qed.

Lemma ascendingb_head {T} (commit_seq : T → Z) x l i y :
  ascendingb commit_seq (x :: l) = true → l !! i = Some y → commit_seq x < commit_seq y.
Proof.
  revert x i. induction l as [|z l IH]; intros x i Hs Hy; [done|].
  apply andb_true_iff in Hs as [Hlt Hs]. bool_to_prop.
  destruct i as [|i]; simplify_eq/=; [done|]. specialize (IH z i Hs Hy). lia.
Qed.

Lemma ascendingb_strict {T} (commit_seq : T → Z) l :
  ascendingb commit_seq l = true → seq_strict commit_seq l.
Proof.
  induction l as [|x l IH]; intros Hs i j y z Hij Hy Hz; [done|].
  destruct j as [|j]; [lia|]. destruct i as [|i]; simplify_eq/=.
  - by eapply ascendingb_head.
  - eapply (IH ltac:(destruct l; [done|by apply andb_true_iff in Hs as [_ ?]]) i j); [lia|done..].
Qed.


(** A sorted list splits into the keys up to [high] and those above. *)
Lemma sorted_boundary {T} (commit_seq : T → Z) l high :
  seq_sorted commit_seq l →
  ∃ k, (k <= length l)%nat ∧
    (∀ i x, (i < k)%nat → l !! i = Some x → commit_seq x <= high) ∧
    (∀ i x, (k <= i)%nat → l !! i = Some x → high < commit_seq x).
Proof.
  induction l as [|x l IH] using rev_ind; intros Hs.
  { exists 0%nat. split; [simpl; lia|]. split; intros ???; rewrite lookup_nil; done. }
  destruct (decide (commit_seq x <= high)) as [Hle|Hgt].
  - exists (length (l ++ [x])). split; [done|]. split.
    + intros i y _ Hy. destruct (decide (i < length l)%nat).
      * transitivity (commit_seq x); [|done].
        apply (Hs i (length l) y x); [lia|done|by apply list_lookup_middle].
      * apply lookup_lt_Some in Hy as Hi. rewrite length_app in Hi. simpl in Hi.
        assert (i = length l) as -> by lia.
        rewrite list_lookup_middle in Hy by done. by simplify_eq.
    + intros i y Hi Hy. apply lookup_lt_Some in Hy. lia.
  - destruct IH as (k & Hk & Hlt & Hge).
    { intros i j y z Hij Hy Hz. eapply Hs; [done|by apply lookup_app_l_Some..]. }
    exists k. rewrite length_app. split; [simpl; lia|]. split.
    + intros i y Hi Hy. rewrite lookup_app_l in Hy by lia. by eapply Hlt.
    + intros i y Hi Hy. apply lookup_app_Some in Hy as [Hy|[Hl Hy]]; [by eapply Hge|].
      apply list_lookup_singleton_Some in Hy as [_ ->]. lia.
Qed.

Lemma seq_strict_cons {A} (key : A → Z) x l :
  seq_strict key (x :: l) ↔ (∀ y, y ∈ l → key x < key y) ∧ seq_strict key l.
Proof.
  split.
  - intros Hs. split.
    + intros y [i Hy]%list_elem_of_lookup_1. by apply (Hs 0%nat (S i)); [lia|..].
    + intros i j y z Hij Hy Hz. by apply (Hs (S i) (S j)); [lia|..].
  - intros [Hx Hs] [|i] [|j] y z Hij Hy Hz; simplify_eq/=; [lia| |lia|].
    + eapply Hx, list_elem_of_lookup_2, Hz.
    + eapply (Hs i j); [lia|done..].
Qed.

Lemma seq_strict_nil {A} (key : A → Z) : seq_strict key [].
Proof. intros i j x y _ Hx. by rewrite lookup_nil in Hx. Qed.

(** The search finds the index of a present key, otherwise its insertion point. *)
Lemma binary_search_by_key_spec {A} (key : A → Z) l k :
  seq_strict key l →
  match binary_search_by_key key l k with
  | inl i => ∃ x, l !! i = Some x ∧ key x = k
  | inr i => (i <= length l)%nat ∧
             (∀ j x, (j < i)%nat → l !! j = Some x → key x < k) ∧
             (∀ j x, (i <= j)%nat → l !! j = Some x → k < key x)
  end.
Proof.
  intros Hs. unfold binary_search_by_key. destruct l as [|x0 l0] eqn:El; [simpl; split_and!; [lia|..]; intros ???; rewrite lookup_nil; done|].
  rewrite <-El in *. assert (0 < length l)%nat as Hpos by (rewrite El; simpl; lia).
  destruct (sorted_boundary key l k (seq_strict_sorted _ _ Hs)) as (n & Hn & Hlt & Hge).
  set (pred := λ i, match l !! i with Some x => key x <=? k | None => false end).
  destruct (length l) as [|len] eqn:Hlen; [lia|]. rewrite <-Hlen in *. cbv zeta beta. fold pred.
  destruct (partition_loop_spec (length l) pred 0 (length l) n) as [[Hp Hb]|(->&Hb&Hp)].
  - lia.
  - lia.
  - intros i Hi. unfold pred. destruct (l !! i) eqn:Hx; [apply Z.leb_le; by eapply Hlt|].
    apply lookup_ge_None in Hx. lia.
  - intros i Hi. unfold pred. destruct (l !! i) eqn:Hx; [|done].
    apply Z.leb_gt. eapply Hge; [|done]. lia.
  - set (b := partition_loop _ _ _ _) in *. clearbody b. unfold pred in Hp.
    destruct (l !! b) as [x|] eqn:Hx; [|done]. bool_to_prop.
    destruct (Z.eqb_spec (key x) k); [eauto|].
    destruct (Z.ltb_spec (key x) k); [|lia]. rewrite Hb. split_and!; [done| |done].
    intros j y Hj Hy. destruct (decide (j = b)) as [->|]; [by simplify_eq|].
    pose proof (Hs j b y x ltac:(lia) Hy Hx). lia.
  - rewrite Hb in Hp |- *. unfold pred in Hp.
    destruct (l !! 0%nat) as [x|] eqn:Hx; [|split_and!; [lia|intros; lia|done]].
    bool_to_prop. destruct (Z.eqb_spec (key x) k); [lia|].
    destruct (Z.ltb_spec (key x) k); [lia|]. split_and!; [lia|intros; lia|done].
Qed.

(** ** Ordered map lemmas *)

Lemma sm_wf_cons {V} (k : Z) (v : V) m :
  sm_wf ((k, v) :: m) ↔ (∀ kv, kv ∈ m → k < kv.1) ∧ sm_wf m.
Proof. apply seq_strict_cons. Qed.

Lemma sm_get_elem {V} (k : Z) (v : V) m : sm_wf m → sm_get k m = Some v ↔ (k, v) ∈ m.
Proof.
  induction m as [|[k' v'] m IH]; simpl; intros Hwf.
  { split; [done|]. by intros ?%elem_of_nil. }
  apply sm_wf_cons in Hwf as [Hk Hwf]. rewrite elem_of_cons.
  destruct (Z.eqb_spec k k') as [->|Hne].
  - split; [intros [= ->]; by left|]. intros [[= ->]|Hin]; [done|]. specialize (Hk _ Hin). simpl in Hk. lia.
  - rewrite IH by done. split; [by right|]. intros [[= -> ->]|?]; done.
Qed.

Lemma sm_get_None {V} (k : Z) (m : smap V) : sm_get k m = None ↔ ∀ v, (k, v) ∉ m.
Proof.
  induction m as [|[k' v'] m IH]; simpl.
  { split; [|done]. intros _ v. apply not_elem_of_nil. }
  destruct (Z.eqb_spec k k') as [->|Hne].
  - split; [done|]. intros Hn. destruct (Hn v'). by left.
  - rewrite IH. setoid_rewrite not_elem_of_cons. naive_solver.
Qed.

Lemma sm_get_insert {V} (k : Z) (v : V) m k' :
  sm_wf m → sm_get k' (sm_insert k v m) = if k' =? k then Some v else sm_get k' m.
Proof.
  induction m as [|[k0 v0] m IH]; simpl; intros Hwf; [done|].
  apply sm_wf_cons in Hwf as [Hk Hwf].
  destruct (Z.ltb_spec k k0); simpl; [done|].
  destruct (Z.eqb_spec k k0) as [->|]; simpl; [by destruct (k' =? k0)|].
  rewrite IH by done. destruct (Z.eqb_spec k' k0), (Z.eqb_spec k' k); try done; lia.
Qed.

Lemma sm_insert_elem {V} (k : Z) (v : V) m kv :
  kv ∈ sm_insert k v m → kv = (k, v) ∨ kv ∈ m.
Proof.
  induction m as [|[k0 v0] m IH]; simpl.
  { intros ->%list_elem_of_singleton. by left. }
  destruct (k <? k0); [by intros [->|?]%elem_of_cons; auto|].
  destruct (k =? k0); intros [->|Hin]%elem_of_cons; auto.
  - right. by right.
  - right. by left.
  - destruct (IH Hin); [by left|]. right. by right.
Qed.

Lemma sm_insert_wf {V} (k : Z) (v : V) m : sm_wf m → sm_wf (sm_insert k v m).
Proof.
  induction m as [|[k0 v0] m IH]; simpl; intros Hwf.
  { apply sm_wf_cons. split; [|done]. by intros ? ?%elem_of_nil. }
  pose proof Hwf as Hwf0. apply sm_wf_cons in Hwf as [Hk Hwf].
  destruct (Z.ltb_spec k k0).
  { apply sm_wf_cons. split; [|done]. intros kv [->|Hin]%elem_of_cons; [done|].
    specialize (Hk _ Hin). lia. }
  destruct (Z.eqb_spec k k0) as [->|]; [by apply sm_wf_cons|].
  apply sm_wf_cons. split; [|by apply IH].
  intros kv [->|Hin]%sm_insert_elem; [simpl; lia|]. by apply Hk.
Qed.

Lemma sm_remove_elem {V} (k : Z) (m : smap V) kv : kv ∈ sm_remove k m → kv ∈ m.
Proof.
  induction m as [|[k0 v0] m IH]; simpl; [done|]. destruct (k =? k0); [by right|].
  intros [->|?]%elem_of_cons; [by left|right; auto].
Qed.

Lemma sm_remove_wf {V} (k : Z) (m : smap V) : sm_wf m → sm_wf (sm_remove k m).
Proof.
  induction m as [|[k0 v0] m IH]; simpl; intros Hwf; [done|].
  apply sm_wf_cons in Hwf as [Hk Hwf]. destruct (k =? k0); [done|].
  apply sm_wf_cons. split; [|by apply IH]. intros kv Hin%sm_remove_elem. by apply Hk.
Qed.

Lemma sm_get_above {V} (k k0 : Z) (m : smap V) :
  (∀ kv, kv ∈ m → k0 < kv.1) → k <= k0 → sm_get k m = None.
Proof.
  intros Hall Hle. apply sm_get_None. intros v Hin. specialize (Hall _ Hin). simpl in Hall. lia.
Qed.

Lemma sm_get_remove {V} (k : Z) (m : smap V) k' :
  sm_wf m → sm_get k' (sm_remove k m) = if k' =? k then None else sm_get k' m.
Proof.
  induction m as [|[k0 v0] m IH]; simpl; intros Hwf; [by destruct (k' =? k)|].
  apply sm_wf_cons in Hwf as [Hk Hwf]. destruct (Z.eqb_spec k k0) as [->|]; simpl.
  - destruct (Z.eqb_spec k' k0) as [E|E]; [|done]. eapply sm_get_above; [exact Hk|lia].
  - rewrite IH by done.
    destruct (Z.eqb_spec k' k0) as [E1|E1]; destruct (Z.eqb_spec k' k) as [E2|E2]; congruence.
Qed.

Lemma sm_get_lookup {V} (k : Z) (v : V) m i : sm_wf m → m !! i = Some (k, v) → sm_get k m = Some v.
Proof. intros Hwf Hi. apply sm_get_elem; [done|]. by eapply list_elem_of_lookup_2. Qed.

(** Overwriting at the found index and inserting at the insertion point are the
    map insertion. *)
Lemma sm_update_at {V} (k : Z) (v v0 : V) m i :
  sm_wf m → m !! i = Some (k, v0) → <[i:=(k, v)]> m = sm_insert k v m.
Proof.
  revert i. induction m as [|[k' v'] m IH]; intros i Hwf Hi; [done|].
  apply sm_wf_cons in Hwf as [Hk Hwf]. destruct i as [|i]; simplify_eq/=.
  - by rewrite Z.ltb_irrefl, Z.eqb_refl.
  - apply list_elem_of_lookup_2 in Hi as Hin. specialize (Hk _ Hin). simpl in Hk.
    destruct (Z.ltb_spec k k'); [lia|]. destruct (Z.eqb_spec k k'); [lia|].
    f_equal. by apply IH.
Qed.

Lemma sm_insert_at {V} (k : Z) (v : V) m i :
  (i <= length m)%nat →
  (∀ j x, (j < i)%nat → m !! j = Some x → x.1 < k) →
  (∀ j x, (i <= j)%nat → m !! j = Some x → k < x.1) →
  take i m ++ (k, v) :: drop i m = sm_insert k v m.
Proof.
  revert i. induction m as [|[k' v'] m IH]; intros i Hi Hlt Hgt; destruct i as [|i]; simpl in *;
    [done|lia| |].
  - pose proof (Hgt 0%nat _ ltac:(lia) eq_refl) as Hk. simpl in Hk.
    by destruct (Z.ltb_spec k k'); [|lia].
  - pose proof (Hlt 0%nat _ ltac:(lia) eq_refl) as Hk. simpl in Hk.
    destruct (Z.ltb_spec k k'); [lia|]. destruct (Z.eqb_spec k k'); [lia|]. f_equal.
    apply IH; [lia| |]; intros j x Hj Hx.
    + by apply (Hlt (S j) x); [lia|].
    + by apply (Hgt (S j) x); [lia|].
Qed.

(** The first key is the least one, the span brackets every key. *)
Lemma sm_head_least {V} (k : Z) (v : V) m k' v' :
  sm_wf ((k, v) :: m) → sm_get k' ((k, v) :: m) = Some v' → k <= k'.
Proof.
  intros Hwf Hget. apply sm_get_elem in Hget; [|done]. apply sm_wf_cons in Hwf as [Hk _].
  apply elem_of_cons in Hget as [[= -> ->]|Hin]; [lia|]. specialize (Hk _ Hin). simpl in Hk. lia.
Qed.

Lemma key_span_bounds {V} (m : smap V) lo hi k v :
  sm_wf m → key_span m = Some (lo, hi) → (k, v) ∈ m → lo <= k <= hi.
Proof.
  intros Hwf Hspan [i Hi]%list_elem_of_lookup_1. unfold key_span in Hspan.
  rewrite head_lookup, last_lookup in Hspan.
  destruct (m !! 0%nat) as [f|] eqn:Hf; simpl in Hspan; [|discriminate].
  destruct (m !! Nat.pred (length m)) as [l|] eqn:Hl; simplify_eq/=.
  apply lookup_lt_Some in Hi as Hlen. split.
  - apply (seq_strict_sorted _ _) in Hwf. destruct (decide (i = 0%nat)) as [->|]; [simplify_eq; simpl; lia|].
    exact (Hwf 0%nat i _ _ ltac:(lia) Hf Hi).
  - apply (seq_strict_sorted _ _) in Hwf.
    destruct (decide (i = Nat.pred (length m))) as [->|]; [simplify_eq; simpl; lia|].
    exact (Hwf i (Nat.pred (length m)) _ _ ltac:(lia) Hi Hl).
Qed.

Lemma key_span_None {V} (m : smap V) : key_span m = None ↔ m = [].
Proof.
  unfold key_span. destruct m as [|x m]; [done|]. simpl. rewrite last_cons.
  by destruct (last m).
Qed.

Lemma ss_contains_spec k (s : sset) : sm_wf s → ss_contains k s = true ↔ (k, ()) ∈ s.
Proof.
  intros Hwf. unfold ss_contains. rewrite bool_decide_eq_true, <-sm_get_elem by done.
  split; [by intros [[] ?]|eauto].
Qed.

#[export] Hint Resolve sm_insert_wf sm_remove_wf : ffs.
