(* ===== verification/Merge.v ===== *)
(** * Same-block merge proofs of the MVCC store

    Models [MergeByteRange], [MergeProof] and its validators and byte-level
    merges (crates/ffs-mvcc/src/lib.rs), and [coalesce_byte_ranges].  A slice
    expression that would panic in Rust is a [Panic] outcome here.  The
    specification the merges are measured against is the bit-level three-way
    merge [three_way]. *)

From stdpp Require Import base sorting numbers gmap list.
From S2P Require Import Prelude.

Local Open Scope Z_scope.

(** ** Data *)

Record MergeByteRange := mkRange { mbr_start : Z; mbr_len : Z }.

#[global] Instance MergeByteRange_eq_dec : EqDecision MergeByteRange.
Proof. solve_decision. Defined.

(** [MergeByteRange::end]: saturating at [usize::MAX]. *)
Definition mbr_end (r : MergeByteRange) : Z :=
  saturating_add usize_max (mbr_start r) (mbr_len r).

Definition overlaps (self other : MergeByteRange) : bool :=
  (mbr_start self <? mbr_end other) && (mbr_start other <? mbr_end self).

Inductive MergeProofMechanism :=
| NoSameBlockMerge
| MechAppendOnly
| RangeOverlay
| MechBitmapOr
| MechBitmapDelta.

Inductive MergeProof :=
| Unsafe
| DisjointBlocks
| AppendOnly (base_len : Z)
| IndependentKeys (touched_ranges : list MergeByteRange)
| NonOverlappingExtents (touched_ranges : list MergeByteRange)
| TimestampOnlyInode (touched_ranges : list MergeByteRange)
| BitmapOr
| BitmapDelta.

#[global] Instance MergeProof_eq_dec : EqDecision MergeProof.
Proof. solve_decision. Defined.

Definition independent_key_range (start len : Z) : MergeProof :=
  IndependentKeys [mkRange start len].

Definition independent_keys (ranges : list (Z * Z)) : MergeProof :=
  IndependentKeys ((λ p, mkRange p.1 p.2) <$> ranges).

Definition non_overlapping_extent_range (start len : Z) : MergeProof :=
  NonOverlappingExtents [mkRange start len].

Definition timestamp_only_inode_range (start len : Z) : MergeProof :=
  TimestampOnlyInode [mkRange start len].

Definition mechanism (p : MergeProof) : MergeProofMechanism :=
  match p with
  | Unsafe | DisjointBlocks => NoSameBlockMerge
  | AppendOnly _ => MechAppendOnly
  | IndependentKeys _ | NonOverlappingExtents _ | TimestampOnlyInode _ => RangeOverlay
  | BitmapOr => MechBitmapOr
  | BitmapDelta => MechBitmapDelta
  end.

(** ** Validators *)

Definition append_only_merge_valid (base_len : Z) (base latest staged : bytes) : outcome bool :=
  if (zlen base <? base_len) || (zlen latest <? base_len) || (zlen staged <? base_len)
  then Ret false
  else
    prefix ← slice base 0 base_len;
    l ← slice latest 0 base_len;
    s ← slice staged 0 base_len;
    Ret (negb (bool_decide (l ≠ prefix) || bool_decide (s ≠ prefix))).

(** The byte loop shared by the two bitmap validators: [zip] stops at the
    shortest buffer and the loop returns at the first offending byte. *)
Fixpoint zip3_all (ok : Z → Z → Z → bool) (base latest staged : bytes) : bool :=
  match base, latest, staged with
  | b :: base', l :: latest', s :: staged' =>
      ok b l s && zip3_all ok base' latest' staged'
  | _, _, _ => true
  end.

Definition bitmap_delta_byte_ok (b l s : Z) : bool :=
  Z.land (Z.lxor l b) (Z.lxor s b) =? 0.

Definition bitmap_delta_merge_valid (base latest staged : bytes) : bool :=
  if negb (zlen latest =? zlen base) || negb (zlen staged =? zlen base) then false
  else zip3_all bitmap_delta_byte_ok base latest staged.

Definition bitmap_or_byte_ok (b l s : Z) : bool :=
  if negb (Z.land b (not8 l) =? 0) || negb (Z.land b (not8 s) =? 0) then false
  else Z.land (Z.land l (not8 b)) (Z.land s (not8 b)) =? 0.

Definition bitmap_or_merge_valid (base latest staged : bytes) : bool :=
  if negb (zlen latest =? zlen base) || negb (zlen staged =? zlen base) then false
  else zip3_all bitmap_or_byte_ok base latest staged.

Fixpoint ranges_are_pairwise_disjoint (touched_ranges : list MergeByteRange) : bool :=
  match touched_ranges with
  | [] => true
  | l :: rest => forallb (λ r, negb (overlaps l r)) rest
                    && ranges_are_pairwise_disjoint rest
  end.

(** The cursor loop over the sorted ranges: every gap, and the tail after the
    last range, must be unmodified in [staged]. *)
Fixpoint gaps_unmodified (cursor : Z) (ordered : list MergeByteRange)
    (base staged : bytes) : outcome bool :=
  match ordered with
  | [] =>
      s ← slice_from staged cursor;
      b ← slice_from base cursor;
      Ret (bool_decide (s = b))
  | range :: rest =>
      s ← slice staged cursor (mbr_start range);
      b ← slice base cursor (mbr_start range);
      if bool_decide (s = b) then gaps_unmodified (mbr_end range) rest base staged
      else Ret false
  end.

Section with_sort.
Context `{UnstableSort}.

Definition merge_non_overlapping_ranges_valid (touched_ranges : list MergeByteRange)
    (base latest staged : bytes) : outcome bool :=
  if negb (zlen latest =? zlen base) || negb (zlen staged =? zlen base) then Ret false
  else if negb (ranges_are_pairwise_disjoint touched_ranges) then Ret false
  else if existsb (λ range, zlen base <? mbr_end range) touched_ranges then Ret false
  else
    let ordered := sort_by (λ r1 r2, mbr_start r1 <=? mbr_start r2) touched_ranges in
    unmodified ← gaps_unmodified 0 ordered base staged;
    if (unmodified : bool)
    then allM (λ range,
           l ← slice latest (mbr_start range) (mbr_end range);
           b ← slice base (mbr_start range) (mbr_end range);
           Ret (bool_decide (l = b))) touched_ranges
    else Ret false.

(** [merged[start..end].copy_from_slice(&staged[start..end])] for each range. *)
Definition overlay_ranges (touched_ranges : list MergeByteRange)
    (latest staged : bytes) : outcome bytes :=
  foldM (λ merged range,
    src ← slice staged (mbr_start range) (mbr_end range);
    copy_range merged (mbr_start range) (mbr_end range) src) latest touched_ranges.

Definition merge_non_overlapping_ranges (touched_ranges : list MergeByteRange)
    (base latest staged : bytes) : outcome (option bytes) :=
  valid ← merge_non_overlapping_ranges_valid touched_ranges base latest staged;
  if negb valid then Ret None
  else merged ← overlay_ranges touched_ranges latest staged; Ret (Some merged).

Definition merge_valid (p : MergeProof) (base latest staged : bytes) : outcome bool :=
  match p with
  | Unsafe | DisjointBlocks => Ret false
  | AppendOnly base_len => append_only_merge_valid base_len base latest staged
  | IndependentKeys rs | NonOverlappingExtents rs | TimestampOnlyInode rs =>
      merge_non_overlapping_ranges_valid rs base latest staged
  | BitmapOr => Ret (bitmap_or_merge_valid base latest staged)
  | BitmapDelta => Ret (bitmap_delta_merge_valid base latest staged)
  end.

(** [for (m, &s) in merged.iter_mut().zip(staged) { *m |= s }] *)
Fixpoint or_into (merged staged : bytes) : bytes :=
  match merged, staged with
  | m :: merged', s :: staged' => Z.lor m s :: or_into merged' staged'
  | _, _ => merged
  end.

(** [for ((m, &b), &s) in merged.iter_mut().zip(base).zip(staged) { *m ^= b ^ s }] *)
Fixpoint xor_into (merged base staged : bytes) : bytes :=
  match merged, base, staged with
  | m :: merged', b :: base', s :: staged' =>
      Z.lxor m (Z.lxor b s) :: xor_into merged' base' staged'
  | _, _, _ => merged
  end.

Definition merge_bytes (p : MergeProof) (base latest staged : bytes) : outcome (option bytes) :=
  match p with
  | Unsafe | DisjointBlocks => Ret None
  | AppendOnly base_len =>
      valid ← append_only_merge_valid base_len base latest staged;
      if negb valid then Ret None
      else suffix ← slice_from staged base_len; Ret (Some (latest ++ suffix))
  | IndependentKeys rs | NonOverlappingExtents rs | TimestampOnlyInode rs =>
      merge_non_overlapping_ranges rs base latest staged
  | BitmapOr =>
      if negb (bitmap_or_merge_valid base latest staged) then Ret None
      else Ret (Some (or_into latest staged))
  | BitmapDelta =>
      if negb (bitmap_delta_merge_valid base latest staged) then Ret None
      else Ret (Some (xor_into latest base staged))
  end.

(** ** Coalescing

    The in-place two-index pass: [prev] is [ranges[write_idx]], the list after
    it what [read_idx] still has to visit. *)
Fixpoint coalesce_loop (prev : MergeByteRange) (rest : list MergeByteRange) : list MergeByteRange :=
  match rest with
  | [] => [prev]
  | current :: rest' =>
      if mbr_start current <=? mbr_end prev then
        let new_end := Z.max (mbr_end prev) (mbr_end current) in
        coalesce_loop (mkRange (mbr_start prev) (saturating_sub new_end (mbr_start prev))) rest'
      else prev :: coalesce_loop current rest'
  end.

Definition range_key_le (r1 r2 : MergeByteRange) : bool :=
  (mbr_start r1 <? mbr_start r2)
  || ((mbr_start r1 =? mbr_start r2) && (mbr_end r1 <=? mbr_end r2)).

Definition coalesce_byte_ranges (ranges : list MergeByteRange) : list MergeByteRange :=
  if (length ranges <=? 1)%nat then ranges
  else match sort_by range_key_le ranges with
       | [] => []
       | first :: rest => coalesce_loop first rest
       end.
End with_sort.

(** ** The specification: a bit-level three-way merge

    Bit [k] of byte [n]; bytes past the end read as zero. *)
Definition bit (l : bytes) (n : nat) (k : Z) : bool := Z.testbit (default 0 (l !! n)) k.

(** No bit was changed by both writers, and [merged] takes each bit from the
    writer that changed it (from either one when nobody did). *)
Definition three_way (base latest staged merged : bytes) : Prop :=
  length latest = length base ∧ length staged = length base ∧ length merged = length base ∧
  ∀ (n : nat) (k : Z), 0 <= k < 8 →
    (bit latest n k = bit base n k ∧ bit merged n k = bit staged n k) ∨
    (bit staged n k = bit base n k ∧ bit merged n k = bit latest n k).

(** Byte [i] lies in a declared range. *)
Definition covered (rs : list MergeByteRange) (i : Z) : Prop :=
  ∃ r, r ∈ rs ∧ mbr_start r <= i < mbr_end r.

#[global] Instance covered_dec rs i : Decision (covered rs i).
Proof.
  refine (cast_if (decide (Exists (λ r, mbr_start r <= i < mbr_end r) rs)));
    unfold covered; rewrite <-Exists_exists; done.
Defined.

(** ** Bitmap merges *)

Lemma zip3_all_lookup ok (base latest staged : bytes) n b l s :
  zip3_all ok base latest staged = true →
  base !! n = Some b → latest !! n = Some l → staged !! n = Some s → ok b l s = true.
Proof.
  revert latest staged n. induction base as [|b' base IH]; intros [|l' latest] [|s' staged] n;
    simpl; try done.
  intros [Hok Hall]%andb_true_iff. destruct n as [|n]; simpl; [naive_solver|eauto].
Qed.

Lemma zip3_all_intro ok (base latest staged : bytes) :
  length latest = length base → length staged = length base →
  (∀ n b l s, base !! n = Some b → latest !! n = Some l → staged !! n = Some s →
    ok b l s = true) →
  zip3_all ok base latest staged = true.
Proof.
  revert latest staged. induction base as [|b' base IH]; intros [|l' latest] [|s' staged];
    simpl; try done.
  intros [= Hl] [= Hs] Hall. rewrite (Hall 0%nat b' l' s') by done. simpl.
  apply IH; try done. intros n. apply (Hall (S n)).
Qed.

Lemma or_into_lookup (l s : bytes) n :
  length s = length l →
  or_into l s !! n = (x ← l !! n; y ← s !! n; Some (Z.lor x y)).
Proof.
  revert s n. induction l as [|x l IH]; intros [|y s] [|n]; simpl; try done.
  intros [= Hl]. by apply IH.
Qed.

Lemma or_into_length l s : length (or_into l s) = length l.
Proof. revert s. induction l; intros []; simpl; auto. Qed.

Lemma xor_into_lookup (l b s : bytes) n :
  length b = length l → length s = length l →
  xor_into l b s !! n = (x ← l !! n; y ← b !! n; z ← s !! n; Some (Z.lxor x (Z.lxor y z))).
Proof.
  revert b s n. induction l as [|x l IH]; intros [|y b] [|z s] [|n]; simpl; try done.
  intros [= Hb] [= Hs]. by apply IH.
Qed.

Lemma xor_into_length l b s : length (xor_into l b s) = length l.
Proof. revert b s. induction l; intros [] []; simpl; auto. Qed.

Lemma not8_spec x k : 0 <= k < 8 → Z.testbit (not8 x) k = negb (Z.testbit x k).
Proof.
  intros Hk. unfold not8. rewrite Z.lxor_spec.
  assert (Z.testbit 255 k = true) as ->.
  { change 255 with (Z.ones 8). by apply Z.ones_spec_low. }
  by rewrite xorb_true_r.
Qed.

Lemma bitmap_delta_bits b l s k :
  bitmap_delta_byte_ok b l s = true →
  Z.testbit l k = Z.testbit b k ∨ Z.testbit s k = Z.testbit b k.
Proof.
  unfold bitmap_delta_byte_ok. intros Hz%Z.eqb_eq.
  apply (f_equal (λ x, Z.testbit x k)) in Hz. rewrite Z.bits_0, Z.land_spec, !Z.lxor_spec in Hz.
  destruct (Z.testbit b k), (Z.testbit l k), (Z.testbit s k); naive_solver.
Qed.

Lemma bitmap_or_bits b l s k :
  0 <= k < 8 → bitmap_or_byte_ok b l s = true →
  (Z.testbit b k = true → Z.testbit l k = true ∧ Z.testbit s k = true) ∧
  (Z.testbit b k = false → Z.testbit l k = false ∨ Z.testbit s k = false).
Proof.
  intros Hk. unfold bitmap_or_byte_ok. case_if; [done|]. intros H3%Z.eqb_eq.
  apply (f_equal (λ x, Z.testbit x k)) in H, H0, H3. rewrite Z.bits_0 in H, H0, H3.
  rewrite Z.land_spec, not8_spec in H, H0 by done.
  rewrite !Z.land_spec, !not8_spec in H3 by done.
  destruct (Z.testbit b k), (Z.testbit l k), (Z.testbit s k); naive_solver.
Qed.

(** Lift a statement about bytes at the same position to [bit]. *)
Lemma lookup_same_length (base l : bytes) n :
  length l = length base →
  (∃ x y, base !! n = Some x ∧ l !! n = Some y) ∨ (base !! n = None ∧ l !! n = None).
Proof.
  intros Hl. destruct (base !! n) as [x|] eqn:E.
  - left. apply lookup_lt_Some in E. rewrite <-Hl in E.
    apply lookup_lt_is_Some_2 in E as [y ?]. eauto.
  - right. split; [done|]. apply lookup_ge_None in E. apply lookup_ge_None. lia.
Qed.

Lemma bitmap_delta_three_way base latest staged :
  bitmap_delta_merge_valid base latest staged = true →
  three_way base latest staged (xor_into latest base staged).
Proof.
  unfold bitmap_delta_merge_valid. case_if; [done|]. intros Hz.
  apply zlen_inj in H as Hl, H0 as Hs.
  split_and!; [done..|by rewrite xor_into_length|].
  intros n k Hk. unfold bit. rewrite xor_into_lookup by congruence.
  destruct (lookup_same_length base latest n Hl) as [(b&l&Hb&Hln)|[Hb Hln]];
    destruct (lookup_same_length base staged n Hs) as [(b'&s&Hb'&Hsn)|[Hb' Hsn]];
    try congruence; rewrite Hb, Hln, Hsn; simpl; [|by left].
  pose proof (zip3_all_lookup _ _ _ _ _ _ _ _ Hz Hb Hln Hsn) as Hok.
  rewrite !Z.lxor_spec.
  destruct (bitmap_delta_bits b l s k Hok) as [->| ->];
    [left|right]; split; try done;
    destruct (Z.testbit b k), (Z.testbit l k), (Z.testbit s k); done.
Qed.

Lemma bitmap_or_three_way base latest staged :
  bitmap_or_merge_valid base latest staged = true →
  three_way base latest staged (or_into latest staged).
Proof.
  unfold bitmap_or_merge_valid. case_if; [done|]. intros Hz.
  apply zlen_inj in H as Hl, H0 as Hs.
  split_and!; [done..|by rewrite or_into_length|].
  intros n k Hk. unfold bit. rewrite or_into_lookup by congruence.
  destruct (lookup_same_length base latest n Hl) as [(b&l&Hb&Hln)|[Hb Hln]];
    destruct (lookup_same_length base staged n Hs) as [(b'&s&Hb'&Hsn)|[Hb' Hsn]];
    try congruence; rewrite Hb, Hln, Hsn; simpl; [|by left].
  pose proof (zip3_all_lookup _ _ _ _ _ _ _ _ Hz Hb Hln Hsn) as Hok.
  destruct (bitmap_or_bits b l s k Hk Hok) as [H1 H2]. rewrite Z.lor_spec.
  destruct (Z.testbit b k), (Z.testbit l k), (Z.testbit s k); naive_solver.
Qed.

(** ** Range overlay *)

Lemma not_covered_cons r rs i :
  ¬ covered (r :: rs) i ↔ ¬ (mbr_start r <= i < mbr_end r) ∧ ¬ covered rs i.
Proof.
  unfold covered. setoid_rewrite elem_of_cons. naive_solver.
Qed.

Lemma covered_cons r rs i :
  covered (r :: rs) i ↔ mbr_start r <= i < mbr_end r ∨ covered rs i.
Proof.
  unfold covered. setoid_rewrite elem_of_cons. naive_solver.
Qed.

Lemma covered_perm rs rs' i : rs ≡ₚ rs' → covered rs i ↔ covered rs' i.
Proof. intros Hp. unfold covered. by setoid_rewrite Hp. Qed.

(** A gap scan that answers [true] saw every uncovered byte unmodified. *)
Lemma gaps_unmodified_sound cursor ordered base staged (i : nat) :
  gaps_unmodified cursor ordered base staged = Ret true →
  length staged = length base →
  cursor <= Z.of_nat i → ¬ covered ordered (Z.of_nat i) →
  staged !! i = base !! i.
Proof.
  intros Hg Hlen. revert cursor Hg.
  induction ordered as [|r ordered IH]; intros cursor Hg Hc Hnc; simpl in Hg.
  - unfold slice_from in Hg. apply outcome_bind_Ret in Hg as (s&Hs&Hg).
    apply outcome_bind_Ret in Hg as (b&Hb&Hg). injection Hg as Hg.
    apply bool_decide_eq_true in Hg.
    destruct (decide (i < length base)%nat) as [Hi|Hi].
    + replace (zlen staged) with (zlen base) in Hs by (unfold zlen; lia).
      eapply (slice_eq_iff staged base); [done..|unfold zlen; lia].
    + rewrite !lookup_ge_None_2 by lia. done.
  - apply outcome_bind_Ret in Hg as (s&Hs&Hg).
    apply outcome_bind_Ret in Hg as (b&Hb&Hg).
    case_bool_decide as Heq; [|done].
    apply not_covered_cons in Hnc as [Hr Hnc].
    destruct (decide (Z.of_nat i < mbr_start r)) as [Hi|Hi].
    + eapply (slice_eq_iff staged base); [done..|lia].
    + apply (IH (mbr_end r)); [done| |done]. lia.
Qed.

(** The ranges follow one another from [cursor] up to [len] without overlap. *)
Fixpoint chained (cursor : Z) (ordered : list MergeByteRange) (len : Z) : Prop :=
  match ordered with
  | [] => cursor <= len
  | r :: rest => cursor <= mbr_start r ∧ mbr_start r <= mbr_end r ∧ chained (mbr_end r) rest len
  end.

Lemma chained_le cursor ordered len : chained cursor ordered len → cursor <= len.
Proof.
  revert cursor. induction ordered as [|r rs IH]; intros cursor; simpl; [done|].
  intros (?&?&?%IH). lia.
Qed.

Lemma chained_covered cursor ordered len i :
  chained cursor ordered len → covered ordered i → cursor <= i < len.
Proof.
  revert cursor. induction ordered as [|r rs IH]; intros cursor; simpl.
  { intros _ (?&Hin&_). by apply not_elem_of_nil in Hin. }
  intros (?&?&Hc) [?|Hcov]%covered_cons.
  - apply chained_le in Hc. lia.
  - apply (IH _ Hc) in Hcov. lia.
Qed.

(** On chained ranges the gap scan does not panic and decides whether every
    uncovered byte is unmodified. *)
Lemma gaps_unmodified_total cursor ordered base staged :
  0 <= cursor → length staged = length base → chained cursor ordered (zlen base) →
  ∃ v, gaps_unmodified cursor ordered base staged = Ret v ∧
    (v = true ↔ ∀ i : nat, cursor <= Z.of_nat i → ¬ covered ordered (Z.of_nat i) →
                 staged !! i = base !! i).
Proof.
  intros H0 Hlen. revert cursor H0.
  induction ordered as [|r rs IH]; intros cursor H0; simpl.
  - intros Hc. unfold slice_from.
    replace (zlen staged) with (zlen base) by (unfold zlen; lia).
    eexists. rewrite !slice_ok by (unfold zlen in *; lia). split; [done|].
    rewrite bool_decide_eq_true.
    rewrite (slice_eq_iff staged base _ _ cursor (zlen base));
      [|apply slice_ok; unfold zlen in *; lia..].
    split; intros Hall i Hi.
    + intros _. destruct (decide (i < length base)%nat); [apply Hall; unfold zlen; lia|].
      by rewrite !lookup_ge_None_2 by lia.
    + apply Hall; [lia|]. intros (?&Hin&_). by apply not_elem_of_nil in Hin.
  - intros (Hle&Hr&Hc). pose proof (chained_le _ _ _ Hc).
    destruct (IH (mbr_end r)) as (v&Hv&Hiff); [lia|done|].
    rewrite !slice_ok by (unfold zlen in *; lia). simpl.
    case_bool_decide as Heq.
    + exists v. split; [done|]. rewrite Hiff.
      rewrite (slice_eq_iff staged base _ _ cursor (mbr_start r)) in Heq;
        [|apply slice_ok; unfold zlen in *; lia..].
      split; intros Hall i Hi Hnc.
      * apply not_covered_cons in Hnc as [Hnr Hnc].
        destruct (decide (Z.of_nat i < mbr_start r)); [apply Heq; lia|].
        apply Hall; [lia|done].
      * apply Hall; [lia|]. apply not_covered_cons. split; [lia|done].
    + exists false. split; [done|]. split; [done|]. intros Hall. destruct Heq.
      apply (slice_eq_iff staged base _ _ cursor (mbr_start r));
        [apply slice_ok; unfold zlen in *; lia..|].
      intros i Hi. apply Hall; [lia|]. apply not_covered_cons. split; [lia|].
      intros Hcov%(chained_covered _ _ _ _ Hc). lia.
Qed.

Lemma disjoint_cons r rs :
  ranges_are_pairwise_disjoint (r :: rs) = true ↔
  Forall (λ r', overlaps r r' = false) rs ∧ ranges_are_pairwise_disjoint rs = true.
Proof.
  simpl. rewrite andb_true_iff, forallb_forall, Forall_forall.
  setoid_rewrite negb_true_iff. setoid_rewrite <-list_elem_of_In. done.
Qed.

Lemma overlaps_comm r1 r2 : overlaps r1 r2 = overlaps r2 r1.
Proof. unfold overlaps. apply andb_comm. Qed.

#[global] Instance disjoint_perm :
  Proper ((≡ₚ) ==> eq) ranges_are_pairwise_disjoint.
Proof.
  intros rs rs' Hp. apply eq_iff_eq_true.
  induction Hp as [|r rs rs' Hp IH|r1 r2 rs|? ? ? ? IH1 ? IH2]; [done| | |by rewrite IH1].
  - rewrite !disjoint_cons, IH. by setoid_rewrite Hp.
  - rewrite !disjoint_cons, !Forall_cons, (overlaps_comm r1 r2). naive_solver.
Qed.

(** A declared range as a caller may legitimately state it. *)
Definition range_ok (r : MergeByteRange) : Prop := 0 <= mbr_start r ∧ 0 < mbr_len r.

Lemma range_ok_end r len :
  range_ok r → mbr_end r <= len → len < usize_max → mbr_start r < mbr_end r.
Proof. unfold range_ok, mbr_end, saturating_add. lia. Qed.

Lemma sorted_disjoint_chained rs len cursor :
  Forall (λ r, mbr_start r < mbr_end r ∧ mbr_end r <= len ∧ cursor <= mbr_start r) rs →
  StronglySorted (λ r1 r2, (mbr_start r1 <=? mbr_start r2) = true) rs →
  ranges_are_pairwise_disjoint rs = true → cursor <= len →
  chained cursor rs len.
Proof.
  revert cursor. induction rs as [|r rs IH]; intros cursor Hall Hs Hd Hc; simpl; [done|].
  apply Forall_cons in Hall as [(?&?&?) Hall].
  apply StronglySorted_inv in Hs as [Hs Hle]. apply disjoint_cons in Hd as [Hov Hd].
  split_and!; [lia..|]. apply IH; [|done..|lia].
  rewrite !Forall_forall in *. intros r' Hin.
  specialize (Hall r' Hin) as (?&?&?). specialize (Hle r' Hin). specialize (Hov r' Hin).
  unfold overlaps in Hov. bool_to_prop. destruct Hov; bool_to_prop; lia.
Qed.

Lemma allM_Ret {A} (f : A → outcome bool) (P : A → Prop) l :
  (∀ x, x ∈ l → ∃ v, f x = Ret v ∧ (v = true ↔ P x)) →
  ∃ v, allM f l = Ret v ∧ (v = true ↔ Forall P l).
Proof.
  induction l as [|x l IH]; intros Hf; simpl.
  { exists true. by rewrite Forall_nil. }
  destruct (Hf x) as (v&->&Hv); [by left|]. simpl.
  destruct v; [|exists false; rewrite Forall_cons; naive_solver].
  destruct IH as (w&->&Hw); [intros; apply Hf; by right|].
  exists w. rewrite Forall_cons. naive_solver.
Qed.

Lemma allM_true {A} (f : A → outcome bool) l x :
  allM f l = Ret true → x ∈ l → f x = Ret true.
Proof.
  induction l as [|y l IH]; simpl; [by intros _ ?%not_elem_of_nil|].
  intros (v&Hv&Hr)%outcome_bind_Ret. destruct v; [|done].
  intros [->|?]%elem_of_cons; auto.
Qed.

Lemma overlay_ranges_lookup rs latest staged merged (i : nat) :
  overlay_ranges rs latest staged = Ret merged →
  merged !! i = if decide (covered rs (Z.of_nat i)) then staged !! i else latest !! i.
Proof.
  unfold overlay_ranges. revert latest. induction rs as [|r rs IH]; intros latest; cbn [foldM].
  { intros [= ->]. destruct (decide _) as [(?&Hin&_)|]; [|done]. by apply not_elem_of_nil in Hin. }
  intros (l'&Hl&Hr)%outcome_bind_Ret. apply outcome_bind_Ret in Hl as (src&Hsrc&Hl).
  apply IH in Hr. rewrite Hr, (copy_range_lookup _ _ _ _ _ _ Hl).
  destruct (decide (covered rs (Z.of_nat i))) as [Hc|Hc].
  { rewrite decide_True; [done|]. apply covered_cons. by right. }
  destruct ((mbr_start r <=? Z.of_nat i) && (Z.of_nat i <? mbr_end r)) eqn:E; bool_to_prop.
  - rewrite decide_True by (apply covered_cons; left; lia).
    by apply (slice_lookup staged (mbr_start r) (mbr_end r)).
  - rewrite decide_False; [done|]. apply not_covered_cons. split; [|done].
    destruct E; bool_to_prop; lia.
Qed.

Lemma overlay_ranges_length rs latest staged merged :
  overlay_ranges rs latest staged = Ret merged → length merged = length latest.
Proof.
  unfold overlay_ranges. revert latest. induction rs as [|r rs IH]; intros latest; simpl.
  { by intros [= ->]. }
  intros (l'&Hl&Hr)%outcome_bind_Ret. apply outcome_bind_Ret in Hl as (src&Hsrc&Hl).
  rewrite (IH _ Hr). by apply copy_range_length in Hl.
Qed.

(** Lookup at every position from [covered]-wise agreement gives [three_way]. *)
Lemma overlay_three_way rs base latest staged merged :
  length latest = length base → length staged = length base →
  overlay_ranges rs latest staged = Ret merged →
  (∀ i : nat, ¬ covered rs (Z.of_nat i) → staged !! i = base !! i) →
  (∀ i : nat, covered rs (Z.of_nat i) → latest !! i = base !! i) →
  three_way base latest staged merged.
Proof.
  intros Hl Hs Ho Hout Hin.
  split_and!; [done|done|by rewrite (overlay_ranges_length _ _ _ _ Ho)|].
  intros n k _. unfold bit. rewrite (overlay_ranges_lookup _ _ _ _ n Ho).
  destruct (decide (covered rs (Z.of_nat n))) as [Hc|Hc].
  - left. by rewrite (Hin n Hc).
  - right. by rewrite (Hout n Hc).
Qed.

Section merge_properties.
Context `{UnstableSort}.

(** What an accepting range validation has established. *)
Lemma ranges_valid_true rs (base latest staged : bytes) :
  merge_non_overlapping_ranges_valid rs base latest staged = Ret true →
  length latest = length base ∧ length staged = length base ∧
  Forall (λ r, 0 <= mbr_start r ∧ mbr_start r <= mbr_end r ∧ mbr_end r <= zlen base) rs ∧
  (∀ i : nat, ¬ covered rs (Z.of_nat i) → staged !! i = base !! i) ∧
  (∀ i : nat, covered rs (Z.of_nat i) → latest !! i = base !! i).
Proof.
  unfold merge_non_overlapping_ranges_valid.
  case_if; [done|]. case_if; [done|]. case_if; [done|].
  intros (u&Hu&Hall)%outcome_bind_Ret. destruct u; [|done].
  apply zlen_inj in H0 as Hl, H1 as Hs.
  pose proof (λ r Hin, allM_true _ _ r Hall Hin) as Hr. simpl in Hr.
  split_and!; [done|done| | |].
  - apply Forall_forall. intros r Hin. specialize (Hr r Hin).
    apply outcome_bind_Ret in Hr as (l&Hl'&Hr). apply outcome_bind_Ret in Hr as (b&Hb&_).
    apply slice_Ret in Hb as (?&?&_). lia.
  - intros i Hnc. eapply gaps_unmodified_sound; [done|done|lia|].
    by rewrite (covered_perm _ _ _ (sort_by_perm _ _ _)).
  - intros i (r&Hin&Hi). specialize (Hr r Hin).
    apply outcome_bind_Ret in Hr as (l&Hl'&Hr). apply outcome_bind_Ret in Hr as (b&Hb&Heq).
    injection Heq as Heq%bool_decide_eq_true.
    by apply (proj1 (slice_eq_iff latest base _ _ _ _ Hl' Hb)).
Qed.

(** Ranges that lie in the block can be overlaid without a panic. *)
Lemma overlay_ranges_total rs (base latest staged : bytes) :
  length latest = length base → length staged = length base →
  Forall (λ r, 0 <= mbr_start r ∧ mbr_start r <= mbr_end r ∧ mbr_end r <= zlen base) rs →
  ∃ merged, overlay_ranges rs latest staged = Ret merged.
Proof.
  unfold overlay_ranges. revert latest.
  induction rs as [|r rs IH]; intros latest Hl Hs Hall; cbn [foldM]; [eauto|].
  apply Forall_cons in Hall as [(?&?&?) Hall]. unfold zlen in *.
  rewrite slice_ok by (unfold zlen; lia). cbn [mbind outcome_bind].
  rewrite copy_range_ok; [|lia|unfold zlen; lia|].
  - apply IH; [|done..]. rewrite !length_app, !length_take, !length_drop. lia.
  - unfold zlen. rewrite length_take, length_drop. lia.
Qed.

Lemma merge_valid_decides_aux (p : MergeProof) (base latest staged : bytes) :
  match merge_valid p base latest staged with
  | Ret true => ∃ merged, merge_bytes p base latest staged = Ret (Some merged)
  | Ret false => merge_bytes p base latest staged = Ret None
  | Panic => merge_bytes p base latest staged = Panic
  end.
Proof.
  assert (∀ rs, match merge_non_overlapping_ranges_valid rs base latest staged with
    | Ret true => ∃ m, merge_non_overlapping_ranges rs base latest staged = Ret (Some m)
    | Ret false => merge_non_overlapping_ranges rs base latest staged = Ret None
    | Panic => merge_non_overlapping_ranges rs base latest staged = Panic end) as Hranges.
  { intros rs. unfold merge_non_overlapping_ranges.
    destruct (merge_non_overlapping_ranges_valid _ _ _ _) as [[]|] eqn:E; [|done..].
    apply ranges_valid_true in E as (Hl&Hs&Hin&_).
    destruct (overlay_ranges_total rs base latest staged Hl Hs Hin) as [m Hm].
    exists m. simpl. by rewrite Hm. }
  destruct p; simpl; try done; try apply Hranges.
  - destruct (append_only_merge_valid _ _ _ _) as [[]|] eqn:E; [|done..].
    unfold append_only_merge_valid in E. case_if_in E; [done|].
    apply outcome_bind_Ret in E as (q&Hq&_). apply slice_Ret in Hq as (?&?&_).
    eexists. simpl. unfold slice_from. rewrite slice_ok by lia. done.
  - by destruct (bitmap_or_merge_valid _ _ _); simpl; eauto.
  - by destruct (bitmap_delta_merge_valid _ _ _); simpl; eauto.
Qed.

(** C31. The allocation-free preflight check decides the install-time merge:
    [merge_valid] answers [true] exactly when [merge_bytes] produces a block,
    [false] exactly when it refuses, and one panics exactly when the other does. *)
Theorem merge_valid_decides_merge_bytes (p : MergeProof) (base latest staged : bytes) :
  match merge_valid p base latest staged with
  | Ret true => ∃ merged, merge_bytes p base latest staged = Ret (Some merged)
  | Ret false => merge_bytes p base latest staged = Ret None
  | Panic => merge_bytes p base latest staged = Panic
  end.
Proof. apply merge_valid_decides_aux. Qed.

Lemma merge_bytes_three_way_aux p base latest staged merged :
  mechanism p ≠ MechAppendOnly →
  merge_bytes p base latest staged = Ret (Some merged) →
  three_way base latest staged merged.
Proof.
  intros Hmech Hm.
  assert (∀ rs, merge_non_overlapping_ranges rs base latest staged = Ret (Some merged) →
    three_way base latest staged merged) as Hranges.
  { intros rs. unfold merge_non_overlapping_ranges. intros (v&Hv&Hm')%outcome_bind_Ret.
    destruct v; [|done]. simpl in Hm'. apply outcome_bind_Ret in Hm' as (m&Ho&[= ->]).
    apply ranges_valid_true in Hv as (Hl&Hs&_&Hout&Hin).
    by eapply overlay_three_way. }
  destruct p; simpl in *; try done; eauto.
  - destruct (bitmap_or_merge_valid _ _ _) eqn:E; simpl in Hm; [|done].
    injection Hm as <-. by apply bitmap_or_three_way.
  - destruct (bitmap_delta_merge_valid _ _ _) eqn:E; simpl in Hm; [|done].
    injection Hm as <-. by apply bitmap_delta_three_way.
Qed.

(** No lost update: every whole-block merge (range overlay, bitmap OR,
    bitmap delta) that is accepted is a bit-level three-way merge.  No bit was
    changed by both the committed and the staged writer, and the merged block
    takes every bit from the writer that changed it. *)
Lemma merge_bytes_three_way (p : MergeProof) (base latest staged merged : bytes) :
  mechanism p ≠ MechAppendOnly →
  merge_bytes p base latest staged = Ret (Some merged) →
  three_way base latest staged merged.
Proof. apply merge_bytes_three_way_aux. Qed.
End merge_properties.

Lemma three_way_sym base latest staged merged :
  three_way base latest staged merged → three_way base staged latest merged.
Proof. intros (?&?&?&Hb). split_and!; [done..|]. intros n k Hk. destruct (Hb n k Hk); auto. Qed.

Lemma byte_ok_high x k : byte_ok x → 8 <= k → Z.testbit x k = false.
Proof.
  intros [H0 H1] Hk. destruct (decide (x = 0)) as [->|]; [apply Z.bits_0|].
  apply Z.bits_above_log2; [lia|].
  apply Z.log2_lt_pow2; [lia|]. apply Z.lt_le_trans with (2 ^ 8); [lia|].
  apply Z.pow_le_mono_r; lia.
Qed.

Lemma bits_ext (l k : bytes) :
  length l = length k → bytes_ok l → bytes_ok k →
  (∀ n j, 0 <= j < 8 → bit l n j = bit k n j) → l = k.
Proof.
  intros Hlen Hl Hk Hb. apply list_eq. intros n.
  destruct (lookup_same_length l k n) as [(x&y&Hx&Hy)|[Hx Hy]]; [done| |congruence].
  rewrite Hx, Hy. f_equal. apply Z.bits_inj'. intros j Hj.
  pose proof (Forall_lookup_1 _ _ _ _ Hl Hx). pose proof (Forall_lookup_1 _ _ _ _ Hk Hy).
  destruct (decide (j < 8)).
  - specialize (Hb n j). unfold bit in Hb. rewrite Hx, Hy in Hb. apply Hb. lia.
  - by rewrite !byte_ok_high by (done || lia).
Qed.

(** A three-way merge is determined by its inputs. *)
Lemma three_way_unique base latest staged m1 m2 :
  three_way base latest staged m1 → three_way base latest staged m2 →
  bytes_ok m1 → bytes_ok m2 → m1 = m2.
Proof.
  intros (_&_&Hl1&H1) (_&_&Hl2&H2) Hb1 Hb2.
  apply bits_ext; [congruence|done..|]. intros n j Hj.
  destruct (H1 n j Hj) as [[? ?]|[? ?]], (H2 n j Hj) as [[? ?]|[? ?]]; congruence.
Qed.

(** Byte results of bitwise operations stay bytes. *)
Lemma byte_ok_bits x : 0 <= x → (∀ k, 8 <= k → Z.testbit x k = false) → byte_ok x.
Proof.
  intros H0 Hk. split; [done|].
  destruct (decide (x = 0)) as [->|]; [lia|].
  destruct (decide (x < 256)) as [|Hge]; [done|]. exfalso.
  assert (8 <= Z.log2 x) as Hlog by (apply Z.log2_le_pow2; lia).
  pose proof (Hk _ Hlog) as Hf. rewrite Z.bit_log2 in Hf by lia. done.
Qed.

Lemma byte_ok_lor x y : byte_ok x → byte_ok y → byte_ok (Z.lor x y).
Proof.
  intros Hx Hy. apply byte_ok_bits.
  - apply Z.lor_nonneg. unfold byte_ok in *. lia.
  - intros k Hk. by rewrite Z.lor_spec, !byte_ok_high.
Qed.

Lemma byte_ok_lxor x y : byte_ok x → byte_ok y → byte_ok (Z.lxor x y).
Proof.
  intros Hx Hy. apply byte_ok_bits.
  - apply Z.lxor_nonneg. unfold byte_ok in *. lia.
  - intros k Hk. by rewrite Z.lxor_spec, !byte_ok_high.
Qed.

#[export] Hint Resolve byte_ok_lor byte_ok_lxor : ffs.

Lemma or_into_ok l s : bytes_ok l → bytes_ok s → bytes_ok (or_into l s).
Proof.
  intros Hl. revert s. induction Hl as [|x l Hx Hl IH]; intros s Hs; simpl; [constructor|].
  destruct Hs; constructor; auto with ffs. by apply IH.
Qed.

Lemma xor_into_ok l b s : bytes_ok l → bytes_ok b → bytes_ok s → bytes_ok (xor_into l b s).
Proof.
  intros Hl. revert b s. induction Hl as [|x l Hx Hl IH]; intros b s Hb Hs; simpl; [constructor|].
  destruct Hb; [by constructor|]. destruct Hs; [by constructor|].
  constructor; auto with ffs. by apply IH.
Qed.

Lemma overlay_ranges_ok rs latest staged merged :
  bytes_ok latest → bytes_ok staged →
  overlay_ranges rs latest staged = Ret merged → bytes_ok merged.
Proof.
  intros Hl Hs Ho. apply Forall_lookup. intros i x.
  rewrite (overlay_ranges_lookup _ _ _ _ i Ho).
  destruct (decide _); intros Hx; [by eapply (Forall_lookup_1 _ staged)|].
  by eapply (Forall_lookup_1 _ latest).
Qed.

Section merge_properties.
Context `{UnstableSort}.

Lemma merge_bytes_ok p base latest staged merged :
  bytes_ok base → bytes_ok latest → bytes_ok staged →
  merge_bytes p base latest staged = Ret (Some merged) → bytes_ok merged.
Proof.
  intros Hb Hl Hs Hm.
  assert (∀ rs, merge_non_overlapping_ranges rs base latest staged = Ret (Some merged) →
    bytes_ok merged) as Hranges.
  { intros rs. unfold merge_non_overlapping_ranges. intros (v&Hv&Hm')%outcome_bind_Ret.
    destruct v; [|done]. simpl in Hm'. apply outcome_bind_Ret in Hm' as (m&Ho&[= ->]).
    by apply (overlay_ranges_ok rs latest staged). }
  destruct p; simpl in *; try done; eauto.
  - apply outcome_bind_Ret in Hm as (v&_&Hm). destruct v; [|done]. simpl in Hm.
    apply outcome_bind_Ret in Hm as (sfx&Hsfx&[= <-]).
    apply slice_Ret in Hsfx as (_&_&->).
    apply Forall_app. split; [done|]. by apply Forall_take, Forall_drop.
  - case_if_in Hm; [done|]. injection Hm as <-. by apply or_into_ok.
  - case_if_in Hm; [done|]. injection Hm as <-. by apply xor_into_ok.
Qed.

(** Commit order does not matter: when two writers that started from the
    same base block can each be merged on top of the other (each under its own
    proof), both orders produce the same block. *)
Lemma merge_order_independent (p1 p2 : MergeProof) (base w1 w2 m12 m21 : bytes) :
  bytes_ok base → bytes_ok w1 → bytes_ok w2 →
  mechanism p1 ≠ MechAppendOnly → mechanism p2 ≠ MechAppendOnly →
  merge_bytes p2 base w1 w2 = Ret (Some m12) →
  merge_bytes p1 base w2 w1 = Ret (Some m21) →
  m12 = m21.
Proof.
  intros Hb H1 H2 Hp1 Hp2 Hm12 Hm21.
  apply (three_way_unique base w1 w2).
  - by eapply (merge_bytes_three_way_aux p2).
  - apply three_way_sym. by eapply (merge_bytes_three_way_aux p1).
  - by eapply (merge_bytes_ok p2 base w1 w2).
  - by eapply (merge_bytes_ok p1 base w2 w1).
Qed.

(** The delta proof generalizes the OR proof: whatever the set-only bitmap
    merge accepts, the delta merge accepts with the same resulting block. *)
Lemma bitmap_delta_generalizes_or (base latest staged merged : bytes) :
  bytes_ok base → bytes_ok latest → bytes_ok staged →
  merge_bytes BitmapOr base latest staged = Ret (Some merged) →
  merge_bytes BitmapDelta base latest staged = Ret (Some merged).
Proof.
  intros Hb Hl Hs Hm. pose proof (merge_bytes_ok _ _ _ _ _ Hb Hl Hs Hm) as Hmok.
  apply merge_bytes_three_way_aux in Hm as H3; [|done].
  assert (bitmap_delta_merge_valid base latest staged = true) as Hv.
  { simpl in Hm. destruct (bitmap_or_merge_valid base latest staged) eqn:E; simpl in Hm; [|done].
    revert E. unfold bitmap_or_merge_valid, bitmap_delta_merge_valid.
    case_if; [done|]. intros E. destruct H3 as (Hl'&Hs'&_).
    apply zip3_all_intro; [done..|]. intros n b l s Hbn Hln Hsn.
    pose proof (zip3_all_lookup _ _ _ _ _ _ _ _ E Hbn Hln Hsn) as Hok.
    apply Z.eqb_eq, Z.bits_inj'. intros k Hk. rewrite Z.bits_0, Z.land_spec, !Z.lxor_spec.
    destruct (decide (k < 8)).
    - destruct (bitmap_or_bits b l s k) as [Ho1 Ho2]; [lia|done|].
      destruct (Z.testbit b k), (Z.testbit l k), (Z.testbit s k); naive_solver.
    - pose proof (Forall_lookup_1 _ _ _ _ Hb Hbn). pose proof (Forall_lookup_1 _ _ _ _ Hl Hln).
      pose proof (Forall_lookup_1 _ _ _ _ Hs Hsn).
      by rewrite !byte_ok_high by (done || lia). }
  simpl. rewrite Hv. simpl. do 2 f_equal.
  apply (three_way_unique base latest staged); [by apply bitmap_delta_three_way|done| |done].
  by apply xor_into_ok.
Qed.

(** An accepted append-only merge keeps the common prefix, then everything
    the committed writer appended, then everything the staged writer appended. *)
Lemma append_only_merge_concatenates (base_len : Z) (base latest staged merged : bytes) :
  merge_bytes (AppendOnly base_len) base latest staged = Ret (Some merged) →
  merged = take (Z.to_nat base_len) base ++ drop (Z.to_nat base_len) latest
           ++ drop (Z.to_nat base_len) staged
  ∧ take (Z.to_nat base_len) latest = take (Z.to_nat base_len) base
  ∧ take (Z.to_nat base_len) staged = take (Z.to_nat base_len) base.
Proof.
  simpl. intros (v&Hv&Hm)%outcome_bind_Ret. destruct v; [|done]. simpl in Hm.
  apply outcome_bind_Ret in Hm as (sfx&Hsfx&[= <-]).
  unfold append_only_merge_valid in Hv. case_if_in Hv; [done|].
  apply outcome_bind_Ret in Hv as (q&Hq&Hv). apply outcome_bind_Ret in Hv as (l&Hl&Hv).
  apply outcome_bind_Ret in Hv as (s&Hs&Hv). injection Hv as Hv.
  apply negb_true_iff in Hv.
  apply orb_false_iff in Hv as [Hv1%bool_decide_eq_false Hv2%bool_decide_eq_false].
  apply dec_stable in Hv1, Hv2. subst l s.
  unfold slice_from in Hsfx. apply slice_Ret in Hq as (?&?&->), Hl as (_&_&Hl), Hs as (_&_&Hs).
  apply slice_Ret in Hsfx as (?&?&->).
  rewrite Z.sub_0_r, !drop_0 in Hl, Hs. split_and!; [|done..].
  rewrite Hl, app_assoc, take_drop. f_equal.
  apply take_ge. rewrite length_drop. unfold zlen in *. lia.
Qed.

(** Non-empty ranges inside the block, sorted, form a chain the gap scan can walk. *)
Lemma ordered_chained rs (base : bytes) :
  Forall range_ok rs → zlen base < usize_max → ranges_are_pairwise_disjoint rs = true →
  Forall (λ r, mbr_end r <= zlen base) rs →
  chained 0 (sort_by (λ r1 r2, mbr_start r1 <=? mbr_start r2) rs) (zlen base).
Proof.
  intros Hrs Hmax Hdisj Hend.
  pose proof (sort_by_perm _ (λ r1 r2, mbr_start r1 <=? mbr_start r2) rs) as Hp.
  apply sorted_disjoint_chained; [| |by rewrite Hp|apply zlen_nonneg].
  - rewrite Hp. rewrite Forall_forall in Hrs, Hend |- *. intros r Hin.
    specialize (Hrs r Hin). specialize (Hend r Hin).
    split_and!; [by eapply range_ok_end|done|]. by destruct Hrs.
  - apply sort_by_sorted.
    + intros x y. rewrite !Z.leb_le. lia.
    + intros x y z. rewrite !Z.leb_le. lia.
Qed.

(** The per-range comparison of [latest] with [base] on ranges inside the block. *)
Lemma ranges_latest_check rs (base latest : bytes) :
  length latest = length base → Forall range_ok rs → zlen base < usize_max →
  Forall (λ r, mbr_end r <= zlen base) rs →
  ∃ w, allM (λ r,
      l ← slice latest (mbr_start r) (mbr_end r);
      b ← slice base (mbr_start r) (mbr_end r); Ret (bool_decide (l = b))) rs = Ret w ∧
    (w = true ↔ ∀ i : nat, covered rs (Z.of_nat i) → latest !! i = base !! i).
Proof.
  intros Hl Hrs Hmax Hend.
  destruct (allM_Ret (λ r,
      l ← slice latest (mbr_start r) (mbr_end r);
      b ← slice base (mbr_start r) (mbr_end r); Ret (bool_decide (l = b)))
    (λ r, ∀ i : nat, mbr_start r <= Z.of_nat i < mbr_end r → latest !! i = base !! i) rs)
    as (w&->&Hw).
  { intros r Hin. rewrite Forall_forall in Hrs, Hend.
    pose proof (range_ok_end r (zlen base) (Hrs r Hin) (Hend r Hin) Hmax).
    destruct (Hrs r Hin) as [? _]. specialize (Hend r Hin).
    eexists. rewrite !slice_ok by (unfold zlen in *; lia). split; [done|].
    rewrite bool_decide_eq_true.
    by rewrite (slice_eq_iff latest base _ _ (mbr_start r) (mbr_end r))
      by (apply slice_ok; unfold zlen in *; lia). }
  exists w. split; [done|]. rewrite Hw, Forall_forall. split.
  - intros Hall i (r&Hin&Hi). by apply (Hall r).
  - intros Hin r Hr i Hi. apply Hin. by exists r.
Qed.

Lemma ranges_valid_iff (rs : list MergeByteRange) (base latest staged : bytes) :
  Forall range_ok rs → zlen base < usize_max →
  ∃ v, merge_non_overlapping_ranges_valid rs base latest staged = Ret v ∧
    (v = true ↔
      length latest = length base ∧ length staged = length base ∧
      ranges_are_pairwise_disjoint rs = true ∧
      Forall (λ r, mbr_end r <= zlen base) rs ∧
      (∀ i : nat, ¬ covered rs (Z.of_nat i) → staged !! i = base !! i) ∧
      (∀ i : nat, covered rs (Z.of_nat i) → latest !! i = base !! i)).
Proof.
  intros Hrs Hmax. unfold merge_non_overlapping_ranges_valid. case_if as E1.
  { exists false. split; [done|]. split; [done|]. intros (?&?&_). unfold zlen in *.
    bool_to_prop. destruct E1; bool_to_prop; lia. }
  apply orb_false_iff in E1 as [Hl%negb_false_iff Hs%negb_false_iff].
  apply Z.eqb_eq in Hl, Hs. apply zlen_inj in Hl, Hs.
  case_if as E2; [apply negb_true_iff in E2; exists false; naive_solver congruence|].
  apply negb_false_iff in E2. case_if as E3.
  { apply existsb_exists in E3 as (r&Hin&Hlt). bool_to_prop. exists false.
    split; [done|]. split; [done|]. intros (_&_&_&Hall&_).
    rewrite Forall_forall in Hall. apply list_elem_of_In in Hin. apply Hall in Hin. lia. }
  assert (Forall (λ r, mbr_end r <= zlen base) rs) as Hend.
  { apply Forall_forall. intros r Hin. apply list_elem_of_In in Hin.
    destruct (zlen base <? mbr_end r) eqn:E; bool_to_prop; [|done].
    exfalso. rewrite <-not_true_iff_false in E3. apply E3, existsb_exists.
    exists r. split; [done|]. by apply Z.ltb_lt. }
  pose proof (ordered_chained rs base Hrs Hmax E2 Hend) as Hch.
  pose proof (sort_by_perm _ (λ r1 r2, mbr_start r1 <=? mbr_start r2) rs) as Hp.
  destruct (gaps_unmodified_total 0 _ base staged (Z.le_refl 0) Hs Hch) as (v&->&Hv).
  simpl. destruct v; simpl; [|exists false; split; [done|]; split; [done|];
    intros (_&_&_&_&Hout&_); apply Hv; intros i _ Hnc; apply Hout;
    by rewrite <-(covered_perm _ _ _ Hp)].
  destruct (ranges_latest_check rs base latest Hl Hrs Hmax Hend) as (w&->&Hw).
  exists w. split; [done|]. rewrite Hw. split; [|by intros (_&_&_&_&_&?)].
  intros Hall. split_and!; [done..| |done].
  intros i Hnc. apply Hv; [done|lia|]. by rewrite (covered_perm _ _ _ Hp).
Qed.

(** No validator panics when the declared ranges are non-empty. *)
Lemma merge_valid_total p (base latest staged : bytes) :
  (∀ rs, (p = IndependentKeys rs ∨ p = NonOverlappingExtents rs ∨ p = TimestampOnlyInode rs) →
     Forall range_ok rs) →
  (∀ n, p = AppendOnly n → 0 <= n) →
  zlen base < usize_max → ∃ v, merge_valid p base latest staged = Ret v.
Proof.
  intros Hrs Hn Hmax. destruct p; simpl; eauto.
  - unfold append_only_merge_valid. case_if as E; [eauto|]. specialize (Hn _ eq_refl).
    bool_to_prop. rewrite !slice_ok by lia. simpl. eauto.
  - destruct (ranges_valid_iff touched_ranges base latest staged) as (v&->&_); eauto.
  - destruct (ranges_valid_iff touched_ranges base latest staged) as (v&->&_); eauto.
  - destruct (ranges_valid_iff touched_ranges base latest staged) as (v&->&_); eauto.
Qed.

(** For declared ranges that are non-empty the range validator never
    panics, and it accepts exactly the safe merges: equal block sizes, pairwise
    disjoint ranges inside the block, [staged] unmodified outside the ranges
    and [latest] unmodified inside them. *)
Lemma range_overlay_accepts_iff (rs : list MergeByteRange) (base latest staged : bytes) :
  Forall range_ok rs → zlen base < usize_max →
  ∃ v, merge_valid (IndependentKeys rs) base latest staged = Ret v ∧
    (v = true ↔
      length latest = length base ∧ length staged = length base ∧
      ranges_are_pairwise_disjoint rs = true ∧
      Forall (λ r, mbr_end r <= zlen base) rs ∧
      (∀ i : nat, ¬ covered rs (Z.of_nat i) → staged !! i = base !! i) ∧
      (∀ i : nat, covered rs (Z.of_nat i) → latest !! i = base !! i)).
Proof. apply ranges_valid_iff. Qed.
End merge_properties.

(** ** Coalescing *)

(** Ranges whose end does not saturate. *)
Definition range_wf (r : MergeByteRange) : Prop :=
  0 <= mbr_start r ∧ 0 <= mbr_len r ∧ mbr_start r + mbr_len r <= usize_max.

(** Ascending, with at least one byte between neighbours. *)
Definition gapped (rs : list MergeByteRange) : Prop :=
  StronglySorted (λ r1 r2, mbr_end r1 < mbr_start r2) rs.

Lemma range_wf_end r : range_wf r → mbr_end r = mbr_start r + mbr_len r.
Proof. unfold range_wf, mbr_end, saturating_add. lia. Qed.

Lemma coalesce_loop_spec prev rest :
  Forall range_wf (prev :: rest) →
  StronglySorted (λ r1 r2, mbr_start r1 <= mbr_start r2) (prev :: rest) →
  let rs := coalesce_loop prev rest in
  gapped rs ∧ Forall range_wf rs ∧ Forall (λ r, mbr_start prev <= mbr_start r) rs ∧
  (∀ i, covered rs i ↔ covered (prev :: rest) i).
Proof.
  revert prev. induction rest as [|cur rest IH]; intros prev Hwf Hs; cbn [coalesce_loop].
  { split_and!; [repeat constructor|done| |done]. constructor; [lia|constructor]. }
  apply Forall_cons in Hwf as [Hp Hwf]. apply Forall_cons in Hwf as [Hc Hwf].
  apply StronglySorted_inv in Hs as [Hs Hall].
  apply Forall_cons in Hall as [Hpc Hall].
  pose proof (range_wf_end _ Hp) as Hpe. pose proof (range_wf_end _ Hc) as Hce.
  unfold range_wf in Hp, Hc. case_if.
  - set (new_end := Z.max (mbr_end prev) (mbr_end cur)).
    set (p' := mkRange (mbr_start prev) (saturating_sub new_end (mbr_start prev))).
    assert (mbr_end p' = new_end) as Hend.
    { unfold p', new_end, mbr_end at 1, saturating_add, saturating_sub. simpl. lia. }
    apply StronglySorted_inv in Hs as [Hs _].
    destruct (IH p') as (Hg&Hw&Hst&Hcov).
    + constructor; [|done]. unfold range_wf, p', new_end, saturating_sub. simpl. lia.
    + constructor; [done|]. eapply Forall_impl; [exact Hall|]. done.
    + split_and!; [done..|]. intros i. rewrite Hcov, !covered_cons, Hend. simpl.
      unfold new_end. split; [intros [?|?]|intros [?|[?|?]]]; auto; [|left; lia..].
      destruct (decide (i < mbr_end prev)); [left; lia|right; left; lia].
  - destruct (IH cur) as (Hg&Hw&Hst&Hcov); [by constructor|done|]. split_and!.
    + constructor; [done|]. eapply Forall_impl; [exact Hst|]. simpl. lia.
    + by constructor.
    + constructor; [lia|]. eapply Forall_impl; [exact Hst|]. simpl. lia.
    + intros i. by rewrite !covered_cons, Hcov, covered_cons.
Qed.

Lemma range_key_le_total r1 r2 : range_key_le r1 r2 = true ∨ range_key_le r2 r1 = true.
Proof. unfold range_key_le. rewrite !orb_true_iff, !andb_true_iff. lia. Qed.

Lemma range_key_le_trans r1 r2 r3 :
  range_key_le r1 r2 = true → range_key_le r2 r3 = true → range_key_le r1 r3 = true.
Proof. unfold range_key_le. rewrite !orb_true_iff, !andb_true_iff. lia. Qed.

Lemma StronglySorted_weaken {A} (R Q : relation A) l :
  (∀ x y, R x y → Q x y) → StronglySorted R l → StronglySorted Q l.
Proof.
  intros HRQ. induction 1 as [|x l Hs IH Hall]; constructor; [done|].
  eapply Forall_impl; [exact Hall|]. auto.
Qed.

Section coalesce_properties.
Context `{UnstableSort}.

Lemma coalesce_byte_ranges_spec rs :
  Forall range_wf rs →
  gapped (coalesce_byte_ranges rs) ∧ Forall range_wf (coalesce_byte_ranges rs) ∧
  (∀ i, covered (coalesce_byte_ranges rs) i ↔ covered rs i).
Proof.
  intros Hwf. unfold coalesce_byte_ranges.
  destruct (length rs <=? 1)%nat eqn:E.
  { apply Nat.leb_le in E. unfold gapped.
    destruct rs as [|r [|]]; simpl in E; [| |lia]; split_and!; try done; repeat constructor. }
  pose proof (sort_by_perm _ range_key_le rs) as Hp.
  pose proof (sort_by_sorted _ range_key_le rs range_key_le_total range_key_le_trans) as Hs.
  destruct (sort_by range_key_le rs) as [|r rest].
  { symmetry in Hp. apply Permutation_nil_r in Hp. by subst. }
  destruct (coalesce_loop_spec r rest) as (?&?&_&Hc).
  - by rewrite Hp.
  - eapply StronglySorted_weaken; [|exact Hs]. intros x y. unfold range_key_le.
    rewrite orb_true_iff, andb_true_iff. lia.
  - split_and!; [done..|]. intros i. rewrite Hc. by apply covered_perm.
Qed.

(** Coalescing loses no byte and adds none: the coalesced ranges cover
    exactly the bytes the declared ranges covered, and they come out ascending
    with a gap between neighbours, hence pairwise disjoint. *)
Lemma coalesce_byte_ranges_correct (ranges : list MergeByteRange) :
  Forall range_wf ranges →
  (∀ i, covered (coalesce_byte_ranges ranges) i ↔ covered ranges i) ∧
  gapped (coalesce_byte_ranges ranges) ∧
  ranges_are_pairwise_disjoint (coalesce_byte_ranges ranges) = true.
Proof.
  intros Hwf. destruct (coalesce_byte_ranges_spec ranges Hwf) as (Hg&Hw&Hc).
  split_and!; [done..|]. clear Hc. induction Hg as [|r rs Hg IH Hall]; [done|].
  apply Forall_cons in Hw as [_ Hw]. apply disjoint_cons. split; [|by apply IH].
  eapply Forall_impl; [exact Hall|]. intros r' Hlt. unfold overlaps. apply andb_false_iff.
  right. apply Z.ltb_ge. simpl in Hlt. lia.
Qed.
End coalesce_properties.

(** A zero-length range declared at the start of another one passes the
    disjointness check but makes the gap scan slice backwards: the validator
    panics instead of answering. *)
Lemma zero_length_range_panics :
  @merge_valid InsertionSort (independent_keys [(3, 4); (3, 0)])
    (replicate 8 0) (replicate 8 0) (replicate 8 0) = Panic.
Proof. vm_compute. reflexivity. Qed.

(** ** Witnesses *)


Lemma bytes_ok_check (l : bytes) : forallb (λ b, (0 <=? b) && (b <? 256)) l = true → bytes_ok l.
Proof.
  intros Hl. apply Forall_forall. intros b Hb. rewrite forallb_forall in Hl.
  apply list_elem_of_In, Hl in Hb. apply andb_true_iff in Hb as [??]. unfold byte_ok.
  bool_to_prop. lia.
Qed.





