(* ===== verification/Chain.v ===== *)
(** * Version chains

    Models the chain-level code of the MVCC store: [VersionData] and its
    resolution (crates/ffs-mvcc/src/compression.rs), the snapshot lookup
    [newest_visible_index_by] with the standard library's [partition_point]
    (crates/ffs-mvcc/src/lib.rs) and the chain trimming helpers of
    crates/ffs-mvcc/src/store.rs.  The zstd and brotli codecs are external
    crates: they are the class [VersionCodec] with their round-trip law. *)

From stdpp Require Import base sorting numbers gmap list.
From S2P Require Import Prelude Sorted.

Local Open Scope Z_scope.

(** ** The external compressors *)

Class VersionCodec : Type := {
  zstd_encode_all : Z → bytes → option bytes;
  zstd_decode_all : bytes → option bytes;
  brotli_compress : Z → bytes → option bytes;
  brotli_decompress : bytes → option bytes;
  zstd_roundtrip : ∀ level x y, zstd_encode_all level x = Some y → zstd_decode_all y = Some x;
  brotli_roundtrip : ∀ level x y, brotli_compress level x = Some y → brotli_decompress y = Some x;
}.

(** A run-length codec for constant blocks, an instance of the law. *)
Definition rle_encode (x : bytes) : option bytes :=
  match x with
  | [] => None
  | b :: _ => if bool_decide (x = replicate (length x) b) then Some [b; zlen x] else None
  end.

Definition rle_decode (y : bytes) : option bytes :=
  match y with
  | [b; n] => Some (replicate (Z.to_nat n) b)
  | _ => None
  end.

Lemma rle_roundtrip x y : rle_encode x = Some y → rle_decode y = Some x.
Proof.
  unfold rle_encode. destruct x as [|b x]; [done|]. case_bool_decide as Heq; [|done].
  intros [= <-]. cbn [rle_decode]. unfold zlen. rewrite Nat2Z.id. by rewrite <-Heq.
Qed.

Definition RleCodec : VersionCodec := {|
  zstd_encode_all := λ _ x, rle_encode x;
  zstd_decode_all := rle_decode;
  brotli_compress := λ _ x, rle_encode x;
  brotli_decompress := rle_decode;
  zstd_roundtrip := λ _, rle_roundtrip;
  brotli_roundtrip := λ _, rle_roundtrip;
|}.

(** ** Data *)

Inductive VersionData :=
| Full (data : bytes)
| Identical
| Zstd (data : bytes)
| Brotli (data : bytes).

#[global] Instance VersionData_eq_dec : EqDecision VersionData.
Proof. solve_decision. Defined.

Definition is_identical (d : VersionData) : bool :=
  match d with Identical => true | _ => false end.

Definition is_full (d : VersionData) : bool :=
  match d with Full _ => true | _ => false end.

Definition memory_bytes (d : VersionData) : Z :=
  match d with
  | Full b => zlen b
  | Zstd b | Brotli b => zlen b
  | Identical => 0
  end.

Record BlockVersion := mkVersion {
  bv_block : Z;
  bv_commit_seq : Z;
  bv_writer : Z;
  bv_data : VersionData;
}.

#[global] Instance BlockVersion_eq_dec : EqDecision BlockVersion.
Proof. solve_decision. Defined.

Definition bytes_inline (v : BlockVersion) : option bytes :=
  match bv_data v with Full b => Some b | _ => None end.

Record PhysicalBlockVersion := mkPhysical {
  pv_logical : Z;
  pv_physical : Z;
  pv_commit_seq : Z;
  pv_writer : Z;
}.

#[global] Instance PhysicalBlockVersion_eq_dec : EqDecision PhysicalBlockVersion.
Proof. solve_decision. Defined.

Inductive CompressionAlgo :=
| AlgoNone
| AlgoZstd (level : Z)
| AlgoBrotli (level : Z).

Record CompressionPolicy := mkPolicy {
  dedup_identical : bool;
  max_chain_length : option Z;
  algo : CompressionAlgo;
}.

Definition default_policy : CompressionPolicy := mkPolicy true (Some 64) AlgoNone.
Definition policy_none : CompressionPolicy := mkPolicy false None AlgoNone.
Definition policy_dedup_only : CompressionPolicy := mkPolicy true None AlgoNone.

(** ** Snapshot lookup *)

Definition newest_visible_index_by {T} (versions : list T) (visible_high : Z)
    (commit_seq : T → Z) : option nat :=
  last_index ← nat_checked_pred (length versions);
  newest ← versions !! last_index;
  if commit_seq newest <=? visible_high then Some last_index
  else nat_checked_pred
         (partition_point (λ version, commit_seq version <=? visible_high) versions).

Definition newest_visible_index (versions : list BlockVersion) (visible_high : Z) : option nat :=
  newest_visible_index_by versions visible_high bv_commit_seq.

(** ** Resolution and trimming *)

Section with_codec.
Context `{VersionCodec}.

(** The backward walk of [resolve_data_with], [i] counting down. *)
Fixpoint resolve_walk {T} (chain : list T) (get_data : T → VersionData) (i : nat) : option bytes :=
  match chain !! i with
  | None => None
  | Some v =>
      match get_data v with
      | Full b => Some b
      | Zstd b => zstd_decode_all b
      | Brotli b => brotli_decompress b
      | Identical => match i with O => None | S i' => resolve_walk chain get_data i' end
      end
  end.

Definition resolve_data_with {T} (chain : list T) (index : nat)
    (get_data : T → VersionData) : option bytes :=
  if (length chain <=? index)%nat then None else resolve_walk chain get_data index.

Definition resolve_version_bytes_at_or_before (versions : list BlockVersion)
    (visible_high : Z) : option bytes :=
  idx ← newest_visible_index versions visible_high;
  resolve_data_with versions idx bv_data.

Definition make_chain_head_full (versions : list BlockVersion) (keep_from : nat) : list BlockVersion :=
  match versions !! keep_from with
  | Some v =>
      if is_identical (bv_data v) then
        match resolve_data_with versions keep_from bv_data with
        | Some full_data =>
            <[keep_from := mkVersion (bv_block v) (bv_commit_seq v) (bv_writer v) (Full full_data)]>
              versions
        | None => versions
        end
      else versions
  | None => versions
  end.

(** The [while] loop that counts how many versions may be dropped: [seq_at i]
    is the commit sequence at index [i]. *)
Fixpoint trim_loop {T} (fuel : nat) (commit_seq : T → Z) (versions : list T)
    (max_len watermark : Z) (trim : nat) : nat :=
  match fuel with
  | O => trim
  | S fuel' =>
      if max_len <? saturating_sub (zlen versions) (Z.of_nat trim) then
        match versions !! S trim with
        | None => trim
        | Some v => if watermark <? commit_seq v then trim
                    else trim_loop fuel' commit_seq versions max_len watermark (S trim)
        end
      else trim
  end.

Definition trim_block_chain_to_cap (versions : list BlockVersion) (max_len watermark : Z)
    : list BlockVersion * list BlockVersion :=
  let trim := trim_loop (length versions) bv_commit_seq versions max_len watermark 0 in
  if (0 <? trim)%nat then
    let versions' := make_chain_head_full versions trim in
    (drop trim versions', take trim versions')
  else (versions, []).

Definition trim_physical_chain_to_cap (versions : list PhysicalBlockVersion)
    (max_len watermark : Z) : list PhysicalBlockVersion :=
  let trim := trim_loop (length versions) pv_commit_seq versions max_len watermark 0 in
  if (0 <? trim)%nat then drop trim versions else versions.

(** The [while] loop of [prune_versions_older_than]: advance while the next
    version is already visible at the watermark. *)
Fixpoint keep_from_loop {T} (fuel : nat) (commit_seq : T → Z) (versions : list T)
    (watermark : Z) (keep_from : nat) : nat :=
  match fuel with
  | O => keep_from
  | S fuel' =>
      match versions !! S keep_from with
      | None => keep_from
      | Some v => if commit_seq v <=? watermark
                  then keep_from_loop fuel' commit_seq versions watermark (S keep_from)
                  else keep_from
      end
  end.

Definition prune_chain (versions : list BlockVersion) (watermark : Z)
    : list BlockVersion * list BlockVersion :=
  if (length versions <=? 1)%nat then (versions, [])
  else
    let keep_from := keep_from_loop (length versions) bv_commit_seq versions watermark 0 in
    if (0 <? keep_from)%nat then
      let versions' := make_chain_head_full versions keep_from in
      (drop keep_from versions', take keep_from versions')
    else (versions, []).

Definition prune_physical_chain (versions : list PhysicalBlockVersion) (watermark : Z)
    : list PhysicalBlockVersion :=
  if (length versions <=? 1)%nat then versions
  else
    let keep_from := keep_from_loop (length versions) pv_commit_seq versions watermark 0 in
    if (0 <? keep_from)%nat then drop keep_from versions else versions.

(** [compress_data]: a compressed version is kept only when it is smaller. *)
Definition compress_data (policy : CompressionPolicy) (new_bytes : bytes) : VersionData :=
  match algo policy with
  | AlgoNone => Full new_bytes
  | AlgoZstd level =>
      match zstd_encode_all level new_bytes with
      | Some compressed =>
          if zlen compressed <? zlen new_bytes then Zstd compressed else Full new_bytes
      | None => Full new_bytes
      end
  | AlgoBrotli level =>
      match brotli_compress level new_bytes with
      | Some compressed =>
          if zlen compressed <? zlen new_bytes then Brotli compressed else Full new_bytes
      | None => Full new_bytes
      end
  end.

(** [is_identical_to_latest] on the chain of one block. *)
Definition chain_identical_to_latest (versions : list BlockVersion) (new_bytes : bytes) : bool :=
  match nat_checked_pred (length versions) with
  | None => false
  | Some newest =>
      match resolve_data_with versions newest bv_data with
      | Some existing => bool_decide (existing = new_bytes)
      | None => false
      end
  end.

(** The representation a commit installs for [version_bytes]. *)
Definition version_data_for (policy : CompressionPolicy) (versions : list BlockVersion)
    (version_bytes : bytes) : VersionData :=
  if dedup_identical policy && chain_identical_to_latest versions version_bytes then Identical
  else match algo policy with
       | AlgoNone => Full version_bytes
       | _ => compress_data policy version_bytes
       end.
End with_codec.

(** ** Specifications *)

(** The index a linear scan from the newest version finds. *)
Definition is_newest_visible {T} (commit_seq : T → Z) (l : list T) (high : Z) (i : nat) : Prop :=
  (∃ x, l !! i = Some x ∧ commit_seq x <= high) ∧
  ∀ j y, l !! j = Some y → commit_seq y <= high → (j <= i)%nat.

(** ** Lookup lemmas *)

Lemma newest_visible_index_by_spec {T} (commit_seq : T → Z) l high :
  seq_sorted commit_seq l →
  match newest_visible_index_by l high commit_seq with
  | Some i => is_newest_visible commit_seq l high i
  | None => ∀ j y, l !! j = Some y → high < commit_seq y
  end.
Proof.
  intros Hs. unfold newest_visible_index_by.
  destruct (nat_checked_pred (length l)) as [n|] eqn:Hn; simpl.
  2:{ destruct l; [|done]. intros ??. by rewrite lookup_nil. }
  assert (length l = S n) as Hlen by (destruct (length l); naive_solver).
  destruct (l !! n) as [v|] eqn:Hv; simpl.
  2:{ apply lookup_ge_None in Hv. lia. }
  destruct (Z.leb_spec (commit_seq v) high) as [Hle|Hgt].
  - split; [eauto|]. intros j y Hy _. apply lookup_lt_Some in Hy. lia.
  - destruct (sorted_boundary commit_seq l high Hs) as (k & Hk & Hlt & Hge).
    rewrite (partition_point_spec _ l k Hk); cycle 1.
    { intros i x Hi Hx. apply Z.leb_le. by eapply Hlt. }
    { intros i x Hi Hx. apply Z.leb_gt. by eapply Hge. }
    destruct k as [|k]; simpl.
    { intros j y Hy. eapply (Hge j); [lia|done]. }
    destruct (lookup_lt_is_Some_2 l k) as [x Hx]; [lia|].
    split; [exists x; split; [done|eapply Hlt; [|done]; lia]|].
    intros j y Hy Hle. destruct (decide (j <= k)%nat); [done|].
    pose proof (Hge j y ltac:(lia) Hy). lia.
Qed.

Lemma is_newest_visible_unique {T} (commit_seq : T → Z) l high i j :
  is_newest_visible commit_seq l high i → is_newest_visible commit_seq l high j → i = j.
Proof. intros [(x&Hx&Hlx) Hi] [(y&Hy&Hly) Hj]. pose proof (Hi _ _ Hy Hly). pose proof (Hj _ _ Hx Hlx). lia. Qed.

Lemma newest_visible_index_Some {T} (commit_seq : T → Z) l high i :
  seq_sorted commit_seq l →
  newest_visible_index_by l high commit_seq = Some i ↔ is_newest_visible commit_seq l high i.
Proof.
  intros Hs. pose proof (newest_visible_index_by_spec commit_seq l high Hs) as Hspec.
  split; [by intros Heq; rewrite Heq in Hspec|].
  intros Hi. destruct (newest_visible_index_by l high commit_seq) as [j|].
  - f_equal. by eapply is_newest_visible_unique.
  - destruct Hi as [(x&Hx&Hle) _]. specialize (Hspec _ _ Hx). lia.
Qed.

Lemma newest_visible_index_None {T} (commit_seq : T → Z) l high :
  seq_sorted commit_seq l →
  newest_visible_index_by l high commit_seq = None ↔
  ∀ j y, l !! j = Some y → high < commit_seq y.
Proof.
  intros Hs. pose proof (newest_visible_index_by_spec commit_seq l high Hs) as Hspec.
  split; [by intros Heq; rewrite Heq in Hspec|].
  intros Hall. destruct (newest_visible_index_by l high commit_seq) as [j|]; [|done].
  destruct Hspec as [(x&Hx&Hle) _]. specialize (Hall _ _ Hx). lia.
Qed.

(** ** Resolution and trimming lemmas *)

Section codec_lemmas.
Context `{VersionCodec}.

Lemma resolve_data_walk {T} (l : list T) f i : resolve_data_with l i f = resolve_walk l f i.
Proof.
  unfold resolve_data_with. destruct (Nat.leb_spec (length l) i) as [Hle|]; [|done].
  apply lookup_ge_None in Hle. by destruct i; simpl; rewrite Hle.
Qed.

(** Resolution looks only at the prefix up to the index. *)
Lemma resolve_walk_app {T} (l k : list T) f i :
  (i < length l)%nat → resolve_walk (l ++ k) f i = resolve_walk l f i.
Proof.
  induction i as [|i IH]; intros Hi; simpl; rewrite lookup_app_l by lia; [done|].
  rewrite IH by lia. done.
Qed.

Lemma make_chain_head_full_length l k : length (make_chain_head_full l k) = length l.
Proof.
  unfold make_chain_head_full. repeat case_match; rewrite ?length_insert; done.
Qed.

Lemma make_chain_head_full_lookup_ne l k i :
  i ≠ k → make_chain_head_full l k !! i = l !! i.
Proof.
  intros Hne. unfold make_chain_head_full. repeat case_match; try done.
  by rewrite list_lookup_insert_ne.
Qed.

(** The new head keeps its metadata and its resolved bytes. *)
Lemma make_chain_head_full_lookup l k v :
  l !! k = Some v →
  ∃ v', make_chain_head_full l k !! k = Some v' ∧
    bv_block v' = bv_block v ∧ bv_commit_seq v' = bv_commit_seq v ∧ bv_writer v' = bv_writer v ∧
    (bv_data v' = bv_data v ∧ (is_identical (bv_data v) = false ∨ resolve_walk l bv_data k = None)
     ∨ ∃ b, bv_data v' = Full b ∧ resolve_walk l bv_data k = Some b).
Proof.
  intros Hv. unfold make_chain_head_full. rewrite Hv, resolve_data_walk.
  destruct (is_identical (bv_data v)) eqn:Hid; [|eauto 10].
  destruct (resolve_walk l bv_data k) as [b|] eqn:Hr; [|eauto 10].
  eexists. split; [apply list_lookup_insert_eq; by eapply lookup_lt_Some|]. simpl. eauto 10.
Qed.

Definition drain_chain (l : list BlockVersion) (k : nat) : list BlockVersion :=
  drop k (make_chain_head_full l k).

Lemma drain_chain_lookup_seq l k i :
  bv_commit_seq <$> drain_chain l k !! i = bv_commit_seq <$> l !! (k + i)%nat.
Proof.
  unfold drain_chain. rewrite lookup_drop.
  destruct (decide (i = 0%nat)) as [->|].
  - rewrite Nat.add_0_r. destruct (l !! k) as [v|] eqn:Hv.
    + destruct (make_chain_head_full_lookup l k v Hv) as (v'&->&_&Hs&_). simpl. by rewrite Hs.
    + apply lookup_ge_None in Hv. rewrite lookup_ge_None_2; [done|].
      by rewrite make_chain_head_full_length.
  - by rewrite make_chain_head_full_lookup_ne by lia.
Qed.

Lemma drain_chain_lookup l k i v :
  drain_chain l k !! i = Some v → ∃ v', l !! (k + i)%nat = Some v' ∧ bv_commit_seq v' = bv_commit_seq v.
Proof.
  intros Hv. pose proof (drain_chain_lookup_seq l k i) as Heq. rewrite Hv in Heq. simpl in Heq.
  destruct (l !! (k + i)%nat) as [v'|]; simplify_eq/=. eauto.
Qed.

(** Every kept version resolves to the bytes it had before the drain. *)
Lemma drain_chain_resolve l k i :
  (k + i < length l)%nat →
  resolve_walk (drain_chain l k) bv_data i = resolve_walk l bv_data (k + i).
Proof.
  induction i as [|i IH]; intros Hi.
  - rewrite Nat.add_0_r in *. destruct (lookup_lt_is_Some_2 l k Hi) as [v Hv].
    destruct (make_chain_head_full_lookup l k v Hv) as (v'&Hv'&_&_&_&[[Hd Hor]|(b&Hd&Hr)]).
    + cbn [resolve_walk]. unfold drain_chain. rewrite lookup_drop, Nat.add_0_r, Hv', Hd.
      destruct Hor as [Hid|Hnone].
      * destruct k; simpl; rewrite Hv; by destruct (bv_data v).
      * rewrite Hnone. destruct k; simpl in Hnone; rewrite Hv in Hnone; by destruct (bv_data v).
    + rewrite Hr. cbn [resolve_walk]. unfold drain_chain.
      by rewrite lookup_drop, Nat.add_0_r, Hv', Hd.
  - rewrite Nat.add_succ_r in *. cbn [resolve_walk]. rewrite IH by lia.
    unfold drain_chain. rewrite lookup_drop, make_chain_head_full_lookup_ne by lia.
    by rewrite Nat.add_succ_r.
Qed.

Lemma drain_chain_sorted l k : seq_sorted bv_commit_seq l → seq_sorted bv_commit_seq (drain_chain l k).
Proof.
  intros Hs i j x y Hij Hx Hy.
  apply drain_chain_lookup in Hx as (x'&Hx&<-). apply drain_chain_lookup in Hy as (y'&Hy&<-).
  eapply (Hs (k + i) (k + j))%nat; [lia|done..].
Qed.

Lemma drain_chain_strict l k : seq_strict bv_commit_seq l → seq_strict bv_commit_seq (drain_chain l k).
Proof.
  intros Hs i j x y Hij Hx Hy.
  apply drain_chain_lookup in Hx as (x'&Hx&<-). apply drain_chain_lookup in Hy as (y'&Hy&<-).
  eapply (Hs (k + i) (k + j))%nat; [lia|done..].
Qed.

(** Draining versions older than one visible at [high] changes no read at [high]. *)
Lemma drain_chain_read l k v high :
  seq_sorted bv_commit_seq l → l !! k = Some v → bv_commit_seq v <= high →
  resolve_version_bytes_at_or_before (drain_chain l k) high =
  resolve_version_bytes_at_or_before l high.
Proof.
  intros Hs Hv Hle. unfold resolve_version_bytes_at_or_before, newest_visible_index.
  destruct (newest_visible_index_by l high bv_commit_seq) as [i|] eqn:Hi.
  2:{ pose proof (proj1 (newest_visible_index_None _ _ _ Hs) Hi _ _ Hv). lia. }
  apply newest_visible_index_Some in Hi as [(x&Hx&Hlx) Hmax]; [|done].
  pose proof (Hmax _ _ Hv Hle) as Hki. apply lookup_lt_Some in Hx as Hlen.
  assert (newest_visible_index_by (drain_chain l k) high bv_commit_seq = Some (i - k)%nat) as ->.
  { apply newest_visible_index_Some; [by apply drain_chain_sorted|]. split.
    - pose proof (drain_chain_lookup_seq l k (i - k)) as Heq.
      replace (k + (i - k))%nat with i in Heq by lia. rewrite Hx in Heq.
      destruct (drain_chain l k !! (i - k)%nat) as [y|]; simplify_eq/=.
      exists y. split; [done|lia].
    - intros j y Hy Hly. apply drain_chain_lookup in Hy as (y'&Hy&Heq).
      pose proof (Hmax _ _ Hy ltac:(lia)). lia. }
  simpl. rewrite !resolve_data_walk, drain_chain_resolve by lia. f_equal. lia.
Qed.

Lemma trim_loop_spec {T} fuel (commit_seq : T → Z) l max_len wm trim :
  (length l <= trim + fuel)%nat → (trim < length l)%nat →
  let t := trim_loop fuel commit_seq l max_len wm trim in
  (trim <= t < length l)%nat ∧
  (t = trim ∨ ∃ v, l !! t = Some v ∧ commit_seq v <= wm) ∧
  (zlen l - Z.of_nat t <= max_len ∨ ∀ v, l !! S t = Some v → wm < commit_seq v).
Proof.
  revert trim. induction fuel as [|fuel IH]; intros trim Hfuel Htrim; cbn; [lia|].
  assert (saturating_sub (zlen l) (Z.of_nat trim) = zlen l - Z.of_nat trim) as ->.
  { unfold saturating_sub, zlen. lia. }
  destruct (Z.ltb_spec max_len (zlen l - Z.of_nat trim)); [|split_and!; [lia|lia|auto|lia]].
  destruct (l !! S trim) as [v|] eqn:Hv; [|split_and!; [lia|lia|auto|right; congruence]].
  destruct (Z.ltb_spec wm (commit_seq v)).
  { split_and!; [lia|lia|auto|]. right. intros v' Hv'. by simplify_eq. }
  apply lookup_lt_Some in Hv as Hlt.
  destruct (IH (S trim)) as (Hb & Hor & Hmax); [lia..|].
  split_and!; [lia|lia| |done]. right.
  destruct Hor as [Heq|Hex]; [rewrite Heq; eauto|done].
Qed.

Lemma keep_from_loop_spec {T} fuel (commit_seq : T → Z) l wm keep :
  (length l <= keep + fuel)%nat → (keep < length l)%nat →
  let t := keep_from_loop fuel commit_seq l wm keep in
  (keep <= t < length l)%nat ∧
  (t = keep ∨ ∃ v, l !! t = Some v ∧ commit_seq v <= wm) ∧
  (∀ v, l !! S t = Some v → wm < commit_seq v).
Proof.
  revert keep. induction fuel as [|fuel IH]; intros keep Hfuel Hkeep; cbn; [lia|].
  destruct (l !! S keep) as [v|] eqn:Hv; [|split_and!; [lia|lia|auto|congruence]].
  destruct (Z.leb_spec (commit_seq v) wm); cycle 1.
  { split_and!; [lia|lia|auto|]. intros v' Hv'. by simplify_eq. }
  apply lookup_lt_Some in Hv as Hlt.
  destruct (IH (S keep)) as (Hb & Hor & Hmax); [lia..|].
  split_and!; [lia|lia| |done]. right.
  destruct Hor as [Heq|Hex]; [rewrite Heq; eauto|done].
Qed.

(** Both trims are a drain at an index whose version the watermark sees. *)
Lemma trim_block_chain_drain l max_len wm :
  (trim_block_chain_to_cap l max_len wm).1 = l ∨
  ∃ k v, (trim_block_chain_to_cap l max_len wm).1 = drain_chain l k ∧
    l !! k = Some v ∧ bv_commit_seq v <= wm.
Proof.
  unfold trim_block_chain_to_cap. destruct l as [|x l]; [by left|].
  pose proof (trim_loop_spec (length (x :: l)) bv_commit_seq (x :: l) max_len wm 0
    ltac:(lia) ltac:(simpl; lia)) as (_ & Hor & _).
  set (t := trim_loop _ _ _ _ _ _) in *. destruct (Nat.ltb_spec 0 t); [|by left].
  right. destruct Hor as [|(v&Hv&Hle)]; [lia|]. by exists t, v.
Qed.

Lemma prune_chain_drain l wm :
  (prune_chain l wm).1 = l ∨
  ∃ k v, (prune_chain l wm).1 = drain_chain l k ∧ l !! k = Some v ∧ bv_commit_seq v <= wm.
Proof.
  unfold prune_chain. destruct (Nat.leb_spec (length l) 1); [by left|].
  pose proof (keep_from_loop_spec (length l) bv_commit_seq l wm 0
    ltac:(lia) ltac:(lia)) as (_ & Hor & _).
  set (t := keep_from_loop _ _ _ _ _) in *. destruct (Nat.ltb_spec 0 t); [|by left].
  right. destruct Hor as [|(v&Hv&Hle)]; [lia|]. by exists t, v.
Qed.

Lemma trim_block_chain_read l max_len wm high :
  seq_sorted bv_commit_seq l → wm <= high →
  resolve_version_bytes_at_or_before (trim_block_chain_to_cap l max_len wm).1 high =
  resolve_version_bytes_at_or_before l high.
Proof.
  intros Hs Hle. destruct (trim_block_chain_drain l max_len wm) as [->|(k&v&->&Hv&Hwm)]; [done|].
  apply (drain_chain_read l k v); [done..|lia].
Qed.

Lemma prune_chain_read l wm high :
  seq_sorted bv_commit_seq l → wm <= high →
  resolve_version_bytes_at_or_before (prune_chain l wm).1 high =
  resolve_version_bytes_at_or_before l high.
Proof.
  intros Hs Hle. destruct (prune_chain_drain l wm) as [->|(k&v&->&Hv&Hwm)]; [done|].
  apply (drain_chain_read l k v); [done..|lia].
Qed.

(** ** Installing a version *)

Lemma compress_data_resolve policy b l v :
  bv_data v = compress_data policy b →
  resolve_walk (l ++ [v]) bv_data (length l) = Some b.
Proof.
  intros Hd. assert ((l ++ [v]) !! length l = Some v) as Hv by by apply list_lookup_middle.
  assert (∀ o, match bv_data v with
    | Full b => Some b | Zstd b => zstd_decode_all b | Brotli b => brotli_decompress b
    | Identical => o end = Some b) as Hres.
  { intros o. rewrite Hd. unfold compress_data. destruct (algo policy) as [|lv|lv]; [done|..].
    - destruct (zstd_encode_all lv b) as [c|] eqn:Hc; [|done]. destruct (_ <? _); [|done].
      by eapply zstd_roundtrip.
    - destruct (brotli_compress lv b) as [c|] eqn:Hc; [|done]. destruct (_ <? _); [|done].
      by eapply brotli_roundtrip. }
  destruct (length l); simpl; rewrite Hv; apply Hres.
Qed.

Lemma version_data_for_resolve policy l v b :
  bv_data v = version_data_for policy l b →
  resolve_walk (l ++ [v]) bv_data (length l) = Some b.
Proof.
  unfold version_data_for. intros Hd.
  destruct (dedup_identical policy && chain_identical_to_latest l b) eqn:Hdup; cycle 1.
  { apply (compress_data_resolve policy). rewrite Hd. unfold compress_data.
    by destruct (algo policy). }
  apply andb_true_iff in Hdup as [_ Hdup]. unfold chain_identical_to_latest in Hdup.
  destruct (length l) as [|n] eqn:Hlen; simpl in Hdup; [done|].
  cbn [resolve_walk]. rewrite <-Hlen at 1.
  rewrite list_lookup_middle by done. rewrite Hd, resolve_walk_app by lia.
  rewrite resolve_data_walk in Hdup. destruct (resolve_walk l bv_data n); [|done].
  by apply bool_decide_eq_true in Hdup as ->.
Qed.

Lemma seq_sorted_snoc {T} (commit_seq : T → Z) l v :
  seq_sorted commit_seq l → (∀ x, x ∈ l → commit_seq x <= commit_seq v) →
  seq_sorted commit_seq (l ++ [v]).
Proof.
  intros Hs Hall i j x y Hij Hx Hy.
  apply lookup_app_Some in Hy as [Hy|[Hl Hy]].
  - rewrite lookup_app_l in Hx by (apply lookup_lt_Some in Hy; lia). by eapply (Hs i j).
  - apply list_lookup_singleton_Some in Hy as [Hj <-].
    rewrite lookup_app_l in Hx by lia. apply Hall. by eapply list_elem_of_lookup_2.
Qed.

Lemma push_version_read_new policy l v b high :
  seq_sorted bv_commit_seq (l ++ [v]) → bv_data v = version_data_for policy l b →
  bv_commit_seq v <= high →
  resolve_version_bytes_at_or_before (l ++ [v]) high = Some b.
Proof.
  intros Hs Hd Hle. unfold resolve_version_bytes_at_or_before, newest_visible_index.
  rewrite (proj2 (newest_visible_index_Some _ _ high (length l) Hs)).
  - simpl. rewrite resolve_data_walk. by eapply version_data_for_resolve.
  - split; [exists v; by rewrite list_lookup_middle|].
    intros j y Hy _. apply lookup_lt_Some in Hy. rewrite length_app in Hy. simpl in Hy. lia.
Qed.

Lemma push_version_read_old l v high :
  seq_sorted bv_commit_seq (l ++ [v]) → high < bv_commit_seq v →
  resolve_version_bytes_at_or_before (l ++ [v]) high = resolve_version_bytes_at_or_before l high.
Proof.
  intros Hs Hlt. assert (seq_sorted bv_commit_seq l) as Hsl.
  { intros i j x y Hij Hx Hy. eapply Hs; [done|by apply lookup_app_l_Some..]. }
  unfold resolve_version_bytes_at_or_before, newest_visible_index.
  destruct (newest_visible_index_by l high bv_commit_seq) as [i|] eqn:Hi.
  - apply newest_visible_index_Some in Hi as [(x&Hx&Hlx) Hmax]; [|done].
    rewrite (proj2 (newest_visible_index_Some _ _ high i Hs)).
    + simpl. rewrite !resolve_data_walk, resolve_walk_app; [done|by eapply lookup_lt_Some].
    + split; [exists x; split; [by apply lookup_app_l_Some|done]|].
      intros j y Hy Hle. apply lookup_app_Some in Hy as [Hy|[_ Hy]]; [by eapply Hmax|].
      apply list_lookup_singleton_Some in Hy as [_ <-]. lia.
  - rewrite (proj2 (newest_visible_index_None _ _ high Hs)); [done|].
    intros j y Hy. apply lookup_app_Some in Hy as [Hy|[_ Hy]].
    + by eapply (proj1 (newest_visible_index_None _ _ _ Hsl) Hi).
    + by apply list_lookup_singleton_Some in Hy as [_ <-].
Qed.
End codec_lemmas.

(** ** Properties *)

(** On a chain in commit order [newest_visible_index] (newest-first check,
    then the binary search) returns exactly the index that a scan from the
    newest version down would: the last version at or below the snapshot, and
    [None] only when no version is visible. *)
Lemma newest_visible_index_is_newest (versions : list BlockVersion) (high : Z) :
  seq_sorted bv_commit_seq versions →
  (∀ i, newest_visible_index versions high = Some i ↔
        is_newest_visible bv_commit_seq versions high i) ∧
  (newest_visible_index versions high = None ↔
   ∀ j v, versions !! j = Some v → high < bv_commit_seq v).
Proof.
  intros Hs. split; [intros i; by apply newest_visible_index_Some|].
  by apply newest_visible_index_None.
Qed.

(** Trimming a chain to its cap and pruning it at a watermark are invisible
    to every reader at or above the watermark: each such snapshot resolves to
    the same bytes, whatever mix of full, deduplicated and compressed versions
    the chain holds. *)
Lemma chain_trimming_preserves_reads `{VersionCodec} (versions : list BlockVersion)
    (max_len watermark high : Z) :
  seq_sorted bv_commit_seq versions → watermark <= high →
  resolve_version_bytes_at_or_before (trim_block_chain_to_cap versions max_len watermark).1 high
    = resolve_version_bytes_at_or_before versions high ∧
  resolve_version_bytes_at_or_before (prune_chain versions watermark).1 high
    = resolve_version_bytes_at_or_before versions high.
Proof. intros Hs Hle. split; [by apply trim_block_chain_read|by apply prune_chain_read]. Qed.

(** The representation a commit chooses (dedup marker, full copy, zstd or
    brotli) is lossless: a snapshot that sees the new version reads exactly the
    committed bytes, and a snapshot before it reads what it read before. *)
Lemma installed_version_reads_back `{VersionCodec} (policy : CompressionPolicy)
    (versions : list BlockVersion) (block seq writer : Z) (data : bytes) (high : Z) :
  seq_sorted bv_commit_seq versions → (∀ v, v ∈ versions → bv_commit_seq v <= seq) →
  let pushed :=
    versions ++ [mkVersion block seq writer (version_data_for policy versions data)] in
  resolve_version_bytes_at_or_before pushed high =
    if seq <=? high then Some data else resolve_version_bytes_at_or_before versions high.
Proof.
  intros Hs Hall pushed.
  assert (seq_sorted bv_commit_seq pushed) by by apply seq_sorted_snoc.
  destruct (Z.leb_spec seq high); [by eapply push_version_read_new|by apply push_version_read_old].
Qed.

(** ** Witnesses *)

Definition sample_chain : list BlockVersion :=
  [mkVersion 7 1 10 (Full [5; 5; 5; 5]); mkVersion 7 3 11 Identical;
   mkVersion 7 6 12 (Zstd [9; 4]); mkVersion 7 8 13 Identical].

Lemma sample_chain_sorted : seq_sorted bv_commit_seq sample_chain.
Proof. apply seq_strict_sorted, ascendingb_strict. reflexivity. Qed.



