(* ===== verification/Txn.v ===== *)
(** * Transactions and serializable-snapshot validation

    Models crates/ffs-mvcc/src/lib.rs: [StagedWrite], [Transaction] and its
    staging operations, its serde image [TransactionSerde], [CommitError],
    [validate_transaction_id], and the SSI rw-antidependency detector
    ([ssi_incoming_edge], [ssi_outgoing_edge], [detect_ssi_dangerous_structure]).
    Block numbers, transaction ids and commit sequences are their u64 payload. *)

From stdpp Require Import base sorting numbers gmap list.
From S2P Require Import Prelude Sorted Merge.

Local Open Scope Z_scope.

(** ** Data *)

Record Snapshot := mkSnapshot { high : Z }.

#[global] Instance Snapshot_eq_dec : EqDecision Snapshot.
Proof. solve_decision. Defined.

Record StagedWrite := mkStaged {
  sw_bytes : bytes;
  sw_merge_proof : MergeProof;
  sw_base : option bytes;
}.

Record CowRewriteIntent := mkCow {
  old_physical : option Z;
  new_physical : Z;
}.

Abbreviation StagedWrites := (list (Z * StagedWrite)).

Record Transaction := mkTxn {
  t_id : Z;
  t_snapshot : Snapshot;
  staged_writes : StagedWrites;
  reads : smap Z;
  cow_writes : smap CowRewriteIntent;
  cow_orphans : sset;
}.

(** The reasons formatted into [CommitError::DurabilityFailure]'s [detail]. *)
Inductive DurabilityDetail :=
| InvalidTransactionId (id : Z)
| CommitSequenceExhausted (current : Z)
| WriteSetKeyWithoutBytes (block : Z)
| WalWriterUnavailable
| WalWriteFailed.

Inductive CommitError :=
| Conflict (block snapshot observed : Z)
| SsiConflict (pivot_block read_version write_version concurrent_txn : Z)
| ChainBackpressure (block chain_len cap critical_len watermark : Z)
| DurabilityFailure (detail : DurabilityDetail).

#[global] Instance DurabilityDetail_eq_dec : EqDecision DurabilityDetail.
Proof. solve_decision. Defined.

#[global] Instance CommitError_eq_dec : EqDecision CommitError.
Proof. solve_decision. Defined.

Definition validate_transaction_id (txn_id : Z) : res CommitError () :=
  if (txn_id =? 0) || (txn_id =? u64_max)
  then Err (DurabilityFailure (InvalidTransactionId txn_id))
  else Ok ().

(** ** Staging *)

Definition txn_new (id : Z) (snapshot : Snapshot) : Transaction :=
  mkTxn id snapshot [] [] [] [].

Definition staged_write_pos (writes : StagedWrites) (block : Z) : nat + nat :=
  binary_search_by_key fst writes block.

Definition write_set_keys (t : Transaction) : list Z := (staged_writes t).*1.

Definition write_set_contains (t : Transaction) (block : Z) : bool :=
  match staged_write_pos (staged_writes t) block with inl _ => true | inr _ => false end.

Definition write_set_key_span (t : Transaction) : option (Z * Z) :=
  f ← head (staged_writes t); l ← last (staged_writes t); Some (f.1, l.1).

(** The staged entry of a block, as the accessors index it. *)
Definition staged_entry (t : Transaction) (block : Z) : option StagedWrite :=
  match staged_write_pos (staged_writes t) block with
  | inl idx => snd <$> staged_writes t !! idx
  | inr _ => None
  end.

Definition staged_write (t : Transaction) (block : Z) : option bytes :=
  sw_bytes <$> staged_entry t block.

Definition staged_base (t : Transaction) (block : Z) : option bytes :=
  s ← staged_entry t block; sw_base s.

Definition merge_proof (t : Transaction) (block : Z) : option MergeProof :=
  sw_merge_proof <$> staged_entry t block.

Definition pending_writes (t : Transaction) : Z := zlen (staged_writes t).

Definition staged_physical (t : Transaction) (block : Z) : option Z :=
  new_physical <$> sm_get block (cow_writes t).

Definition set_staged_writes (t : Transaction) (w : StagedWrites) : Transaction :=
  mkTxn (t_id t) (t_snapshot t) w (reads t) (cow_writes t) (cow_orphans t).

Definition record_read (t : Transaction) (block version_seq : Z) : Transaction :=
  match sm_get block (reads t) with
  | Some _ => t
  | None => mkTxn (t_id t) (t_snapshot t) (staged_writes t)
              (sm_insert block version_seq (reads t)) (cow_writes t) (cow_orphans t)
  end.

(** The or-pattern over the three range-overlay proofs. *)
Definition touched_ranges (p : MergeProof) : option (list MergeByteRange) :=
  match p with
  | IndependentKeys r | NonOverlappingExtents r | TimestampOnlyInode r => Some r
  | _ => None
  end.

Section staging.
Context `{UnstableSort}.

Definition combined_proof (previous staged : MergeProof) : option MergeProof :=
  match previous, staged with
  | NonOverlappingExtents prev, NonOverlappingExtents next =>
      Some (NonOverlappingExtents (coalesce_byte_ranges (prev ++ next)))
  | TimestampOnlyInode prev, TimestampOnlyInode next =>
      Some (TimestampOnlyInode (coalesce_byte_ranges (prev ++ next)))
  | _, _ =>
      match touched_ranges previous, touched_ranges staged with
      | Some prev, Some next => Some (IndependentKeys (coalesce_byte_ranges (prev ++ next)))
      | _, _ => None
      end
  end.

(** What replaces [previous] when the same block is staged again. *)
Definition restage (previous staged : StagedWrite) : StagedWrite :=
  if bool_decide (sw_merge_proof previous ≠ Unsafe)
     && bool_decide (sw_merge_proof staged = Unsafe)
  then staged
  else
    let proof := default (sw_merge_proof staged)
                   (combined_proof (sw_merge_proof previous) (sw_merge_proof staged)) in
    let base := if bool_decide (proof ≠ Unsafe)
                then match sw_base previous with Some b => Some b | None => sw_base staged end
                else sw_base staged in
    mkStaged (sw_bytes staged) proof base.

Definition insert_staged_write (t : Transaction) (block : Z) (staged : StagedWrite) : Transaction :=
  match staged_write_pos (staged_writes t) block with
  | inl idx =>
      match staged_writes t !! idx with
      | Some (_, previous) =>
          set_staged_writes t (<[idx := (block, restage previous staged)]> (staged_writes t))
      | None => t
      end
  | inr idx =>
      set_staged_writes t (take idx (staged_writes t) ++ (block, staged) :: drop idx (staged_writes t))
  end.

Definition stage_write_with_proof_and_base (t : Transaction) (block : Z) (data : bytes)
    (proof : MergeProof) (base : option bytes) : Transaction :=
  insert_staged_write t block (mkStaged data proof base).

Definition stage_write_with_proof (t : Transaction) (block : Z) (data : bytes)
    (proof : MergeProof) : Transaction :=
  insert_staged_write t block (mkStaged data proof None).

Definition stage_write (t : Transaction) (block : Z) (data : bytes) : Transaction :=
  stage_write_with_proof t block data Unsafe.

Definition stage_cow_rewrite (t : Transaction) (logical : Z) (old : option Z) (new : Z)
    (data : bytes) : Transaction :=
  let orphans := match sm_get logical (cow_writes t) with
                 | Some previous => ss_insert (new_physical previous) (cow_orphans t)
                 | None => cow_orphans t
                 end in
  let t' := mkTxn (t_id t) (t_snapshot t) (staged_writes t) (reads t)
              (sm_insert logical (mkCow old new) (cow_writes t)) orphans in
  insert_staged_write t' logical (mkStaged data Unsafe None).

(** The two asserts are panics. *)
Definition into_staged_writes (t : Transaction) : outcome StagedWrites :=
  match cow_writes t, cow_orphans t with
  | [], [] => Ret (staged_writes t)
  | _, _ => Panic
  end.
End staging.

(** ** The serde image *)

Record TransactionSerde := mkSerde {
  ts_id : Z;
  ts_snapshot : Snapshot;
  ts_writes : smap bytes;
  ts_merge_proofs : smap MergeProof;
  ts_reads : smap Z;
  ts_cow_writes : smap CowRewriteIntent;
  ts_cow_orphans : sset;
}.

(** [collect] into a [BTreeMap]. *)
Definition sm_collect {V} (l : list (Z * V)) : smap V :=
  foldl (λ m kv, sm_insert kv.1 kv.2 m) [] l.

Definition transaction_to_serde (t : Transaction) : TransactionSerde :=
  mkSerde (t_id t) (t_snapshot t)
    (sm_collect ((λ bs, (bs.1, sw_bytes bs.2)) <$> staged_writes t))
    (sm_collect ((λ bs, (bs.1, sw_merge_proof bs.2)) <$> staged_writes t))
    (reads t) (cow_writes t) (cow_orphans t).

Definition transaction_from_serde (h : TransactionSerde) : Transaction :=
  mkTxn (ts_id h) (ts_snapshot h)
    ((λ kb, (kb.1, mkStaged kb.2 (default Unsafe (sm_get kb.1 (ts_merge_proofs h))) None))
       <$> ts_writes h)
    (ts_reads h) (ts_cow_writes h) (ts_cow_orphans h).

(** ** Serializable snapshot isolation *)

Record CommittedTxnRecord := mkRecord {
  r_txn_id : Z;
  r_commit_seq : Z;
  r_snapshot : Snapshot;
  r_write_set : sset;
  r_read_set : smap Z;
}.

Record SsiRwEdge := mkEdge {
  reader_txn : Z;
  writer_txn : Z;
  edge_block : Z;
  read_version : Z;
  reader_snapshot_high : Z;
  write_version : Z;
}.

Record SsiDangerousStructure := mkDangerous { incoming : SsiRwEdge; outgoing : SsiRwEdge }.

Definition to_commit_error (d : SsiDangerousStructure) : CommitError :=
  SsiConflict (edge_block (outgoing d)) (read_version (outgoing d))
    (write_version (outgoing d)) (writer_txn (outgoing d)).

Definition key_in_span (key : Z) (span : Z * Z) : bool := (span.1 <=? key) && (key <=? span.2).

(** [Iterator::find_map]. *)
Fixpoint find_map {A B} (f : A → option B) (l : list A) : option B :=
  match l with
  | [] => None
  | x :: l' => match f x with Some y => Some y | None => find_map f l' end
  end.

Definition ssi_incoming_edge (txn : Transaction) (record : CommittedTxnRecord) : option SsiRwEdge :=
  let read_set := r_read_set record in
  let mk block rv := mkEdge (r_txn_id record) (t_id txn) block rv (high (r_snapshot record)) 0 in
  if zlen (staged_writes txn) <? zlen read_set then
    read_span ← key_span read_set;
    find_map (λ block, if key_in_span block read_span
                       then mk block <$> sm_get block read_set else None)
      (write_set_keys txn)
  else
    write_span ← write_set_key_span txn;
    find_map (λ brv, if key_in_span brv.1 write_span && write_set_contains txn brv.1
                     then Some (mk brv.1 brv.2) else None) read_set.

Definition ssi_outgoing_edge (txn : Transaction) (record : CommittedTxnRecord) : option SsiRwEdge :=
  let read_set := reads txn in
  let write_set := r_write_set record in
  let mk block rv := mkEdge (t_id txn) (r_txn_id record) block rv (high (t_snapshot txn))
                       (r_commit_seq record) in
  if zlen write_set <? zlen read_set then
    read_span ← key_span read_set;
    find_map (λ block, if key_in_span block read_span
                       then mk block <$> sm_get block read_set else None) write_set.*1
  else
    write_span ← key_span write_set;
    find_map (λ brv, if key_in_span brv.1 write_span && ss_contains brv.1 write_set
                     then Some (mk brv.1 brv.2) else None) read_set.

(** The loop body's running state: checks performed and the first edge of each
    kind seen so far. *)
Fixpoint detect_loop (txn : Transaction) (records : list CommittedTxnRecord)
    (checks : Z) (inc out : option SsiRwEdge) : Z * option SsiDangerousStructure :=
  match records with
  | [] => (checks, None)
  | record :: records' =>
      if r_commit_seq record <=? high (t_snapshot txn)
      then detect_loop txn records' checks inc out
      else
        let checks' := saturating_add u64_max checks 1 in
        let inc' := match inc with None => ssi_incoming_edge txn record | _ => inc end in
        let out' := match out with None => ssi_outgoing_edge txn record | _ => out end in
        match inc', out' with
        | Some i, Some o => (checks', Some (mkDangerous i o))
        | _, _ => detect_loop txn records' checks' inc' out'
        end
  end.

Definition detect_ssi_dangerous_structure (txn : Transaction) (records : list CommittedTxnRecord)
    : Z * option SsiDangerousStructure :=
  match staged_writes txn with
  | [] => (0, None)
  | _ => detect_loop txn records 0 None None
  end.

(** ** Well-formedness *)

Definition txn_wf (t : Transaction) : Prop :=
  sm_wf (staged_writes t) ∧ sm_wf (reads t) ∧ sm_wf (cow_writes t) ∧ sm_wf (cow_orphans t).

Definition record_wf (r : CommittedTxnRecord) : Prop :=
  sm_wf (r_write_set r) ∧ sm_wf (r_read_set r).

(** The physical blocks a transaction owns: current rewrite targets and orphans. *)
Definition owned_physical (t : Transaction) (b : Z) : Prop :=
  (∃ logical intent, sm_get logical (cow_writes t) = Some intent ∧ new_physical intent = b) ∨
  is_Some (sm_get b (cow_orphans t)).

(** ** Staging lemmas *)

Lemma txn_new_wf id s : txn_wf (txn_new id s).
Proof. split_and!; apply seq_strict_nil. Qed.

Lemma staged_write_pos_get w block :
  sm_wf w →
  match staged_write_pos w block with
  | inl i => ∃ s, w !! i = Some (block, s) ∧ sm_get block w = Some s
  | inr i => sm_get block w = None ∧ ∀ s, take i w ++ (block, s) :: drop i w = sm_insert block s w
  end.
Proof.
  intros Hwf. unfold staged_write_pos.
  pose proof (binary_search_by_key_spec fst w block Hwf) as Hspec.
  destruct (binary_search_by_key fst w block) as [i|i].
  - destruct Hspec as ([k s]&Hi&Hk). simpl in Hk. subst k. exists s. split; [done|].
    by eapply sm_get_lookup.
  - destruct Hspec as (Hle&Hlt&Hgt). split; [|intros s; by apply sm_insert_at].
    apply sm_get_None. intros s [j Hj]%list_elem_of_lookup_1.
    destruct (decide (j < i)%nat) as [Hji|Hji].
    + specialize (Hlt _ _ Hji Hj). simpl in Hlt. lia.
    + specialize (Hgt j _ ltac:(lia) Hj). simpl in Hgt. lia.
Qed.

Lemma staged_entry_get t block :
  sm_wf (staged_writes t) → staged_entry t block = sm_get block (staged_writes t).
Proof.
  intros Hwf. unfold staged_entry. pose proof (staged_write_pos_get _ block Hwf) as Hpos.
  destruct (staged_write_pos _ _); [destruct Hpos as (s&->&->)|destruct Hpos as [-> _]]; done.
Qed.

Lemma write_set_contains_get t block :
  sm_wf (staged_writes t) →
  write_set_contains t block = true ↔ is_Some (sm_get block (staged_writes t)).
Proof.
  intros Hwf. unfold write_set_contains. pose proof (staged_write_pos_get _ block Hwf) as Hpos.
  destruct (staged_write_pos _ _).
  - destruct Hpos as (s&_&->). split; [eauto|done].
  - destruct Hpos as [-> _]. split; [done|]. by intros [??].
Qed.

Section staging_lemmas.
Context `{UnstableSort}.

Lemma insert_staged_write_sm t block staged :
  sm_wf (staged_writes t) →
  insert_staged_write t block staged =
  set_staged_writes t
    (sm_insert block
       (match sm_get block (staged_writes t) with
        | Some previous => restage previous staged
        | None => staged
        end) (staged_writes t)).
Proof.
  intros Hwf. unfold insert_staged_write.
  pose proof (staged_write_pos_get _ block Hwf) as Hpos.
  destruct (staged_write_pos _ _) as [i|i].
  - destruct Hpos as (s&Hi&->). rewrite Hi. f_equal. by eapply sm_update_at.
  - destruct Hpos as [-> Hins]. by rewrite Hins.
Qed.

Lemma insert_staged_write_wf t block staged : txn_wf t → txn_wf (insert_staged_write t block staged).
Proof.
  intros (Hw&?&?&?). rewrite insert_staged_write_sm by done. split_and!; [|done..].
  by apply sm_insert_wf.
Qed.

Lemma insert_staged_write_entry t block staged b :
  sm_wf (staged_writes t) →
  staged_entry (insert_staged_write t block staged) b =
    if b =? block
    then Some (match staged_entry t block with
               | Some previous => restage previous staged | None => staged end)
    else staged_entry t b.
Proof.
  intros Hwf. rewrite insert_staged_write_sm by done.
  rewrite !staged_entry_get by (simpl; auto using sm_insert_wf). simpl.
  by apply sm_get_insert.
Qed.

Lemma restage_bytes p s : sw_bytes (restage p s) = sw_bytes s.
Proof. unfold restage. by destruct (_ && _). Qed.

Lemma combined_proof_ranges p s ps ss :
  touched_ranges p = Some ps → touched_ranges s = Some ss →
  ∃ q, combined_proof p s = Some q ∧ touched_ranges q = Some (coalesce_byte_ranges (ps ++ ss)).
Proof. intros Hp Hs. destruct p, s; simplify_eq/=; eauto. Qed.

Lemma touched_ranges_safe p r : touched_ranges p = Some r → p ≠ Unsafe.
Proof. by destruct p. Qed.
End staging_lemmas.

(** ** Antidependency edges *)

(** [b] is the least block in both the read map and the written keys, and was
    read at [rv]. *)
Definition least_common (rs : smap Z) (written : Z → Prop) (b rv : Z) : Prop :=
  sm_get b rs = Some rv ∧ written b ∧
  ∀ b' rv', sm_get b' rs = Some rv' → written b' → b <= b'.

Lemma find_map_None {A B} (f : A → option B) l : find_map f l = None ↔ ∀ x, x ∈ l → f x = None.
Proof.
  induction l as [|x l IH]; simpl.
  { split; [|done]. by intros _ x ?%elem_of_nil. }
  destruct (f x) eqn:Hx.
  - split; [done|]. intros Hall. specialize (Hall x ltac:(by left)). congruence.
  - rewrite IH. setoid_rewrite elem_of_cons. naive_solver.
Qed.

(** On ascending keys the first match is the least match. *)
Lemma find_map_least {A B} (key : A → Z) (f : A → option B) l y :
  seq_strict key l → find_map f l = Some y →
  ∃ x, x ∈ l ∧ f x = Some y ∧ ∀ x', x' ∈ l → is_Some (f x') → key x <= key x'.
Proof.
  induction l as [|x l IH]; simpl; intros Hs Hf; [done|].
  apply seq_strict_cons in Hs as [Hx Hs]. destruct (f x) as [y'|] eqn:Hfx.
  - simplify_eq. exists x. split; [by left|]. split; [done|].
    intros x' [->|Hin]%elem_of_cons _; [lia|]. specialize (Hx _ Hin). lia.
  - destruct (IH Hs Hf) as (x0&Hin&Hx0&Hmin). exists x0. split; [by right|]. split; [done|].
    intros x' [->|Hin']%elem_of_cons Hsome; [|by apply Hmin].
    rewrite Hfx in Hsome. by destruct Hsome.
Qed.

Lemma seq_strict_keys {V} (m : smap V) : sm_wf m → seq_strict id (m.*1).
Proof.
  intros Hwf i j x y Hij Hx Hy. rewrite list_lookup_fmap in Hx, Hy.
  destruct (m !! i) as [p|] eqn:Hp, (m !! j) as [q|] eqn:Hq; simplify_eq/=.
  exact (Hwf i j p q Hij Hp Hq).
Qed.

Lemma elem_of_keys {V} (m : smap V) b : sm_wf m → b ∈ m.*1 ↔ is_Some (sm_get b m).
Proof.
  intros Hwf. rewrite list_elem_of_fmap. split.
  - intros ([k v]&->&Hin). apply sm_get_elem in Hin; [|done]. by exists v.
  - intros [v Hv]. apply sm_get_elem in Hv; [|done]. by exists (b, v).
Qed.

(** Iterating the written keys with the read-span prefilter. *)
Lemma scan_writes_spec {B} (mk : Z → Z → B) (rs : smap Z) {V} (ws : smap V) :
  sm_wf rs → sm_wf ws →
  let r := span ← key_span rs;
    find_map (λ b, if key_in_span b span then mk b <$> sm_get b rs else None) ws.*1 in
  match r with
  | Some e => ∃ b rv, e = mk b rv ∧ least_common rs (λ b, is_Some (sm_get b ws)) b rv
  | None => ∀ b rv, sm_get b rs = Some rv → ¬ is_Some (sm_get b ws)
  end.
Proof.
  intros Hrs Hws. simpl. destruct (key_span rs) as [[lo hi]|] eqn:Hspan; simpl; cycle 1.
  { apply key_span_None in Hspan as ->. done. }
  set (f := λ b, if key_in_span b (lo, hi) then mk b <$> sm_get b rs else None).
  assert (∀ b, f b = mk b <$> sm_get b rs) as Hf.
  { intros b. unfold f. destruct (sm_get b rs) as [rv|] eqn:Hb; [|by destruct (key_in_span _ _)].
    apply sm_get_elem in Hb; [|done]. pose proof (key_span_bounds _ _ _ _ _ Hrs Hspan Hb).
    unfold key_in_span. simpl. by rewrite (proj2 (Z.leb_le _ _)), (proj2 (Z.leb_le _ _)) by lia. }
  destruct (find_map f ws.*1) as [e|] eqn:Hfm.
  - apply (find_map_least id) in Hfm as (b&Hin&Hfb&Hmin); [|by apply seq_strict_keys].
    rewrite Hf in Hfb. destruct (sm_get b rs) as [rv|] eqn:Hb; simplify_eq/=.
    exists b, rv. split; [done|]. apply elem_of_keys in Hin; [|done]. split_and!; [done..|].
    intros b' rv' Hb' Hw'. apply Hmin; [by apply elem_of_keys|]. rewrite Hf, Hb'. eauto.
  - intros b rv Hb Hw. apply elem_of_keys in Hw; [|done].
    pose proof (proj1 (find_map_None _ _) Hfm b Hw) as Hn. by rewrite Hf, Hb in Hn.
Qed.

(** Iterating the read map with the write-span prefilter. *)
Lemma scan_reads_spec {B} (mk : Z → Z → B) (rs : smap Z) {V} (ws : smap V) (contains : Z → bool) :
  sm_wf rs → sm_wf ws → (∀ b, contains b = true ↔ is_Some (sm_get b ws)) →
  let r := span ← key_span ws;
    find_map (λ brv, if key_in_span brv.1 span && contains brv.1
                     then Some (mk brv.1 brv.2) else None) rs in
  match r with
  | Some e => ∃ b rv, e = mk b rv ∧ least_common rs (λ b, is_Some (sm_get b ws)) b rv
  | None => ∀ b rv, sm_get b rs = Some rv → ¬ is_Some (sm_get b ws)
  end.
Proof.
  intros Hrs Hws Hcont. simpl. destruct (key_span ws) as [[lo hi]|] eqn:Hspan; simpl; cycle 1.
  { apply key_span_None in Hspan as ->. intros b rv _ [??]. done. }
  set (f := λ brv : Z * Z, if key_in_span brv.1 (lo, hi) && contains brv.1
                           then Some (mk brv.1 brv.2) else None).
  assert (∀ brv, f brv = if contains brv.1 then Some (mk brv.1 brv.2) else None) as Hf.
  { intros [b rv]. unfold f. simpl. destruct (contains b) eqn:Hc; [|by rewrite andb_false_r].
    apply Hcont in Hc as [v Hv]. apply sm_get_elem in Hv; [|done].
    pose proof (key_span_bounds _ _ _ _ _ Hws Hspan Hv).
    unfold key_in_span. simpl. by rewrite (proj2 (Z.leb_le _ _)), (proj2 (Z.leb_le _ _)) by lia. }
  destruct (find_map f rs) as [e|] eqn:Hfm.
  - apply (find_map_least fst) in Hfm as ([b rv]&Hin&Hfb&Hmin); [|done].
    rewrite Hf in Hfb. simpl in Hfb. destruct (contains b) eqn:Hc; simplify_eq.
    exists b, rv. split; [done|]. apply sm_get_elem in Hin as Hb; [|done]. apply Hcont in Hc.
    split_and!; [done..|]. intros b' rv' Hb' Hw'.
    apply (Hmin (b', rv')); [by apply sm_get_elem|]. rewrite Hf. simpl.
    rewrite (proj2 (Hcont b')) by done. eauto.
  - intros b rv Hb Hw. apply sm_get_elem in Hb; [|done].
    pose proof (proj1 (find_map_None _ _) Hfm _ Hb) as Hn. rewrite Hf in Hn. simpl in Hn.
    by rewrite (proj2 (Hcont b)) in Hn.
Qed.

Lemma ssi_incoming_edge_spec txn r :
  txn_wf txn → record_wf r →
  match ssi_incoming_edge txn r with
  | Some e => ∃ b rv,
      e = mkEdge (r_txn_id r) (t_id txn) b rv (high (r_snapshot r)) 0 ∧
      least_common (r_read_set r) (λ b, is_Some (sm_get b (staged_writes txn))) b rv
  | None => ∀ b rv, sm_get b (r_read_set r) = Some rv → ¬ is_Some (sm_get b (staged_writes txn))
  end.
Proof.
  intros (Hw&_) (_&Hr). unfold ssi_incoming_edge. case_if as Hlen.
  - by apply (scan_writes_spec (λ b rv, mkEdge _ _ b rv _ _)).
  - apply (scan_reads_spec (λ b rv, mkEdge _ _ b rv _ _)); [done..|].
    intros b. by apply write_set_contains_get.
Qed.

Lemma ssi_outgoing_edge_spec txn r :
  txn_wf txn → record_wf r →
  match ssi_outgoing_edge txn r with
  | Some e => ∃ b rv,
      e = mkEdge (t_id txn) (r_txn_id r) b rv (high (t_snapshot txn)) (r_commit_seq r) ∧
      least_common (reads txn) (λ b, is_Some (sm_get b (r_write_set r))) b rv
  | None => ∀ b rv, sm_get b (reads txn) = Some rv → ¬ is_Some (sm_get b (r_write_set r))
  end.
Proof.
  intros (_&Hr&_) (Hw&_). unfold ssi_outgoing_edge. case_if as Hlen.
  - by apply (scan_writes_spec (λ b rv, mkEdge _ _ b rv _ _)).
  - apply (scan_reads_spec (λ b rv, mkEdge _ _ b rv _ _) (reads txn) (r_write_set r)
      (λ b, ss_contains b (r_write_set r))); [done..|].
    intros b. unfold ss_contains. by rewrite bool_decide_eq_true.
Qed.

(** ** Detection *)

Definition concurrent (txn : Transaction) (r : CommittedTxnRecord) : Prop :=
  high (t_snapshot txn) < r_commit_seq r.

(** A concurrent committed reader of a block [txn] writes. *)
Definition in_conflict (txn : Transaction) (r : CommittedTxnRecord) : Prop :=
  ∃ b, is_Some (sm_get b (r_read_set r)) ∧ is_Some (sm_get b (staged_writes txn)).

(** A concurrent committed writer of a block [txn] read. *)
Definition out_conflict (txn : Transaction) (r : CommittedTxnRecord) : Prop :=
  ∃ b, is_Some (sm_get b (reads txn)) ∧ is_Some (sm_get b (r_write_set r)).

Lemma incoming_edge_iff txn r :
  txn_wf txn → record_wf r → is_Some (ssi_incoming_edge txn r) ↔ in_conflict txn r.
Proof.
  intros Ht Hr. pose proof (ssi_incoming_edge_spec txn r Ht Hr) as Hspec. unfold in_conflict.
  destruct (ssi_incoming_edge txn r).
  - destruct Hspec as (b&rv&_&Hb&Hw&_). split; [|eauto]. intros _. exists b. rewrite Hb. eauto.
  - split; [by intros [??]|]. intros (b&[rv Hb]&Hw). by destruct (Hspec b rv Hb).
Qed.

Lemma outgoing_edge_iff txn r :
  txn_wf txn → record_wf r → is_Some (ssi_outgoing_edge txn r) ↔ out_conflict txn r.
Proof.
  intros Ht Hr. pose proof (ssi_outgoing_edge_spec txn r Ht Hr) as Hspec. unfold out_conflict.
  destruct (ssi_outgoing_edge txn r).
  - destruct Hspec as (b&rv&_&Hb&Hw&_). split; [|eauto]. intros _. exists b. rewrite Hb. eauto.
  - split; [by intros [??]|]. intros (b&[rv Hb]&Hw). by destruct (Hspec b rv Hb).
Qed.

(** The loop reports a structure exactly when both edges exist, found before or
    among the remaining records. *)
Lemma detect_loop_spec txn rs checks inc out :
  txn_wf txn → Forall record_wf rs → (inc = None ∨ out = None) →
  is_Some (detect_loop txn rs checks inc out).2 ↔
  (is_Some inc ∨ ∃ r, r ∈ rs ∧ concurrent txn r ∧ in_conflict txn r) ∧
  (is_Some out ∨ ∃ r, r ∈ rs ∧ concurrent txn r ∧ out_conflict txn r).
Proof.
  intros Ht. revert checks inc out.
  induction rs as [|r rs IH]; intros checks inc out Hrs Hor; cbn [detect_loop].
  { split; [by intros [??]|]. simpl. intros [[[??]|(?&?%elem_of_nil&_)] [[??]|(?&?%elem_of_nil&_)]]; [|done..].
    subst. destruct Hor; done. }
  apply Forall_cons in Hrs as [Hr Hrs]. setoid_rewrite elem_of_cons.
  destruct (Z.leb_spec (r_commit_seq r) (high (t_snapshot txn))) as [Hle|Hgt].
  { rewrite IH by done.
    assert (¬ concurrent txn r) as Hnc by (unfold concurrent; lia).
    assert (∀ P, (∃ r', (r' = r ∨ r' ∈ rs) ∧ concurrent txn r' ∧ P r') ↔
                 ∃ r', r' ∈ rs ∧ concurrent txn r' ∧ P r') as Hsplit by naive_solver.
    by rewrite !Hsplit. }
  pose proof (incoming_edge_iff txn r Ht Hr) as Hin.
  pose proof (outgoing_edge_iff txn r Ht Hr) as Hout.
  assert (concurrent txn r) as Hc by exact Hgt.
  set (inc' := match inc with None => _ | _ => _ end).
  set (out' := match out with None => _ | _ => _ end).
  assert (is_Some inc' ↔ is_Some inc ∨ in_conflict txn r) as Hinc.
  { unfold inc'. rewrite <-Hin. destruct inc; [split; eauto|]. split; [auto|]. by intros [[??]|?]. }
  assert (is_Some out' ↔ is_Some out ∨ out_conflict txn r) as Houtc.
  { unfold out'. rewrite <-Hout. destruct out; [split; eauto|]. split; [auto|]. by intros [[??]|?]. }
  clearbody inc' out'. clear Hin Hout.
  assert (∀ P, (∃ r', (r' = r ∨ r' ∈ rs) ∧ concurrent txn r' ∧ P r') ↔
               P r ∨ ∃ r', r' ∈ rs ∧ concurrent txn r' ∧ P r') as Hsplit by naive_solver.
  rewrite !Hsplit, !(assoc or), <-Hinc, <-Houtc.
  destruct inc' as [i|], out' as [o|]; cbn [snd];
    [split; [intros _; split; left; eauto|intros _; eauto]|apply IH; auto..].
Qed.

(** The optimised edge search (iterate the smaller set, span prefilter,
    binary-searched write set) returns exactly the rw-antidependency through the
    least common block, and nothing exactly when the sets are disjoint. *)
Lemma ssi_edges_least_common (txn : Transaction) (r : CommittedTxnRecord) :
  txn_wf txn → record_wf r →
  (∀ e, ssi_incoming_edge txn r = Some e →
     reader_txn e = r_txn_id r ∧ writer_txn e = t_id txn ∧
     least_common (r_read_set r) (λ b, is_Some (sm_get b (staged_writes txn)))
       (edge_block e) (read_version e)) ∧
  (∀ e, ssi_outgoing_edge txn r = Some e →
     reader_txn e = t_id txn ∧ writer_txn e = r_txn_id r ∧ write_version e = r_commit_seq r ∧
     least_common (reads txn) (λ b, is_Some (sm_get b (r_write_set r)))
       (edge_block e) (read_version e)) ∧
  (ssi_incoming_edge txn r = None ↔ ¬ in_conflict txn r) ∧
  (ssi_outgoing_edge txn r = None ↔ ¬ out_conflict txn r).
Proof.
  intros Ht Hr. pose proof (ssi_incoming_edge_spec txn r Ht Hr) as Hi.
  pose proof (ssi_outgoing_edge_spec txn r Ht Hr) as Ho. split_and!.
  - intros e He. rewrite He in Hi. destruct Hi as (b&rv&->&?). done.
  - intros e He. rewrite He in Ho. destruct Ho as (b&rv&->&?). done.
  - by rewrite <-incoming_edge_iff, eq_None_not_Some.
  - by rewrite <-outgoing_edge_iff, eq_None_not_Some.
Qed.

(** C30. SSI detection is sound and complete: a writing transaction is reported
    as the pivot of a dangerous structure exactly when some concurrent committed
    transaction read a block it writes and some (possibly different) concurrent
    committed transaction wrote a block it read. *)
Theorem detect_ssi_iff_pivot (txn : Transaction) (records : list CommittedTxnRecord) :
  txn_wf txn → Forall record_wf records →
  is_Some (detect_ssi_dangerous_structure txn records).2 ↔
  (∃ r, r ∈ records ∧ concurrent txn r ∧ in_conflict txn r) ∧
  (∃ r, r ∈ records ∧ concurrent txn r ∧ out_conflict txn r).
Proof.
  intros Ht Hrs. unfold detect_ssi_dangerous_structure.
  destruct (staged_writes txn) as [|w ws] eqn:Hw.
  - split; [by intros [??]|]. intros [(r&_&_&b&_&[s Hs]) _]. by rewrite Hw in Hs.
  - rewrite detect_loop_spec by auto. split; [|naive_solver].
    intros [[[??]|?] [[??]|?]]; done.
Qed.

(** ** Staging properties *)

Section staging_properties.
Context `{UnstableSort}.

(** Staging a block twice under range-overlay proofs keeps the earlier
    edit: the stored bytes are the new ones, and the stored proof declares
    exactly the union of both writes' byte ranges, as disjoint ascending ranges,
    so the conflict check covers the first edit too. The earliest recorded base
    is kept; every other block's entry is untouched. *)
Lemma restaging_covers_both_edits (t : Transaction) (block : Z) (prev staged : StagedWrite)
    (ps ss : list MergeByteRange) :
  txn_wf t → staged_entry t block = Some prev →
  touched_ranges (sw_merge_proof prev) = Some ps →
  touched_ranges (sw_merge_proof staged) = Some ss →
  Forall range_wf ps → Forall range_wf ss →
  ∃ s qs, staged_entry (insert_staged_write t block staged) block = Some s ∧
    sw_bytes s = sw_bytes staged ∧
    touched_ranges (sw_merge_proof s) = Some qs ∧ gapped qs ∧
    (∀ i, covered qs i ↔ covered ps i ∨ covered ss i) ∧
    sw_base s = match sw_base prev with Some b => Some b | None => sw_base staged end ∧
    (∀ b, b ≠ block → staged_entry (insert_staged_write t block staged) b = staged_entry t b).
Proof.
  intros (Hwf&_) Hprev Hps Hss Hpwf Hswf.
  exists (restage prev staged). destruct (combined_proof_ranges _ _ _ _ Hps Hss) as (q&Hq&Hr).
  destruct (coalesce_byte_ranges_spec (ps ++ ss)) as (Hg&_&Hc); [by apply Forall_app|].
  exists (coalesce_byte_ranges (ps ++ ss)).
  rewrite insert_staged_write_entry by done. rewrite Z.eqb_refl, Hprev. split; [done|].
  unfold restage. rewrite Hq, (bool_decide_false (sw_merge_proof staged = Unsafe)), andb_false_r
    by by eapply touched_ranges_safe.
  simpl. rewrite (bool_decide_true (q ≠ Unsafe)) by by eapply touched_ranges_safe.
  split_and!; [done..| | |].
  - intros i. rewrite Hc. unfold covered. setoid_rewrite elem_of_app. naive_solver.
  - done.
  - intros b Hb. rewrite insert_staged_write_entry by done.
    by destruct (Z.eqb_spec b block).
Qed.

(** A copy-on-write rewrite leaks no physical block: after it the
    transaction owns exactly the blocks it owned before plus the new one (a
    superseded target moves to the orphan set), and it stays well formed. *)
Lemma stage_cow_rewrite_no_leak (t : Transaction) (logical : Z) (old : option Z) (new : Z)
    (data : bytes) :
  txn_wf t →
  let t' := stage_cow_rewrite t logical old new data in
  txn_wf t' ∧ staged_physical t' logical = Some new ∧
  ∀ b, owned_physical t' b ↔ owned_physical t b ∨ b = new.
Proof.
  intros (Hw&Hr&Hc&Ho) t'. unfold t', stage_cow_rewrite.
  set (orphans := match sm_get logical (cow_writes t) with Some _ => _ | None => _ end).
  assert (sm_wf orphans) as Hwo.
  { unfold orphans. destruct (sm_get _ _); [by apply sm_insert_wf|done]. }
  assert (∀ b, is_Some (sm_get b orphans) ↔
    is_Some (sm_get b (cow_orphans t)) ∨
    ∃ i, sm_get logical (cow_writes t) = Some i ∧ new_physical i = b) as Horph.
  { intros b. unfold orphans. destruct (sm_get logical (cow_writes t)) as [i|]; [|naive_solver].
    unfold ss_insert. rewrite sm_get_insert by done.
    destruct (Z.eqb_spec b (new_physical i)); naive_solver. }
  split; [apply insert_staged_write_wf; split_and!; simpl; auto using sm_insert_wf|].
  rewrite insert_staged_write_sm by done. unfold staged_physical, owned_physical. simpl.
  rewrite sm_get_insert, Z.eqb_refl by done. split; [done|]. intros b.
  setoid_rewrite Horph. setoid_rewrite (λ k, sm_get_insert logical (mkCow old new) _ k Hc). split.
  - intros [(l&i&Hi&<-)|[?|(i&?&?)]]; [|eauto 10..].
    destruct (Z.eqb_spec l logical); simplify_eq/=; eauto 10.
  - intros [[(l&i&Hi&<-)|?]| ->]; [|eauto|].
    + destruct (Z.eqb_spec l logical) as [->|Hne]; [eauto 10|]. left. exists l, i.
      by destruct (Z.eqb_spec l logical).
    + left. exists logical, (mkCow old new). by rewrite Z.eqb_refl.
Qed.
End staging_properties.

(** ** The serde round trip *)

Lemma sm_insert_snoc {V} (m : smap V) k v :
  (∀ kv, kv ∈ m → kv.1 < k) → sm_insert k v m = m ++ [(k, v)].
Proof.
  induction m as [|[k' v'] m IH]; intros Hall; [done|]. simpl.
  pose proof (Hall (k', v') ltac:(by left)) as Hk. simpl in Hk.
  destruct (Z.ltb_spec k k'); [lia|]. destruct (Z.eqb_spec k k'); [lia|].
  f_equal. apply IH. intros kv Hin. apply Hall. by right.
Qed.

(** Collecting an ascending list rebuilds it. *)
Lemma sm_collect_sorted {V} (l : smap V) : sm_wf l → sm_collect l = l.
Proof.
  unfold sm_collect. induction l as [|[k v] l IH] using rev_ind; intros Hwf; [done|].
  rewrite foldl_app. simpl. rewrite IH.
  - apply sm_insert_snoc. intros kv [i Hi]%list_elem_of_lookup_1.
    apply lookup_lt_Some in Hi as Hlen.
    eapply (Hwf i (length l) kv (k, v)); [done|by apply lookup_app_l_Some|by apply list_lookup_middle].
  - intros i j x y Hij Hx Hy. eapply Hwf; [done|by apply lookup_app_l_Some..].
Qed.

Lemma sm_wf_map {V W} (f : V → W) (m : smap V) :
  sm_wf m → sm_wf ((λ kv, (kv.1, f kv.2)) <$> m).
Proof.
  intros Hwf i j x y Hij Hx Hy. rewrite list_lookup_fmap in Hx, Hy.
  destruct (m !! i) as [p|] eqn:Hp, (m !! j) as [q|] eqn:Hq; simplify_eq/=.
  exact (Hwf i j p q Hij Hp Hq).
Qed.

Lemma sm_get_map {V W} (f : V → W) (m : smap V) k :
  sm_get k ((λ kv, (kv.1, f kv.2)) <$> m) = f <$> sm_get k m.
Proof.
  induction m as [|[k' v'] m IH]; [done|]. simpl. by destruct (k =? k').
Qed.

(** Serializing a transaction and reading it back restores everything except
    the recorded read-modify-write bases, which the serialized form drops. *)
Lemma transaction_serde_roundtrip (t : Transaction) :
  txn_wf t →
  transaction_from_serde (transaction_to_serde t) =
  set_staged_writes t
    ((λ bs, (bs.1, mkStaged (sw_bytes bs.2) (sw_merge_proof bs.2) None)) <$> staged_writes t).
Proof.
  intros (Hw&_). unfold transaction_from_serde, transaction_to_serde, set_staged_writes. simpl.
  f_equal. rewrite !sm_collect_sorted by by apply sm_wf_map.
  rewrite <-list_fmap_compose. apply list_fmap_ext. intros i [b s] Hi. simpl.
  rewrite (sm_get_map sw_merge_proof), (sm_get_lookup b s _ i) by done. done.
Qed.

(** ** Witnesses *)

Ltac check_wf := repeat split; apply ascendingb_strict; reflexivity.

(** Reads block 2 and writes block 1, with an earlier range write staged. *)
Definition sample_txn : Transaction :=
  mkTxn 8 (mkSnapshot 3)
    [(1, mkStaged [7; 0; 0; 0] (IndependentKeys [mkRange 0 1]) (Some [0; 0; 0; 0]))]
    [(2, 3)] [(1, mkCow None 50)] [].

Definition sample_record : CommittedTxnRecord :=
  mkRecord 7 4 (mkSnapshot 3) [(2, ())] [(1, 3)].

Lemma sample_txn_wf : txn_wf sample_txn.
Proof. check_wf. Qed.

Lemma sample_record_wf : record_wf sample_record.
Proof. check_wf. Qed.


Lemma detect_ssi_iff_pivot_witness :
  ∃ r, r ∈ [sample_record] ∧ concurrent sample_txn r ∧ in_conflict sample_txn r.
Proof.
  refine (proj1 (proj1 (detect_ssi_iff_pivot sample_txn [sample_record] sample_txn_wf _) _)).
  - constructor; [exact sample_record_wf|constructor].
  - vm_compute. eexists. reflexivity.
Defined.



