(* ===== verification/Policy.v ===== *)
(** * Conflict policy

    Models [ConflictPolicy], [AdaptivePolicyConfig] and [ContentionMetrics] of
    crates/ffs-mvcc/src/lib.rs.  The f64 arithmetic is IEEE binary64 on the
    executable [spec_float] of the Standard Library, with [f64::mul_add] written
    out as the fused operation (one rounding). *)

From stdpp Require Import base numbers list.
From Stdlib Require Import SpecFloat.
From S2P Require Import Prelude.

Local Open Scope Z_scope.

(** ** binary64 *)

Abbreviation f64 := spec_float.

Definition f64_prec : Z := 53.
Definition f64_emax : Z := 1024.
Definition f64_add : f64 → f64 → f64 := SFadd f64_prec f64_emax.
Definition f64_sub : f64 → f64 → f64 := SFsub f64_prec f64_emax.
Definition f64_mul : f64 → f64 → f64 := SFmul f64_prec f64_emax.
Definition f64_div : f64 → f64 → f64 := SFdiv f64_prec f64_emax.
Definition f64_of_Z (z : Z) : f64 := binary_normalize f64_prec f64_emax z 0 false.
Definition f64_lt : f64 → f64 → bool := SFltb.
Definition f64_le : f64 → f64 → bool := SFleb.

Definition signed_mantissa (s : bool) (m : positive) : Z := if s then Z.neg m else Z.pos m.

(** [x.mul_add(y, z)]: the exact product plus [z], rounded once. *)
Definition f64_mul_add (x y z : f64) : f64 :=
  let finish_inf (sp : bool) :=
    match z with
    | S754_nan => S754_nan
    | S754_infinity sz => if eqb sp sz then z else S754_nan
    | _ => S754_infinity sp
    end in
  let finish (sp : bool) (p e : Z) :=
    match z with
    | S754_nan => S754_nan
    | S754_infinity _ => z
    | S754_zero sz =>
        if p =? 0 then S754_zero (sp && sz) else binary_normalize f64_prec f64_emax p e sp
    | S754_finite sz mz ez =>
        if p =? 0 then z
        else let e' := Z.min e ez in
             binary_normalize f64_prec f64_emax
               (Z.shiftl p (e - e') + Z.shiftl (signed_mantissa sz mz) (ez - e')) e' false
    end in
  match x, y with
  | S754_nan, _ | _, S754_nan => S754_nan
  | S754_infinity _, S754_zero _ | S754_zero _, S754_infinity _ => S754_nan
  | S754_infinity sx, (S754_infinity sy | S754_finite sy _ _) => finish_inf (xorb sx sy)
  | S754_finite sx _ _, S754_infinity sy => finish_inf (xorb sx sy)
  | S754_zero sx, (S754_zero sy | S754_finite sy _ _) => finish (xorb sx sy) 0 0
  | S754_finite sx _ _, S754_zero sy => finish (xorb sx sy) 0 0
  | S754_finite sx mx ex, S754_finite sy my ey =>
      finish (xorb sx sy) (signed_mantissa sx mx * signed_mantissa sy my) (ex + ey)
  end.

(** ** The policy *)

Inductive ConflictPolicy := Strict | SafeMerge | Adaptive.

#[global] Instance ConflictPolicy_eq_dec : EqDecision ConflictPolicy.
Proof. solve_decision. Defined.

Record AdaptivePolicyConfig := mkConfig {
  corruption_severity : f64;
  abort_cost : f64;
  base_corruption_probability : f64;
  ema_alpha : f64;
  warmup_commits : Z;
  hysteresis_ratio : f64;
}.

Definition f64_zero : f64 := S754_zero false.
Definition f64_one : f64 := f64_of_Z 1.

Definition default_config : AdaptivePolicyConfig :=
  mkConfig (f64_of_Z 1000) f64_one (f64_div f64_one (f64_of_Z 1000000))
    (f64_div f64_one (f64_of_Z 10)) 50 (f64_div (f64_of_Z 3) (f64_of_Z 2)).

Record ContentionMetrics := mkMetrics {
  conflict_rate : f64;
  merge_success_rate : f64;
  abort_rate : f64;
  total_commits : Z;
  total_conflicts : Z;
  total_merges : Z;
  total_aborts : Z;
  last_selected : option ConflictPolicy;
}.

Definition default_metrics : ContentionMetrics :=
  mkMetrics f64_zero f64_one f64_zero 0 0 0 0 None.

Definition f64_of_bool (b : bool) : f64 := if b then f64_one else f64_zero.

Definition record_commit (m : ContentionMetrics) (alpha : f64)
    (had_conflict merge_succeeded aborted : bool) : ContentionMetrics :=
  let decay := f64_sub f64_one alpha in
  mkMetrics
    (f64_mul_add decay (conflict_rate m) (f64_mul (f64_of_bool had_conflict) alpha))
    (if had_conflict
     then f64_mul_add decay (merge_success_rate m) (f64_mul (f64_of_bool merge_succeeded) alpha)
     else merge_success_rate m)
    (f64_mul_add decay (abort_rate m) (f64_mul (f64_of_bool aborted) alpha))
    (saturating_add u64_max (total_commits m) 1)
    (if had_conflict then saturating_add u64_max (total_conflicts m) 1 else total_conflicts m)
    (if had_conflict && merge_succeeded
     then saturating_add u64_max (total_merges m) 1 else total_merges m)
    (if aborted then saturating_add u64_max (total_aborts m) 1 else total_aborts m)
    (last_selected m).

Definition expected_loss_strict (m : ContentionMetrics) (config : AdaptivePolicyConfig) : f64 :=
  f64_mul (conflict_rate m) (abort_cost config).

Definition expected_loss_safe_merge (m : ContentionMetrics) (config : AdaptivePolicyConfig) : f64 :=
  let corruption_loss := f64_mul (base_corruption_probability config) (corruption_severity config) in
  let residual_abort_rate :=
    f64_mul (conflict_rate m) (f64_sub f64_one (merge_success_rate m)) in
  f64_mul_add residual_abort_rate (abort_cost config) corruption_loss.

Definition select_policy (m : ContentionMetrics) (config : AdaptivePolicyConfig) : ConflictPolicy :=
  if total_commits m <? warmup_commits config then SafeMerge
  else
    let loss_strict := expected_loss_strict m config in
    let loss_merge := expected_loss_safe_merge m config in
    let raw_winner := if f64_le loss_strict loss_merge then Strict else SafeMerge in
    match last_selected m with
    | Some incumbent =>
        if bool_decide (incumbent ≠ raw_winner) then
          let '(incumbent_loss, challenger_loss) :=
            if bool_decide (incumbent = Strict) then (loss_strict, loss_merge)
            else (loss_merge, loss_strict) in
          if f64_lt (f64_mul challenger_loss (hysteresis_ratio config)) incumbent_loss
          then raw_winner else incumbent
        else raw_winner
    | None => raw_winner
    end.

Definition set_last_selected (m : ContentionMetrics) (p : option ConflictPolicy) : ContentionMetrics :=
  mkMetrics (conflict_rate m) (merge_success_rate m) (abort_rate m) (total_commits m)
    (total_conflicts m) (total_merges m) (total_aborts m) p.

(** ** Invariant *)

(** The counters nest and the remembered selection is a concrete strategy. *)
Definition metrics_wf (m : ContentionMetrics) : Prop :=
  0 <= total_merges m <= total_conflicts m ∧ total_conflicts m <= total_commits m ∧
  0 <= total_aborts m <= total_commits m ∧ total_commits m <= u64_max ∧
  last_selected m ≠ Some Adaptive.

Lemma default_metrics_wf : metrics_wf default_metrics.
Proof. split_and!; vm_compute; congruence. Qed.

Lemma record_commit_wf m alpha hc ms ab : metrics_wf m → metrics_wf (record_commit m alpha hc ms ab).
Proof.
  unfold metrics_wf, record_commit, saturating_add, u64_max. simpl. intros (?&?&?&?&?).
  destruct hc, ms, ab; simpl; split_and!; try done; lia.
Qed.

Lemma select_policy_concrete m config :
  last_selected m ≠ Some Adaptive → select_policy m config ≠ Adaptive.
Proof.
  intros Hl. unfold select_policy. destruct (_ <? _); [done|].
  destruct (last_selected m) as [i|]; [|by destruct (f64_le _ _)].
  destruct i; [..|done]; destruct (f64_le _ _); simpl; try done; by destruct (f64_lt _ _).
Qed.

Lemma set_last_selected_wf m config :
  metrics_wf m → metrics_wf (set_last_selected m (Some (select_policy m config))).
Proof.
  intros Hm. destruct Hm as (?&?&?&?&Hl). split_and!; simpl; try done; [lia..|].
  intros [= Heq]. by apply select_policy_concrete in Heq.
Qed.

#[export] Hint Resolve default_metrics_wf record_commit_wf set_last_selected_wf : ffs.

(** ** Properties *)

(** The adaptive selector is stable: it answers [SafeMerge] throughout
    warm-up, it never answers [Adaptive], and after warm-up it leaves a
    remembered incumbent only for a challenger whose loss, scaled by the
    hysteresis ratio, is strictly below the incumbent's. *)
Lemma select_policy_hysteresis (m : ContentionMetrics) (config : AdaptivePolicyConfig) :
  metrics_wf m →
  let p := select_policy m config in
  p ≠ Adaptive ∧
  (total_commits m < warmup_commits config → p = SafeMerge) ∧
  (∀ incumbent, warmup_commits config <= total_commits m →
     last_selected m = Some incumbent → p ≠ incumbent →
     let loss q := match q with Strict => expected_loss_strict m config
                   | _ => expected_loss_safe_merge m config end in
     f64_lt (f64_mul (loss p) (hysteresis_ratio config)) (loss incumbent) = true).
Proof.
  intros (_&_&_&_&Hl) p. split; [by apply select_policy_concrete|]. subst p. unfold select_policy.
  destruct (Z.ltb_spec (total_commits m) (warmup_commits config)) as [Hlt|Hge].
  { split; [done|]. intros i Hi. lia. }
  split; [lia|]. intros i _ Hi. rewrite Hi in *.
  destruct i; [..|done]; destruct (f64_le _ _); simpl; try done;
    by destruct (f64_lt _ _) eqn:E.
Qed.


(** Recording a commit keeps the counters nested (merges within conflicts
    within commits, aborts within commits) and saturating at u64, and never
    touches the remembered selection. *)
Lemma record_commit_counters (m : ContentionMetrics) (alpha : f64)
    (had_conflict merge_succeeded aborted : bool) :
  metrics_wf m →
  metrics_wf (record_commit m alpha had_conflict merge_succeeded aborted) ∧
  last_selected (record_commit m alpha had_conflict merge_succeeded aborted) = last_selected m ∧
  (total_commits m < u64_max →
   total_commits (record_commit m alpha had_conflict merge_succeeded aborted)
     = total_commits m + 1).
Proof.
  intros Hm. split; [by apply record_commit_wf|]. split; [done|].
  simpl. unfold saturating_add. lia.
Qed.

