(* ===== verification/Metrics.v ===== *)
(** * Runtime metrics

    Models the store's counters and histograms of crates/ffs-mvcc/src/lib.rs:
    [RuntimeHistogram], [MvccRuntimeMetricsState] and the retirement counters of
    [EbrVersionReclaimer].  Latencies come from the wall clock and are arguments;
    the derived per-second rates of [snapshot] are left out. *)

From stdpp Require Import base numbers list.
From S2P Require Import Prelude Sorted Txn.

Local Open Scope Z_scope.

Record RuntimeHistogram := mkHist {
  bounds : list Z;
  counts : list Z;
  hist_sum : Z;
  hist_count : Z;
}.

Definition DEFAULT_RUNTIME_HISTOGRAM_BOUNDS : list Z :=
  [1; 5; 10; 50; 100; 500; 1000; 5000; 10000; 50000; 100000; 1000000].

Definition with_bounds (b : list Z) : RuntimeHistogram :=
  mkHist b (replicate (length b + 1) 0) 0 0.

(** [counts[idx]] panics out of range. *)
Definition observe (h : RuntimeHistogram) (value : Z) : outcome RuntimeHistogram :=
  let idx := partition_point (λ bound, bound <? value) (bounds h) in
  match counts h !! idx with
  | Some c =>
      Ret (mkHist (bounds h) (<[idx := saturating_add u64_max c 1]> (counts h))
             (saturating_add u64_max (hist_sum h) value)
             (saturating_add u64_max (hist_count h) 1))
  | None => Panic
  end.

Record RuntimeHistogramSnapshot := mkHistSnapshot {
  buckets : list (Z * Z);
  inf_count : Z;
  snap_sum : Z;
  snap_count : Z;
}.

Definition hist_snapshot (h : RuntimeHistogram) : outcome RuntimeHistogramSnapshot :=
  match counts h !! length (bounds h) with
  | Some inf =>
      if (length (bounds h) <=? length (counts h))%nat
      then Ret (mkHistSnapshot (zip (bounds h) (counts h)) inf (hist_sum h) (hist_count h))
      else Panic
  | None => Panic
  end.

Record MvccRuntimeMetricsState := mkRuntime {
  commit_attempts_total : Z;
  commit_successes_total : Z;
  conflicts_total : Z;
  aborts_total : Z;
  pruned_versions_total : Z;
  commit_latency_us : RuntimeHistogram;
  conflict_resolution_latency_us : RuntimeHistogram;
}.

Definition default_runtime : MvccRuntimeMetricsState :=
  mkRuntime 0 0 0 0 0 (with_bounds DEFAULT_RUNTIME_HISTOGRAM_BOUNDS)
    (with_bounds DEFAULT_RUNTIME_HISTOGRAM_BOUNDS).

Definition sat_incr (n : Z) : Z := saturating_add u64_max n 1.

Definition record_commit_attempt (m : MvccRuntimeMetricsState) : MvccRuntimeMetricsState :=
  mkRuntime (sat_incr (commit_attempts_total m)) (commit_successes_total m) (conflicts_total m)
    (aborts_total m) (pruned_versions_total m) (commit_latency_us m)
    (conflict_resolution_latency_us m).

Definition record_commit_success (m : MvccRuntimeMetricsState) (latency_us : Z)
    : outcome MvccRuntimeMetricsState :=
  h ← observe (commit_latency_us m) latency_us;
  Ret (mkRuntime (commit_attempts_total m) (sat_incr (commit_successes_total m))
         (conflicts_total m) (aborts_total m) (pruned_versions_total m) h
         (conflict_resolution_latency_us m)).

Definition record_commit_abort_metrics (m : MvccRuntimeMetricsState) (error : CommitError)
    : MvccRuntimeMetricsState :=
  mkRuntime (commit_attempts_total m) (commit_successes_total m)
    (match error with
     | Conflict _ _ _ | SsiConflict _ _ _ _ => sat_incr (conflicts_total m)
     | _ => conflicts_total m
     end)
    (sat_incr (aborts_total m)) (pruned_versions_total m) (commit_latency_us m)
    (conflict_resolution_latency_us m).

Definition record_conflict_resolution_latency (m : MvccRuntimeMetricsState) (latency_us : Z)
    : outcome MvccRuntimeMetricsState :=
  h ← observe (conflict_resolution_latency_us m) latency_us;
  Ret (mkRuntime (commit_attempts_total m) (commit_successes_total m) (conflicts_total m)
         (aborts_total m) (pruned_versions_total m) (commit_latency_us m) h).

Definition record_versions_pruned (m : MvccRuntimeMetricsState) (count : Z)
    : MvccRuntimeMetricsState :=
  mkRuntime (commit_attempts_total m) (commit_successes_total m) (conflicts_total m)
    (aborts_total m) (saturating_add u64_max (pruned_versions_total m) count)
    (commit_latency_us m) (conflict_resolution_latency_us m).

Record EbrVersionStats := mkEbr { retired_versions : Z; reclaimed_versions : Z }.

Definition pending_versions (s : EbrVersionStats) : Z :=
  saturating_sub (retired_versions s) (reclaimed_versions s).

(** [retire_versions] counts every version of every batch once. *)
Definition retire_versions (s : EbrVersionStats) (retired : Z) : EbrVersionStats :=
  mkEbr (saturating_add u64_max (retired_versions s) retired) (reclaimed_versions s).

(** ** Well-formedness *)

Definition hist_wf (h : RuntimeHistogram) : Prop :=
  length (counts h) = S (length (bounds h)) ∧
  Forall (λ c, 0 <= c) (counts h) ∧ 0 <= hist_sum h ∧ 0 <= hist_count h ∧
  seq_strict id (bounds h).

Definition runtime_wf (m : MvccRuntimeMetricsState) : Prop :=
  hist_wf (commit_latency_us m) ∧ hist_wf (conflict_resolution_latency_us m).

Lemma default_runtime_wf : runtime_wf default_runtime.
Proof.
  assert (hist_wf (with_bounds DEFAULT_RUNTIME_HISTOGRAM_BOUNDS)); [|done].
  split_and!; [done|by repeat constructor|done..|by apply ascendingb_strict].
Qed.

Lemma partition_point_lt_spec (l : list Z) (value : Z) :
  seq_strict id l →
  (partition_point (λ b, (b <? value)%Z) l <= length l)%nat ∧
  ∀ i b, l !! i = Some b → (i < partition_point (λ b, (b <? value)%Z) l)%nat ↔ b < value.
Proof.
  intros Hs. destruct (sorted_boundary id l (value - 1) (seq_strict_sorted _ _ Hs))
    as (k&Hk&Hlt&Hge).
  rewrite (partition_point_spec _ l k Hk).
  - split; [done|]. intros i b Hb. split.
    + intros Hi. specialize (Hlt i b Hi Hb). simpl in Hlt. unfold id in Hlt. lia.
    + intros Hbv. destruct (decide (i < k)%nat); [done|].
      specialize (Hge i b ltac:(lia) Hb). unfold id in Hge. lia.
  - intros i b Hi Hb. apply Z.ltb_lt. specialize (Hlt i b Hi Hb). unfold id in Hlt. lia.
  - intros i b Hi Hb. apply Z.ltb_ge. specialize (Hge i b Hi Hb). unfold id in Hge. lia.
Qed.

Lemma observe_total h v : hist_wf h → 0 <= v → ∃ h', observe h v = Ret h' ∧ hist_wf h'.
Proof.
  intros (Hlen&Hc&Hs&Hn&Hb) Hv. unfold observe.
  destruct (partition_point_lt_spec (bounds h) v Hb) as [Hle _].
  destruct (lookup_lt_is_Some_2 (counts h) (partition_point (λ b, b <? v) (bounds h))) as [c Hlk];
    [lia|].
  rewrite Hlk. eexists. split; [done|]. split_and!; simpl; [by rewrite length_insert| | | |done].
  - apply Forall_insert; [done|]. pose proof (Forall_lookup_1 _ _ _ _ Hc Hlk).
    unfold saturating_add, u64_max. simpl in *. lia.
  - unfold saturating_add, u64_max. lia.
  - unfold saturating_add, u64_max. lia.
Qed.

Lemma record_commit_success_total m us :
  runtime_wf m → 0 <= us → ∃ m', record_commit_success m us = Ret m' ∧ runtime_wf m'.
Proof.
  intros [Hc Hr] Hus. unfold record_commit_success.
  destruct (observe_total _ us Hc Hus) as (h&->&?). by eexists.
Qed.

Lemma record_resolution_total m us :
  runtime_wf m → 0 <= us → ∃ m', record_conflict_resolution_latency m us = Ret m' ∧ runtime_wf m'.
Proof.
  intros [Hc Hr] Hus. unfold record_conflict_resolution_latency.
  destruct (observe_total _ us Hr Hus) as (h&->&?). by eexists.
Qed.

Lemma record_commit_attempt_wf m : runtime_wf m → runtime_wf (record_commit_attempt m).
Proof. done. Qed.
Lemma record_commit_abort_wf m e : runtime_wf m → runtime_wf (record_commit_abort_metrics m e).
Proof. done. Qed.
Lemma record_versions_pruned_wf m n : runtime_wf m → runtime_wf (record_versions_pruned m n).
Proof. done. Qed.

#[export] Hint Resolve default_runtime_wf record_commit_attempt_wf record_commit_abort_wf
  record_versions_pruned_wf : ffs.

(** ** Properties *)

(** A histogram observation never indexes out of range and lands in exactly
    one bucket: the first whose upper bound is at least the value, or the
    overflow bucket when no bound is. *)
Lemma observe_bucket (h : RuntimeHistogram) (value : Z) :
  hist_wf h → 0 <= value →
  ∃ h' idx c, observe h value = Ret h' ∧ hist_wf h' ∧
    counts h !! idx = Some c ∧ counts h' = <[idx := sat_incr c]> (counts h) ∧
    (∀ i b, bounds h !! i = Some b → (i < idx)%nat ↔ b < value).
Proof.
  intros Hh Hv. destruct (observe_total h value Hh Hv) as (h'&Ho&Hwf).
  exists h', (partition_point (λ b, b <? value) (bounds h)). pose proof Ho as Ho'.
  unfold observe in Ho'. destruct (counts h !! _) as [c|] eqn:Hc; [|done].
  injection Ho' as <-. exists c. destruct Hh as (_&_&_&_&Hb).
  destruct (partition_point_lt_spec (bounds h) value Hb) as [_ Hi]. done.
Qed.

