(* ===== verification/Store.v ===== *)
(** * The MVCC store

    Models [MvccStore] of crates/ffs-mvcc/src/store.rs: its state and every
    operation that changes it (begin, the first-committer-wins and SSI commit
    paths, chain capping and pressure relief, snapshot registration, pruning,
    eviction, checkpoint loading) and the read paths.  A handler that can fail
    returns the store it leaves behind together with its [Result]; a panic inside
    a merge validator or histogram is [Panic].  Evidence and tracing output and
    the epoch collector's deferred drops are not modelled; wall-clock latencies
    are an argument ([Timing]). *)

From stdpp Require Import base sorting numbers gmap list.
From S2P Require Import Prelude Sorted Merge Chain Txn Policy Metrics.

Local Open Scope Z_scope.

(** ** State *)

(** The observability counters of the store, grouped. *)
Record Telemetry := mkTelemetry {
  ebr : EbrVersionStats;
  aborted_transactions : Z;
  ssi_conflicts : Z;
  committed_block_writes : Z;
  runtime_metrics : MvccRuntimeMetricsState;
}.

Record MvccStore := mkStore {
  next_txn : Z;
  next_commit : Z;
  versions : gmap Z (list BlockVersion);
  physical_versions : gmap Z (list PhysicalBlockVersion);
  active_snapshots : smap Z;
  force_advanced_releases : smap Z;
  ssi_log : list CommittedTxnRecord;
  compression_policy : CompressionPolicy;
  conflict_policy : ConflictPolicy;
  adaptive_config : AdaptivePolicyConfig;
  contention_metrics : ContentionMetrics;
  gc_throttled : bool;
  telemetry : Telemetry;
}.

Definition store_new : MvccStore :=
  mkStore 1 1 ∅ ∅ [] [] [] default_policy SafeMerge default_config default_metrics false
    (mkTelemetry (mkEbr 0 0) 0 0 0 default_runtime).

(** ** Field updates *)

Definition set_counters (s : MvccStore) (txn commit : Z) : MvccStore :=
  mkStore txn commit (versions s) (physical_versions s) (active_snapshots s)
    (force_advanced_releases s) (ssi_log s) (compression_policy s) (conflict_policy s)
    (adaptive_config s) (contention_metrics s) (gc_throttled s) (telemetry s).

Definition set_versions (s : MvccStore) (v : gmap Z (list BlockVersion)) : MvccStore :=
  mkStore (next_txn s) (next_commit s) v (physical_versions s) (active_snapshots s)
    (force_advanced_releases s) (ssi_log s) (compression_policy s) (conflict_policy s)
    (adaptive_config s) (contention_metrics s) (gc_throttled s) (telemetry s).

Definition set_physical_versions (s : MvccStore) (v : gmap Z (list PhysicalBlockVersion)) : MvccStore :=
  mkStore (next_txn s) (next_commit s) (versions s) v (active_snapshots s)
    (force_advanced_releases s) (ssi_log s) (compression_policy s) (conflict_policy s)
    (adaptive_config s) (contention_metrics s) (gc_throttled s) (telemetry s).

Definition set_snapshots (s : MvccStore) (active forced : smap Z) : MvccStore :=
  mkStore (next_txn s) (next_commit s) (versions s) (physical_versions s) active forced
    (ssi_log s) (compression_policy s) (conflict_policy s) (adaptive_config s)
    (contention_metrics s) (gc_throttled s) (telemetry s).

Definition set_ssi_log (s : MvccStore) (log : list CommittedTxnRecord) : MvccStore :=
  mkStore (next_txn s) (next_commit s) (versions s) (physical_versions s) (active_snapshots s)
    (force_advanced_releases s) log (compression_policy s) (conflict_policy s)
    (adaptive_config s) (contention_metrics s) (gc_throttled s) (telemetry s).

Definition set_conflict_policy (s : MvccStore) (p : ConflictPolicy) : MvccStore :=
  mkStore (next_txn s) (next_commit s) (versions s) (physical_versions s) (active_snapshots s)
    (force_advanced_releases s) (ssi_log s) (compression_policy s) p
    (adaptive_config s) (contention_metrics s) (gc_throttled s) (telemetry s).

Definition set_adaptive_config (s : MvccStore) (c : AdaptivePolicyConfig) : MvccStore :=
  mkStore (next_txn s) (next_commit s) (versions s) (physical_versions s) (active_snapshots s)
    (force_advanced_releases s) (ssi_log s) (compression_policy s) (conflict_policy s)
    c (contention_metrics s) (gc_throttled s) (telemetry s).

Definition set_contention (s : MvccStore) (m : ContentionMetrics) : MvccStore :=
  mkStore (next_txn s) (next_commit s) (versions s) (physical_versions s) (active_snapshots s)
    (force_advanced_releases s) (ssi_log s) (compression_policy s) (conflict_policy s)
    (adaptive_config s) m (gc_throttled s) (telemetry s).

Definition set_gc_throttled (s : MvccStore) (b : bool) : MvccStore :=
  mkStore (next_txn s) (next_commit s) (versions s) (physical_versions s) (active_snapshots s)
    (force_advanced_releases s) (ssi_log s) (compression_policy s) (conflict_policy s)
    (adaptive_config s) (contention_metrics s) b (telemetry s).

Definition set_telemetry (s : MvccStore) (t : Telemetry) : MvccStore :=
  mkStore (next_txn s) (next_commit s) (versions s) (physical_versions s) (active_snapshots s)
    (force_advanced_releases s) (ssi_log s) (compression_policy s) (conflict_policy s)
    (adaptive_config s) (contention_metrics s) (gc_throttled s) t.

Definition set_runtime (s : MvccStore) (m : MvccRuntimeMetricsState) : MvccStore :=
  let t := telemetry s in
  set_telemetry s (mkTelemetry (ebr t) (aborted_transactions t) (ssi_conflicts t)
                     (committed_block_writes t) m).

Definition retire (s : MvccStore) (count : Z) : MvccStore :=
  let t := telemetry s in
  set_telemetry s (mkTelemetry (retire_versions (ebr t) count) (aborted_transactions t)
                     (ssi_conflicts t) (committed_block_writes t) (runtime_metrics t)).

Definition with_compression_policy (policy : CompressionPolicy) : MvccStore :=
  mkStore 1 1 ∅ ∅ [] [] [] policy SafeMerge default_config default_metrics false
    (mkTelemetry (mkEbr 0 0) 0 0 0 default_runtime).

(** Wall-clock readings of one commit: its total latency, and the conflict
    resolution latency per block. *)
Record Timing := mkTiming { commit_us : Z; resolution_us : Z → Z }.

(** ** Snapshots *)

Definition effective_policy (s : MvccStore) : ConflictPolicy :=
  match conflict_policy s with
  | Adaptive => select_policy (contention_metrics s) (adaptive_config s)
  | other => other
  end.

Definition critical_chain_len (max_len : Z) : Z :=
  let cap := Z.max max_len 1 in
  Z.max (saturating_mul usize_max cap 4) (saturating_add usize_max cap 1).

Definition current_snapshot (s : MvccStore) : Snapshot :=
  mkSnapshot (saturating_sub (next_commit s) 1).

Definition begin (s : MvccStore) : Transaction * MvccStore :=
  (txn_new (next_txn s) (current_snapshot s),
   set_counters s (saturating_add u64_max (next_txn s) 1) (next_commit s)).

Definition watermark (s : MvccStore) : option Z := fst <$> head (active_snapshots s).

(** [self.watermark().unwrap_or_else(|| self.current_snapshot().high)] *)
Definition gc_watermark (s : MvccStore) : Z := default (high (current_snapshot s)) (watermark s).

Definition active_snapshot_count (s : MvccStore) : Z :=
  foldl (λ total kc, saturating_add usize_max total kc.2) 0 (active_snapshots s).

Definition register_snapshot (s : MvccStore) (snapshot : Snapshot) : MvccStore :=
  let count := default 0 (sm_get (high snapshot) (active_snapshots s)) in
  set_snapshots s
    (sm_insert (high snapshot) (saturating_add u64_max count 1) (active_snapshots s))
    (force_advanced_releases s).

(** [*pending -= 1] is a checked subtraction: it panics at zero. *)
Definition release_snapshot (s : MvccStore) (snapshot : Snapshot) : outcome (MvccStore * bool) :=
  match sm_get (high snapshot) (active_snapshots s) with
  | Some count =>
      let count_after := saturating_sub count 1 in
      let active := if count_after =? 0
                    then sm_remove (high snapshot) (active_snapshots s)
                    else sm_insert (high snapshot) count_after (active_snapshots s) in
      Ret (set_snapshots s active (force_advanced_releases s), true)
  | None =>
      match sm_get (high snapshot) (force_advanced_releases s) with
      | Some pending =>
          if pending =? 0 then Panic
          else
            let forced := if pending - 1 =? 0
                          then sm_remove (high snapshot) (force_advanced_releases s)
                          else sm_insert (high snapshot) (pending - 1) (force_advanced_releases s) in
            Ret (set_snapshots s (active_snapshots s) forced, true)
      | None => Ret (s, false)
      end
  end.

(** The first-key reference count, moved to the forced map. *)
Definition force_advance_oldest_snapshot (s : MvccStore) : option (Z * Z * MvccStore) :=
  match head (active_snapshots s) with
  | None => None
  | Some (oldest, refs) =>
      let pending := default 0 (sm_get oldest (force_advanced_releases s)) in
      let forced := sm_insert oldest (pending + 1) (force_advanced_releases s) in
      if 1 <? refs
      then Some (oldest, refs - 1,
                 set_snapshots s (sm_insert oldest (refs - 1) (active_snapshots s)) forced)
      else Some (oldest, 0, set_snapshots s (sm_remove oldest (active_snapshots s)) forced)
  end.

(** ** Reads *)

Section with_codec.
Context `{VersionCodec}.

Definition latest_commit_seq (s : MvccStore) (block : Z) : Z :=
  match versions s !! block ≫= last with Some v => bv_commit_seq v | None => 0 end.

Definition version_bytes_at (s : MvccStore) (block visible_high : Z) : option bytes :=
  chain ← versions s !! block;
  idx ← newest_visible_index chain visible_high;
  resolve_data_with chain idx bv_data.

Definition read_visible (s : MvccStore) (block : Z) (snapshot : Snapshot) : option bytes :=
  chain ← versions s !! block;
  idx ← newest_visible_index chain (high snapshot);
  resolve_data_with chain idx bv_data.

Definition read_visible_physical (s : MvccStore) (logical : Z) (snapshot : Snapshot) : option Z :=
  match (chain ← physical_versions s !! logical;
         idx ← newest_visible_index_by chain (high snapshot) pv_commit_seq;
         chain !! idx) with
  | Some v => Some (pv_physical v)
  | None => (λ _, logical) <$> read_visible s logical snapshot
  end.

Definition latest_physical_block (s : MvccStore) (logical : Z) : option Z :=
  read_visible_physical s logical (current_snapshot s).

(** ** Conflict resolution *)

Section with_sort.
Context `{UnstableSort}.

(** The common-ancestor bytes: the version at the snapshot, else the recorded
    read-modify-write base, else empty. *)
Definition merge_base (s : MvccStore) (txn : Transaction) (block : Z) : bytes :=
  default [] (match version_bytes_at s block (high (t_snapshot txn)) with
              | Some b => Some b
              | None => staged_base txn block
              end).

Definition resolved_write_bytes_with_policy (s : MvccStore) (txn : Transaction) (block : Z)
    (effective : ConflictPolicy) : outcome (res CommitError bytes) :=
  match staged_write txn block with
  | None => Ret (Err (DurabilityFailure (WriteSetKeyWithoutBytes block)))
  | Some staged =>
      let observed := latest_commit_seq s block in
      let conflict : res CommitError bytes := Err (Conflict block (high (t_snapshot txn)) observed) in
      if observed <=? high (t_snapshot txn) then Ret (Ok staged)
      else if bool_decide (effective = Strict) then Ret conflict
      else
        let proof := default Unsafe (merge_proof txn block) in
        let base := merge_base s txn block in
        let latest := default [] (version_bytes_at s block observed) in
        merged ← merge_bytes proof base latest staged;
        Ret (match merged with Some m => Ok m | None => conflict end)
  end.

Definition resolved_write_valid_with_policy (s : MvccStore) (txn : Transaction) (block : Z)
    (effective : ConflictPolicy) : outcome (res CommitError ()) :=
  match staged_write txn block with
  | None => Ret (Err (DurabilityFailure (WriteSetKeyWithoutBytes block)))
  | Some staged =>
      let observed := latest_commit_seq s block in
      let conflict : res CommitError () := Err (Conflict block (high (t_snapshot txn)) observed) in
      if observed <=? high (t_snapshot txn) then Ret (Ok ())
      else if bool_decide (effective = Strict) then Ret conflict
      else
        let proof := default Unsafe (merge_proof txn block) in
        let base := merge_base s txn block in
        let latest := default [] (version_bytes_at s block observed) in
        valid ← merge_valid proof base latest staged;
        Ret (match valid with true => Ok () | false => conflict end)
  end.

Definition resolved_write_bytes (s : MvccStore) (txn : Transaction) (block : Z)
    : outcome (res CommitError bytes) :=
  resolved_write_bytes_with_policy s txn block (effective_policy s).

(** The collected map stops at the first error. *)
Fixpoint resolved_writes_loop (s : MvccStore) (txn : Transaction) (blocks : list Z)
    : outcome (res CommitError (list (Z * bytes))) :=
  match blocks with
  | [] => Ret (Ok [])
  | block :: blocks' =>
      r ← resolved_write_bytes s txn block;
      match r with
      | Err e => Ret (Err e)
      | Ok b =>
          rest ← resolved_writes_loop s txn blocks';
          Ret (match rest with Ok l => Ok ((block, b) :: l) | Err e => Err e end)
      end
  end.

Definition resolved_writes_for_commit (s : MvccStore) (txn : Transaction)
    : outcome (res CommitError (list (Z * bytes))) :=
  resolved_writes_loop s txn (write_set_keys txn).

Definition preflight_resolve_block_conflict (s : MvccStore) (txn : Transaction)
    (block latest : Z) (effective : ConflictPolicy) : outcome (res CommitError ()) :=
  let conflict : res CommitError () := Err (Conflict block (high (t_snapshot txn)) latest) in
  if bool_decide (effective = Strict) then Ret conflict
  else
    r ← resolved_write_valid_with_policy s txn block effective;
    Ret (match r with Ok _ => Ok () | Err _ => conflict end).

(** ** Chain pressure *)

Definition chain_trim_blocked_by_snapshot (s : MvccStore) (block wm : Z) : bool :=
  match versions s !! block with
  | Some chain =>
      match chain !! 1%nat with Some v => wm <? bv_commit_seq v | None => false end
  | None => false
  end.

Definition chain_len (s : MvccStore) (block : Z) : Z :=
  match versions s !! block with Some chain => zlen chain | None => 0 end.

(** Returns the store it leaves (one snapshot may have been force-advanced). *)
Definition enforce_chain_pressure (s : MvccStore) (block max_len : Z)
    : MvccStore * res CommitError () :=
  let len := chain_len s block in
  if len =? 0 then (s, Ok ())
  else
    let cap := Z.max max_len 1 in
    let critical_len := critical_chain_len cap in
    if len <? critical_len then (s, Ok ())
    else
      let wm := gc_watermark s in
      if negb (chain_trim_blocked_by_snapshot s block wm) then (s, Ok ())
      else
        let reject := Err (ChainBackpressure block len cap critical_len wm) in
        match force_advance_oldest_snapshot s with
        | Some (_, _, s') =>
            if negb (chain_trim_blocked_by_snapshot s' block (gc_watermark s'))
            then (s', Ok ()) else (s', reject)
        | None => (s, reject)
        end.

Definition enforce_chain_cap (s : MvccStore) (block max_len : Z) : MvccStore :=
  match versions s !! block with
  | Some chain =>
      let '(kept, retired) := trim_block_chain_to_cap chain (Z.max max_len 1) (gc_watermark s) in
      let s' := set_versions s (<[block := kept]> (versions s)) in
      match retired with [] => s' | _ => retire s' (zlen retired) end
  | None => s
  end.

Definition enforce_physical_chain_cap (s : MvccStore) (block max_len : Z) : MvccStore :=
  match physical_versions s !! block with
  | Some chain =>
      set_physical_versions s
        (<[block := trim_physical_chain_to_cap chain (Z.max max_len 1) (gc_watermark s)]>
           (physical_versions s))
  | None => s
  end.

(** ** Commit *)

(** The contention update of a preflight, only under [Adaptive]. *)
Definition record_contention (s : MvccStore) (had_conflict merged aborted : bool) : MvccStore :=
  match conflict_policy s with
  | Adaptive =>
      let m := record_commit (contention_metrics s) (ema_alpha (adaptive_config s))
                 had_conflict merged aborted in
      set_contention s (set_last_selected m (Some (select_policy m (adaptive_config s))))
  | _ => s
  end.

Fixpoint preflight_loop (txn : Transaction) (time : Timing) (effective : ConflictPolicy)
    (blocks : list Z) (s : MvccStore) (had_conflict merged : bool)
    : outcome (MvccStore * res CommitError ()) :=
  match blocks with
  | [] => Ret (record_contention s had_conflict merged false, Ok ())
  | block :: blocks' =>
      let pressure (s : MvccStore) (had_conflict merged : bool)
          : outcome (MvccStore * res CommitError ()) :=
        match max_chain_length (compression_policy s) with
        | Some cap =>
            match enforce_chain_pressure s block cap with
            | (s', Ok _) => preflight_loop txn time effective blocks' s' had_conflict merged
            | (s', Err e) => Ret (record_contention s' had_conflict merged true, Err e)
            end
        | None => preflight_loop txn time effective blocks' s had_conflict merged
        end in
      let latest := latest_commit_seq s block in
      if high (t_snapshot txn) <? latest then
        resolution ← preflight_resolve_block_conflict s txn block latest effective;
        runtime ← record_conflict_resolution_latency (runtime_metrics (telemetry s))
                    (resolution_us time block);
        let s' := set_runtime s runtime in
        match resolution with
        | Ok _ => pressure s' true true
        | Err e => Ret (record_contention s' true false true, Err e)
        end
      else pressure s had_conflict merged
  end.

Definition preflight_fcw (s : MvccStore) (txn : Transaction) (time : Timing)
    : outcome (MvccStore * res CommitError ()) :=
  match validate_transaction_id (t_id txn) with
  | Err e => Ret (s, Err e)
  | Ok _ => preflight_loop txn time (effective_policy s) (write_set_keys txn) s false false
  end.

Definition next_commit_seq (s : MvccStore) : MvccStore * res CommitError Z :=
  let current := next_commit s in
  match checked_add u64_max current 1 with
  | None => (s, Err (DurabilityFailure (CommitSequenceExhausted current)))
  | Some next => (set_counters s (next_txn s) next, Ok current)
  end.

(** The merged bytes of every conflicting write, or the first conflict. *)
Fixpoint merged_writes_loop (s : MvccStore) (txn : Transaction) (effective : ConflictPolicy)
    (writes : StagedWrites) (merged_writes : smap bytes)
    : outcome (res CommitError (smap bytes)) :=
  match writes with
  | [] => Ret (Ok merged_writes)
  | (block, staged) :: writes' =>
      let observed := latest_commit_seq s block in
      let conflict : res CommitError (smap bytes) :=
        Err (Conflict block (high (t_snapshot txn)) observed) in
      if observed <=? high (t_snapshot txn)
      then merged_writes_loop s txn effective writes' merged_writes
      else if bool_decide (effective = Strict) then Ret conflict
      else
        let base := default [] (version_bytes_at s block (high (t_snapshot txn))) in
        let latest := default [] (version_bytes_at s block observed) in
        merged ← merge_bytes (sw_merge_proof staged) base latest (sw_bytes staged);
        match merged with
        | Some m => merged_writes_loop s txn effective writes' (sm_insert block m merged_writes)
        | None => Ret conflict
        end
  end.

Definition merged_writes_after_preflight (s : MvccStore) (txn : Transaction)
    : outcome (res CommitError (smap bytes)) :=
  merged_writes_loop s txn (effective_policy s) (staged_writes txn) [].

(** Push onto the chain of [block], creating it. *)
Definition push_version (s : MvccStore) (v : BlockVersion) : MvccStore :=
  set_versions s
    (<[bv_block v := default [] (versions s !! bv_block v) ++ [v]]> (versions s)).

Definition push_physical (s : MvccStore) (v : PhysicalBlockVersion) : MvccStore :=
  set_physical_versions s
    (<[pv_logical v := default [] (physical_versions s !! pv_logical v) ++ [v]]>
       (physical_versions s)).

(** The loop body that installs one staged write. *)
Definition install_write (commit_seq txn_id : Z) (cow : smap CowRewriteIntent)
    (merged_writes : smap bytes) (s : MvccStore) (write : Z * StagedWrite) : MvccStore :=
  let '(block, staged) := write in
  let version_bytes := default (sw_bytes staged) (sm_get block merged_writes) in
  let data := version_data_for (compression_policy s)
                (default [] (versions s !! block)) version_bytes in
  let s1 := push_version s (mkVersion block commit_seq txn_id data) in
  let s2 := match sm_get block cow with
            | Some intent => push_physical s1 (mkPhysical block (new_physical intent) commit_seq txn_id)
            | None => s1
            end in
  match max_chain_length (compression_policy s2) with
  | Some cap => enforce_physical_chain_cap (enforce_chain_cap s2 block cap) block cap
  | None => s2
  end.

Definition install_writes (s : MvccStore) (commit_seq : Z) (txn : Transaction)
    (merged_writes : smap bytes) : MvccStore :=
  foldl (install_write commit_seq (t_id txn) (cow_writes txn) merged_writes) s (staged_writes txn).

Definition collect_cow_deferred_frees (cow : smap CowRewriteIntent) (orphans : sset) : list Z :=
  (foldl (λ acc li,
     match old_physical li.2 with
     | Some old => if bool_decide (old ≠ new_physical li.2) then ss_insert old acc else acc
     | None => acc
     end) orphans cow).*1.

Definition apply_fcw_commit (s : MvccStore) (txn : Transaction)
    : outcome (MvccStore * res CommitError (Z * list Z)) :=
  match validate_transaction_id (t_id txn) with
  | Err e => Ret (s, Err e)
  | Ok _ =>
      merged ← merged_writes_after_preflight s txn;
      match merged with
      | Err e => Ret (s, Err e)
      | Ok merged_writes =>
          match next_commit_seq s with
          | (s1, Err e) => Ret (s1, Err e)
          | (s1, Ok commit_seq) =>
              Ret (install_writes s1 commit_seq txn merged_writes,
                   Ok (commit_seq, collect_cow_deferred_frees (cow_writes txn) (cow_orphans txn)))
          end
      end
  end.

Definition commit_fcw_internal (s : MvccStore) (txn : Transaction) (time : Timing)
    : outcome (MvccStore * res CommitError (Z * list Z)) :=
  p ← preflight_fcw s txn time;
  match p with
  | (s', Err e) => Ret (s', Err e)
  | (s', Ok _) => apply_fcw_commit s' txn
  end.

(** [iter().rev().take_while(..)] over the log. *)
Fixpoint take_while {A} (p : A → bool) (l : list A) : list A :=
  match l with
  | [] => []
  | x :: l' => if p x then x :: take_while p l' else []
  end.

Definition validate_ssi_read_set (s : MvccStore) (txn : Transaction) : res CommitError Z :=
  let records := take_while (λ r, high (t_snapshot txn) <? r_commit_seq r) (rev (ssi_log s)) in
  match detect_ssi_dangerous_structure txn records with
  | (_, Some dangerous) => Err (to_commit_error dangerous)
  | (checks, None) => Ok checks
  end.

Definition commit_ssi_internal (s : MvccStore) (txn : Transaction) (time : Timing)
    : outcome (MvccStore * res CommitError (Z * list Z)) :=
  p ← preflight_fcw s txn time;
  match p with
  | (s', Err e) => Ret (s', Err e)
  | (s', Ok _) =>
      match validate_ssi_read_set s' txn with
      | Err e => Ret (s', Err e)
      | Ok _ =>
          merged ← merged_writes_after_preflight s' txn;
          match merged with
          | Err e => Ret (s', Err e)
          | Ok merged_writes =>
              match next_commit_seq s' with
              | (s1, Err e) => Ret (s1, Err e)
              | (s1, Ok commit_seq) =>
                  let s2 := install_writes s1 commit_seq txn merged_writes in
                  let write_keys : sset := sm_collect ((λ k, (k, ())) <$> write_set_keys txn) in
                  let record := mkRecord (t_id txn) commit_seq (t_snapshot txn) write_keys (reads txn) in
                  Ret (set_ssi_log s2 (ssi_log s2 ++ [record]),
                       Ok (commit_seq,
                           collect_cow_deferred_frees (cow_writes txn) (cow_orphans txn)))
              end
          end
      end
  end.

(** ** Commit entry points *)

Definition with_attempt (s : MvccStore) : MvccStore :=
  set_runtime s (record_commit_attempt (runtime_metrics (telemetry s))).

Definition emit_transaction_commit (s : MvccStore) (write_set_size us : Z) : outcome MvccStore :=
  let t := telemetry s in
  m ← record_commit_success (runtime_metrics t) us;
  Ret (set_telemetry s (mkTelemetry (ebr t) (aborted_transactions t) (ssi_conflicts t)
         (saturating_add u64_max (committed_block_writes t) write_set_size) m)).

Definition emit_txn_aborted (s : MvccStore) : MvccStore :=
  let t := telemetry s in
  set_telemetry s (mkTelemetry (ebr t) (sat_incr (aborted_transactions t)) (ssi_conflicts t)
                     (committed_block_writes t) (runtime_metrics t)).

Definition emit_serialization_conflict (s : MvccStore) : MvccStore :=
  let t := telemetry s in
  set_telemetry s (mkTelemetry (ebr t) (aborted_transactions t) (sat_incr (ssi_conflicts t))
                     (committed_block_writes t) (runtime_metrics t)).

Definition record_commit_abort (s : MvccStore) (error : CommitError) : MvccStore :=
  let s1 := set_runtime s (record_commit_abort_metrics (runtime_metrics (telemetry s)) error) in
  let s2 := emit_txn_aborted s1 in
  match error with
  | SsiConflict _ _ _ _ => emit_serialization_conflict s2
  | _ => s2
  end.

(** The shared tail of the entry points: telemetry for either outcome. *)
Definition finish_commit {A} (time : Timing) (write_set_size : Z)
    (r : MvccStore * res CommitError A) : outcome (MvccStore * res CommitError A) :=
  match r with
  | (s, Ok a) => s' ← emit_transaction_commit s write_set_size (commit_us time); Ret (s', Ok a)
  | (s, Err e) => Ret (record_commit_abort s e, Err e)
  end.

Definition drop_deferred (r : MvccStore * res CommitError (Z * list Z)) : MvccStore * res CommitError Z :=
  (r.1, match r.2 with Ok (seq, _) => Ok seq | Err e => Err e end).

Definition commit (s : MvccStore) (txn : Transaction) (time : Timing)
    : outcome (MvccStore * res CommitError Z) :=
  r ← commit_fcw_internal (with_attempt s) txn time;
  finish_commit time (pending_writes txn) (drop_deferred r).

Definition preflight_commit_fcw (s : MvccStore) (txn : Transaction) (time : Timing)
    : outcome (MvccStore * res CommitError ()) :=
  preflight_fcw s txn time.

Definition commit_fcw_prechecked (s : MvccStore) (txn : Transaction) (time : Timing)
    : outcome (MvccStore * res CommitError Z) :=
  r ← apply_fcw_commit (with_attempt s) txn;
  finish_commit time (pending_writes txn) (drop_deferred r).

Definition commit_ssi (s : MvccStore) (txn : Transaction) (time : Timing)
    : outcome (MvccStore * res CommitError Z) :=
  r ← commit_ssi_internal (with_attempt s) txn time;
  finish_commit time (pending_writes txn) (drop_deferred r).

Definition abort (s : MvccStore) (txn : Transaction) : MvccStore := emit_txn_aborted s.

(** *** Copy-on-write allocator calls *)

Inductive AllocCall :=
| DeferFree (block commit_seq : Z)
| GcFree (wm : Z).

Definition gc_cow_blocks (s : MvccStore) : AllocCall := GcFree (gc_watermark s).

(** Every block the transaction allocated, freed at sequence 0. *)
Definition abort_frees (txn : Transaction) : list AllocCall :=
  ((λ li, DeferFree (new_physical li.2) 0) <$> cow_writes txn) ++
  ((λ o, DeferFree o.1 0) <$> cow_orphans txn).

Definition cow_calls (txn : Transaction) (r : MvccStore * res CommitError (Z * list Z)) : list AllocCall :=
  match r with
  | (s, Ok (seq, deferred)) => ((λ b, DeferFree b seq) <$> deferred) ++ [gc_cow_blocks s]
  | (s, Err _) => abort_frees txn ++ [gc_cow_blocks s]
  end.

Definition commit_with_cow_allocator (s : MvccStore) (txn : Transaction) (time : Timing)
    : outcome (MvccStore * res CommitError Z * list AllocCall) :=
  r ← commit_fcw_internal (with_attempt s) txn time;
  f ← finish_commit time (pending_writes txn) (drop_deferred r);
  Ret (f, cow_calls txn r).

Definition commit_ssi_with_cow_allocator (s : MvccStore) (txn : Transaction) (time : Timing)
    : outcome (MvccStore * res CommitError Z * list AllocCall) :=
  r ← commit_ssi_internal (with_attempt s) txn time;
  f ← finish_commit time (pending_writes txn) (drop_deferred r);
  Ret (f, cow_calls txn r).

Definition abort_with_cow_allocator (s : MvccStore) (txn : Transaction)
    : MvccStore * list AllocCall :=
  (abort s txn, abort_frees txn ++ [gc_cow_blocks s]).

(** [alloc_cow] is the allocator's: given the hint it returns a block or fails. *)
Definition write_cow {E} (alloc_cow : option Z → res E Z) (s : MvccStore) (logical : Z)
    (data : bytes) (txn : Transaction) : res E (Z * Transaction) :=
  let intent := sm_get logical (cow_writes txn) in
  let committed_old := match intent ≫= old_physical with
                       | Some b => Some b
                       | None => read_visible_physical s logical (t_snapshot txn)
                       end in
  let hint := match new_physical <$> intent with Some b => Some b | None => committed_old end in
  new ← alloc_cow hint;
  Ok (new, stage_cow_rewrite txn logical committed_old new data).

(** ** Loading, pruning, eviction *)

Definition advance_counters (s : MvccStore) (last_commit last_txn : Z) : MvccStore :=
  set_counters s (Z.max (next_txn s) (saturating_add u64_max last_txn 1))
    (Z.max (next_commit s) (saturating_add u64_max last_commit 1)).

Definition insert_versions (s : MvccStore) (block : Z) (chain : list BlockVersion) : MvccStore :=
  set_versions s (<[block := default [] (versions s !! block) ++ chain]> (versions s)).

Definition prune_ssi_log (s : MvccStore) (wm : Z) : MvccStore :=
  set_ssi_log s (filter (λ r, wm < r_commit_seq r) (ssi_log s)).

Definition retired_by_prune (s : MvccStore) (wm : Z) : Z :=
  map_fold (λ _ chain n, n + zlen (prune_chain chain wm).2) 0 (versions s).

Definition prune_versions_older_than (s : MvccStore) (wm : Z) : MvccStore :=
  let n := retired_by_prune s wm in
  let s1 := set_versions s ((λ chain, (prune_chain chain wm).1) <$> versions s) in
  let s2 := if 0 <? n
            then retire (set_runtime s1 (record_versions_pruned (runtime_metrics (telemetry s1)) n)) n
            else s1 in
  set_physical_versions s2 ((λ chain, prune_physical_chain chain wm) <$> physical_versions s2).

Definition prune_safe (s : MvccStore) : MvccStore * Z :=
  let wm := gc_watermark s in (prune_versions_older_than s wm, wm).

(** The budget readings and the collector's report are arguments. *)
Definition run_gc_batch (s : MvccStore) (budget_throttled collected pending : bool)
    : MvccStore * option Z :=
  if budget_throttled then (set_gc_throttled s true, None)
  else
    let s1 := set_gc_throttled s false in
    let '(s2, wm) := prune_safe s1 in
    (if negb collected && pending then set_gc_throttled s2 true else s2, Some wm).

Definition eviction_bound (s : MvccStore) (durable_through : Z) : Z :=
  match watermark s with Some wm => Z.min wm durable_through | None => durable_through end.

Definition evictable (s : MvccStore) (bound block : Z) (chain : list BlockVersion) : bool :=
  bool_decide (physical_versions s !! block = None) &&
  match last chain with Some newest => bv_commit_seq newest <=? bound | None => false end.

(** The store after eviction and the blocks reported to [on_evict]. *)
Definition evict_durable_chains (s : MvccStore) (durable_through : Z) : MvccStore * list Z :=
  let bound := eviction_bound s durable_through in
  let dropped := filter (λ bc, evictable s bound bc.1 bc.2 = true) (versions s) in
  let n := map_fold (λ _ chain n, n + zlen chain) 0 dropped in
  let s1 := set_versions s (filter (λ bc, evictable s bound bc.1 bc.2 = false) (versions s)) in
  (if 0 <? n
   then retire (set_runtime s1 (record_versions_pruned (runtime_metrics (telemetry s1)) n)) n
   else s1, (map_to_list dropped).*1).

(** ** Statistics *)

Definition tracked_block_count (s : MvccStore) : Z := Z.of_nat (size (versions s)).

Definition version_count (s : MvccStore) : Z := map_fold (λ _ chain n, n + zlen chain) 0 (versions s).

Record BlockVersionStats := mkStats {
  tracked_blocks : Z;
  max_chain_len : Z;
  chains_over_cap : Z;
  chains_over_critical : Z;
  chain_cap : option Z;
  critical_chain_length : option Z;
}.

Definition block_version_stats (s : MvccStore) : BlockVersionStats :=
  let cap := max_chain_length (compression_policy s) in
  let count (p : list BlockVersion → bool) :=
    map_fold (λ _ chain n, n + (if p chain then 1 else 0)) 0 (versions s) in
  mkStats (tracked_block_count s)
    (map_fold (λ _ chain n, Z.max n (zlen chain)) 0 (versions s))
    (match cap with Some c => count (λ chain, c <? zlen chain) | None => 0 end)
    (match cap with Some c => count (λ chain, critical_chain_len c <=? zlen chain) | None => 0 end)
    cap (critical_chain_len <$> cap).

Definition versions_eligible_at_watermark (s : MvccStore) (wm : Z) : Z :=
  map_fold (λ _ chain n,
    n + (if (length chain <=? 1)%nat then 0
         else Z.of_nat (keep_from_loop (length chain) bv_commit_seq chain wm 0))) 0 (versions s).

Record CompressionStats := mkCompressionStats {
  full_versions : Z;
  identical_versions : Z;
  bytes_saved : Z;
  bytes_stored : Z;
}.

Definition count_version (chain : list BlockVersion) (st : CompressionStats)
    (iv : nat * BlockVersion) : CompressionStats :=
  match bv_data iv.2 with
  | Full b | Zstd b | Brotli b =>
      mkCompressionStats (full_versions st + 1) (identical_versions st) (bytes_saved st)
        (bytes_stored st + zlen b)
  | Identical =>
      mkCompressionStats (full_versions st) (identical_versions st + 1)
        (match resolve_data_with chain iv.1 bv_data with
         | Some b => bytes_saved st + zlen b
         | None => bytes_saved st
         end) (bytes_stored st)
  end.

Definition compression_stats (s : MvccStore) : CompressionStats :=
  map_fold (λ _ chain st, foldl (count_version chain) st (imap pair chain))
    (mkCompressionStats 0 0 0 0) (versions s).
End with_sort.
End with_codec.
