(* ===== verification/StoreLemmas.v ===== *)
(** * Store lemmas

    The effect of each store operation in closed form: which fields a handler
    leaves alone, what installing a write set does to every chain, and how the
    snapshot maps move.  The invariant and the correctness theorems are built on
    these. *)

From stdpp Require Import base sorting numbers gmap list.
From S2P Require Import Prelude Sorted Merge Chain Txn Policy Metrics Store.

Local Open Scope Z_scope.

(** Two stores that agree on everything a reader or a later commit can see,
    except the snapshot maps, the contention metrics and the telemetry. *)
Record same_core (s s' : MvccStore) : Prop := {
  sc_next_txn : next_txn s' = next_txn s;
  sc_next_commit : next_commit s' = next_commit s;
  sc_versions : versions s' = versions s;
  sc_physical : physical_versions s' = physical_versions s;
  sc_ssi_log : ssi_log s' = ssi_log s;
  sc_compression : compression_policy s' = compression_policy s;
  sc_conflict : conflict_policy s' = conflict_policy s;
  sc_adaptive : adaptive_config s' = adaptive_config s;
}.

#[global] Instance same_core_preorder : PreOrder same_core.
Proof.
  split; [by intros s; constructor|]. intros s1 s2 s3 [] []. constructor; congruence.
Qed.

(** Reads depend only on the version map. *)
Lemma read_visible_versions `{VersionCodec} s s' b snap :
  versions s' !! b = versions s !! b → read_visible s' b snap = read_visible s b snap.
Proof. intros Hv. unfold read_visible. by rewrite Hv. Qed.

Lemma read_visible_chain `{VersionCodec} s b snap chain :
  versions s !! b = Some chain →
  read_visible s b snap = resolve_version_bytes_at_or_before chain (high snap).
Proof. intros Hv. unfold read_visible. by rewrite Hv. Qed.

Lemma version_bytes_at_chain `{VersionCodec} s b h chain :
  versions s !! b = Some chain →
  version_bytes_at s b h = resolve_version_bytes_at_or_before chain h.
Proof. intros Hv. unfold version_bytes_at. by rewrite Hv. Qed.

Section lemmas.
Context `{VersionCodec} `{UnstableSort}.

(** ** Preflight *)

Lemma record_contention_core s a b c : same_core s (record_contention s a b c).
Proof. unfold record_contention. by destruct (conflict_policy s) eqn:E; constructor. Qed.

Lemma record_contention_snapshots s a b c :
  active_snapshots (record_contention s a b c) = active_snapshots s ∧
  force_advanced_releases (record_contention s a b c) = force_advanced_releases s ∧
  telemetry (record_contention s a b c) = telemetry s.
Proof. unfold record_contention. by destruct (conflict_policy s). Qed.

Lemma force_advance_core s o r s' :
  force_advance_oldest_snapshot s = Some (o, r, s') →
  same_core s s' ∧ contention_metrics s' = contention_metrics s ∧ telemetry s' = telemetry s.
Proof.
  unfold force_advance_oldest_snapshot.
  destruct (head (active_snapshots s)) as [[o' refs]|]; [|done].
  destruct (1 <? refs); intros [= <- <- <-]; by split_and!; [constructor|..].
Qed.

Lemma enforce_chain_pressure_core s b cap s' r :
  enforce_chain_pressure s b cap = (s', r) →
  same_core s s' ∧ contention_metrics s' = contention_metrics s ∧ telemetry s' = telemetry s ∧
  (s' = s ∨ ∃ o n, force_advance_oldest_snapshot s = Some (o, n, s')).
Proof.
  unfold enforce_chain_pressure.
  destruct (_ =? 0); [intros [= <- <-]; split_and!; [done..|by left]|].
  destruct (_ <? _); [intros [= <- <-]; split_and!; [done..|by left]|].
  destruct (negb _); [intros [= <- <-]; split_and!; [done..|by left]|].
  destruct (force_advance_oldest_snapshot s) as [[[o n] s1]|] eqn:Hf.
  - apply force_advance_core in Hf as Hc. destruct Hc as (?&?&?).
    destruct (negb _); intros [= <- <-]; split_and!; eauto.
  - intros [= <- <-]. split_and!; [done..|by left].
Qed.

(** A property of stores that survives every mutation a preflight performs. *)
Definition preflight_stable (P : MvccStore → Prop) : Prop :=
  (∀ s a b c, P s → P (record_contention s a b c)) ∧
  (∀ s o n s', P s → force_advance_oldest_snapshot s = Some (o, n, s') → P s') ∧
  (∀ s m us, P s →
     record_conflict_resolution_latency (runtime_metrics (telemetry s)) us = Ret m → 0 <= us →
     P (set_runtime s m)).

Definition timing_ok (t : Timing) : Prop := 0 <= commit_us t ∧ ∀ b, 0 <= resolution_us t b.

Lemma enforce_chain_pressure_stable P s b cap s' r :
  preflight_stable P → P s → enforce_chain_pressure s b cap = (s', r) → P s'.
Proof.
  intros (_&Hf&_) Hs He. apply enforce_chain_pressure_core in He as (_&_&_&[->|(o&n&Hfa)]); [done|].
  by eapply Hf.
Qed.

Lemma preflight_loop_stable P txn time eff blocks s hc mg s' r :
  preflight_stable P → timing_ok time → P s →
  preflight_loop txn time eff blocks s hc mg = Ret (s', r) → P s'.
Proof.
  intros HP [_ Ht]. pose proof HP as (Hrec&Hfa&Hlat). revert s hc mg.
  induction blocks as [|b blocks IH]; intros s hc mg Hs; cbn [preflight_loop].
  { intros [= <- <-]. by apply Hrec. }
  assert (∀ s hc mg, P s →
    match max_chain_length (compression_policy s) with
    | Some cap =>
        match enforce_chain_pressure s b cap with
        | (s', Ok _) => preflight_loop txn time eff blocks s' hc mg
        | (s', Err e) => Ret (record_contention s' hc mg true, Err e)
        end
    | None => preflight_loop txn time eff blocks s hc mg
    end = Ret (s', r) → P s') as Hpressure.
  { clear s hc mg Hs. intros s hc mg Hs.
    destruct (max_chain_length _) as [cap|]; [|by apply IH].
    destruct (enforce_chain_pressure s b cap) as [s1 r1] eqn:He.
    assert (P s1) by by eapply enforce_chain_pressure_stable.
    destruct r1 as [[]|e]; [by apply IH|]. intros [= <- <-]. by apply Hrec. }
  destruct (_ <? _); [|by apply Hpressure].
  intros (res&_&Hk)%outcome_bind_Ret. apply outcome_bind_Ret in Hk as (m&Hm&Hk).
  assert (P (set_runtime s m)) as Hs' by by eapply Hlat.
  destruct res as [[]|e]; [by eapply Hpressure|]. injection Hk as <- <-. by apply Hrec.
Qed.

Lemma preflight_fcw_stable P txn time s s' r :
  preflight_stable P → timing_ok time → P s → preflight_fcw s txn time = Ret (s', r) → P s'.
Proof.
  intros HP Ht Hs. unfold preflight_fcw. destruct (validate_transaction_id _).
  - by eapply preflight_loop_stable.
  - by intros [= <- <-].
Qed.

Lemma same_core_preflight_stable s0 : preflight_stable (same_core s0).
Proof.
  split_and!.
  - intros s a b c ?. etrans; [done|]. apply record_contention_core.
  - intros s o n s' ? Hf. etrans; [done|]. by apply force_advance_core in Hf as (?&_).
  - intros s m us ? _ _. etrans; [done|]. by constructor.
Qed.

Lemma preflight_fcw_core txn time s s' r :
  timing_ok time → preflight_fcw s txn time = Ret (s', r) → same_core s s'.
Proof.
  intros Ht. apply preflight_fcw_stable; [apply same_core_preflight_stable|done..].
Qed.

(** ** Installing a write set *)

(** The chain of [block] after a commit appends [v] and enforces the cap. *)
Definition installed_chain (s : MvccStore) (block : Z) (v : BlockVersion) : list BlockVersion :=
  let chain := default [] (versions s !! block) ++ [v] in
  match max_chain_length (compression_policy s) with
  | Some cap => (trim_block_chain_to_cap chain (Z.max cap 1) (gc_watermark s)).1
  | None => chain
  end.

Definition installed_version (s : MvccStore) (commit_seq txn_id block : Z) (data : bytes) : BlockVersion :=
  mkVersion block commit_seq txn_id
    (version_data_for (compression_policy s) (default [] (versions s !! block)) data).

(** The physical chain of a written block. *)
Definition installed_physical (s : MvccStore) (commit_seq txn_id block : Z)
    (intent : option CowRewriteIntent) : option (list PhysicalBlockVersion) :=
  let pushed := match intent with
                | Some i => Some (default [] (physical_versions s !! block)
                                    ++ [mkPhysical block (new_physical i) commit_seq txn_id])
                | None => physical_versions s !! block
                end in
  match max_chain_length (compression_policy s) with
  | Some cap => (λ c, trim_physical_chain_to_cap c (Z.max cap 1) (gc_watermark s)) <$> pushed
  | None => pushed
  end.

(** What installing leaves alone. *)
Record install_frame (s s' : MvccStore) : Prop := {
  if_next_txn : next_txn s' = next_txn s;
  if_next_commit : next_commit s' = next_commit s;
  if_active : active_snapshots s' = active_snapshots s;
  if_forced : force_advanced_releases s' = force_advanced_releases s;
  if_ssi_log : ssi_log s' = ssi_log s;
  if_compression : compression_policy s' = compression_policy s;
  if_conflict : conflict_policy s' = conflict_policy s;
  if_adaptive : adaptive_config s' = adaptive_config s;
  if_contention : contention_metrics s' = contention_metrics s;
  if_runtime : runtime_metrics (telemetry s') = runtime_metrics (telemetry s);
}.

#[local] Instance install_frame_preorder : PreOrder install_frame.
Proof.
  split; [by intros s; constructor|]. intros s1 s2 s3 [] []. constructor; congruence.
Qed.

Lemma gc_watermark_frame s s' : install_frame s s' → gc_watermark s' = gc_watermark s.
Proof.
  intros [? Hn Ha]. unfold gc_watermark, watermark, current_snapshot. by rewrite Hn, Ha.
Qed.

Lemma enforce_chain_cap_effect s b cap :
  install_frame s (enforce_chain_cap s b cap) ∧
  physical_versions (enforce_chain_cap s b cap) = physical_versions s ∧
  ∀ b', versions (enforce_chain_cap s b cap) !! b' =
    if decide (b' = b)
    then (λ c, (trim_block_chain_to_cap c (Z.max cap 1) (gc_watermark s)).1) <$> versions s !! b
    else versions s !! b'.
Proof.
  unfold enforce_chain_cap. destruct (versions s !! b) as [chain|] eqn:Hb.
  - destruct (trim_block_chain_to_cap _ _ _) as [kept retired] eqn:Ht. simpl.
    assert (∀ b', <[b:=kept]> (versions s) !! b' =
      if decide (b' = b) then Some kept else versions s !! b') as Hins.
    { intros b'. destruct (decide (b' = b)) as [->|]; [by rewrite lookup_insert_eq|].
      by rewrite lookup_insert_ne. }
    destruct retired; (split_and!; [by constructor|done|]; cbn [fmap option_fmap option_map]; rewrite Ht; exact Hins).
  - split_and!; [done..|]. intros b'. destruct (decide (b' = b)) as [->|]; [by rewrite Hb|done].
Qed.

Lemma enforce_physical_chain_cap_effect s b cap :
  install_frame s (enforce_physical_chain_cap s b cap) ∧
  versions (enforce_physical_chain_cap s b cap) = versions s ∧
  ∀ b', physical_versions (enforce_physical_chain_cap s b cap) !! b' =
    if decide (b' = b)
    then (λ c, trim_physical_chain_to_cap c (Z.max cap 1) (gc_watermark s))
           <$> physical_versions s !! b
    else physical_versions s !! b'.
Proof.
  unfold enforce_physical_chain_cap. destruct (physical_versions s !! b) as [chain|] eqn:Hb.
  - split_and!; [by constructor|done|]. intros b'. simpl.
    destruct (decide (b' = b)) as [->|]; [by rewrite lookup_insert_eq|by rewrite lookup_insert_ne].
  - split_and!; [done..|]. intros b'. destruct (decide (b' = b)) as [->|]; [by rewrite Hb|done].
Qed.

Lemma install_write_effect seq id cow merged s b st :
  let data := default (sw_bytes st) (sm_get b merged) in
  let s' := install_write seq id cow merged s (b, st) in
  install_frame s s' ∧
  (∀ b', versions s' !! b' =
     if decide (b' = b) then Some (installed_chain s b (installed_version s seq id b data))
     else versions s !! b') ∧
  (∀ b', physical_versions s' !! b' =
     if decide (b' = b) then installed_physical s seq id b (sm_get b cow)
     else physical_versions s !! b').
Proof.
  intros data s'. subst s'. unfold install_write. cbv zeta. fold data.
  set (v := mkVersion b seq id _). set (s1 := push_version s v).
  set (s2 := match sm_get b cow with Some _ => _ | None => s1 end).
  assert (install_frame s s2) as Hf2 by (unfold s2; destruct (sm_get b cow); by constructor).
  assert (∀ b', versions s2 !! b' =
    if decide (b' = b) then Some (default [] (versions s !! b) ++ [v]) else versions s !! b') as Hv2.
  { intros b'. transitivity (versions s1 !! b'); [unfold s2; by destruct (sm_get b cow)|].
    unfold s1. simpl. destruct (decide (b' = b)) as [->|]; [by rewrite lookup_insert_eq|].
    by rewrite lookup_insert_ne. }
  assert (∀ b', physical_versions s2 !! b' =
    if decide (b' = b) then match sm_get b cow with
      | Some i => Some (default [] (physical_versions s !! b) ++ [mkPhysical b (new_physical i) seq id])
      | None => physical_versions s !! b end
    else physical_versions s !! b') as Hp2.
  { intros b'. unfold s2. destruct (sm_get b cow) as [i|]; simpl;
      destruct (decide (b' = b)) as [->|]; [by rewrite lookup_insert_eq|by rewrite lookup_insert_ne|done..]. }
  unfold installed_chain, installed_physical, installed_version. fold v.
  rewrite (if_compression _ _ Hf2).
  destruct (max_chain_length _) as [cap|]; [|done].
  destruct (enforce_chain_cap_effect s2 b cap) as (Hf3&Hp3&Hv3).
  destruct (enforce_physical_chain_cap_effect (enforce_chain_cap s2 b cap) b cap) as (Hf4&Hv4&Hp4).
  split_and!; [by repeat (etrans; [done|])| |]; intros b'.
  - rewrite Hv4, Hv3, (gc_watermark_frame _ _ Hf2), Hv2.
    destruct (decide (b' = b)) as [->|]; [by rewrite decide_True by done|].
    by rewrite Hv2, decide_False by done.
  - rewrite Hp4, Hp3, (gc_watermark_frame _ _ Hf3), (gc_watermark_frame _ _ Hf2), !Hp2.
    destruct (decide (b' = b)) as [->|]; [by rewrite decide_True by done|done].
Qed.

(** Installing touches exactly the written blocks, each from its old chain. *)
Lemma install_writes_effect seq id cow merged ws s :
  sm_wf ws →
  let s' := foldl (install_write seq id cow merged) s ws in
  install_frame s s' ∧
  (∀ b, versions s' !! b =
     match sm_get b ws with
     | Some st => Some (installed_chain s b
         (installed_version s seq id b (default (sw_bytes st) (sm_get b merged))))
     | None => versions s !! b
     end) ∧
  (∀ b, physical_versions s' !! b =
     match sm_get b ws with
     | Some _ => installed_physical s seq id b (sm_get b cow)
     | None => physical_versions s !! b
     end).
Proof.
  revert s. induction ws as [|[b0 st0] ws IH]; intros s Hwf; [done|].
  apply sm_wf_cons in Hwf as [Hb0 Hwf]. cbn [foldl].
  set (s1 := install_write seq id cow merged s (b0, st0)).
  destruct (install_write_effect seq id cow merged s b0 st0) as (Hf1&Hv1&Hp1). fold s1 in Hf1, Hv1, Hp1.
  destruct (IH s1 Hwf) as (Hf&Hv&Hp). split_and!; [by etrans| |]; intros b.
  - rewrite Hv, Hv1. cbn [sm_get]. destruct (Z.eqb_spec b b0) as [->|Hne].
    + rewrite (sm_get_above b0 b0) by (done || lia). by rewrite decide_True by done.
    + rewrite decide_False by done. destruct (sm_get b ws); [|done].
      unfold installed_chain, installed_version.
      by rewrite (if_compression _ _ Hf1), (gc_watermark_frame _ _ Hf1), Hv1, decide_False by done.
  - rewrite Hp, Hp1. cbn [sm_get]. destruct (Z.eqb_spec b b0) as [->|Hne].
    + rewrite (sm_get_above b0 b0) by (done || lia). by rewrite decide_True by done.
    + rewrite decide_False by done. destruct (sm_get b ws); [|done].
      unfold installed_physical.
      by rewrite (if_compression _ _ Hf1), (gc_watermark_frame _ _ Hf1), Hp1, decide_False by done.
Qed.
End lemmas.
