(* ===== verification/StoreInv.v ===== *)
(** * Store invariant

    The representation invariant [store_wf] of [MvccStore], the operations of
    the store as an executable transition system ([op], [exec], [run]), and the
    proof that every operation preserves the invariant. *)

From stdpp Require Import base sorting numbers gmap list.
From S2P Require Import Prelude Sorted Merge Chain Txn Policy Metrics Store StoreLemmas.

Local Open Scope Z_scope.

(** ** The invariant *)

Definition snapshots_ok (m : smap Z) : Prop :=
  sm_wf m ∧ ∀ k c, sm_get k m = Some c → 1 <= c.

Definition log_ok (n : Z) (log : list CommittedTxnRecord) : Prop :=
  seq_strict r_commit_seq log ∧ Forall (λ r, r_commit_seq r < n ∧ record_wf r) log.

Definition phys_ok (n b : Z) (c : list PhysicalBlockVersion) : Prop :=
  c ≠ [] ∧ seq_strict pv_commit_seq c ∧
  Forall (λ v, pv_logical v = b ∧ 1 <= pv_commit_seq v < n) c.

Section invariant.
Context `{VersionCodec}.

(** A chain below sequence [n]: non-empty, strictly ascending, all versions of
    its block, and every version resolves to bytes. *)
Definition chain_ok (n b : Z) (c : list BlockVersion) : Prop :=
  c ≠ [] ∧ seq_strict bv_commit_seq c ∧
  Forall (λ v, bv_block v = b ∧ 1 <= bv_commit_seq v < n) c ∧
  ∀ i, (i < length c)%nat → is_Some (resolve_walk c bv_data i).

Record store_wf (s : MvccStore) : Prop := {
  wf_next_txn : 1 <= next_txn s <= u64_max;
  wf_next_commit : 1 <= next_commit s <= u64_max;
  wf_chains : map_Forall (chain_ok (next_commit s)) (versions s);
  wf_physical : map_Forall (phys_ok (next_commit s)) (physical_versions s);
  wf_active : snapshots_ok (active_snapshots s);
  wf_forced : snapshots_ok (force_advanced_releases s);
  wf_log : log_ok (next_commit s) (ssi_log s);
  wf_contention : metrics_wf (contention_metrics s);
  wf_runtime : runtime_wf (runtime_metrics (telemetry s));
}.
End invariant.

(** ** Operations as a transition system *)

Inductive op :=
| OpBegin
| OpPreflight (txn : Transaction) (time : Timing)
| OpCommit (txn : Transaction) (time : Timing)
| OpCommitPrechecked (txn : Transaction) (time : Timing)
| OpCommitSsi (txn : Transaction) (time : Timing)
| OpCommitCow (txn : Transaction) (time : Timing)
| OpCommitSsiCow (txn : Transaction) (time : Timing)
| OpAbort (txn : Transaction)
| OpRegister (snapshot : Snapshot)
| OpRelease (snapshot : Snapshot)
| OpPruneOlder (wm : Z)
| OpPruneSafe
| OpGcBatch (budget_throttled collected pending : bool)
| OpPruneSsiLog (wm : Z)
| OpEvict (durable_through : Z)
| OpAdvanceCounters (last_commit last_txn : Z)
| OpSetPolicy (p : ConflictPolicy)
| OpSetAdaptive (c : AdaptivePolicyConfig).

(** What the type of the arguments guarantees. *)
Definition op_ok (o : op) : Prop :=
  match o with
  | OpPreflight t time | OpCommit t time | OpCommitPrechecked t time | OpCommitSsi t time
  | OpCommitCow t time | OpCommitSsiCow t time => txn_wf t ∧ timing_ok time
  | _ => True
  end.

Section exec.
Context `{VersionCodec} `{UnstableSort}.

Definition exec (o : op) (s : MvccStore) : outcome MvccStore :=
  match o with
  | OpBegin => Ret (begin s).2
  | OpPreflight t time => fst <$> preflight_commit_fcw s t time
  | OpCommit t time => fst <$> commit s t time
  | OpCommitPrechecked t time => fst <$> commit_fcw_prechecked s t time
  | OpCommitSsi t time => fst <$> commit_ssi s t time
  | OpCommitCow t time => (λ r, r.1.1) <$> commit_with_cow_allocator s t time
  | OpCommitSsiCow t time => (λ r, r.1.1) <$> commit_ssi_with_cow_allocator s t time
  | OpAbort t => Ret (abort s t)
  | OpRegister snap => Ret (register_snapshot s snap)
  | OpRelease snap => fst <$> release_snapshot s snap
  | OpPruneOlder wm => Ret (prune_versions_older_than s wm)
  | OpPruneSafe => Ret (prune_safe s).1
  | OpGcBatch a b c => Ret (run_gc_batch s a b c).1
  | OpPruneSsiLog wm => Ret (prune_ssi_log s wm)
  | OpEvict d => Ret (evict_durable_chains s d).1
  | OpAdvanceCounters c t => Ret (advance_counters s c t)
  | OpSetPolicy p => Ret (set_conflict_policy s p)
  | OpSetAdaptive c => Ret (set_adaptive_config s c)
  end.

Fixpoint run (ops : list op) (s : MvccStore) : outcome MvccStore :=
  match ops with
  | [] => Ret s
  | o :: ops' => s' ← exec o s; run ops' s'
  end.
End exec.

(** ** Chains *)

Section chain_invariant.
Context `{VersionCodec}.

Lemma chain_ok_sorted n b c : chain_ok n b c → seq_sorted bv_commit_seq c.
Proof. intros (_&Hs&_). by apply seq_strict_sorted. Qed.

Lemma chain_ok_weaken n n' b c : n <= n' → chain_ok n b c → chain_ok n' b c.
Proof.
  intros Hn (?&?&Hall&?). split_and!; [done..| |done].
  eapply Forall_impl; [exact Hall|]. simpl. intros v (?&?). split; [done|lia].
Qed.

Lemma phys_ok_weaken n n' b c : n <= n' → phys_ok n b c → phys_ok n' b c.
Proof.
  intros Hn (?&?&Hall). split_and!; [done..|].
  eapply Forall_impl; [exact Hall|]. simpl. intros v (?&?). split; [done|lia].
Qed.

Lemma drain_chain_length c k : length (drain_chain c k) = (length c - k)%nat.
Proof. unfold drain_chain. by rewrite length_drop, make_chain_head_full_length. Qed.

Lemma drain_chain_block c k i v :
  drain_chain c k !! i = Some v →
  ∃ v', c !! (k + i)%nat = Some v' ∧ bv_commit_seq v' = bv_commit_seq v ∧ bv_block v' = bv_block v.
Proof.
  unfold drain_chain. rewrite lookup_drop. intros Hv.
  destruct (decide (i = 0%nat)) as [->|].
  - rewrite Nat.add_0_r in *. apply lookup_lt_Some in Hv as Hlt.
    rewrite make_chain_head_full_length in Hlt.
    destruct (lookup_lt_is_Some_2 c k Hlt) as [v0 Hv0].
    destruct (make_chain_head_full_lookup c k v0 Hv0) as (v'&Hv'&?&?&_). simplify_eq. eauto.
  - rewrite make_chain_head_full_lookup_ne in Hv by lia. eauto.
Qed.

Lemma chain_ok_drain n b c k : (k < length c)%nat → chain_ok n b c → chain_ok n b (drain_chain c k).
Proof.
  intros Hk (Hne&Hs&Hall&Hr). split_and!.
  - intros Heq. pose proof (drain_chain_length c k) as Hlen. rewrite Heq in Hlen. simpl in Hlen. lia.
  - by apply drain_chain_strict.
  - apply Forall_lookup. intros i v (v'&Hv'&Hs'&Hb')%drain_chain_block.
    simpl. rewrite <-Hs', <-Hb'. exact (Forall_lookup_1 _ _ _ _ Hall Hv').
  - intros i Hi. rewrite drain_chain_length in Hi. rewrite drain_chain_resolve by lia. apply Hr. lia.
Qed.

Lemma chain_ok_trim n b c max_len wm :
  chain_ok n b c → chain_ok n b (trim_block_chain_to_cap c max_len wm).1.
Proof.
  intros Hc. destruct (trim_block_chain_drain c max_len wm) as [->|(k&v&->&Hv&_)]; [done|].
  apply chain_ok_drain; [by eapply lookup_lt_Some|done].
Qed.

Lemma chain_ok_prune n b c wm : chain_ok n b c → chain_ok n b (prune_chain c wm).1.
Proof.
  intros Hc. destruct (prune_chain_drain c wm) as [->|(k&v&->&Hv&_)]; [done|].
  apply chain_ok_drain; [by eapply lookup_lt_Some|done].
Qed.

Lemma seq_strict_snoc {T} (key : T → Z) l v :
  seq_strict key l → (∀ x, x ∈ l → key x < key v) → seq_strict key (l ++ [v]).
Proof.
  intros Hs Hall i j x y Hij Hx Hy.
  apply lookup_app_Some in Hy as [Hy|[Hl Hy]].
  - rewrite lookup_app_l in Hx by (apply lookup_lt_Some in Hy; lia). by eapply (Hs i j).
  - apply list_lookup_singleton_Some in Hy as [Hj <-].
    rewrite lookup_app_l in Hx by lia. apply Hall. by eapply list_elem_of_lookup_2.
Qed.

Lemma chain_ok_push policy c b seq id data :
  1 <= seq → (c = [] ∨ chain_ok seq b c) →
  chain_ok (seq + 1) b (c ++ [mkVersion b seq id (version_data_for policy c data)]).
Proof.
  intros Hseq Hc. set (v := mkVersion b seq id _).
  assert (seq_strict bv_commit_seq c ∧
    Forall (λ v, bv_block v = b ∧ 1 <= bv_commit_seq v < seq) c ∧
    ∀ i, (i < length c)%nat → is_Some (resolve_walk c bv_data i)) as (Hs&Hall&Hr).
  { destruct Hc as [->|(_&?&?&?)]; [|done]. split_and!; [apply seq_strict_nil|done|simpl; lia]. }
  split_and!.
  - by destruct c.
  - apply seq_strict_snoc; [done|]. intros x Hx. rewrite Forall_forall in Hall.
    apply Hall in Hx. simpl. lia.
  - apply Forall_app. split; [|constructor; [simpl; split; [done|lia]|done]].
    eapply Forall_impl; [exact Hall|]. simpl. intros ? (?&?). split; [done|lia].
  - intros i Hi. rewrite length_app in Hi. simpl in Hi.
    destruct (decide (i < length c)%nat); [by rewrite resolve_walk_app; auto|].
    assert (i = length c) as -> by lia.
    rewrite (version_data_for_resolve policy c v data) by done. eauto.
Qed.

Lemma phys_ok_drop n b c k : (k < length c)%nat → phys_ok n b c → phys_ok n b (drop k c).
Proof.
  intros Hk (Hne&Hs&Hall). split_and!.
  - intros Heq. apply (f_equal length) in Heq. rewrite length_drop in Heq. simpl in Heq. lia.
  - intros i j x y Hij Hx Hy. rewrite lookup_drop in Hx, Hy. eapply (Hs (k + i) (k + j))%nat; [lia|done..].
  - by apply Forall_drop.
Qed.

Lemma phys_ok_trim n b c max_len wm : phys_ok n b c → phys_ok n b (trim_physical_chain_to_cap c max_len wm).
Proof.
  intros Hc. unfold trim_physical_chain_to_cap.
  pose proof Hc as (Hne&_). assert (0 < length c)%nat by (destruct c; simpl; [done|lia]).
  destruct (trim_loop_spec (length c) pv_commit_seq c max_len wm 0) as ((?&?)&_); [lia..|].
  destruct (0 <? _)%nat; [|done]. by apply phys_ok_drop.
Qed.

Lemma phys_ok_prune n b c wm : phys_ok n b c → phys_ok n b (prune_physical_chain c wm).
Proof.
  intros Hc. unfold prune_physical_chain. destruct (Nat.leb_spec (length c) 1); [done|].
  destruct (keep_from_loop_spec (length c) pv_commit_seq c wm 0) as ((?&?)&_); [lia..|].
  destruct (0 <? _)%nat; [|done]. by apply phys_ok_drop.
Qed.

Lemma phys_ok_push c b phys seq id :
  1 <= seq → (c = [] ∨ phys_ok seq b c) → phys_ok (seq + 1) b (c ++ [mkPhysical b phys seq id]).
Proof.
  intros Hseq Hc.
  assert (seq_strict pv_commit_seq c ∧
    Forall (λ v, pv_logical v = b ∧ 1 <= pv_commit_seq v < seq) c) as (Hs&Hall).
  { destruct Hc as [->|(_&?&?)]; [|done]. split_and!; [apply seq_strict_nil|done]. }
  split_and!.
  - by destruct c.
  - apply seq_strict_snoc; [done|]. intros x Hx. rewrite Forall_forall in Hall.
    apply Hall in Hx. simpl. lia.
  - apply Forall_app. split; [|constructor; [simpl; split; [done|lia]|done]].
    eapply Forall_impl; [exact Hall|]. simpl. intros ? (?&?). split; [done|lia].
Qed.
End chain_invariant.

(** ** Snapshot maps *)

Lemma snapshots_ok_insert m k c : 1 <= c → snapshots_ok m → snapshots_ok (sm_insert k c m).
Proof.
  intros Hc [Hwf Hall]. split; [by apply sm_insert_wf|]. intros k' c'.
  rewrite sm_get_insert by done. destruct (k' =? k); [by intros [= <-]|apply Hall].
Qed.

Lemma snapshots_ok_remove m k : snapshots_ok m → snapshots_ok (sm_remove k m).
Proof.
  intros [Hwf Hall]. split; [by apply sm_remove_wf|]. intros k' c'.
  rewrite sm_get_remove by done. destruct (k' =? k); [done|apply Hall].
Qed.

Lemma snapshots_ok_count m k : snapshots_ok m → 0 <= default 0 (sm_get k m).
Proof.
  intros [_ Hall]. destruct (sm_get k m) as [c|] eqn:E; simpl; [|lia].
  specialize (Hall _ _ E). lia.
Qed.

Lemma snapshots_ok_nil : snapshots_ok [].
Proof. split; [apply seq_strict_nil|done]. Qed.

(** ** Preservation *)

Section preservation.
Context `{VersionCodec} `{UnstableSort}.

Lemma store_new_wf : store_wf store_new.
Proof.
  constructor; [vm_compute; split; congruence..|apply map_Forall_empty|apply map_Forall_empty
    |apply snapshots_ok_nil|apply snapshots_ok_nil| |apply default_metrics_wf|apply default_runtime_wf].
  split; [apply seq_strict_nil|constructor].
Qed.

(** Changing only metrics, telemetry and snapshot maps. *)
Lemma store_wf_same_core s s' :
  same_core s s' → snapshots_ok (active_snapshots s') → snapshots_ok (force_advanced_releases s') →
  metrics_wf (contention_metrics s') → runtime_wf (runtime_metrics (telemetry s')) →
  store_wf s → store_wf s'.
Proof.
  intros [H1 H2 H3 H4 H5 _ _ _] ???? []. by constructor; rewrite ?H1, ?H2, ?H3, ?H4, ?H5.
Qed.

Lemma force_advance_snapshots s o n s' :
  snapshots_ok (active_snapshots s) → snapshots_ok (force_advanced_releases s) →
  force_advance_oldest_snapshot s = Some (o, n, s') →
  snapshots_ok (active_snapshots s') ∧ snapshots_ok (force_advanced_releases s').
Proof.
  intros Ha Hf. unfold force_advance_oldest_snapshot.
  destruct (head (active_snapshots s)) as [[o' refs]|]; [|done].
  pose proof (snapshots_ok_count _ o' Hf).
  destruct (Z.ltb_spec 1 refs); intros [= <- <- <-]; simpl;
    (split; [|apply snapshots_ok_insert; [lia|done]]).
  - apply snapshots_ok_insert; [lia|done].
  - by apply snapshots_ok_remove.
Qed.

Lemma store_wf_preflight_stable : preflight_stable store_wf.
Proof.
  split_and!.
  - intros s a b c Hs. pose proof Hs as [].
    destruct (record_contention_snapshots s a b c) as (Ha&Hf&Ht).
    apply (store_wf_same_core s); rewrite ?Ha, ?Hf, ?Ht; try done; [apply record_contention_core|].
    unfold record_contention. destruct (conflict_policy s); simpl; auto with ffs.
  - intros s o n s' Hs Hf. pose proof Hs as [].
    apply force_advance_core in Hf as Hc. destruct Hc as (Hc&Hm&Ht).
    apply force_advance_snapshots in Hf as [??]; [|done..].
    by apply (store_wf_same_core s); rewrite ?Hm, ?Ht.
  - intros s m us Hs Hm Hus. pose proof Hs as [].
    destruct (record_resolution_total _ us wf_runtime0 Hus) as (m'&Hm'&?).
    rewrite Hm in Hm'. injection Hm' as <-.
    apply (store_wf_same_core s); [by constructor|done..].
Qed.

Lemma preflight_fcw_wf s txn time s' r :
  timing_ok time → store_wf s → preflight_fcw s txn time = Ret (s', r) → store_wf s'.
Proof. apply preflight_fcw_stable, store_wf_preflight_stable. Qed.

Lemma next_commit_seq_wf s s' r : store_wf s → next_commit_seq s = (s', r) → store_wf s'.
Proof.
  intros Hs. unfold next_commit_seq, checked_add.
  destruct (Z.leb_spec (next_commit s + 1) u64_max); intros [= <- <-]; [|done].
  destruct Hs. constructor; simpl; try done; [lia| | |].
  - eapply map_Forall_impl; [done|]. intros b c. apply chain_ok_weaken. lia.
  - eapply map_Forall_impl; [done|]. intros b c. apply phys_ok_weaken. lia.
  - destruct wf_log0 as [? Hall]. split; [done|]. eapply Forall_impl; [exact Hall|].
    simpl. intros r (?&?). split; [lia|done].
Qed.

Lemma next_commit_seq_Ok s s' seq :
  next_commit_seq s = (s', Ok seq) →
  seq = next_commit s ∧ next_commit s < u64_max ∧ s' = set_counters s (next_txn s) (seq + 1).
Proof.
  unfold next_commit_seq, checked_add.
  destruct (Z.leb_spec (next_commit s + 1) u64_max); [|done].
  intros [= <- <-]. split_and!; [done|lia|done].
Qed.

Lemma next_commit_seq_Err s s' e :
  next_commit_seq s = (s', Err e) →
  s' = s ∧ u64_max <= next_commit s ∧ e = DurabilityFailure (CommitSequenceExhausted (next_commit s)).
Proof.
  unfold next_commit_seq, checked_add.
  destruct (Z.leb_spec (next_commit s + 1) u64_max); [done|].
  intros [= <- <-]. split_and!; [done|lia|done].
Qed.

Lemma chain_lookup_ok s b :
  store_wf s →
  default [] (versions s !! b) = [] ∨ chain_ok (next_commit s) b (default [] (versions s !! b)).
Proof.
  intros Hs. destruct (versions s !! b) as [c|] eqn:Hc; [right|by left].
  by apply (wf_chains _ Hs) in Hc.
Qed.

(** The successful install, as one fact: the sequence is the counter, and the
    chains are the closed forms over the store before the commit. *)
Record installed (s : MvccStore) (seq : Z) (txn : Transaction) (merged : smap bytes)
    (s' : MvccStore) : Prop := {
  ins_seq : seq = next_commit s;
  ins_room : next_commit s < u64_max;
  ins_next : next_commit s' = seq + 1;
  ins_next_txn : next_txn s' = next_txn s;
  ins_active : active_snapshots s' = active_snapshots s;
  ins_forced : force_advanced_releases s' = force_advanced_releases s;
  ins_compression : compression_policy s' = compression_policy s;
  ins_conflict : conflict_policy s' = conflict_policy s;
  ins_adaptive : adaptive_config s' = adaptive_config s;
  ins_contention : contention_metrics s' = contention_metrics s;
  ins_versions : ∀ b, versions s' !! b =
    match sm_get b (staged_writes txn) with
    | Some st => Some (installed_chain (set_counters s (next_txn s) (seq + 1)) b
        (installed_version s seq (t_id txn) b (default (sw_bytes st) (sm_get b merged))))
    | None => versions s !! b
    end;
  ins_physical : ∀ b, physical_versions s' !! b =
    match sm_get b (staged_writes txn) with
    | Some _ => installed_physical (set_counters s (next_txn s) (seq + 1)) seq (t_id txn) b
                  (sm_get b (cow_writes txn))
    | None => physical_versions s !! b
    end;
}.

Lemma install_writes_installed s s1 seq txn merged :
  sm_wf (staged_writes txn) → next_commit_seq s = (s1, Ok seq) →
  let s' := install_writes s1 seq txn merged in
  installed s seq txn merged s' ∧ ssi_log s' = ssi_log s ∧
  runtime_metrics (telemetry s') = runtime_metrics (telemetry s).
Proof.
  intros Hwf Hn. apply next_commit_seq_Ok in Hn as (Hseq&Hroom&->). cbv zeta.
  unfold install_writes.
  destruct (install_writes_effect seq (t_id txn) (cow_writes txn) merged (staged_writes txn)
    (set_counters s (next_txn s) (seq + 1)) Hwf) as ([]&Hv&Hp).
  by split_and!; [constructor|..].
Qed.

Lemma installed_wf s seq txn merged s' :
  store_wf s → log_ok (seq + 1) (ssi_log s') → runtime_wf (runtime_metrics (telemetry s')) →
  installed s seq txn merged s' → store_wf s'.
Proof.
  intros Hs Hlog Hrt []. pose proof Hs as [].
  assert (∀ b c, versions s !! b = Some c → chain_ok (next_commit s) b c) as Hold by done.
  constructor; rewrite ?ins_next_txn0, ?ins_next0, ?ins_active0, ?ins_forced0, ?ins_contention0;
    try done; [lia| |].
  - intros b c. rewrite ins_versions0. destruct (sm_get b (staged_writes txn)) as [st|].
    + intros [= <-]. unfold installed_chain, installed_version. simpl.
      assert (chain_ok (seq + 1) b (default [] (versions s !! b) ++
        [mkVersion b seq (t_id txn) (version_data_for (compression_policy s)
          (default [] (versions s !! b)) (default (sw_bytes st) (sm_get b merged)))])) as Hpush.
      { subst seq. apply chain_ok_push; [lia|by apply chain_lookup_ok]. }
      destruct (max_chain_length _); [|done]. by apply chain_ok_trim.
    + intros Hc%Hold. eapply chain_ok_weaken; [|done]. lia.
  - intros b c. rewrite ins_physical0. destruct (sm_get b (staged_writes txn)) as [st|].
    + unfold installed_physical. simpl. set (pushed := match sm_get b _ with Some _ => _ | None => _ end).
      assert (∀ c, pushed = Some c → phys_ok (seq + 1) b c) as Hpush.
      { intros c'. unfold pushed. destruct (sm_get b (cow_writes txn)) as [i|].
        - intros [= <-]. apply phys_ok_push; [lia|]. subst seq.
          destruct (physical_versions s !! b) as [c0|] eqn:Hc; [right|by left].
          by apply wf_physical0 in Hc.
        - intros Hc. apply wf_physical0 in Hc. eapply phys_ok_weaken; [|done]. lia. }
      destruct (max_chain_length _); [|apply Hpush].
      intros (c0&->&->)%fmap_Some. by apply phys_ok_trim, Hpush.
    + intros Hc%wf_physical0. eapply phys_ok_weaken; [|done]. lia.
Qed.

(** The outcome of the install phase. *)
Lemma apply_fcw_commit_cases s txn s' r :
  sm_wf (staged_writes txn) → apply_fcw_commit s txn = Ret (s', r) →
  match r with
  | Err _ => s' = s
  | Ok (seq, deferred) => ∃ merged,
      merged_writes_after_preflight s txn = Ret (Ok merged) ∧ installed s seq txn merged s' ∧
      validate_transaction_id (t_id txn) = Ok () ∧
      ssi_log s' = ssi_log s ∧ runtime_metrics (telemetry s') = runtime_metrics (telemetry s) ∧
      deferred = collect_cow_deferred_frees (cow_writes txn) (cow_orphans txn)
  end.
Proof.
  intros Hwf. unfold apply_fcw_commit.
  destruct (validate_transaction_id _) as [[]|e] eqn:Hid; [|by intros [= <- <-]].
  intros (m&Hm&Hk)%outcome_bind_Ret. destruct m as [merged|e]; [|by injection Hk as <- <-].
  destruct (next_commit_seq s) as [s1 [seq|e]] eqn:Hn.
  - injection Hk as <- <-. exists merged.
    destruct (install_writes_installed s s1 seq txn merged Hwf Hn) as (?&?&?). done.
  - injection Hk as <- <-. by apply next_commit_seq_Err in Hn as (->&_).
Qed.

Lemma log_ok_weaken n n' l : n <= n' → log_ok n l → log_ok n' l.
Proof.
  intros Hn [Hs Hall]. split; [done|]. eapply Forall_impl; [exact Hall|].
  simpl. intros r (?&?). split; [lia|done].
Qed.

Lemma apply_fcw_commit_wf s txn s' r :
  sm_wf (staged_writes txn) → store_wf s → apply_fcw_commit s txn = Ret (s', r) → store_wf s'.
Proof.
  intros Hwf Hs Ha. apply apply_fcw_commit_cases in Ha; [|done].
  destruct r as [[seq def]|e]; [|by subst].
  destruct Ha as (merged&_&Hin&_&Hlog&Hrt&_). eapply installed_wf; [done| | |done].
  - rewrite Hlog. eapply log_ok_weaken; [|by apply wf_log]. rewrite (ins_seq _ _ _ _ _ Hin). lia.
  - rewrite Hrt. by apply wf_runtime.
Qed.

(** Preflight then install; an error anywhere leaves the core untouched. *)
Lemma commit_fcw_internal_cases s txn time s' r :
  sm_wf (staged_writes txn) → timing_ok time → commit_fcw_internal s txn time = Ret (s', r) →
  ∃ sp rp, preflight_fcw s txn time = Ret (sp, rp) ∧ same_core s sp ∧
  match r with
  | Err _ => s' = sp
  | Ok (seq, deferred) => rp = Ok () ∧ ∃ merged,
      merged_writes_after_preflight sp txn = Ret (Ok merged) ∧ installed sp seq txn merged s' ∧
      ssi_log s' = ssi_log sp ∧ runtime_metrics (telemetry s') = runtime_metrics (telemetry sp) ∧
      deferred = collect_cow_deferred_frees (cow_writes txn) (cow_orphans txn)
  end.
Proof.
  intros Hwf Ht. unfold commit_fcw_internal. intros ([sp rp]&Hp&Hk)%outcome_bind_Ret.
  exists sp, rp. split; [done|]. split; [by eapply preflight_fcw_core|].
  destruct rp as [[]|e]; [|by injection Hk as <- <-].
  apply apply_fcw_commit_cases in Hk; [|done].
  destruct r as [[seq def]|e]; [|done]. destruct Hk as (merged&?&?&_&?&?&?). eauto 10.
Qed.

Definition write_keys (txn : Transaction) : sset := sm_collect ((λ k, (k, ())) <$> write_set_keys txn).

Lemma write_keys_sorted txn :
  sm_wf (staged_writes txn) → write_keys txn = (λ kv, (kv.1, ())) <$> staged_writes txn.
Proof.
  intros Hwf. unfold write_keys, write_set_keys. rewrite <-list_fmap_compose.
  apply sm_collect_sorted. apply (sm_wf_map (λ _, ())), Hwf.
Qed.

Lemma write_keys_get txn b :
  sm_wf (staged_writes txn) →
  is_Some (sm_get b (write_keys txn)) ↔ is_Some (sm_get b (staged_writes txn)).
Proof.
  intros Hwf. rewrite write_keys_sorted by done.
  rewrite (sm_get_map (λ _, ())). by rewrite fmap_is_Some.
Qed.

Definition ssi_record (txn : Transaction) (seq : Z) : CommittedTxnRecord :=
  mkRecord (t_id txn) seq (t_snapshot txn) (write_keys txn) (reads txn).

Lemma ssi_record_wf txn seq : txn_wf txn → record_wf (ssi_record txn seq).
Proof.
  intros (Hw&Hr&_). split; [|done]. simpl. rewrite write_keys_sorted by done.
  by apply (sm_wf_map (λ _, ())).
Qed.

Lemma commit_ssi_internal_cases s txn time s' r :
  sm_wf (staged_writes txn) → timing_ok time → commit_ssi_internal s txn time = Ret (s', r) →
  ∃ sp rp, preflight_fcw s txn time = Ret (sp, rp) ∧ same_core s sp ∧
  match r with
  | Err _ => s' = sp
  | Ok (seq, deferred) => rp = Ok () ∧ ∃ merged checks,
      validate_ssi_read_set sp txn = Ok checks ∧
      merged_writes_after_preflight sp txn = Ret (Ok merged) ∧ installed sp seq txn merged s' ∧
      ssi_log s' = ssi_log sp ++ [ssi_record txn seq] ∧
      runtime_metrics (telemetry s') = runtime_metrics (telemetry sp) ∧
      deferred = collect_cow_deferred_frees (cow_writes txn) (cow_orphans txn)
  end.
Proof.
  intros Hwf Ht. unfold commit_ssi_internal. intros ([sp rp]&Hp&Hk)%outcome_bind_Ret.
  exists sp, rp. split; [done|]. split; [by eapply preflight_fcw_core|].
  destruct rp as [[]|e]; [|by injection Hk as <- <-].
  destruct (validate_ssi_read_set sp txn) as [checks|e] eqn:Hv; [|by injection Hk as <- <-].
  apply outcome_bind_Ret in Hk as (m&Hm&Hk). destruct m as [merged|e]; [|by injection Hk as <- <-].
  destruct (next_commit_seq sp) as [s1 [seq|e]] eqn:Hn.
  - injection Hk as <- <-. split; [done|]. exists merged, checks.
    destruct (install_writes_installed sp s1 seq txn merged Hwf Hn) as ([]&Hlog&?).
    split_and!; [done..|by constructor| |done|done]. simpl. by rewrite Hlog.
  - injection Hk as <- <-. by apply next_commit_seq_Err in Hn as (->&_).
Qed.

Lemma commit_fcw_internal_wf s txn time s' r :
  sm_wf (staged_writes txn) → timing_ok time → store_wf s →
  commit_fcw_internal s txn time = Ret (s', r) → store_wf s'.
Proof.
  intros Hwf Ht Hs. unfold commit_fcw_internal. intros ([sp rp]&Hp&Hk)%outcome_bind_Ret.
  apply preflight_fcw_wf in Hp; [|done..]. destruct rp as [[]|e]; [|by injection Hk as <- <-].
  by eapply apply_fcw_commit_wf.
Qed.

Lemma commit_ssi_internal_wf s txn time s' r :
  txn_wf txn → timing_ok time → store_wf s →
  commit_ssi_internal s txn time = Ret (s', r) → store_wf s'.
Proof.
  intros Htxn Ht Hs Hc. pose proof Htxn as (Hwf&_).
  apply commit_ssi_internal_cases in Hc as (sp&rp&Hp&_&Hr); [|done..].
  apply preflight_fcw_wf in Hp; [|done..]. destruct r as [[seq def]|e]; [|by subst].
  destruct Hr as (_&merged&checks&_&_&Hin&Hlog&Hrt&_).
  pose proof (wf_log _ Hp) as [Hsl Hall].
  eapply installed_wf; [done| |rewrite Hrt; by apply wf_runtime|done].
  rewrite Hlog, (ins_seq _ _ _ _ _ Hin). rewrite Forall_forall in Hall. split.
  - apply seq_strict_snoc; [done|]. intros x Hx. apply Hall in Hx as [? _]. simpl. lia.
  - apply Forall_app. split.
    + apply Forall_forall. intros x Hx. apply Hall in Hx as [? ?]. split; [lia|done].
    + constructor; [|done]. split; [simpl; lia|by apply ssi_record_wf].
Qed.

Lemma set_runtime_wf s m : runtime_wf m → store_wf s → store_wf (set_runtime s m).
Proof. intros Hm []. by constructor. Qed.

Lemma with_attempt_wf s : store_wf s → store_wf (with_attempt s).
Proof. intros Hs. apply set_runtime_wf; [by apply record_commit_attempt_wf, wf_runtime|done]. Qed.

Lemma record_commit_abort_store_wf s e : store_wf s → store_wf (record_commit_abort s e).
Proof. intros []. by destruct e; constructor. Qed.

Lemma finish_commit_cases {A} time n (p : MvccStore * res CommitError A) s' r :
  finish_commit time n p = Ret (s', r) →
  r = p.2 ∧ same_core p.1 s' ∧ active_snapshots s' = active_snapshots p.1 ∧
  force_advanced_releases s' = force_advanced_releases p.1 ∧
  contention_metrics s' = contention_metrics p.1 ∧
  (0 <= commit_us time → runtime_wf (runtime_metrics (telemetry p.1)) →
   runtime_wf (runtime_metrics (telemetry s'))).
Proof.
  destruct p as [s [a|e]]; simpl.
  - intros (s1&Hs1&[= <- <-])%outcome_bind_Ret.
    apply outcome_bind_Ret in Hs1 as (m&Hm&[= <-]). split_and!; [done|by constructor|done..|].
    intros Hus Hrt. destruct (record_commit_success_total _ _ Hrt Hus) as (m'&Hm'&?).
    rewrite Hm in Hm'. by injection Hm' as <-.
  - intros [= <- <-]. destruct e; (split_and!; [done|by constructor|done..]).
Qed.

Lemma finish_commit_wf {A} time n (p : MvccStore * res CommitError A) s' r :
  timing_ok time → store_wf p.1 → finish_commit time n p = Ret (s', r) → store_wf s'.
Proof.
  intros [Ht _] Hs Hf. apply finish_commit_cases in Hf as (_&Hc&Ha&Hfo&Hm&Hrt).
  pose proof Hs as []. apply (store_wf_same_core p.1); rewrite ?Ha, ?Hfo, ?Hm; auto.
Qed.

(** ** The remaining operations *)

Lemma set_snapshots_wf s a f : snapshots_ok a → snapshots_ok f → store_wf s → store_wf (set_snapshots s a f).
Proof. intros ?? []. by constructor. Qed.

Lemma register_snapshot_wf s snap : store_wf s → store_wf (register_snapshot s snap).
Proof.
  intros Hs. apply set_snapshots_wf; [|by apply wf_forced|done].
  pose proof (snapshots_ok_count _ (high snap) (wf_active _ Hs)).
  apply snapshots_ok_insert; [|by apply wf_active]. unfold saturating_add, u64_max. lia.
Qed.

(** Under the invariant a release never underflows. *)
Lemma release_snapshot_total s snap :
  store_wf s → ∃ s' b, release_snapshot s snap = Ret (s', b) ∧ store_wf s' ∧ same_core s s'.
Proof.
  intros Hs. pose proof (wf_active _ Hs) as Ha. pose proof (wf_forced _ Hs) as Hf.
  unfold release_snapshot.
  destruct (sm_get (high snap) (active_snapshots s)) as [c|] eqn:Hc.
  { pose proof (proj2 Ha _ _ Hc). eexists _, _. split; [done|]. split; [|by constructor].
    apply set_snapshots_wf; [|done..].
    destruct (Z.eqb_spec (saturating_sub c 1) 0); [by apply snapshots_ok_remove|].
    apply snapshots_ok_insert; [|done]. unfold saturating_sub in *. lia. }
  destruct (sm_get (high snap) (force_advanced_releases s)) as [p|] eqn:Hp; [|by exists s, false].
  pose proof (proj2 Hf _ _ Hp). destruct (Z.eqb_spec p 0); [lia|].
  eexists _, _. split; [done|]. split; [|by constructor]. apply set_snapshots_wf; [done| |done].
  destruct (Z.eqb_spec (p - 1) 0); [by apply snapshots_ok_remove|].
  apply snapshots_ok_insert; [lia|done].
Qed.

Lemma retire_wf s n : store_wf s → store_wf (retire s n).
Proof. intros []. by constructor. Qed.

Lemma set_versions_wf s v : map_Forall (chain_ok (next_commit s)) v → store_wf s → store_wf (set_versions s v).
Proof. intros ? []. by constructor. Qed.

Lemma count_pruned_wf (b : bool) s n :
  store_wf s →
  store_wf (if b then retire (set_runtime s (record_versions_pruned (runtime_metrics (telemetry s)) n)) n
            else s).
Proof.
  intros Hs. destruct b; [|done]. apply retire_wf, set_runtime_wf; [|done].
  by apply record_versions_pruned_wf, wf_runtime.
Qed.

(** Pruning and its telemetry leave every other field alone. *)
Lemma prune_versions_effect s wm :
  let s' := prune_versions_older_than s wm in
  versions s' = (λ c, (prune_chain c wm).1) <$> versions s ∧
  physical_versions s' = (λ c, prune_physical_chain c wm) <$> physical_versions s ∧
  next_commit s' = next_commit s ∧ next_txn s' = next_txn s ∧
  active_snapshots s' = active_snapshots s ∧
  force_advanced_releases s' = force_advanced_releases s ∧ ssi_log s' = ssi_log s ∧
  compression_policy s' = compression_policy s ∧ conflict_policy s' = conflict_policy s.
Proof. unfold prune_versions_older_than. by destruct (0 <? _). Qed.

Lemma prune_versions_wf s wm : store_wf s → store_wf (prune_versions_older_than s wm).
Proof.
  intros Hs. unfold prune_versions_older_than.
  set (s1 := set_versions s _). assert (store_wf s1) as Hs1.
  { apply set_versions_wf; [|done]. intros b c. rewrite lookup_fmap.
    intros (c0&Hc0&->)%fmap_Some. apply chain_ok_prune. exact (wf_chains _ Hs _ _ Hc0). }
  pose proof (count_pruned_wf (0 <? retired_by_prune s wm) s1 (retired_by_prune s wm) Hs1) as Hs2.
  cbv zeta. revert Hs2. set (s2 := if 0 <? _ then _ else _). clearbody s2. intros [].
  constructor; simpl; try done. intros b c. rewrite lookup_fmap.
  intros (c0&Hc0&->)%fmap_Some. apply phys_ok_prune. exact (wf_physical0 _ _ Hc0).
Qed.

Lemma set_gc_throttled_wf s b : store_wf s → store_wf (set_gc_throttled s b).
Proof. intros []. by constructor. Qed.

Lemma evict_wf s d : store_wf s → store_wf (evict_durable_chains s d).1.
Proof.
  intros Hs. unfold evict_durable_chains. cbn [fst].
  apply count_pruned_wf, set_versions_wf; [|done].
  intros b c [Hc _]%map_lookup_filter_Some. by eapply wf_chains.
Qed.

Lemma seq_strict_sublist {T} (key : T → Z) l l' : l `sublist_of` l' → seq_strict key l' → seq_strict key l.
Proof.
  induction 1 as [|x l l' Hsub IH|x l l' Hsub IH]; [done|..]; intros [Hx Hs]%seq_strict_cons.
  - apply seq_strict_cons. split; [|by apply IH]. intros y Hy. apply Hx.
    by eapply elem_of_sublist.
  - by apply IH.
Qed.

Lemma prune_ssi_log_wf s wm : store_wf s → store_wf (prune_ssi_log s wm).
Proof.
  intros []. constructor; try done. destruct wf_log0 as [Hsl Hall]. simpl. split.
  - eapply seq_strict_sublist; [apply sublist_filter|done].
  - rewrite Forall_forall in Hall |- *. intros r [_ Hr]%list_elem_of_filter. by apply Hall.
Qed.

Lemma advance_counters_wf s c t : store_wf s → store_wf (advance_counters s c t).
Proof.
  intros []. unfold advance_counters, saturating_add.
  constructor; simpl; try done; [lia..| | |].
  - eapply map_Forall_impl; [done|]. intros b ch. apply chain_ok_weaken. lia.
  - eapply map_Forall_impl; [done|]. intros b ch. apply phys_ok_weaken. lia.
  - eapply log_ok_weaken; [|done]. lia.
Qed.

Lemma begin_wf s : store_wf s → store_wf (begin s).2.
Proof.
  intros []. constructor; simpl; try done. unfold saturating_add, u64_max in *. lia.
Qed.

Lemma exec_wf o s s' : op_ok o → store_wf s → exec o s = Ret s' → store_wf s'.
Proof.
  intros Hok Hs. destruct o as [|t time|t time|t time|t time|t time|t time|t|snap|snap|wm| |a b c
    |wm|d|lc lt|p|c]; simpl in *;
    try (intros [= <-]);
    try match type of Hok with _ ∧ _ => destruct Hok as [Htxn Ht]; pose proof (proj1 Htxn) as Hwf end.
  - by apply begin_wf.
  - intros ([s1 r]&Hp&->)%outcome_fmap_Ret. by eapply preflight_fcw_wf.
  - intros ([s1 r]&Hp&->)%outcome_fmap_Ret. apply outcome_bind_Ret in Hp as ([s2 r2]&Hc&Hf).
    apply commit_fcw_internal_wf in Hc; [|done|done|by apply with_attempt_wf].
    by eapply finish_commit_wf in Hf.
  - intros ([s1 r]&Hp&->)%outcome_fmap_Ret. apply outcome_bind_Ret in Hp as ([s2 r2]&Hc&Hf).
    apply apply_fcw_commit_wf in Hc; [|done|by apply with_attempt_wf].
    by eapply finish_commit_wf in Hf.
  - intros ([s1 r]&Hp&->)%outcome_fmap_Ret. apply outcome_bind_Ret in Hp as ([s2 r2]&Hc&Hf).
    apply commit_ssi_internal_wf in Hc; [|done|done|by apply with_attempt_wf].
    by eapply finish_commit_wf in Hf.
  - intros ([[s1 r] cs]&Hp&->)%outcome_fmap_Ret. apply outcome_bind_Ret in Hp as ([s2 r2]&Hc&Hf).
    apply outcome_bind_Ret in Hf as ([s3 r3]&Hf&[= -> -> _]).
    apply commit_fcw_internal_wf in Hc; [|done|done|by apply with_attempt_wf].
    by eapply finish_commit_wf in Hf.
  - intros ([[s1 r] cs]&Hp&->)%outcome_fmap_Ret. apply outcome_bind_Ret in Hp as ([s2 r2]&Hc&Hf).
    apply outcome_bind_Ret in Hf as ([s3 r3]&Hf&[= -> -> _]).
    apply commit_ssi_internal_wf in Hc; [|done|done|by apply with_attempt_wf].
    by eapply finish_commit_wf in Hf.
  - by destruct Hs; constructor.
  - by apply register_snapshot_wf.
  - intros ([s1 r]&Hp&->)%outcome_fmap_Ret.
    destruct (release_snapshot_total s snap Hs) as (s2&r2&Hr&?&_). rewrite Hp in Hr. by simplify_eq.
  - by apply prune_versions_wf.
  - by apply prune_versions_wf.
  - unfold run_gc_batch. destruct a; [by apply set_gc_throttled_wf|]. simpl.
    destruct (negb b && c); [apply set_gc_throttled_wf|]; by apply prune_versions_wf, set_gc_throttled_wf.
  - by apply prune_ssi_log_wf.
  - by apply evict_wf.
  - by apply advance_counters_wf.
  - by destruct Hs; constructor.
  - by destruct Hs; constructor.
Qed.

Lemma run_wf ops s s' : Forall op_ok ops → store_wf s → run ops s = Ret s' → store_wf s'.
Proof.
  revert s. induction ops as [|o ops IH]; intros s Hok Hs; cbn [run]; [by intros [= <-]|].
  apply Forall_cons in Hok as [Ho Hok]. intros (s1&He&Hr)%outcome_bind_Ret.
  eapply IH; [done| |done]. by eapply exec_wf.
Qed.
End preservation.
