(* ===== verification/StoreCorrect.v ===== *)
(** * Store correctness

    The user-visible guarantees of [MvccStore]: the invariant holds in every
    reachable store, snapshots read stable data, commits are atomic and install
    exactly the resolved bytes, first-committer-wins and SSI reject what they
    must, version chains stay bounded, and eviction and pruning are invisible. *)

From stdpp Require Import base sorting numbers gmap list.
From S2P Require Import Prelude Sorted Merge Chain Txn Policy Metrics Store StoreLemmas StoreInv.

Local Open Scope Z_scope.

Definition registered (s : MvccStore) (snap : Snapshot) : Prop :=
  is_Some (sm_get (high snap) (active_snapshots s)).

(** Operations that promise to respect registered snapshots: everything except
    eviction (whose readers fall through to the device) and an explicit prune
    above the oldest registered snapshot. *)
Definition respects_snapshots (s : MvccStore) (o : op) : Prop :=
  match o with
  | OpEvict _ => False
  | OpPruneOlder wm => wm <= gc_watermark s
  | _ => True
  end.

(** ** Helper lemmas *)

Lemma gc_watermark_registered s snap :
  sm_wf (active_snapshots s) → registered s snap → gc_watermark s <= high snap.
Proof.
  intros Hwf [c Hc]. unfold gc_watermark, watermark.
  destruct (active_snapshots s) as [|[k v] m] eqn:Ha; [done|]. simpl.
  by eapply sm_head_least.
Qed.

Section correctness.
Context `{VersionCodec} `{UnstableSort}.

Lemma same_core_reads s s' b snap : same_core s s' → read_visible s' b snap = read_visible s b snap.
Proof. intros Hc. apply read_visible_versions. by rewrite (sc_versions _ _ Hc). Qed.

Lemma same_core_latest s s' b : same_core s s' → latest_commit_seq s' b = latest_commit_seq s b.
Proof. intros Hc. unfold latest_commit_seq. by rewrite (sc_versions _ _ Hc). Qed.

Lemma same_core_bytes s s' b h : same_core s s' → version_bytes_at s' b h = version_bytes_at s b h.
Proof. intros Hc. unfold version_bytes_at. by rewrite (sc_versions _ _ Hc). Qed.

(** The chain a commit pushes onto is sorted, also with the new version. *)
Lemma pushed_sorted s b seq id data :
  store_wf s → seq = next_commit s →
  seq_sorted bv_commit_seq (default [] (versions s !! b) ++ [installed_version s seq id b data]).
Proof.
  intros Hs ->. destruct (chain_ok_push (compression_policy s) (default [] (versions s !! b)) b
    (next_commit s) id data) as (_&Hst&_).
  - by destruct (wf_next_commit _ Hs).
  - by apply chain_lookup_ok.
  - by apply seq_strict_sorted.
Qed.

(** Trimming is invisible at a sequence above every version, whatever the watermark. *)
Lemma trim_block_chain_read_newest l max_len wm h :
  seq_sorted bv_commit_seq l → (∀ v, v ∈ l → bv_commit_seq v <= h) →
  resolve_version_bytes_at_or_before (trim_block_chain_to_cap l max_len wm).1 h =
  resolve_version_bytes_at_or_before l h.
Proof.
  intros Hs Hall. destruct (trim_block_chain_drain l max_len wm) as [->|(k&v&->&Hv&_)]; [done|].
  apply (drain_chain_read l k v); [done..|]. apply Hall. by eapply list_elem_of_lookup_2.
Qed.

Lemma pushed_bounded s b seq id data v :
  store_wf s → seq = next_commit s →
  v ∈ default [] (versions s !! b) ++ [installed_version s seq id b data] → bv_commit_seq v <= seq.
Proof.
  intros Hs -> [Hv|Hv]%elem_of_app; [|by apply list_elem_of_singleton in Hv as ->].
  destruct (chain_lookup_ok s b Hs) as [Hnil|(_&_&Hall&_)].
  - rewrite Hnil in Hv. by apply elem_of_nil in Hv.
  - rewrite Forall_forall in Hall. apply Hall in Hv. lia.
Qed.

(** Reading a freshly installed chain, at or above the watermark or the commit. *)
Lemma installed_chain_read s n b seq id data h :
  store_wf s → seq = next_commit s →
  gc_watermark (set_counters s n (seq + 1)) <= h ∨ seq <= h →
  resolve_version_bytes_at_or_before
    (installed_chain (set_counters s n (seq + 1)) b (installed_version s seq id b data)) h =
  if seq <=? h then Some data else version_bytes_at s b h.
Proof.
  intros Hs Hseq Hwm. pose proof (pushed_sorted s b seq id data Hs Hseq) as Hsorted.
  transitivity (resolve_version_bytes_at_or_before
    (default [] (versions s !! b) ++ [installed_version s seq id b data]) h).
  - unfold installed_chain. simpl. destruct (max_chain_length _); [|done].
    destruct Hwm as [Hwm|Hle]; [by apply trim_block_chain_read|].
    apply trim_block_chain_read_newest; [done|]. intros v Hv.
    eapply pushed_bounded in Hv; [|done..]. lia.
  - destruct (Z.leb_spec seq h).
    + by eapply (push_version_read_new (compression_policy s)).
    + rewrite push_version_read_old by done. unfold version_bytes_at.
      by destruct (versions s !! b).
Qed.

Lemma installed_read_old s seq txn merged s' b snap :
  store_wf s → installed s seq txn merged s' → registered s' snap → high snap < next_commit s →
  read_visible s' b snap = read_visible s b snap.
Proof.
  intros Hs Hin Hreg Hlt. pose proof (ins_versions _ _ _ _ _ Hin) as ins_versions0.
  pose proof (ins_active _ _ _ _ _ Hin) as ins_active0. pose proof (ins_seq _ _ _ _ _ Hin).
  destruct (sm_get b (staged_writes txn)) as [st|] eqn:Hst.
  - erewrite read_visible_chain by (rewrite ins_versions0, Hst; done).
    rewrite installed_chain_read; [|done..|].
    + destruct (Z.leb_spec seq (high snap)); [lia|done].
    + left. apply gc_watermark_registered; [exact (proj1 (wf_active _ Hs))|].
      unfold registered in *. simpl. by rewrite <-ins_active0.
  - apply read_visible_versions. by rewrite ins_versions0, Hst.
Qed.

Lemma merged_writes_loop_spec s txn eff ws acc merged :
  sm_wf ws → sm_wf acc → merged_writes_loop s txn eff ws acc = Ret (Ok merged) →
  (∀ b, sm_get b ws = None → sm_get b merged = sm_get b acc) ∧
  (∀ b st, sm_get b ws = Some st → latest_commit_seq s b <= high (t_snapshot txn) →
     sm_get b merged = sm_get b acc) ∧
  (∀ b st, sm_get b ws = Some st → high (t_snapshot txn) < latest_commit_seq s b →
     eff ≠ Strict ∧ ∃ m, sm_get b merged = Some m ∧
     merge_bytes (sw_merge_proof st)
       (default [] (version_bytes_at s b (high (t_snapshot txn))))
       (default [] (version_bytes_at s b (latest_commit_seq s b))) (sw_bytes st) = Ret (Some m)).
Proof.
  revert acc. induction ws as [|[b0 st0] ws IH]; intros acc Hws Hacc; cbn [merged_writes_loop].
  { by intros [= <-]. }
  apply sm_wf_cons in Hws as [Hb0 Hws].
  assert (sm_get b0 ws = None) as Hb0n by (eapply sm_get_above; [exact Hb0|lia]).
  destruct (Z.leb_spec (latest_commit_seq s b0) (high (t_snapshot txn))) as [Hle|Hgt].
  - intros Hm. destruct (IH acc Hws Hacc Hm) as (H1&H2&H3). simpl.
    split_and!; intros b; destruct (Z.eqb_spec b b0) as [->|]; simpl; eauto; try done.
    intros st [= <-]. lia.
  - case_bool_decide as Hst; [done|]. intros (m&Hmb&Hk)%outcome_bind_Ret.
    destruct m as [m|]; [|done].
    assert (sm_wf (sm_insert b0 m acc)) as Hacc' by by apply sm_insert_wf.
    destruct (IH _ Hws Hacc' Hk) as (H1&H2&H3).
    assert (∀ b, b ≠ b0 → sm_get b (sm_insert b0 m acc) = sm_get b acc) as Hne.
    { intros b Hb. rewrite sm_get_insert by done. by destruct (Z.eqb_spec b b0). }
    cbn [sm_get]. split_and!; intros b; destruct (Z.eqb_spec b b0) as [->|Hbne]; simpl; try done.
    + intros Hn. by rewrite H1, Hne.
    + intros st [= <-]. lia.
    + intros st Hst' Hle. by erewrite H2, Hne.
    + intros st [= <-] _. split; [done|]. exists m. split; [|done].
      rewrite H1 by done. rewrite sm_get_insert by done. by rewrite Z.eqb_refl.
    + apply H3.
Qed.

(** What a successful commit (either path) has done, over the initial store. *)
Definition committed (s : MvccStore) (txn : Transaction) (seq : Z) (s' : MvccStore) : Prop :=
  seq = next_commit s ∧ next_commit s' = seq + 1 ∧
  ∀ b, match sm_get b (staged_writes txn) with
       | None => versions s' !! b = versions s !! b
       | Some st => ∃ data,
           read_visible s' b (current_snapshot s') = Some data ∧
           latest_commit_seq s' b = seq ∧
           ((latest_commit_seq s b <= high (t_snapshot txn) ∧ data = sw_bytes st) ∨
            (high (t_snapshot txn) < latest_commit_seq s b ∧ conflict_policy s ≠ Strict ∧
             merge_bytes (sw_merge_proof st)
               (default [] (version_bytes_at s b (high (t_snapshot txn))))
               (default [] (version_bytes_at s b (latest_commit_seq s b)))
               (sw_bytes st) = Ret (Some data)))
       end.

Lemma effective_strict s : conflict_policy s = Strict → effective_policy s = Strict.
Proof. intros Hp. unfold effective_policy. by rewrite Hp. Qed.

Lemma drain_chain_last l k : (k < length l)%nat → bv_commit_seq <$> last (drain_chain l k) = bv_commit_seq <$> last l.
Proof.
  intros Hk. rewrite !last_lookup, drain_chain_lookup_seq, drain_chain_length.
  f_equal. f_equal. lia.
Qed.

Lemma installed_chain_last s n b v : 
  bv_commit_seq <$> last (installed_chain (set_counters s n (bv_commit_seq v + 1)) b v) = Some (bv_commit_seq v).
Proof.
  unfold installed_chain. simpl. set (c := default [] _ ++ [v]).
  assert (bv_commit_seq <$> last c = Some (bv_commit_seq v)) as Hlast.
  { unfold c. by rewrite last_snoc. }
  destruct (max_chain_length _) as [cap|]; [|done].
  destruct (trim_block_chain_drain c (Z.max cap 1)
    (gc_watermark (set_counters s n (bv_commit_seq v + 1)))) as [->|(k&w&->&Hw&_)]; [done|].
  rewrite drain_chain_last; [done|by eapply lookup_lt_Some].
Qed.

Lemma installed_committed s sp txn seq merged s' :
  sm_wf (staged_writes txn) → store_wf sp → same_core s sp →
  merged_writes_after_preflight sp txn = Ret (Ok merged) →
  installed sp seq txn merged s' → committed s txn seq s'.
Proof.
  intros Hwf Hsp Hc Hm Hin. pose proof (ins_seq _ _ _ _ _ Hin) as Hseq.
  split; [by rewrite Hseq, (sc_next_commit _ _ Hc)|]. split; [by apply (ins_next _ _ _ _ _ Hin)|].
  intros b. pose proof (ins_versions _ _ _ _ _ Hin b) as Hv.
  destruct (sm_get b (staged_writes txn)) as [st|] eqn:Hst; [|by rewrite Hv, (sc_versions _ _ Hc)].
  apply merged_writes_loop_spec in Hm as (_&Hno&Hyes); [|done|apply seq_strict_nil].
  exists (default (sw_bytes st) (sm_get b merged)). split_and!.
  - erewrite read_visible_chain by exact Hv. rewrite installed_chain_read by
      (done || (right; simpl; rewrite (ins_next _ _ _ _ _ Hin); unfold saturating_sub; lia)).
    simpl. rewrite (ins_next _ _ _ _ _ Hin). unfold saturating_sub.
    by destruct (Z.leb_spec seq (Z.max (seq + 1 - 1) 0)); [|lia].
  - unfold latest_commit_seq. rewrite Hv. simpl.
    pose proof (installed_chain_last sp (next_txn sp) b (installed_version sp seq (t_id txn) b
      (default (sw_bytes st) (sm_get b merged)))) as Hlast. simpl in Hlast.
    destruct (last _); simplify_eq/=. done.
  - rewrite <-(same_core_latest s sp), <-!(same_core_bytes s sp) by done.
    destruct (decide (latest_commit_seq sp b <= high (t_snapshot txn))) as [Hle|Hgt].
    + left. split; [done|]. by rewrite (Hno _ _ Hst Hle).
    + right. destruct (Hyes _ _ Hst ltac:(lia)) as (Hne&m&->&Hmb). split_and!; [lia| |done].
      intros Hstrict. apply Hne, effective_strict. by rewrite (sc_conflict _ _ Hc).
Qed.

(** The two public commit paths, unfolded to their outcome. *)
Lemma with_attempt_core s : same_core s (with_attempt s).
Proof. by constructor. Qed.

Lemma committed_same_core s txn seq s1 s2 :
  same_core s1 s2 → committed s txn seq s1 → committed s txn seq s2.
Proof.
  intros Hc (?&Hn&Hb). split; [done|]. split; [by rewrite (sc_next_commit _ _ Hc)|].
  intros b. specialize (Hb b). destruct (sm_get b _) as [st|]; [|by rewrite (sc_versions _ _ Hc)].
  destruct Hb as (data&Hr&Hl&Hd). exists data. split_and!; [|by rewrite (same_core_latest s1)|done].
  rewrite (same_core_reads s1 s2) by done. unfold current_snapshot.
  by rewrite (sc_next_commit _ _ Hc).
Qed.

Lemma commit_cases s txn time s' r :
  txn_wf txn → timing_ok time → store_wf s → commit s txn time = Ret (s', r) →
  match r with
  | Ok seq => committed s txn seq s'
  | Err _ => same_core s s'
  end.
Proof.
  intros (Hwf&_) Ht Hs. unfold commit. intros ([s1 r1]&Hc&Hf)%outcome_bind_Ret.
  apply finish_commit_cases in Hf as (Hr&Hsc&_). simpl in Hr, Hsc.
  pose proof (with_attempt_wf s Hs) as Hsa. pose proof (with_attempt_core s) as Hca.
  apply commit_fcw_internal_cases in Hc as (sp&rp&Hp&Hcp&Hcase); [|done..].
  assert (store_wf sp) as Hsp by by eapply preflight_fcw_wf.
  destruct r1 as [[seq def]|e]; subst r.
  - destruct Hcase as (_&merged&Hm&Hin&_). eapply committed_same_core; [done|].
    eapply (installed_committed s sp); [done..| |done|done]. by etrans.
  - subst s1. etrans; [done|]. by etrans.
Qed.

Lemma commit_ssi_cases s txn time s' r :
  txn_wf txn → timing_ok time → store_wf s → commit_ssi s txn time = Ret (s', r) →
  match r with
  | Ok seq => committed s txn seq s' ∧ ssi_log s' = ssi_log s ++ [ssi_record txn seq] ∧
              ∃ checks, validate_ssi_read_set s txn = Ok checks
  | Err _ => same_core s s'
  end.
Proof.
  intros (Hwf&_) Ht Hs. unfold commit_ssi. intros ([s1 r1]&Hc&Hf)%outcome_bind_Ret.
  apply finish_commit_cases in Hf as (Hr&Hsc&_). simpl in Hr, Hsc.
  pose proof (with_attempt_wf s Hs) as Hsa. pose proof (with_attempt_core s) as Hca.
  apply commit_ssi_internal_cases in Hc as (sp&rp&Hp&Hcp&Hcase); [|done..].
  assert (store_wf sp) as Hsp by by eapply preflight_fcw_wf.
  assert (same_core s sp) as Hcsp by by etrans.
  destruct r1 as [[seq def]|e]; subst r.
  - destruct Hcase as (_&merged&checks&Hv&Hm&Hin&Hlog&_). split_and!.
    + eapply committed_same_core; [done|]. by eapply (installed_committed s sp).
    + by rewrite (sc_ssi_log _ _ Hsc), Hlog, (sc_ssi_log _ _ Hcsp).
    + exists checks. unfold validate_ssi_read_set in *. by rewrite <-(sc_ssi_log _ _ Hcsp).
  - subst s1. by etrans.
Qed.

Lemma commit_prechecked_err s txn time s' e :
  txn_wf txn → commit_fcw_prechecked s txn time = Ret (s', Err e) → same_core s s'.
Proof.
  intros (Hwf&_). unfold commit_fcw_prechecked. intros ([s1 r1]&Hc&Hf)%outcome_bind_Ret.
  apply finish_commit_cases in Hf as (Hr&Hsc&_). simpl in Hr, Hsc.
  apply apply_fcw_commit_cases in Hc; [|done]. destruct r1 as [[seq def]|e']; [done|]. subst s1.
  etrans; [apply with_attempt_core|done].
Qed.

(** ** Snapshot stability *)

Lemma commit_fcw_internal_reads s txn time s' r b snap :
  txn_wf txn → timing_ok time → store_wf s → commit_fcw_internal s txn time = Ret (s', r) →
  registered s' snap → high snap < next_commit s →
  read_visible s' b snap = read_visible s b snap.
Proof.
  intros (Hwf&_) Ht Hs Hc Hreg Hlt.
  apply commit_fcw_internal_cases in Hc as (sp&rp&Hp&Hcp&Hcase); [|done..].
  assert (store_wf sp) as Hsp by by eapply preflight_fcw_wf.
  rewrite <-(same_core_reads s sp) by done. destruct r as [[seq def]|e]; [|by subst].
  destruct Hcase as (_&merged&_&Hin&_). eapply installed_read_old; [done..|].
  by rewrite (sc_next_commit _ _ Hcp).
Qed.

Lemma apply_fcw_commit_reads s txn s' r b snap :
  txn_wf txn → store_wf s → apply_fcw_commit s txn = Ret (s', r) →
  registered s' snap → high snap < next_commit s →
  read_visible s' b snap = read_visible s b snap.
Proof.
  intros (Hwf&_) Hs Hc Hreg Hlt. apply apply_fcw_commit_cases in Hc; [|done].
  destruct r as [[seq def]|e]; [|by subst]. destruct Hc as (merged&_&Hin&_).
  by eapply installed_read_old.
Qed.

Lemma commit_ssi_internal_reads s txn time s' r b snap :
  txn_wf txn → timing_ok time → store_wf s → commit_ssi_internal s txn time = Ret (s', r) →
  registered s' snap → high snap < next_commit s →
  read_visible s' b snap = read_visible s b snap.
Proof.
  intros (Hwf&_) Ht Hs Hc Hreg Hlt.
  apply commit_ssi_internal_cases in Hc as (sp&rp&Hp&Hcp&Hcase); [|done..].
  assert (store_wf sp) as Hsp by by eapply preflight_fcw_wf.
  rewrite <-(same_core_reads s sp) by done. destruct r as [[seq def]|e]; [|by subst].
  destruct Hcase as (_&merged&checks&_&_&Hin&_). eapply installed_read_old; [done..|].
  by rewrite (sc_next_commit _ _ Hcp).
Qed.

(** The commit entry points only add telemetry around the internal paths. *)
Lemma finish_commit_reads {A} time n (p : MvccStore * res CommitError A) s' r b snap :
  finish_commit time n p = Ret (s', r) →
  read_visible s' b snap = read_visible p.1 b snap ∧ (registered s' snap → registered p.1 snap).
Proof.
  intros Hf. apply finish_commit_cases in Hf as (_&Hc&Ha&_).
  split; [by apply same_core_reads|]. unfold registered. by rewrite Ha.
Qed.

Lemma prune_reads s wm b snap :
  store_wf s → wm <= high snap →
  read_visible (prune_versions_older_than s wm) b snap = read_visible s b snap.
Proof.
  intros Hs Hwm. destruct (prune_versions_effect s wm) as (Hv&_).
  unfold read_visible at 1. rewrite Hv, lookup_fmap.
  destruct (versions s !! b) as [c|] eqn:Hc; simpl; [|unfold read_visible; by rewrite Hc].
  rewrite (read_visible_chain s b snap c) by done.
  apply prune_chain_read; [|done]. eapply chain_ok_sorted. by apply (wf_chains _ Hs).
Qed.

Lemma prune_safe_reads s b snap :
  store_wf s → registered s snap →
  read_visible (prune_versions_older_than s (gc_watermark s)) b snap = read_visible s b snap.
Proof.
  intros Hs Hreg. apply prune_reads; [done|].
  apply gc_watermark_registered; [exact (proj1 (wf_active _ Hs))|done].
Qed.

Lemma prune_registered s wm snap :
  registered (prune_versions_older_than s wm) snap → registered s snap.
Proof. destruct (prune_versions_effect s wm) as (_&_&_&_&Ha&_). unfold registered. by rewrite Ha. Qed.

Lemma run_gc_batch_reads s x y z b snap :
  store_wf s → registered (run_gc_batch s x y z).1 snap →
  read_visible (run_gc_batch s x y z).1 b snap = read_visible s b snap.
Proof.
  intros Hs. unfold run_gc_batch. destruct x; [done|]. cbn [prune_safe].
  assert (registered (prune_versions_older_than (set_gc_throttled s false)
            (gc_watermark (set_gc_throttled s false))) snap →
    read_visible (prune_versions_older_than (set_gc_throttled s false)
      (gc_watermark (set_gc_throttled s false))) b snap = read_visible s b snap) as Hgoal.
  { intros Hreg%prune_registered.
    exact (prune_safe_reads (set_gc_throttled s false) b snap (set_gc_throttled_wf s false Hs) Hreg). }
  by destruct (negb y && z).
Qed.

(** Strip a commit entry point down to its internal path, then apply [lem]. *)
Ltac entry_reads lem :=
  match goal with
  | He : _ <$> _ = Ret _ |- _ =>
      apply outcome_fmap_Ret in He as (?&He&->); unfold commit, commit_fcw_prechecked, commit_ssi,
        commit_with_cow_allocator, commit_ssi_with_cow_allocator in He;
      apply outcome_bind_Ret in He as ([??]&?&He);
      try (apply outcome_bind_Ret in He as ([??]&He&[= <-]))
  end;
  match goal with
  | He : finish_commit _ _ _ = Ret ?p |- _ =>
      try destruct p as [??]; eapply finish_commit_reads in He as [-> ?]; cbn [fst drop_deferred] in *;
      eapply lem; [..|eassumption| |]; eauto using with_attempt_wf
  end.

Lemma exec_reads_stable o s s' b snap :
  op_ok o → store_wf s → respects_snapshots s o → exec o s = Ret s' →
  registered s' snap → high snap < next_commit s →
  read_visible s' b snap = read_visible s b snap.
Proof.
  intros Hok Hs Hresp He Hreg Hlt.
  destruct o as [|t time|t time|t time|t time|t time|t time|t|sn|sn|wm| |x y z|wm|d|lc lt|p|c];
    simpl in *; try (injection He as <-);
    try match type of Hok with _ ∧ _ => destruct Hok as [Htxn Ht] end; try done.
  - apply outcome_fmap_Ret in He as ([s1 r]&Hp&->). apply same_core_reads. by eapply preflight_fcw_core.
  - change (read_visible s b snap) with (read_visible (with_attempt s) b snap).
    entry_reads commit_fcw_internal_reads.
  - change (read_visible s b snap) with (read_visible (with_attempt s) b snap).
    entry_reads apply_fcw_commit_reads.
  - change (read_visible s b snap) with (read_visible (with_attempt s) b snap).
    entry_reads commit_ssi_internal_reads.
  - change (read_visible s b snap) with (read_visible (with_attempt s) b snap).
    entry_reads commit_fcw_internal_reads.
  - change (read_visible s b snap) with (read_visible (with_attempt s) b snap).
    entry_reads commit_ssi_internal_reads.
  - apply outcome_fmap_Ret in He as ([s1 r]&Hp&->).
    destruct (release_snapshot_total s sn Hs) as (s2&r2&Hr&_&Hc). rewrite Hp in Hr.
    injection Hr as -> ->. by apply same_core_reads.
  - apply prune_reads; [done|]. etrans; [done|]. apply prune_registered in Hreg.
    apply gc_watermark_registered; [exact (proj1 (wf_active _ Hs))|done].
  - apply prune_registered in Hreg. by apply prune_safe_reads.
  - by apply run_gc_batch_reads.
Qed.

(** ** Serializability *)

Lemma take_while_rev_sorted {A} (key : A → Z) (l : list A) h x :
  seq_strict key l → x ∈ take_while (λ r, h <? key r) (rev l) ↔ x ∈ l ∧ h < key x.
Proof.
  induction l as [|y l IH] using rev_ind; intros Hs; simpl.
  { split; [by intros ?%elem_of_nil|]. by intros [?%elem_of_nil _]. }
  assert (seq_strict key l) as Hsl.
  { intros i j a b Hij Ha Hb. eapply Hs; [done|by apply lookup_app_l_Some..]. }
  rewrite rev_app_distr. simpl. rewrite elem_of_app, list_elem_of_singleton.
  destruct (Z.ltb_spec h (key y)) as [Hlt|Hge].
  - rewrite elem_of_cons, IH by done. naive_solver.
  - split; [by intros ?%elem_of_nil|]. intros [[Hin| ->] Hx]; [|lia].
    apply list_elem_of_lookup_1 in Hin as [i Hi].
    assert (key x < key y); [|lia]. apply lookup_lt_Some in Hi as Hlen.
    eapply (Hs i (length l)); [done|by apply lookup_app_l_Some|by apply list_lookup_middle].
Qed.

(** The transaction is the pivot of two consecutive rw-antidependencies with
    transactions of the log that committed after its snapshot. *)
Definition is_pivot (s : MvccStore) (txn : Transaction) : Prop :=
  (∃ r, r ∈ ssi_log s ∧ concurrent txn r ∧ in_conflict txn r) ∧
  (∃ r, r ∈ ssi_log s ∧ concurrent txn r ∧ out_conflict txn r).

Lemma log_concurrent_records s txn r :
  store_wf s →
  r ∈ take_while (λ r, high (t_snapshot txn) <? r_commit_seq r) (rev (ssi_log s)) ↔
  r ∈ ssi_log s ∧ concurrent txn r.
Proof. intros Hs. apply take_while_rev_sorted. by destruct (wf_log _ Hs). Qed.

Lemma detect_none_no_pivot txn records :
  txn_wf txn → Forall record_wf records →
  is_Some (detect_ssi_dangerous_structure txn records).2 ↔
  (∃ r, r ∈ records ∧ concurrent txn r ∧ in_conflict txn r) ∧
  (∃ r, r ∈ records ∧ concurrent txn r ∧ out_conflict txn r).
Proof.
  intros Ht Hrs. unfold detect_ssi_dangerous_structure.
  destruct (staged_writes txn) as [|w ws] eqn:Hw.
  - split; [by intros [??]|]. intros [(r&_&_&b&_&[st Hst]) _]. by rewrite Hw in Hst.
  - rewrite detect_loop_spec by auto. split; [|naive_solver].
    intros [[[??]|?] [[??]|?]]; done.
Qed.

Lemma validate_ssi_iff s txn :
  store_wf s → txn_wf txn →
  (∃ checks, validate_ssi_read_set s txn = Ok checks) ↔ ¬ is_pivot s txn.
Proof.
  intros Hs Ht. unfold validate_ssi_read_set, is_pivot.
  set (rs := take_while _ _).
  assert (∀ r, r ∈ rs ↔ r ∈ ssi_log s ∧ concurrent txn r) as Hrs.
  { intros r. by apply log_concurrent_records. }
  assert (Forall record_wf rs) as Hwf.
  { destruct (wf_log _ Hs) as [_ Hall]. rewrite Forall_forall in Hall |- *.
    intros r [Hr _]%Hrs. by apply Hall in Hr as [_ ?]. }
  pose proof (detect_none_no_pivot txn rs Ht Hwf) as Hd. setoid_rewrite Hrs in Hd.
  assert (∀ P, (∃ r, (r ∈ ssi_log s ∧ concurrent txn r) ∧ concurrent txn r ∧ P r) ↔
               ∃ r, r ∈ ssi_log s ∧ concurrent txn r ∧ P r) as Hsimp by naive_solver.
  rewrite !Hsimp in Hd. rewrite <-Hd.
  destruct (detect_ssi_dangerous_structure txn rs) as [checks [d|]]; simpl.
  - split; [by intros [??]|]. intros Hn. destruct Hn. eauto.
  - split; [|eauto]. by intros _ [??].
Qed.
End correctness.

(** ** Properties *)

Section properties.
Context `{VersionCodec} `{UnstableSort}.

(** C3. Every reachable store satisfies the representation invariant: starting
    from [MvccStore::new], any sequence of begins, commits (all five entry
    points), aborts, registrations, releases, prunes, evictions and policy
    changes leaves every version chain non-empty, strictly ascending, below the
    commit counter and fully resolvable, and every counter and map well formed. *)
Theorem reachable_store_wf (ops : list op) (s : MvccStore) :
  Forall op_ok ops → run ops store_new = Ret s → store_wf s.
Proof. intros Hops Hrun. eapply run_wf; [done|apply store_new_wf|done]. Qed.


(** C8. A successful first-committer-wins commit takes the next sequence number
    and makes every staged block readable at the new snapshot as exactly the
    staged bytes when nothing was committed since the snapshot, or the bytes the
    staged merge proof produces from base, latest and staged otherwise (never
    under [Strict]); every other block's chain is untouched. *)
Theorem commit_installs_resolved_writes (s : MvccStore) (txn : Transaction) (time : Timing)
    (s' : MvccStore) (seq : Z) :
  txn_wf txn → timing_ok time → store_wf s → commit s txn time = Ret (s', Ok seq) →
  committed s txn seq s'.
Proof. intros ??? Hc. by apply commit_cases in Hc. Qed.

(** C16. A failed commit is atomic: whatever the error (conflict, SSI,
    backpressure, exhaustion) and whichever path, no version, physical mapping,
    counter or log entry changes, so every snapshot of every block reads as before. *)
Theorem failed_commit_changes_nothing (s : MvccStore) (txn : Transaction) (time : Timing)
    (s' : MvccStore) (e : CommitError) :
  txn_wf txn → timing_ok time → store_wf s →
  commit s txn time = Ret (s', Err e) ∨ commit_ssi s txn time = Ret (s', Err e) ∨
  commit_fcw_prechecked s txn time = Ret (s', Err e) →
  same_core s s' ∧
  ∀ block snap, read_visible s' block snap = read_visible s block snap.
Proof.
  intros ??? Hor. assert (same_core s s') as Hc; [|split; [done|]; intros; by apply same_core_reads].
  destruct Hor as [Hc|[Hc|Hc]].
  - by apply commit_cases in Hc.
  - by apply commit_ssi_cases in Hc.
  - by apply commit_prechecked_err in Hc.
Qed.

(** C29. First committer wins: a commit that succeeds under [Strict], or that
    staged a block without a same-block merge proof, had no concurrent committed
    write to that block; so of two overlapping writers at most one commits. *)
Theorem first_committer_wins (s : MvccStore) (txn : Transaction) (time : Timing)
    (s' : MvccStore) (seq block : Z) (st : StagedWrite) :
  txn_wf txn → timing_ok time → store_wf s → commit s txn time = Ret (s', Ok seq) →
  sm_get block (staged_writes txn) = Some st →
  conflict_policy s = Strict ∨ mechanism (sw_merge_proof st) = NoSameBlockMerge →
  latest_commit_seq s block <= high (t_snapshot txn).
Proof.
  intros ??? Hc Hst Hor. apply commit_cases in Hc as (_&_&Hb); [|done..].
  specialize (Hb block). rewrite Hst in Hb.
  destruct Hb as (data&_&_&[[? _]|(Hlt&Hns&Hm)]); [done|].
  destruct Hor as [?|Hmech]; [done|]. by destruct (sw_merge_proof st).
Qed.


(** C19. Serializable commits: a transaction that is the pivot of a dangerous
    structure never commits through [commit_ssi], and a transaction that does
    commit is appended to the log with its exact read and write sets. *)
Theorem ssi_pivot_never_commits (s : MvccStore) (txn : Transaction) (time : Timing)
    (s' : MvccStore) (r : res CommitError Z) :
  txn_wf txn → timing_ok time → store_wf s → commit_ssi s txn time = Ret (s', r) →
  match r with
  | Ok seq => ¬ is_pivot s txn ∧ ssi_log s' = ssi_log s ++ [ssi_record txn seq] ∧
              committed s txn seq s'
  | Err _ => same_core s s'
  end.
Proof.
  intros Ht ? Hs Hc. apply commit_ssi_cases in Hc; [|done..]. destruct r as [seq|e]; [|done].
  destruct Hc as (?&?&Hv). split_and!; [|done..]. by apply validate_ssi_iff.
Qed.

End properties.
