(* ===== verification/StoreLimits.v ===== *)
(** * Store resource properties

    Snapshot reference counting and the forced-release ledger, bounded version
    chains, eviction of durable chains, copy-on-write frees, sequence exhaustion
    and absence of panics. *)

From stdpp Require Import base sorting numbers gmap list.
From S2P Require Import Prelude Sorted Merge Chain Txn Policy Metrics Store StoreLemmas StoreInv.
From S2P Require Import StoreCorrect.

Local Open Scope Z_scope.

(** ** Snapshot references *)

(** References a reader of sequence [k] may still release. *)
Definition balance (s : MvccStore) (k : Z) : Z :=
  default 0 (sm_get k (active_snapshots s)) + default 0 (sm_get k (force_advanced_releases s)).

Lemma sm_get_head {V} (m : smap V) k v : head m = Some (k, v) → sm_get k m = Some v.
Proof. destruct m as [|[k' v'] m]; [done|]. intros [= -> ->]. simpl. by rewrite Z.eqb_refl. Qed.

Lemma force_advance_balance s o n s' k :
  snapshots_ok (active_snapshots s) → snapshots_ok (force_advanced_releases s) →
  force_advance_oldest_snapshot s = Some (o, n, s') → balance s' k = balance s k.
Proof.
  intros [Ha Hc] [Hf _]. unfold force_advance_oldest_snapshot, balance.
  destruct (head (active_snapshots s)) as [[o' refs]|] eqn:Hh; [|done].
  apply sm_get_head in Hh. specialize (Hc _ _ Hh).
  destruct (Z.ltb_spec 1 refs); intros [= <- <- <-]; simpl;
    rewrite ?sm_get_insert, ?sm_get_remove by done;
    destruct (Z.eqb_spec k o') as [->|]; simpl; rewrite ?Hh; simpl; lia.
Qed.

Lemma balance_preflight_stable `{VersionCodec} s0 k :
  preflight_stable (λ s, store_wf s ∧ balance s k = balance s0 k).
Proof.
  destruct store_wf_preflight_stable as (H1&H2&H3). split_and!.
  - intros s a b c [Hs Hb]. split; [by apply H1|]. rewrite <-Hb. unfold balance.
    destruct (record_contention_snapshots s a b c) as (->&->&_). done.
  - intros s o n s' [Hs Hb] Hf. split; [by eapply H2|]. rewrite <-Hb.
    eapply force_advance_balance; [by apply wf_active|by apply wf_forced|done].
  - intros s m us [Hs Hb] Hm Hus. split; [by eapply H3|done].
Qed.

(** ** The watermark *)

Lemma watermark_least s w :
  sm_wf (active_snapshots s) →
  watermark s = Some w ↔
  is_Some (sm_get w (active_snapshots s)) ∧
  ∀ k, is_Some (sm_get k (active_snapshots s)) → w <= k.
Proof.
  intros Hwf. unfold watermark. destruct (active_snapshots s) as [|[k v] m]; simpl.
  { split; [done|]. by intros [[??] _]. }
  split.
  - intros [= <-]. rewrite Z.eqb_refl. split; [eauto|]. intros k' [v' Hk'].
    by eapply (sm_head_least k v m).
  - intros [[v' Hw] Hleast]. f_equal. apply Z.le_antisymm.
    + by eapply (sm_head_least k v m).
    + apply Hleast. rewrite Z.eqb_refl. eauto.
Qed.

Section limits.
Context `{VersionCodec} `{UnstableSort}.

(** ** Bounded chains *)

Definition trim_open (s : MvccStore) (b : Z) : Prop :=
  chain_trim_blocked_by_snapshot s b (gc_watermark s) = false.

(** What the pressure check establishes for a block. *)
Definition relieved (cap : Z) (s : MvccStore) (b : Z) : Prop :=
  chain_len s b < critical_chain_len cap ∨ trim_open s b.

Lemma critical_max cap : critical_chain_len (Z.max cap 1) = critical_chain_len cap.
Proof. unfold critical_chain_len. by rewrite <-Z.max_assoc. Qed.

Lemma trim_open_second s b :
  trim_open s b ↔
  ∀ c v, versions s !! b = Some c → c !! 1%nat = Some v → bv_commit_seq v <= gc_watermark s.
Proof.
  unfold trim_open, chain_trim_blocked_by_snapshot. destruct (versions s !! b) as [c|]; [|naive_solver].
  destruct (c !! 1%nat) as [v|] eqn:Hv; [|naive_solver]. rewrite Z.ltb_ge. naive_solver.
Qed.

(** Either the watermark did not drop, or it is now the newest commit. *)
Lemma force_advance_watermark s o n s' :
  store_wf s → force_advance_oldest_snapshot s = Some (o, n, s') →
  gc_watermark s <= gc_watermark s' ∨ gc_watermark s' = next_commit s - 1.
Proof.
  intros Hs. pose proof (wf_active _ Hs) as [Hwf _]. pose proof (wf_next_commit _ Hs).
  unfold force_advance_oldest_snapshot, gc_watermark, watermark, current_snapshot.
  destruct (active_snapshots s) as [|[k c] m] eqn:Ha; [done|]. simpl.
  apply sm_wf_cons in Hwf as [Hk Hwf].
  destruct (Z.ltb_spec 1 c); intros [= <- <- <-]; simpl.
  - rewrite Z.ltb_irrefl, Z.eqb_refl. simpl. left. lia.
  - rewrite Z.eqb_refl. destruct m as [|[k' c'] m]; simpl; [right; unfold saturating_sub; lia|].
    left. specialize (Hk (k', c') ltac:(by left)). simpl in Hk. lia.
Qed.

Lemma chain_seq_bound s b c v :
  store_wf s → versions s !! b = Some c → v ∈ c → bv_commit_seq v <= next_commit s - 1.
Proof.
  intros Hs Hc Hv. apply (wf_chains _ Hs) in Hc as (_&_&Hall&_).
  rewrite Forall_forall in Hall. apply Hall in Hv. lia.
Qed.

Lemma force_advance_trim_open s o n s' b :
  store_wf s → force_advance_oldest_snapshot s = Some (o, n, s') → trim_open s b → trim_open s' b.
Proof.
  intros Hs Hf Hopen. apply force_advance_core in Hf as Hc. destruct Hc as (Hc&_).
  apply trim_open_second. intros c v. rewrite (sc_versions _ _ Hc). intros Hb Hv.
  pose proof (proj1 (trim_open_second s b) Hopen c v Hb Hv).
  apply force_advance_watermark in Hf as [?| ->]; [lia| |done].
  eapply chain_seq_bound; [done..|]. by eapply list_elem_of_lookup_2.
Qed.

Lemma chain_len_core s s' b : same_core s s' → chain_len s' b = chain_len s b.
Proof. intros Hc. unfold chain_len. by rewrite (sc_versions _ _ Hc). Qed.

Lemma trim_open_frame s s' b :
  same_core s s' → active_snapshots s' = active_snapshots s → trim_open s b → trim_open s' b.
Proof.
  intros Hc Ha. unfold trim_open, chain_trim_blocked_by_snapshot, gc_watermark, watermark,
    current_snapshot. by rewrite (sc_versions _ _ Hc), (sc_next_commit _ _ Hc), Ha.
Qed.

Lemma relieved_preflight_stable cap b :
  preflight_stable (λ s, store_wf s ∧ relieved cap s b).
Proof.
  destruct store_wf_preflight_stable as (H1&H2&H3).
  assert (∀ s s', same_core s s' → active_snapshots s' = active_snapshots s →
    relieved cap s b → relieved cap s' b) as Hframe.
  { intros s s' Hc Ha [?|?]; [left; by rewrite (chain_len_core s)|right]. by eapply trim_open_frame. }
  split_and!.
  - intros s x y z [Hs Hr]. split; [by apply H1|]. eapply Hframe; [apply record_contention_core| |done].
    by apply record_contention_snapshots.
  - intros s o n s' [Hs Hr] Hf. split; [by eapply H2|]. apply force_advance_core in Hf as Hc.
    destruct Hc as (Hc&_). destruct Hr as [?|?]; [left; by rewrite (chain_len_core s)|right].
    by eapply force_advance_trim_open.
  - intros s m us [Hs Hr] Hm Hus. split; [by eapply H3|]. by eapply Hframe; [constructor|..].
Qed.

Lemma enforce_chain_pressure_relieves s b cap s' :
  enforce_chain_pressure s b cap = (s', Ok ()) → relieved cap s' b.
Proof.
  unfold enforce_chain_pressure, relieved, trim_open. rewrite critical_max.
  destruct (Z.eqb_spec (chain_len s b) 0) as [Hz|Hnz].
  { intros [= <-]. left. rewrite Hz. unfold critical_chain_len, saturating_mul, saturating_add, usize_max, u64_max. lia. }
  destruct (Z.ltb_spec (chain_len s b) (critical_chain_len cap)); [intros [= <-]; by left|].
  destruct (chain_trim_blocked_by_snapshot s b (gc_watermark s)) eqn:E; simpl;
    [|intros [= <-]; by right].
  destruct (force_advance_oldest_snapshot s) as [[[o n] s1]|]; [|done].
  destruct (chain_trim_blocked_by_snapshot s1 b (gc_watermark s1)) eqn:E1; simpl; [done|].
  intros [= <-]. by right.
Qed.

(** After a passed preflight every block to be written is relieved. *)
Lemma preflight_loop_relieves txn time eff blocks s hc mg s' cap b :
  timing_ok time → store_wf s → max_chain_length (compression_policy s) = Some cap →
  preflight_loop txn time eff blocks s hc mg = Ret (s', Ok ()) →
  b ∈ blocks → relieved cap s' b.
Proof.
  intros Ht. revert s hc mg. induction blocks as [|b0 blocks IH]; intros s hc mg Hs Hcap;
    [by intros _ ?%elem_of_nil|]. cbn [preflight_loop].
  assert (∀ s hc mg, store_wf s → max_chain_length (compression_policy s) = Some cap →
    match max_chain_length (compression_policy s) with
    | Some cap =>
        match enforce_chain_pressure s b0 cap with
        | (s', Ok _) => preflight_loop txn time eff blocks s' hc mg
        | (s', Err e) => Ret (record_contention s' hc mg true, Err e)
        end
    | None => preflight_loop txn time eff blocks s hc mg
    end = Ret (s', Ok ()) → b ∈ b0 :: blocks → relieved cap s' b) as Hpressure.
  { clear s hc mg Hs Hcap. intros s hc mg Hs Hcap. rewrite Hcap.
    destruct (enforce_chain_pressure s b0 cap) as [s1 [[]|e]] eqn:He; [|done].
    assert (store_wf s1) as Hs1.
    { eapply enforce_chain_pressure_stable; [apply store_wf_preflight_stable|done..]. }
    apply enforce_chain_pressure_core in He as Hc. destruct Hc as (Hc&_).
    intros Hloop [->|Hb]%elem_of_cons.
    - eapply (preflight_loop_stable (λ s, store_wf s ∧ relieved cap s b0)); [|done| |done].
      + apply relieved_preflight_stable.
      + split; [done|]. by eapply enforce_chain_pressure_relieves.
    - eapply IH; [done| |done..]. by rewrite (sc_compression _ _ Hc). }
  destruct (_ <? _); [|by apply Hpressure].
  intros (res&_&Hk)%outcome_bind_Ret. apply outcome_bind_Ret in Hk as (m&Hm&Hk).
  destruct res as [[]|e]; [|done].
  destruct store_wf_preflight_stable as (_&_&H3).
  assert (store_wf (set_runtime s m)) as Hs' by (eapply H3; [done..|apply Ht]).
  exact (Hpressure (set_runtime s m) true true Hs' Hcap Hk).
Qed.

(** Either the cap is met or the trim stopped at a version some reader pins. *)
Lemma trim_block_chain_len l max_len wm :
  l ≠ [] →
  let kept := (trim_block_chain_to_cap l max_len wm).1 in
  zlen kept <= zlen l ∧
  (zlen kept <= max_len ∨
   ∃ t : nat, zlen kept = zlen l - Z.of_nat t ∧ ∀ v, l !! S t = Some v → wm < bv_commit_seq v).
Proof.
  intros Hne. unfold trim_block_chain_to_cap.
  assert (0 < length l)%nat by (destruct l; simpl; [done|lia]).
  destruct (trim_loop_spec (length l) bv_commit_seq l max_len wm 0) as (Ht&_&Hor); [lia..|].
  set (t := trim_loop _ _ _ _ _ _) in *. unfold zlen in *.
  destruct (Nat.ltb_spec 0 t); simpl.
  - rewrite length_drop, make_chain_head_full_length. split; [lia|].
    destruct Hor as [?|?]; [left; lia|]. right. exists t. split; [lia|done].
  - assert (t = 0%nat) as Ht0 by lia. rewrite Ht0 in Hor. split; [lia|].
    destruct Hor as [?|?]; [left; lia|]. right. exists 0%nat. split; [lia|done].
Qed.

Lemma gc_watermark_advanced s n :
  1 <= next_commit s → gc_watermark s <= gc_watermark (set_counters s n (next_commit s + 1)).
Proof.
  intros Hn. unfold gc_watermark, watermark, current_snapshot. simpl.
  destruct (head (active_snapshots s)); simpl; [lia|]. unfold saturating_sub. lia.
Qed.

Lemma installed_chain_bounded s n cap b v :
  store_wf s → max_chain_length (compression_policy s) = Some cap →
  4 * Z.max cap 1 <= usize_max → relieved cap s b → chain_len s b <= critical_chain_len cap →
  zlen (installed_chain (set_counters s n (next_commit s + 1)) b v) <= critical_chain_len cap.
Proof.
  intros Hs Hcap Hbig Hrel Hlen. unfold installed_chain. simpl. rewrite Hcap.
  set (wm := gc_watermark _). set (old := default [] (versions s !! b)).
  assert (zlen old = chain_len s b) as Hold.
  { unfold old, chain_len. by destruct (versions s !! b). }
  assert (critical_chain_len cap >= Z.max cap 1 + 1 ∧ 2 <= critical_chain_len cap) as [Hcrit Hcrit2].
  { unfold critical_chain_len, saturating_mul, saturating_add. lia. }
  destruct (trim_block_chain_len (old ++ [v]) (Z.max cap 1) wm) as [Hle Hor]; [by destruct old|].
  rewrite zlen_app, zlen_cons, zlen_nil in Hle, Hor.
  destruct (decide (chain_len s b < critical_chain_len cap)); [lia|].
  destruct Hrel as [?|Hopen]; [lia|]. destruct Hor as [?|(t&Ht&Hblocked)]; [lia|].
  destruct (decide (t = 0%nat)) as [->|]; [|lia]. exfalso.
  assert (2 <= length old)%nat by (unfold zlen in *; lia).
  destruct (lookup_lt_is_Some_2 old 1) as [w Hw]; [lia|].
  specialize (Hblocked w). rewrite lookup_app_l in Hblocked by lia. specialize (Hblocked Hw).
  rewrite trim_open_second in Hopen. unfold old in Hw.
  destruct (versions s !! b) as [c|] eqn:Hc; [|done]. simpl in Hw.
  specialize (Hopen c w eq_refl Hw).
  pose proof (gc_watermark_advanced s n (proj1 (wf_next_commit _ Hs))) as Hadv. fold wm in Hadv. lia.
Qed.

Definition chains_bounded (cap : Z) (s : MvccStore) : Prop :=
  ∀ b, chain_len s b <= critical_chain_len cap.

Lemma installed_bounded s seq txn merged s' cap :
  store_wf s → max_chain_length (compression_policy s) = Some cap → 4 * Z.max cap 1 <= usize_max →
  (∀ b, b ∈ write_set_keys txn → relieved cap s b) → sm_wf (staged_writes txn) →
  chains_bounded cap s → installed s seq txn merged s' → chains_bounded cap s'.
Proof.
  intros Hs Hcap Hbig Hrel Hwf Hbound Hin b. unfold chain_len.
  rewrite (ins_versions _ _ _ _ _ Hin b).
  destruct (sm_get b (staged_writes txn)) as [st|] eqn:Hst; [|apply Hbound].
  rewrite (ins_seq _ _ _ _ _ Hin). apply installed_chain_bounded; [done..| |apply Hbound].
  apply Hrel, elem_of_keys; [done|]. by rewrite Hst.
Qed.

Lemma preflight_relieves s txn time s' cap b :
  timing_ok time → store_wf s → max_chain_length (compression_policy s) = Some cap →
  preflight_fcw s txn time = Ret (s', Ok ()) → b ∈ write_set_keys txn → relieved cap s' b.
Proof.
  intros Ht Hs Hcap. unfold preflight_fcw. destruct (validate_transaction_id _); [|done].
  by eapply preflight_loop_relieves.
Qed.

Lemma chains_bounded_core cap s s' : same_core s s' → chains_bounded cap s → chains_bounded cap s'.
Proof. intros Hc Hb b. rewrite (chain_len_core s); [apply Hb|done]. Qed.

Lemma commit_fcw_internal_bounded s txn time s' r cap :
  sm_wf (staged_writes txn) → timing_ok time → store_wf s →
  max_chain_length (compression_policy s) = Some cap → 4 * Z.max cap 1 <= usize_max →
  chains_bounded cap s → commit_fcw_internal s txn time = Ret (s', r) → chains_bounded cap s'.
Proof.
  intros Hwf Ht Hs Hcap Hbig Hb Hc.
  apply commit_fcw_internal_cases in Hc as (sp&rp&Hp&Hcp&Hcase); [|done..].
  assert (store_wf sp) as Hsp by by eapply preflight_fcw_wf.
  destruct r as [[seq def]|e]; [|subst; by eapply chains_bounded_core].
  destruct Hcase as (->&merged&_&Hin&_). eapply installed_bounded; [done| |done| |done| |done].
  - by rewrite (sc_compression _ _ Hcp).
  - intros b Hb'. exact (preflight_relieves s txn time sp cap b Ht Hs Hcap Hp Hb').
  - by eapply chains_bounded_core.
Qed.

Lemma commit_ssi_internal_bounded s txn time s' r cap :
  sm_wf (staged_writes txn) → timing_ok time → store_wf s →
  max_chain_length (compression_policy s) = Some cap → 4 * Z.max cap 1 <= usize_max →
  chains_bounded cap s → commit_ssi_internal s txn time = Ret (s', r) → chains_bounded cap s'.
Proof.
  intros Hwf Ht Hs Hcap Hbig Hb Hc.
  apply commit_ssi_internal_cases in Hc as (sp&rp&Hp&Hcp&Hcase); [|done..].
  assert (store_wf sp) as Hsp by by eapply preflight_fcw_wf.
  destruct r as [[seq def]|e]; [|subst; by eapply chains_bounded_core].
  destruct Hcase as (->&merged&checks&_&_&Hin&_). eapply installed_bounded; [done| |done| |done| |done].
  - by rewrite (sc_compression _ _ Hcp).
  - intros b Hb'. exact (preflight_relieves s txn time sp cap b Ht Hs Hcap Hp Hb').
  - by eapply chains_bounded_core.
Qed.

(** ** Eviction *)

Lemma evict_versions s d b :
  versions (evict_durable_chains s d).1 !! b =
  match versions s !! b with
  | Some c => if evictable s (eviction_bound s d) b c then None else Some c
  | None => None
  end.
Proof.
  unfold evict_durable_chains. cbn [fst].
  transitivity (filter (λ bc, evictable s (eviction_bound s d) bc.1 bc.2 = false) (versions s) !! b);
    [by destruct (0 <? _)|].
  rewrite map_lookup_filter. destruct (versions s !! b) as [c|]; simpl; [|done].
  by destruct (evictable s (eviction_bound s d) b c).
Qed.

Lemma evict_reported s d b :
  b ∈ (evict_durable_chains s d).2 ↔
  ∃ c, versions s !! b = Some c ∧ evictable s (eviction_bound s d) b c = true.
Proof.
  unfold evict_durable_chains. cbn [snd]. rewrite list_elem_of_fmap. split.
  - intros ([b' c]&->&Hin). apply elem_of_map_to_list, map_lookup_filter_Some in Hin as [??]. eauto.
  - intros (c&Hc&He). exists (b, c). split; [done|].
    apply elem_of_map_to_list, map_lookup_filter_Some. done.
Qed.

(** A snapshot above the newest version reads the newest version. *)
Lemma read_above_newest s b c newest snap :
  store_wf s → versions s !! b = Some c → last c = Some newest → bv_commit_seq newest <= high snap →
  read_visible s b snap = version_bytes_at s b (bv_commit_seq newest).
Proof.
  intros Hs Hc Hlast Hle. rewrite (read_visible_chain s b snap c), (version_bytes_at_chain s b _ c) by done.
  apply (wf_chains _ Hs) in Hc as Hok. pose proof (chain_ok_sorted _ _ _ Hok) as Hsorted.
  rewrite last_lookup in Hlast.
  assert (∀ h, bv_commit_seq newest <= h →
    newest_visible_index_by c h bv_commit_seq = Some (Nat.pred (length c))) as Hidx.
  { intros h Hh. apply newest_visible_index_Some; [done|]. split; [eauto|].
    intros j y Hy _. apply lookup_lt_Some in Hy. lia. }
  unfold resolve_version_bytes_at_or_before, newest_visible_index.
  rewrite !Hidx by (done || lia). done.
Qed.

(** ** Copy-on-write frees *)

Lemma collect_frees_spec cow orphans b :
  sm_wf cow → sm_wf orphans →
  b ∈ collect_cow_deferred_frees cow orphans ↔
  is_Some (sm_get b orphans) ∨
  ∃ l i, sm_get l cow = Some i ∧ old_physical i = Some b ∧ b ≠ new_physical i.
Proof.
  intros Hcow. unfold collect_cow_deferred_frees.
  assert (∀ l i, sm_get l cow = Some i ↔ (l, i) ∈ cow) as Hget by (intros; by apply sm_get_elem).
  setoid_rewrite Hget. clear Hcow Hget. revert orphans.
  induction cow as [|[l i] cow IH]; intros orphans Ho; cbn [foldl].
  { rewrite elem_of_keys by done. split; [by left|]. intros [?|(?&?&?%elem_of_nil&_)]; done. }
  set (acc := match old_physical (l, i).2 with Some _ => _ | None => _ end).
  assert (sm_wf acc ∧ ∀ b, is_Some (sm_get b acc) ↔
    is_Some (sm_get b orphans) ∨ old_physical i = Some b ∧ b ≠ new_physical i) as [Hacc Hb].
  { unfold acc. simpl. destruct (old_physical i) as [old|]; [|split; [done|naive_solver]].
    case_bool_decide as Hne.
    - split; [by apply sm_insert_wf|]. intros b'. unfold ss_insert. rewrite sm_get_insert by done.
      destruct (Z.eqb_spec b' old); naive_solver.
    - split; [done|]. naive_solver. }
  rewrite IH by done. rewrite Hb. setoid_rewrite elem_of_cons. naive_solver.
Qed.

(** ** Properties *)

(** Snapshot references balance: registering adds one reference at its
    sequence, a release succeeds exactly when one is outstanding and removes
    exactly that one (it never underflows), and pressure relief during a
    preflight only moves references to the forced ledger, so a force-advanced
    reader's late release still succeeds. *)
Lemma snapshot_references_balance (s : MvccStore) (snap : Snapshot) (k : Z) :
  store_wf s →
  (default 0 (sm_get (high snap) (active_snapshots s)) < u64_max →
   balance (register_snapshot s snap) k = balance s k + (if k =? high snap then 1 else 0)) ∧
  (∃ s' ok, release_snapshot s snap = Ret (s', ok) ∧
     (ok = true ↔ 0 < balance s (high snap)) ∧
     balance s' k = balance s k - (if (k =? high snap) && ok then 1 else 0)) ∧
  (∀ txn time s' r, timing_ok time → preflight_fcw s txn time = Ret (s', r) →
     balance s' k = balance s k).
Proof.
  intros Hs. pose proof (wf_active _ Hs) as [Ha Hac]. pose proof (wf_forced _ Hs) as [Hf Hfc].
  pose proof (snapshots_ok_count _ (high snap) (conj Ha Hac)).
  pose proof (snapshots_ok_count _ (high snap) (conj Hf Hfc)).
  split_and!.
  - intros Hlt. unfold balance, register_snapshot. simpl. rewrite sm_get_insert by done.
    destruct (Z.eqb_spec k (high snap)) as [->|]; simpl; [unfold saturating_add; lia|lia].
  - unfold release_snapshot, balance.
    destruct (sm_get (high snap) (active_snapshots s)) as [c|] eqn:Hc; simpl in *.
    { specialize (Hac _ _ Hc). eexists _, true. split; [done|]. split; [split; [lia|done]|]. simpl.
      rewrite andb_true_r. unfold saturating_sub in *.
      destruct (Z.eqb_spec (Z.max (c - 1) 0) 0); rewrite ?sm_get_insert, ?sm_get_remove by done;
        destruct (Z.eqb_spec k (high snap)) as [->|]; simpl; rewrite ?Hc; simpl; lia. }
    destruct (sm_get (high snap) (force_advanced_releases s)) as [p|] eqn:Hp; simpl in *.
    { specialize (Hfc _ _ Hp). destruct (Z.eqb_spec p 0); [lia|].
      eexists _, true. split; [done|]. split; [split; [lia|done]|]. simpl. rewrite andb_true_r.
      destruct (Z.eqb_spec (p - 1) 0); rewrite ?sm_get_insert, ?sm_get_remove by done;
        destruct (Z.eqb_spec k (high snap)) as [->|]; simpl; rewrite ?Hp; simpl; lia. }
    exists s, false. split; [done|]. split; [split; [done|lia]|]. rewrite andb_false_r. lia.
  - intros txn time s' r Ht Hp.
    by eapply (preflight_fcw_stable _ _ _ _ _ _ (balance_preflight_stable s k)).
Qed.

(** The garbage-collection watermark is the oldest registered snapshot. *)
Lemma watermark_is_oldest_reader (s : MvccStore) (w : Z) :
  store_wf s →
  watermark s = Some w ↔
  registered s (mkSnapshot w) ∧ ∀ snap, registered s snap → w <= high snap.
Proof.
  intros Hs. rewrite watermark_least by apply (wf_active _ Hs). unfold registered. simpl.
  split; intros [? Hl]; (split; [done|]).
  - intros snap. apply Hl.
  - intros k. apply (Hl (mkSnapshot k)).
Qed.

(** Version chains stay bounded: with a cap configured, no commit lets a
    chain grow beyond the critical length (four times the cap), readers pinning
    old versions or not; preflight either relieves the pressure or refuses. *)
Lemma chains_stay_bounded (s : MvccStore) (txn : Transaction) (time : Timing) (cap : Z)
    (s' : MvccStore) (r : res CommitError Z) :
  txn_wf txn → timing_ok time → store_wf s →
  max_chain_length (compression_policy s) = Some cap → 4 * Z.max cap 1 <= usize_max →
  chains_bounded cap s →
  commit s txn time = Ret (s', r) ∨ commit_ssi s txn time = Ret (s', r) →
  chains_bounded cap s'.
Proof.
  intros (Hwf&_) Ht Hs Hcap Hbig Hb [Hc|Hc]; apply outcome_bind_Ret in Hc as ([s1 r1]&Hc&Hf);
    apply finish_commit_cases in Hf as (_&Hsc&_); simpl in Hsc; eapply chains_bounded_core; try done.
  - exact (commit_fcw_internal_bounded (with_attempt s) txn time s1 r1 cap Hwf Ht
      (with_attempt_wf s Hs) Hcap Hbig Hb Hc).
  - exact (commit_ssi_internal_bounded (with_attempt s) txn time s1 r1 cap Hwf Ht
      (with_attempt_wf s Hs) Hcap Hbig Hb Hc).
Qed.

(** C36. Eviction only drops what the device can serve: a dropped block has no
    physical remapping, its newest version is at or below the durable sequence,
    and every registered snapshot was reading exactly that newest version; all
    other blocks keep their chains. *)
Theorem eviction_drops_only_durable (s : MvccStore) (durable_through block : Z) :
  store_wf s →
  (block ∈ (evict_durable_chains s durable_through).2 →
   physical_versions s !! block = None ∧
   latest_commit_seq s block <= durable_through ∧
   (∀ snap, registered s snap →
      read_visible s block snap = version_bytes_at s block (latest_commit_seq s block)) ∧
   versions (evict_durable_chains s durable_through).1 !! block = None) ∧
  (block ∉ (evict_durable_chains s durable_through).2 →
   versions (evict_durable_chains s durable_through).1 !! block = versions s !! block).
Proof.
  intros Hs. rewrite evict_reported, evict_versions. split.
  - intros (c&Hc&He). rewrite Hc, He. unfold evictable in He.
    apply andb_true_iff in He as [Hp%bool_decide_eq_true He].
    destruct (last c) as [newest|] eqn:Hlast; [|done]. apply Z.leb_le in He.
    assert (latest_commit_seq s block = bv_commit_seq newest) as Hl.
    { unfold latest_commit_seq. rewrite Hc. simpl. by rewrite Hlast. }
    rewrite Hl. unfold eviction_bound in He. split_and!; [done|destruct (watermark s); lia| |done].
    intros snap Hreg. eapply read_above_newest; [done..|].
    destruct (watermark s) as [w|] eqn:Hw.
    + apply watermark_least in Hw as [_ Hw]; [|apply (wf_active _ Hs)]. specialize (Hw _ Hreg). lia.
    + destruct Hreg as [x Hx]. unfold watermark in Hw. by destruct (active_snapshots s).
  - intros Hn. destruct (versions s !! block) as [c|] eqn:Hc; [|done].
    destruct (evictable _ _ _ _) eqn:He; [|done]. destruct Hn. eauto.
Qed.

(** Commit sequences are never reused: once the last representable sequence
    is reached a commit fails instead of wrapping, and the counter stays put. *)
Lemma exhausted_sequence_refuses (s : MvccStore) (txn : Transaction) (time : Timing)
    (s' : MvccStore) (r : res CommitError Z) :
  txn_wf txn → timing_ok time → store_wf s → next_commit s = u64_max →
  commit s txn time = Ret (s', r) →
  (∃ e, r = Err e) ∧ next_commit s' = u64_max.
Proof.
  intros (Hwf&_) Ht Hs Hmax Hc. apply outcome_bind_Ret in Hc as ([s1 r1]&Hc&Hf).
  apply finish_commit_cases in Hf as (->&Hsc&_). simpl in *.
  apply commit_fcw_internal_cases in Hc as (sp&rp&_&Hcp&Hcase); [|done..].
  pose proof (sc_next_commit _ _ Hcp) as Hn. simpl in Hn.
  destruct r1 as [[seq def]|e].
  - destruct Hcase as (_&merged&_&Hin&_). pose proof (ins_room _ _ _ _ _ Hin). lia.
  - subst s1. split; [eauto|]. by rewrite (sc_next_commit _ _ Hsc), Hn.
Qed.

(** Copy-on-write accounting: after a failed or aborted transaction every
    physical block it allocated is handed back, and after a successful commit
    exactly its orphans and the replaced old blocks are deferred for freeing. *)
Lemma cow_frees_exact (s : MvccStore) (txn : Transaction) (b : Z) :
  txn_wf txn →
  (DeferFree b 0 ∈ abort_frees txn ↔ owned_physical txn b) ∧
  (∀ seq deferred,
     deferred = collect_cow_deferred_frees (cow_writes txn) (cow_orphans txn) →
     DeferFree b seq ∈ cow_calls txn (s, Ok (seq, deferred)) ↔
     is_Some (sm_get b (cow_orphans txn)) ∨
     ∃ l i, sm_get l (cow_writes txn) = Some i ∧ old_physical i = Some b ∧ b ≠ new_physical i).
Proof.
  intros (_&_&Hc&Ho). split.
  - unfold abort_frees, owned_physical. rewrite elem_of_app, !list_elem_of_fmap. split.
    + intros [([l i]&[= ->]&Hin)|([o []]&[= ->]&Hin)]; [left|right]; simpl.
      * exists l, i. split; [by apply sm_get_elem|done].
      * exists (). by apply sm_get_elem.
    + intros [(l&i&Hi&<-)|[[] Hb]]; [left|right].
      * exists (l, i). split; [done|by apply sm_get_elem].
      * exists (b, ()). split; [done|by apply sm_get_elem].
  - intros seq deferred ->. simpl. rewrite elem_of_app, list_elem_of_fmap, list_elem_of_singleton.
    rewrite <-collect_frees_spec by done. split.
    + intros [(b'&[= ->]&?)|?]; done.
    + intros Hin. left. eauto.
Qed.
End limits.
