(* ===== verification/StorePreflight.v ===== *)
(** * Preflight versus install

    The commit protocol validates first ([preflight_fcw]) and installs later
    ([apply_fcw_commit]).  This file relates the two phases: the validator
    agrees with the byte resolver it mirrors, neither phase panics for proofs
    with non-empty ranges, and the two places where the install phase can still
    refuse what preflight accepted are exhibited. *)

From stdpp Require Import base sorting numbers gmap list.
From S2P Require Import Prelude Sorted Merge Chain Txn Policy Metrics Store StoreLemmas StoreInv.
From S2P Require Import StoreCorrect.

Local Open Scope Z_scope.

(** Proofs as the file system builds them: non-empty ranges, a usize prefix. *)
Definition proof_ok (p : MergeProof) : Prop :=
  (∀ rs, touched_ranges p = Some rs → Forall range_ok rs) ∧ (∀ n, p = AppendOnly n → 0 <= n).

Definition txn_proofs_ok (txn : Transaction) : Prop :=
  ∀ b st, sm_get b (staged_writes txn) = Some st →
    proof_ok (sw_merge_proof st) ∧ ∀ base, sw_base st = Some base → zlen base < usize_max.

Section preflight.
Context `{VersionCodec} `{UnstableSort}.

(** Block sizes below the address space. *)
Definition sizes_ok (s : MvccStore) : Prop :=
  ∀ b h data, version_bytes_at s b h = Some data → zlen data < usize_max.

Lemma sizes_ok_core s s' : same_core s s' → sizes_ok s → sizes_ok s'.
Proof. intros Hc Hs b h data. rewrite (same_core_bytes s) by done. apply Hs. Qed.

Lemma merge_valid_no_panic p (base latest staged : bytes) :
  proof_ok p → zlen base < usize_max → ∃ v, merge_valid p base latest staged = Ret v.
Proof.
  intros [Hrs Hn] Hmax. apply merge_valid_total; [|done..].
  intros rs Hp. apply Hrs. by destruct Hp as [->|[->| ->]].
Qed.

Lemma merge_bytes_no_panic p (base latest staged : bytes) :
  proof_ok p → zlen base < usize_max → ∃ m, merge_bytes p base latest staged = Ret m.
Proof.
  intros Hp Hmax. destruct (merge_valid_no_panic p base latest staged Hp Hmax) as [v Hv].
  pose proof (merge_valid_decides_aux p base latest staged) as Hd. rewrite Hv in Hd.
  destruct v; [destruct Hd as [m ->]; eauto|eauto].
Qed.

Lemma default_size (o : option bytes) :
  (∀ d, o = Some d → zlen d < usize_max) → zlen (default [] o) < usize_max.
Proof. intros Ho. destruct o; [by apply Ho|]. vm_compute. reflexivity. Qed.

Lemma merge_base_size s txn b :
  sm_wf (staged_writes txn) → sizes_ok s → txn_proofs_ok txn → zlen (merge_base s txn b) < usize_max.
Proof.
  intros Hwf Hs Hp. apply default_size. intros d.
  destruct (version_bytes_at s b _) eqn:Hv; [intros [= <-]; by eapply Hs|].
  unfold staged_base. rewrite staged_entry_get by done.
  destruct (sm_get b (staged_writes txn)) as [st|] eqn:Hst; [|done].
  by apply (Hp b st Hst).
Qed.

Lemma resolve_conflict_total s txn b latest eff :
  sm_wf (staged_writes txn) → sizes_ok s → txn_proofs_ok txn →
  ∃ r, preflight_resolve_block_conflict s txn b latest eff = Ret r.
Proof.
  intros Hwf Hs Hp. unfold preflight_resolve_block_conflict, resolved_write_valid_with_policy.
  case_bool_decide; [eauto|]. unfold staged_write, merge_proof. rewrite staged_entry_get by done.
  destruct (sm_get b (staged_writes txn)) as [st|] eqn:Hst; simpl; [|eauto].
  case_if; simpl; [eauto|].
  destruct (merge_valid_no_panic (sw_merge_proof st) (merge_base s txn b)
    (default [] (version_bytes_at s b (latest_commit_seq s b))) (sw_bytes st)) as [v ->];
    [by apply (Hp b st Hst)|by apply merge_base_size|]. simpl. eauto.
Qed.

Lemma preflight_loop_total txn time eff blocks s hc mg :
  sm_wf (staged_writes txn) → txn_proofs_ok txn → timing_ok time → store_wf s → sizes_ok s →
  ∃ s' r, preflight_loop txn time eff blocks s hc mg = Ret (s', r).
Proof.
  intros Hwf Hp [Ht0 Ht]. revert s hc mg.
  induction blocks as [|b blocks IH]; intros s hc mg Hs Hsz; cbn [preflight_loop]; [eauto|].
  assert (∀ s hc mg, store_wf s → sizes_ok s → ∃ s' r,
    match max_chain_length (compression_policy s) with
    | Some cap =>
        match enforce_chain_pressure s b cap with
        | (s', Ok _) => preflight_loop txn time eff blocks s' hc mg
        | (s', Err e) => Ret (record_contention s' hc mg true, Err e)
        end
    | None => preflight_loop txn time eff blocks s hc mg
    end = Ret (s', r)) as Hpressure.
  { clear s hc mg Hs Hsz. intros s hc mg Hs Hsz.
    destruct (max_chain_length _) as [cap|]; [|by apply IH].
    destruct (enforce_chain_pressure s b cap) as [s1 [[]|e]] eqn:He; [|eauto].
    apply IH; [eapply enforce_chain_pressure_stable; [apply store_wf_preflight_stable|done..]|].
    apply enforce_chain_pressure_core in He as (Hc&_). by eapply sizes_ok_core. }
  destruct (_ <? _); [|by apply Hpressure].
  destruct (resolve_conflict_total s txn b (latest_commit_seq s b) eff Hwf Hsz Hp) as [r ->]. simpl.
  destruct (record_resolution_total _ (resolution_us time b) (wf_runtime _ Hs) (Ht b)) as (m&->&Hm).
  simpl. destruct r as [[]|e]; [|eauto].
  exact (Hpressure (set_runtime s m) true true (set_runtime_wf s m Hm Hs) Hsz).
Qed.

Lemma merged_writes_loop_total s txn eff ws acc :
  sizes_ok s → (∀ b st, (b, st) ∈ ws → proof_ok (sw_merge_proof st)) →
  ∃ r, merged_writes_loop s txn eff ws acc = Ret r.
Proof.
  intros Hs. revert acc. induction ws as [|[b st] ws IH]; intros acc Hp; cbn [merged_writes_loop]; [eauto|].
  assert (∀ b st, (b, st) ∈ ws → proof_ok (sw_merge_proof st)) as Hp'.
  { intros b' st' Hin. apply (Hp b'). by right. }
  case_if; [by apply IH|]. case_bool_decide; [eauto|].
  destruct (merge_bytes_no_panic (sw_merge_proof st)
    (default [] (version_bytes_at s b (high (t_snapshot txn))))
    (default [] (version_bytes_at s b (latest_commit_seq s b))) (sw_bytes st)) as [m ->].
  - apply (Hp b). by left.
  - apply default_size. intros d. apply Hs.
  - simpl. destruct m; [by apply IH|eauto].
Qed.

Lemma apply_fcw_commit_total s txn :
  sm_wf (staged_writes txn) → sizes_ok s → txn_proofs_ok txn → ∃ s' r, apply_fcw_commit s txn = Ret (s', r).
Proof.
  intros Hwf Hs Hp. unfold apply_fcw_commit. destruct (validate_transaction_id _); [|eauto].
  destruct (merged_writes_loop_total s txn (effective_policy s) (staged_writes txn) []) as [m Hm]; [done| |].
  { intros b st Hin. apply sm_get_elem in Hin; [|done]. by apply (Hp b st). }
  unfold merged_writes_after_preflight. rewrite Hm. simpl. destruct m; [|eauto].
  destruct (next_commit_seq s) as [s1 [seq|e]]; eauto.
Qed.

Lemma finish_commit_total {A} time n (p : MvccStore * res CommitError A) :
  timing_ok time → store_wf p.1 → ∃ s' r, finish_commit time n p = Ret (s', r).
Proof.
  intros [Ht _] Hs. destruct p as [s [a|e]]; simpl in *; [|eauto].
  unfold emit_transaction_commit.
  destruct (record_commit_success_total _ _ (wf_runtime _ Hs) Ht) as (m&->&_). simpl. eauto.
Qed.

(** C35. A commit always returns: for proofs with non-empty byte ranges no
    validator, merge, histogram or counter in the commit path can panic, so
    [commit] ends in a commit sequence or a [CommitError]. *)
Theorem commit_always_returns (s : MvccStore) (txn : Transaction) (time : Timing) :
  txn_wf txn → txn_proofs_ok txn → timing_ok time → store_wf s → sizes_ok s →
  ∃ s' r, commit s txn time = Ret (s', r).
Proof.
  intros (Hwf&_) Hp Ht Hs Hsz. unfold commit, commit_fcw_internal, preflight_fcw.
  pose proof (with_attempt_wf s Hs) as Hsa.
  assert (sizes_ok (with_attempt s)) as Hsza by exact Hsz.
  assert (∃ sp rp, match validate_transaction_id (t_id txn) with
    | Err e => Ret (with_attempt s, Err e)
    | Ok _ => preflight_loop txn time (effective_policy (with_attempt s)) (write_set_keys txn)
                (with_attempt s) false false end = Ret (sp, rp)) as (sp&rp&Hpre).
  { destruct (validate_transaction_id _); [by apply preflight_loop_total|eauto]. }
  rewrite Hpre. cbn [mbind outcome_bind].
  assert (store_wf sp) as Hsp by by eapply (preflight_fcw_wf (with_attempt s) txn time).
  assert (same_core (with_attempt s) sp) as Hc by by eapply (preflight_fcw_core txn time).
  assert (∃ s1 r1, match rp with Ok _ => apply_fcw_commit sp txn | Err e => Ret (sp, Err e) end
    = Ret (s1, r1) ∧ store_wf s1) as (s1&r1&Hap&Hs1).
  { destruct rp as [[]|e]; [|eauto].
    destruct (apply_fcw_commit_total sp txn Hwf) as (s1&r1&Ha); [by eapply sizes_ok_core|done|].
    exists s1, r1. split; [done|]. by eapply apply_fcw_commit_wf. }
  destruct rp as [[]|e]; rewrite Hap; cbn [mbind outcome_bind]; by apply finish_commit_total.
Qed.

(** The preflight validator is exactly the success test of the byte
    resolver it mirrors: for every store, transaction, block and policy it
    accepts when [resolved_write_bytes] would produce bytes, and returns the
    same error when it would not. *)
Lemma preflight_mirrors_resolver (s : MvccStore) (txn : Transaction) (block : Z)
    (effective : ConflictPolicy) :
  match resolved_write_valid_with_policy s txn block effective with
  | Ret (Ok _) => ∃ data, resolved_write_bytes_with_policy s txn block effective = Ret (Ok data)
  | Ret (Err e) => resolved_write_bytes_with_policy s txn block effective = Ret (Err e)
  | Panic => resolved_write_bytes_with_policy s txn block effective = Panic
  end.
Proof.
  unfold resolved_write_valid_with_policy, resolved_write_bytes_with_policy.
  destruct (staged_write txn block) as [staged|]; [|done].
  case_if; [eauto|]. case_bool_decide; [done|].
  pose proof (merge_valid_decides_aux (default Unsafe (merge_proof txn block)) (merge_base s txn block)
    (default [] (version_bytes_at s block (latest_commit_seq s block))) staged) as Hd.
  destruct (merge_valid _ _ _ _) as [[]|]; simpl; [destruct Hd as [m ->]|rewrite Hd..]; simpl; eauto.
Qed.
End preflight.

(** ** Where install refuses what preflight accepted *)

Definition no_delay : Timing := mkTiming 0 (λ _, 0).

(** A first write to block 5 was committed at sequence 1 by someone else. *)
Definition fresh_block_store : MvccStore :=
  set_versions (set_counters store_new 3 2) {[ 5 := [mkVersion 5 1 1 (Full [0; 0; 0; 7])] ]}.

(** A writer whose snapshot predates the block, staged with its device base. *)
Definition fresh_block_txn : Transaction :=
  mkTxn 2 (mkSnapshot 0)
    [(5, mkStaged [9; 0; 0; 0] (IndependentKeys [mkRange 0 1]) (Some [0; 0; 0; 0]))] [] [] [].


(** An adaptive configuration that weighs corruption at one in a thousand. *)
Definition cautious_config : AdaptivePolicyConfig :=
  mkConfig (f64_of_Z 1000) f64_one (f64_div f64_one (f64_of_Z 1000))
    (f64_div f64_one (f64_of_Z 10)) 50 (f64_div (f64_of_Z 3) (f64_of_Z 2)).

(** An adaptive store after 49 commits without a conflict. *)
Definition switching_store : MvccStore :=
  set_contention
    (set_adaptive_config
       (set_conflict_policy
          (set_versions (set_counters store_new 3 3)
             {[ 5 := [mkVersion 5 1 1 (Full [0; 0; 0; 0]); mkVersion 5 2 1 (Full [0; 0; 0; 7])] ]})
          Adaptive)
       cautious_config)
    (Nat.iter 49 (λ m, record_commit m (ema_alpha cautious_config) false false false) default_metrics).

Definition switching_txn : Transaction :=
  mkTxn 2 (mkSnapshot 1)
    [(5, mkStaged [9; 0; 0; 0] (IndependentKeys [mkRange 0 1]) None)] [] [] [].

(** The contention update of a passed preflight can switch the adaptive
    policy before the same commit installs: the write is accepted under
    [SafeMerge] and the install then refuses it under [Strict]. *)
Lemma adaptive_switch_between_phases :
  effective_policy switching_store = SafeMerge ∧
  (λ r, (effective_policy r.1, r.2)) <$>
    @preflight_commit_fcw RleCodec InsertionSort switching_store switching_txn no_delay
    = Ret (Strict, Ok ()) ∧
  snd <$> @commit RleCodec InsertionSort switching_store switching_txn no_delay
    = Ret (Err (Conflict 5 1 2)).
Proof. vm_compute. done. Qed.
