(* ===== verification/StoreTyped.v ===== *)
(** * StoreTyped: the store holds what its Rust types allow

    Machine integers and bytes are [Z] in the model, so the ranges that the
    Rust types [u8] and [u64] guarantee have to be shown to be kept.  A typed
    store has [u64] block numbers, versions written by transactions that were
    begun, and version payloads made of [u8]s; every operation keeps it typed,
    whatever merges and representations it goes through. *)

From stdpp Require Import base sorting numbers gmap list.
From S2P Require Import Prelude Sorted Merge Chain Txn Policy Metrics Store StoreLemmas StoreInv.
From S2P Require Import StoreCorrect.

Local Open Scope Z_scope.

Section typed.
Context `{VersionCodec}.

Definition payloads_ok (c : list BlockVersion) : Prop :=
  ∀ i d, resolve_walk c bv_data i = Some d → bytes_ok d.

Definition chain_typed (nt b : Z) (c : list BlockVersion) : Prop :=
  0 <= b <= u64_max ∧ Forall (λ v, 0 <= bv_writer v < nt) c ∧ payloads_ok c.

Definition store_typed (s : MvccStore) : Prop := map_Forall (chain_typed (next_txn s)) (versions s).

(** A transaction this store began: its number, its blocks and its bytes. *)
Definition txn_typed (nt : Z) (t : Transaction) : Prop :=
  0 <= t_id t < nt ∧
  ∀ b st, sm_get b (staged_writes t) = Some st →
          0 <= b <= u64_max ∧ bytes_ok (sw_bytes st) ∧ ∀ base, sw_base st = Some base → bytes_ok base.

Definition op_typed (s : MvccStore) (o : op) : Prop :=
  match o with
  | OpPreflight t _ | OpCommit t _ | OpCommitPrechecked t _ | OpCommitSsi t _
  | OpCommitCow t _ | OpCommitSsiCow t _ => txn_typed (next_txn s) t
  | _ => True
  end.

(** ** Chains *)

Lemma chain_typed_weaken nt nt' b c : nt <= nt' → chain_typed nt b c → chain_typed nt' b c.
Proof.
  intros Hn (?&Hw&?). split; [done|]. split; [|done].
  eapply Forall_impl; [exact Hw|]. simpl. lia.
Qed.

Lemma resolve_walk_lt (c : list BlockVersion) i d : resolve_walk c bv_data i = Some d → (i < length c)%nat.
Proof.
  intros Hr. destruct (c !! i) as [v|] eqn:Hv; [by eapply lookup_lt_Some|].
  destruct i; simpl in Hr; by rewrite Hv in Hr.
Qed.

Lemma chain_typed_drain nt b c k : chain_typed nt b c → chain_typed nt b (drain_chain c k).
Proof.
  intros (Hb&Hw&Hp). split; [done|]. split.
  - rewrite Forall_lookup in Hw |- *. intros i v Hv. unfold drain_chain in Hv. rewrite lookup_drop in Hv.
    destruct (decide (i = 0%nat)) as [->|].
    + rewrite Nat.add_0_r in Hv. destruct (c !! k) as [v0|] eqn:Hv0.
      * destruct (make_chain_head_full_lookup c k v0 Hv0) as (v'&Hv'&_&_&Hwr&_).
        rewrite Hv in Hv'. injection Hv' as <-. rewrite Hwr. by eapply Hw.
      * apply lookup_ge_None in Hv0. apply lookup_lt_Some in Hv.
        rewrite make_chain_head_full_length in Hv. lia.
    + rewrite make_chain_head_full_lookup_ne in Hv by lia. by eapply Hw.
  - intros i d Hr. pose proof (resolve_walk_lt _ _ _ Hr) as Hl. rewrite drain_chain_length in Hl.
    rewrite drain_chain_resolve in Hr by lia. by eapply Hp.
Qed.

Lemma chain_typed_push policy nt b c seq id data :
  0 <= b <= u64_max → 0 <= id < nt → bytes_ok data → (c = [] ∨ chain_typed nt b c) →
  chain_typed nt b (c ++ [mkVersion b seq id (version_data_for policy c data)]).
Proof.
  intros Hb Hid Hd Hc. set (v := mkVersion b seq id _).
  assert (Forall (λ v, 0 <= bv_writer v < nt) c ∧ payloads_ok c) as [Hw Hp].
  { destruct Hc as [->|(_&?&?)]; [|done]. split; [done|]. intros i d Hr.
    apply resolve_walk_lt in Hr. simpl in Hr. lia. }
  split; [done|]. split; [apply Forall_app_2; [done|by apply Forall_singleton]|].
  intros i d Hr. pose proof (resolve_walk_lt _ _ _ Hr) as Hl. rewrite length_app in Hl. simpl in Hl.
  destruct (decide (i < length c)%nat); [rewrite resolve_walk_app in Hr by done; by eapply Hp|].
  assert (i = length c) as -> by lia.
  rewrite (version_data_for_resolve policy c v data) in Hr by done. by injection Hr as <-.
Qed.

Lemma chain_typed_trim nt b c max_len wm : chain_typed nt b c →
  chain_typed nt b (trim_block_chain_to_cap c max_len wm).1.
Proof.
  intros Hc. destruct (trim_block_chain_drain c max_len wm) as [->|(k&v&->&_)]; [done|].
  by apply chain_typed_drain.
Qed.

Lemma chain_typed_prune nt b c wm : chain_typed nt b c → chain_typed nt b (prune_chain c wm).1.
Proof.
  intros Hc. destruct (prune_chain_drain c wm) as [->|(k&v&->&_)]; [done|]. by apply chain_typed_drain.
Qed.

(** What a typed store reads is bytes. *)
Lemma version_bytes_at_ok s b h d : store_typed s → version_bytes_at s b h = Some d → bytes_ok d.
Proof.
  intros Hs. unfold version_bytes_at. intros (c&Hc&Hi)%bind_Some.
  apply bind_Some in Hi as (i&_&Hr). rewrite resolve_data_walk in Hr.
  apply Hs in Hc as (_&_&Hp). by eapply Hp.
Qed.

Lemma version_bytes_default_ok s b h : store_typed s → bytes_ok (default [] (version_bytes_at s b h)).
Proof.
  intros Hs. destruct (version_bytes_at s b h) eqn:Hv; [by eapply version_bytes_at_ok|constructor].
Qed.
End typed.

Section preservation.
Context `{VersionCodec} `{UnstableSort}.

Lemma store_typed_same s s' : versions s' = versions s → next_txn s <= next_txn s' →
  store_typed s → store_typed s'.
Proof.
  intros Hv Hn Hs. unfold store_typed. rewrite Hv. eapply map_Forall_impl; [exact Hs|].
  intros b c. by apply chain_typed_weaken.
Qed.

Lemma store_typed_core s s' : same_core s s' → store_typed s → store_typed s'.
Proof. intros []. apply store_typed_same; [done|lia]. Qed.

(** The bytes a commit installs. *)
Lemma merged_bytes_ok s txn eff merged b st :
  sm_wf (staged_writes txn) → store_typed s → txn_typed (next_txn s) txn →
  merged_writes_loop s txn eff (staged_writes txn) [] = Ret (Ok merged) →
  sm_get b (staged_writes txn) = Some st → bytes_ok (default (sw_bytes st) (sm_get b merged)).
Proof.
  intros Hwf Hs [_ Ht] Hm Hst. destruct (Ht b st Hst) as (_&Hok&_).
  apply merged_writes_loop_spec in Hm as (_&Hno&Hyes); [|done|apply seq_strict_nil].
  destruct (decide (latest_commit_seq s b <= high (t_snapshot txn))) as [Hle|Hgt].
  - by rewrite (Hno _ _ Hst Hle).
  - destruct (Hyes _ _ Hst ltac:(lia)) as (_&m&->&Hmb). cbn [default from_option id].
    eapply merge_bytes_ok; [| |exact Hok|exact Hmb]; by apply version_bytes_default_ok.
Qed.

Lemma installed_typed s seq txn merged s' :
  sm_wf (staged_writes txn) → store_typed s → txn_typed (next_txn s) txn →
  merged_writes_after_preflight s txn = Ret (Ok merged) → installed s seq txn merged s' →
  store_typed s'.
Proof.
  intros Hwf Hs Ht Hm Hin b c Hc. rewrite (ins_next_txn _ _ _ _ _ Hin).
  rewrite (ins_versions _ _ _ _ _ Hin) in Hc.
  destruct (sm_get b (staged_writes txn)) as [st|] eqn:Hst; [|by apply Hs].
  injection Hc as <-. unfold installed_chain, installed_version. simpl.
  destruct Ht as [Hid Ht]. destruct (Ht b st Hst) as (Hb&_&_).
  assert (chain_typed (next_txn s) b (default [] (versions s !! b) ++
    [mkVersion b seq (t_id txn) (version_data_for (compression_policy s) (default [] (versions s !! b))
       (default (sw_bytes st) (sm_get b merged)))])) as Hp.
  { apply chain_typed_push; [done..|by eapply merged_bytes_ok|].
    destruct (versions s !! b) as [c0|] eqn:Hc0; [right; by apply Hs|by left]. }
  destruct (max_chain_length _); [by apply chain_typed_trim|done].
Qed.

Lemma txn_typed_weaken nt nt' t : nt <= nt' → txn_typed nt t → txn_typed nt' t.
Proof. intros Hn [? ?]. split; [lia|done]. Qed.

Lemma apply_fcw_commit_typed s txn s' r :
  sm_wf (staged_writes txn) → store_typed s → txn_typed (next_txn s) txn →
  apply_fcw_commit s txn = Ret (s', r) → store_typed s'.
Proof.
  intros Hwf Hs Ht Ha. apply apply_fcw_commit_cases in Ha; [|done]. destruct r as [[seq def]|e]; [|by subst].
  destruct Ha as (merged&Hm&Hin&_). by eapply installed_typed.
Qed.

Lemma commit_fcw_internal_typed s txn time s' r :
  sm_wf (staged_writes txn) → timing_ok time → store_typed s → txn_typed (next_txn s) txn →
  commit_fcw_internal s txn time = Ret (s', r) → store_typed s'.
Proof.
  intros Hwf Htm Hs Ht Hc. apply commit_fcw_internal_cases in Hc as (sp&rp&_&Hcore&Hcase); [|done..].
  assert (store_typed sp) as Hsp by by eapply store_typed_core.
  destruct r as [[seq def]|e]; [|by subst]. destruct Hcase as (_&merged&Hm&Hin&_).
  eapply installed_typed; [done|exact Hsp| |exact Hm|exact Hin]. by rewrite (sc_next_txn _ _ Hcore).
Qed.

Lemma commit_ssi_internal_typed s txn time s' r :
  sm_wf (staged_writes txn) → timing_ok time → store_typed s → txn_typed (next_txn s) txn →
  commit_ssi_internal s txn time = Ret (s', r) → store_typed s'.
Proof.
  intros Hwf Htm Hs Ht Hc. apply commit_ssi_internal_cases in Hc as (sp&rp&_&Hcore&Hcase); [|done..].
  assert (store_typed sp) as Hsp by by eapply store_typed_core.
  destruct r as [[seq def]|e]; [|by subst]. destruct Hcase as (_&merged&checks&_&Hm&Hin&_).
  eapply installed_typed; [done|exact Hsp| |exact Hm|exact Hin]. by rewrite (sc_next_txn _ _ Hcore).
Qed.

Lemma finish_commit_typed {A} time n (p : MvccStore * res CommitError A) s' r :
  store_typed p.1 → finish_commit time n p = Ret (s', r) → store_typed s'.
Proof. intros Hs Hf. apply finish_commit_cases in Hf as (_&Hc&_). by eapply store_typed_core. Qed.

Lemma prune_typed s wm : store_typed s → store_typed (prune_versions_older_than s wm).
Proof.
  intros Hs. destruct (prune_versions_effect s wm) as (Hv&_&_&Hn&_). intros b c.
  rewrite Hv, Hn, lookup_fmap. intros (c0&Hc0&->)%fmap_Some. by apply chain_typed_prune, Hs.
Qed.

Lemma evict_typed s d : store_typed s → store_typed (evict_durable_chains s d).1.
Proof.
  intros Hs. unfold evict_durable_chains. cbn [fst]. case_if; intros b c; cbn;
    intros [Hc _]%map_lookup_filter_Some; by apply Hs.
Qed.

Lemma exec_typed o s s' :
  op_ok o → op_typed s o → store_wf s → store_typed s → exec o s = Ret s' → store_typed s'.
Proof.
  intros Hok Hty Hwf Hs. pose proof (store_typed_core _ _ (with_attempt_core s) Hs) as Hsa.
  pose proof (wf_next_txn _ Hwf).
  destruct o as [|t time|t time|t time|t time|t time|t time|t|snap|snap|wm| |a b c
    |wm|d|lc lt|p|c]; simpl in *;
    try (intros [= <-]);
    try match type of Hok with _ ∧ _ => destruct Hok as [Htxn Ht]; pose proof (proj1 Htxn) as Hst end;
    try done.
  - apply (store_typed_same s); [done|simpl; unfold saturating_add; lia|done].
  - intros ([s1 r]&Hp&->)%outcome_fmap_Ret. apply preflight_fcw_core in Hp; [|done].
    by eapply store_typed_core.
  - intros ([s1 r]&Hp&->)%outcome_fmap_Ret. apply outcome_bind_Ret in Hp as ([s2 r2]&Hc&Hf).
    apply commit_fcw_internal_typed in Hc; [|done..]. by eapply finish_commit_typed in Hf.
  - intros ([s1 r]&Hp&->)%outcome_fmap_Ret. apply outcome_bind_Ret in Hp as ([s2 r2]&Hc&Hf).
    apply apply_fcw_commit_typed in Hc; [|done..]. by eapply finish_commit_typed in Hf.
  - intros ([s1 r]&Hp&->)%outcome_fmap_Ret. apply outcome_bind_Ret in Hp as ([s2 r2]&Hc&Hf).
    apply commit_ssi_internal_typed in Hc; [|done..]. by eapply finish_commit_typed in Hf.
  - intros ([[s1 r] cs]&Hp&->)%outcome_fmap_Ret. apply outcome_bind_Ret in Hp as ([s2 r2]&Hc&Hf).
    apply outcome_bind_Ret in Hf as ([s3 r3]&Hf&[= -> -> _]).
    apply commit_fcw_internal_typed in Hc; [|done..]. by eapply finish_commit_typed in Hf.
  - intros ([[s1 r] cs]&Hp&->)%outcome_fmap_Ret. apply outcome_bind_Ret in Hp as ([s2 r2]&Hc&Hf).
    apply outcome_bind_Ret in Hf as ([s3 r3]&Hf&[= -> -> _]).
    apply commit_ssi_internal_typed in Hc; [|done..]. by eapply finish_commit_typed in Hf.
  - intros ([s1 r]&Hp&->)%outcome_fmap_Ret. revert Hp. unfold release_snapshot.
    repeat (case_match; simplify_eq/=; try done); by intros [= <- <-].
  - by apply prune_typed.
  - by apply prune_typed.
  - unfold run_gc_batch. destruct a; [done|]. simpl.
    destruct (negb b && c); by apply (store_typed_same (prune_versions_older_than (set_gc_throttled s false)
      (gc_watermark (set_gc_throttled s false)))), prune_typed.
  - by apply evict_typed.
  - apply (store_typed_same s); [done|simpl; lia|done].
Qed.

(** Each operation of a run is typed where it is run. *)
Fixpoint ops_typed (ops : list op) (s : MvccStore) : Prop :=
  match ops with
  | [] => True
  | o :: ops' => op_typed s o ∧ match exec o s with Ret s' => ops_typed ops' s' | Panic => True end
  end.

Lemma run_typed ops s s' :
  Forall op_ok ops → ops_typed ops s → store_wf s → store_typed s → run ops s = Ret s' → store_typed s'.
Proof.
  revert s. induction ops as [|o ops IH]; intros s Hok Hty Hwf Hs Hr; cbn [run] in Hr; [by injection Hr as <-|].
  apply Forall_cons in Hok as [Ho Hok]. apply outcome_bind_Ret in Hr as (s1&He&Hr).
  destruct Hty as [Hty Htys]. rewrite He in Htys.
  apply (IH s1); [done|done|by eapply exec_wf| |done]. by eapply exec_typed.
Qed.

(** The decidable form, for concrete runs. *)
Definition byteb (x : Z) : bool := (0 <=? x) && (x <? 256).
Definition stagedb (bs : Z * StagedWrite) : bool :=
  (0 <=? bs.1) && (bs.1 <=? u64_max) && forallb byteb (sw_bytes bs.2)
  && match sw_base bs.2 with Some base => forallb byteb base | None => true end.
Definition txn_typedb (nt : Z) (t : Transaction) : bool :=
  (0 <=? t_id t) && (t_id t <? nt) && forallb stagedb (staged_writes t).

Lemma sm_get_In {V} (k : Z) (v : V) m : sm_get k m = Some v → In (k, v) m.
Proof.
  induction m as [|[k' v'] m IH]; simpl; [done|]. destruct (Z.eqb_spec k k') as [->|]; [|auto].
  intros [= ->]. by left.
Qed.

Lemma txn_typedb_sound nt t : txn_typedb nt t = true → txn_typed nt t.
Proof.
  unfold txn_typedb, txn_typed. rewrite !andb_true_iff, Z.leb_le, Z.ltb_lt. intros [Hid Hall].
  split; [done|]. intros b st Hst. rewrite forallb_forall in Hall.
  specialize (Hall _ (sm_get_In _ _ _ Hst)). unfold stagedb in Hall. simpl in Hall.
  rewrite !andb_true_iff, !Z.leb_le in Hall. destruct Hall as [[[? ?] Hb] Hbase].
  split; [done|]. split; [by apply bytes_ok_check|]. intros base Hs. rewrite Hs in Hbase.
  by apply bytes_ok_check.
Qed.

Fixpoint ops_typedb (ops : list op) (s : MvccStore) : bool :=
  match ops with
  | [] => true
  | o :: ops' =>
      match o with
      | OpPreflight t _ | OpCommit t _ | OpCommitPrechecked t _ | OpCommitSsi t _
      | OpCommitCow t _ | OpCommitSsiCow t _ => txn_typedb (next_txn s) t
      | _ => true
      end && match exec o s with Ret s' => ops_typedb ops' s' | Panic => true end
  end.

Lemma ops_typedb_sound ops s : ops_typedb ops s = true → ops_typed ops s.
Proof.
  revert s. induction ops as [|o ops IH]; intros s; cbn [ops_typedb ops_typed]; [done|].
  intros [Ho Hr]%andb_true_iff. split; [|destruct (exec o s); auto].
  destruct o; simpl in *; done || by apply txn_typedb_sound.
Qed.

Lemma store_new_typed : store_typed store_new.
Proof. intros b c Hc. simpl in Hc. by apply lookup_empty_Some in Hc. Qed.

End preservation.
