(* ===== verification/StoreWitness.v ===== *)
(** * Store scenarios

    Concrete runs of the store that satisfy the hypotheses of the store
    theorems: an initial write, two writers of disjoint ranges of one block, a
    registered reader, a write-skew pair and an eviction. *)

From stdpp Require Import base sorting numbers gmap list.
From S2P Require Import Prelude Sorted Merge Chain Txn Policy Metrics Store StoreLemmas StoreInv.
From S2P Require Import StoreCorrect StoreLimits StorePreflight StoreTyped.

Local Open Scope Z_scope.

#[local] Existing Instance RleCodec.
#[local] Existing Instance InsertionSort.

(** First write of block 5, then two writers that both started at sequence 1. *)
Definition txn_a : Transaction :=
  mkTxn 1 (mkSnapshot 0) [(5, mkStaged [0; 0; 0; 0] Unsafe None)] [] [] [].
Definition txn_b : Transaction :=
  mkTxn 2 (mkSnapshot 1)
    [(5, mkStaged [0; 0; 0; 7] (IndependentKeys [mkRange 3 1]) None)] [] [] [].
Definition txn_c : Transaction :=
  mkTxn 3 (mkSnapshot 1)
    [(5, mkStaged [9; 0; 0; 0] (IndependentKeys [mkRange 0 1]) None)] [] [] [].
(** The same edit without a proof. *)
Definition txn_d : Transaction :=
  mkTxn 4 (mkSnapshot 1) [(5, mkStaged [9; 0; 0; 0] Unsafe None)] [] [] [].

(** A write-skew pair: each reads what the other writes. *)
Definition skew_1 : Transaction :=
  mkTxn 1 (mkSnapshot 0) [(8, mkStaged [1] Unsafe None)] [(7, 0)] [] [].
Definition skew_2 : Transaction :=
  mkTxn 2 (mkSnapshot 0) [(7, mkStaged [1] Unsafe None)] [(8, 0)] [] [].

Definition after (ops : list op) : MvccStore :=
  match run ops store_new with Ret s => s | Panic => store_new end.

Definition ops_a : list op := [OpCommit txn_a no_delay].
Definition ops_ab : list op := [OpCommit txn_a no_delay; OpCommit txn_b no_delay].
Definition ops_reader : list op := [OpCommit txn_a no_delay; OpRegister (mkSnapshot 1)].

Lemma no_delay_ok : timing_ok no_delay.
Proof. split; [done|]. intros b. simpl. lia. Qed.

Ltac ops_ok := repeat (constructor; [first [exact I | split; [check_wf|exact no_delay_ok]]|]); constructor.

Lemma after_wf ops : Forall op_ok ops → store_wf (after ops).
Proof.
  intros Hops. unfold after. destruct (run ops store_new) as [s|] eqn:E; [|apply store_new_wf].
  eapply run_wf; [exact Hops|apply store_new_wf|exact E].
Qed.

Lemma ops_a_ok : Forall op_ok ops_a.
Proof. ops_ok. Qed.
Lemma ops_ab_ok : Forall op_ok ops_ab.
Proof. ops_ok. Qed.
Lemma ops_reader_ok : Forall op_ok ops_reader.
Proof. ops_ok. Qed.

Definition store_of {A} (r : outcome (MvccStore * A)) : MvccStore :=
  match r with Ret (s, _) => s | Panic => store_new end.

(** A run whose result component is [a] has the store [store_of] it. *)
Lemma store_of_eq {A} (r : outcome (MvccStore * A)) a : snd <$> r = Ret a → r = Ret (store_of r, a).
Proof. destruct r as [[s a']|]; [|done]. by intros [= ->]. Qed.

Lemma reachable_store_wf_witness : store_wf (after ops_ab).
Proof.
  apply (reachable_store_wf ops_ab); [exact ops_ab_ok|].
  unfold after. destruct (run ops_ab store_new) eqn:E; [reflexivity|].
  vm_compute in E. discriminate.
Defined.


Lemma commit_installs_resolved_writes_witness :
  committed (after ops_ab) txn_c 3 (store_of (commit (after ops_ab) txn_c no_delay)).
Proof.
  apply (commit_installs_resolved_writes (after ops_ab) txn_c no_delay);
    [check_wf|exact no_delay_ok|exact (after_wf _ ops_ab_ok)|].
  apply store_of_eq. vm_compute. reflexivity.
Defined.

Lemma failed_commit_changes_nothing_witness :
  same_core (after ops_ab) (store_of (commit (after ops_ab) txn_d no_delay)).
Proof.
  apply (failed_commit_changes_nothing (after ops_ab) txn_d no_delay
    (store_of (commit (after ops_ab) txn_d no_delay)) (Conflict 5 1 2));
    [check_wf|exact no_delay_ok|exact (after_wf _ ops_ab_ok)|].
  left. apply store_of_eq. vm_compute. reflexivity.
Defined.

Lemma first_committer_wins_witness : latest_commit_seq store_new 5 <= 0.
Proof.
  refine (first_committer_wins store_new txn_a no_delay
    (store_of (commit store_new txn_a no_delay)) 1 5 (mkStaged [0; 0; 0; 0] Unsafe None)
    _ _ _ _ _ _);
    [check_wf|exact no_delay_ok|exact store_new_wf| |reflexivity|right; reflexivity].
  apply store_of_eq. vm_compute. reflexivity.
Defined.


Lemma ssi_pivot_never_commits_witness : ¬ is_pivot store_new skew_1.
Proof.
  refine (proj1 (ssi_pivot_never_commits store_new skew_1 no_delay
    (store_of (commit_ssi store_new skew_1 no_delay)) (Ok 1) _ _ _ _));
    [check_wf|exact no_delay_ok|exact store_new_wf|].
  apply store_of_eq. vm_compute. reflexivity.
Defined.





Lemma eviction_drops_only_durable_witness : latest_commit_seq (after ops_a) 5 <= 1.
Proof.
  apply (proj1 (eviction_drops_only_durable (after ops_a) 1 5 (after_wf _ ops_a_ok))).
  vm_compute. by left.
Defined.



Lemma commit_always_returns_witness : ∃ s' r, commit store_new txn_b no_delay = Ret (s', r).
Proof.
  apply (commit_always_returns store_new txn_b no_delay);
    [check_wf| |exact no_delay_ok|exact store_new_wf|].
  - intros b st. simpl. destruct (b =? 5); [|discriminate]. intros [= <-]. split; [|done].
    split; [|discriminate]. intros rs [= <-]. repeat constructor; vm_compute; congruence.
  - intros b h data. unfold version_bytes_at. simpl. by rewrite lookup_empty.
Defined.

(** Begun transactions: the store hands out numbers 1 and 2. *)
Definition ops_begun : list op :=
  [OpBegin; OpBegin; OpCommit txn_a no_delay; OpCommit txn_b no_delay; OpPruneSafe].

