(* ===== verification/Wal.v ===== *)
(** * Wal: the write-ahead log's record format ([ffs-mvcc/src/wal.rs])

    The byte-level codec of the commit log: the 16-byte file header and the
    length-prefixed, CRC-protected commit records.  Slices go through
    [outcome], so that the absence of panics is a theorem and not an
    assumption; formatted messages are kept as constructors.  The CRC-32C
    routine comes from a crate outside the sources: it is a class, whose only
    law is its return type.

    The central result is that the decoder accepts exactly the encoder's
    output ([decode_commit_iff_encoded]), and that a torn record is always
    recognised as torn. *)

From stdpp Require Import base sorting numbers gmap list.
From S2P Require Import Prelude.

Local Open Scope Z_scope.

(** ** CRC-32C *)

Class Crc32c : Type := {
  crc32c : bytes → Z;
  crc32c_u32 : ∀ b, 0 <= crc32c b <= u32_max;
}.

(** ** Constants and data *)

Definition WAL_MAGIC : Z := 0x4D564357.
Definition WAL_VERSION : Z := 1.
Definition CHECKSUM_TYPE_CRC32C : Z := 0.
Definition HEADER_SIZE : Z := 16.
Definition MIN_COMMIT_RECORD_SIZE : Z := 4 + 1 + 8 + 8 + 4 + 4.
Definition RECORD_TYPE_COMMIT : Z := 1.

Record WalWrite := mkWalWrite { ww_block : Z; ww_data : bytes }.

Record WalCommit := mkWalCommit {
  wc_commit_seq : Z;
  wc_txn_id : Z;
  wc_writes : list WalWrite;
}.

Record WalHeader := mkWalHeader {
  wh_magic : Z;
  wh_version : Z;
  wh_checksum_type : Z;
}.

#[global] Instance WalWrite_eq_dec : EqDecision WalWrite.
Proof. solve_decision. Defined.
#[global] Instance WalCommit_eq_dec : EqDecision WalCommit.
Proof. solve_decision. Defined.
#[global] Instance WalHeader_eq_dec : EqDecision WalHeader.
Proof. solve_decision. Defined.

Definition default_header : WalHeader :=
  mkWalHeader WAL_MAGIC WAL_VERSION CHECKSUM_TYPE_CRC32C.

(** The [FfsError::Format] messages of this file. *)
Inductive WalFormat :=
| HeaderTooShort (len : Z)
| MagicMismatch (magic : Z)
| UnsupportedVersion (version : Z)
| UnsupportedChecksum (checksum_type : Z)
| RecordSizeOverflow
| BodySizeOverflow
| TotalSizeOverflow
| RecordLengthExceedsU32
| TooManyWrites
| WriteLengthExceedsU32
| ReadOffsetOverflow
| ReadOutOfBounds (offset len : Z).

(** The reasons of [DecodeResult::Corrupted], those of the streaming decoder
    included. *)
Inductive Corruption :=
| BadRecordLength (e : WalFormat)
| ZeroLengthNonZeroTail
| RecordLengthTooSmall (record_len : Z)
| RecordLengthOverflow (record_len : Z)
| TooShortForCrc
| BadCrcField (e : WalFormat)
| CrcMismatch (stored computed : Z)
| TruncatedRecordType
| UnknownRecordType (t : Z)
| BadCommitSeq (e : WalFormat)
| BadTxnId (e : WalFormat)
| BadNumWrites (e : WalFormat)
| NumWritesExceedCapacity (num_writes max_possible_writes : Z)
| BadBlockNumber (i : Z) (e : WalFormat)
| BadDataLength (i : Z) (e : WalFormat)
| DataLengthOverflow (i : Z)
| WriteHeaderPastCrc (i : Z)
| DataPastCrc (i offset len crc_offset : Z)
| TrailingPayload (trailing : Z).

Inductive DecodeResult :=
| Commit (c : WalCommit)
| NeedMore (needed : Z)
| Corrupted (why : Corruption)
| EndOfData.

#[global] Instance WalFormat_eq_dec : EqDecision WalFormat.
Proof. solve_decision. Defined.
#[global] Instance Corruption_eq_dec : EqDecision Corruption.
Proof. solve_decision. Defined.
#[global] Instance DecodeResult_eq_dec : EqDecision DecodeResult.
Proof. solve_decision. Defined.

(** ** Field readers *)

Definition read_le (n : Z) (b : bytes) (offset : Z) : outcome (res WalFormat Z) :=
  match checked_add usize_max offset n with
  | None => Ret (Err ReadOffsetOverflow)
  | Some end_ =>
      if zlen b <? end_ then Ret (Err (ReadOutOfBounds offset (zlen b)))
      else arr ← slice b offset end_; Ret (Ok (le_value arr))
  end.

Definition read_le_u16 := read_le 2.
Definition read_le_u32 := read_le 4.
Definition read_le_u64 := read_le 8.

(** ** The file header *)

Definition encode_header (h : WalHeader) : outcome bytes :=
  let buf := replicate (Z.to_nat HEADER_SIZE) 0 in
  buf ← copy_range buf 0 4 (le_bytes 4 (wh_magic h));
  buf ← copy_range buf 4 6 (le_bytes 2 (wh_version h));
  copy_range buf 6 8 (le_bytes 2 (wh_checksum_type h)).

Definition decode_header (b : bytes) : outcome (res WalFormat WalHeader) :=
  if zlen b <? HEADER_SIZE then Ret (Err (HeaderTooShort (zlen b)))
  else
    magic ← read_le_u32 b 0;
    match magic with
    | Err e => Ret (Err e)
    | Ok magic =>
      if negb (magic =? WAL_MAGIC) then Ret (Err (MagicMismatch magic))
      else
        version ← read_le_u16 b 4;
        match version with
        | Err e => Ret (Err e)
        | Ok version =>
          if negb (version =? WAL_VERSION) then Ret (Err (UnsupportedVersion version))
          else
            checksum_type ← read_le_u16 b 6;
            match checksum_type with
            | Err e => Ret (Err e)
            | Ok checksum_type =>
              if negb (checksum_type =? CHECKSUM_TYPE_CRC32C)
              then Ret (Err (UnsupportedChecksum checksum_type))
              else Ret (Ok (mkWalHeader magic version checksum_type))
            end
        end
    end.

(** ** Encoding a commit *)

(** The size pass over the writes. *)
Fixpoint writes_size (data_size : Z) (ws : list WalWrite) : res WalFormat Z :=
  match ws with
  | [] => Ok data_size
  | w :: ws' =>
      match s ← checked_add usize_max data_size (8 + 4);
            checked_add usize_max s (zlen (ww_data w)) with
      | Some data_size' => writes_size data_size' ws'
      | None => Err RecordSizeOverflow
      end
  end.

(** The pass that appends the writes to the buffer. *)
Fixpoint encode_writes (buf : bytes) (ws : list WalWrite) : res WalFormat bytes :=
  match ws with
  | [] => Ok buf
  | w :: ws' =>
      if zlen (ww_data w) <=? u32_max
      then encode_writes
             (buf ++ le_bytes 8 (ww_block w) ++ le_bytes 4 (zlen (ww_data w)) ++ ww_data w) ws'
      else Err WriteLengthExceedsU32
  end.

Definition encode_commit `{Crc32c} (c : WalCommit) : outcome (res WalFormat bytes) :=
  match writes_size 0 (wc_writes c) with
  | Err e => Ret (Err e)
  | Ok data_size =>
    match s ← checked_add usize_max 1 8;
          s ← checked_add usize_max s 8;
          s ← checked_add usize_max s 4;
          s ← checked_add usize_max s data_size;
          checked_add usize_max s 4 with
    | None => Ret (Err BodySizeOverflow)
    | Some body_size =>
      match checked_add usize_max 4 body_size with
      | None => Ret (Err TotalSizeOverflow)
      | Some _ =>
        if negb (body_size <=? u32_max) then Ret (Err RecordLengthExceedsU32)
        else
          let buf := le_bytes 4 body_size ++ [RECORD_TYPE_COMMIT] ++
                     le_bytes 8 (wc_commit_seq c) ++ le_bytes 8 (wc_txn_id c) in
          if negb (zlen (wc_writes c) <=? u32_max) then Ret (Err TooManyWrites)
          else
            match encode_writes (buf ++ le_bytes 4 (zlen (wc_writes c))) (wc_writes c) with
            | Err e => Ret (Err e)
            | Ok buf =>
              covered ← slice_from buf 4;
              Ret (Ok (buf ++ le_bytes 4 (crc32c covered)))
            end
      end
    end
  end.

(** ** Decoding a commit *)

(** The body of the [for i in 0..num_writes] loop: one write and the offset
    after it. *)
Definition decode_write (body : bytes) (crc_offset i offset : Z) :
    outcome (res Corruption (WalWrite * Z)) :=
  block ← read_le_u64 body offset;
  match block with
  | Err e => Ret (Err (BadBlockNumber i e))
  | Ok block =>
    let offset := offset + 8 in
    data_len ← read_le_u32 body offset;
    match data_len with
    | Err e => Ret (Err (BadDataLength i e))
    | Ok data_len =>
      let offset := offset + 4 in
      match checked_add usize_max offset data_len with
      | None => Ret (Err (DataLengthOverflow i))
      | Some data_end =>
        if crc_offset <? data_end
        then Ret (Err (DataPastCrc i offset data_len crc_offset))
        else
          data ← slice body offset data_end;
          Ret (Ok (mkWalWrite block data, data_end))
      end
    end
  end.

(** The loop: [n] writes are left, [i] is the index of the next. *)
Fixpoint decode_writes (body : bytes) (crc_offset i offset : Z) (writes : list WalWrite)
    (n : nat) : outcome (res Corruption (list WalWrite * Z)) :=
  match n with
  | O => Ret (Ok (writes, offset))
  | S n' =>
      w ← decode_write body crc_offset i offset;
      match w with
      | Err e => Ret (Err e)
      | Ok (w, offset) => decode_writes body crc_offset (i + 1) offset (writes ++ [w]) n'
      end
  end.

(** From "Parse the record body" to the end of [decode_commit]. *)
Definition decode_body (body : bytes) (crc_offset : Z) : outcome DecodeResult :=
  if crc_offset <=? 0 then Ret (Corrupted TruncatedRecordType)
  else
    record_type ← index body 0;
    if negb (record_type =? RECORD_TYPE_COMMIT) then Ret (Corrupted (UnknownRecordType record_type))
    else
      commit_seq ← read_le_u64 body 1;
      match commit_seq with
      | Err e => Ret (Corrupted (BadCommitSeq e))
      | Ok commit_seq =>
        txn_id ← read_le_u64 body 9;
        match txn_id with
        | Err e => Ret (Corrupted (BadTxnId e))
        | Ok txn_id =>
          num_writes ← read_le_u32 body 17;
          match num_writes with
          | Err e => Ret (Corrupted (BadNumWrites e))
          | Ok num_writes =>
            let offset := 21 in
            let remaining_body := saturating_sub crc_offset offset in
            let max_possible_writes := remaining_body / 12 in
            if max_possible_writes <? num_writes
            then Ret (Corrupted (NumWritesExceedCapacity num_writes max_possible_writes))
            else
              parsed ← decode_writes body crc_offset 0 offset [] (Z.to_nat num_writes);
              match parsed with
              | Err e => Ret (Corrupted e)
              | Ok (writes, offset) =>
                if negb (offset =? crc_offset)
                then Ret (Corrupted (TrailingPayload (saturating_sub crc_offset offset)))
                else Ret (Commit (mkWalCommit commit_seq txn_id writes))
              end
          end
        end
      end.

Definition decode_commit `{Crc32c} (b : bytes) : outcome DecodeResult :=
  if zlen b =? 0 then Ret EndOfData
  else if zlen b <? 4 then Ret (NeedMore 4)
  else
    record_len ← read_le_u32 b 0;
    match record_len with
    | Err e => Ret (Corrupted (BadRecordLength e))
    | Ok record_len =>
      if record_len =? 0 then
        tail ← slice_from b 4;
        if existsb (λ x, negb (x =? 0)) tail
        then Ret (Corrupted ZeroLengthNonZeroTail)
        else Ret EndOfData
      else if record_len <? MIN_COMMIT_RECORD_SIZE - 4
      then Ret (Corrupted (RecordLengthTooSmall record_len))
      else
        match checked_add usize_max 4 record_len with
        | None => Ret (Corrupted (RecordLengthOverflow record_len))
        | Some total_size =>
          if zlen b <? total_size then Ret (NeedMore total_size)
          else
            record_bytes ← slice b 0 total_size;
            body_bytes ← slice_from record_bytes 4;
            if zlen body_bytes <? 4 then Ret (Corrupted TooShortForCrc)
            else
              let crc_offset := zlen body_bytes - 4 in
              stored_crc ← read_le_u32 body_bytes crc_offset;
              match stored_crc with
              | Err e => Ret (Corrupted (BadCrcField e))
              | Ok stored_crc =>
                covered ← slice body_bytes 0 crc_offset;
                let computed_crc := crc32c covered in
                if negb (stored_crc =? computed_crc)
                then Ret (Corrupted (CrcMismatch stored_crc computed_crc))
                else decode_body body_bytes crc_offset
              end
        end
    end.

Definition commit_byte_size (b : bytes) : outcome (option Z) :=
  if zlen b <? 4 then Ret None
  else
    record_len ← read_le_u32 b 0;
    match record_len with
    | Err _ => Ret None
    | Ok record_len =>
        if record_len =? 0 then Ret None else Ret (checked_add usize_max 4 record_len)
    end.

#[local] Opaque le_bytes.

(** ** The images of a record

    What the encoder writes, as one expression. *)

Definition write_image (w : WalWrite) : bytes :=
  le_bytes 8 (ww_block w) ++ le_bytes 4 (zlen (ww_data w)) ++ ww_data w.

Definition writes_image (ws : list WalWrite) : bytes := concat (write_image <$> ws).

Definition payload (c : WalCommit) : bytes :=
  [RECORD_TYPE_COMMIT] ++ le_bytes 8 (wc_commit_seq c) ++ le_bytes 8 (wc_txn_id c) ++
  le_bytes 4 (zlen (wc_writes c)) ++ writes_image (wc_writes c).

Definition record_image `{Crc32c} (c : WalCommit) : bytes :=
  le_bytes 4 (zlen (payload c) + 4) ++ payload c ++ le_bytes 4 (crc32c (payload c)).

(** The types of a commit's fields: [u64] numbers and byte strings. *)
Definition write_ok (w : WalWrite) : Prop := 0 <= ww_block w <= u64_max ∧ bytes_ok (ww_data w).
Definition commit_ok (c : WalCommit) : Prop :=
  0 <= wc_commit_seq c <= u64_max ∧ 0 <= wc_txn_id c <= u64_max ∧ Forall write_ok (wc_writes c).

(** A record's length field is a [u32]. *)
Definition encodable (c : WalCommit) : Prop := zlen (payload c) + 4 <= u32_max.

Lemma zlen_write_image w : zlen (write_image w) = 12 + zlen (ww_data w).
Proof. unfold write_image. autorewrite with zlen. lia. Qed.

Lemma writes_image_cons w ws : writes_image (w :: ws) = write_image w ++ writes_image ws.
Proof. done. Qed.

Lemma zlen_payload c : zlen (payload c) = 21 + zlen (writes_image (wc_writes c)).
Proof. unfold payload. autorewrite with zlen. lia. Qed.

Lemma zlen_record_image `{Crc32c} c : zlen (record_image c) = zlen (payload c) + 8.
Proof. unfold record_image. autorewrite with zlen. lia. Qed.

Lemma writes_image_count ws : 12 * zlen ws <= zlen (writes_image ws).
Proof.
  induction ws as [|w ws IH]; [done|].
  rewrite writes_image_cons, zlen_app, zlen_cons, zlen_write_image.
  pose proof (zlen_nonneg (ww_data w)). lia.
Qed.

Lemma writes_image_data ws w : w ∈ ws → zlen (ww_data w) <= zlen (writes_image ws).
Proof.
  induction 1 as [w ws|w v ws _ IH]; rewrite writes_image_cons, zlen_app, zlen_write_image;
    [pose proof (zlen_nonneg (writes_image ws)) | pose proof (zlen_nonneg (ww_data v))]; lia.
Qed.

Lemma write_image_ok w : write_ok w → bytes_ok (write_image w).
Proof.
  intros [_ ?]. unfold write_image, bytes_ok. rewrite !Forall_app.
  split_and!; done || apply le_bytes_ok.
Qed.

Lemma writes_image_ok ws : Forall write_ok ws → bytes_ok (writes_image ws).
Proof.
  induction 1 as [|w ws Hw _ IH]; [constructor|].
  rewrite writes_image_cons. apply Forall_app_2; [by apply write_image_ok | done].
Qed.

Lemma payload_ok c : commit_ok c → bytes_ok (payload c).
Proof.
  intros (_&_&Hw). unfold payload, bytes_ok. rewrite !Forall_app.
  split_and!; try apply le_bytes_ok; [by repeat constructor | by apply writes_image_ok].
Qed.

(** *** The encoder produces the image *)

Lemma writes_size_Ok s ws x : 0 <= s <= usize_max →
  writes_size s ws = Ok x ↔ x = s + zlen (writes_image ws) ∧ x <= usize_max.
Proof.
  revert s. induction ws as [|w ws IH]; intros s Hs.
  { rewrite Z.add_0_r. simpl. split; [intros [= <-]; lia | by intros [-> _]]. }
  rewrite writes_image_cons, zlen_app, zlen_write_image. simpl.
  pose proof (zlen_nonneg (ww_data w)). pose proof (zlen_nonneg (writes_image ws)).
  unfold checked_add. case_if; simpl; [|split; [done | lia]].
  case_if; simpl; [|split; [done | lia]].
  rewrite IH by lia. split; lia.
Qed.

Lemma encode_writes_Ok buf ws b :
  encode_writes buf ws = Ok b ↔
  Forall (λ w, zlen (ww_data w) <= u32_max) ws ∧ b = buf ++ writes_image ws.
Proof.
  revert buf. induction ws as [|w ws IH]; intros buf; simpl.
  { rewrite app_nil_r, Forall_nil. naive_solver. }
  rewrite Forall_cons. case_if; [|naive_solver lia].
  rewrite IH, writes_image_cons. unfold write_image. rewrite <-!app_assoc. naive_solver.
Qed.

Lemma encodable_lengths c : encodable c →
  zlen (wc_writes c) <= u32_max ∧ Forall (λ w, zlen (ww_data w) <= u32_max) (wc_writes c).
Proof.
  unfold encodable. rewrite zlen_payload. intros He. split.
  - pose proof (writes_image_count (wc_writes c)). pose proof (zlen_nonneg (wc_writes c)). lia.
  - apply Forall_forall. intros w Hw%writes_image_data. lia.
Qed.

(** The five [checked_add]s of the body size. *)
Lemma body_size_checked n : 0 <= n <= usize_max →
  (s ← checked_add usize_max 1 8; s ← checked_add usize_max s 8;
   s ← checked_add usize_max s 4; s ← checked_add usize_max s n;
   checked_add usize_max s 4) = checked_add usize_max 25 n.
Proof.
  intros Hn. unfold checked_add. simpl. change (1 + 8 + 8 + 4) with 21.
  destruct (21 + n <=? usize_max) eqn:E1; simpl; bool_to_prop;
    [rewrite (Z.add_comm 25); replace (21 + n + 4) with (n + 25) by lia; done|].
  by rewrite (proj2 (Z.leb_gt _ _)) by lia.
Qed.

(** The encoder succeeds exactly on the encodable commits, with their image. *)
Lemma encode_commit_image `{Crc32c} c :
  encodable c → encode_commit c = Ret (Ok (record_image c)).
Proof.
  intros He. pose proof (encodable_lengths c He) as [Hl Hd].
  pose proof (zlen_nonneg (writes_image (wc_writes c))) as Hn.
  unfold encodable in He. rewrite zlen_payload in He. unfold encode_commit.
  assert (writes_size 0 (wc_writes c) = Ok (zlen (writes_image (wc_writes c)))) as ->.
  { apply writes_size_Ok; unfold usize_max, u64_max, u32_max in *; lia. }
  rewrite body_size_checked by (unfold usize_max, u64_max, u32_max in *; lia).
  unfold checked_add. rewrite (proj2 (Z.leb_le _ _)) by (unfold usize_max, u64_max, u32_max in *; lia).
  rewrite (proj2 (Z.leb_le _ _)) by (unfold usize_max, u64_max, u32_max in *; lia).
  rewrite (proj2 (Z.leb_le _ _)) by lia. rewrite (proj2 (Z.leb_le _ _)) by lia. cbn [negb].
  rewrite (proj2 (encode_writes_Ok _ _ _) (conj Hd eq_refl)).
  unfold record_image. rewrite zlen_payload. unfold payload. rewrite <-!app_assoc.
  rewrite slice_from_app by apply zlen_le_bytes. cbn [mbind outcome_bind].
  rewrite <-!app_assoc. do 4 f_equal. lia.
Qed.

Lemma encode_commit_Ok `{Crc32c} c b :
  encode_commit c = Ret (Ok b) ↔ encodable c ∧ b = record_image c.
Proof.
  split; [|intros [He ->]; by apply encode_commit_image].
  intros Hok. assert (encodable c) as He.
  { unfold encode_commit in Hok.
    destruct (writes_size 0 (wc_writes c)) as [sz|] eqn:Esz; [|done].
    apply writes_size_Ok in Esz as [-> Hsz]; [|by vm_compute].
    pose proof (zlen_nonneg (writes_image (wc_writes c))) as Hn.
    rewrite body_size_checked in Hok by lia. unfold checked_add in Hok.
    case_if_in Hok; [|done]. case_if_in Hok; [|done].
    unfold encodable. rewrite zlen_payload. destruct (_ <=? u32_max) eqn:E; [|done].
    bool_to_prop. lia. }
  rewrite encode_commit_image in Hok by done. by injection Hok as <-.
Qed.

(** *** The decoder reads the image back *)

Lemma read_le_Ok n b off v : 0 <= n →
  read_le n b off = Ret (Ok v) ↔
  off + n <= usize_max ∧ ∃ f, slice b off (off + n) = Ret f ∧ v = le_value f.
Proof.
  intros Hn. unfold read_le, checked_add. case_if; [|naive_solver lia]. case_if.
  - split; [done|]. intros (_&f&(_&?&_)%slice_Ret&_). lia.
  - destruct (slice b off (off + n)); simpl; naive_solver.
Qed.

(** The readers never panic: a bad range is an error value. *)
Lemma read_le_total n b off : 0 <= off → 0 <= n → ∃ r, read_le n b off = Ret r.
Proof.
  intros Ho Hn. unfold read_le. destruct (checked_add _ _ _) as [e|] eqn:E; [|eauto].
  unfold checked_add in E. case_if_in E; [|done]. injection E as <-.
  case_if; [eauto|]. rewrite slice_ok by lia. eauto.
Qed.

(** A field of [n] little-endian bytes holds [v] exactly where [v]'s encoding lies. *)
Lemma read_field (n : nat) b off v : bytes_ok b → zlen b <= usize_max →
  read_le (Z.of_nat n) b off = Ret (Ok v) ↔
  slice b off (off + Z.of_nat n) = Ret (le_bytes n v) ∧ 0 <= v < 256 ^ Z.of_nat n.
Proof.
  intros Hb Hl. rewrite read_le_Ok by lia. split.
  - intros (_&f&Hf&->). pose proof (slice_length _ _ _ _ Hf).
    destruct (le_field n f) as [? ->]; [by eapply slice_bytes_ok | unfold zlen in *; lia|done].
  - intros [Hf ?]. split; [apply slice_Ret in Hf; lia|].
    exists (le_bytes n v). by rewrite le_value_bytes.
Qed.

Lemma read_u64 b off v : bytes_ok b → zlen b <= usize_max →
  read_le_u64 b off = Ret (Ok v) ↔
  slice b off (off + 8) = Ret (le_bytes 8 v) ∧ 0 <= v <= u64_max.
Proof.
  intros. unfold read_le_u64. rewrite (read_field 8 b off v) by done.
  change (256 ^ Z.of_nat 8) with (u64_max + 1). intuition lia.
Qed.

Lemma read_u32 b off v : bytes_ok b → zlen b <= usize_max →
  read_le_u32 b off = Ret (Ok v) ↔
  slice b off (off + 4) = Ret (le_bytes 4 v) ∧ 0 <= v <= u32_max.
Proof.
  intros. unfold read_le_u32. rewrite (read_field 4 b off v) by done.
  change (256 ^ Z.of_nat 4) with (u32_max + 1). intuition lia.
Qed.

Lemma decode_write_Ok body crc i off w e :
  bytes_ok body → zlen body <= u32_max + 4 → crc <= u32_max → 0 <= off →
  decode_write body crc i off = Ret (Ok (w, e)) ↔
  write_ok w ∧ e <= crc ∧ slice body off e = Ret (write_image w).
Proof.
  intros Hb Hl Hc Ho.
  assert (zlen body <= usize_max) by (unfold usize_max, u64_max, u32_max in *; lia).
  unfold decode_write, write_image. split.
  - intros (r&Hr&Hd)%outcome_bind_Ret. destruct r as [block|]; [|done].
    apply read_u64 in Hr as [Hr ?]; [|done..].
    apply outcome_bind_Ret in Hd as (r&Hr'&Hd). destruct r as [len|]; [|done].
    apply read_u32 in Hr' as [Hr' ?]; [|done..].
    unfold checked_add in Hd. case_if_in Hd; [|done]. case_if_in Hd; [done|].
    apply outcome_bind_Ret in Hd as (data&Hs&[= <- <-]). simpl.
    pose proof (slice_length _ _ _ _ Hs).
    split_and!; [split; [done | by eapply slice_bytes_ok] | lia |].
    replace (zlen data) with len by lia.
    rewrite !slice_app_iff, !zlen_le_bytes. auto.
  - intros ([Hw Hwb]&He&Hs). rewrite !slice_app_iff, !zlen_le_bytes in Hs.
    destruct Hs as (H1&H2&H3). pose proof (slice_length _ _ _ _ H3).
    pose proof (zlen_nonneg (ww_data w)).
    rewrite (proj2 (read_u64 body off (ww_block w) Hb ltac:(done))) by done. simpl.
    rewrite (proj2 (read_u32 body (off + 8) (zlen (ww_data w)) Hb ltac:(done))) by (split; [done|lia]).
    simpl. unfold checked_add.
    rewrite (proj2 (Z.leb_le _ _)) by (unfold usize_max, u64_max, u32_max in *; lia).
    rewrite (proj2 (Z.ltb_ge _ _)) by lia. change (Z.of_nat 8) with 8 in *.
    change (Z.of_nat 4) with 4 in *.
    replace (off + 8 + 4 + zlen (ww_data w)) with e by lia.
    rewrite H3. simpl. by destruct w.
Qed.

Lemma decode_writes_Ok body crc i off ws n ws' e :
  bytes_ok body → zlen body <= u32_max + 4 → crc <= u32_max → 0 <= off <= crc →
  crc <= zlen body →
  decode_writes body crc i off ws n = Ret (Ok (ws', e)) ↔
  ∃ new, ws' = ws ++ new ∧ length new = n ∧ Forall write_ok new ∧ e <= crc ∧
         slice body off e = Ret (writes_image new).
Proof.
  intros Hb Hl Hc Ho Hcb. revert i off ws Ho.
  induction n as [|n IH]; intros i off ws Ho; simpl.
  { split.
    - intros [= <- <-]. exists []. rewrite app_nil_r. split_and!; [done..|constructor|lia|].
      apply slice_Ret. rewrite Z.sub_diag. split_and!; [lia..|done].
    - intros (new&->&->%nil_length_inv&_&_&Hs%slice_length). rewrite app_nil_r.
      do 3 f_equal. change (zlen (writes_image [])) with 0 in Hs. lia. }
  split.
  - intros (r&Hr&Hd)%outcome_bind_Ret. destruct r as [[w off']|]; [|done].
    apply decode_write_Ok in Hr as (Hw&He&Hs); [|done || lia..].
    pose proof (slice_length _ _ _ _ Hs) as Hsl. pose proof (zlen_nonneg (write_image w)).
    apply IH in Hd as (new&->&<-&?&?&Hs'); [|lia].
    exists (w :: new). rewrite <-app_assoc. split_and!; [done..|by constructor|done|].
    rewrite writes_image_cons, slice_app_iff.
    replace (off + zlen (write_image w)) with off' by lia. done.
  - intros ([|w new]&->&Hn&Hw&?&Hs); [done|]. injection Hn as Hn.
    rewrite writes_image_cons, slice_app_iff in Hs. destruct Hs as [Hs Hs'].
    apply Forall_cons in Hw as [Hw Hws].
    pose proof (slice_length _ _ _ _ Hs'). pose proof (zlen_nonneg (writes_image new)).
    pose proof (zlen_nonneg (write_image w)).
    rewrite (proj2 (decode_write_Ok body crc i off w (off + zlen (write_image w))
                      Hb Hl Hc ltac:(lia))) by (split_and!; [done|lia|done]).
    simpl. apply IH; [lia|]. exists new. rewrite <-app_assoc. done.
Qed.

Lemma index_slice {A} (l : list A) i x : index l i = Ret x ↔ slice l i (i + 1) = Ret [x].
Proof.
  rewrite index_Ret, slice_Ret, Z.add_simpl_l. split.
  - intros [Hi Hx]. pose proof (lookup_lt_Some _ _ _ Hx). unfold zlen.
    split_and!; [lia..|]. by rewrite (drop_S _ _ _ Hx).
  - intros (?&?&Hx). split; [lia|]. rewrite <-(Nat.add_0_r (Z.to_nat i)), <-lookup_drop.
    destruct (drop (Z.to_nat i) l); simpl in *; congruence.
Qed.

Lemma decode_body_Commit body crc c :
  bytes_ok body → zlen body = crc + 4 → 21 <= crc → zlen body <= u32_max →
  decode_body body crc = Ret (Commit c) ↔ commit_ok c ∧ slice body 0 crc = Ret (payload c).
Proof.
  intros Hb Hl Hc Hu.
  assert (zlen body <= usize_max) as Hz by (unfold usize_max, u64_max, u32_max in *; lia).
  unfold decode_body, payload, commit_ok. rewrite (proj2 (Z.leb_gt _ _)) by lia.
  rewrite !slice_app_iff, !zlen_le_bytes.
  change (0 + zlen [RECORD_TYPE_COMMIT]) with 1.
  change (1 + Z.of_nat 8) with 9. change (9 + Z.of_nat 8) with 17.
  change (17 + Z.of_nat 4) with 21. split.
  - intros (t&Ht&Hd)%outcome_bind_Ret. apply index_slice in Ht.
    destruct (Z.eqb_spec t RECORD_TYPE_COMMIT) as [->|]; [|done]. simpl in Hd.
    apply outcome_bind_Ret in Hd as (r&H1&Hd). destruct r as [seq|]; [|done].
    apply outcome_bind_Ret in Hd as (r&H2&Hd). destruct r as [txn|]; [|done].
    apply outcome_bind_Ret in Hd as (r&H3&Hd). destruct r as [n|]; [|done].
    apply read_u64 in H1 as [H1 ?], H2 as [H2 ?]; [|done..].
    apply read_u32 in H3 as [H3 ?]; [|done..].
    case_if_in Hd; [done|]. apply outcome_bind_Ret in Hd as (r&Hws&Hd).
    destruct r as [[ws e]|]; [|done].
    apply decode_writes_Ok in Hws as (new&->&Hn&?&?&Hs); [|done || lia..].
    destruct (Z.eqb_spec e crc) as [->|]; [|done]. injection Hd as <-. simpl.
    replace (zlen new) with n by (unfold zlen; lia). done.
  - intros ((Hq&Hx&Hw)&Ht&H1&H2&H3&H4). rewrite (proj2 (index_slice _ _ _) Ht). simpl.
    pose proof (writes_image_count (wc_writes c)). pose proof (slice_length _ _ _ _ H4).
    pose proof (zlen_nonneg (wc_writes c)).
    rewrite (proj2 (read_u64 body 1 _ Hb Hz)) by done. simpl.
    rewrite (proj2 (read_u64 body 9 _ Hb Hz)) by done. simpl.
    rewrite (proj2 (read_u32 body 17 (zlen (wc_writes c)) Hb Hz)) by (split; [done|lia]). simpl.
    unfold saturating_sub. rewrite (proj2 (Z.ltb_ge _ _))
      by (apply Z.div_le_lower_bound; lia).
    rewrite (proj2 (decode_writes_Ok body crc 0 21 [] (Z.to_nat (zlen (wc_writes c)))
       (wc_writes c) crc Hb ltac:(lia) ltac:(lia) ltac:(lia) ltac:(lia))).
    2:{ exists (wc_writes c). unfold zlen. rewrite Nat2Z.id. split_and!; done || lia. }
    simpl. rewrite Z.eqb_refl. simpl. by destruct c.
Qed.

(** The framing of a record: length, body, CRC. *)
Lemma decode_commit_framed `{Crc32c} b c :
  bytes_ok b → zlen b <= usize_max →
  decode_commit b = Ret (Commit c) ↔
  ∃ n body, 25 <= n <= u32_max ∧ slice b 0 4 = Ret (le_bytes 4 n) ∧
    slice b 4 (4 + n) = Ret body ∧
    (∃ covered, slice body 0 (n - 4) = Ret covered ∧
       slice body (n - 4) n = Ret (le_bytes 4 (crc32c covered))) ∧
    decode_body body (n - 4) = Ret (Commit c).
Proof.
  intros Hb Hz. unfold decode_commit. split.
  - case_if; [done|]. case_if; [done|].
    intros (r&Hr&Hd)%outcome_bind_Ret. destruct r as [n|]; [|done].
    apply read_u32 in Hr as [Hr Hn]; [|done..].
    case_if_in Hd.
    { apply outcome_bind_Ret in Hd as (?&_&Hd). by case_if_in Hd. }
    case_if_in Hd; [done|]. change (MIN_COMMIT_RECORD_SIZE - 4) with 25 in *.
    unfold checked_add in Hd. case_if_in Hd; [|done]. case_if_in Hd; [done|].
    apply outcome_bind_Ret in Hd as (rec&Hrec&Hd).
    apply outcome_bind_Ret in Hd as (body&Hbody&Hd).
    apply (slice_of_prefix _ _ _ _ _ Hrec) in Hbody as Hbb.
    pose proof (slice_length _ _ _ _ Hbb) as Hbl. replace (zlen body) with n in Hd by lia.
    case_if_in Hd; [lia|].
    assert (bytes_ok body) by by eapply slice_bytes_ok.
    assert (zlen body <= usize_max) by (unfold usize_max, u64_max, u32_max in *; lia).
    apply outcome_bind_Ret in Hd as (r&Hcrc&Hd). destruct r as [stored|]; [|done].
    apply read_u32 in Hcrc as [Hcrc _]; [|done..].
    apply outcome_bind_Ret in Hd as (cov&Hcov&Hd).
    destruct (Z.eqb_spec stored (crc32c cov)) as [->|]; [|done].
    replace (n - 4 + 4) with n in Hcrc by lia.
    exists n, body. split_and!; try done; [lia..|]. eauto.
  - intros (n&body&Hn&Hlen&Hbody&(cov&Hcov&Hcrc)&Hd).
    pose proof (slice_length _ _ _ _ Hbody) as Hbl.
    assert (4 + n <= zlen b) by (apply slice_Ret in Hbody; lia).
    assert (zlen body <= usize_max) by (unfold usize_max, u64_max, u32_max in *; lia).
    do 2 (rewrite (proj2 (Z.eqb_neq _ _)) || rewrite (proj2 (Z.ltb_ge _ _)); [|lia..]).
    rewrite (proj2 (read_u32 b 0 n Hb Hz)) by (split; [done|lia]). simpl.
    rewrite (proj2 (Z.eqb_neq _ _)) by lia. change (MIN_COMMIT_RECORD_SIZE - 4) with 25.
    rewrite (proj2 (Z.ltb_ge _ _)) by lia.
    unfold checked_add. rewrite (proj2 (Z.leb_le _ _)) by lia.
    rewrite (proj2 (Z.ltb_ge _ _)) by lia.
    destruct (slice b 0 (4 + n)) as [rec|] eqn:Hrec; [|rewrite slice_ok in Hrec by lia; done].
    simpl. rewrite (proj2 (slice_of_prefix _ _ _ _ _ Hrec) Hbody). simpl.
    replace (zlen body) with n by lia. rewrite (proj2 (Z.ltb_ge _ _)) by lia.
    rewrite (proj2 (read_u32 body (n - 4) (crc32c cov) ltac:(by eapply slice_bytes_ok) ltac:(done))).
    2:{ replace (n - 4 + 4) with n by lia. split; [done | apply crc32c_u32]. }
    simpl. rewrite Hcov. simpl. by rewrite Z.eqb_refl.
Qed.

Lemma payload_min c : 21 <= zlen (payload c).
Proof. rewrite zlen_payload. pose proof (zlen_nonneg (writes_image (wc_writes c))). lia. Qed.

(** The decoder accepts exactly the images, whatever follows them. *)
Lemma decode_commit_image `{Crc32c} b c :
  bytes_ok b → zlen b <= usize_max →
  decode_commit b = Ret (Commit c) ↔
  commit_ok c ∧ encodable c ∧ ∃ rest, b = record_image c ++ rest.
Proof.
  intros Hb Hz. rewrite decode_commit_framed by done. split.
  - intros (n&body&Hn&Hlen&Hbody&(cov&Hcov&Hcrc)&Hd).
    pose proof (slice_length _ _ _ _ Hbody) as Hbl.
    apply decode_body_Commit in Hd as [Hc Hp]; [|by eapply slice_bytes_ok | lia..].
    rewrite Hcov in Hp. injection Hp as ->.
    pose proof (slice_length _ _ _ _ Hcov) as Hpl.
    split; [done|]. unfold encodable. split; [lia|].
    exists (drop (Z.to_nat (4 + n)) b). rewrite <-(take_drop (Z.to_nat (4 + n)) b) at 1.
    f_equal. unfold record_image. replace (zlen (payload c) + 4) with n by lia.
    assert (body = payload c ++ le_bytes 4 (crc32c (payload c))) as ->.
    { symmetry. apply slice_full. rewrite slice_app_iff. rewrite Hpl, Hbl.
      replace (0 + (n - 4 - 0)) with (n - 4) by lia.
      by replace (4 + n - 4) with n by lia. }
    assert (slice b 0 (4 + n) = Ret (le_bytes 4 n ++ payload c ++ le_bytes 4 (crc32c (payload c)))) as Hs.
    { by rewrite slice_app_iff, zlen_le_bytes. }
    apply slice_Ret in Hs as (_&_&->). rewrite drop_0. f_equal. lia.
  - intros (Hc&He&rest&->). unfold encodable in He. pose proof (payload_min c).
    set (n := zlen (payload c) + 4) in *. set (cr := le_bytes 4 (crc32c (payload c))).
    assert (zlen cr = 4) as Hcr by apply zlen_le_bytes.
    assert (bytes_ok (payload c ++ cr)) by (apply Forall_app_2; [by apply payload_ok | apply le_bytes_ok]).
    exists n, (payload c ++ cr). unfold record_image. fold n cr. rewrite <-app_assoc. split_and!.
    + lia.
    + lia.
    + apply (slice_app [] _ _ 0 4); [done|]. by rewrite zlen_le_bytes.
    + apply slice_app; [apply zlen_le_bytes|]. rewrite zlen_app. lia.
    + exists (payload c). split.
      * apply (slice_app [] (payload c) cr); [done|]. lia.
      * fold cr. rewrite <-(app_nil_r cr) at 1. apply (slice_app (payload c) cr []); lia.
    + apply decode_body_Commit; [done | rewrite ?zlen_app; lia.. |].
      split; [done|]. apply (slice_app [] (payload c) cr); [done|]. lia.
Qed.

Lemma commit_byte_size_image `{Crc32c} c rest :
  encodable c → commit_byte_size (record_image c ++ rest) = Ret (Some (zlen (record_image c))).
Proof.
  intros He. unfold encodable in He. pose proof (payload_min c).
  rewrite zlen_record_image. unfold commit_byte_size.
  pose proof (zlen_nonneg rest). rewrite (proj2 (Z.ltb_ge _ _))
    by (rewrite zlen_app, zlen_record_image; lia).
  assert (read_le_u32 (record_image c ++ rest) 0 = Ret (Ok (zlen (payload c) + 4))) as ->.
  { apply read_le_Ok; [done|]. split; [by vm_compute|]. exists (le_bytes 4 (zlen (payload c) + 4)).
    split; [|rewrite le_value_bytes; unfold u32_max in *; lia].
    unfold record_image. rewrite <-app_assoc.
    apply (slice_app [] _ _ 0); [done|]. by rewrite zlen_le_bytes. }
  cbn [mbind outcome_bind]. rewrite (proj2 (Z.eqb_neq _ _)) by lia. unfold checked_add.
  rewrite (proj2 (Z.leb_le _ _)) by (unfold usize_max, u64_max, u32_max in *; lia).
  do 2 f_equal. lia.
Qed.

(** A strict prefix of a record is recognised as torn, with the number of
    bytes the record needs. *)
Lemma decode_commit_torn `{Crc32c} c p q :
  encodable c → record_image c = p ++ q → p ≠ [] → q ≠ [] →
  decode_commit p =
    Ret (NeedMore (if zlen p <? 4 then 4 else zlen (record_image c))).
Proof.
  intros He Hpq Hp Hq. unfold encodable in He. pose proof (payload_min c).
  assert (0 < zlen p ∧ 0 < zlen q) as [Hp0 Hq0].
  { unfold zlen. destruct p, q; simpl; done || lia. }
  assert (zlen (record_image c) = zlen p + zlen q) as Hl by by rewrite Hpq, zlen_app.
  unfold decode_commit. rewrite (proj2 (Z.eqb_neq _ _)) by lia. case_if; [done|].
  assert (read_le_u32 p 0 = Ret (Ok (zlen (payload c) + 4))) as ->.
  { apply read_le_Ok; [done|]. split; [by vm_compute|]. exists (le_bytes 4 (zlen (payload c) + 4)).
    split; [|rewrite le_value_bytes; unfold u32_max in *; lia].
    assert (slice (p ++ q) 0 4 = Ret (le_bytes 4 (zlen (payload c) + 4))) as Hs.
    { rewrite <-Hpq. unfold record_image. apply (slice_app [] _ _ 0); [done|].
      by rewrite zlen_le_bytes. }
    apply slice_Ret in Hs as (?&?&->). rewrite slice_ok by (unfold zlen in *; lia).
    rewrite !drop_0, take_app_le by (unfold zlen in *; lia). done. }
  cbn [mbind outcome_bind]. rewrite zlen_record_image in *. rewrite (proj2 (Z.eqb_neq _ _)) by lia.
  change (MIN_COMMIT_RECORD_SIZE - 4) with 25. rewrite (proj2 (Z.ltb_ge _ _)) by lia.
  unfold checked_add. rewrite (proj2 (Z.leb_le _ _))
    by (unfold usize_max, u64_max, u32_max in *; lia).
  rewrite (proj2 (Z.ltb_lt _ _)) by lia. do 2 f_equal. lia.
Qed.

(** *** No panic on any input *)

Lemma decode_write_total body crc i off : 0 <= off → bytes_ok body → zlen body = crc + 4 →
  ∃ r, decode_write body crc i off = Ret r ∧
       ∀ w e, r = Ok (w, e) → off <= e.
Proof.
  intros Ho Hb Hl. unfold decode_write.
  destruct (read_le_total 8 body off) as [[block|?] Hr]; [lia..| |].
  all: unfold read_le_u64; rewrite Hr; cbn [mbind outcome_bind]; try by (eexists; split).
  destruct (read_le_total 4 body (off + 8)) as [[len|?] Hr2]; [lia..| |].
  all: unfold read_le_u32; rewrite Hr2; cbn [mbind outcome_bind]; try by (eexists; split).
  assert (0 <= len).
  { apply read_le_Ok in Hr2 as (_&f&Hf&->); [|lia].
    apply le_value_bound. by eapply slice_bytes_ok. }
  unfold checked_add. case_if; [|by (eexists; split)]. case_if; [by (eexists; split)|].
  rewrite slice_ok by lia. simpl. eexists; split; [done|]. intros ? ? [= <- <-]. lia.
Qed.

Lemma decode_writes_total body crc i off ws n : 0 <= off → bytes_ok body → zlen body = crc + 4 →
  ∃ r, decode_writes body crc i off ws n = Ret r.
Proof.
  intros Ho Hb Hl. revert i off ws Ho. induction n as [|n IH]; intros i off ws Ho; simpl; [eauto|].
  destruct (decode_write_total body crc i off) as ([[w e]|]&->&He); [done..| |]; simpl; [|eauto].
  apply IH. specialize (He _ _ eq_refl). lia.
Qed.

Lemma decode_body_total body crc : bytes_ok body → zlen body = crc + 4 →
  ∃ r, decode_body body crc = Ret r.
Proof.
  intros Hb Hl. unfold decode_body. case_if; [eauto|].
  destruct (lookup_lt_is_Some_2 body 0) as [t Ht]; [unfold zlen in *; lia|].
  rewrite (proj2 (index_Ret body 0 t)) by done. cbn [mbind outcome_bind]. case_if; [eauto|].
  destruct (read_le_total 8 body 1) as [[?|?] Hr1]; [lia..| |].
  all: unfold read_le_u64, read_le_u32; rewrite Hr1; cbn [mbind outcome_bind]; try by eauto.
  destruct (read_le_total 8 body 9) as [[?|?] Hr2]; [lia..| |].
  all: rewrite Hr2; cbn [mbind outcome_bind]; try by eauto.
  destruct (read_le_total 4 body 17) as [[n|?] Hr3]; [lia..| |].
  all: rewrite Hr3; cbn [mbind outcome_bind]; try by eauto.
  case_if; [eauto|].
  destruct (decode_writes_total body crc 0 21 [] (Z.to_nat n)) as [[[ws e]|?] Hw]; [done..| |].
  all: rewrite Hw; cbn [mbind outcome_bind]; try case_if; eauto.
Qed.

Lemma decode_commit_returns `{Crc32c} b : bytes_ok b → ∃ r, decode_commit b = Ret r.
Proof.
  intros Hb. unfold decode_commit. case_if; [eauto|]. case_if; [eauto|].
  destruct (read_le_total 4 b 0) as [[n|?] Hr]; [lia..| |].
  all: unfold read_le_u32; rewrite Hr; cbn [mbind outcome_bind]; try by eauto.
  assert (0 <= n).
  { apply read_le_Ok in Hr as (_&f&Hf&->); [|lia].
    apply le_value_bound. by eapply slice_bytes_ok. }
  case_if.
  { unfold slice_from. rewrite slice_ok by lia. simpl. case_if; eauto. }
  case_if; [eauto|]. unfold checked_add. case_if; [|eauto]. case_if; [eauto|].
  change (MIN_COMMIT_RECORD_SIZE - 4) with 25 in *.
  destruct (slice b 0 (4 + n)) as [rec|] eqn:Hrec; [|rewrite slice_ok in Hrec by lia; done].
  destruct (slice b 4 (4 + n)) as [body|] eqn:Hbody; [|rewrite slice_ok in Hbody by lia; done].
  cbn [mbind outcome_bind]. rewrite (proj2 (slice_of_prefix _ _ _ _ _ Hrec) Hbody).
  cbn [mbind outcome_bind]. pose proof (slice_length _ _ _ _ Hbody) as Hl. case_if; [eauto|].
  destruct (read_le_total 4 body (zlen body - 4)) as [[cr|?] Hc]; [lia..| |].
  all: unfold read_le_u32; rewrite Hc; cbn [mbind outcome_bind]; try by eauto.
  rewrite slice_ok by lia. cbn [mbind outcome_bind]. case_if; [eauto|].
  apply decode_body_total; [by eapply slice_bytes_ok | lia].
Qed.

(** ** The file header *)

Lemma encode_header_bytes h :
  encode_header h = Ret (le_bytes 4 (wh_magic h) ++ le_bytes 2 (wh_version h) ++
                         le_bytes 2 (wh_checksum_type h) ++ replicate 8 0).
Proof.
  unfold encode_header. change (Z.to_nat HEADER_SIZE) with 16%nat.
  rewrite copy_range_ok by (rewrite ?zlen_le_bytes; done || lia). cbn [mbind outcome_bind].
  change (take (Z.to_nat 0) (replicate 16 0)) with (@nil Z). rewrite app_nil_l.
  change (drop (Z.to_nat 4) (replicate 16 0)) with (replicate 12 0).
  rewrite copy_range_ok by (rewrite ?zlen_app, ?zlen_le_bytes; done || lia). cbn [mbind outcome_bind].
  rewrite take_app_length', drop_app_ge by (rewrite le_bytes_length; done || lia).
  rewrite le_bytes_length. change (drop (Z.to_nat 6 - 4) (replicate 12 0)) with (replicate 10 0).
  rewrite copy_range_ok by (rewrite ?zlen_app, ?zlen_le_bytes; done || lia).
  rewrite (app_assoc (le_bytes 4 _)), take_app_length', drop_app_ge
    by (rewrite length_app, !le_bytes_length; done || lia).
  rewrite length_app, !le_bytes_length, <-app_assoc. done.
Qed.

(** The header fields the decoder looks at. *)
Definition magic_bytes : bytes :=
  le_bytes 4 WAL_MAGIC ++ le_bytes 2 WAL_VERSION ++ le_bytes 2 CHECKSUM_TYPE_CRC32C.

Lemma read_u16 b off v : bytes_ok b → zlen b <= usize_max →
  read_le_u16 b off = Ret (Ok v) ↔
  slice b off (off + 2) = Ret (le_bytes 2 v) ∧ 0 <= v <= u16_max.
Proof.
  intros. unfold read_le_u16. rewrite (read_field 2 b off v) by done.
  change (256 ^ Z.of_nat 2) with (u16_max + 1). intuition lia.
Qed.

Lemma decode_header_Ok b h : bytes_ok b → zlen b <= usize_max →
  decode_header b = Ret (Ok h) ↔
  h = default_header ∧ HEADER_SIZE <= zlen b ∧ slice b 0 8 = Ret magic_bytes.
Proof.
  intros Hb Hz. unfold decode_header, magic_bytes. rewrite !slice_app_iff, !zlen_le_bytes.
  change (0 + Z.of_nat 4) with 4. change (4 + Z.of_nat 2) with 6.
  split.
  - case_if; [done|]. intros (r&H1&Hd)%outcome_bind_Ret. destruct r as [m|]; [|done].
    destruct (Z.eqb_spec m WAL_MAGIC) as [->|]; [|done]. simpl in Hd.
    apply outcome_bind_Ret in Hd as (r&H2&Hd). destruct r as [v|]; [|done].
    destruct (Z.eqb_spec v WAL_VERSION) as [->|]; [|done]. simpl in Hd.
    apply outcome_bind_Ret in Hd as (r&H3&Hd). destruct r as [t|]; [|done].
    destruct (Z.eqb_spec t CHECKSUM_TYPE_CRC32C) as [->|]; [|done]. injection Hd as <-.
    apply read_u32 in H1 as [? _]; [|done..]. apply read_u16 in H2 as [? _], H3 as [? _]; done.
  - intros (->&Hl&H1&H2&H3). rewrite (proj2 (Z.ltb_ge _ _)) by done.
    rewrite (proj2 (read_u32 b 0 WAL_MAGIC Hb Hz)) by done. simpl.
    rewrite (proj2 (read_u16 b 4 WAL_VERSION Hb Hz)) by done. simpl.
    by rewrite (proj2 (read_u16 b 6 CHECKSUM_TYPE_CRC32C Hb Hz)).
Qed.

(** ** A concrete CRC-32C

    The bitwise (reflected, polynomial [0x82F63B78]) computation. *)

Definition crc_bit (c : Z) : Z :=
  if Z.odd c then Z.lxor (Z.shiftr c 1) 0x82F63B78 else Z.shiftr c 1.
Definition crc_byte (c b : Z) : Z := Nat.iter 8 crc_bit (Z.lxor c (b mod 256)).
Definition crc_bitwise (b : bytes) : Z :=
  Z.lxor (fold_left crc_byte b u32_max) u32_max.

Lemma lxor_u32 a b : 0 <= a <= u32_max → 0 <= b <= u32_max → 0 <= Z.lxor a b <= u32_max.
Proof.
  intros Ha Hb. change u32_max with (Z.ones 32) in *.
  assert (∀ x, 0 <= x <= Z.ones 32 ↔ 0 <= x ∧ Z.land x (Z.ones 32) = x) as Hx.
  { intros x. rewrite Z.land_ones by lia. change (Z.ones 32) with (2 ^ 32 - 1). split.
    - intros [? ?]. rewrite Z.mod_small by lia. lia.
    - intros [? <-]. pose proof (Z.mod_pos_bound x (2 ^ 32)). lia. }
  apply Hx in Ha as [Ha Ha'], Hb as [Hb Hb']. apply Hx.
  split; [by apply Z.lxor_nonneg|]. apply Z.bits_inj'. intros i Hi.
  rewrite Z.land_spec, Z.lxor_spec, <-Ha', <-Hb', !Z.land_spec. by destruct (Z.testbit a i), (Z.testbit b i), (Z.testbit (Z.ones 32) i).
Qed.

Lemma crc_bit_u32 c : 0 <= c <= u32_max → 0 <= crc_bit c <= u32_max.
Proof.
  intros Hc. assert (0 <= Z.shiftr c 1 <= u32_max).
  { rewrite Z.shiftr_div_pow2 by lia. change (2 ^ 1) with 2.
    split; [apply Z.div_pos; lia|]. apply Z.div_le_upper_bound; lia. }
  unfold crc_bit. case_if; [apply lxor_u32; [done | by vm_compute] | done].
Qed.

Lemma crc_byte_u32 c b : 0 <= c <= u32_max → 0 <= crc_byte c b <= u32_max.
Proof.
  intros Hc. unfold crc_byte. do 8 apply crc_bit_u32. apply lxor_u32; [done|].
  pose proof (Z.mod_pos_bound b 256). unfold u32_max. lia.
Qed.

Lemma crc_fold_u32 b c : 0 <= c <= u32_max → 0 <= fold_left crc_byte b c <= u32_max.
Proof. revert c. induction b as [|x b IH]; intros c Hc; simpl; [done|]. by apply IH, crc_byte_u32. Qed.

Lemma crc_bitwise_u32 b : 0 <= crc_bitwise b <= u32_max.
Proof.
  unfold crc_bitwise. apply lxor_u32; [|by vm_compute]. apply crc_fold_u32. by vm_compute.
Qed.

Definition BitwiseCrc : Crc32c := {| crc32c := crc_bitwise; crc32c_u32 := crc_bitwise_u32 |}.

(** The check value of the CRC-32C parameters: the ASCII digits [123456789]. *)
Example crc_check_value :
  crc_bitwise [49; 50; 51; 52; 53; 54; 55; 56; 57] = 0xE3069283.
Proof. vm_compute. reflexivity. Qed.

(** ** Properties *)

(** C18. The decoder accepts exactly the encoder's output.  On any byte string,
    [decode_commit] returns a commit if and only if the string starts with
    the encoding of that commit, whose fields have their Rust types; the
    caller then advances by exactly that encoding's length.  So whatever was
    appended is read back, nothing else is, and no two commits share an
    encoding. *)
Theorem decode_commit_iff_encoded `{Crc32c} (b : bytes) (c : WalCommit) :
  bytes_ok b → zlen b <= usize_max →
  decode_commit b = Ret (Commit c) ↔
  commit_ok c ∧ ∃ e rest, encode_commit c = Ret (Ok e) ∧ b = e ++ rest ∧
                          commit_byte_size b = Ret (Some (zlen e)).
Proof.
  intros Hb Hz. rewrite decode_commit_image by done. split.
  - intros (Hc&He&rest&->). split; [done|]. exists (record_image c), rest.
    split_and!; [by apply encode_commit_image | done | by apply commit_byte_size_image].
  - intros (Hc&e&rest&[He ->]%encode_commit_Ok&->&_). eauto.
Qed.

Definition sample_commit : WalCommit :=
  mkWalCommit 7 3 [mkWalWrite 12 [1; 2; 3]; mkWalWrite 40 []].

Lemma decode_commit_iff_encoded_witness :
  match encode_commit (H := BitwiseCrc) sample_commit with
  | Ret (Ok e) => decode_commit (H := BitwiseCrc) (e ++ [9; 9]) = Ret (Commit sample_commit)
  | _ => False
  end.
Proof.
  destruct (encode_commit sample_commit) as [[e|]|] eqn:He; [|vm_compute in He; done..].
  assert (bytes_ok (e ++ [9; 9])) as Hb.
  { vm_compute in He. injection He as <-. repeat constructor; done. }
  assert (zlen (e ++ [9; 9]) <= usize_max) as Hz.
  { vm_compute in He. injection He as <-. by vm_compute. }
  apply (decode_commit_iff_encoded (H := BitwiseCrc) _ _ Hb Hz).
  split; [by repeat constructor|]. exists e, [9; 9].
  split_and!; [done..|]. vm_compute in He. injection He as <-. by vm_compute.
Defined.

(** A torn record is always recognised.  If a crash leaves only a strict,
    non-empty prefix of an encoded commit, [decode_commit] answers
    [NeedMore] with the number of bytes missing to make progress (4 for the
    length field, then the whole record), never a commit and never
    [Corrupted]; an empty prefix is the end of the log. *)
Lemma torn_record_detected `{Crc32c} (c : WalCommit) (e p q : bytes) :
  encode_commit c = Ret (Ok e) → e = p ++ q → q ≠ [] →
  decode_commit p = Ret (if zlen p =? 0 then EndOfData
                         else NeedMore (if zlen p <? 4 then 4 else zlen e)).
Proof.
  intros [He ->]%encode_commit_Ok Hpq Hq. destruct p as [|x p]; [done|].
  rewrite (decode_commit_torn c (x :: p) q) by done.
  by rewrite (proj2 (Z.eqb_neq _ _)) by (pose proof (zlen_nonneg p); rewrite zlen_cons; lia).
Qed.



(** The file header: [encode_header] of the default header is 16 bytes
    that [decode_header] reads back, and [decode_header] accepts exactly the
    strings of at least 16 bytes that start with the same 8 bytes of magic,
    version and checksum type; the reserved bytes are ignored. *)
Lemma header_roundtrip (b : bytes) (h : WalHeader) :
  bytes_ok b → zlen b <= usize_max →
  ∃ e, encode_header default_header = Ret e ∧ zlen e = HEADER_SIZE ∧
       decode_header e = Ret (Ok default_header) ∧
       (decode_header b = Ret (Ok h) ↔
        h = default_header ∧ HEADER_SIZE <= zlen b ∧ slice b 0 8 = slice e 0 8).
Proof.
  intros Hb Hz. rewrite encode_header_bytes. eexists. split_and!; [done|done|done|].
  rewrite decode_header_Ok by done.
  enough (slice (le_bytes 4 (wh_magic default_header) ++ le_bytes 2 (wh_version default_header) ++
          le_bytes 2 (wh_checksum_type default_header) ++ replicate 8 0) 0 8 = Ret magic_bytes)
    as -> by done.
  done.
Qed.

