(* ===== verification/WalReplay.v ===== *)
(** * WalReplay: the replay engine ([ffs-mvcc/src/wal_replay.rs])

    [replay_records] is the loop both record sources share: it decodes one
    record after another, rejects sentinel and non-increasing sequence
    numbers, skips what a checkpoint covers and hands the rest to the
    caller's closure, under one of two policies for a bad tail.  The
    closures become functions on a caller-chosen world [W]; the whole
    computation lives in a small state-and-error monad over it, so an error
    keeps the effects that preceded it, as the Rust code does.

    The results: the loop always ends within [total_data_bytes] iterations;
    on arbitrary bytes it applies exactly the longest acceptable prefix of
    records and classifies what follows; what a crash leaves of a log is
    recovered up to its last complete record; and truncating at the reported
    offset makes the next replay clean and equal. *)

From stdpp Require Import base sorting numbers gmap list.
From S2P Require Import Prelude Wal.

Local Open Scope Z_scope.

(** ** Policies, outcomes, reports *)

Inductive TailPolicy := TruncateToLastGood | FailFast.

#[global] Instance TailPolicy_eq_dec : EqDecision TailPolicy.
Proof. solve_decision. Defined.

Inductive ReplayOutcome :=
| Clean
| EmptyLog
| TruncatedTail (records_discarded : Z)
| CorruptTail (records_discarded first_corrupt_offset : Z)
| MonotonicityViolation (violating_seq expected_after : Z).

#[global] Instance ReplayOutcome_eq_dec : EqDecision ReplayOutcome.
Proof. solve_decision. Defined.

Definition is_clean (o : ReplayOutcome) : bool :=
  match o with Clean | EmptyLog => true | _ => false end.

Record ReplayReport := mkReplayReport {
  rr_outcome : ReplayOutcome;
  rr_commits_replayed : Z;
  rr_versions_replayed : Z;
  rr_records_discarded : Z;
  rr_last_valid_offset : Z;
  rr_total_data_bytes : Z;
  rr_last_commit_seq : Z;
}.

(** Why a checkpoint or the frame of the WAL is refused. *)
Inductive RecoveryFault :=
| WalNotRegular
| WalParentNotDirectory
| WalHeaderInvalid
| WalShorterThanHeader
| WalPositionOverflow
| WalLengthChanged
| InvalidRecoveryBoundary
| CheckpointMagicMismatch
| CheckpointVersionUnsupported
| CheckpointTooShort
| FieldsExceedBody
| NonzeroReserved
| ZeroNextCounter
| TooManyBlocks
| BlockCountExceedsBody
| UnorderedBlock
| EmptyVersionChain
| TooManyVersions
| VersionCountExceedsBody
| InvalidVersionIdentity
| DedupMarkerWithoutBase
| DataExceedsPayload
| DataTooLarge
| DataLengthIsDedupMarker
| DecompressionFailed
| DedupBaseUnreadable
| TrailingCheckpointBytes
| CheckpointCrcMismatch
| CheckpointLengthChanged
| CheckpointNotRegular
| CheckpointDestination
| CheckpointParentNotDirectory
| CheckpointStale.

(** The errors of a replay and of recovery; [External] is an error of the
    system or of a closure, [Refused] a malformed file, with the block it was
    found at. *)
Inductive ReplayError :=
| SentinelFailFast (offset : Z)
| MonotonicityFailFast (offset seq last : Z)
| TruncatedFailFast (offset needed : Z)
| CorruptFailFast (offset : Z) (why : Corruption)
| InvalidRecordSize
| Cancelled
| Refused (block : Z) (why : RecoveryFault)
| External (code : Z).

(** ** The monad of the engine: state, errors and panics *)

Definition replayM (W A : Type) : Type := W → outcome (W * res ReplayError A).

#[global] Instance replayM_ret W : MRet (replayM W) := λ A a w, Ret (w, Ok a).
#[global] Instance replayM_bind W : MBind (replayM W) := λ A B f m w,
  match m w with
  | Ret (w', Ok a) => f a w'
  | Ret (w', Err e) => Ret (w', Err e)
  | Panic => Panic
  end.

Definition throw {W A} (e : ReplayError) : replayM W A := λ w, Ret (w, Err e).

(** [u64] addition in a release build. *)
Definition add64 (a b : Z) : Z := (a + b) mod 2 ^ 64.

(** The local variables of the loop. *)
Record Scan := mkScan {
  sc_offset : Z;
  sc_commits_replayed : Z;
  sc_versions_replayed : Z;
  sc_records_discarded : Z;
  sc_last_decoded_seq : Z;
  sc_last_replayed_seq : Z;
  sc_last_valid_offset : Z;
}.

Definition scan_start (skip_up_to_seq : Z) : Scan := mkScan 0 0 0 0 0 skip_up_to_seq 0.

(** How an iteration ends. *)
Inductive Flow := Continue (sc : Scan) | Break (sc : Scan) (o : ReplayOutcome).

(** A record is discarded: the error under [FailFast], a break otherwise. *)
Definition discard {W} (policy : TailPolicy) (sc : Scan) (e : ReplayError)
    (outcome_of : Z → ReplayOutcome) : replayM W Flow :=
  match policy with
  | FailFast => throw e
  | TruncateToLastGood =>
      let n := add64 (sc_records_discarded sc) 1 in
      mret (Break (mkScan (sc_offset sc) (sc_commits_replayed sc) (sc_versions_replayed sc) n
                     (sc_last_decoded_seq sc) (sc_last_replayed_seq sc) (sc_last_valid_offset sc))
                  (outcome_of n))
  end.

Section engine.
Context {W : Type}.
Context (tail_policy : TailPolicy) (total_data_bytes skip_up_to_seq : Z).
Context (decode : Z → replayM W (DecodeResult * option Z)).
Context (apply : WalCommit → replayM W unit).
Context (checkpoint : replayM W unit).

(** The [DecodeResult::Commit] arm. *)
Definition replay_commit (sc : Scan) (commit : WalCommit) (size : option Z) : replayM W Flow :=
  let record_offset := sc_offset sc in
  match size with
  | Some size =>
    if (0 <? size) && (size <=? total_data_bytes - sc_offset sc) then
      let offset := sc_offset sc + size in
      let sc := mkScan offset (sc_commits_replayed sc) (sc_versions_replayed sc)
                  (sc_records_discarded sc) (sc_last_decoded_seq sc)
                  (sc_last_replayed_seq sc) (sc_last_valid_offset sc) in
      if (wc_commit_seq commit =? u64_max) || (wc_txn_id commit =? u64_max) then
        discard tail_policy sc (SentinelFailFast record_offset)
          (λ n, CorruptTail n record_offset)
      else if wc_commit_seq commit <=? sc_last_decoded_seq sc then
        discard tail_policy sc
          (MonotonicityFailFast record_offset (wc_commit_seq commit) (sc_last_decoded_seq sc))
          (λ _, MonotonicityViolation (wc_commit_seq commit) (sc_last_decoded_seq sc))
      else if wc_commit_seq commit <=? skip_up_to_seq then
        mret (Continue (mkScan offset (sc_commits_replayed sc) (sc_versions_replayed sc)
                          (sc_records_discarded sc) (wc_commit_seq commit)
                          (sc_last_replayed_seq sc) offset))
      else
        _ ← apply commit;
        _ ← checkpoint;
        mret (Continue (mkScan offset (add64 (sc_commits_replayed sc) 1)
                          (add64 (sc_versions_replayed sc) (zlen (wc_writes commit)))
                          (sc_records_discarded sc) (wc_commit_seq commit)
                          (wc_commit_seq commit) offset))
    else throw InvalidRecordSize
  | None => throw InvalidRecordSize
  end.

(** One iteration of the loop. *)
Definition replay_step (sc : Scan) : replayM W Flow :=
  _ ← checkpoint;
  '(decoded, size) ← decode (sc_offset sc);
  _ ← checkpoint;
  match decoded with
  | Commit commit => replay_commit sc commit size
  | EndOfData =>
      mret (Break (mkScan (sc_offset sc) (sc_commits_replayed sc) (sc_versions_replayed sc)
                     (sc_records_discarded sc) (sc_last_decoded_seq sc)
                     (sc_last_replayed_seq sc) (sc_offset sc)) Clean)
  | NeedMore needed =>
      discard tail_policy sc (TruncatedFailFast (sc_offset sc) needed) TruncatedTail
  | Corrupted why =>
      discard tail_policy sc (CorruptFailFast (sc_offset sc) why)
        (λ n, CorruptTail n (sc_offset sc))
  end.

(** [while offset < total_data_bytes]; [None] would mean the fuel ran out. *)
Fixpoint replay_loop (fuel : nat) (sc : Scan) : replayM W (option (Scan * ReplayOutcome)) :=
  if sc_offset sc <? total_data_bytes then
    match fuel with
    | O => mret None
    | S fuel' =>
        flow ← replay_step sc;
        match flow with
        | Continue sc' => replay_loop fuel' sc'
        | Break sc' o => mret (Some (sc', o))
        end
    end
  else mret (Some (sc, Clean)).

Definition report_of (sc : Scan) (o : ReplayOutcome) : ReplayReport :=
  mkReplayReport o (sc_commits_replayed sc) (sc_versions_replayed sc)
    (sc_records_discarded sc) (sc_last_valid_offset sc) total_data_bytes
    (sc_last_replayed_seq sc).

Definition replay_records : replayM W (option ReplayReport) :=
  _ ← checkpoint;
  if total_data_bytes =? 0 then
    mret (Some (mkReplayReport EmptyLog 0 0 0 0 total_data_bytes skip_up_to_seq))
  else
    r ← replay_loop (Z.to_nat total_data_bytes) (scan_start skip_up_to_seq);
    match r with
    | None => mret None
    | Some (sc, o) => _ ← checkpoint; mret (Some (report_of sc o))
    end.
End engine.

(** ** Replay from memory *)

(** [WalReplayEngine::replay]: the decoder slices the buffer, the closure is
    infallible and there is nothing to poll. *)
Definition slice_decoder `{Crc32c} {W} (data : bytes) (offset : Z) :
    replayM W (DecodeResult * option Z) := λ w,
  tail ← slice_from data offset;
  d ← decode_commit tail;
  size ← commit_byte_size tail;
  Ret (w, Ok (d, size)).

Definition replay `{Crc32c} {W} (tail_policy : TailPolicy) (data : bytes) (skip_up_to_seq : Z)
    (apply : W → WalCommit → W) : replayM W (option ReplayReport) :=
  replay_records tail_policy (zlen data) skip_up_to_seq (slice_decoder data)
    (λ commit w, Ret (apply w commit, Ok tt)) (mret tt).

(** ** Termination *)

Lemma replayM_bind_Ok {W A B} (m : replayM W A) (f : A → replayM W B) w w' b :
  (m ≫= f) w = Ret (w', Ok b) ↔ ∃ w1 a, m w = Ret (w1, Ok a) ∧ f a w1 = Ret (w', Ok b).
Proof. unfold mbind, replayM_bind. destruct (m w) as [[w1 [a|e]]|]; naive_solver. Qed.

Section termination.
Context {W : Type} (policy : TailPolicy) (total skip : Z).
Context (decode : Z → replayM W (DecodeResult * option Z)).
Context (apply : WalCommit → replayM W unit) (checkpoint : replayM W unit).

Lemma discard_breaks sc e f w w' r :
  discard (W := W) policy sc e f w = Ret (w', Ok r) → ∃ sc' o, r = Break sc' o.
Proof. destruct policy; [intros [= _ <-]; eauto | done]. Qed.

(** An iteration that goes on has consumed a byte. *)
Lemma replay_step_progress sc w w' sc' :
  replay_step policy total skip decode apply checkpoint sc w = Ret (w', Ok (Continue sc')) →
  sc_offset sc < sc_offset sc' <= total.
Proof.
  unfold replay_step. intros (w1&?&_&Hs)%replayM_bind_Ok.
  apply replayM_bind_Ok in Hs as (w2&[d size]&_&Hs).
  apply replayM_bind_Ok in Hs as (w3&?&_&Hs). destruct d as [c|n|why|].
  - unfold replay_commit in Hs. destruct size as [size|]; [|done].
    case_if_in Hs; [|done]. case_if_in Hs; [apply discard_breaks in Hs; naive_solver|].
    case_if_in Hs; [apply discard_breaks in Hs; naive_solver|].
    case_if_in Hs; [injection Hs as _ <-; simpl; lia|].
    apply replayM_bind_Ok in Hs as (w4&?&_&Hs). apply replayM_bind_Ok in Hs as (w5&?&_&Hs).
    injection Hs as _ <-. simpl. lia.
  - apply discard_breaks in Hs. naive_solver.
  - apply discard_breaks in Hs. naive_solver.
  - done.
Qed.

Lemma replay_loop_enough fuel sc w w' :
  total - sc_offset sc <= Z.of_nat fuel →
  replay_loop policy total skip decode apply checkpoint fuel sc w ≠ Ret (w', Ok None).
Proof.
  revert sc w. induction fuel as [|fuel IH]; intros sc w Hf; simpl.
  - rewrite (proj2 (Z.ltb_ge _ _)) by lia. done.
  - case_if; [|done]. intros (w1&flow&Hs&Hl)%replayM_bind_Ok.
    destruct flow as [sc'|sc' o]; [|done].
    apply replay_step_progress in Hs. apply IH in Hl; [done | lia].
Qed.

Lemma replay_records_enough w w' :
  replay_records policy total skip decode apply checkpoint w ≠ Ret (w', Ok None).
Proof.
  unfold replay_records. intros (w1&?&_&Hr)%replayM_bind_Ok.
  case_if_in Hr; [done|]. apply replayM_bind_Ok in Hr as (w2&[[sc o]|]&Hl&Hr).
  - by apply replayM_bind_Ok in Hr as (w3&?&_&Hr).
  - apply replay_loop_enough in Hl; [done|]. simpl. lia.
Qed.
End termination.

(** ** What a log means *)

(** Records the engine accepts after a record numbered [last]: increasing,
    with no sentinel number. *)
Fixpoint accepted (last : Z) (cs : list WalCommit) : Prop :=
  match cs with
  | [] => True
  | c :: cs' => last < wc_commit_seq c ∧ wc_commit_seq c ≠ u64_max ∧ wc_txn_id c ≠ u64_max ∧
                accepted (wc_commit_seq c) cs'
  end.

Definition last_seq (last : Z) (cs : list WalCommit) : Z :=
  foldl (λ _ c, wc_commit_seq c) last cs.

Definition log_image `{Crc32c} (cs : list WalCommit) : bytes := concat (record_image <$> cs).

(** Commits that can be in a log at all. *)
Definition loggable (c : WalCommit) : Prop := commit_ok c ∧ encodable c.

(** The commits that are applied, and the versions they carry. *)
Definition applied (skip : Z) (cs : list WalCommit) : list WalCommit :=
  filter (λ c, skip < wc_commit_seq c) cs.
Definition logged_versions (cs : list WalCommit) : Z :=
  foldr (λ c n, zlen (wc_writes c) + n) 0 cs.

(** What stops the scan after [last], at [offset], given the next decoding. *)
Definition stop_reason (last offset : Z) (d : DecodeResult) : option ReplayOutcome :=
  match d with
  | EndOfData => Some Clean
  | NeedMore _ => Some (TruncatedTail 1)
  | Corrupted _ => Some (CorruptTail 1 offset)
  | Commit c =>
      if (wc_commit_seq c =? u64_max) || (wc_txn_id c =? u64_max)
      then Some (CorruptTail 1 offset)
      else if wc_commit_seq c <=? last
      then Some (MonotonicityViolation (wc_commit_seq c) last)
      else None
  end.

(** The report of a scan that accepted [cs] and then stopped with [o]. *)
Definition report_after `{Crc32c} (total skip : Z) (cs : list WalCommit) (o : ReplayOutcome) :
    ReplayReport :=
  mkReplayReport o (zlen (applied skip cs)) (logged_versions (applied skip cs))
    (if is_clean o then 0 else 1) (zlen (log_image cs)) total
    (last_seq skip (applied skip cs)).

(** The loop's variables after an accepted record of [size] bytes. *)
Definition scan_accept (skip size : Z) (c : WalCommit) (sc : Scan) : Scan :=
  let offset := sc_offset sc + size in
  if wc_commit_seq c <=? skip
  then mkScan offset (sc_commits_replayed sc) (sc_versions_replayed sc)
         (sc_records_discarded sc) (wc_commit_seq c) (sc_last_replayed_seq sc) offset
  else mkScan offset (add64 (sc_commits_replayed sc) 1)
         (add64 (sc_versions_replayed sc) (zlen (wc_writes c)))
         (sc_records_discarded sc) (wc_commit_seq c) (wc_commit_seq c) offset.

Lemma log_image_cons `{Crc32c} c cs : log_image (c :: cs) = record_image c ++ log_image cs.
Proof. done. Qed.

Lemma log_image_app `{Crc32c} cs ds : log_image (cs ++ ds) = log_image cs ++ log_image ds.
Proof. unfold log_image. by rewrite fmap_app, concat_app. Qed.

Lemma record_image_ok `{Crc32c} c : commit_ok c → bytes_ok (record_image c).
Proof.
  intros Hc. unfold record_image, bytes_ok. rewrite !Forall_app.
  split_and!; try apply le_bytes_ok. by apply payload_ok.
Qed.

Lemma log_image_ok `{Crc32c} cs : Forall loggable cs → bytes_ok (log_image cs).
Proof.
  induction 1 as [|c cs [Hc _] _ IH]; [constructor|].
  rewrite log_image_cons. by apply Forall_app_2; [apply record_image_ok|].
Qed.

(** The logged commits and versions are fewer than the bytes of the log. *)
Lemma log_image_counts `{Crc32c} cs skip :
  zlen (applied skip cs) + logged_versions (applied skip cs) <= zlen (log_image cs).
Proof.
  induction cs as [|c cs IH]; [done|]. rewrite log_image_cons, zlen_app, zlen_record_image.
  pose proof (zlen_payload c). pose proof (writes_image_count (wc_writes c)).
  pose proof (zlen_nonneg (wc_writes c)).
  unfold applied in *. rewrite filter_cons. case_decide; simpl; [rewrite zlen_cons|]; lia.
Qed.

Definition scan_all `{Crc32c} (skip : Z) (cs : list WalCommit) (sc : Scan) : Scan :=
  foldl (λ sc c, scan_accept skip (zlen (record_image c)) c sc) sc cs.

Lemma add64_small a b : 0 <= a + b <= u64_max → add64 a b = a + b.
Proof. intros. unfold add64. apply Z.mod_small. unfold u64_max in *. lia. Qed.

Lemma versions_nonneg cs : 0 <= logged_versions cs.
Proof. induction cs as [|c cs IH]; simpl; [done|]. pose proof (zlen_nonneg (wc_writes c)). lia. Qed.

Lemma last_seq_cons last c cs : last_seq last (c :: cs) = last_seq (wc_commit_seq c) cs.
Proof. done. Qed.

(** The counters count, as long as they cannot wrap. *)
Lemma scan_all_fields `{Crc32c} skip cs sc :
  0 <= sc_commits_replayed sc → 0 <= sc_versions_replayed sc →
  sc_last_valid_offset sc = sc_offset sc →
  sc_commits_replayed sc + zlen (applied skip cs) <= u64_max →
  sc_versions_replayed sc + logged_versions (applied skip cs) <= u64_max →
  scan_all skip cs sc =
    mkScan (sc_offset sc + zlen (log_image cs))
      (sc_commits_replayed sc + zlen (applied skip cs))
      (sc_versions_replayed sc + logged_versions (applied skip cs))
      (sc_records_discarded sc) (last_seq (sc_last_decoded_seq sc) cs)
      (last_seq (sc_last_replayed_seq sc) (applied skip cs))
      (sc_offset sc + zlen (log_image cs)).
Proof.
  revert sc. induction cs as [|c cs IH]; intros sc Hc Hv Ho Hcb Hvb.
  { simpl. rewrite !Z.add_0_r. destruct sc; simpl in *. by subst. }
  change (scan_all skip (c :: cs) sc) with
    (scan_all skip cs (scan_accept skip (zlen (record_image c)) c sc)).
  rewrite log_image_cons, zlen_app, Z.add_assoc, last_seq_cons.
  pose proof (zlen_nonneg (wc_writes c)). pose proof (versions_nonneg (applied skip cs)).
  pose proof (zlen_nonneg (applied skip cs)).
  unfold applied in *. rewrite filter_cons in *. unfold scan_accept.
  case_decide; [rewrite (proj2 (Z.leb_gt _ _)) by done | rewrite (proj2 (Z.leb_le _ _)) by lia].
  - rewrite zlen_cons in *. simpl in *. rewrite !add64_small by lia.
    rewrite IH; simpl; [f_equal; lia | lia..].
  - rewrite IH by done. done.
Qed.

Section memory.
Context `{Crc32c} {W : Type} (policy : TailPolicy) (data : bytes) (skip : Z).
Context (apply : W → WalCommit → W).
Hypothesis data_ok : bytes_ok data.
Hypothesis data_len : zlen data <= usize_max.

Abbreviation step := (replay_step policy (zlen data) skip (slice_decoder data)
    (λ commit w, Ret (apply w commit, Ok tt)) (mret tt)).
Abbreviation loop := (replay_loop policy (zlen data) skip (slice_decoder data)
    (λ commit w, Ret (apply w commit, Ok tt)) (mret tt)).

(** What an iteration does, once the record at its offset is decoded. *)
Definition after_decode (sc : Scan) (d : DecodeResult) (size : option Z) : replayM W Flow :=
  match d with
  | Commit commit =>
      replay_commit policy (zlen data) skip (λ commit w, Ret (apply w commit, Ok tt)) (mret tt)
        sc commit size
  | EndOfData =>
      mret (Break (mkScan (sc_offset sc) (sc_commits_replayed sc) (sc_versions_replayed sc)
                     (sc_records_discarded sc) (sc_last_decoded_seq sc)
                     (sc_last_replayed_seq sc) (sc_offset sc)) Clean)
  | NeedMore needed =>
      discard policy sc (TruncatedFailFast (sc_offset sc) needed) TruncatedTail
  | Corrupted why =>
      discard policy sc (CorruptFailFast (sc_offset sc) why) (λ n, CorruptTail n (sc_offset sc))
  end.

Lemma commit_byte_size_total b : ∃ s, commit_byte_size b = Ret s.
Proof.
  unfold commit_byte_size. case_if; [eauto|].
  destruct (read_le_total 4 b 0) as [[n|] Hr]; [lia..| |].
  all: unfold read_le_u32; rewrite Hr; simpl; try case_if; eauto.
Qed.

Lemma step_decoded sc w pre rest d :
  data = pre ++ rest → sc_offset sc = zlen pre → decode_commit rest = Ret d →
  ∃ size, commit_byte_size rest = Ret size ∧ step sc w = after_decode sc d size w.
Proof.
  intros Hd Ho Hdec. destruct (commit_byte_size_total rest) as [size Hs].
  assert (slice_decoder data (sc_offset sc) w = Ret (w, Ok (d, size))) as Hsd.
  { unfold slice_decoder. rewrite Ho, Hd, slice_from_app by done. simpl.
    rewrite Hdec. simpl. by rewrite Hs. }
  exists size. split; [done|]. unfold replay_step, mbind, replayM_bind, mret, replayM_ret.
  rewrite Hsd. by destruct d.
Qed.

Lemma accept_step sc w pre c rest :
  data = pre ++ record_image c ++ rest → sc_offset sc = zlen pre → loggable c →
  stop_reason (sc_last_decoded_seq sc) (sc_offset sc) (Commit c) = None →
  step sc w = Ret (if wc_commit_seq c <=? skip then w else apply w c,
                   Ok (Continue (scan_accept skip (zlen (record_image c)) c sc))).
Proof.
  intros Hd Ho [Hc He] Hstop.
  assert (bytes_ok (record_image c ++ rest)) as Hb.
  { rewrite Hd in data_ok. by apply Forall_app in data_ok as [_ ?]. }
  assert (zlen pre + zlen (record_image c) + zlen rest = zlen data) as Hlen.
  { rewrite Hd, !zlen_app. lia. }
  pose proof (zlen_nonneg pre). pose proof (zlen_nonneg rest).
  pose proof (zlen_record_image c). pose proof (payload_min c).
  destruct (step_decoded sc w pre (record_image c ++ rest) (Commit c)) as (size&Hs&->);
    [done..| apply decode_commit_image; [done | rewrite zlen_app; lia | eauto] |].
  rewrite commit_byte_size_image in Hs by done. injection Hs as <-.
  unfold after_decode, replay_commit, scan_accept, stop_reason in *.
  rewrite (proj2 (Z.ltb_lt _ _)), (proj2 (Z.leb_le (zlen (record_image c)) _)) by lia.
  cbn [andb sc_last_decoded_seq].
  destruct ((_ =? _) || _); [done|]. destruct (wc_commit_seq c <=? sc_last_decoded_seq sc); [done|].
  by destruct (wc_commit_seq c <=? skip).
Qed.

(** A scan with one more record discarded. *)
Definition scan_discarded (sc : Scan) (o : ReplayOutcome) : ReplayReport :=
  mkReplayReport o (sc_commits_replayed sc) (sc_versions_replayed sc)
    (if is_clean o then 0 else 1) (sc_last_valid_offset sc) (zlen data) (sc_last_replayed_seq sc).

(** How the loop ends: with the report, or with an error under [FailFast]. *)
Definition ends_with (sc : Scan) (o : ReplayOutcome)
    (r : res ReplayError (option (Scan * ReplayOutcome))) : Prop :=
  match policy, is_clean o with
  | FailFast, false => ∃ e, r = Err e
  | _, _ => ∃ sc', r = Ok (Some (sc', o)) ∧ report_of (zlen data) sc' o = scan_discarded sc o
  end.

Lemma discard_ends (k : Scan → replayM W _) sc sc' e f w o :
  f 1 = o → is_clean o = false → sc_records_discarded sc' = 0 →
  scan_discarded sc' o = scan_discarded sc o →
  ∃ r, (flow ← discard (W := W) policy sc' e f;
        match flow with
        | Continue sc1 => k sc1
        | Break sc1 o1 => mret (Some (sc1, o1))
        end) w = Ret (w, r) ∧ ends_with sc o r.
Proof.
  intros <- Hcl Hz Hsc. unfold ends_with. rewrite Hcl. unfold discard. rewrite Hz.
  change (add64 0 1) with 1. destruct policy.
  - eexists. split; [done|]. eexists. split; [done|]. rewrite <-Hsc.
    unfold report_of, scan_discarded. simpl. by rewrite Hcl.
  - eexists. split; [done|]. eauto.
Qed.

(** The outcome that ends a scan in front of [tail]. *)
Definition stops (last offset : Z) (tail : bytes) (o : ReplayOutcome) : Prop :=
  (tail = [] ∧ o = Clean) ∨
  (tail ≠ [] ∧ ∃ d, decode_commit tail = Ret d ∧ stop_reason last offset d = Some o).

Lemma stop_step (k : Scan → replayM W _) sc w pre rest d o :
  data = pre ++ rest → sc_offset sc = zlen pre → sc_last_valid_offset sc = sc_offset sc →
  sc_records_discarded sc = 0 → decode_commit rest = Ret d →
  stop_reason (sc_last_decoded_seq sc) (sc_offset sc) d = Some o →
  ∃ r, (flow ← step sc;
        match flow with
        | Continue sc1 => k sc1
        | Break sc1 o1 => mret (Some (sc1, o1))
        end) w = Ret (w, r) ∧ ends_with sc o r.
Proof.
  intros Hd Ho Hv Hz Hdec Hstop.
  destruct (step_decoded sc w pre rest d) as (size&Hs&Hst); [done..|].
  assert (∀ A (g : Flow → replayM W A), (step sc ≫= g) w = (after_decode sc d size ≫= g) w) as ->.
  { intros A g. unfold mbind, replayM_bind. by rewrite Hst. }
  destruct d as [c|n|why|]; simpl in Hstop.
  - assert (bytes_ok rest) as Hb.
    { rewrite Hd in data_ok. by apply Forall_app in data_ok as [_ ?]. }
    assert (zlen pre + zlen rest = zlen data) as Hlen by by rewrite Hd, zlen_app.
    pose proof (zlen_nonneg pre).
    apply decode_commit_image in Hdec as (_&He&rest'&->); [|done|lia].
    rewrite commit_byte_size_image in Hs by done. injection Hs as <-.
    pose proof (zlen_record_image c). pose proof (payload_min c). pose proof (zlen_nonneg rest').
    rewrite zlen_app in Hlen. unfold after_decode, replay_commit.
    rewrite (proj2 (Z.ltb_lt _ _)), (proj2 (Z.leb_le (zlen (record_image c)) _)) by lia.
    cbn [andb sc_last_decoded_seq].
    destruct ((_ =? _) || _); [injection Hstop as <-; by apply discard_ends|].
    destruct (wc_commit_seq c <=? sc_last_decoded_seq sc); [|done].
    injection Hstop as <-. by apply discard_ends.
  - injection Hstop as <-. by apply discard_ends.
  - injection Hstop as <-. by apply discard_ends.
  - injection Hstop as <-. eexists. split; [done|]. unfold ends_with. simpl.
    destruct policy; (eexists; split; [done|]);
      unfold report_of, scan_discarded; simpl; by rewrite Hv, Hz.
Qed.

Lemma scan_accept_shape size c sc :
  sc_offset (scan_accept skip size c sc) = sc_offset sc + size ∧
  sc_last_valid_offset (scan_accept skip size c sc) = sc_offset sc + size ∧
  sc_records_discarded (scan_accept skip size c sc) = sc_records_discarded sc ∧
  sc_last_decoded_seq (scan_accept skip size c sc) = wc_commit_seq c.
Proof. unfold scan_accept. by case_if. Qed.

Lemma applied_cons c cs :
  applied skip (c :: cs) = if wc_commit_seq c <=? skip then applied skip cs else c :: applied skip cs.
Proof.
  unfold applied. rewrite filter_cons. case_decide; case_if; done || lia.
Qed.

Lemma stop_reason_None last off d :
  stop_reason last off d = None ↔
  ∃ c, d = Commit c ∧ last < wc_commit_seq c ∧ wc_commit_seq c ≠ u64_max ∧ wc_txn_id c ≠ u64_max.
Proof.
  destruct d as [c|n|why|]; simpl; [|naive_solver..]. split.
  - case_if; [done|]. case_if; [done|]. naive_solver.
  - intros (c'&[= <-]&?&?&?). rewrite !(proj2 (Z.eqb_neq _ _)) by done. simpl.
    by rewrite (proj2 (Z.leb_gt _ _)).
Qed.

(** The loop accepts a maximal run of records and then stops. *)
Lemma loop_spec fuel sc w pre rest :
  data = pre ++ rest → sc_offset sc = zlen pre → zlen rest <= Z.of_nat fuel →
  sc_last_valid_offset sc = sc_offset sc → sc_records_discarded sc = 0 →
  ∃ cs tail o r,
    rest = log_image cs ++ tail ∧ Forall loggable cs ∧ accepted (sc_last_decoded_seq sc) cs ∧
    stops (last_seq (sc_last_decoded_seq sc) cs) (sc_offset sc + zlen (log_image cs)) tail o ∧
    loop fuel sc w = Ret (foldl apply w (applied skip cs), r) ∧
    ends_with (scan_all skip cs sc) o r.
Proof.
  revert sc w pre rest. induction fuel as [|fuel IH]; intros sc w pre rest Hd Ho Hf Hv Hz.
  all: assert (zlen pre + zlen rest = zlen data) as Hlen by by rewrite Hd, zlen_app.
  all: destruct (decide (rest = [])) as [->|Hne].
  1, 3: (exists [], [], Clean, (Ok (Some (sc, Clean))); split_and!; try done; [by left | |
    unfold ends_with; destruct policy; (eexists; split; [done|]);
    unfold report_of, scan_discarded; simpl; by rewrite Hz]);
    change (zlen (@nil Z)) with 0 in Hlen; simpl; by rewrite (proj2 (Z.ltb_ge _ _)) by lia.
  all: assert (0 < zlen rest) by (destruct rest; [done|]; rewrite zlen_cons;
         pose proof (zlen_nonneg rest); lia).
  { lia. }
  assert (bytes_ok rest) as Hb.
  { rewrite Hd in data_ok. by apply Forall_app in data_ok as [_ ?]. }
  destruct (decode_commit_returns rest Hb) as [d Hdec].
  simpl. rewrite (proj2 (Z.ltb_lt _ _)) by lia.
  destruct (stop_reason (sc_last_decoded_seq sc) (sc_offset sc) d) as [o|] eqn:Hstop.
  - destruct (stop_step (loop fuel) sc w pre rest d o) as (r&Hr&Hends); [done..|].
    exists [], rest, o, r. split_and!; try done. right. split; [done|]. exists d.
    by rewrite Z.add_0_r.
  - pose proof Hstop as (c&->&Hlt&Hs1&Hs2)%stop_reason_None.
    pose proof (zlen_nonneg pre).
    apply decode_commit_image in Hdec as (Hc&He&rest'&->); [|done|lia].
    assert (loggable c) as Hlog by done.
    pose proof (zlen_record_image c). pose proof (payload_min c).
    rewrite zlen_app in *.
    destruct (scan_accept_shape (zlen (record_image c)) c sc) as (Hso&Hsv&Hsz&Hsd).
    destruct (IH (scan_accept skip (zlen (record_image c)) c sc)
                (if wc_commit_seq c <=? skip then w else apply w c)
                (pre ++ record_image c) rest') as (cs&tail&o&r&->&Hcs&Hacc&Hst&Hl&Hends).
    { by rewrite <-app_assoc. }
    { rewrite Hso, zlen_app. lia. }
    { lia. }
    { congruence. }
    { congruence. }
    exists (c :: cs), tail, o, r. rewrite log_image_cons, app_assoc, zlen_app, Z.add_assoc.
    rewrite Hso, Hsd in *. split_and!; try done.
    + by constructor.
    + unfold mbind, replayM_bind. rewrite (accept_step sc w pre c (log_image cs ++ tail)) by done.
      rewrite Hl, applied_cons. by destruct (wc_commit_seq c <=? skip).
Qed.
End memory.

(** ** The replay of a buffer *)

(** What [replay] returns for the accepted records [cs] and the outcome [o]. *)
Definition replay_result `{Crc32c} (policy : TailPolicy) (total skip : Z)
    (cs : list WalCommit) (o : ReplayOutcome) (r : res ReplayError (option ReplayReport)) : Prop :=
  match policy, is_clean o with
  | FailFast, false => ∃ e, r = Err e
  | _, _ => r = Ok (Some (report_after total skip cs o))
  end.

Lemma replay_spec `{Crc32c} {W} policy data skip (apply : W → WalCommit → W) w :
  bytes_ok data → zlen data <= usize_max → data ≠ [] →
  ∃ cs tail o r,
    data = log_image cs ++ tail ∧ Forall loggable cs ∧ accepted 0 cs ∧
    stops (last_seq 0 cs) (zlen (log_image cs)) tail o ∧
    replay policy data skip apply w = Ret (foldl apply w (applied skip cs), r) ∧
    replay_result policy (zlen data) skip cs o r.
Proof.
  intros Hok Hlen Hne.
  destruct (loop_spec policy data skip apply Hok Hlen (Z.to_nat (zlen data)) (scan_start skip)
              w [] data) as (cs&tail&o&r&Hd&Hcs&Hacc&Hst&Hl&Hends);
    [done..| pose proof (zlen_nonneg data); lia | done | done |].
  assert (zlen data ≠ 0) by (destruct data; [done|]; rewrite zlen_cons;
    pose proof (zlen_nonneg data); lia).
  unfold replay, replay_records. unfold mbind, replayM_bind, mret, replayM_ret in *.
  rewrite (proj2 (Z.eqb_neq _ _)) by done. rewrite Hl.
  pose proof (log_image_counts cs skip). pose proof (zlen_nonneg (applied skip cs)).
  pose proof (versions_nonneg (applied skip cs)).
  assert (zlen (log_image cs) <= zlen data) by (rewrite Hd, zlen_app; pose proof (zlen_nonneg tail); lia).
  rewrite scan_all_fields in Hends by (simpl; unfold usize_max in *; lia).
  unfold ends_with, replay_result, scan_discarded, report_after in *. simpl in Hends.
  destruct policy, (is_clean o) eqn:Ho.
  4: destruct Hends as [e ->]; exists cs, tail, o, (Err e); split_and!; [done..| rewrite Ho; eauto].
  all: destruct Hends as (sc'&->&Hrep); exists cs, tail, o; eexists; (split_and!; try done);
    by rewrite Hrep, Ho.
Qed.

(** The reading of a log: the records accepted, the bytes left, the outcome. *)
Definition log_reads `{Crc32c} (last offset : Z) (data : bytes) (cs : list WalCommit)
    (tail : bytes) (o : ReplayOutcome) : Prop :=
  data = log_image cs ++ tail ∧ Forall loggable cs ∧ accepted last cs ∧
  stops (last_seq last cs) (offset + zlen (log_image cs)) tail o.

Lemma stops_unique `{Crc32c} last off tail o o' :
  stops last off tail o → stops last off tail o' → o = o'.
Proof.
  intros [[-> ->]|(?&d&Hd&Ho)] [[? ->]|(?&d'&Hd'&Ho')]; [done..|]. congruence.
Qed.

(** A record in front of which the scan stops is not one it accepts. *)
Lemma stops_not_accepted `{Crc32c} last off c rest o :
  bytes_ok (record_image c ++ rest) → zlen (record_image c ++ rest) <= usize_max →
  loggable c → accepted last [c] → ¬ stops last off (record_image c ++ rest) o.
Proof.
  intros Hb Hl [Hc He] (?&?&?&_) [[Hnil _]|(_&d&Hd&Ho)].
  - apply (f_equal zlen) in Hnil. rewrite zlen_app, zlen_record_image in Hnil.
    pose proof (payload_min c). pose proof (zlen_nonneg rest).
    change (zlen (@nil Z)) with 0 in Hnil. lia.
  - assert (decode_commit (record_image c ++ rest) = Ret (Commit c)) as Hd'.
    { apply decode_commit_image; eauto. }
    rewrite Hd' in Hd. injection Hd as <-.
    assert (stop_reason last off (Commit c) = None) by (apply stop_reason_None; eauto).
    congruence.
Qed.

Lemma log_reads_unique `{Crc32c} last off data cs tail o cs' tail' o' :
  bytes_ok data → zlen data <= usize_max →
  log_reads last off data cs tail o → log_reads last off data cs' tail' o' →
  cs = cs' ∧ tail = tail' ∧ o = o'.
Proof.
  intros Hb Hl (Hd&Hcs&Hacc&Hst) (Hd'&Hcs'&Hacc'&Hst'). subst data.
  revert last off cs' Hd' Hacc Hst Hcs' Hacc' Hst'.
  induction Hcs as [|c cs Hc Hcs IH]; intros last off [|c' cs'] Hd' Hacc Hst Hcs' Hacc' Hst'.
  - simpl in Hd'. subst tail'. split_and!; [done..|]. by eapply stops_unique.
  - exfalso. change (tail = log_image (c' :: cs') ++ tail') in Hd'.
    apply Forall_cons in Hcs' as [? _]. simpl in Hacc'.
    rewrite log_image_cons, <-app_assoc in Hd'. subst tail.
    eapply stops_not_accepted; [exact Hb | exact Hl | done | | exact Hst]. naive_solver.
  - exfalso. change (log_image (c :: cs) ++ tail = tail') in Hd'.
    simpl in Hacc. rewrite log_image_cons, <-app_assoc in Hd', Hb, Hl.
    subst tail'. eapply stops_not_accepted; [exact Hb | exact Hl | done | | exact Hst'].
    naive_solver.
  - rewrite log_image_cons, <-app_assoc in Hb, Hl, Hd'.
    rewrite log_image_cons, <-app_assoc in Hd'.
    apply Forall_cons in Hcs' as [Hc' Hcs'].
    assert (c = c') as ->.
    { assert (decode_commit (record_image c ++ log_image cs ++ tail) = Ret (Commit c)) as H1
        by (apply decode_commit_image; [done..|destruct Hc; eauto]).
      assert (decode_commit (record_image c ++ log_image cs ++ tail) = Ret (Commit c')) as H2
        by (apply decode_commit_image; [done..|destruct Hc'; eauto]).
      congruence. }
    apply app_inv_head in Hd'. apply Forall_app in Hb as [_ Hb].
    rewrite zlen_app in Hl. pose proof (zlen_nonneg (record_image c')).
    rewrite log_image_cons, zlen_app, Z.add_assoc in Hst, Hst'.
    destruct Hacc as (_&_&_&Hacc), Hacc' as (_&_&_&Hacc').
    destruct (IH ltac:(lia) Hb (wc_commit_seq c') (off + zlen (record_image c')) cs')
      as (->&->&->); done.
Qed.

(** The outcome of a whole buffer: an empty one has its own. *)
Definition log_outcome (data : bytes) (o : ReplayOutcome) : ReplayOutcome :=
  if zlen data =? 0 then EmptyLog else o.

Lemma replay_reads `{Crc32c} {W} policy data skip (apply : W → WalCommit → W) w cs tail o :
  bytes_ok data → zlen data <= usize_max → log_reads 0 0 data cs tail o →
  ∃ r, replay policy data skip apply w = Ret (foldl apply w (applied skip cs), r) ∧
       replay_result policy (zlen data) skip cs (log_outcome data o) r.
Proof.
  intros Hb Hl Hr. unfold log_outcome. destruct (decide (data = [])) as [->|Hne].
  - destruct Hr as (Hd&_). symmetry in Hd. apply app_nil in Hd as [Hcs ->].
    assert (cs = []) as ->.
    { destruct cs as [|c cs]; [done|]. exfalso. apply (f_equal zlen) in Hcs.
      rewrite log_image_cons, zlen_app, zlen_record_image in Hcs.
      pose proof (payload_min c). pose proof (zlen_nonneg (log_image cs)).
      change (zlen (@nil Z)) with 0 in Hcs. lia. }
    eexists. split; [done|]. by destruct policy.
  - rewrite (proj2 (Z.eqb_neq _ _))
      by (destruct data; [done|]; rewrite zlen_cons; pose proof (zlen_nonneg data); lia).
    destruct (replay_spec policy data skip apply w Hb Hl Hne)
      as (cs'&tail'&o'&r&Hd&Hcs&Hacc&Hst&Hrun&Hres).
    assert (log_reads 0 0 data cs' tail' o') as Hr' by done.
    destruct (log_reads_unique 0 0 data cs tail o cs' tail' o') as (->&->&->); eauto.
Qed.

Lemma log_reads_exists `{Crc32c} data :
  bytes_ok data → zlen data <= usize_max → ∃ cs tail o, log_reads 0 0 data cs tail o.
Proof.
  intros Hb Hl. destruct (decide (data = [])) as [->|Hne].
  - exists [], [], Clean. split_and!; [done|done|done|by left].
  - destruct (replay_spec FailFast data 0 (λ u _, u) tt Hb Hl Hne)
      as (cs&tail&o&r&Hd&Hcs&Hacc&Hst&_). by exists cs, tail, o.
Qed.

(** ** Crashes *)

Lemma last_seq_default last c cs : last_seq last (cs ++ [c]) = wc_commit_seq c.
Proof. unfold last_seq. by rewrite foldl_app. Qed.

Lemma accepted_take last cs k : accepted last cs → accepted last (take k cs).
Proof. revert last k. induction cs as [|c cs IH]; intros last [|k]; naive_solver. Qed.

(** A prefix of a log is some of its records and a torn part of the next. *)
Lemma log_prefix `{Crc32c} cs p q :
  log_image cs = p ++ q →
  ∃ k torn, p = log_image (take k cs) ++ torn ∧
    (torn = [] ∨ ∃ c rest, cs !! k = Some c ∧ record_image c = torn ++ rest ∧ rest ≠ []).
Proof.
  revert p. induction cs as [|c cs IH]; intros p Hp.
  { symmetry in Hp. apply app_nil in Hp as [-> _]. exists 0%nat, []. auto. }
  rewrite log_image_cons in Hp. apply app_eq_app in Hp as (l&[[Hc Hq]|[-> Hq]]).
  - destruct l as [|x l].
    + rewrite app_nil_r in Hc. subst p. exists 1%nat, [].
      rewrite app_nil_r. split; [|by left]. change (take 1 (c :: cs)) with [c].
      by rewrite log_image_cons, app_nil_r.
    + exists 0%nat, p. split; [done|]. right. by exists c, (x :: l).
  - apply IH in Hq as (k&torn&->&Ht). exists (S k), torn. split; [|done].
    by rewrite firstn_cons, log_image_cons, app_assoc.
Qed.

(** The outcome after a crash that left [torn] of a record. *)
Definition torn_outcome (torn : bytes) : ReplayOutcome :=
  match torn with [] => Clean | _ => TruncatedTail 1 end.

Lemma crash_reads `{Crc32c} cs p q :
  Forall loggable cs → accepted 0 cs → log_image cs = p ++ q →
  ∃ k torn, log_reads 0 0 p (take k cs) torn (torn_outcome torn) ∧
    (torn = [] ∨ ∃ c rest, cs !! k = Some c ∧ record_image c = torn ++ rest ∧ rest ≠ []).
Proof.
  intros Hcs Hacc Hp. destruct (log_prefix cs p q Hp) as (k&torn&->&Ht).
  exists k, torn. split; [|done].
  split_and!; [done | by apply Forall_take | by apply accepted_take|].
  destruct torn as [|x torn]; [by left|]. right. split; [done|].
  destruct Ht as [?|(c&rest&Hk&Hc&Hrest)]; [done|].
  pose proof (Forall_lookup_1 _ _ _ _ Hcs Hk) as [_ He].
  eexists. split; [eapply (decode_commit_torn c (x :: torn) rest); done|]. done.
Qed.

(** Encoding the commits one by one gives the log's image. *)
Lemma encode_all_image `{Crc32c} cs es :
  Forall2 (λ c e, encode_commit c = Ret (Ok e)) cs es →
  concat es = log_image cs ∧ Forall encodable cs.
Proof.
  induction 1 as [|c e cs es He _ [IH1 IH2]]; [done|].
  apply encode_commit_Ok in He as [He ->]. split; [|by constructor].
  rewrite log_image_cons. simpl. by rewrite IH1.
Qed.

(** ** Properties *)

(** C27. Replay is exact on arbitrary bytes.  Every byte string reads in
    exactly one way as a run of well-formed records with increasing,
    sentinel-free sequence numbers followed by a tail the scan stops at.
    Replay then applies, in order, exactly the records of that run that the
    checkpoint does not cover, and reports their number, their versions, the
    length of the run, the last sequence number and why it stopped; under
    [FailFast] a bad tail is an error instead (after the same
    applications).  It always returns. *)
Theorem replay_applies_longest_valid_run `{Crc32c} {W : Type} (policy : TailPolicy)
    (data : bytes) (skip : Z) (apply : W → WalCommit → W) (w : W) :
  bytes_ok data → zlen data <= usize_max →
  ∃ cs tail o r,
    log_reads 0 0 data cs tail o ∧
    (∀ cs' tail' o', log_reads 0 0 data cs' tail' o' → cs' = cs ∧ tail' = tail ∧ o' = o) ∧
    replay policy data skip apply w = Ret (foldl apply w (applied skip cs), r) ∧
    replay_result policy (zlen data) skip cs (log_outcome data o) r.
Proof.
  intros Hb Hl. destruct (log_reads_exists data Hb Hl) as (cs&tail&o&Hr).
  destruct (replay_reads policy data skip apply w cs tail o Hb Hl Hr) as (r&?&?).
  exists cs, tail, o, r. split_and!; [done| |done..].
  intros cs' tail' o' Hr'. by apply (log_reads_unique 0 0 data).
Qed.

(** C17. Crash recovery.  Let a log hold the encodings of commits with
    increasing, sentinel-free numbers, and let a crash keep an arbitrary
    prefix of it.  Then replay applies exactly the commits whose records
    survived completely (minus those a checkpoint covers), reports a clean
    log when the cut fell between records and one discarded record
    otherwise, and reports the offset of the cut's last complete record. *)
Theorem crash_prefix_recovered `{Crc32c} {W : Type} (cs : list WalCommit) (es : list bytes)
    (p q : bytes) (skip : Z) (apply : W → WalCommit → W) (w : W) :
  Forall2 (λ c e, encode_commit c = Ret (Ok e)) cs es →
  Forall commit_ok cs → accepted 0 cs → concat es = p ++ q → zlen p <= usize_max →
  ∃ k torn,
    p = concat (take k es) ++ torn ∧
    (torn = [] ∨ ∃ e rest, es !! k = Some e ∧ e = torn ++ rest ∧ rest ≠ []) ∧
    replay TruncateToLastGood p skip apply w =
      Ret (foldl apply w (applied skip (take k cs)),
           Ok (Some (report_after (zlen p) skip (take k cs)
                       (log_outcome p (torn_outcome torn))))).
Proof.
  intros Henc Hok Hacc Hpq Hl. destruct (encode_all_image cs es Henc) as [Himg He].
  assert (Forall loggable cs) as Hcs by (by apply Forall_and).
  rewrite Himg in Hpq.
  destruct (crash_reads cs p q Hcs Hacc Hpq) as (k&torn&Hr&Ht).
  assert (bytes_ok p) as Hb.
  { pose proof (log_image_ok cs Hcs) as Hb. rewrite Hpq in Hb. by apply Forall_app in Hb as [? _]. }
  exists k, torn. split_and!.
  - destruct Hr as (->&_). f_equal. symmetry.
    apply (encode_all_image (take k cs) (take k es)). by apply Forall2_take.
  - destruct Ht as [?|(c&rest&Hk&Hc&?)]; [by left|right].
    destruct (Forall2_lookup_l _ _ _ _ _ Henc Hk) as (e&Hke&[_ ->]%encode_commit_Ok). eauto.
  - destruct (replay_reads TruncateToLastGood p skip apply w _ _ _ Hb Hl Hr) as (r&->&Hres).
    simpl in Hres. by rewrite Hres.
Qed.

(** Truncating a log at the reported offset is idempotent.  If a replay
    returned a report, then the strict ([FailFast]) replay of the log cut at
    [last_valid_offset] succeeds, ends clean, leaves the same state and
    reports the same commits, versions, offset and last sequence number. *)
Lemma truncated_log_replays_clean `{Crc32c} {W : Type} (data : bytes) (skip : Z)
    (apply : W → WalCommit → W) (w w' : W) (rep : ReplayReport) :
  bytes_ok data → zlen data <= usize_max →
  replay TruncateToLastGood data skip apply w = Ret (w', Ok (Some rep)) →
  ∃ good rep',
    slice data 0 (rr_last_valid_offset rep) = Ret good ∧
    replay FailFast good skip apply w = Ret (w', Ok (Some rep')) ∧
    is_clean (rr_outcome rep') = true ∧
    rr_commits_replayed rep' = rr_commits_replayed rep ∧
    rr_versions_replayed rep' = rr_versions_replayed rep ∧
    rr_last_valid_offset rep' = rr_last_valid_offset rep ∧
    rr_last_commit_seq rep' = rr_last_commit_seq rep.
Proof.
  intros Hb Hl Hrep. destruct (log_reads_exists data Hb Hl) as (cs&tail&o&Hr).
  destruct (replay_reads TruncateToLastGood data skip apply w cs tail o Hb Hl Hr) as (r&Hrun&Hres).
  rewrite Hrun in Hrep. injection Hrep as <- ->. simpl in Hres. injection Hres as ->.
  destruct Hr as (->&Hcs&Hacc&_). rewrite zlen_app in Hl. pose proof (zlen_nonneg tail).
  assert (log_reads 0 0 (log_image cs) cs [] Clean) as Hr.
  { split_and!; [by rewrite app_nil_r | done..| by left]. }
  destruct (replay_reads FailFast (log_image cs) skip apply w cs [] Clean) as (r&Hrun'&Hres');
    [by apply log_image_ok | lia | done |].
  exists (log_image cs), (report_after (zlen (log_image cs)) skip cs (log_outcome (log_image cs) Clean)).
  assert (is_clean (log_outcome (log_image cs) Clean) = true) as Hcl
    by (unfold log_outcome; by case_if).
  unfold replay_result in Hres'. rewrite Hcl in Hres'.
  split_and!; [by apply (slice_app [] (log_image cs) tail) | by rewrite Hrun', Hres' | done..].
Qed.

(** The replay loop terminates for every record source.  Whatever the
    decoder, the apply closure and the cancellation checkpoint do, each
    iteration that goes on advances the offset within the captured length,
    so [total_data_bytes] iterations are enough: the fuel of the model never
    runs out. *)
Lemma replay_loop_terminates {W : Type} (policy : TailPolicy) (total skip : Z)
    (decode : Z → replayM W (DecodeResult * option Z))
    (apply : WalCommit → replayM W unit) (checkpoint : replayM W unit) (w w' : W) :
  replay_records policy total skip decode apply checkpoint w ≠ Ret (w', Ok None).
Proof. apply replay_records_enough. Qed.

(** Witnesses: a log of three commits (numbers 2, 5, 9), replayed into the
    list of the sequence numbers applied. *)
Definition sample_log : list WalCommit :=
  [mkWalCommit 2 1 [mkWalWrite 10 [1; 2]]; mkWalCommit 5 2 [];
   mkWalCommit 9 4 [mkWalWrite 10 [3]; mkWalWrite 11 [4; 4]]].

Abbreviation sample_bytes := (log_image (H := BitwiseCrc) sample_log).

Definition note_seq (w : list Z) (c : WalCommit) : list Z := w ++ [wc_commit_seq c].

Lemma sample_loggable : Forall loggable sample_log.
Proof. repeat constructor; by vm_compute. Qed.

Lemma sample_accepted : accepted 0 sample_log.
Proof. vm_compute. repeat split; discriminate. Qed.

Lemma sample_reads :
  log_reads (H := BitwiseCrc) 0 0 (sample_bytes ++ [7; 7]) sample_log [7; 7] (TruncatedTail 1).
Proof.
  refine (conj eq_refl (conj sample_loggable (conj sample_accepted (or_intror (conj _ _)))));
    [done|]. exists (NeedMore 4). by split; vm_compute.
Qed.

Lemma replay_applies_longest_valid_run_witness :
  ∃ r, replay (H := BitwiseCrc) TruncateToLastGood (sample_bytes ++ [7; 7]) 2 note_seq [] =
         Ret ([5; 9], r) ∧ ∃ cs, length cs = 3%nat ∧
       replay_result (H := BitwiseCrc) TruncateToLastGood 130 2 cs (TruncatedTail 1) r.
Proof.
  destruct (replay_applies_longest_valid_run (H := BitwiseCrc) TruncateToLastGood
              (sample_bytes ++ [7; 7]) 2 note_seq []) as (cs&tail&o&r&_&Huniq&Hrun&Hres).
  - vm_compute. repeat constructor; done.
  - by vm_compute.
  - destruct (Huniq sample_log [7; 7] (TruncatedTail 1)) as (<-&<-&<-).
    { exact sample_reads. }
    exists r. split; [exact Hrun|]. exists sample_log. split; [done|]. exact Hres.
Defined.

Lemma crash_prefix_recovered_witness :
  ∃ k torn, take 70 sample_bytes = log_image (H := BitwiseCrc) (take k sample_log) ++ torn ∧
    replay (H := BitwiseCrc) TruncateToLastGood (take 70 sample_bytes) 0 note_seq [] =
      Ret (foldl note_seq [] (applied 0 (take k sample_log)),
           Ok (Some (report_after (H := BitwiseCrc) 70 0 (take k sample_log)
                       (log_outcome (take 70 sample_bytes) (torn_outcome torn))))).
Proof.
  destruct (crash_prefix_recovered (H := BitwiseCrc) sample_log
              (record_image (H := BitwiseCrc) <$> sample_log)
              (take 70 sample_bytes) (drop 70 sample_bytes) 0 note_seq [])
    as (k&torn&Hp&_&Hrun).
  - repeat constructor; vm_compute; reflexivity.
  - eapply Forall_impl; [exact sample_loggable|]. by intros c [? _].
  - exact sample_accepted.
  - by rewrite take_drop.
  - vm_compute. discriminate.
  - exists k, torn. split; [by rewrite Hp, <-fmap_take|].
    exact Hrun.
Defined.

