(* ===== verification/WalWriter.v ===== *)
(** * WalWriter: the append path of the log
      ([ffs-mvcc/src/wal_writer.rs], [wal_writer/stream.rs])

    The writer preflights a batch of commits, streams their encoding through
    a bounded buffer, optionally reads it back, and syncs by policy; a failure
    after the first byte truncates the file back durably, and a failed
    truncation seals the writer.  A file is its contents together with the
    length known to be durable; what the operating system answers to each
    call is an argument ([Io]), so every theorem holds for every pattern of
    faults.

    The results: the streamed bytes are the encoder's; an append that returns
    leaves exactly the records after the old contents; an append that fails
    leaves exactly the old contents, or a sealed writer whose durable prefix
    is intact. *)

From stdpp Require Import base sorting numbers gmap list.
From S2P Require Import Prelude Wal WalReplay.

Local Open Scope Z_scope.

(** ** Incremental CRC

    [crc32c_append] continues a checksum. *)
Class Crc32cAppend `{Crc32c} : Type := {
  crc32c_append : Z → bytes → Z;
  crc32c_append_start : ∀ b, crc32c_append 0 b = crc32c b;
  crc32c_append_nil : ∀ c, crc32c_append c [] = c;
  crc32c_append_app : ∀ c a b,
    crc32c_append c (a ++ b) = crc32c_append (crc32c_append c a) b;
  crc32c_append_u32 : ∀ c b, 0 <= c <= u32_max → 0 <= crc32c_append c b <= u32_max;
}.

Definition crc_append (c : Z) (b : bytes) : Z :=
  Z.lxor (fold_left crc_byte b (Z.lxor c u32_max)) u32_max.

Lemma crc_append_app c a b : crc_append c (a ++ b) = crc_append (crc_append c a) b.
Proof.
  unfold crc_append. rewrite fold_left_app. do 2 f_equal.
  by rewrite Z.lxor_assoc, Z.lxor_nilpotent, Z.lxor_0_r.
Qed.

Lemma crc_append_nil c : crc_append c [] = c.
Proof. unfold crc_append. simpl. by rewrite Z.lxor_assoc, Z.lxor_nilpotent, Z.lxor_0_r. Qed.

Lemma crc_append_start b : crc_append 0 b = crc_bitwise b.
Proof. unfold crc_append, crc_bitwise. by rewrite Z.lxor_0_l. Qed.

Lemma crc_append_u32 c b : 0 <= c <= u32_max → 0 <= crc_append c b <= u32_max.
Proof.
  intros Hc. unfold crc_append. apply lxor_u32; [|by vm_compute]. apply crc_fold_u32.
  apply lxor_u32; [done|by vm_compute].
Qed.

Definition BitwiseCrcAppend : Crc32cAppend (H := BitwiseCrc) :=
  @Build_Crc32cAppend BitwiseCrc crc_append crc_append_start crc_append_nil crc_append_app crc_append_u32.

(** ** Files *)

(** [f_synced] bytes at the front survive a crash. *)
Record WalFile := mkWalFile { f_bytes : bytes; f_synced : Z }.

(** [write_all_at]: overwrite from [pos] on, padding a hole with zeros. *)
Definition pwrite (b : bytes) (pos : Z) (data : bytes) : bytes :=
  let p := Z.to_nat pos in
  let padded := b ++ replicate (p - length b) 0 in
  take p padded ++ data ++ drop (p + length data) padded.

(** [set_len] *)
Definition resize (b : bytes) (n : Z) : bytes :=
  let n := Z.to_nat n in take n b ++ replicate (n - length b) 0.

(** A write may be lost from the durable prefix only by truncating it. *)
Definition file_write (f : WalFile) (pos : Z) (data : bytes) : WalFile :=
  mkWalFile (pwrite (f_bytes f) pos data) (Z.min (f_synced f) pos).
Definition file_set_len (f : WalFile) (n : Z) : WalFile :=
  mkWalFile (resize (f_bytes f) n) (Z.min (f_synced f) n).
Definition file_sync (f : WalFile) : WalFile := mkWalFile (f_bytes f) (zlen (f_bytes f)).

(** The system's answers during one append.  Allocation [k] succeeds or
    fails (the two vectors of a batch, then the two scratch buffers).  Chunk [i] is written
    completely ([None]) or the call fails after some bytes landed; a readback
    returns bytes or fails; [set_len] and [sync_all] succeed or fail, and a
    failed [set_len] may or may not have taken effect. *)
Record Io := mkIo {
  io_alloc : nat → bool;
  io_write : nat → option Z;
  io_read : nat → option bytes;
  io_sync : bool;
  io_rollback_set_len : option bool;
  io_rollback_sync : bool;
}.

(** ** Errors, policy, configuration *)

Inductive Violation :=
| TooManyWalWrites
| WriteHeadersExceedLimit
| WalWriteLengthExceedsU32
| WalRecordLengthExceedsU32
| RecordExceedsAddressSpace
| WritePositionOverflowed
| BatchExceedsAddressSpace
| EmptyPreparedAppend
| EmptyStreamingBuffer
| ShortReadbackBuffer
| SentinelInBatch
| NonIncreasingSeq (seq prev : Z)
| StaleCheckpointHorizon.

Inductive RecoveryReason :=
| RollbackFailed (offset : Z)
| FlushFailed
| InspectFailed
| LengthChanged (expected observed : Z)
| TruncationFailed.

Inductive WalWriteError :=
| AppendIo (bytes_attempted : Z)
| SyncIo
| FormatViolation (detail : Violation)
| VerificationFailed (expected_crc actual_crc offset : Z)
| Backpressure (wal_size threshold : Z)
| RecoveryRequired (detail : RecoveryReason).

Definition is_retryable (e : WalWriteError) : bool :=
  match e with AppendIo _ | Backpressure _ _ => true | _ => false end.

Definition is_fatal (e : WalWriteError) : bool :=
  match e with
  | FormatViolation _ | VerificationFailed _ _ _ | RecoveryRequired _ => true
  | _ => false
  end.

Inductive SyncPolicy := Immediate | EveryN (n : Z) | Manual.

Record WalWriterConfig := mkWriterConfig {
  sync_policy : SyncPolicy;
  verify_writes : bool;
  backpressure_threshold_bytes : Z;
}.

Record AppendResult := mkAppendResult {
  ar_offset : Z;
  ar_bytes_written : Z;
  ar_synced : bool;
  ar_pending_sync_count : Z;
}.

Record WalWriter := mkWriter {
  w_file : WalFile;
  write_pos : Z;
  config : WalWriterConfig;
  appends_since_sync : Z;
  last_commit_seq : Z;
  next_operation_id : Z;
  recovery_required : option RecoveryReason;
}.

Definition writer_new (file : WalFile) (pos : Z) (cfg : WalWriterConfig) : WalWriter :=
  mkWriter file pos cfg 0 0 1 None.

(** *** Field updates *)

Definition set_file (w : WalWriter) (f : WalFile) : WalWriter :=
  mkWriter f (write_pos w) (config w) (appends_since_sync w) (last_commit_seq w)
    (next_operation_id w) (recovery_required w).
Definition set_write_pos (w : WalWriter) (pos : Z) : WalWriter :=
  mkWriter (w_file w) pos (config w) (appends_since_sync w) (last_commit_seq w)
    (next_operation_id w) (recovery_required w).
Definition set_pending (w : WalWriter) (n : Z) : WalWriter :=
  mkWriter (w_file w) (write_pos w) (config w) n (last_commit_seq w)
    (next_operation_id w) (recovery_required w).
Definition set_last_commit_seq (w : WalWriter) (seq : Z) : WalWriter :=
  mkWriter (w_file w) (write_pos w) (config w) (appends_since_sync w) seq
    (next_operation_id w) (recovery_required w).

Definition next_op_id (w : WalWriter) : WalWriter :=
  mkWriter (w_file w) (write_pos w) (config w) (appends_since_sync w) (last_commit_seq w)
    (saturating_add u64_max (next_operation_id w) 1) (recovery_required w).

(** ** Guards *)

Definition ensure_ready (w : WalWriter) : res WalWriteError () :=
  match recovery_required w with
  | Some detail => Err (RecoveryRequired detail)
  | None => Ok ()
  end.

(** The first reason stays. *)
Definition require_recovery (w : WalWriter) (detail : RecoveryReason) : WalWriter * WalWriteError :=
  let reason := default detail (recovery_required w) in
  (mkWriter (w_file w) (write_pos w) (config w) (appends_since_sync w) (last_commit_seq w)
     (next_operation_id w) (Some reason), RecoveryRequired reason).

Definition is_backpressured (w : WalWriter) : bool :=
  (0 <? backpressure_threshold_bytes (config w)) &&
  (backpressure_threshold_bytes (config w) <=? write_pos w).

Definition check_stream_backpressure (w : WalWriter) : res WalWriteError () :=
  if is_backpressured w
  then Err (Backpressure (write_pos w) (backpressure_threshold_bytes (config w)))
  else Ok ().

Fixpoint validate_commits (prev_seq : Z) (commits : list WalCommit) : res WalWriteError Z :=
  match commits with
  | [] => Ok prev_seq
  | c :: commits' =>
      if (wc_commit_seq c =? u64_max) || (wc_txn_id c =? u64_max)
      then Err (FormatViolation SentinelInBatch)
      else if wc_commit_seq c <=? prev_seq
      then Err (FormatViolation (NonIncreasingSeq (wc_commit_seq c) prev_seq))
      else validate_commits (wc_commit_seq c) commits'
  end.

Definition validate_coalesced_commits (w : WalWriter) (commits : list WalCommit) :
    res WalWriteError Z :=
  validate_commits (last_commit_seq w) commits.

(** ** Layout of a record *)

Definition CHUNK_BYTES : Z := 64 * 1024.
Definition WRITE_HEADER_BYTES : Z := 12.

Fixpoint layout_body (body : Z) (lengths : list Z) : res WalWriteError Z :=
  match lengths with
  | [] => Ok body
  | len :: lengths' =>
      if negb (len <=? u32_max) then Err (FormatViolation WalWriteLengthExceedsU32)
      else
        match checked_add u32_max body len with
        | Some body' => layout_body body' lengths'
        | None => Err (FormatViolation WalRecordLengthExceedsU32)
        end
  end.

Definition layout (lengths : list Z) : res WalWriteError (Z * Z * Z) :=
  let count := zlen lengths in
  if negb (count <=? u32_max) then Err (FormatViolation TooManyWalWrites)
  else
    let minimum_body := MIN_COMMIT_RECORD_SIZE - 4 in
    match n ← checked_mul u32_max count WRITE_HEADER_BYTES;
          checked_add u32_max n minimum_body with
    | None => Err (FormatViolation WriteHeadersExceedLimit)
    | Some body =>
      match layout_body body lengths with
      | Err e => Err e
      | Ok body =>
        match checked_add usize_max body 4 with
        | Some n => Ok (body, count, n)
        | None => Err (FormatViolation RecordExceedsAddressSpace)
        end
      end
    end.

Record PreparedRecord := mkPrepared {
  pr_commit : WalCommit;
  pr_body : Z;
  pr_count : Z;
  pr_bytes : Z;
}.

Definition prepare (c : WalCommit) : res WalWriteError PreparedRecord :=
  match layout ((λ w, zlen (ww_data w)) <$> wc_writes c) with
  | Ok (body, count, n) => Ok (mkPrepared c body count n)
  | Err e => Err e
  end.

(** ** Streaming *)

(** [slice::chunks]; the length is enough fuel. *)
Fixpoint chunks_loop (fuel : nat) (n : nat) (l : bytes) : list bytes :=
  match fuel, l with
  | S fuel', _ :: _ => take n l :: chunks_loop fuel' n (drop n l)
  | _, _ => []
  end.
Definition chunks (n : Z) (l : bytes) : list bytes := chunks_loop (length l) (Z.to_nat n) l.

Section streaming.
Context `{Crc32cAppend}.

(** The pieces [emit] hands to its sink for the writes, with the running CRC. *)
Fixpoint emit_writes (crc : Z) (ws : list WalWrite) : list bytes * Z :=
  match ws with
  | [] => ([], crc)
  | w :: ws' =>
      let header := le_bytes 8 (ww_block w) ++ le_bytes 4 (zlen (ww_data w)) in
      let crc := crc32c_append crc header in
      let pieces := chunks CHUNK_BYTES (ww_data w) in
      let crc := foldl crc32c_append crc pieces in
      let '(rest, crc) := emit_writes crc ws' in
      (header :: pieces ++ rest, crc)
  end.

(** [PreparedRecord::emit]: everything handed to the sink, in order. *)
Definition emit (r : PreparedRecord) : list bytes :=
  let c := pr_commit r in
  let header := [RECORD_TYPE_COMMIT] ++ le_bytes 8 (wc_commit_seq c) ++
                le_bytes 8 (wc_txn_id c) ++ le_bytes 4 (pr_count r) in
  let '(pieces, crc) := emit_writes (crc32c header) (wc_writes c) in
  le_bytes 4 (pr_body r) :: header :: pieces ++ [le_bytes 4 crc].

(** The [while !bytes.is_empty()] loop that fills the buffer; a piece's length
    is enough fuel.  Returns the full buffers handed on and what is in use. *)
Fixpoint fill_loop (fuel : nat) (cap : nat) (used piece : bytes) (out : list bytes) :
    list bytes * bytes :=
  match fuel, piece with
  | S fuel', _ :: _ =>
      let count := (length piece `min` (cap - length used))%nat in
      let used := used ++ take count piece in
      let piece := drop count piece in
      if (length used =? cap)%nat then fill_loop fuel' cap [] piece (out ++ [used])
      else fill_loop fuel' cap used piece out
  | _, _ => (out, used)
  end.

Definition fill (cap : nat) (st : list bytes * bytes) (piece : bytes) : list bytes * bytes :=
  fill_loop (length piece) cap st.2 piece st.1.

(** [emit_chunks]: the buffers handed to the sink, in order. *)
Definition emit_chunks (records : list PreparedRecord) (buffer_len : Z) :
    res WalWriteError (list bytes) :=
  if buffer_len =? 0 then Err (FormatViolation EmptyStreamingBuffer)
  else
    let '(out, used) :=
      foldl (λ st r, foldl (fill (Z.to_nat buffer_len)) st (emit r)) ([], []) records in
    Ok (match used with [] => out | _ => out ++ [used] end).

Definition next_offset (offset n : Z) : res WalWriteError Z :=
  match checked_add u64_max offset n with
  | Some o => Ok o
  | None => Err (FormatViolation WritePositionOverflowed)
  end.

(** ** Writing and reading back *)

(** [write_streamed]'s sink over the buffers: chunk [i] goes to [offset]. *)
Fixpoint write_chunks (io : Io) (total : Z) (i : nat) (f : WalFile) (offset : Z)
    (cs : list bytes) : WalFile * res WalWriteError () :=
  match cs with
  | [] => (f, Ok ())
  | c :: cs' =>
      match io_write io i with
      | Some landed => (file_write f offset (take (Z.to_nat landed) c), Err (AppendIo total))
      | None =>
          let f := file_write f offset c in
          match next_offset offset (zlen c) with
          | Ok offset => write_chunks io total (S i) f offset cs'
          | Err e => (f, Err e)
          end
      end
  end.

Definition write_streamed (io : Io) (w : WalWriter) (records : list PreparedRecord)
    (buffer_len total : Z) : WalFile * res WalWriteError () :=
  match emit_chunks records buffer_len with
  | Err e => (w_file w, Err e)
  | Ok cs => write_chunks io total 0 (w_file w) (write_pos w) cs
  end.

Fixpoint verify_chunks (io : Io) (start total : Z) (i : nat) (offset : Z) (equal : bool)
    (expected_crc actual_crc : Z) (cs : list bytes) : res WalWriteError () :=
  match cs with
  | [] => if equal then Ok () else Err (VerificationFailed expected_crc actual_crc start)
  | c :: cs' =>
      match io_read io i with
      | None => Err (AppendIo total)
      | Some actual =>
          match next_offset offset (zlen c) with
          | Ok offset =>
              verify_chunks io start total (S i) offset (equal && bool_decide (actual = c))
                (crc32c_append expected_crc c) (crc32c_append actual_crc actual) cs'
          | Err e => Err e
          end
      end
  end.

Definition verify_streamed (io : Io) (w : WalWriter) (records : list PreparedRecord)
    (buffer_len readback_len total : Z) : res WalWriteError () :=
  match next_offset (write_pos w) total with
  | Err e => Err e
  | Ok _ =>
      if readback_len <? buffer_len then Err (FormatViolation ShortReadbackBuffer)
      else
        match emit_chunks records buffer_len with
        | Err e => Err e
        | Ok cs => verify_chunks io (write_pos w) total 0 (write_pos w) true 0 0 cs
        end
  end.

(** ** Durable rollback *)

Definition truncate_and_sync_rollback (io : Io) (f : WalFile) (write_offset : Z) : WalFile * bool :=
  match io_rollback_set_len io with
  | None =>
      let f := file_set_len f write_offset in
      if io_rollback_sync io then (file_sync f, true) else (f, false)
  | Some took_effect => ((if took_effect then file_set_len f write_offset else f), false)
  end.

Definition rollback_failed_append (io : Io) (w : WalWriter) (write_offset pending_before : Z)
    (error : WalWriteError) : WalWriter * WalWriteError :=
  let w := set_pending w pending_before in
  let '(f, ok) := truncate_and_sync_rollback io (w_file w) write_offset in
  let w := set_file w f in
  if ok then (set_write_pos w write_offset, error)
  else require_recovery w (RollbackFailed write_offset).

(** ** Syncing *)

Definition do_sync (io : Io) (w : WalWriter) : WalWriter * res WalWriteError () :=
  if io_sync io then (set_pending (set_file w (file_sync (w_file w))) 0, Ok ())
  else (w, Err SyncIo).

Definition maybe_sync (io : Io) (w : WalWriter) : WalWriter * res WalWriteError bool :=
  let should_sync := match sync_policy (config w) with
                     | Immediate => true
                     | EveryN n => n <=? appends_since_sync w
                     | Manual => false
                     end in
  if should_sync then
    match do_sync io w with
    | (w, Ok _) => (w, Ok true)
    | (w, Err e) => (w, Err e)
    end
  else (w, Ok false).

Definition flush (io : Io) (w : WalWriter) : WalWriter * res WalWriteError Z :=
  match ensure_ready w with
  | Err e => (w, Err e)
  | Ok _ =>
      let pending := appends_since_sync w in
      if pending =? 0 then (w, Ok 0)
      else
        match do_sync io (next_op_id w) with
        | (w, Ok _) => (w, Ok pending)
        | (w, Err _) => let '(w, e) := require_recovery w FlushFailed in (w, Err e)
        end
  end.

(** ** Appending *)

Definition fails {A} (r : WalWriter * WalWriteError) : WalWriter * res WalWriteError A :=
  (r.1, Err r.2).

Definition append_prepared_streamed (io : Io) (w : WalWriter) (records : list PreparedRecord)
    (results : list AppendResult) (total : Z) : WalWriter * res WalWriteError (list AppendResult) :=
  match last records with
  | None => (w, Err (FormatViolation EmptyPreparedAppend))
  | Some newest =>
    let base := write_pos w in
    match next_offset base total with
    | Err e => (w, Err e)
    | Ok end_ =>
      let pending_before := appends_since_sync w in
      let buffer_len := Z.min total CHUNK_BYTES in
      if negb (io_alloc io 2) then (w, Err (AppendIo buffer_len))
      else if verify_writes (config w) && negb (io_alloc io 3) then (w, Err (AppendIo buffer_len))
      else
        match write_streamed io w records buffer_len total with
        | (f, Err e) => fails (rollback_failed_append io (set_file w f) base pending_before e)
        | (f, Ok _) =>
          let w := set_file w f in
          let verified := if verify_writes (config w)
                          then verify_streamed io w records buffer_len buffer_len total
                          else Ok () in
          match verified with
          | Err e => fails (rollback_failed_append io w base pending_before e)
          | Ok _ =>
            let w := set_write_pos w end_ in
            let w := set_pending w (saturating_add u32_max (appends_since_sync w)
                                      (Z.min (zlen records) u32_max)) in
            match maybe_sync io w with
            | (w, Err e) => fails (rollback_failed_append io w base pending_before e)
            | (w, Ok synced) =>
              let w := set_last_commit_seq w (wc_commit_seq (pr_commit newest)) in
              (w, Ok ((λ r, mkAppendResult (ar_offset r) (ar_bytes_written r) synced
                              (appends_since_sync w)) <$> results))
            end
          end
        end
    end
  end.

Definition append_one_streamed (io : Io) (w : WalWriter) (commit : WalCommit) :
    WalWriter * res WalWriteError AppendResult :=
  match ensure_ready w with
  | Err e => (w, Err e)
  | Ok _ =>
    let w := next_op_id w in
    match validate_coalesced_commits w [commit] with
    | Err e => (w, Err e)
    | Ok _ =>
      match check_stream_backpressure w with
      | Err e => (w, Err e)
      | Ok _ =>
        match prepare commit with
        | Err e => (w, Err e)
        | Ok record =>
          match append_prepared_streamed io w [record]
                  [mkAppendResult (write_pos w) (pr_bytes record) false 0] (pr_bytes record) with
          | (w, Ok (r :: _)) => (w, Ok r)
          | (w, Ok []) => (w, Err (FormatViolation EmptyPreparedAppend))
          | (w, Err e) => (w, Err e)
          end
        end
      end
    end
  end.

Definition append_commit := append_one_streamed.

(** The layout pass of a batch. *)
Fixpoint prepare_many (offset total : Z) (commits : list WalCommit) (records : list PreparedRecord)
    (results : list AppendResult) :
    res WalWriteError (list PreparedRecord * list AppendResult * Z) :=
  match commits with
  | [] => Ok (records, results, total)
  | c :: commits' =>
    match prepare c with
    | Err e => Err e
    | Ok record =>
      match next_offset offset (pr_bytes record) with
      | Err e => Err e
      | Ok end_ =>
        match checked_add usize_max total (pr_bytes record) with
        | None => Err (FormatViolation BatchExceedsAddressSpace)
        | Some total =>
            prepare_many end_ total commits' (records ++ [record])
              (results ++ [mkAppendResult offset (end_ - offset) false 0])
        end
      end
    end
  end.

Definition append_many_streamed (io : Io) (w : WalWriter) (commits : list WalCommit) :
    WalWriter * res WalWriteError (list AppendResult) :=
  match ensure_ready w with
  | Err e => (w, Err e)
  | Ok _ =>
    match commits with
    | [] => (w, Ok [])
    | _ =>
      let w := next_op_id w in
      match validate_coalesced_commits w commits with
      | Err e => (w, Err e)
      | Ok _ =>
        match check_stream_backpressure w with
        | Err e => (w, Err e)
        | Ok _ =>
          if negb (io_alloc io 0 && io_alloc io 1) then (w, Err (AppendIo 0))
          else
            match prepare_many (write_pos w) 0 commits [] [] with
            | Err e => (w, Err e)
            | Ok (records, results, total) => append_prepared_streamed io w records results total
            end
        end
      end
    end
  end.

Definition append_commits_coalesced := append_many_streamed.

(** ** Truncation after a checkpoint; [observed] is the file's length, if it
    can be read. *)
Definition truncate_after_checkpoint (io : Io) (observed : option Z) (w : WalWriter)
    (checkpoint_commit_seq : Z) : WalWriter * res WalWriteError Z :=
  match ensure_ready w with
  | Err e => (w, Err e)
  | Ok _ =>
    if (checkpoint_commit_seq =? u64_max) || (checkpoint_commit_seq <? last_commit_seq w)
    then (w, Err (FormatViolation StaleCheckpointHorizon))
    else
      match observed with
      | None => fails (require_recovery w InspectFailed)
      | Some observed_size =>
        if (write_pos w <? HEADER_SIZE) || negb (observed_size =? write_pos w)
        then fails (require_recovery w (LengthChanged (write_pos w) observed_size))
        else
          let '(f, ok) := truncate_and_sync_rollback io (w_file w) HEADER_SIZE in
          let w := set_file w f in
          if ok then
            (set_pending (set_last_commit_seq (set_write_pos w HEADER_SIZE)
                            checkpoint_commit_seq) 0, Ok HEADER_SIZE)
          else fails (require_recovery w TruncationFailed)
      end
  end.

(** ** The stream is the encoding *)

#[local] Opaque le_bytes.

Lemma chunks_loop_concat fuel n l : (0 < n)%nat → (length l <= fuel)%nat →
  concat (chunks_loop fuel n l) = l.
Proof.
  intros Hn. revert l. induction fuel as [|fuel IH]; intros [|x l] Hl; simpl in *; [done|lia|done|].
  destruct n as [|n]; [lia|]. rewrite IH by (rewrite length_drop; simpl; lia).
  by rewrite take_drop.
Qed.

Lemma chunks_concat n l : 0 < n → concat (chunks n l) = l.
Proof. intros Hn. apply chunks_loop_concat; lia. Qed.

Lemma crc_pieces c ps : foldl crc32c_append c ps = crc32c_append c (concat ps).
Proof.
  revert c. induction ps as [|p ps IH]; intros c; simpl; [by rewrite crc32c_append_nil|].
  by rewrite IH, crc32c_append_app.
Qed.

Lemma emit_writes_image crc ws :
  concat (emit_writes crc ws).1 = writes_image ws ∧
  (emit_writes crc ws).2 = crc32c_append crc (writes_image ws).
Proof.
  revert crc. induction ws as [|w ws IH]; intros crc.
  { simpl. by rewrite crc32c_append_nil. }
  simpl. rewrite crc_pieces, chunks_concat by done.
  match goal with |- context [emit_writes ?c ws] => specialize (IH c); destruct (emit_writes c ws) end.
  simpl in *. destruct IH as [IH1 IH2].
  rewrite concat_app, IH1, IH2, chunks_concat by done.
  rewrite writes_image_cons. unfold write_image. rewrite <-!app_assoc. split; [done|].
  by rewrite !crc32c_append_app.
Qed.

(** A prepared record: its layout fields are those of the commit. *)
Definition prepared_ok (r : PreparedRecord) : Prop :=
  encodable (pr_commit r) ∧ pr_body r = zlen (payload (pr_commit r)) + 4 ∧
  pr_count r = zlen (wc_writes (pr_commit r)) ∧ pr_bytes r = zlen (record_image (pr_commit r)).

Lemma emit_image r : prepared_ok r → concat (emit r) = record_image (pr_commit r).
Proof.
  intros (_&Hb&Hc&_). unfold emit. rewrite Hb, Hc.
  match goal with |- context [emit_writes ?c ?ws] =>
    pose proof (emit_writes_image c ws) as [H1 H2]; destruct (emit_writes c ws) end.
  cbn [fst snd] in *. subst. cbn [concat]. rewrite concat_app, H1. cbn [concat].
  rewrite app_nil_r. unfold record_image, payload. rewrite <-!app_assoc.
  do 7 f_equal. rewrite <-crc32c_append_start, <-crc32c_append_app, crc32c_append_start.
  by rewrite <-!app_assoc.
Qed.

Lemma layout_body_Ok body ws n : 0 <= body <= u32_max →
  layout_body body ((λ w, zlen (ww_data w)) <$> ws) = Ok n ↔
  n = body + zlen (writes_image ws) - 12 * zlen ws ∧ n <= u32_max.
Proof.
  revert body. induction ws as [|w ws IH]; intros body Hb.
  { change (zlen (writes_image [])) with 0. change (zlen (@nil WalWrite)) with 0. simpl.
    split; [intros [= <-]; lia | intros [-> ?]; f_equal; lia]. }
  rewrite writes_image_cons, zlen_app, zlen_write_image, zlen_cons. simpl.
  pose proof (zlen_nonneg (ww_data w)). pose proof (writes_image_count ws).
  unfold checked_add. case_if; [split; [done | lia]|].
  case_if; [|split; [done | lia]]. rewrite IH by lia. split; lia.
Qed.

(** The streaming preflight accepts exactly what the encoder accepts. *)
Lemma prepare_Ok c r :
  prepare c = Ok r ↔ encodable c ∧ pr_commit r = c ∧ prepared_ok r.
Proof.
  unfold prepare, layout, prepared_ok, encodable.
  assert (zlen ((λ w, zlen (ww_data w)) <$> wc_writes c) = zlen (wc_writes c)) as ->
    by (unfold zlen; by rewrite length_fmap).
  pose proof (writes_image_count (wc_writes c)) as Hcount.
  pose proof (zlen_nonneg (wc_writes c)). rewrite zlen_payload.
  change (MIN_COMMIT_RECORD_SIZE - 4) with 25. unfold WRITE_HEADER_BYTES.
  split.
  - case_if; [done|]. destruct (checked_mul _ _ _) as [n|] eqn:En; simpl; [|done].
    unfold checked_mul in En. case_if_in En; [|done]. injection En as <-.
    unfold checked_add at 1. case_if; [|done].
    destruct (layout_body _ _) as [body|] eqn:Eb; [|done].
    apply layout_body_Ok in Eb as [-> Hb]; [|lia].
    unfold checked_add. case_if; [|done]. intros [= <-]. simpl.
    rewrite zlen_record_image, !zlen_payload. split_and!; try done; lia.
  - intros (He&<-&_&Hb&Hc&Hn). rewrite zlen_record_image, zlen_payload in *.
    unfold u32_max, usize_max, u64_max in *.
    rewrite (proj2 (Z.leb_le _ _)) by lia. unfold checked_mul. cbn [negb].
    rewrite (proj2 (Z.leb_le _ _)) by lia. cbn [mbind option_bind]. unfold checked_add at 1.
    rewrite (proj2 (Z.leb_le _ _)) by lia.
    rewrite (proj2 (layout_body_Ok (zlen (wc_writes (pr_commit r)) * 12 + 25)
      (wc_writes (pr_commit r)) (pr_body r) ltac:(unfold u32_max; lia))) by (unfold u32_max; lia).
    unfold checked_add. rewrite (proj2 (Z.leb_le _ _)) by lia.
    destruct r as [rc rb rcount rn]; simpl in *. do 2 f_equal; lia.
Qed.

(** *** Buffering loses nothing *)

Lemma fill_loop_concat fuel cap used piece out :
  (length used < cap)%nat → (length piece <= fuel)%nat →
  let r := fill_loop fuel cap used piece out in
  concat r.1 ++ r.2 = concat out ++ used ++ piece ∧ (length r.2 < cap)%nat.
Proof.
  revert used piece out. induction fuel as [|fuel IH]; intros used [|x piece] out Hu Hp;
    cbn [fill_loop fst snd]; [by rewrite app_nil_r|simpl in Hp; lia|by rewrite app_nil_r|].
  set (p := x :: piece) in *. set (count := (length p `min` (cap - length used))%nat).
  assert (1 <= count <= length p)%nat as Hc by (unfold count, p; cbn [length]; lia).
  assert (length (used ++ take count p) = length used + count)%nat as Hl
    by (rewrite length_app, length_take; lia).
  assert (length (drop count p) <= fuel)%nat by (rewrite length_drop; lia).
  destruct (Nat.eqb_spec (length (used ++ take count p)) cap).
  - destruct (IH [] (drop count p) (out ++ [used ++ take count p])) as [-> ?]; [simpl; lia|done|].
    split; [|done]. rewrite concat_app. simpl. rewrite app_nil_r, <-!app_assoc. by rewrite take_drop.
  - destruct (IH (used ++ take count p) (drop count p) out) as [-> ?]; [lia|done|].
    split; [|done]. rewrite <-!app_assoc. by rewrite take_drop.
Qed.

Lemma fill_pieces_concat cap ps st : (length st.2 < cap)%nat →
  let r := foldl (fill cap) st ps in
  concat r.1 ++ r.2 = concat st.1 ++ st.2 ++ concat ps ∧ (length r.2 < cap)%nat.
Proof.
  revert st. induction ps as [|p ps IH]; intros st Hst; simpl; [by rewrite app_nil_r|].
  destruct (fill_loop_concat (length p) cap st.2 p st.1 Hst) as [H1 H2]; [done|].
  destruct (IH (fill cap st p) H2) as [-> ?]. split; [|done].
  rewrite app_assoc. unfold fill. rewrite H1. by rewrite <-!app_assoc.
Qed.

Lemma emit_chunks_concat records cap : 0 < cap →
  ∃ cs, emit_chunks records cap = Ok cs ∧ concat cs = concat (concat (emit <$> records)).
Proof.
  intros Hcap. unfold emit_chunks. rewrite (proj2 (Z.eqb_neq _ _)) by lia.
  assert (∀ st, (length st.2 < Z.to_nat cap)%nat →
    let r := foldl (λ st r, foldl (fill (Z.to_nat cap)) st (emit r)) st records in
    concat r.1 ++ r.2 = concat st.1 ++ st.2 ++ concat (concat (emit <$> records)) ∧
    (length r.2 < Z.to_nat cap)%nat) as Hall.
  { induction records as [|r records IH]; intros st Hst; simpl; [by rewrite app_nil_r|].
    destruct (fill_pieces_concat (Z.to_nat cap) (emit r) st Hst) as [H1 H2].
    destruct (IH _ H2) as [-> ?]. split; [|done].
    rewrite app_assoc, H1, concat_app. by rewrite <-!app_assoc. }
  specialize (Hall ([], []) ltac:(simpl; lia)). destruct (foldl _ _ records) as [out used].
  destruct Hall as [Hc _]. simpl in Hc. eexists. split; [done|]. rewrite <-Hc.
  destruct used; [by rewrite app_nil_r|]. rewrite concat_app. simpl. by rewrite app_nil_r.
Qed.

(** ** Effects on the file *)

Lemma pwrite_end b d : pwrite b (zlen b) d = b ++ d.
Proof.
  unfold pwrite, zlen. rewrite Nat2Z.id, Nat.sub_diag. simpl. rewrite app_nil_r.
  rewrite firstn_all, drop_ge by lia. by rewrite app_nil_r.
Qed.

Lemma resize_app b d : resize (b ++ d) (zlen b) = b.
Proof.
  unfold resize, zlen. rewrite Nat2Z.id, take_app_length, length_app.
  replace (length b - _)%nat with 0%nat by lia. simpl. by rewrite app_nil_r.
Qed.

(** Every error but the one that seals the writer. *)
Definition plain (e : WalWriteError) : Prop :=
  match e with RecoveryRequired _ => False | _ => True end.

(** A file to which the writer has added [junk] after the contents [b]. *)
Definition extended (f : WalFile) (junk : bytes) : WalFile :=
  mkWalFile (f_bytes f ++ junk) (f_synced f).

Lemma extended_nil f : extended f [] = f.
Proof. unfold extended. rewrite app_nil_r. by destruct f. Qed.

Lemma file_write_end f junk d : f_synced f <= zlen (f_bytes f) →
  file_write (extended f junk) (zlen (f_bytes f ++ junk)) d = extended f (junk ++ d).
Proof.
  intros Hs. unfold file_write, extended. simpl. rewrite pwrite_end, app_assoc. f_equal.
  rewrite zlen_app. pose proof (zlen_nonneg junk). lia.
Qed.

Lemma file_set_len_extended f junk : f_synced f <= zlen (f_bytes f) →
  file_set_len (extended f junk) (zlen (f_bytes f)) = f.
Proof.
  intros Hs. unfold file_set_len, extended. simpl. rewrite resize_app.
  replace (Z.min _ _) with (f_synced f) by lia. by destruct f.
Qed.

Lemma write_chunks_spec io total i f junk cs : f_synced f <= zlen (f_bytes f) →
  ∃ d r, write_chunks io total i (extended f junk) (zlen (f_bytes f ++ junk)) cs =
           (extended f (junk ++ d), r) ∧
         d `prefix_of` concat cs ∧
         match r with Ok _ => d = concat cs | Err e => plain e end.
Proof.
  intros Hs. revert i junk. induction cs as [|c cs IH]; intros i junk.
  { exists [], (Ok ()). by rewrite app_nil_r. }
  cbn [write_chunks concat]. destruct (io_write io i) as [k|].
  { exists (take (Z.to_nat k) c), (Err (AppendIo total)). rewrite file_write_end by done.
    split_and!; [done| |done]. apply prefix_app_r. exists (drop (Z.to_nat k) c).
    by rewrite take_drop. }
  rewrite file_write_end by done. unfold next_offset, checked_add. case_if.
  - replace (zlen (f_bytes f ++ junk) + zlen c) with (zlen (f_bytes f ++ (junk ++ c)))
      by (autorewrite with zlen; lia).
    destruct (IH (S i) (junk ++ c)) as (d&r&->&Hp&Hr). exists (c ++ d), r.
    rewrite app_assoc. split_and!; [done | by apply prefix_app |].
    destruct r; [by rewrite Hr | done].
  - exists c, (Err (FormatViolation WritePositionOverflowed)).
    split_and!; [done | by apply prefix_app_r | done].
Qed.

(** ** The writer's contract *)

(** A usable writer: its cursor is the end of the file, and no pending append
    means that everything is durable. *)
Record writer_ok (w : WalWriter) : Prop := {
  wo_pos : zlen (f_bytes (w_file w)) = write_pos w;
  wo_synced : 0 <= f_synced (w_file w) <= write_pos w;
  wo_ready : recovery_required w = None;
  wo_pending : 0 <= appends_since_sync w ∧
    (appends_since_sync w = 0 → f_synced (w_file w) = write_pos w);
}.

(** A sealed writer: what was on file before is still there, followed by at
    most a part of what the failed operation was adding; the durable prefix
    did not shrink. *)
Definition sealed (w w' : WalWriter) (added : bytes) (e : WalWriteError) : Prop :=
  (∃ reason, recovery_required w' = Some reason ∧ e = RecoveryRequired reason) ∧
  (∃ junk, junk `prefix_of` added ∧ f_bytes (w_file w') = f_bytes (w_file w) ++ junk) ∧
  f_synced (w_file w') = f_synced (w_file w).

(** Contents, cursor and sequence as before; durability did not shrink. *)
Definition unchanged (w w' : WalWriter) : Prop :=
  writer_ok w' ∧ f_bytes (w_file w') = f_bytes (w_file w) ∧
  last_commit_seq w' = last_commit_seq w ∧ f_synced (w_file w) <= f_synced (w_file w').

Definition rolled_back (w w' : WalWriter) (added : bytes) (e : WalWriteError) : Prop :=
  (unchanged w w' ∧ plain e) ∨ sealed w w' added e.

(** The records were added, and are durable if the policy says so. *)
Definition appended (w w' : WalWriter) (added : bytes) (seq : Z) : Prop :=
  writer_ok w' ∧ f_bytes (w_file w') = f_bytes (w_file w) ++ added ∧
  last_commit_seq w' = seq ∧ config w' = config w ∧
  f_synced (w_file w) <= f_synced (w_file w') ∧
  (sync_policy (config w) = Immediate →
   f_synced (w_file w') = zlen (f_bytes (w_file w'))).

Lemma rollback_spec io w junk added e w1 :
  writer_ok w → w_file w1 = extended (w_file w) junk → junk `prefix_of` added →
  last_commit_seq w1 = last_commit_seq w → recovery_required w1 = None → plain e →
  let r := rollback_failed_append io w1 (write_pos w) (appends_since_sync w) e in
  rolled_back w r.1 added r.2.
Proof.
  intros Hw Hf Hj Hseq Hr Hpl. pose proof (wo_pos w Hw) as Hp. pose proof (wo_synced w Hw) as Hs.
  unfold rollback_failed_append, truncate_and_sync_rollback. simpl. rewrite Hf, <-Hp.
  rewrite file_set_len_extended by lia.
  destruct (io_rollback_set_len io) as [took|]; [|destruct (io_rollback_sync io)]; simpl.
  - right. unfold sealed. simpl. rewrite Hr. split_and!; [eauto| |].
    + destruct took; [exists []; rewrite app_nil_r; split; [apply prefix_nil|done] | by exists junk].
    + by destruct took.
  - left. split; [|done]. unfold unchanged. simpl. split_and!; [|done|done|lia].
    split; simpl; [done|lia|done|]. pose proof (wo_pending w Hw). lia.
  - right. unfold sealed. simpl. rewrite Hr. split_and!; [eauto| |done].
    exists []. rewrite app_nil_r. split; [apply prefix_nil|done].
Qed.

Lemma next_offset_plain o n e : next_offset o n = Err e → plain e.
Proof. unfold next_offset. case_match; [done|]. by intros [= <-]. Qed.

Lemma emit_chunks_plain rs n e : emit_chunks rs n = Err e → plain e.
Proof. unfold emit_chunks. case_if; [by intros [= <-]|]. by destruct (foldl _ _ _). Qed.

Lemma verify_chunks_plain io start total i off equal ecrc acrc cs e :
  verify_chunks io start total i off equal ecrc acrc cs = Err e → plain e.
Proof.
  revert i off equal ecrc acrc. induction cs as [|c cs IH]; intros i off equal ecrc acrc; simpl.
  { destruct equal; [done|]. by intros [= <-]. }
  destruct (io_read io i); [|by intros [= <-]].
  destruct (next_offset off (zlen c)) eqn:Hn; [apply IH|].
  intros [= <-]. by eapply next_offset_plain.
Qed.

Lemma verify_streamed_plain io w rs n m total e : verify_streamed io w rs n m total = Err e → plain e.
Proof.
  unfold verify_streamed. destruct (next_offset _ _) eqn:Hn;
    [|intros [= <-]; by eapply next_offset_plain].
  case_if; [by intros [= <-]|].
  destruct (emit_chunks rs n) as [cs|] eqn:Hc; [|intros [= <-]; by eapply emit_chunks_plain].
  apply verify_chunks_plain.
Qed.

Lemma layout_plain ls e : layout ls = Err e → plain e.
Proof.
  unfold layout. case_if; [by intros [= <-]|]. case_match; [|by intros [= <-]].
  assert (∀ b e, layout_body b ls = Err e → plain e) as Hb.
  { clear. induction ls as [|l ls IH]; intros b e; simpl; [done|].
    case_if; [by intros [= <-]|]. case_match; [apply IH | by intros [= <-]]. }
  destruct (layout_body _ ls) eqn:E; [case_match; [done | by intros [= <-]]|].
  intros [= <-]. by eapply Hb.
Qed.

Lemma prepare_plain c e : prepare c = Err e → plain e.
Proof.
  unfold prepare. destruct (layout _) as [[[??]?]|] eqn:E; [done|].
  intros [= <-]. by eapply layout_plain.
Qed.

Lemma append_prepared_spec io w records results total :
  writer_ok w → Forall prepared_ok records → records ≠ [] →
  total = zlen (log_image (pr_commit <$> records)) →
  let added := log_image (pr_commit <$> records) in
  match append_prepared_streamed io w records results total with
  | (w', Ok rs) => appended w w' added (last_seq 0 (pr_commit <$> records)) ∧
                   length rs = length results
  | (w', Err e) => rolled_back w w' added e
  end.
Proof.
  intros Hw Hrec Hne Ht added. pose proof (wo_pos w Hw) as Hp. pose proof (wo_synced w Hw) as Hs.
  assert (∀ e, plain e → rolled_back w w added e) as Hun.
  { intros e He. left. split; [|done]. split_and!; done || lia. }
  unfold append_prepared_streamed.
  destruct (last records) as [newest|] eqn:Hlast; [|by apply last_None in Hlast].
  assert (0 < total) as Htot.
  { rewrite Ht. destruct records as [|r records]; [done|]. rewrite fmap_cons, log_image_cons, zlen_app.
    rewrite zlen_record_image. pose proof (payload_min (pr_commit r)).
    pose proof (zlen_nonneg (log_image (pr_commit <$> records))). lia. }
  destruct (next_offset (write_pos w) total) as [e|] eqn:Hno;
    [|apply Hun; by eapply next_offset_plain].
  unfold next_offset, checked_add in Hno. case_if_in Hno; [|done]. injection Hno as <-.
  case_if; [by apply Hun|]. case_if; [by apply Hun|].
  destruct (emit_chunks_concat records (Z.min total CHUNK_BYTES)) as (cs&Hcs&Hcat);
    [unfold CHUNK_BYTES; lia|].
  assert (concat cs = added) as Hadd.
  { rewrite Hcat. unfold added, log_image. clear -Hrec.
    induction Hrec as [|r rs Hr _ IH]; [done|]. rewrite !fmap_cons. cbn [concat].
    rewrite concat_app, IH. by rewrite emit_image. }
  unfold write_streamed. rewrite Hcs.
  destruct (write_chunks_spec io total 0 (w_file w) [] cs) as (d&r&Hwr&Hpre&Hok); [lia|].
  rewrite extended_nil, app_nil_r, Hp in Hwr. rewrite Hwr. rewrite Hadd in *.
  pose proof (wo_ready w Hw) as Hr. rewrite app_nil_l.
  destruct r as [[]|e]; [|by apply rollback_spec with (junk := d)].
  subst d. cbn [config].
  destruct (if verify_writes _ then _ else _) as [?|e] eqn:Hver.
  2:{ apply rollback_spec with (junk := added); try done.
      case_if_in Hver; [by eapply verify_streamed_plain | done]. }
  assert (last_seq 0 (pr_commit <$> records) = wc_commit_seq (pr_commit newest)) as Hls.
  { apply last_Some in Hlast as [l' ->]. rewrite fmap_app. apply last_seq_default. }
  pose proof (zlen_nonneg added). fold added in Ht.
  assert (1 <= saturating_add u32_max (appends_since_sync w) (Z.min (zlen records) u32_max)) as Hpend.
  { destruct records as [|r0 rs]; [done|]. pose proof (zlen_nonneg rs). pose proof (wo_pending w Hw).
    rewrite zlen_cons. unfold saturating_add, u32_max. lia. }
  unfold maybe_sync, do_sync. cbn [config sync_policy set_pending set_write_pos set_file].
  destruct (sync_policy (config w)) as [|n|] eqn:Hpol; [|case_if|];
    try (destruct (io_sync io); [|by apply rollback_spec with (junk := added)]);
    (split; [|by rewrite length_fmap]); unfold appended; simpl; rewrite zlen_app;
    (split_and!; [split; simpl; [rewrite zlen_app; lia | rewrite ?zlen_app; lia | done | rewrite ?zlen_app; lia]
                | done..| lia |]); intros; congruence.
Qed.

Lemma validate_commits_Ok prev cs last :
  validate_commits prev cs = Ok last ↔ accepted prev cs ∧ last = last_seq prev cs.
Proof.
  revert prev. induction cs as [|c cs IH]; intros prev; [simpl; naive_solver|].
  rewrite last_seq_cons. cbn [validate_commits accepted]. case_if; [naive_solver lia|]. case_if; [naive_solver lia|].
  rewrite IH. naive_solver lia.
Qed.

Lemma prepare_many_Ok offset total cs records results records' results' total' :
  prepare_many offset total cs records results = Ok (records', results', total') →
  ∃ new, records' = records ++ new ∧ pr_commit <$> new = cs ∧ Forall prepared_ok new ∧
         total' = total + zlen (log_image cs) ∧ length results' = (length results + length cs)%nat.
Proof.
  revert offset total records results.
  induction cs as [|c cs IH]; intros offset total records results; cbn [prepare_many].
  { intros [= <- <- <-]. exists []. rewrite app_nil_r. change (zlen (log_image [])) with 0.
    split_and!; [done..|lia|simpl; lia]. }
  destruct (prepare c) as [r|] eqn:Hr; [|done]. apply prepare_Ok in Hr as (_&<-&Hr).
  destruct (next_offset _ _) as [end_|]; [|done].
  unfold checked_add. case_if; [|done].
  intros (new&->&<-&Hnew&->&Hl)%IH. exists (r :: new). rewrite <-app_assoc, log_image_cons, zlen_app.
  destruct Hr as (He&Hb&Hc&Hn). rewrite length_app in Hl.
  split_and!; [done|done|by constructor|lia|]. rewrite Hl. simpl. lia.
Qed.

Lemma prepared_encodable rs : Forall prepared_ok rs → Forall encodable (pr_commit <$> rs).
Proof. induction 1 as [|r rs [He _] _ IH]; simpl; by constructor. Qed.

Lemma writer_ok_op_id w : writer_ok w → writer_ok (next_op_id w).
Proof. by intros []. Qed.

Lemma validate_plain prev cs e : validate_commits prev cs = Err e → plain e.
Proof.
  revert prev. induction cs as [|c cs IH]; intros prev; simpl; [done|].
  case_if; [by intros [= <-]|]. case_if; [by intros [= <-] | apply IH].
Qed.

Lemma prepare_many_plain off total cs rs ars e : prepare_many off total cs rs ars = Err e → plain e.
Proof.
  revert off total rs ars. induction cs as [|c cs IH]; intros off total rs ars; cbn [prepare_many]; [done|].
  destruct (prepare c) eqn:Hp; [|intros [= <-]; by eapply prepare_plain].
  destruct (next_offset _ _) eqn:Hn; [|intros [= <-]; by eapply next_offset_plain].
  destruct (checked_add _ _ _); [apply IH | by intros [= <-]].
Qed.

Lemma append_many_spec io w cs : writer_ok w →
  match append_many_streamed io w cs with
  | (w', Ok rs) =>
      length rs = length cs ∧ accepted (last_commit_seq w) cs ∧ Forall encodable cs ∧
      (if decide (cs = []) then w' = w
       else appended w w' (log_image cs) (last_seq 0 cs))
  | (w', Err e) => rolled_back w w' (log_image cs) e
  end.
Proof.
  intros Hw. pose proof (wo_ready w Hw) as Hr. pose proof (wo_synced w Hw).
  assert (∀ e, plain e → rolled_back w (next_op_id w) (log_image cs) e) as Hun.
  { intros e He. left. split; [|done]. split_and!; [|done|done|simpl; lia].
    by apply writer_ok_op_id. }
  unfold append_many_streamed, ensure_ready. rewrite Hr.
  destruct cs as [|c cs]; [done|].
  destruct (validate_coalesced_commits _ _) as [lst|] eqn:Hv;
    [|apply Hun; by eapply validate_plain].
  apply validate_commits_Ok in Hv as [Hv _]. unfold check_stream_backpressure.
  case_if; [by apply Hun|]. case_if; [by apply Hun|].
  destruct (prepare_many _ _ _ _ _) as [[[records results] total]|] eqn:Hp;
    [|apply Hun; by eapply prepare_many_plain].
  apply prepare_many_Ok in Hp as (new&->&Hcs&Hnew&->&Hl). rewrite app_nil_l, Z.add_0_l.
  rewrite <-Hcs.
  pose proof (append_prepared_spec io (next_op_id w) new results
    (zlen (log_image (pr_commit <$> new))) (writer_ok_op_id w Hw) Hnew) as Hs.
  destruct (append_prepared_streamed _ _ _ _ _) as [w' [rs|e]].
  - destruct Hs as [Ha Hrs]; [by intros ->|done|]. rewrite decide_False by (by rewrite Hcs).
    split_and!; [by rewrite Hcs, Hrs, Hl | by rewrite Hcs | by apply prepared_encodable | done].
  - apply Hs; [by intros ->|done].
Qed.

Lemma append_one_spec io w c : writer_ok w →
  match append_one_streamed io w c with
  | (w', Ok _) => accepted (last_commit_seq w) [c] ∧ encodable c ∧
                  appended w w' (log_image [c]) (wc_commit_seq c)
  | (w', Err e) => rolled_back w w' (log_image [c]) e ∧
                   (¬ plain e → accepted (last_commit_seq w) [c] ∧ encodable c)
  end.
Proof.
  intros Hw. pose proof (wo_ready w Hw) as Hr. pose proof (wo_synced w Hw).
  assert (∀ e, plain e → rolled_back w (next_op_id w) (log_image [c]) e ∧
    (¬ plain e → accepted (last_commit_seq w) [c] ∧ encodable c)) as Hun.
  { intros e He. split; [|done]. left. split; [|done]. split_and!; [|done|done|simpl; lia].
    by apply writer_ok_op_id. }
  unfold append_one_streamed, ensure_ready. rewrite Hr.
  destruct (validate_coalesced_commits _ _) as [lst|] eqn:Hv;
    [|apply Hun; by eapply validate_plain].
  apply validate_commits_Ok in Hv as [Hv _]. unfold check_stream_backpressure.
  case_if; [by apply Hun|].
  destruct (prepare c) as [r|] eqn:Hp;
    [|apply Hun; by eapply prepare_plain]. apply prepare_Ok in Hp as (He&<-&Hp).
  pose proof (append_prepared_spec io (next_op_id w) [r]
    [mkAppendResult (write_pos (next_op_id w)) (pr_bytes r) false 0] (pr_bytes r)
    (writer_ok_op_id w Hw) ltac:(by apply Forall_singleton) ltac:(done)) as Hs.
  destruct Hp as (_&_&_&Hn).
  assert (pr_bytes r = zlen (log_image (pr_commit <$> [r]))) as Hn'.
  { simpl. by rewrite log_image_cons, app_nil_r. }
  specialize (Hs Hn'). destruct (append_prepared_streamed _ _ _ _ _) as [w' [[|a rs]|e]].
  - by destruct Hs.
  - destruct Hs as [Ha _]. done.
  - done.
Qed.

(** ** The file as a log *)

Definition header_image : bytes := magic_bytes ++ replicate 8 0.

Lemma encode_default_header : encode_header default_header = Ret header_image.
Proof. by rewrite encode_header_bytes. Qed.

(** The file holds exactly the records of [log], which replay accepts, and the
    writer only accepts larger sequence numbers. *)
Record writer_log (w : WalWriter) (log : list WalCommit) : Prop := {
  wl_bytes : f_bytes (w_file w) = header_image ++ log_image log;
  wl_loggable : Forall loggable log;
  wl_accepted : accepted 0 log;
  wl_last : 0 <= last_seq 0 log <= last_commit_seq w;
}.

Lemma accepted_app last cs ds :
  accepted last (cs ++ ds) ↔ accepted last cs ∧ accepted (last_seq last cs) ds.
Proof.
  revert last. induction cs as [|c cs IH]; intros last; [naive_solver|].
  rewrite last_seq_cons. simpl. rewrite IH. naive_solver.
Qed.

Lemma accepted_weaken last last' cs : last' <= last → accepted last cs → accepted last' cs.
Proof. destruct cs; simpl; intuition lia. Qed.

Lemma last_seq_app last cs ds : last_seq last (cs ++ ds) = last_seq (last_seq last cs) ds.
Proof. unfold last_seq. by rewrite foldl_app. Qed.

Lemma accepted_last_seq last cs : accepted last cs → last <= last_seq last cs.
Proof.
  revert last. induction cs as [|c cs IH]; intros last; [done|].
  rewrite last_seq_cons. intros (?&?&?&Hc). apply IH in Hc. lia.
Qed.

Lemma last_seq_ne last last' cs : cs ≠ [] → last_seq last cs = last_seq last' cs.
Proof. by destruct cs. Qed.

Lemma appended_log w w' log cs : cs ≠ [] →
  writer_log w log → Forall commit_ok cs → Forall encodable cs →
  accepted (last_commit_seq w) cs → appended w w' (log_image cs) (last_seq 0 cs) →
  writer_log w' (log ++ cs).
Proof.
  intros Hne [Hb Hl Ha Hlast] Hok He Hacc (_&Hf&Hseq&_).
  split.
  - by rewrite Hf, Hb, log_image_app, app_assoc.
  - apply Forall_app. split; [done|]. by apply Forall_and.
  - apply accepted_app. split; [done|]. eapply accepted_weaken; [|exact Hacc]. lia.
  - rewrite last_seq_app, Hseq, (last_seq_ne _ 0) by done. split; [|done].
    destruct cs as [|c cs]; [done|]. rewrite last_seq_cons. destruct Hacc as (?&_&_&Hacc).
    apply accepted_last_seq in Hacc. lia.
Qed.

Lemma unchanged_log w w' log : writer_log w log → unchanged w w' → writer_log w' log.
Proof. intros [Hb Hl Ha Hlast] (_&Hf&Hseq&_). split; [congruence|done|done|by rewrite Hseq]. Qed.

(** ** Flushing and truncating *)

Lemma flush_spec io w log : writer_ok w → writer_log w log →
  match flush io w with
  | (w', Ok _) => writer_ok w' ∧ writer_log w' log ∧ last_commit_seq w' = last_commit_seq w ∧
                  f_synced (w_file w') = zlen (f_bytes (w_file w'))
  | (w', Err _) => (∃ reason, recovery_required w' = Some reason) ∧ w_file w' = w_file w
  end.
Proof.
  intros [Hp Hs Hr [Hn Hpend]] [Hb Hl Ha Hlast]. unfold flush, ensure_ready. rewrite Hr.
  destruct (Z.eqb_spec (appends_since_sync w) 0) as [E|E].
  { split_and!; [by split | by split | done |]. rewrite Hp. auto. }
  unfold do_sync. destruct (io_sync io); simpl; [|by rewrite Hr; eauto].
  split_and!; [split; simpl; done || lia | by split | done | done].
Qed.

Lemma truncate_after_checkpoint_spec io observed w log seq : writer_ok w → writer_log w log →
  match truncate_after_checkpoint io observed w seq with
  | (w', Ok n) => n = HEADER_SIZE ∧ writer_ok w' ∧ writer_log w' [] ∧
                  last_commit_seq w' = seq ∧ last_commit_seq w <= seq ∧
                  f_synced (w_file w') = zlen (f_bytes (w_file w'))
  | (w', Err e) =>
      (w' = w ∧ e = FormatViolation StaleCheckpointHorizon) ∨
      (∃ reason, recovery_required w' = Some reason) ∧
      (w_file w' = w_file w ∨
       w_file w' = file_set_len (w_file w) HEADER_SIZE ∧ f_bytes (w_file w') = header_image)
  end.
Proof.
  intros [Hp Hs Hr Hpend] [Hb Hl Ha Hlast]. unfold truncate_after_checkpoint, ensure_ready. rewrite Hr.
  case_if; [by left|]. bool_to_prop. destruct observed as [n|]; simpl; [|rewrite Hr; right; eauto].
  case_if; [simpl; rewrite Hr; right; eauto|]. bool_to_prop.
  assert (f_bytes (file_set_len (w_file w) HEADER_SIZE) = header_image) as Hlen.
  { simpl. rewrite Hb. by rewrite (resize_app header_image (log_image log)). }
  unfold truncate_and_sync_rollback.
  destruct (io_rollback_set_len io) as [took|]; [|destruct (io_rollback_sync io)].
  - simpl. rewrite Hr. right. split; [eauto|]. destruct took; auto.
  - simpl in *. split_and!; [done| | |done|lia|done].
    + split; simpl; [by rewrite Hlen | by rewrite Hlen | done | by rewrite Hlen].
    + split; simpl; [by rewrite app_nil_r | done | done | lia].
  - simpl. rewrite Hr. right. split; [eauto|]. by right.
Qed.

(** ** Properties *)

End streaming.

(** A witness: appending to the sample log while the disk refuses to sync;
    the rollback leaves the old log. *)
Definition sync_fault : Io := mkIo (λ _, true) (λ _, None) (λ _, None) false None true.
Abbreviation sample_file := (header_image ++ log_image (H := BitwiseCrc) sample_log).
Abbreviation sample_writer :=
  (mkWriter (mkWalFile sample_file (zlen sample_file)) (zlen sample_file)
     (mkWriterConfig Immediate false 0) 0 9 1 None).
Abbreviation sample_append :=
  (append_commits_coalesced (H := BitwiseCrc) (H0 := BitwiseCrcAppend) sync_fault sample_writer
     [mkWalCommit 11 5 [mkWalWrite 3 [8; 8]]]).

Lemma sample_writer_ok : writer_ok sample_writer.
Proof. split; simpl; [done | vm_compute; split; discriminate | done | split; [done|by intros _]]. Qed.

Lemma sample_writer_log : writer_log (H := BitwiseCrc) sample_writer sample_log.
Proof.
  split; [reflexivity | exact sample_loggable | exact sample_accepted | vm_compute; split; discriminate].
Qed.

Lemma sample_append_fails :
  match sample_append with (_, Err (RecoveryRequired _)) => False | (_, Err _) => True | _ => False end.
Proof. vm_compute. exact I. Qed.

