(* ===== verification/WalReader.v ===== *)
(** * WalReader: replay from a stream ([ffs-mvcc/src/wal_replay/reader.rs])

    [RecordReader] decodes the records of a captured byte range from a
    [Read]er in bounded chunks, checking for cancellation between reads and
    keeping only the identity of records a checkpoint covers.  The reader is
    a source of bytes with scripts of what each [read] call answers (a short
    count, an interruption, an error) and of when a cancellation arrives.

    The results: on a source whose answers are never errors, replaying the
    stream is replaying the buffer; and whatever the answers are, a stream
    replay that ends in a report or a tail-policy error agrees with the
    buffer replay, so an I/O error or a cancellation is never mistaken for a
    torn tail. *)

From stdpp Require Import base sorting numbers gmap list.
From S2P Require Import Prelude Wal WalReplay WalWriter.

Local Open Scope Z_scope.

(** ** Sources *)

(** What one [read] call answers: at most this many bytes, [EINTR], an error. *)
Inductive ReadAnswer := Got (count : Z) | Interrupted | Failed (code : Z).

(** The bytes to come, the answers of the next [read] calls (full reads once
    the script is over) and of the next cancellation checkpoints (never
    cancelled once it is over). *)
Record Source := mkSource {
  src_bytes : bytes;
  src_script : list ReadAnswer;
  src_cancel : list bool;
}.

(** Error codes of this file, as [External] errors. *)
Definition unexpected_eof : Z := 1.
Definition body_crosses_crc : Z := 2.

Definition checkpoint : replayM Source unit := λ src,
  match src_cancel src with
  | [] => Ret (src, Ok ())
  | cancelled :: rest =>
      let src := mkSource (src_bytes src) (src_script src) rest in
      Ret (src, if cancelled : bool then Err Cancelled else Ok ())
  end.

(** One [reader.read(buffer)] with room for [room] bytes: [None] is [EINTR]. *)
Definition read_call (room : Z) : replayM Source (option bytes) := λ src,
  let deliver (n : Z) (script : list ReadAnswer) :=
    let n := Z.to_nat (Z.min n room) in
    Ret (mkSource (drop n (src_bytes src)) script (src_cancel src), Ok (Some (take n (src_bytes src)))) in
  match src_script src with
  | [] => deliver room []
  | Got n :: script => deliver n script
  | Interrupted :: script => Ret (mkSource (src_bytes src) script (src_cancel src), Ok None)
  | Failed code :: script => Ret (mkSource (src_bytes src) script (src_cancel src), Err (External code))
  end.

(** The loop of [read_exact]; every iteration uses up an answer or delivers a
    byte, so the wanted bytes and the script are enough fuel. *)
Fixpoint read_exact_loop (fuel : nat) (want : Z) (got : bytes) : replayM Source bytes :=
  if want <=? 0 then mret got
  else
    match fuel with
    | O => λ _, Panic
    | S fuel' =>
        _ ← checkpoint;
        r ← read_call want;
        match r with
        | None => read_exact_loop fuel' want got
        | Some [] => throw (External unexpected_eof)
        | Some b => _ ← checkpoint; read_exact_loop fuel' (want - zlen b) (got ++ b)
        end
    end.

Definition read_exact (want : Z) : replayM Source bytes := λ src,
  read_exact_loop (Z.to_nat want + length (src_script src)) want [] src.

(** ** The record body *)

Definition READ_CHUNK_BYTES : Z := 64 * 1024.
Definition SCRATCH_BYTES : Z := 4096.
Definition COMMIT_HEADER_BYTES : Z := 21.

Section reader.
Context `{Crc32cAppend}.

(** [RecordBody]: what is left before the stored CRC, and the running CRC. *)
Record RecordBody := mkBody { b_remaining : Z; b_crc : Z }.

(** The [chunks_mut] loop of [RecordBody::read]. *)
Fixpoint read_chunks (fuel : nat) (body : RecordBody) (want : Z) (got : bytes) :
    replayM Source (RecordBody * bytes) :=
  if want <=? 0 then mret (body, got)
  else
    match fuel with
    | O => λ _, Panic
    | S fuel' =>
        chunk ← read_exact (Z.min want READ_CHUNK_BYTES);
        _ ← checkpoint;
        read_chunks fuel'
          (mkBody (b_remaining body - zlen chunk) (crc32c_append (b_crc body) chunk))
          (want - zlen chunk) (got ++ chunk)
    end.

Definition body_read (body : RecordBody) (want : Z) : replayM Source (RecordBody * bytes) :=
  if b_remaining body <? want then throw (External body_crosses_crc)
  else read_chunks (Z.to_nat want) body want [].

(** [RecordBody::discard]: read in scratch-sized steps and forget. *)
Fixpoint discard_loop (fuel : nat) (body : RecordBody) (len : Z) : replayM Source RecordBody :=
  if len <=? 0 then mret body
  else
    match fuel with
    | O => λ _, Panic
    | S fuel' =>
        '(body, b) ← body_read body (Z.min len SCRATCH_BYTES);
        discard_loop fuel' body (len - zlen b)
    end.

Definition body_discard (body : RecordBody) (len : Z) : replayM Source RecordBody :=
  if b_remaining body <? len then throw (External body_crosses_crc)
  else
    body ← discard_loop (Z.to_nat len) body len;
    _ ← checkpoint;
    mret body.

(** The [while data.len() < len] loop of a payload. *)
Fixpoint read_payload (fuel : nat) (body : RecordBody) (len : Z) (data : bytes) :
    replayM Source (RecordBody * bytes) :=
  if len <=? zlen data then mret (body, data)
  else
    match fuel with
    | O => λ _, Panic
    | S fuel' =>
        _ ← checkpoint;
        '(body, b) ← body_read body (Z.min (len - zlen data) READ_CHUNK_BYTES);
        read_payload fuel' body len (data ++ b)
    end.

(** The [for index in 0..num_writes] loop; [inl] is an early rejection. *)
Fixpoint read_writes (n : nat) (index crc_offset : Z) (covered : bool) (body : RecordBody)
    (writes : list WalWrite) : replayM Source (RecordBody * (Corruption + list WalWrite)) :=
  match n with
  | O => mret (body, inr writes)
  | S n' =>
      if b_remaining body <? WRITE_HEADER_BYTES
      then mret (body, inl (WriteHeaderPastCrc index))
      else
        '(body, header) ← body_read body WRITE_HEADER_BYTES;
        let block := le_value (take 8 header) in
        let len := le_value (drop 8 header) in
        if b_remaining body <? len
        then mret (body, inl (DataPastCrc index (crc_offset - b_remaining body) len crc_offset))
        else if covered then
          body ← body_discard body len;
          read_writes n' (index + 1) crc_offset covered body writes
        else
          '(body, data) ← read_payload (Z.to_nat len) body len [];
          read_writes n' (index + 1) crc_offset covered body (writes ++ [mkWalWrite block data])
  end.

(** [RecordBody::decode] *)
Definition body_decode (body : RecordBody) (checkpoint_seq : option Z) :
    replayM Source (RecordBody * DecodeResult) :=
  let crc_offset := b_remaining body in
  '(body, header) ← body_read body COMMIT_HEADER_BYTES;
  let record_type := default 0 (head header) in
  if negb (record_type =? RECORD_TYPE_COMMIT)
  then mret (body, Corrupted (UnknownRecordType record_type))
  else
    let commit_seq := le_value (take 8 (drop 1 header)) in
    let txn_id := le_value (take 8 (drop 9 header)) in
    let covered := match checkpoint_seq with Some seq => commit_seq <=? seq | None => false end in
    let num_writes := le_value (drop 17 header) in
    let max_writes := b_remaining body / WRITE_HEADER_BYTES in
    if max_writes <? num_writes
    then mret (body, Corrupted (NumWritesExceedCapacity num_writes max_writes))
    else
      '(body, parsed) ← read_writes (Z.to_nat num_writes) 0 crc_offset covered body [];
      match parsed with
      | inl why => mret (body, Corrupted why)
      | inr writes =>
          if negb (b_remaining body =? 0)
          then mret (body, Corrupted (TrailingPayload (b_remaining body)))
          else mret (body, Commit (mkWalCommit commit_seq txn_id writes))
      end.

(** [RecordBody::finish]: consume the rest, then let the CRC decide. *)
Definition body_finish (body : RecordBody) (decoded : DecodeResult) : replayM Source DecodeResult :=
  body ← body_discard body (b_remaining body);
  stored ← read_exact 4;
  _ ← checkpoint;
  let stored_crc := le_value stored in
  if negb (stored_crc =? b_crc body)
  then mret (Corrupted (CrcMismatch stored_crc (b_crc body)))
  else mret decoded.

(** ** The record reader *)

(** [read_tail]: the rest of the captured range; is it all zero? *)
Fixpoint read_tail_loop (fuel : nat) (remaining : Z) (check_zero all_zero : bool) :
    replayM Source bool :=
  if remaining <=? 0 then mret all_zero
  else
    match fuel with
    | O => λ _, Panic
    | S fuel' =>
        b ← read_exact (Z.min remaining SCRATCH_BYTES);
        read_tail_loop fuel' (remaining - zlen b) check_zero
          (if check_zero && existsb (λ x, negb (x =? 0)) b then false else all_zero)
    end.

Definition read_tail (remaining : Z) (check_zero : bool) : replayM Source bool :=
  all_zero ← read_tail_loop (Z.to_nat remaining) remaining check_zero true;
  _ ← checkpoint;
  mret all_zero.

(** [RecordReader::next]: the decoding, the size, and what remains. *)
Definition next_record (remaining : Z) (checkpoint_seq : option Z) :
    replayM Source (DecodeResult * option Z * Z) :=
  _ ← checkpoint;
  if remaining =? 0 then mret (EndOfData, None, remaining)
  else if remaining <? 4 then
    _ ← read_exact remaining;
    mret (NeedMore 4, None, 0)
  else
    header ← read_exact 4;
    let remaining := remaining - 4 in
    let body_len := le_value header in
    if body_len =? 0 then
      all_zero ← read_tail remaining true;
      mret (if all_zero : bool then EndOfData else Corrupted ZeroLengthNonZeroTail, None, 0)
    else
      let total := body_len + 4 in
      if total <? MIN_COMMIT_RECORD_SIZE
      then mret (Corrupted (RecordLengthTooSmall body_len), None, remaining)
      else if remaining <? body_len then
        _ ← read_tail remaining false;
        mret (NeedMore total, None, 0)
      else
        '(body, decoded) ← body_decode (mkBody (total - 8) 0) checkpoint_seq;
        decoded ← body_finish body decoded;
        _ ← checkpoint;
        mret (decoded, Some total, remaining - body_len).

(** ** Replay over a reader *)

(** The captured source, what remains of the range, and the caller's state. *)
Record Replaying (S : Type) := mkReplaying {
  rp_source : Source;
  rp_remaining : Z;
  rp_state : S;
}.
#[global] Arguments mkReplaying {S} _ _ _.
#[global] Arguments rp_source {S} _.
#[global] Arguments rp_remaining {S} _.
#[global] Arguments rp_state {S} _.

(** Run a computation of the reader inside the replay. *)
Definition on_source {S A} (m : replayM Source A) : replayM (Replaying S) A := λ w,
  match m (rp_source w) with
  | Ret (src, r) => Ret (mkReplaying src (rp_remaining w) (rp_state w), r)
  | Panic => Panic
  end.

Definition stream_decoder {S} (skip_up_to_seq offset : Z) :
    replayM (Replaying S) (DecodeResult * option Z) := λ w,
  match next_record (rp_remaining w) (Some skip_up_to_seq) (rp_source w) with
  | Ret (src, Ok (d, size, remaining)) => Ret (mkReplaying src remaining (rp_state w), Ok (d, size))
  | Ret (src, Err e) => Ret (mkReplaying src (rp_remaining w) (rp_state w), Err e)
  | Panic => Panic
  end.

(** The apply closure is fallible and keeps its effects. *)
Definition on_state {S} (apply : S → WalCommit → S * res ReplayError unit) (c : WalCommit) :
    replayM (Replaying S) unit := λ w,
  let '(s, r) := apply (rp_state w) c in
  Ret (mkReplaying (rp_source w) (rp_remaining w) s, r).

(** [WalReplayEngine::replay_reader] *)
Definition replay_reader {S} (tail_policy : TailPolicy) (total_data_bytes skip_up_to_seq : Z)
    (apply : S → WalCommit → S * res ReplayError unit) : replayM (Replaying S) (option ReplayReport) :=
  replay_records tail_policy total_data_bytes skip_up_to_seq (stream_decoder skip_up_to_seq)
    (on_state apply) (on_source checkpoint).
End reader.

(** ** What a computation consumes *)

(** The errors that come from the source, not from the log. *)
Definition io_error (e : ReplayError) : Prop :=
  match e with Cancelled => True | External _ => True | _ => False end.

(** A source that never fails, never ends early and is never cancelled:
    short reads and interruptions are all it does. *)
Definition answer_calm (a : ReadAnswer) : Prop :=
  match a with Got n => 1 <= n | Interrupted => True | Failed _ => False end.
Definition calm (src : Source) : Prop :=
  Forall answer_calm (src_script src) ∧ Forall (λ c, c = false) (src_cancel src).

(** [m] takes at most [n] bytes [d] off the source and returns an [a] with
    [P d a], or fails with an error of the source, which a calm source with
    [n] bytes does not give; it does not panic. *)
Definition consumes {A} (n : Z) (m : replayM Source A) (P : bytes → A → Prop) : Prop :=
  ∀ src, bytes_ok (src_bytes src) →
         match m src with
         | Ret (src', Ok a) =>
             (calm src → calm src') ∧
             ∃ d, src_bytes src = d ++ src_bytes src' ∧ zlen d <= n ∧ P d a
         | Ret (_, Err e) => io_error e ∧ ¬ (calm src ∧ n <= zlen (src_bytes src))
         | Panic => False
         end.

Lemma consumes_ret {A} n (a : A) (P : bytes → A → Prop) : 0 <= n → P [] a → consumes n (mret a) P.
Proof. intros Hn HP src _. split; [done|]. by exists []. Qed.

Lemma consumes_bind {A B} n n1 (m : replayM Source A) (f : A → replayM Source B) P Q :
  consumes n1 m P → n1 <= n →
  (∀ d a, bytes_ok d → zlen d <= n1 → P d a →
          consumes (n - zlen d) (f a) (λ d' b, Q (d ++ d') b)) →
  consumes n (m ≫= f) Q.
Proof.
  intros Hm Hn Hf src Hok. specialize (Hm src Hok). unfold mbind, replayM_bind.
  destruct (m src) as [[src1 [a|e]]|]; [| |done].
  2:{ destruct Hm as [? Hm]. split; [done|]. intros [??]. apply Hm. split; [done|lia]. }
  destruct Hm as (Hc&d&Hd&Hz&HP). pose proof Hok as Hok'.
  rewrite Hd in Hok'. apply Forall_app in Hok' as [Hokd Hok1].
  specialize (Hf d a Hokd Hz HP src1 Hok1). rewrite Hd, zlen_app.
  destruct (f a src1) as [[src2 [b|e]]|]; [| |done].
  - destruct Hf as (Hc'&d'&Hd'&Hz'&HQ). split; [auto|]. exists (d ++ d').
    rewrite Hd', app_assoc, zlen_app. split_and!; [done|lia|done].
  - destruct Hf as [? Hf]. split; [done|]. intros [??]. apply Hf. split; [auto|lia].
Qed.

Lemma consumes_weaken {A} n n' (m : replayM Source A) (P Q : bytes → A → Prop) :
  consumes n m P → n <= n' → (∀ d a, bytes_ok d → P d a → Q d a) → consumes n' m Q.
Proof.
  intros Hm Hn HPQ src Hok. specialize (Hm src Hok). destruct (m src) as [[? [?|?]]|]; [| |done].
  - destruct Hm as (Hc&d&Hd&?&?). split; [done|]. exists d. rewrite Hd in Hok.
    apply Forall_app in Hok as [? _]. split_and!; [done|lia|auto].
  - destruct Hm as [? Hm]. split; [done|]. intros [??]. apply Hm. split; [done|lia].
Qed.

Lemma checkpoint_cases src :
  (¬ calm src ∧ ∃ src', checkpoint src = Ret (src', Err Cancelled)) ∨
  (∃ src', checkpoint src = Ret (src', Ok ()) ∧ src_bytes src' = src_bytes src ∧
           src_script src' = src_script src ∧ (calm src → calm src')).
Proof.
  unfold checkpoint. destruct (src_cancel src) as [|[] cs] eqn:Hcs; [right|left|right].
  - by eexists.
  - split; [|eauto]. intros [_ Hc]. rewrite Hcs in Hc. by apply Forall_cons in Hc as [? _].
  - eexists. split_and!; [done..|]. intros [? Hc]. rewrite Hcs in Hc.
    apply Forall_cons in Hc as [_ ?]. done.
Qed.

(** A checkpoint in front of a computation. *)
Lemma checkpoint_then {B} n (f : unit → replayM Source B) Q :
  consumes n (f ()) Q → consumes n (checkpoint ≫= f) Q.
Proof.
  intros Hf src Hok. unfold mbind, replayM_bind.
  destruct (checkpoint_cases src) as [[Hc [s1 ->]]|(s1&->&Hb&_&Hc)]; [naive_solver|].
  rewrite <-Hb in *. specialize (Hf s1 Hok). destruct (f () s1) as [[? [?|?]]|]; naive_solver.
Qed.

Lemma read_call_cases room src : 1 <= room →
  (¬ calm src ∧ ∃ src' code, read_call room src = Ret (src', Err (External code))) ∨
  (∃ src', (calm src → calm src') ∧
     ((read_call room src = Ret (src', Ok None) ∧ src_bytes src' = src_bytes src ∧
       (length (src_script src') < length (src_script src))%nat) ∨
      (∃ b, read_call room src = Ret (src', Ok (Some b)) ∧
            src_bytes src = b ++ src_bytes src' ∧ zlen b <= room ∧
            (calm src → 1 <= zlen (src_bytes src) → 1 <= zlen b) ∧
            (length (src_script src') <= length (src_script src))%nat))).
Proof.
  intros Hroom. unfold read_call.
  destruct (src_script src) as [|[n| |code] script] eqn:Hs; [right|right|right|left].
  - eexists. apply and_comm. split.
    { right. eexists. split; [done|].
      simpl. rewrite take_drop. unfold zlen. rewrite length_take. split_and!; [done|lia|lia|lia]. }
    intros [_ ?]. by split.
  - eexists. apply and_comm. split.
    { right. eexists. split; [done|]. simpl. rewrite take_drop. unfold zlen. rewrite length_take.
      split_and!; [done|lia| |lia]. intros [Hf _] ?. rewrite Hs in Hf.
      apply Forall_cons in Hf as [Hn _]. simpl in Hn. lia. }
    intros [Hf ?]. rewrite Hs in Hf. by apply Forall_cons in Hf as [_ ?].
  - eexists. apply and_comm. split; [left; split; [done|]; simpl; split; [done|lia]|].
    intros [Hf ?]. rewrite Hs in Hf. by apply Forall_cons in Hf as [_ ?].
  - split; [|eauto]. intros [Hf _]. rewrite Hs in Hf. by apply Forall_cons in Hf as [? _].
Qed.

Lemma read_exact_loop_spec fuel want got src :
  0 <= want → (Z.to_nat want + length (src_script src) <= fuel)%nat →
  match read_exact_loop fuel want got src with
  | Ret (src', Ok b) =>
      (calm src → calm src') ∧ ∃ d, src_bytes src = d ++ src_bytes src' ∧ b = got ++ d ∧ zlen d = want
  | Ret (_, Err e) => io_error e ∧ ¬ (calm src ∧ want <= zlen (src_bytes src))
  | Panic => False
  end.
Proof.
  revert want got src. induction fuel as [|fuel IH]; intros want got src Hw Hf; cbn [read_exact_loop].
  { rewrite (proj2 (Z.leb_le _ _)) by lia. split; [done|]. exists [].
    rewrite app_nil_r, zlen_nil. split_and!; [done..|lia]. }
  case_if; [split; [done|]; exists []; rewrite app_nil_r, zlen_nil; split_and!; [done..|lia]|].
  unfold mbind, replayM_bind.
  destruct (checkpoint_cases src) as [[Hc [s1 ->]]|(s1&->&Hb1&Hl1&Hc1)]; [naive_solver|].
  destruct (read_call_cases want s1 ltac:(lia))
    as [(Hc&s2&code&->)|(s2&Hc2&[(->&Hb2&Hl2)|(b&->&Hb2&Hlen&Hpos&Hl2)])]; [naive_solver| |].
  - specialize (IH want got s2 Hw ltac:(rewrite <-Hl1 in Hf; lia)). rewrite Hb2, Hb1 in IH.
    destruct (read_exact_loop fuel want got s2) as [[s3 [r|e]]|]; naive_solver.
  - destruct b as [|x b].
    { split; [done|]. intros [Hc Hle]. rewrite <-Hb1 in Hle.
      specialize (Hpos (Hc1 Hc) ltac:(lia)). by rewrite zlen_nil in Hpos. }
    set (c := x :: b) in *.
    assert (1 <= zlen c) by (unfold c; rewrite zlen_cons; pose proof (zlen_nonneg b); lia).
    destruct (checkpoint_cases s2) as [[Hc [s3 ->]]|(s3&->&Hb3&Hl3&Hc3)]; [naive_solver|].
    specialize (IH (want - zlen c) (got ++ c) s3 ltac:(lia)
      ltac:(rewrite Hl3; rewrite <-Hl1 in Hf; lia)).
    assert (zlen (src_bytes src) = zlen c + zlen (src_bytes s3)) as Hz
      by by rewrite <-Hb1, Hb2, Hb3, zlen_app.
    destruct (read_exact_loop fuel _ _ s3) as [[s4 [r|e]]|]; [| |done].
    + destruct IH as (Hc4&d&Hd&->&Hzd). split; [auto|]. exists (c ++ d). rewrite <-Hb1, Hb2, <-Hb3, Hd.
      rewrite <-!app_assoc, zlen_app. split_and!; [done..|lia].
    + destruct IH as [? IH]. split; [done|]. intros [??]. apply IH. split; [auto|lia].
Qed.

(** [read_exact n] takes exactly [n] bytes. *)
Lemma read_exact_consumes n : 0 <= n → consumes n (read_exact n) (λ d b, b = d ∧ zlen d = n).
Proof.
  intros Hn src _. unfold read_exact.
  pose proof (read_exact_loop_spec (Z.to_nat n + length (src_script src)) n [] src Hn ltac:(done)) as Hs.
  destruct (read_exact_loop _ n [] src) as [[src' [b|e]]|]; [|done|done].
  destruct Hs as (?&d&?&->&?). split; [done|]. exists d. split_and!; [done|lia|done..].
Qed.

Section body.
Context `{Crc32cAppend}.

(** The body after [d] was read off it. *)
Definition advance (body : RecordBody) (d : bytes) : RecordBody :=
  mkBody (b_remaining body - zlen d) (crc32c_append (b_crc body) d).

Lemma advance_nil body : advance body [] = body.
Proof. unfold advance. rewrite zlen_nil, Z.sub_0_r, crc32c_append_nil. by destruct body. Qed.

Lemma advance_app body a b : advance (advance body a) b = advance body (a ++ b).
Proof. unfold advance. simpl. rewrite zlen_app, crc32c_append_app. f_equal. lia. Qed.

Lemma read_chunks_consumes fuel body want got :
  0 <= want → (Z.to_nat want <= fuel)%nat →
  consumes want (read_chunks fuel body want got)
    (λ d r, r = (advance body d, got ++ d) ∧ zlen d = want).
Proof.
  revert body want got. induction fuel as [|fuel IH]; intros body want got Hw Hf; cbn [read_chunks].
  - rewrite (proj2 (Z.leb_le _ _)) by lia. apply consumes_ret; [done|].
    rewrite advance_nil, app_nil_r, zlen_nil. split; [done|lia].
  - case_if.
    { apply consumes_ret; [done|]. rewrite advance_nil, app_nil_r, zlen_nil. split; [done|lia]. }
    unfold READ_CHUNK_BYTES. eapply consumes_bind; [apply read_exact_consumes; lia|lia|].
    intros d ? _ _ [-> Hd]. apply checkpoint_then.
    eapply consumes_weaken; [apply (IH (advance body d)); lia|lia|].
    intros d' r _ [-> Hd']. rewrite advance_app, <-app_assoc, zlen_app. split; [done|lia].
Qed.

Lemma body_read_consumes body want : 0 <= want <= b_remaining body →
  consumes want (body_read body want) (λ d r, r = (advance body d, d) ∧ zlen d = want).
Proof.
  intros Hw. unfold body_read. case_if; [lia|]. apply read_chunks_consumes; lia.
Qed.

Lemma discard_loop_consumes fuel body len : 0 <= len <= b_remaining body → (Z.to_nat len <= fuel)%nat →
  consumes len (discard_loop fuel body len) (λ d r, r = advance body d ∧ zlen d = len).
Proof.
  revert body len. induction fuel as [|fuel IH]; intros body len Hl Hf; cbn [discard_loop].
  - rewrite (proj2 (Z.leb_le _ _)) by lia. apply consumes_ret; [lia|]. rewrite advance_nil, zlen_nil.
    split; [done|lia].
  - case_if; [apply consumes_ret; [lia|]; rewrite advance_nil, zlen_nil; split; [done|lia]|].
    unfold SCRATCH_BYTES. eapply consumes_bind; [apply body_read_consumes; lia|lia|].
    intros d [b c] _ _ ([= -> ->]&Hd).
    eapply consumes_weaken; [apply IH; simpl; lia|lia|]. intros d' r _ [-> Hd'].
    rewrite advance_app, zlen_app. split; [done|lia].
Qed.

Lemma body_discard_consumes body len : 0 <= len <= b_remaining body →
  consumes len (body_discard body len) (λ d r, r = advance body d ∧ zlen d = len).
Proof.
  intros Hl. unfold body_discard. case_if; [lia|].
  eapply consumes_bind; [by apply discard_loop_consumes|lia|]. intros d b _ _ [-> Hd].
  apply checkpoint_then, consumes_ret; [lia|]. by rewrite app_nil_r.
Qed.

Lemma read_payload_consumes fuel body len data :
  0 <= len - zlen data <= b_remaining body → (Z.to_nat (len - zlen data) <= fuel)%nat →
  consumes (len - zlen data) (read_payload fuel body len data)
    (λ d r, r = (advance body d, data ++ d) ∧ zlen d = len - zlen data).
Proof.
  revert body data. induction fuel as [|fuel IH]; intros body data Hl Hf; cbn [read_payload].
  - rewrite (proj2 (Z.leb_le _ _)) by lia. apply consumes_ret; [lia|].
    rewrite advance_nil, app_nil_r, zlen_nil. split; [done|lia].
  - case_if; [apply consumes_ret; [lia|]; rewrite advance_nil, app_nil_r, zlen_nil; split; [done|lia]|].
    apply checkpoint_then. unfold READ_CHUNK_BYTES.
    eapply consumes_bind; [apply body_read_consumes; lia|lia|].
    intros d [b c] _ _ ([= -> ->]&Hd).
    eapply consumes_weaken; [apply IH; simpl; rewrite zlen_app; lia|rewrite zlen_app; lia|].
    intros d' r _ [-> Hd'].
    rewrite zlen_app in Hd'. rewrite advance_app, <-app_assoc, zlen_app.
    split; [done|lia].
Qed.

(** *** The writes of a record *)

#[local] Opaque le_bytes.

Lemma write_header_split w X h Y :
  write_image w ++ X = h ++ Y → zlen h = 12 →
  h = le_bytes 8 (ww_block w) ++ le_bytes 4 (zlen (ww_data w)) ∧ ww_data w ++ X = Y.
Proof.
  intros Heq Hh. unfold write_image in Heq. rewrite <-!app_assoc, app_assoc in Heq.
  symmetry in Heq. apply app_inj_1 in Heq as [-> ->]; [done|].
  rewrite length_app, !le_bytes_length. unfold zlen in Hh. lia.
Qed.

Lemma header_fields b n :
  0 <= b <= u64_max → 0 <= n <= u32_max →
  let h := le_bytes 8 b ++ le_bytes 4 n in le_value (take 8 h) = b ∧ le_value (drop 8 h) = n.
Proof.
  intros Hb Hn h. unfold h. rewrite take_app_length', drop_app_length' by (by rewrite le_bytes_length).
  rewrite !le_value_bytes by (unfold u64_max, u32_max in *; lia). done.
Qed.

(** Any 12 bytes are the header of the write they announce. *)
Lemma header_image_of h : bytes_ok h → zlen h = 12 →
  0 <= le_value (take 8 h) <= u64_max ∧ 0 <= le_value (drop 8 h) <= u32_max ∧
  h = le_bytes 8 (le_value (take 8 h)) ++ le_bytes 4 (le_value (drop 8 h)).
Proof.
  intros Hb Hl. unfold zlen in Hl.
  destruct (le_field 8 (take 8 h)) as [H1 H2]; [by apply Forall_take | rewrite length_take; lia|].
  destruct (le_field 4 (drop 8 h)) as [H3 H4]; [by apply Forall_drop | rewrite length_drop; lia|].
  rewrite H2, H4, take_drop. split_and!; try done; unfold u64_max, u32_max; lia.
Qed.

Definition writes_parsed (n : nat) (covered : bool) (body : RecordBody) (ws : list WalWrite)
    (d : bytes) (r : RecordBody * (Corruption + list WalWrite)) : Prop :=
  r.1 = advance body d ∧ zlen d <= b_remaining body ∧
  match r.2 with
   | inr ws' => ∃ new, length new = n ∧ Forall write_ok new ∧ d = writes_image new ∧
                       ws' = ws ++ (if covered then [] else new)
   | inl _ => ∀ rest new, zlen (d ++ rest) = b_remaining body → length new = n →
                          Forall write_ok new → d ++ rest ≠ writes_image new
   end.

(** A write in front of a parsed run. *)
Lemma writes_parsed_cons n covered body ws h data d2 r :
  bytes_ok (h ++ data) → zlen h = 12 → zlen data = le_value (drop 8 h) →
  0 <= b_remaining body <= u32_max →
  writes_parsed n covered (advance body (h ++ data))
    (ws ++ (if covered then [] else [mkWalWrite (le_value (take 8 h)) data])) d2 r →
  writes_parsed (S n) covered body ws (h ++ data ++ d2) r.
Proof.
  intros [Hokh Hokd]%Forall_app Hh Hdata Hb (Hr1&Hr2&Hr3). unfold writes_parsed. simpl in Hr2.
  rewrite !zlen_app in *. rewrite Hr1, advance_app, <-app_assoc. split_and!; [done|lia|].
  destruct (header_image_of h Hokh Hh) as (Hblk&Hlen&Hhd).
  set (w := mkWalWrite (le_value (take 8 h)) data).
  assert (write_image w = h ++ data) as Hwi.
  { unfold write_image, w. simpl. rewrite Hdata, app_assoc, <-Hhd. done. }
  destruct r.2 as [why|ws'].
  - intros rest [|w' new] Hr Hn Hw Heq; [done|]. injection Hn as Hn.
    apply Forall_cons in Hw as [[Hw' _] Hws]. rewrite writes_image_cons, <-!app_assoc in Heq.
    symmetry in Heq. apply write_header_split in Heq as [Hh' Heq]; [|done].
    rewrite !zlen_app in Hr. pose proof (zlen_nonneg rest). pose proof (zlen_nonneg d2).
    assert (zlen (ww_data w') <= u32_max) as Hwl.
    { apply (f_equal zlen) in Heq. rewrite !zlen_app in Heq.
      pose proof (zlen_nonneg (writes_image new)). lia. }
    destruct (header_fields (ww_block w') (zlen (ww_data w'))) as [_ Hf];
      [done | pose proof (zlen_nonneg (ww_data w')); lia|].
    rewrite <-Hh' in Hf. rewrite Hf in Hdata. symmetry in Heq.
    apply app_inj_1 in Heq as [_ Heq]; [|by apply zlen_inj].
    apply (Hr3 rest new); [|done..|done]. simpl. rewrite !zlen_app. lia.
  - destruct Hr3 as (new&<-&Hnew&->&->). exists (w :: new).
    rewrite writes_image_cons, Hwi, <-!app_assoc. split_and!; [done| |done|].
    + constructor; [|done]. split; [done|]. done.
    + by destruct covered.
Qed.

Lemma read_writes_consumes n index crc covered body ws :
  0 <= b_remaining body <= u32_max →
  consumes (b_remaining body) (read_writes n index crc covered body ws)
    (writes_parsed n covered body ws).
Proof.
  revert index body ws. induction n as [|n IH]; intros index body ws Hb; cbn [read_writes].
  { apply consumes_ret; [lia|]. unfold writes_parsed. rewrite advance_nil, zlen_nil.
    split_and!; [done|lia|]. exists []. destruct covered; by rewrite app_nil_r. }
  unfold WRITE_HEADER_BYTES. case_if.
  { apply consumes_ret; [lia|]. unfold writes_parsed. rewrite advance_nil, zlen_nil.
    split_and!; [done|lia|]. intros rest new Hr Hn _ Heq. rewrite app_nil_l in *. subst rest.
    pose proof (writes_image_count new). unfold zlen in *. lia. }
  eapply consumes_bind; [apply body_read_consumes; lia|lia|].
  intros h [b c] Hok _ ([= -> ->]&Hh).
  destruct (header_image_of h Hok Hh) as (_&Hlen&_). case_if.
  { apply consumes_ret; [lia|]. rewrite app_nil_r. unfold writes_parsed. split_and!; [done|lia|].
    intros rest [|w new] Hr Hn Hw Heq; [done|]. rewrite writes_image_cons in Heq.
    symmetry in Heq. apply Forall_cons in Hw as [[Hw _] _].
    apply write_header_split in Heq as [-> <-]; [|done].
    rewrite !zlen_app, !zlen_le_bytes in Hr. pose proof (zlen_nonneg (ww_data w)).
    pose proof (zlen_nonneg (writes_image new)).
    destruct (header_fields (ww_block w) (zlen (ww_data w))) as [_ Hf]; [done|lia|].
    rewrite Hf in *. cbn [b_remaining advance] in Heqb0. rewrite Hh in Heqb0. lia. }
  simpl in Heqb0. destruct covered eqn:Hc.
  - eapply consumes_bind; [apply body_discard_consumes; simpl; lia|lia|].
    intros data ? Hokd _ (->&Hd). rewrite advance_app.
    eapply consumes_weaken; [apply IH; simpl; rewrite zlen_app; lia|simpl; rewrite zlen_app; lia|].
    intros d2 r _ Hr. apply writes_parsed_cons; try done; [by apply Forall_app_2|].
    by rewrite app_nil_r.
  - eapply consumes_bind; [apply read_payload_consumes; change (zlen (@nil Z)) with 0; simpl; lia|
      change (zlen (@nil Z)) with 0; lia|].
    intros data [? ?] Hokd _ ([= -> ->]&Hd). rewrite zlen_nil, Z.sub_0_r in Hd. rewrite advance_app.
    eapply consumes_weaken; [apply IH; simpl; rewrite zlen_app; lia|simpl; rewrite zlen_app; lia|].
    intros d2 r _ Hr. apply writes_parsed_cons; try done. by apply Forall_app_2.
Qed.
End body.

(** *** The body of a record *)

Section record.
Context `{Crc32cAppend}.

#[local] Opaque le_bytes.

(** Is a commit covered by the checkpoint, and what the reader keeps of it. *)
Definition below_checkpoint (cp : option Z) (seq : Z) : bool :=
  match cp with Some s => seq <=? s | None => false end.
Definition elide (cp : option Z) (c : WalCommit) : WalCommit :=
  mkWalCommit (wc_commit_seq c) (wc_txn_id c)
    (if below_checkpoint cp (wc_commit_seq c) then [] else wc_writes c).

(** Any 21 bytes are a commit header. *)
Lemma commit_header_of h : bytes_ok h → zlen h = 21 →
  let seq := le_value (take 8 (drop 1 h)) in
  let txn := le_value (take 8 (drop 9 h)) in
  let n := le_value (drop 17 h) in
  0 <= seq <= u64_max ∧ 0 <= txn <= u64_max ∧ 0 <= n <= u32_max ∧
  h = [default 0 (head h)] ++ le_bytes 8 seq ++ le_bytes 8 txn ++ le_bytes 4 n.
Proof.
  intros Hb Hl. unfold zlen in Hl. cbv zeta.
  destruct (le_field 8 (take 8 (drop 1 h))) as [H1 H2];
    [by apply Forall_take, Forall_drop | rewrite length_take, length_drop; lia|].
  destruct (le_field 8 (take 8 (drop 9 h))) as [H3 H4];
    [by apply Forall_take, Forall_drop | rewrite length_take, length_drop; lia|].
  destruct (le_field 4 (drop 17 h)) as [H5 H6]; [by apply Forall_drop | rewrite length_drop; lia|].
  rewrite H2, H4, H6. split_and!; try (unfold u64_max, u32_max; lia).
  destruct h as [|t h]; [done|]. simpl. f_equal. rewrite skipn_O. rewrite <-(take_drop 8 h) at 1. f_equal.
  rewrite <-(take_drop 8 (drop 8 h)) at 1. f_equal. by rewrite drop_drop.
Qed.

Lemma payload_header c h X : commit_ok c → zlen (wc_writes c) <= u32_max → zlen h = 21 →
  payload c = h ++ X →
  head h = Some RECORD_TYPE_COMMIT ∧ le_value (take 8 (drop 1 h)) = wc_commit_seq c ∧
  le_value (take 8 (drop 9 h)) = wc_txn_id c ∧ le_value (drop 17 h) = zlen (wc_writes c) ∧
  X = writes_image (wc_writes c).
Proof.
  intros (Hs&Ht&_) Hw Hh Hp. unfold payload in Hp.
  set (hd := [RECORD_TYPE_COMMIT] ++ le_bytes 8 (wc_commit_seq c) ++ le_bytes 8 (wc_txn_id c) ++
             le_bytes 4 (zlen (wc_writes c))).
  assert (hd ++ writes_image (wc_writes c) = h ++ X) as Hp'
    by (unfold hd; rewrite <-!app_assoc; done).
  apply app_inj_1 in Hp' as [<- <-].
  2:{ unfold hd. rewrite !length_app, !le_bytes_length. unfold zlen in Hh. simpl. lia. }
  unfold hd. pose proof (zlen_nonneg (wc_writes c)). split_and!; [done| | | |done].
  all: simpl; rewrite ?skipn_O.
  - rewrite take_app_length' by (by rewrite le_bytes_length). apply le_value_bytes.
    unfold u64_max in *; lia.
  - rewrite drop_app_length', take_app_length' by (by rewrite le_bytes_length). apply le_value_bytes.
    unfold u64_max in *; lia.
  - rewrite (app_assoc (le_bytes 8 _)), drop_app_length' by (by rewrite length_app, !le_bytes_length).
    apply le_value_bytes. unfold u32_max in *; lia.
Qed.

(** The writes of an image are determined by their number. *)
Lemma writes_image_prefix new ws rest :
  Forall write_ok new → Forall write_ok ws → length new = length ws →
  zlen (writes_image ws) <= u32_max → zlen (writes_image new) <= u32_max →
  writes_image new ++ rest = writes_image ws → new = ws ∧ rest = [].
Proof.
  intros Hn. revert ws rest. induction Hn as [|w new [Hw _] _ IH]; intros [|w' ws] rest Hws Hl Hz Hz' Heq;
    [done..|]. injection Hl as Hl. apply Forall_cons in Hws as [[Hw' _] Hws].
  rewrite !writes_image_cons, <-app_assoc in Heq. rewrite !writes_image_cons, !zlen_app in *.
  rewrite !zlen_write_image in *.
  pose proof (zlen_nonneg (writes_image new)). pose proof (zlen_nonneg (writes_image ws)).
  pose proof (zlen_nonneg (ww_data w)). pose proof (zlen_nonneg (ww_data w')).
  unfold write_image in Heq at 2. rewrite <-!app_assoc, (app_assoc (le_bytes 8 _)) in Heq.
  apply write_header_split in Heq as [Hh Heq]; [|by rewrite zlen_app, !zlen_le_bytes].
  destruct (header_fields (ww_block w) (zlen (ww_data w))) as [Hb1 Hl1]; [done|lia|].
  destruct (header_fields (ww_block w') (zlen (ww_data w'))) as [Hb2 Hl2]; [done|lia|].
  rewrite <-Hh in Hb1, Hl1. rewrite Hb1 in Hb2. rewrite Hl1 in Hl2.
  apply app_inj_1 in Heq as [Hd Heq]; [|by apply zlen_inj].
  destruct (IH ws rest) as [-> ->]; [done..|lia|lia|done|].
  split; [|done]. f_equal. clear -Hb2 Hd. destruct w, w'; simpl in *. congruence.
Qed.

(** What [body_decode] says of the bytes it has read. *)
Definition body_decoded (cp : option Z) (body : RecordBody) (d : bytes)
    (r : RecordBody * DecodeResult) : Prop :=
  r.1 = advance body d ∧ zlen d <= b_remaining body ∧
  match r.2 with
  | Commit c => ∃ c0, commit_ok c0 ∧ d = payload c0 ∧ zlen d = b_remaining body ∧ c = elide cp c0
  | Corrupted _ => ∀ rest c0, zlen (d ++ rest) = b_remaining body → commit_ok c0 →
                              d ++ rest ≠ payload c0
  | _ => False
  end.

Lemma body_decode_consumes cp body : 21 <= b_remaining body <= u32_max →
  consumes (b_remaining body) (body_decode body cp) (body_decoded cp body).
Proof.
  intros Hb. unfold body_decode. change COMMIT_HEADER_BYTES with 21.
  eapply consumes_bind; [apply body_read_consumes; lia|lia|].
  intros h [b c] Hok _ ([= -> ->]&Hh).
  destruct (commit_header_of h Hok Hh) as (Hseq&Htxn&Hn&Hhd).
  assert (∀ X c0, zlen (h ++ X) = b_remaining body → commit_ok c0 → h ++ X = payload c0 →
    head h = Some RECORD_TYPE_COMMIT ∧ le_value (take 8 (drop 1 h)) = wc_commit_seq c0 ∧
    le_value (take 8 (drop 9 h)) = wc_txn_id c0 ∧ le_value (drop 17 h) = zlen (wc_writes c0) ∧
    X = writes_image (wc_writes c0)) as Hsplit.
  { intros X c0 HX Hc0 Heq. apply payload_header; [done| |done|done].
    rewrite Heq, zlen_payload in HX. pose proof (writes_image_count (wc_writes c0)).
    pose proof (zlen_nonneg (wc_writes c0)). lia. }
  destruct (head h) as [t|] eqn:Ht; [|destruct h; [rewrite zlen_nil in Hh; lia|done]].
  cbn [default from_option id] in *. case_if.
  { apply consumes_ret; [lia|]. rewrite app_nil_r. split_and!; [done|lia|]. intros X c0 HX Hc0 Heq.
    destruct (Hsplit X c0 HX Hc0 Heq) as ([= ->]&_). done. }
  subst t. case_if.
  { apply consumes_ret; [lia|]. rewrite app_nil_r. split_and!; [done|lia|]. intros X c0 HX Hc0 Heq.
    destruct (Hsplit X c0 HX Hc0 Heq) as (_&_&_&Hw&->). rewrite zlen_app in HX.
    pose proof (writes_image_count (wc_writes c0)). simpl in Heqb.
    assert (zlen (wc_writes c0) <= (b_remaining body - zlen h) / WRITE_HEADER_BYTES); [|lia].
    apply Z.div_le_lower_bound; unfold WRITE_HEADER_BYTES; lia. }
  fold (below_checkpoint cp (le_value (take 8 (drop 1 h)))).
  eapply consumes_bind; [apply read_writes_consumes; simpl; lia|simpl; lia|].
  intros d [b parsed] Hokd Hd (Hb'&_&Hp). cbn [fst snd b_remaining advance] in *. rewrite advance_app in Hb'. subst b.
  destruct parsed as [why|ws].
  { apply consumes_ret; [lia|]. rewrite app_nil_r. split_and!; [done|rewrite zlen_app; lia|].
    intros X c0 HX Hc0 Heq. rewrite <-app_assoc in *.
    destruct (Hsplit (d ++ X) c0 HX Hc0 Heq) as (_&_&_&Hw&HX'). rewrite zlen_app in HX.
    apply (Hp X (wc_writes c0)); [lia | unfold zlen in Hw; lia | apply Hc0 | done]. }
  destruct Hp as (new&Hnew&Hwok&->&->). cbn [app] in *. case_if.
  - apply consumes_ret; [lia|]. rewrite app_nil_r. split_and!; [done|rewrite zlen_app; lia|].
    intros X c0 HX Hc0 Heq. rewrite <-app_assoc in *.
    destruct (Hsplit _ c0 HX Hc0 Heq) as (_&_&_&Hw&HX'). rewrite zlen_app, HX' in HX.
    apply writes_image_prefix in HX' as [-> ->]; [|done|apply Hc0|unfold zlen in *; lia|lia|lia].
    apply Heqb0. simpl. rewrite zlen_app. lia.
  - apply consumes_ret; [lia|]. rewrite app_nil_r. simpl in Heqb0. rewrite zlen_app in Heqb0.
    split_and!; [done|rewrite zlen_app; lia|]. simpl.
    exists (mkWalCommit (le_value (take 8 (drop 1 h))) (le_value (take 8 (drop 9 h))) new).
    split_and!; [done| |rewrite zlen_app; lia|done].
    unfold payload. simpl. replace (zlen new) with (le_value (drop 17 h)) by (unfold zlen; lia).
    etransitivity; [exact (f_equal (λ x, x ++ writes_image new) Hhd)|]. simpl.
    by rewrite <-!app_assoc.
Qed.

(** *** The CRC and the frame *)

(** [body_finish] reads up to the end of the record; the stored CRC decides. *)
Lemma body_finish_consumes body decoded : 0 <= b_remaining body →
  consumes (b_remaining body + 4) (body_finish body decoded)
    (λ d r, ∃ more stored, d = more ++ stored ∧ zlen more = b_remaining body ∧ zlen stored = 4 ∧
       if le_value stored =? b_crc (advance body more)
       then r = decoded else ∃ why, r = Corrupted why).
Proof.
  intros Hb. unfold body_finish.
  eapply consumes_bind; [apply body_discard_consumes; lia|lia|]. intros more ? _ _ [-> Hm].
  eapply consumes_bind; [by apply read_exact_consumes|lia|]. intros stored ? _ _ [-> Hs].
  apply checkpoint_then. case_if; (apply consumes_ret; [lia|]); exists more, stored;
    rewrite app_nil_r; split_and!; try done.
  - rewrite (proj2 (Z.eqb_neq _ _)) by done. eauto.
  - by rewrite (proj2 (Z.eqb_eq _ _)).
Qed.

Lemma read_tail_loop_consumes fuel remaining check all_zero :
  0 <= remaining → (Z.to_nat remaining <= fuel)%nat →
  consumes remaining (read_tail_loop fuel remaining check all_zero)
    (λ d r, zlen d = remaining ∧
            r = all_zero && negb (check && existsb (λ x, negb (x =? 0)) d)).
Proof.
  revert remaining all_zero. induction fuel as [|fuel IH]; intros remaining all_zero Hr Hf;
    cbn [read_tail_loop].
  - rewrite (proj2 (Z.leb_le _ _)) by lia. apply consumes_ret; [lia|]. simpl.
    rewrite andb_false_r, andb_true_r, zlen_nil. split; [lia|done].
  - case_if.
    { apply consumes_ret; [lia|]. simpl. rewrite andb_false_r, andb_true_r, zlen_nil. split; [lia|done]. }
    unfold SCRATCH_BYTES. eapply consumes_bind; [apply read_exact_consumes; lia|lia|].
    intros d ? _ _ [-> Hd]. eapply consumes_weaken; [apply IH; lia|lia|].
    intros d' r _ [Hd' ->]. rewrite zlen_app, existsb_app. split; [lia|].
    destruct check, (existsb _ d), all_zero; simpl; rewrite ?andb_false_r; done.
Qed.

Lemma read_tail_consumes remaining check : 0 <= remaining →
  consumes remaining (read_tail remaining check)
    (λ d r, zlen d = remaining ∧ r = negb (check && existsb (λ x, negb (x =? 0)) d)).
Proof.
  intros Hr. unfold read_tail. eapply consumes_bind; [by apply read_tail_loop_consumes|lia|].
  intros d r _ _ [Hd ->]. apply checkpoint_then, consumes_ret; [lia|]. by rewrite app_nil_r.
Qed.

(** The buffer decoder after a length prefix. *)
Lemma decode_commit_prefix h X : bytes_ok h → zlen h = 4 → zlen (h ++ X) <= usize_max →
  let n := le_value h in
  0 <= n <= u32_max ∧ h = le_bytes 4 n ∧
  (n = 0 → decode_commit (h ++ X) =
     Ret (if existsb (λ x, negb (x =? 0)) X then Corrupted ZeroLengthNonZeroTail else EndOfData)) ∧
  (0 < n < 25 → decode_commit (h ++ X) = Ret (Corrupted (RecordLengthTooSmall n))) ∧
  (25 <= n → zlen X < n → decode_commit (h ++ X) = Ret (NeedMore (n + 4))).
Proof.
  intros Hok Hh HX. destruct (le_field 4 h Hok) as [Hn Hle]; [unfold zlen in Hh; lia|]. cbv zeta.
  split; [unfold u32_max; lia|]. split; [done|]. rewrite zlen_app in HX. pose proof (zlen_nonneg X).
  assert (read_le_u32 (h ++ X) 0 = Ret (Ok (le_value h))) as Hr.
  { apply read_le_Ok; [done|]. split; [by vm_compute|]. exists h. split; [|done].
    apply (slice_app [] _ _ 0); [done|lia]. }
  unfold decode_commit. rewrite zlen_app, Hh.
  rewrite (proj2 (Z.eqb_neq (4 + zlen X) 0)), (proj2 (Z.ltb_ge (4 + zlen X) 4)) by lia. rewrite Hr.
  cbn [mbind outcome_bind]. change (MIN_COMMIT_RECORD_SIZE - 4) with 25. split_and!.
  - intros ->. simpl. rewrite slice_from_app by done. simpl. by case_if.
  - intros ?. rewrite (proj2 (Z.eqb_neq _ _)), (proj2 (Z.ltb_lt _ _)) by lia. done.
  - intros ??. rewrite (proj2 (Z.eqb_neq _ _)), (proj2 (Z.ltb_ge _ _)) by lia.
    unfold checked_add. rewrite (proj2 (Z.leb_le _ _)) by (unfold usize_max, u64_max in *; lia).
    rewrite (proj2 (Z.ltb_lt _ _)) by lia. do 2 f_equal. lia.
Qed.

Lemma decode_body_kind body crc r : decode_body body crc = Ret r →
  (∃ c, r = Commit c) ∨ (∃ why, r = Corrupted why).
Proof.
  unfold decode_body. case_if; [intros [= <-]; eauto|].
  intros (t&_&Hd)%outcome_bind_Ret. case_if_in Hd; [injection Hd as <-; eauto|].
  apply outcome_bind_Ret in Hd as ([?|?]&_&Hd); [|injection Hd as <-; eauto].
  apply outcome_bind_Ret in Hd as ([?|?]&_&Hd); [|injection Hd as <-; eauto].
  apply outcome_bind_Ret in Hd as ([?|?]&_&Hd); [|injection Hd as <-; eauto].
  case_if_in Hd; [injection Hd as <-; eauto|].
  apply outcome_bind_Ret in Hd as ([[? ?]|?]&_&Hd); [|injection Hd as <-; eauto].
  case_if_in Hd; injection Hd as <-; eauto.
Qed.

(** A complete frame is a commit or corrupt. *)
Lemma decode_commit_complete h X : bytes_ok (h ++ X) → zlen h = 4 → zlen (h ++ X) <= usize_max →
  25 <= le_value h <= zlen X →
  (∃ c, decode_commit (h ++ X) = Ret (Commit c)) ∨ (∃ why, decode_commit (h ++ X) = Ret (Corrupted why)).
Proof.
  intros Hok Hh HX Hn. destruct (decode_commit_returns (h ++ X) Hok) as [r Hr]. rewrite Hr.
  enough ((∃ c, r = Commit c) ∨ (∃ why, r = Corrupted why)) by naive_solver.
  apply Forall_app in Hok as [Hokh _]. revert Hr. unfold decode_commit.
  rewrite zlen_app, Hh in *. pose proof (zlen_nonneg X).
  rewrite (proj2 (Z.eqb_neq _ _)), (proj2 (Z.ltb_ge (4 + zlen X) 4)) by lia.
  assert (read_le_u32 (h ++ X) 0 = Ret (Ok (le_value h))) as ->.
  { apply read_le_Ok; [done|]. split; [by vm_compute|]. exists h. split; [|done].
    apply (slice_app [] _ _ 0); [done|lia]. }
  cbn [mbind outcome_bind]. change (MIN_COMMIT_RECORD_SIZE - 4) with 25.
  rewrite (proj2 (Z.eqb_neq _ _)), (proj2 (Z.ltb_ge _ _)) by lia.
  unfold checked_add. rewrite (proj2 (Z.leb_le _ _)) by lia. rewrite (proj2 (Z.ltb_ge _ _)) by lia.
  intros (?&_&Hd)%outcome_bind_Ret. apply outcome_bind_Ret in Hd as (?&_&Hd).
  case_if_in Hd; [injection Hd as <-; eauto|].
  apply outcome_bind_Ret in Hd as ([?|?]&_&Hd); [|injection Hd as <-; eauto].
  apply outcome_bind_Ret in Hd as (?&_&Hd). case_if_in Hd; [injection Hd as <-; eauto|].
  by apply decode_body_kind in Hd.
Qed.

(** How an answer of [next_record] relates to the buffer decoder's. *)
Definition same_decoding (cp : option Z) (d0 d : DecodeResult) : Prop :=
  match d0, d with
  | Commit c0, Commit c => c = elide cp c0
  | NeedMore n, NeedMore n' => n = n'
  | Corrupted _, Corrupted _ => True
  | EndOfData, EndOfData => True
  | _, _ => False
  end.

Definition record_parsed (cp : option Z) (remaining : Z) (d : bytes)
    (r : DecodeResult * option Z * Z) : Prop :=
  let '(dec, size, remaining') := r in
  ∀ rest, bytes_ok (d ++ rest) → zlen (d ++ rest) = remaining →
  (∃ d0, decode_commit (d ++ rest) = Ret d0 ∧ same_decoding cp d0 dec) ∧
  (∀ c, dec = Commit c → size = Some (zlen d) ∧ commit_byte_size (d ++ rest) = Ret size ∧
                         remaining' = zlen rest).

Lemma record_corrupt h b : zlen h = 4 → bytes_ok (h ++ b) → zlen (h ++ b) <= usize_max →
  25 <= le_value h <= zlen b →
  (∀ c, decode_commit (h ++ b) ≠ Ret (Commit c)) →
  ∃ why, decode_commit (h ++ b) = Ret (Corrupted why).
Proof.
  intros Hh Hok Hz Hn Hno. destruct (decode_commit_complete h b) as [[c Hc]|?]; [done..| |done].
  by apply Hno in Hc.
Qed.

(** The parts of a frame that is an image. *)
Lemma image_split h P stored rest c rest' :
  encodable c → zlen h = 4 → zlen P = le_value h - 4 → zlen stored = 4 →
  h ++ P ++ stored ++ rest = record_image c ++ rest' →
  P = payload c ∧ le_value stored = crc32c (payload c).
Proof.
  intros He Hh HP Hs Heq. unfold record_image in Heq. rewrite <-!app_assoc in Heq.
  unfold encodable in He. pose proof (payload_min c).
  apply app_inj_1 in Heq as [-> Heq]; [|rewrite le_bytes_length; unfold zlen in Hh; lia].
  rewrite le_value_bytes in HP by (unfold u32_max in *; lia).
  apply app_inj_1 in Heq as [-> Heq]; [|apply zlen_inj; lia].
  apply app_inj_1 in Heq as [-> Heq]; [|rewrite le_bytes_length; unfold zlen in Hs; lia].
  split; [done|]. apply le_value_bytes. pose proof (crc32c_u32 (payload c)). unfold u32_max in *. lia.
Qed.

(** The body and the CRC of a complete frame. *)
Lemma frame_consumes cp h : bytes_ok h → zlen h = 4 → 25 <= le_value h → let n := le_value h in
  consumes n ('(body, decoded) ← body_decode (mkBody (n + 4 - 8) 0) cp; body_finish body decoded)
    (λ d r, zlen d = n ∧ ∀ rest, bytes_ok (h ++ d ++ rest) → zlen (h ++ d ++ rest) <= usize_max →
            ∃ d0, decode_commit (h ++ d ++ rest) = Ret d0 ∧ same_decoding cp d0 r).
Proof.
  intros Hok Hh Hn n. destruct (le_field 4 h Hok) as [Hn' Hle]; [unfold zlen in Hh; lia|].
  eapply consumes_bind; [apply body_decode_consumes; simpl; unfold n, u32_max; lia|simpl; lia|].
  intros d1 [b dec] Hok1 Hz1 (Hb&_&Hdec). cbn [fst snd] in Hb, Hdec. subst b. cbn [b_remaining] in *.
  eapply consumes_weaken; [apply body_finish_consumes; simpl; lia|simpl; lia|].
  intros d r Hokd (more&stored&->&Hm&Hs&Hr). simpl in Hm. rewrite advance_app in Hr.
  unfold advance in Hr. cbn [b_crc] in Hr. rewrite crc32c_append_start in Hr.
  split; [rewrite !zlen_app; lia|]. intros rest Hokr Hzr.
  replace (h ++ (d1 ++ more ++ stored) ++ rest) with (h ++ (d1 ++ more) ++ stored ++ rest) in *
    by by rewrite <-!app_assoc.
  assert (zlen (d1 ++ more) = le_value h - 4) as HP by (rewrite zlen_app; unfold n in *; lia).
  assert (le_value h <= zlen ((d1 ++ more) ++ stored ++ rest)) as Hfull
    by (rewrite !zlen_app in *; pose proof (zlen_nonneg rest); lia).
  case_if_in Hr.
  2:{ destruct Hr as [why ->]. destruct (record_corrupt h ((d1 ++ more) ++ stored ++ rest)) as [why' Hw];
        [done..| |eexists; split; done].
      intros c (_&He&rest'&Hi)%decode_commit_image; [|done..].
      apply image_split in Hi as [Hp Hc]; [|done..]. by rewrite <-Hp in Hc. }
  subst r. destruct dec as [c|?|why|]; [|done| |done].
  - destruct Hdec as (c0&Hc0&->&Hz&->). assert (more = []) as -> by (destruct more; [done|];
      rewrite zlen_cons in Hm; pose proof (zlen_nonneg more); lia).
    exists (Commit c0). split; [|done]. rewrite app_nil_r in *. apply decode_commit_image; [done..|].
    split; [done|]. unfold encodable. split; [unfold n, u32_max in *; lia|]. exists rest. unfold record_image. rewrite <-!app_assoc.
    f_equal; [rewrite <-Hle; f_equal; unfold n in *; lia|]. f_equal. f_equal.
    rewrite <-Heqb. symmetry. apply le_field; [|unfold zlen in Hs; lia].
    rewrite app_nil_l in Hokd. done.
  - destruct (record_corrupt h ((d1 ++ more) ++ stored ++ rest)) as [why' Hw];
        [done..| |eexists; split; done].
    intros c (Hc&He&rest'&Hi)%decode_commit_image; [|done..].
    apply image_split in Hi as [Hp _]; [|done..]. apply (Hdec more c); [lia|done|done].
Qed.

Lemma consumes_assoc {A1 A2 B C} n (m : replayM Source (A1 * A2)) (f : A1 → A2 → replayM Source B)
    (g : B → replayM Source C) Q :
  consumes n (('(x, y) ← m; f x y) ≫= g) Q → consumes n ('(x, y) ← m; f x y ≫= g) Q.
Proof.
  intros Hc src Hok. specialize (Hc src Hok). unfold mbind, replayM_bind in *.
  by destruct (m src) as [[? [[??]|?]]|].
Qed.

(** The stream decoder reads what the buffer decoder would. *)
Lemma next_record_consumes cp remaining : 0 <= remaining <= usize_max →
  consumes remaining (next_record remaining cp) (record_parsed cp remaining).
Proof.
  intros Hr. unfold next_record. apply checkpoint_then. case_if.
  { apply consumes_ret; [lia|]. intros rest _ Hz. subst remaining. split; [|done].
    exists EndOfData. split; [|done]. unfold decode_commit. by rewrite Hz. }
  case_if.
  { eapply consumes_bind; [apply read_exact_consumes; lia|lia|]. intros d ? _ _ [-> Hd].
    apply consumes_ret; [lia|]. rewrite app_nil_r. intros rest _ Hz. split; [|done].
    exists (NeedMore 4). split; [|done]. unfold decode_commit.
    rewrite (proj2 (Z.eqb_neq _ _)), (proj2 (Z.ltb_lt _ _)) by lia. done. }
  eapply consumes_bind; [by apply read_exact_consumes|lia|]. intros h ? Hok _ [-> Hh].
  assert (∀ X, zlen (h ++ X) = remaining → zlen (h ++ X) <= usize_max) as Hcap by lia.
  case_if.
  { eapply consumes_bind; [apply read_tail_consumes; lia|lia|]. intros d ? _ _ [Hd ->].
    apply consumes_ret; [lia|]. rewrite app_nil_r. intros rest _ Hz.
    assert (rest = []) as -> by (rewrite !zlen_app in Hz; destruct rest; [done|];
      rewrite zlen_cons in Hz; pose proof (zlen_nonneg rest); lia). rewrite app_nil_r in *.
    destruct (decode_commit_prefix h d) as (_&_&H1&_); [auto..|]. rewrite H1 by done. simpl.
    split; [|by destruct (existsb _ d)]. eexists. split; [done|]. by destruct (existsb _ d). }
  change MIN_COMMIT_RECORD_SIZE with 29.
  destruct (le_field 4 h Hok) as [Hn _]; [unfold zlen in Hh; lia|].
  case_if.
  { apply consumes_ret; [lia|]. rewrite app_nil_r. intros rest _ Hz.
    destruct (decode_commit_prefix h rest) as (_&_&_&H1&_); [auto..|]. rewrite H1 by lia.
    split; [|done]. by eexists. }
  case_if.
  { eapply consumes_bind; [apply read_tail_consumes; lia|lia|]. intros d ? _ _ [Hd _].
    apply consumes_ret; [lia|]. rewrite app_nil_r. intros rest _ Hz. rewrite <-app_assoc in *.
    destruct (decode_commit_prefix h (d ++ rest)) as (_&_&_&_&H1); [auto..|].
    rewrite H1 by (rewrite zlen_app in Hz; lia). split; [|done]. by eexists. }
  apply consumes_assoc. eapply consumes_bind; [apply frame_consumes; [done..|lia]|lia|].
  intros d dec _ _ [Hd Hdec]. apply checkpoint_then, consumes_ret; [lia|].
  rewrite app_nil_r. intros rest Hokr Hz. rewrite <-app_assoc in *. split; [by apply Hdec; auto|].
  intros _ _. assert (commit_byte_size (h ++ d ++ rest) = Ret (Some (le_value h + 4))) as ->.
  { unfold commit_byte_size. rewrite Hz, (proj2 (Z.ltb_ge _ _)) by lia.
    assert (read_le_u32 (h ++ d ++ rest) 0 = Ret (Ok (le_value h))) as ->.
    { apply read_le_Ok; [done|]. split; [by vm_compute|]. exists h. split; [|done].
      apply (slice_app [] _ _ 0); [done|lia]. }
    cbn [mbind outcome_bind]. rewrite (proj2 (Z.eqb_neq _ _)) by lia. unfold checked_add.
    rewrite (proj2 (Z.leb_le _ _)) by (unfold usize_max, u64_max in *; lia). do 2 f_equal. lia. }
  rewrite !zlen_app in *. split_and!; [f_equal; lia|done|lia].
Qed.
End record.

(** ** The stream replay simulates the buffer replay *)

(** Errors of the two replays: only the text of a corruption may differ. *)
Definition same_error (e0 e : ReplayError) : Prop :=
  match e0, e with
  | CorruptFailFast off0 _, CorruptFailFast off _ => off0 = off
  | _, _ => e0 = e
  end.

Section stream.
Context `{Crc32cAppend} {S : Type} (policy : TailPolicy) (data : bytes) (skip : Z).
Context (apply : S → WalCommit → S).
Hypothesis data_ok : bytes_ok data.
Hypothesis data_len : zlen data <= usize_max.

Abbreviation rapply := (on_state (λ s c, (apply s c, Ok ()))).
Abbreviation rstep := (replay_step policy (zlen data) skip (stream_decoder skip) rapply
                         (on_source checkpoint)).
Abbreviation rloop := (replay_loop policy (zlen data) skip (stream_decoder skip) rapply
                         (on_source checkpoint)).
Abbreviation bstep := (replay_step policy (zlen data) skip (slice_decoder data)
    (λ commit w, Ret (apply w commit, Ok tt)) (mret tt)).
Abbreviation bloop := (replay_loop policy (zlen data) skip (slice_decoder data)
    (λ commit w, Ret (apply w commit, Ok tt)) (mret tt)).

(** The source still has to deliver [rest]. *)
Definition at_rest (w : Replaying S) (rest : bytes) : Prop :=
  bytes_ok (src_bytes (rp_source w)) ∧ rp_remaining w = zlen rest ∧ rest `prefix_of` src_bytes (rp_source w).

(** Interrupted by the source, which is not calm then. *)
Definition cut (w : Replaying S) (e : ReplayError) : Prop := io_error e ∧ ¬ calm (rp_source w).

Lemma on_checkpoint_cases (w : Replaying S) :
  (cut w Cancelled ∧ ∃ w', on_source checkpoint w = Ret (w', Err Cancelled) ∧ rp_state w' = rp_state w) ∨
  (∃ w', on_source checkpoint w = Ret (w', Ok ()) ∧ rp_state w' = rp_state w ∧
         (calm (rp_source w) → calm (rp_source w')) ∧ ∀ rest, at_rest w rest → at_rest w' rest).
Proof.
  unfold on_source. destruct (checkpoint_cases (rp_source w)) as [[Hc [s1 ->]]|(s1&->&Hb&_&Hc)].
  - left. split; [done|]. eexists. split; done.
  - right. eexists. split_and!; [done..|]. unfold at_rest. simpl. by rewrite Hb.
Qed.

Lemma stream_decoder_spec (w : Replaying S) rest off : at_rest w rest → zlen rest <= usize_max →
  match stream_decoder skip off w with
  | Panic => False
  | Ret (w', Err e) => cut w e ∧ rp_state w' = rp_state w
  | Ret (w', Ok (dec, size)) =>
      rp_state w' = rp_state w ∧ (calm (rp_source w) → calm (rp_source w')) ∧
      (∃ d0, decode_commit rest = Ret d0 ∧ same_decoding (Some skip) d0 dec) ∧
      ∀ c, dec = Commit c → commit_byte_size rest = Ret size ∧
        ∃ used rest', rest = used ++ rest' ∧ size = Some (zlen used) ∧ at_rest w' rest'
  end.
Proof.
  intros (Hok&Hrem&more&Hsrc) Hz. unfold stream_decoder. rewrite Hrem. pose proof (zlen_nonneg rest).
  pose proof (next_record_consumes (Some skip) (zlen rest) ltac:(lia) (rp_source w) Hok) as Hn.
  destruct (next_record _ _ (rp_source w)) as [[src [[[dec size] rem]|e]]|]; [| |done].
  2:{ destruct Hn as [Hio Hn]. split; [|done]. split; [done|]. intros Hc. apply Hn. split; [done|].
      rewrite Hsrc, zlen_app. pose proof (zlen_nonneg more). lia. }
  destruct Hn as (Hc&d&Hd&Hzd&Hrec). rewrite Hsrc in Hd.
  assert (∃ rest', rest = d ++ rest' ∧ src_bytes src = rest' ++ more) as (rest'&->&Hsrc').
  { exists (drop (length d) rest). pose proof (f_equal (take (length d)) Hd) as Ht.
    pose proof (f_equal (drop (length d)) Hd) as Hdr.
    rewrite take_app_length, take_app_le in Ht by (unfold zlen in Hzd; lia).
    rewrite drop_app_length, drop_app_le in Hdr by (unfold zlen in Hzd; lia).
    split; [|done]. rewrite <-(take_drop (length d) rest) at 1. by rewrite Ht. }
  rewrite Hsrc in Hok. assert (bytes_ok (d ++ rest') ∧ bytes_ok (src_bytes src)) as [Hok1 Hok2].
  { rewrite Hsrc'. unfold bytes_ok in *. rewrite !Forall_app in *. naive_solver. }
  destruct (Hrec rest' Hok1 eq_refl) as [Hdec Hcom].
  split_and!; [done..|]. intros c Hdc. destruct (Hcom c Hdc) as (->&Hcbs&->).
  split; [done|]. exists d, rest'. split_and!; [done..|]. split_and!; [done..|]. by exists more.
Qed.

(** Flows of the two loops. *)
Definition same_flow (r0 r : res ReplayError Flow) : Prop :=
  match r0, r with
  | Ok f0, Ok f => f0 = f ∧ ∃ sc o, f = Break sc o
  | Err e0, Err e => same_error e0 e
  | _, _ => False
  end.

Lemma discard_same {W1 W2} sc e0 e f w1 w2 : same_error e0 e →
  ∃ r0 r, discard (W := W1) policy sc e0 f w1 = Ret (w1, r0) ∧
          discard (W := W2) policy sc e f w2 = Ret (w2, r) ∧ same_flow r0 r.
Proof. intros He. destruct policy; do 2 eexists; split_and!; try done. simpl. eauto. Qed.

(** What an iteration of the stream does with a decoded record. *)
Definition after_read (sc : Scan) (dec : DecodeResult) (size : option Z) : replayM (Replaying S) Flow :=
  match dec with
  | Commit commit => replay_commit policy (zlen data) skip rapply (on_source checkpoint) sc commit size
  | EndOfData =>
      mret (Break (mkScan (sc_offset sc) (sc_commits_replayed sc) (sc_versions_replayed sc)
                   (sc_records_discarded sc) (sc_last_decoded_seq sc)
                   (sc_last_replayed_seq sc) (sc_offset sc)) Clean)
  | NeedMore needed => discard policy sc (TruncatedFailFast (sc_offset sc) needed) TruncatedTail
  | Corrupted why =>
      discard policy sc (CorruptFailFast (sc_offset sc) why) (λ n, CorruptTail n (sc_offset sc))
  end.

(** An iteration on a record the engine refuses. *)
Lemma stop_same sc (w : Replaying S) rest d0 dec size0 size o :
  decode_commit rest = Ret d0 → same_decoding (Some skip) d0 dec →
  commit_byte_size rest = Ret size0 → (∀ c, dec = Commit c → size = size0) →
  (∀ c, d0 = Commit c → ∃ n, size0 = Some n ∧ 0 < n <= zlen data - sc_offset sc) →
  stop_reason (sc_last_decoded_seq sc) (sc_offset sc) d0 = Some o →
  ∃ r0 r, after_decode policy data skip apply sc d0 size0 (rp_state w) = Ret (rp_state w, r0) ∧
    after_read sc dec size w = Ret (w, r) ∧ same_flow r0 r.
Proof.
  intros Hdec Hsame Hcbs Hsize Hfit Hstop. destruct d0 as [c0|n|why|], dec as [c|n'|why'|]; try done.
  - simpl in Hsame. subst c. rewrite (Hsize _ eq_refl). destruct (Hfit _ eq_refl) as (n&->&Hn).
    unfold after_decode, after_read, replay_commit. simpl in *.
    rewrite (proj2 (Z.ltb_lt _ _)), (proj2 (Z.leb_le n _)) by lia. cbn [andb sc_last_decoded_seq].
    destruct ((_ =? _) || _); [by apply discard_same|].
    destruct (wc_commit_seq c0 <=? sc_last_decoded_seq sc); [by apply discard_same|done].
  - simpl in Hsame. subst n'. by apply discard_same.
  - by apply discard_same.
  - do 2 eexists. split_and!; [done..|]. simpl. eauto.
Qed.

(** An iteration on a record the engine accepts. *)
Lemma accept_same sc (w : Replaying S) c0 n :
  0 < n <= zlen data - sc_offset sc →
  stop_reason (sc_last_decoded_seq sc) (sc_offset sc) (Commit c0) = None →
  let s := if wc_commit_seq c0 <=? skip then rp_state w else apply (rp_state w) c0 in
  match replay_commit policy (zlen data) skip rapply (on_source checkpoint) sc
          (elide (Some skip) c0) (Some n) w with
  | Ret (w', Ok f) => f = Continue (scan_accept skip n c0 sc) ∧ rp_state w' = s ∧
      (calm (rp_source w) → calm (rp_source w')) ∧ ∀ rest, at_rest w rest → at_rest w' rest
  | Ret (w', Err e) => cut w e ∧ rp_state w' = s
  | Panic => False
  end.
Proof.
  intros Hn Hstop s. unfold replay_commit, scan_accept. simpl in *.
  rewrite (proj2 (Z.ltb_lt _ _)), (proj2 (Z.leb_le n _)) by lia. cbn [andb sc_last_decoded_seq].
  destruct ((_ =? _) || _); [done|]. destruct (wc_commit_seq c0 <=? sc_last_decoded_seq sc); [done|].
  unfold s. destruct (wc_commit_seq c0 <=? skip) eqn:Hsk; [done|].
  replace (elide (Some skip) c0) with c0 by (unfold elide, below_checkpoint; rewrite Hsk; by destruct c0).
  unfold mbind, replayM_bind. simpl.
  set (w1 := mkReplaying (rp_source w) (rp_remaining w) (apply (rp_state w) c0)).
  destruct (on_checkpoint_cases w1) as [(Hc&w2&->&Hs)|(w2&->&Hs&Hc&Hr)]; done.
Qed.

Lemma cut_before w w' e : (calm (rp_source w) → calm (rp_source w')) → cut w' e → cut w e.
Proof. intros Hc [? ?]. split; auto. Qed.

(** The stream's iteration up to the decoded record. *)
Lemma rstep_decoded sc (w : Replaying S) rest d0 : at_rest w rest → zlen rest <= usize_max →
  decode_commit rest = Ret d0 →
  (∃ w' e, rstep sc w = Ret (w', Err e) ∧ cut w e ∧ rp_state w' = rp_state w) ∨
  (∃ w' dec size, rstep sc w = after_read sc dec size w' ∧ rp_state w' = rp_state w ∧
     (calm (rp_source w) → calm (rp_source w')) ∧ same_decoding (Some skip) d0 dec ∧
     ∀ c, dec = Commit c → commit_byte_size rest = Ret size ∧
       ∃ used rest', rest = used ++ rest' ∧ size = Some (zlen used) ∧ at_rest w' rest').
Proof.
  intros Hat Hz Hdec. unfold replay_step, mbind, replayM_bind.
  destruct (on_checkpoint_cases w) as [(Hc&w1&->&Hs1)|(w1&->&Hs1&Hc1&Hr1)]; [left; eauto|].
  pose proof (stream_decoder_spec w1 rest (sc_offset sc) (Hr1 _ Hat) Hz) as Hsd.
  destruct (stream_decoder skip (sc_offset sc) w1) as [[w2 [[dec size]|e]]|]; [| |done].
  2:{ destruct Hsd as [Hcut Hs]. left. do 2 eexists. split_and!; [done|by eapply cut_before|congruence]. }
  destruct Hsd as (Hs2&Hc2&(d0'&Hdec'&Hsame)&Hcom). rewrite Hdec in Hdec'. injection Hdec' as <-.
  destruct (on_checkpoint_cases w2) as [(Hc&w3&->&Hs3)|(w3&->&Hs3&Hc3&Hr3)].
  { left. do 2 eexists. split_and!; [done| |congruence]. eapply cut_before; [|done]. auto. }
  right. exists w3, dec, size. split_and!; [by destruct dec|congruence|auto|done|]. naive_solver.
Qed.

(** One iteration on a record both loops accept. *)
Lemma step_accepted sc (w : Replaying S) pre c0 rest' :
  data = pre ++ record_image c0 ++ rest' → sc_offset sc = zlen pre →
  at_rest w (record_image c0 ++ rest') → loggable c0 →
  stop_reason (sc_last_decoded_seq sc) (sc_offset sc) (Commit c0) = None →
  let s := if wc_commit_seq c0 <=? skip then rp_state w else apply (rp_state w) c0 in
  match rstep sc w with
  | Ret (w', Ok f) =>
      f = Continue (scan_accept skip (zlen (record_image c0)) c0 sc) ∧ rp_state w' = s ∧
      at_rest w' rest' ∧ (calm (rp_source w) → calm (rp_source w'))
  | Ret (w', Err e) => cut w e ∧ (rp_state w' = rp_state w ∨ rp_state w' = s)
  | Panic => False
  end.
Proof.
  intros Hd Ho Hat [Hc0 He] Hstop. cbv zeta.
  assert (bytes_ok (record_image c0 ++ rest')) as Hb
    by (rewrite Hd in data_ok; by apply Forall_app in data_ok as [_ ?]).
  pose proof (f_equal zlen Hd) as Hlen. rewrite zlen_app in Hlen. pose proof (zlen_nonneg pre).
  destruct (rstep_decoded sc w (record_image c0 ++ rest') (Commit c0))
    as [(w'&e&->&Hcut&Hs)|(w'&dec&size&->&Hs&Hc&Hsame&Hcom)]; [done|lia| |auto|].
  { apply decode_commit_image; [done|lia|eauto]. }
  destruct dec as [c| | |]; [|done..]. simpl in Hsame. subst c.
  destruct (Hcom _ eq_refl) as (Hcbs&used&rest''&Heq&->&Hat').
  rewrite commit_byte_size_image in Hcbs by done. injection Hcbs as Hzu.
  apply app_inj_1 in Heq as [<- <-]; [|by apply zlen_inj].
  rewrite zlen_app in Hlen. pose proof (zlen_record_image c0). pose proof (payload_min c0).
  pose proof (zlen_nonneg rest').
  assert (0 < zlen (record_image c0) <= zlen data - sc_offset sc) as Hn by (rewrite Ho; lia).
  pose proof (accept_same sc w' c0 (zlen (record_image c0)) Hn Hstop) as Hacc.
  unfold after_read. rewrite Hs in Hacc.
  destruct (replay_commit _ _ _ _ _ _ _ _ w') as [[w3 [f|e]]|]; [| |done].
  - destruct Hacc as (->&->&Hc'&Hr'). split_and!; auto.
  - destruct Hacc as [Hcut ->]. split; [by eapply cut_before|]. by right.
Qed.

(** One iteration on a record both loops refuse. *)
Lemma step_refused sc (w : Replaying S) pre rest d0 o :
  data = pre ++ rest → sc_offset sc = zlen pre → at_rest w rest →
  decode_commit rest = Ret d0 → stop_reason (sc_last_decoded_seq sc) (sc_offset sc) d0 = Some o →
  match rstep sc w with
  | Ret (w', Ok f) => (calm (rp_source w) → calm (rp_source w')) ∧
      bstep sc (rp_state w) = Ret (rp_state w', Ok f) ∧ ∃ sc' o, f = Break sc' o
  | Ret (w', Err e) => rp_state w' = rp_state w ∧
      (cut w e ∨ ∃ e0, bstep sc (rp_state w) = Ret (rp_state w', Err e0) ∧ same_error e0 e)
  | Panic => False
  end.
Proof.
  intros Hd Ho Hat Hdec Hstop.
  assert (zlen pre + zlen rest = zlen data) as Hlen by by rewrite Hd, zlen_app.
  assert (bytes_ok rest) as Hb by (rewrite Hd in data_ok; by apply Forall_app in data_ok as [_ ?]).
  pose proof (zlen_nonneg pre).
  destruct (step_decoded policy data skip apply sc (rp_state w) pre rest d0) as (size0&Hcbs&->); [done..|].
  destruct (rstep_decoded sc w rest d0) as [(w'&e&->&Hcut&Hs)|(w'&dec&size&->&Hs&Hc&Hsame&Hcom)];
    [done|lia|done|auto|].
  destruct (stop_same sc w' rest d0 dec size0 size o) as (r0&r&Hb0&->&Hflow); [done..| | |done|].
  { intros c Hdc. destruct (Hcom c Hdc) as [Hcb _]. congruence. }
  { intros c ->. apply decode_commit_image in Hdec as (_&He&rest'&->); [|done|lia].
    rewrite commit_byte_size_image in Hcbs by done. injection Hcbs as <-. eexists. split; [done|].
    rewrite zlen_app in Hlen. pose proof (zlen_record_image c). pose proof (payload_min c).
    pose proof (zlen_nonneg rest'). lia. }
  rewrite Hs in Hb0. rewrite Hb0, Hs. destruct r0 as [f0|e0], r as [f|e]; try done; simpl in Hflow.
  - destruct Hflow as [-> ?]. auto.
  - split; [done|]. right. eauto.
Qed.

(** The record at the front of a log is the first of its reading. *)
Lemma log_reads_front last off c rest' cs tail o :
  bytes_ok (record_image c ++ rest') → zlen (record_image c ++ rest') <= usize_max → loggable c →
  stop_reason last off (Commit c) = None → log_reads last off (record_image c ++ rest') cs tail o →
  ∃ cs', cs = c :: cs' ∧
         log_reads (wc_commit_seq c) (off + zlen (record_image c)) rest' cs' tail o.
Proof.
  intros Hb Hl Hc (?&[= <-]&?&?&?)%stop_reason_None (Hd&Hcs&Hacc&Hst).
  destruct cs as [|c' cs'].
  { exfalso. simpl in Hd. subst tail. by eapply (stops_not_accepted last (off + 0) c). }
  rewrite log_image_cons, <-app_assoc in Hd. apply Forall_cons in Hcs as [Hc' Hcs].
  assert (c = c') as <-.
  { destruct Hc, Hc'.
    assert (decode_commit (record_image c ++ rest') = Ret (Commit c)) as Hc1
      by (apply decode_commit_image; eauto).
    assert (decode_commit (record_image c ++ rest') = Ret (Commit c')) as Hc2
      by (apply decode_commit_image; [done..|]; rewrite Hd; eauto).
    congruence. }
  apply app_inv_head in Hd. exists cs'. split; [done|].
  rewrite log_image_cons, zlen_app, Z.add_assoc in Hst. by destruct Hacc as (_&_&_&?).
Qed.

(** Where a cut stream leaves the state: after a prefix of the commits. *)
Definition applied_prefix (last off : Z) (rest : bytes) (s s' : S) : Prop :=
  ∀ cs tail o, log_reads last off rest cs tail o →
  ∃ l, l `prefix_of` applied skip cs ∧ s' = foldl apply s l.

Lemma loop_same fuel sc (w : Replaying S) pre rest :
  data = pre ++ rest → sc_offset sc = zlen pre → at_rest w rest →
  match rloop fuel sc w with
  | Ret (w', Ok r) => bloop fuel sc (rp_state w) = Ret (rp_state w', Ok r) ∧
                      (calm (rp_source w) → calm (rp_source w'))
  | Ret (w', Err e) =>
      (cut w e ∧ applied_prefix (sc_last_decoded_seq sc) (sc_offset sc) rest (rp_state w) (rp_state w')) ∨
      ∃ e0, bloop fuel sc (rp_state w) = Ret (rp_state w', Err e0) ∧ same_error e0 e
  | Panic => False
  end.
Proof.
  revert sc w pre rest. induction fuel as [|fuel IH]; intros sc w pre rest Hd Ho Hat;
    cbn [replay_loop]; [by case_if|].
  case_if; [|done]. unfold mbind, replayM_bind.
  assert (zlen pre + zlen rest = zlen data) as Hlen by by rewrite Hd, zlen_app.
  assert (bytes_ok rest) as Hb by (rewrite Hd in data_ok; by apply Forall_app in data_ok as [_ ?]).
  pose proof (zlen_nonneg pre).
  destruct (decode_commit_returns rest Hb) as [d0 Hdec].
  destruct (stop_reason (sc_last_decoded_seq sc) (sc_offset sc) d0) as [o|] eqn:Hstop.
  - pose proof (step_refused sc w pre rest d0 o Hd Ho Hat Hdec Hstop) as Hst.
    destruct (rstep sc w) as [[w' [f|e]]|]; [| |done].
    + destruct Hst as (Hc&->&sc'&o'&->). done.
    + destruct Hst as [Hs [Hcut|(e0&->&He)]]; [left|right; eauto].
      split; [done|]. intros cs tail o' _. exists []. split; [apply prefix_nil|done].
  - pose proof Hstop as (c0&->&_)%stop_reason_None.
    apply decode_commit_image in Hdec as (Hc0&He&rest'&->); [|done|lia].
    assert (loggable c0) as Hlog by done.
    pose proof (step_accepted sc w pre c0 rest' Hd Ho Hat Hlog Hstop) as Hst. cbv zeta in Hst.
    rewrite (accept_step policy data skip apply data_ok data_len sc (rp_state w) pre c0 rest') by done.
    set (s' := if wc_commit_seq c0 <=? skip then rp_state w else apply (rp_state w) c0) in *.
    destruct (scan_accept_shape skip (zlen (record_image c0)) c0 sc) as (Hso&_&_&Hsd).
    assert (∀ cs l, l `prefix_of` applied skip cs →
      ∃ l', l' `prefix_of` applied skip (c0 :: cs) ∧ foldl apply s' l = foldl apply (rp_state w) l') as Hpre.
    { intros cs l Hl. rewrite applied_cons. unfold s'. destruct (wc_commit_seq c0 <=? skip); [by exists l|].
      exists (c0 :: l). split; [by apply prefix_cons|done]. }
    destruct (rstep sc w) as [[w' [f|e]]|]; [| |done].
    + destruct Hst as (->&Hs&Hat'&Hc).
      specialize (IH _ w' (pre ++ record_image c0) rest' ltac:(by rewrite <-app_assoc)
                    ltac:(rewrite Hso, zlen_app; lia) Hat'). rewrite Hs in IH.
      destruct (rloop fuel _ w') as [[w2 [r|e]]|]; [naive_solver| |done].
      destruct IH as [[Hcut Hap]|?]; [|auto]. left. split; [by eapply cut_before|].
      intros cs tail o Hr. apply log_reads_front in Hr as (cs'&->&Hr); [|done|lia|done..].
      rewrite Hso, Hsd in Hap. destruct (Hap _ _ _ Hr) as (l&Hl&->). naive_solver.
    + destruct Hst as [Hcut Hs]. left. split; [done|]. intros cs tail o Hr.
      apply log_reads_front in Hr as (cs'&->&_); [|done|lia|done..].
      destruct Hs as [->| ->]; [exists []; split; [apply prefix_nil|done]|].
      destruct (Hpre cs' [] (prefix_nil _)) as (l&?&?). eauto.
Qed.
End stream.

Lemma replay_reader_replays `{Crc32cAppend} {S : Type} (policy : TailPolicy)
    (data more : bytes) (script : list ReadAnswer) (cancel : list bool) (skip : Z)
    (apply : S → WalCommit → S) (s : S) :
  bytes_ok (data ++ more) → zlen data <= usize_max →
  let src := mkSource (data ++ more) script cancel in
  match replay_reader policy (zlen data) skip (λ s c, (apply s c, Ok ()))
          (mkReplaying src (zlen data) s) with
  | Ret (w', Ok r) => replay policy data skip apply s = Ret (rp_state w', Ok r) ∧
                      (calm src → calm (rp_source w'))
  | Ret (w', Err e) =>
      (io_error e ∧ ¬ calm src ∧
       ∃ cs tail o l, log_reads 0 0 data cs tail o ∧ l `prefix_of` applied skip cs ∧
                      rp_state w' = foldl apply s l) ∨
      (∃ e0, replay policy data skip apply s = Ret (rp_state w', Err e0) ∧ same_error e0 e)
  | Panic => False
  end.
Proof.
  intros [Hok Hokm]%Forall_app Hlen src. destruct (log_reads_exists data Hok Hlen) as (cs&tail&o&Hr).
  assert (∀ e, cut (S := S) (mkReplaying src (zlen data) s) e → ∀ l s', l `prefix_of` applied skip cs →
    s' = foldl apply s l → io_error e ∧ ¬ calm src ∧
       ∃ cs tail o l, log_reads 0 0 data cs tail o ∧ l `prefix_of` applied skip cs ∧
                      s' = foldl apply s l) as Hcut by (intros e [??]; eauto 10).
  assert (at_rest (mkReplaying src (zlen data) s) data) as Hat0.
  { split_and!; [by apply Forall_app_2|done|]. by exists more. }
  destruct (replay_reads policy data skip apply s cs tail o Hok Hlen Hr) as (r0&Hbuf&_).
  revert Hbuf. unfold replay_reader, replay, replay_records.
  unfold mbind, replayM_bind, mret, replayM_ret.
  destruct (on_checkpoint_cases (mkReplaying src (zlen data) s))
    as [(Hc&w1&->&Hs)|(w1&->&Hs&Hc&Hat)]; [intros _; left; by apply (Hcut _ Hc []); [apply prefix_nil|]|].
  simpl in Hs. case_if; [intros [= _ <-]; by rewrite Hs|].
  pose proof (loop_same policy data skip apply Hok Hlen (Z.to_nat (zlen data)) (scan_start skip) w1 [] data
                eq_refl eq_refl (Hat _ Hat0)) as Hl.
  unfold mbind, replayM_bind, mret, replayM_ret in Hl. rewrite Hs in Hl.
  destruct (replay_loop _ _ _ (stream_decoder skip) _ _ _ _ w1) as [[w2 [[[sc o']|]|e]]|]; [| | |done].
  - destruct Hl as [-> Hc2]. intros [= Hst <-].
    destruct (on_checkpoint_cases w2) as [(Hcu&w3&->&Hs3)|(w3&->&Hs3&Hc3&_)]; [left|rewrite Hs3; auto].
    apply (Hcut Cancelled) with (l := applied skip cs); [|done|congruence].
    eapply cut_before; [|done]. auto.
  - destruct Hl as [-> Hc2]. auto.
  - intros _. destruct Hl as [[Hcu Hap]|(e0&->&He)]; [left|right; eauto].
    destruct (Hap _ _ _ Hr) as (l&Hl&Heq). apply (Hcut e) with (l := l); [|done|done].
    by eapply cut_before.
Qed.


(** C11. Replaying a captured WAL range from a reader is replaying the buffer:
    however the reader splits its answers, a stream replay that returns a
    report applies the same commits and reports the same as the buffer
    replay, and one that fails on the log fails where the buffer replay does.
    It can also stop on an error of the reader or on a cancellation; then
    what was applied is a prefix of what the buffer replay applies, and this
    does not happen with a reader that never fails and is not cancelled. *)
Theorem replay_reader_is_replay `{Crc32cAppend} {S : Type} (policy : TailPolicy)
    (data more : bytes) (script : list ReadAnswer) (cancel : list bool) (skip : Z)
    (apply : S → WalCommit → S) (s : S) :
  bytes_ok (data ++ more) → zlen data <= usize_max →
  let src := mkSource (data ++ more) script cancel in
  match replay_reader policy (zlen data) skip (λ s c, (apply s c, Ok ()))
          (mkReplaying src (zlen data) s) with
  | Ret (w', Ok r) => replay policy data skip apply s = Ret (rp_state w', Ok r)
  | Ret (w', Err e) =>
      (io_error e ∧ ¬ calm src ∧
       ∃ cs tail o l, log_reads 0 0 data cs tail o ∧ l `prefix_of` applied skip cs ∧
                      rp_state w' = foldl apply s l) ∨
      (∃ e0, replay policy data skip apply s = Ret (rp_state w', Err e0) ∧ same_error e0 e)
  | Panic => False
  end.
Proof.
  intros Hok Hlen src. pose proof (replay_reader_replays policy data more script cancel skip apply s Hok Hlen) as Hr.
  cbv zeta in Hr. fold src in Hr. destruct (replay_reader _ _ _ _ _) as [[w' [r|e]]|]; [by destruct Hr|done|done].
Qed.

(** A witness: the sample log behind a reader that answers in small pieces
    and is interrupted once, with a byte beyond the captured range. *)
Abbreviation sample_source :=
  (mkSource (sample_bytes ++ [9]) [Got 3; Interrupted; Got 1; Got 20; Interrupted] [false; false]).
Abbreviation sample_stream :=
  (replay_reader (H := BitwiseCrc) (H0 := BitwiseCrcAppend) TruncateToLastGood (zlen sample_bytes) 2
     (λ s c, (note_seq s c, Ok ())) (mkReplaying sample_source (zlen sample_bytes) [])).

Lemma sample_stream_runs :
  match sample_stream with Ret (w', Ok r) => rp_state w' = [5; 9] | _ => False end.
Proof. vm_compute. reflexivity. Qed.

Lemma replay_reader_is_replay_witness :
  ∃ w' r, sample_stream = Ret (w', Ok r) ∧ rp_state w' = [5; 9] ∧
          replay (H := BitwiseCrc) TruncateToLastGood sample_bytes 2 note_seq [] = Ret (rp_state w', Ok r).
Proof.
  pose proof sample_stream_runs as Hrun.
  assert (bytes_ok (sample_bytes ++ [9])) as Hok by (vm_compute; repeat constructor; discriminate).
  assert (zlen sample_bytes <= usize_max) as Hlen by (vm_compute; discriminate).
  pose proof (replay_reader_is_replay (H := BitwiseCrc) (H0 := BitwiseCrcAppend) TruncateToLastGood
    sample_bytes [9] [Got 3; Interrupted; Got 1; Got 20; Interrupted] [false; false] 2
    note_seq [] Hok Hlen) as Heq. cbv zeta in Heq.
  destruct sample_stream as [[w' [r|e]]|]; [|destruct Hrun..].
  exists w', r. exact (conj eq_refl (conj Hrun Heq)).
Defined.
