(* ===== verification/Checkpoint.v ===== *)
(** * Checkpoint: the checkpoint file ([ffs-mvcc/src/persist.rs],
      [ffs-mvcc/src/persist/checkpoint_reader.rs])

    A checkpoint is a compact, checksummed image of the version chains and of
    the two counters.  The writer streams it through a running CRC; the reader
    decodes it from an untrusted file with bounded allocations and publishes it
    to the store only after everything has been validated.

    The writer is a computation over a sink with a script of which writes
    succeed, the reader a computation over the sources of [WalReader].  The
    results: what a successful write emitted is read back as the same counters
    and chains (up to deduplication, which no read can see), and whatever bytes
    a file holds, a load that succeeds leaves a well-formed store. *)

From stdpp Require Import base sorting numbers gmap list.
From S2P Require Import Prelude Sorted Chain Txn Policy Metrics Store StoreLemmas StoreInv.
From S2P Require Import StoreCorrect StoreTyped Wal WalReplay WalWriter WalReader.

Local Open Scope Z_scope.

Definition CHECKPOINT_MAGIC : Z := 0x4D564350.
Definition CHECKPOINT_VERSION : Z := 1.
Definition CHECKPOINT_HEADER_SIZE : Z := 28.
Definition CHECKPOINT_IO_CHUNK_BYTES : Z := 64 * 1024.

Definition BLOCK_HEADER_BYTES : Z := 12.
Definition VERSION_HEADER_BYTES : Z := 20.
Definition MIN_BLOCK_BYTES : Z := BLOCK_HEADER_BYTES + VERSION_HEADER_BYTES.
Definition CRC_BYTES : Z := 4.

(** ** Validation shared by the writer and the reader *)

Definition validate_checkpoint_counters {W} (next_txn next_commit : Z) : replayM W () :=
  if (next_txn =? 0) || (next_commit =? 0) then throw (Refused 0 ZeroNextCounter) else mret ().

Definition validate_checkpoint_version {W} (block : Z) (version : BlockVersion)
    (previous_seq : option Z) (next_txn next_commit : Z) : replayM W () :=
  if negb (bv_block version =? block) || (bv_commit_seq version =? 0)
     || (next_commit <=? bv_commit_seq version) || (next_txn <=? bv_writer version)
     || match previous_seq with Some seq => bv_commit_seq version <=? seq | None => false end
  then throw (Refused block InvalidVersionIdentity)
  else if match previous_seq with None => is_identical (bv_data version) | Some _ => false end
  then throw (Refused block DedupMarkerWithoutBase)
  else mret ().

(** ** Writing *)

(** What has been written, and whether the next writes succeed (all of them
    once the script is over). *)
Record Sink := mkSink { sk_out : bytes; sk_script : list bool }.

Definition write_failed : Z := 3.

Definition sink_write (chunk : bytes) : replayM Sink () := λ k,
  match sk_script k with
  | false :: script => Ret (mkSink (sk_out k) script, Err (External write_failed))
  | true :: script => Ret (mkSink (sk_out k ++ chunk) script, Ok ())
  | [] => Ret (mkSink (sk_out k ++ chunk) [], Ok ())
  end.

Section writing.
Context `{Crc32cAppend} `{VersionCodec}.

(** [Crc32cHasher::write_all]: the running CRC after the chunks. *)
Fixpoint hash_chunks (crc : Z) (cs : list bytes) : replayM Sink Z :=
  match cs with
  | [] => mret crc
  | chunk :: cs' => _ ← sink_write chunk; hash_chunks (crc32c_append crc chunk) cs'
  end.

Definition hasher_write_all (crc : Z) (data : bytes) : replayM Sink Z :=
  hash_chunks crc (chunks CHECKPOINT_IO_CHUNK_BYTES data).

(** The loop over the versions of a chain; [vi] is the index of the next. *)
Fixpoint write_versions (crc block : Z) (chain : list BlockVersion) (next_txn next_commit : Z)
    (vi : nat) (previous_seq : option Z) (rest : list BlockVersion) : replayM Sink Z :=
  match rest with
  | [] => mret crc
  | version :: rest' =>
      _ ← validate_checkpoint_version block version previous_seq next_txn next_commit;
      let previous_seq := Some (bv_commit_seq version) in
      crc ← hasher_write_all crc (le_bytes 8 (bv_commit_seq version));
      crc ← hasher_write_all crc (le_bytes 8 (bv_writer version));
      if is_identical (bv_data version) then
        crc ← hasher_write_all crc (le_bytes 4 u32_max);
        write_versions crc block chain next_txn next_commit (S vi) previous_seq rest'
      else
        match resolve_data_with chain vi bv_data with
        | None => throw (Refused block DecompressionFailed)
        | Some materialized =>
            if negb (zlen materialized <=? u32_max) then throw (Refused block DataTooLarge)
            else if zlen materialized =? u32_max then throw (Refused block DataLengthIsDedupMarker)
            else
              crc ← hasher_write_all crc (le_bytes 4 (zlen materialized));
              crc ← hasher_write_all crc materialized;
              write_versions crc block chain next_txn next_commit (S vi) previous_seq rest'
        end
  end.

Fixpoint write_blocks (crc next_txn next_commit : Z) (previous_block : option Z)
    (blocks : list (Z * list BlockVersion)) : replayM Sink Z :=
  match blocks with
  | [] => mret crc
  | (block, chain) :: blocks' =>
      if match previous_block with Some previous => block <=? previous | None => false end
      then throw (Refused block UnorderedBlock)
      else if (length chain =? 0)%nat then throw (Refused block EmptyVersionChain)
      else
        crc ← hasher_write_all crc (le_bytes 8 block);
        if negb (zlen chain <=? u32_max) then throw (Refused block TooManyVersions)
        else
          crc ← hasher_write_all crc (le_bytes 4 (zlen chain));
          crc ← write_versions crc block chain next_txn next_commit 0 None chain;
          write_blocks crc next_txn next_commit (Some block) blocks'
  end.

(** The fixed header: magic, version, reserved, counters, block count. *)
Definition checkpoint_header (next_txn next_commit num_blocks : Z) : bytes :=
  le_bytes 4 CHECKPOINT_MAGIC ++ le_bytes 2 CHECKPOINT_VERSION ++ [0; 0] ++
  le_bytes 8 next_txn ++ le_bytes 8 next_commit ++ le_bytes 4 num_blocks.

Definition write_checkpoint (next_txn next_commit : Z) (versions : list (Z * list BlockVersion)) :
    replayM Sink () :=
  _ ← validate_checkpoint_counters next_txn next_commit;
  if negb (zlen versions <=? u32_max) then throw (Refused 0 TooManyBlocks)
  else
    crc ← hasher_write_all 0 (checkpoint_header next_txn next_commit (zlen versions));
    crc ← write_blocks crc next_txn next_commit None versions;
    sink_write (le_bytes 4 crc).
End writing.

(** The chains of the store in block order, as [checkpoint_with_directory_sync]
    collects them from the hash map. *)
Definition versions_snapshot `{UnstableSort} (s : MvccStore) : list (Z * list BlockVersion) :=
  sort_by (λ x y, x.1 <=? y.1) (map_to_list (versions s)).

(** ** Reading *)

(** [read_checkpoint_exact]; fuel as for [read_exact]. *)
Fixpoint read_checkpoint_loop (fuel : nat) (want : Z) (got : bytes) : replayM Source bytes :=
  if want <=? 0 then _ ← checkpoint; mret got
  else
    match fuel with
    | O => λ _, Panic
    | S fuel' =>
        _ ← checkpoint;
        r ← read_call (Z.min want CHECKPOINT_IO_CHUNK_BYTES);
        match r with
        | Some [] => throw (External unexpected_eof)
        | Some b => _ ← checkpoint; read_checkpoint_loop fuel' (want - zlen b) (got ++ b)
        | None => read_checkpoint_loop fuel' want got
        end
    end.

Definition read_checkpoint_exact (want : Z) : replayM Source bytes := λ src,
  read_checkpoint_loop (Z.to_nat want + length (src_script src)) want [] src.

(** The zip of the two chunk lists in [same_payload]. *)
Fixpoint same_chunks (left right : list bytes) : replayM Source bool :=
  match left, right with
  | l :: left', r :: right' =>
      _ ← checkpoint;
      if bool_decide (l = r) then same_chunks left' right' else mret false
  | _, _ => _ ← checkpoint; mret true
  end.

Definition same_payload (left right : bytes) : replayM Source bool :=
  _ ← checkpoint;
  if negb (zlen left =? zlen right) then mret false
  else same_chunks (chunks CHECKPOINT_IO_CHUNK_BYTES left) (chunks CHECKPOINT_IO_CHUNK_BYTES right).

Record DecodedCheckpoint := mkDecoded {
  dc_next_txn : Z;
  dc_next_commit : Z;
  dc_blocks : list (Z * list BlockVersion);
}.

(** What is left of the body, and the CRC so far. *)
Record Decoder := mkDecoder { d_remaining : Z; d_crc : Z }.

Section reading.
Context `{Crc32cAppend} `{VersionCodec}.

Definition read_into (d : Decoder) (want : Z) : replayM Source (Decoder * bytes) :=
  _ ← checkpoint;
  if d_remaining d <? want then throw (Refused 0 FieldsExceedBody)
  else
    b ← read_checkpoint_exact want;
    mret (mkDecoder (d_remaining d - want) (crc32c_append (d_crc d) b), b).

(** [from_le_bytes(decoder.read()?)] *)
Definition decoder_read (d : Decoder) (n : Z) : replayM Source (Decoder * Z) :=
  '(d, b) ← read_into d n; mret (d, le_value b).

Fixpoint payload_loop (fuel : nat) (d : Decoder) (len : Z) (data : bytes) :
    replayM Source (Decoder * bytes) :=
  if len <=? zlen data then mret (d, data)
  else
    match fuel with
    | O => λ _, Panic
    | S fuel' =>
        _ ← checkpoint;
        '(d, b) ← read_into d (Z.min (len - zlen data) CHECKPOINT_IO_CHUNK_BYTES);
        payload_loop fuel' d len (data ++ b)
    end.

Definition decoder_payload (d : Decoder) (block len reserved : Z) : replayM Source (Decoder * bytes) :=
  _ ← checkpoint;
  if (d_remaining d <? reserved) || (d_remaining d - reserved <? len)
  then throw (Refused block DataExceedsPayload)
  else payload_loop (Z.to_nat len) d len [].

Definition decoder_finish (d : Decoder) : replayM Source () :=
  _ ← checkpoint;
  if negb (d_remaining d =? 0) then throw (Refused 0 TrailingCheckpointBytes)
  else
    b ← read_checkpoint_exact 4;
    if negb (le_value b =? d_crc d) then throw (Refused 0 CheckpointCrcMismatch) else mret ().

(** Is the payload a repetition of the last concrete version? *)
Definition repeats_last (dedup : bool) (block : Z) (versions : list BlockVersion)
    (last_concrete : option nat) (data : bytes) : replayM Source bool :=
  match dedup, last_concrete with
  | true, Some i =>
      match resolve_data_with versions i bv_data with
      | Some previous => same_payload previous data
      | None => throw (Refused block DedupBaseUnreadable)
      end
  | _, _ => mret false
  end.

(** The body of the [for index in 0..count] loop of [decode_chain], with [left]
    versions to come. *)
Definition decode_version (left block next_txn next_commit future_blocks : Z) (dedup : bool)
    (d : Decoder) (versions : list BlockVersion) (last_concrete : option nat)
    (previous_seq : option Z) : replayM Source (Decoder * BlockVersion) :=
  '(d, commit_seq) ← decoder_read d 8;
  '(d, writer) ← decoder_read d 8;
  '(d, data_len) ← decoder_read d 4;
  let version := mkVersion block commit_seq writer
                   (if data_len =? u32_max then Identical else Full []) in
  _ ← validate_checkpoint_version block version previous_seq next_txn next_commit;
  if negb (data_len =? u32_max) then
    let reserved := future_blocks + left * VERSION_HEADER_BYTES in
    '(d, data) ← decoder_payload d block data_len reserved;
    identical ← repeats_last dedup block versions last_concrete data;
    mret (d, mkVersion block commit_seq writer (if identical : bool then Identical else Full data))
  else mret (d, version).

Fixpoint decode_versions (n : nat) (block next_txn next_commit future_blocks : Z) (dedup : bool)
    (d : Decoder) (versions : list BlockVersion) (last_concrete : option nat)
    (previous_seq : option Z) : replayM Source (Decoder * list BlockVersion) :=
  match n with
  | O => mret (d, versions)
  | S n' =>
      '(d, version) ← decode_version (Z.of_nat n') block next_txn next_commit future_blocks dedup d
                        versions last_concrete previous_seq;
      let last_concrete :=
        if negb (is_identical (bv_data version)) then Some (length versions) else last_concrete in
      decode_versions n' block next_txn next_commit future_blocks dedup d (versions ++ [version])
        last_concrete (Some (bv_commit_seq version))
  end.

Definition decode_chain (d : Decoder) (block next_txn next_commit future_blocks : Z) (dedup : bool) :
    replayM Source (Decoder * list BlockVersion) :=
  '(d, count) ← decoder_read d 4;
  if count =? 0 then throw (Refused block EmptyVersionChain)
  else if (d_remaining d <? future_blocks)
          || ((d_remaining d - future_blocks) / VERSION_HEADER_BYTES <? count)
  then throw (Refused block VersionCountExceedsBody)
  else decode_versions (Z.to_nat count) block next_txn next_commit future_blocks dedup d [] None None.

Fixpoint decode_blocks (n : nat) (next_txn next_commit : Z) (dedup : bool) (d : Decoder)
    (previous_block : option Z) (blocks : list (Z * list BlockVersion)) :
    replayM Source (Decoder * list (Z * list BlockVersion)) :=
  match n with
  | O => mret (d, blocks)
  | S n' =>
      '(d, block) ← decoder_read d 8;
      if match previous_block with Some previous => block <=? previous | None => false end
      then throw (Refused block UnorderedBlock)
      else
        let future_blocks := Z.of_nat n' * MIN_BLOCK_BYTES in
        '(d, versions) ← decode_chain d block next_txn next_commit future_blocks dedup;
        decode_blocks n' next_txn next_commit dedup d (Some block) (blocks ++ [(block, versions)])
  end.

(** The fixed fields, up to the block count. *)
Definition decode_fixed_header (d : Decoder) : replayM Source (Decoder * (Z * Z * Z)) :=
  '(d, magic) ← decoder_read d 4;
  if negb (magic =? CHECKPOINT_MAGIC) then throw (Refused 0 CheckpointMagicMismatch)
  else
  '(d, version) ← decoder_read d 2;
  if negb (version =? CHECKPOINT_VERSION) then throw (Refused 0 CheckpointVersionUnsupported)
  else
  '(d, reserved) ← read_into d 2;
  if negb (bool_decide (reserved = [0; 0])) then throw (Refused 0 NonzeroReserved)
  else
  '(d, next_txn) ← decoder_read d 8;
  '(d, next_commit) ← decoder_read d 8;
  _ ← validate_checkpoint_counters next_txn next_commit;
  '(d, num_blocks) ← decoder_read d 4;
  mret (d, (next_txn, next_commit, num_blocks)).

Definition decode_checkpoint (file_len : Z) (dedup : bool) : replayM Source DecodedCheckpoint :=
  _ ← checkpoint;
  if (file_len <? CRC_BYTES) || (file_len - CRC_BYTES <? CHECKPOINT_HEADER_SIZE)
  then throw (Refused 0 CheckpointTooShort)
  else
    '(d, header) ← decode_fixed_header (mkDecoder (file_len - CRC_BYTES) 0);
    let '(next_txn, next_commit, num_blocks) := header in
    if d_remaining d / MIN_BLOCK_BYTES <? num_blocks then throw (Refused 0 BlockCountExceedsBody)
    else
      '(d, blocks) ← decode_blocks (Z.to_nat num_blocks) next_txn next_commit dedup d None [];
      _ ← decoder_finish d;
      _ ← checkpoint;
      mret (mkDecoded next_txn next_commit blocks).

(** ** Publishing *)

Definition metadata_failed : Z := 5.

Definition publish_checkpoint (observed : option Z) (captured_len : Z) (decoded : DecodedCheckpoint)
    (store : MvccStore) : replayM Source MvccStore :=
  _ ← checkpoint;
  match observed with
  | None => throw (External metadata_failed)
  | Some observed_len =>
      if negb (observed_len =? captured_len) then throw (Refused 0 CheckpointLengthChanged)
      else
        _ ← checkpoint;
        let store := foldl (λ s bc, insert_versions s bc.1 bc.2) store (dc_blocks decoded) in
        mret (advance_counters store (dc_next_commit decoded - 1) (dc_next_txn decoded - 1))
  end.

(** Opening the file: an error, or whether it is a regular file; and the
    length its metadata shows after decoding. *)
Record CheckpointIo := mkCheckpointIo { ci_open : option bool; ci_observed : option Z }.

#[global] Instance CheckpointIo_eq_dec : EqDecision CheckpointIo.
Proof. solve_decision. Defined.

Definition open_failed : Z := 4.

Definition load_checkpoint (io : CheckpointIo) (store : MvccStore) : replayM Source MvccStore := λ src,
  let file_len := zlen (src_bytes src) in
  (_ ← checkpoint;
   match ci_open io with
   | None => throw (External open_failed)
   | Some false => throw (Refused 0 CheckpointNotRegular)
   | Some true =>
       decoded ← decode_checkpoint file_len (dedup_identical (compression_policy store));
       publish_checkpoint (ci_observed io) file_len decoded store
   end) src.
End reading.

(** ** The image of a checkpoint *)

Section image.
Context `{Crc32cAppend} `{VersionCodec}.

#[local] Opaque le_bytes.

(** The payload of version [vi] of a chain. *)
Definition version_bytes (chain : list BlockVersion) (vi : nat) : bytes :=
  default [] (resolve_data_with chain vi bv_data).

Definition version_image (chain : list BlockVersion) (vi : nat) (v : BlockVersion) : bytes :=
  le_bytes 8 (bv_commit_seq v) ++ le_bytes 8 (bv_writer v) ++
  (if is_identical (bv_data v) then le_bytes 4 u32_max
   else le_bytes 4 (zlen (version_bytes chain vi)) ++ version_bytes chain vi).

Fixpoint versions_image (chain : list BlockVersion) (vi : nat) (rest : list BlockVersion) : bytes :=
  match rest with
  | [] => []
  | v :: rest' => version_image chain vi v ++ versions_image chain (S vi) rest'
  end.

Definition block_image (bc : Z * list BlockVersion) : bytes :=
  le_bytes 8 bc.1 ++ le_bytes 4 (zlen bc.2) ++ versions_image bc.2 0 bc.2.

Definition checkpoint_body (next_txn next_commit : Z) (blocks : list (Z * list BlockVersion)) : bytes :=
  checkpoint_header next_txn next_commit (zlen blocks) ++ concat (block_image <$> blocks).

Definition checkpoint_image (next_txn next_commit : Z) (blocks : list (Z * list BlockVersion)) : bytes :=
  let body := checkpoint_body next_txn next_commit blocks in body ++ le_bytes 4 (crc32c body).

(** The conditions the writer checks. *)
Definition version_identity (block next_txn next_commit : Z) (prev : option Z) (v : BlockVersion) : Prop :=
  bv_block v = block ∧ bv_commit_seq v ≠ 0 ∧ bv_commit_seq v < next_commit ∧
  bv_writer v < next_txn ∧
  match prev with
  | Some seq => seq < bv_commit_seq v
  | None => is_identical (bv_data v) = false
  end.

Fixpoint versions_valid (block next_txn next_commit : Z) (chain : list BlockVersion) (vi : nat)
    (prev : option Z) (rest : list BlockVersion) : Prop :=
  match rest with
  | [] => True
  | v :: rest' =>
      version_identity block next_txn next_commit prev v ∧
      (is_identical (bv_data v) = false →
       ∃ b, resolve_data_with chain vi bv_data = Some b ∧ zlen b < u32_max) ∧
      versions_valid block next_txn next_commit chain (S vi) (Some (bv_commit_seq v)) rest'
  end.

Fixpoint blocks_valid (next_txn next_commit : Z) (prev : option Z)
    (blocks : list (Z * list BlockVersion)) : Prop :=
  match blocks with
  | [] => True
  | (block, chain) :: blocks' =>
      match prev with Some p => p < block | None => True end ∧
      chain ≠ [] ∧ zlen chain <= u32_max ∧
      versions_valid block next_txn next_commit chain 0 None chain ∧
      blocks_valid next_txn next_commit (Some block) blocks'
  end.

Definition checkpoint_valid (next_txn next_commit : Z) (blocks : list (Z * list BlockVersion)) : Prop :=
  next_txn ≠ 0 ∧ next_commit ≠ 0 ∧ zlen blocks <= u32_max ∧
  blocks_valid next_txn next_commit None blocks.

Lemma validate_version_spec {W} block v prev next_txn next_commit (w : W) :
  (validate_checkpoint_version block v prev next_txn next_commit w = Ret (w, Ok ()) ∧
   version_identity block next_txn next_commit prev v) ∨
  (∃ why, validate_checkpoint_version block v prev next_txn next_commit w = Ret (w, Err (Refused block why)) ∧
   ¬ version_identity block next_txn next_commit prev v).
Proof.
  unfold validate_checkpoint_version, version_identity. case_if as Hg.
  - right. eexists. split; [done|]. intros (Hb&Hz&Hc&Ht&Hp).
    rewrite Hb, Z.eqb_refl in Hg. rewrite (proj2 (Z.eqb_neq _ _)), (proj2 (Z.leb_gt _ _)),
      (proj2 (Z.leb_gt next_txn _)) in Hg by done. simpl in Hg.
    destruct prev; [|done]. by rewrite (proj2 (Z.leb_gt _ _)) in Hg.
  - rewrite !orb_false_iff, negb_false_iff, Z.eqb_eq, Z.eqb_neq, !Z.leb_gt in Hg.
    destruct Hg as ((((?&?)&?)&?)&Hp). destruct prev as [seq|].
    + left. rewrite Z.leb_gt in Hp. done.
    + destruct (is_identical (bv_data v)) eqn:Hi; [right|left]; [|done].
      eexists. split; [done|]. by intros (_&_&_&_&?).
Qed.

(** *** The writer emits the image *)

(** [m], started with the CRC [crc], emits [d] when [V] holds and fails
    otherwise; it can also fail because a write fails. *)
Definition emits (crc : Z) (m : replayM Sink Z) (V : Prop) (d : bytes) : Prop :=
  ∀ k, match m k with
       | Ret (k', Ok crc') => V ∧ sk_out k' = sk_out k ++ d ∧ crc' = crc32c_append crc d ∧
                              (false ∈ sk_script k' → false ∈ sk_script k)
       | Ret (_, Err e) => ¬ V ∨ (e = External write_failed ∧ false ∈ sk_script k)
       | Panic => False
       end.

Lemma emits_ret crc : emits crc (mret crc) True [].
Proof. intros k. by rewrite app_nil_r, crc32c_append_nil. Qed.

Lemma emits_bind crc m V1 d1 f V2 d2 :
  emits crc m V1 d1 →
  (V1 → emits (crc32c_append crc d1) (f (crc32c_append crc d1)) V2 d2) →
  emits crc (m ≫= f) (V1 ∧ V2) (d1 ++ d2).
Proof.
  intros Hm Hf k. specialize (Hm k). unfold mbind, replayM_bind.
  destruct (m k) as [[k1 [c1|e]]|]; [|naive_solver|done]. destruct Hm as (HV&Ho&->&Hs).
  specialize (Hf HV k1). destruct (f _ k1) as [[k2 [c2|e]]|]; [|naive_solver|done].
  destruct Hf as (HV2&Ho2&->&Hs2). rewrite Ho2, Ho, app_assoc, crc32c_append_app. split_and!; auto.
Qed.

Lemma emits_iff crc m V V' d : (V ↔ V') → emits crc m V d → emits crc m V' d.
Proof.
  intros HV Hm k. specialize (Hm k). destruct (m k) as [[k1 [c1|e]]|]; naive_solver.
Qed.

Lemma hash_chunks_emits crc cs : emits crc (hash_chunks crc cs) True (concat cs).
Proof.
  revert crc. induction cs as [|c cs IH]; intros crc k; cbn [hash_chunks concat].
  { by rewrite app_nil_r, crc32c_append_nil. }
  unfold mbind, replayM_bind, sink_write. destruct (sk_script k) as [|[] script] eqn:Hk.
  3:{ right. split; [done|]. left. }
  all: match goal with |- context [hash_chunks _ _ ?k1] => specialize (IH (crc32c_append crc c) k1) end.
  all: destruct (hash_chunks _ _ _) as [[k2 [c2|e]]|]; [| |done].
  all: simpl in IH; rewrite ?crc32c_append_app, ?app_assoc; try done.
  - destruct IH as (_&->&->&Hs). split_and!; [done|done|done|]. intros Hf. right. auto.
  - destruct IH as [?|[? ?]]; [naive_solver|]. right. split; [done|]. by right.
Qed.

Lemma hasher_emits crc data : emits crc (hasher_write_all crc data) True data.
Proof.
  unfold hasher_write_all. pose proof (hash_chunks_emits crc (chunks CHECKPOINT_IO_CHUNK_BYTES data)) as Hc.
  by rewrite chunks_concat in Hc.
Qed.

Lemma emits_validate crc block v prev next_txn next_commit m V d :
  (version_identity block next_txn next_commit prev v → emits crc m V d) →
  emits crc (_ ← validate_checkpoint_version block v prev next_txn next_commit; m)
    (version_identity block next_txn next_commit prev v ∧ V) d.
Proof.
  intros Hm k. unfold mbind, replayM_bind.
  destruct (validate_version_spec block v prev next_txn next_commit k) as [[-> Hv]|(why&->&Hv)];
    [|left; naive_solver].
  specialize (Hm Hv k). destruct (m k) as [[k1 [c1|e]]|]; naive_solver.
Qed.

Lemma emits_refused crc block why V d : ¬ V → emits crc (throw (Refused block why)) V d.
Proof. intros HV k. by left. Qed.

Lemma emits_append crc data f V d :
  emits (crc32c_append crc data) (f (crc32c_append crc data)) V d →
  emits crc (hasher_write_all crc data ≫= f) V (data ++ d).
Proof.
  intros Hf. eapply emits_iff; [|by eapply emits_bind; [apply hasher_emits|]]. naive_solver.
Qed.

Lemma write_versions_emits crc block chain nt nc vi prev rest :
  emits crc (write_versions crc block chain nt nc vi prev rest)
    (versions_valid block nt nc chain vi prev rest) (versions_image chain vi rest).
Proof.
  revert crc vi prev. induction rest as [|v rest IH]; intros crc vi prev;
    cbn [write_versions versions_valid versions_image]; [apply emits_ret|].
  apply emits_validate. intros Hv. unfold version_image. rewrite <-!app_assoc.
  do 2 apply emits_append.
  destruct (is_identical (bv_data v)) eqn:Hi.
  { apply emits_append. eapply emits_iff; [|apply IH]. naive_solver. }
  unfold version_bytes. destruct (resolve_data_with chain vi bv_data) as [b|].
  2:{ apply emits_refused. naive_solver. }
  cbn [default from_option id]. case_if; [apply emits_refused; naive_solver lia|].
  case_if; [apply emits_refused; naive_solver lia|].
  rewrite <-!app_assoc. do 2 apply emits_append. eapply emits_iff; [|apply IH].
  split; [|naive_solver]. intros ?. split; [|done]. intros _. exists b. split; [done|lia].
Qed.

Lemma write_blocks_emits crc nt nc prev blocks :
  emits crc (write_blocks crc nt nc prev blocks) (blocks_valid nt nc prev blocks)
    (concat (block_image <$> blocks)).
Proof.
  revert crc prev. induction blocks as [|[block chain] blocks IH]; intros crc prev;
    cbn [write_blocks blocks_valid fmap list_fmap concat]; [apply emits_ret|].
  destruct prev as [p|]; [case_if; [apply emits_refused; naive_solver lia|]|].
  all: case_if; [apply emits_refused; destruct chain; naive_solver|].
  all: unfold block_image at 1; cbn [fst snd]; rewrite <-!app_assoc; apply emits_append.
  all: case_if; [apply emits_refused; naive_solver lia|]; apply emits_append.
  all: eapply emits_iff; [|eapply emits_bind; [apply write_versions_emits|intros _; apply IH]].
  all: destruct chain; naive_solver.
Qed.

Lemma write_checkpoint_spec nt nc blocks k :
  match write_checkpoint nt nc blocks k with
  | Ret (k', Ok _) => checkpoint_valid nt nc blocks ∧ sk_out k' = sk_out k ++ checkpoint_image nt nc blocks
  | Ret (_, Err e) =>
      ¬ checkpoint_valid nt nc blocks ∨ (e = External write_failed ∧ false ∈ sk_script k)
  | Panic => False
  end.
Proof.
  unfold write_checkpoint, checkpoint_valid, validate_checkpoint_counters.
  destruct (Z.eqb_spec nt 0) as [->|Hnt]; [left; naive_solver|].
  destruct (Z.eqb_spec nc 0) as [->|Hnc]; [left; naive_solver|]. simpl.
  unfold mbind at 1, replayM_bind at 1. cbn [mret replayM_ret].
  case_if; [left; intros (_&_&?&_); lia|].
  assert (emits 0 (crc ← hasher_write_all 0 (checkpoint_header nt nc (zlen blocks));
                   write_blocks crc nt nc None blocks) (blocks_valid nt nc None blocks)
            (checkpoint_body nt nc blocks)) as He by (apply emits_append, write_blocks_emits).
  specialize (He k). unfold mbind, replayM_bind in *.
  destruct (hasher_write_all _ _ k) as [[k1 [c1|e]]|]; [|naive_solver|done].
  destruct (write_blocks _ _ _ _ _ k1) as [[k2 [c2|e]]|]; [|naive_solver|done].
  destruct He as (HV&Ho&->&Hs). rewrite crc32c_append_start. unfold sink_write.
  destruct (sk_script k2) as [|[] script]; simpl.
  3:{ right. split; [done|]. apply Hs. left. }
  all: rewrite Ho, <-app_assoc; naive_solver lia.
Qed.
End image.

(** ** Parsing what was written *)

(** On a source that holds [d] first, [m] takes exactly [d] and returns [a],
    unless the source, not being calm, gets in the way. *)
Definition parses {A} (d : bytes) (m : replayM Source A) (a : A) : Prop :=
  ∀ src rest, src_bytes src = d ++ rest →
  match m src with
  | Ret (src', Ok a') => a' = a ∧ src_bytes src' = rest ∧ (calm src → calm src')
  | Ret (_, Err e) => io_error e ∧ ¬ calm src
  | Panic => False
  end.

Lemma parses_ret {A} (a : A) : parses [] (mret a) a.
Proof. intros src rest Hs. done. Qed.

Lemma parses_bind {A B} d1 d2 (m : replayM Source A) (f : A → replayM Source B) a b :
  parses d1 m a → parses d2 (f a) b → parses (d1 ++ d2) (m ≫= f) b.
Proof.
  intros Hm Hf src rest Hs. rewrite <-app_assoc in Hs. specialize (Hm src _ Hs).
  unfold mbind, replayM_bind. destruct (m src) as [[s1 [a1|e]]|]; [|done|done].
  destruct Hm as (->&Hs1&Hc). specialize (Hf s1 _ Hs1).
  destruct (f a s1) as [[s2 [b1|e]]|]; naive_solver.
Qed.

Lemma parses_checkpoint {B} d (f : () → replayM Source B) b :
  parses d (f ()) b → parses d (checkpoint ≫= f) b.
Proof.
  intros Hf src rest Hs. unfold mbind, replayM_bind.
  destruct (checkpoint_cases src) as [[Hc [s1 ->]]|(s1&->&Hb&_&Hc)]; [done|].
  rewrite <-Hb in Hs. specialize (Hf s1 rest Hs). destruct (f () s1) as [[? [?|?]]|]; naive_solver.
Qed.

(** What a read took is a front of what was wanted. *)
Lemma app_front (d rest c s : bytes) : d ++ rest = c ++ s → zlen c <= zlen d →
  ∃ d2, d = c ++ d2 ∧ s = d2 ++ rest.
Proof.
  intros Heq Hcd. unfold zlen in Hcd. exists (drop (length c) d).
  pose proof (f_equal (take (length c)) Heq) as Ht. pose proof (f_equal (drop (length c)) Heq) as Hdr.
  rewrite take_app_length, take_app_le in Ht by lia. rewrite drop_app_length, drop_app_le in Hdr by lia.
  split; [|done]. rewrite <-(take_drop (length c) d) at 1. by rewrite Ht.
Qed.

Lemma read_checkpoint_loop_parses fuel d got src rest :
  src_bytes src = d ++ rest → (length d + length (src_script src) <= fuel)%nat →
  match read_checkpoint_loop fuel (zlen d) got src with
  | Ret (src', Ok b) => b = got ++ d ∧ src_bytes src' = rest ∧ (calm src → calm src')
  | Ret (_, Err e) => io_error e ∧ ¬ calm src
  | Panic => False
  end.
Proof.
  revert d got src. induction fuel as [|fuel IH]; intros d got src Hs Hf; cbn [read_checkpoint_loop].
  all: destruct d as [|x d']; [rewrite zlen_nil; simpl|].
  1,3: rewrite app_nil_r; by apply (parses_checkpoint [] (λ _, mret got) got (parses_ret got)).
  { simpl in Hf. lia. }
  set (d := x :: d') in *. assert (1 <= zlen d) by (unfold d; rewrite zlen_cons; pose proof (zlen_nonneg d'); lia).
  rewrite (proj2 (Z.leb_gt _ _)) by lia. unfold mbind, replayM_bind.
  destruct (checkpoint_cases src) as [[Hc [s1 ->]]|(s1&->&Hb1&Hl1&Hc1)]; [done|].
  destruct (read_call_cases (Z.min (zlen d) CHECKPOINT_IO_CHUNK_BYTES) s1
              ltac:(unfold CHECKPOINT_IO_CHUNK_BYTES; lia))
    as [(Hc&s2&code&->)|(s2&Hc2&[(->&Hb2&Hl2)|(b&->&Hb2&Hlen&Hpos&Hl2)])]; [naive_solver| |].
  - specialize (IH d got s2 ltac:(by rewrite Hb2, Hb1) ltac:(rewrite <-Hl1 in Hf; lia)).
    destruct (read_checkpoint_loop fuel _ got s2) as [[s3 [r|e]]|]; naive_solver.
  - destruct b as [|y b].
    { split; [done|]. intros Hc. rewrite Hb1, Hs, zlen_app in Hpos. pose proof (zlen_nonneg rest).
      specialize (Hpos (Hc1 Hc) ltac:(lia)). by rewrite zlen_nil in Hpos. }
    set (c := y :: b) in *. rewrite Hb1, Hs in Hb2.
    destruct (app_front d rest c (src_bytes s2) Hb2 ltac:(lia)) as (d2&Hd&Hs2).
    destruct (checkpoint_cases s2) as [[Hc [s3 ->]]|(s3&->&Hb3&Hl3&Hc3)]; [naive_solver|].
    assert (zlen d - zlen c = zlen d2) as -> by (rewrite Hd, zlen_app; lia).
    specialize (IH d2 (got ++ c) s3 ltac:(by rewrite Hb3)).
    rewrite Hd, length_app, <-Hl1 in Hf. unfold c in Hf at 1. simpl in Hf.
    specialize (IH ltac:(rewrite Hl3; lia)). rewrite Hd, app_assoc.
    destruct (read_checkpoint_loop fuel _ _ s3) as [[s4 [r|e]]|]; naive_solver.
Qed.

Lemma read_checkpoint_exact_parses d : parses d (read_checkpoint_exact (zlen d)) d.
Proof.
  intros src rest Hs. unfold read_checkpoint_exact.
  apply (read_checkpoint_loop_parses _ d [] src rest Hs). unfold zlen. lia.
Qed.

(** *** Comparing payloads *)

Lemma chunks_loop_length fuel n l l' : length l = length l' →
  length (chunks_loop fuel n l) = length (chunks_loop fuel n l').
Proof.
  revert l l'. induction fuel as [|fuel IH]; intros l l' Hl; [done|].
  destruct l, l'; simpl in *; try done. f_equal. apply IH. rewrite !length_drop. simpl. lia.
Qed.

Lemma same_chunks_parses cs ds : length cs = length ds →
  parses [] (same_chunks cs ds) (bool_decide (cs = ds)).
Proof.
  revert ds. induction cs as [|c cs IH]; intros [|d ds] Hl; [|done|done|]; cbn [same_chunks].
  { apply parses_checkpoint, parses_ret. }
  apply parses_checkpoint. injection Hl as Hl. destruct (decide (c = d)) as [->|Hne].
  - rewrite bool_decide_true by done.
    replace (bool_decide (d :: cs = d :: ds)) with (bool_decide (cs = ds)); [by apply IH|].
    apply bool_decide_ext. naive_solver.
  - rewrite !bool_decide_false by naive_solver. apply parses_ret.
Qed.

Lemma same_payload_parses l r : parses [] (same_payload l r) (bool_decide (l = r)).
Proof.
  unfold same_payload. apply parses_checkpoint. case_if.
  { rewrite bool_decide_false by naive_solver. apply parses_ret. }
  assert (chunks CHECKPOINT_IO_CHUNK_BYTES l = chunks CHECKPOINT_IO_CHUNK_BYTES r ↔ l = r) as Hiff.
  { split; [|by intros ->]. intros Hc%(f_equal (@concat Z)). by rewrite !chunks_concat in Hc by done. }
  erewrite bool_decide_ext; [|symmetry; exact Hiff]. apply same_chunks_parses.
  unfold chunks. apply zlen_inj in Heqb as Hl. rewrite Hl. by apply chunks_loop_length.
Qed.

(** *** The decoder on an image *)

Section decoder.
Context `{Crc32cAppend} `{VersionCodec}.

#[local] Opaque le_bytes.

(** The decoder after [b] was read. *)
Definition dec_adv (d : Decoder) (b : bytes) : Decoder :=
  mkDecoder (d_remaining d - zlen b) (crc32c_append (d_crc d) b).

Lemma dec_adv_nil d : dec_adv d [] = d.
Proof. unfold dec_adv. rewrite zlen_nil, Z.sub_0_r, crc32c_append_nil. by destruct d. Qed.

Lemma dec_adv_app d a b : dec_adv (dec_adv d a) b = dec_adv d (a ++ b).
Proof. unfold dec_adv. simpl. rewrite zlen_app, crc32c_append_app. f_equal. lia. Qed.

Lemma read_into_parses d n b : zlen b = n → n <= d_remaining d →
  parses b (read_into d n) (dec_adv d b, b).
Proof.
  intros <- Hr. unfold read_into. apply parses_checkpoint. case_if; [lia|].
  rewrite <-(app_nil_r b) at 1. eapply parses_bind; [apply read_checkpoint_exact_parses|apply parses_ret].
Qed.

Lemma decoder_read_parses d (n : nat) x : 0 <= x < 256 ^ Z.of_nat n → Z.of_nat n <= d_remaining d →
  parses (le_bytes n x) (decoder_read d (Z.of_nat n)) (dec_adv d (le_bytes n x), x).
Proof.
  intros Hx Hr. unfold decoder_read. rewrite <-(app_nil_r (le_bytes n x)) at 1.
  eapply parses_bind; [apply read_into_parses; [apply zlen_le_bytes|done]|].
  cbn. rewrite le_value_bytes by done. apply parses_ret.
Qed.

Lemma payload_loop_parses fuel d data b : zlen b <= d_remaining d → (length b <= fuel)%nat →
  parses b (payload_loop fuel d (zlen data + zlen b) data) (dec_adv d b, data ++ b).
Proof.
  revert d data b. induction fuel as [|fuel IH]; intros d data b Hr Hf; cbn [payload_loop].
  - destruct b; [|simpl in Hf; lia]. rewrite zlen_nil, Z.add_0_r, Z.leb_refl, dec_adv_nil, app_nil_r.
    apply parses_ret.
  - case_if.
    { destruct b; [|rewrite zlen_cons in *; pose proof (zlen_nonneg b); lia].
      rewrite dec_adv_nil, app_nil_r. apply parses_ret. }
    apply parses_checkpoint. replace (zlen data + zlen b - zlen data) with (zlen b) in * by lia.
    set (n := Z.min (zlen b) CHECKPOINT_IO_CHUNK_BYTES).
    assert (1 <= n <= zlen b) as Hn by (unfold n, CHECKPOINT_IO_CHUNK_BYTES; lia).
    rewrite <-(take_drop (Z.to_nat n) b) at 1.
    assert (zlen (take (Z.to_nat n) b) = n) as Hz by (unfold zlen in *; rewrite length_take; lia).
    eapply parses_bind; [apply read_into_parses; [done|lia]|]. cbn beta iota.
    replace (zlen data + zlen b) with (zlen (data ++ take (Z.to_nat n) b) + zlen (drop (Z.to_nat n) b)).
    2:{ rewrite zlen_app. unfold zlen in *. rewrite length_take, length_drop. lia. }
    pose proof (IH (dec_adv d (take (Z.to_nat n) b)) (data ++ take (Z.to_nat n) b)
                  (drop (Z.to_nat n) b)) as Hi.
    rewrite dec_adv_app, <-app_assoc, take_drop in Hi. apply Hi.
    + simpl. unfold zlen in *. rewrite length_drop. lia.
    + rewrite length_drop. unfold zlen in *. lia.
Qed.

Lemma decoder_payload_parses d block b reserved : 0 <= reserved → zlen b + reserved <= d_remaining d →
  parses b (decoder_payload d block (zlen b) reserved) (dec_adv d b, b).
Proof.
  intros Hr Hb. unfold decoder_payload. apply parses_checkpoint. pose proof (zlen_nonneg b).
  rewrite (proj2 (Z.ltb_ge _ _)), (proj2 (Z.ltb_ge _ _)) by lia. cbn [orb].
  apply (payload_loop_parses (Z.to_nat (zlen b)) d []); [lia|unfold zlen; lia].
Qed.

(** *** Reading a chain back *)

(** The representation the reader chooses for a version. *)
Definition reread_data (dedup : bool) (acc chain : list BlockVersion) (vi : nat) (v : BlockVersion) :
    VersionData :=
  if is_identical (bv_data v) then Identical
  else if dedup && chain_identical_to_latest acc (version_bytes chain vi) then Identical
  else Full (version_bytes chain vi).

Definition reread_version (dedup : bool) (acc chain : list BlockVersion) (vi : nat) (v : BlockVersion) :
    BlockVersion :=
  mkVersion (bv_block v) (bv_commit_seq v) (bv_writer v) (reread_data dedup acc chain vi v).

Fixpoint reread_versions (dedup : bool) (chain : list BlockVersion) (vi : nat)
    (acc rest : list BlockVersion) : list BlockVersion :=
  match rest with
  | [] => acc
  | v :: rest' =>
      reread_versions dedup chain (S vi) (acc ++ [reread_version dedup acc chain vi v]) rest'
  end.

Definition reread (dedup : bool) (chain : list BlockVersion) : list BlockVersion :=
  reread_versions dedup chain 0 [] chain.

(** The index of the last concrete version resolves like the last version. *)
Definition concrete_ok (acc : list BlockVersion) (last_concrete : option nat) : Prop :=
  match last_concrete with
  | None => acc = []
  | Some i => acc ≠ [] ∧ resolve_walk acc bv_data i = resolve_walk acc bv_data (pred (length acc)) ∧
              is_Some (resolve_walk acc bv_data i) ∧ (i < length acc)%nat
  end.

Lemma resolve_walk_identical (acc : list BlockVersion) v : bv_data v = Identical → acc ≠ [] →
  resolve_walk (acc ++ [v]) bv_data (length acc) = resolve_walk acc bv_data (pred (length acc)).
Proof.
  intros Hv Hne. destruct acc as [|x acc] using rev_ind; [done|]. clear IHacc.
  rewrite length_app. simpl. rewrite Nat.add_1_r. cbn [resolve_walk Nat.pred].
  rewrite lookup_app_r by (rewrite length_app; simpl; lia). rewrite length_app. simpl.
  replace (S (length acc) - (length acc + 1))%nat with 0%nat by lia. simpl. rewrite Hv.
  apply resolve_walk_app. rewrite length_app. simpl. lia.
Qed.

Lemma resolve_walk_full (acc : list BlockVersion) v b : bv_data v = Full b →
  resolve_walk (acc ++ [v]) bv_data (length acc) = Some b.
Proof.
  intros Hv. destruct (length acc) as [|n] eqn:Hl; cbn [resolve_walk].
  - destruct acc; [|done]. simpl. by rewrite Hv.
  - rewrite <-Hl, list_lookup_middle by done. by rewrite Hv.
Qed.

Lemma concrete_ok_snoc acc last_concrete v :
  concrete_ok acc last_concrete →
  (bv_data v = Identical ∧ acc ≠ []) ∨ (∃ b, bv_data v = Full b) →
  concrete_ok (acc ++ [v])
    (if negb (is_identical (bv_data v)) then Some (length acc) else last_concrete).
Proof.
  intros Hc [[Hv Hne]|[b Hv]]; rewrite Hv; cbn.
  - destruct last_concrete as [i|]; [|done]. destruct Hc as (_&Heq&Hs&Hi).
    unfold concrete_ok. rewrite length_app. simpl. rewrite Nat.add_1_r. cbn [Nat.pred].
    rewrite resolve_walk_identical, resolve_walk_app by done.
    split_and!; [by destruct acc|done|done|lia].
  - unfold concrete_ok. rewrite length_app. simpl. rewrite Nat.add_1_r. cbn [Nat.pred].
    rewrite (resolve_walk_full acc v b) by done. split_and!; [by destruct acc|done|done|lia].
Qed.

Lemma repeats_last_parses dedup block acc last_concrete b : concrete_ok acc last_concrete →
  parses [] (repeats_last dedup block acc last_concrete b) (dedup && chain_identical_to_latest acc b).
Proof.
  intros Hc. unfold repeats_last, chain_identical_to_latest. destruct dedup; [|apply parses_ret].
  destruct last_concrete as [i|]; simpl in Hc.
  - destruct Hc as (Hne&Heq&[d Hd]&Hi). rewrite resolve_data_walk, Hd.
    destruct (length acc) as [|n] eqn:Hl; [by destruct acc|]. cbn [nat_checked_pred].
    rewrite resolve_data_walk. cbn [Nat.pred] in Heq. rewrite <-Heq, Hd. apply same_payload_parses.
  - subst acc. apply parses_ret.
Qed.

Definition version_typed (v : BlockVersion) : Prop :=
  0 <= bv_commit_seq v <= u64_max ∧ 0 <= bv_writer v <= u64_max.

Lemma zlen_version_image chain vi v : 20 <= zlen (version_image chain vi v).
Proof.
  unfold version_image. destruct (is_identical _); rewrite !zlen_app, !zlen_le_bytes; [lia|].
  pose proof (zlen_nonneg (version_bytes chain vi)). lia.
Qed.

Lemma zlen_versions_image chain vi rest : 20 * zlen rest <= zlen (versions_image chain vi rest).
Proof.
  revert vi. induction rest as [|v rest IH]; intros vi; simpl; [done|].
  rewrite zlen_app, zlen_cons. pose proof (zlen_version_image chain vi v). specialize (IH (S vi)). lia.
Qed.

Lemma parses_validate {A} block v prev nt nc d (m : replayM Source A) a :
  version_identity block nt nc prev v → parses d m a →
  parses d (_ ← validate_checkpoint_version block v prev nt nc; m) a.
Proof.
  intros Hv Hm src rest Hs. unfold mbind, replayM_bind.
  destruct (validate_version_spec block v prev nt nc src) as [[-> _]|(why&_&?)]; [|done]. by apply Hm.
Qed.

(** Reading one version back. *)
Lemma decode_payload_parses dedup block chain vi v d acc last_concrete seq writer reserved :
  is_identical (bv_data v) = false → concrete_ok acc last_concrete → 0 <= reserved →
  zlen (version_bytes chain vi) + reserved <= d_remaining d →
  parses (version_bytes chain vi)
    ('(d, data) ← decoder_payload d block (zlen (version_bytes chain vi)) reserved;
     identical ← repeats_last dedup block acc last_concrete data;
     mret (d, mkVersion block seq writer (if identical : bool then Identical else Full data)))
    (dec_adv d (version_bytes chain vi), mkVersion block seq writer (reread_data dedup acc chain vi v)).
Proof.
  intros Hi Hc Hr Hd. rewrite <-(app_nil_r (version_bytes chain vi)) at 1.
  eapply parses_bind; [by apply decoder_payload_parses|]. cbn beta iota.
  rewrite <-(app_nil_r []). eapply parses_bind; [by apply repeats_last_parses|].
  unfold reread_data. rewrite Hi. apply parses_ret.
Qed.

Lemma reread_data_ok dedup acc chain vi v : (is_identical (bv_data v) = true → acc ≠ []) →
  (reread_data dedup acc chain vi v = Identical ∧ acc ≠ []) ∨
  (∃ b, reread_data dedup acc chain vi v = Full b).
Proof.
  intros Hi. unfold reread_data. destruct (is_identical (bv_data v)); [left; auto|].
  destruct dedup; simpl; [|right; eauto].
  destruct (chain_identical_to_latest acc _) eqn:Hc; [left|right; eauto]. split; [done|].
  by intros ->.
Qed.

Lemma decode_version_parses left block nt nc future dedup chain vi v prev d acc last_concrete :
  version_identity block nt nc prev v →
  (is_identical (bv_data v) = false →
   ∃ b, resolve_data_with chain vi bv_data = Some b ∧ zlen b < u32_max) →
  version_typed v → 0 <= future → 0 <= left → concrete_ok acc last_concrete →
  zlen (version_image chain vi v) + 20 * left + future <= d_remaining d →
  parses (version_image chain vi v)
    (decode_version left block nt nc future dedup d acc last_concrete prev)
    (dec_adv d (version_image chain vi v), reread_version dedup acc chain vi v).
Proof.
  intros (Hb&Hid) Hdata [Hseq Hwr] Hfut Hleft Hc Hd. unfold version_image, decode_version in *.
  unfold reread_version. rewrite Hb.
  rewrite !zlen_app, !zlen_le_bytes in Hd.
  set (tail := if is_identical (bv_data v) then le_bytes 4 u32_max
               else le_bytes 4 (zlen (version_bytes chain vi)) ++ version_bytes chain vi) in *.
  assert (4 <= zlen tail) by (unfold tail; case_if; rewrite ?zlen_app, !zlen_le_bytes;
    pose proof (zlen_nonneg (version_bytes chain vi)); lia).
  eapply parses_bind; [apply (decoder_read_parses d 8); [unfold u64_max in *|]; lia|]. cbn beta iota.
  eapply parses_bind; [apply (decoder_read_parses _ 8); [unfold u64_max in *|
    simpl; rewrite zlen_le_bytes]; lia|]. cbn beta iota.
  rewrite <-!dec_adv_app. set (d2 := dec_adv (dec_adv d _) _).
  assert (d_remaining d2 = d_remaining d - 16) as Hd2 by (unfold d2; simpl; rewrite !zlen_le_bytes; lia).
  clearbody d2. unfold tail in *. clear tail. unfold reread_data.
  destruct (is_identical (bv_data v)) eqn:Hi.
  - rewrite <-(app_nil_r (le_bytes 4 u32_max)) at 1. eapply parses_bind;
      [apply (decoder_read_parses _ 4); [unfold u32_max|]; lia|]. cbn beta iota.
    rewrite Z.eqb_refl. cbn [negb]. apply parses_validate; [done|]. apply parses_ret.
  - destruct (Hdata eq_refl) as (b&Hres&Hb32).
    assert (version_bytes chain vi = b) as Hvb by (unfold version_bytes; by rewrite Hres).
    pose proof (zlen_nonneg b). rewrite Hvb in *. rewrite !zlen_app, !zlen_le_bytes in Hd.
    eapply parses_bind; [apply (decoder_read_parses _ 4); [unfold u32_max in *|]; lia|]. cbn beta iota.
    rewrite (proj2 (Z.eqb_neq _ _)) by lia. cbn [negb]. apply parses_validate; [done|].
    rewrite <-dec_adv_app, <-Hvb at 1. rewrite <-Hvb.
    pose proof (decode_payload_parses dedup block chain vi v
      (dec_adv d2 (le_bytes 4 (zlen (version_bytes chain vi)))) acc last_concrete (bv_commit_seq v)
      (bv_writer v) (future + left * VERSION_HEADER_BYTES) Hi Hc) as Hp.
    unfold reread_data in Hp. rewrite Hi in Hp. apply Hp; unfold VERSION_HEADER_BYTES in *;
      [lia|simpl; rewrite zlen_le_bytes, Hvb; lia].
Qed.

Lemma decode_versions_parses block nt nc future dedup chain rest vi prev d acc last_concrete :
  versions_valid block nt nc chain vi prev rest → Forall version_typed rest → 0 <= future →
  (prev ≠ None → acc ≠ []) → concrete_ok acc last_concrete →
  zlen (versions_image chain vi rest) + future <= d_remaining d →
  parses (versions_image chain vi rest)
    (decode_versions (length rest) block nt nc future dedup d acc last_concrete prev)
    (dec_adv d (versions_image chain vi rest), reread_versions dedup chain vi acc rest).
Proof.
  intros Hv Ht Hfut. revert vi prev d acc last_concrete Hv.
  induction Ht as [|v rest Hvt Ht IH]; intros vi prev d acc last_concrete Hv Hcons Hc Hd;
    cbn [versions_image decode_versions length reread_versions].
  { rewrite dec_adv_nil. apply parses_ret. }
  destruct Hv as (Hid&Hdata&Hrest). cbn [versions_image] in Hd. rewrite zlen_app in Hd.
  pose proof (zlen_versions_image chain (S vi) rest) as Himg.
  eapply parses_bind; [apply (decode_version_parses _ block nt nc future dedup chain vi v); try done;
    unfold zlen in *; lia|]. cbn beta iota. rewrite <-dec_adv_app.
  apply IH; [done|by destruct acc| |simpl; lia].
  apply concrete_ok_snoc; [done|]. apply reread_data_ok.
  intros Hi. destruct prev; [by apply Hcons|]. destruct Hid as (_&_&_&_&Hid). congruence.
Qed.

Definition block_typed (bc : Z * list BlockVersion) : Prop :=
  0 <= bc.1 <= u64_max ∧ Forall version_typed bc.2.

Lemma decode_chain_parses block nt nc future dedup chain d :
  chain ≠ [] → zlen chain <= u32_max → versions_valid block nt nc chain 0 None chain →
  Forall version_typed chain → 0 <= future →
  4 + zlen (versions_image chain 0 chain) + future <= d_remaining d →
  let image := le_bytes 4 (zlen chain) ++ versions_image chain 0 chain in
  parses image (decode_chain d block nt nc future dedup) (dec_adv d image, reread dedup chain).
Proof.
  intros Hne Hl Hv Ht Hfut Hd. cbv zeta. unfold decode_chain.
  assert (1 <= zlen chain) by (destruct chain; [done|]; rewrite zlen_cons; pose proof (zlen_nonneg chain); lia).
  pose proof (zlen_versions_image chain 0 chain). rewrite <-dec_adv_app.
  eapply parses_bind; [apply (decoder_read_parses _ 4); [unfold u32_max in *|]; lia|]. cbn beta iota.
  rewrite (proj2 (Z.eqb_neq _ _)) by lia.
  set (d2 := dec_adv d (le_bytes 4 (zlen chain))).
  assert (d_remaining d2 = d_remaining d - 4) as Hd2 by (unfold d2; simpl; rewrite zlen_le_bytes; lia).
  rewrite (proj2 (Z.ltb_ge (d_remaining d2) future)) by lia. cbn [orb].
  rewrite (proj2 (Z.ltb_ge _ (zlen chain)))
    by (apply Z.div_le_lower_bound; unfold VERSION_HEADER_BYTES; lia).
  replace (Z.to_nat (zlen chain)) with (length chain) by (unfold zlen; lia).
  by apply decode_versions_parses; [..|lia].
Qed.

Lemma zlen_block_image bc : bc.2 ≠ [] → 32 <= zlen (block_image bc).
Proof.
  intros Hne. unfold block_image. rewrite !zlen_app, !zlen_le_bytes.
  pose proof (zlen_versions_image bc.2 0 bc.2). destruct bc as [b [|v c]]; [done|].
  simpl in *. rewrite zlen_cons in *. pose proof (zlen_nonneg c). lia.
Qed.

Lemma zlen_blocks_image nt nc prev blocks : blocks_valid nt nc prev blocks →
  32 * zlen blocks <= zlen (concat (block_image <$> blocks)).
Proof.
  revert prev. induction blocks as [|[b c] blocks IH]; intros prev; [done|].
  intros (_&Hne&_&_&Hrest). apply IH in Hrest. rewrite fmap_cons. cbn [concat].
  rewrite zlen_app, zlen_cons. pose proof (zlen_block_image (b, c) Hne). lia.
Qed.

Definition reread_block (dedup : bool) (bc : Z * list BlockVersion) : Z * list BlockVersion :=
  (bc.1, reread dedup bc.2).

Lemma decode_blocks_parses nt nc dedup blocks prev d acc :
  blocks_valid nt nc prev blocks → Forall block_typed blocks →
  zlen (concat (block_image <$> blocks)) <= d_remaining d →
  parses (concat (block_image <$> blocks))
    (decode_blocks (length blocks) nt nc dedup d prev acc)
    (dec_adv d (concat (block_image <$> blocks)), acc ++ (reread_block dedup <$> blocks)).
Proof.
  intros Hv Ht. revert prev d acc Hv.
  induction Ht as [|[b c] blocks [Hb Hc] Ht IH]; intros prev d acc Hv Hd;
    rewrite ?fmap_cons in *; cbn [concat decode_blocks length] in *.
  { rewrite dec_adv_nil, app_nil_r. apply parses_ret. }
  destruct Hv as (Hprev&Hne&Hl&Hvs&Hrest). pose proof (zlen_blocks_image _ _ _ _ Hrest) as Himg.
  rewrite zlen_app in Hd. simpl in Hb, Hc.
  rewrite <-dec_adv_app. unfold block_image at 1 in Hd. unfold block_image at 1 3. cbn [fst snd] in *.
  rewrite !zlen_app, !zlen_le_bytes in Hd. rewrite <-!app_assoc, <-dec_adv_app.
  pose proof (zlen_nonneg (versions_image c 0 c)). pose proof (zlen_nonneg blocks).
  eapply parses_bind; [apply (decoder_read_parses _ 8); [unfold u64_max in *|]; lia|]. cbn beta iota.
  replace (match prev with Some previous => b <=? previous | None => false end) with false
    by (destruct prev; [symmetry; apply Z.leb_gt; lia|done]).
  rewrite app_assoc. eapply parses_bind.
  { apply decode_chain_parses; [done..|unfold MIN_BLOCK_BYTES, BLOCK_HEADER_BYTES, VERSION_HEADER_BYTES; lia|].
    simpl. rewrite zlen_le_bytes. unfold MIN_BLOCK_BYTES, BLOCK_HEADER_BYTES, VERSION_HEADER_BYTES, zlen in *. lia. }
  cbn beta iota. specialize (IH (Some b) (dec_adv (dec_adv d (le_bytes 8 b))
    (le_bytes 4 (zlen c) ++ versions_image c 0 c)) (acc ++ [(b, reread dedup c)]) Hrest).
  rewrite <-app_assoc in IH. apply IH. simpl. rewrite zlen_app, !zlen_le_bytes. lia.
Qed.

Lemma decoder_finish_parses d : d_remaining d = 0 → 0 <= d_crc d <= u32_max →
  parses (le_bytes 4 (d_crc d)) (decoder_finish d) ().
Proof.
  intros Hr Hc. unfold decoder_finish. apply parses_checkpoint. rewrite Hr. cbn [Z.eqb negb].
  rewrite <-(app_nil_r (le_bytes 4 (d_crc d))).
  eapply parses_bind; [apply (read_checkpoint_exact_parses (le_bytes 4 (d_crc d)))|].
  rewrite le_value_bytes by (unfold u32_max in *; lia). rewrite Z.eqb_refl. apply parses_ret.
Qed.

Lemma decode_fixed_header_parses d nt nc n :
  nt ≠ 0 → nc ≠ 0 → 0 <= nt <= u64_max → 0 <= nc <= u64_max → 0 <= n <= u32_max →
  28 <= d_remaining d →
  parses (checkpoint_header nt nc n) (decode_fixed_header d)
    (dec_adv d (checkpoint_header nt nc n), (nt, nc, n)).
Proof.
  intros Hnt0 Hnc0 Hnt Hnc Hn Hd. unfold decode_fixed_header, checkpoint_header.
  change (zlen [0; 0]) with 2 in *. rewrite <-!dec_adv_app.
  eapply parses_bind; [by apply (decoder_read_parses d 4); [|lia]|]. cbn beta iota.
  rewrite Z.eqb_refl. cbn [negb].
  eapply parses_bind; [apply (decoder_read_parses _ 2); [done|]; simpl; rewrite !zlen_le_bytes; lia|].
  cbn beta iota. rewrite Z.eqb_refl. cbn [negb].
  eapply parses_bind; [apply (read_into_parses _ 2 [0; 0]); [done|]; simpl; rewrite !zlen_le_bytes; lia|].
  cbn beta iota. rewrite bool_decide_true by done. cbn [negb].
  eapply parses_bind; [apply (decoder_read_parses _ 8); [unfold u64_max in *; lia|]; simpl;
    rewrite !zlen_le_bytes; change (zlen [0; 0]) with 2; lia|]. cbn beta iota.
  eapply parses_bind; [apply (decoder_read_parses _ 8); [unfold u64_max in *; lia|]; simpl;
    rewrite !zlen_le_bytes; change (zlen [0; 0]) with 2; lia|]. cbn beta iota.
  unfold validate_checkpoint_counters.
  rewrite (proj2 (Z.eqb_neq nt 0)), (proj2 (Z.eqb_neq nc 0)) by done. cbn [orb].
  rewrite <-(app_nil_l (le_bytes 4 n)) at 1. eapply parses_bind; [apply parses_ret|].
  rewrite <-(app_nil_r (le_bytes 4 n)) at 1.
  eapply parses_bind; [apply (decoder_read_parses _ 4); [unfold u32_max in *; lia|]; simpl;
    rewrite !zlen_le_bytes; change (zlen [0; 0]) with 2; lia|]. cbn beta iota. apply parses_ret.
Qed.

(** A checkpoint image is decoded, completely, into its counters and chains. *)
Lemma decode_checkpoint_parses nt nc blocks dedup :
  checkpoint_valid nt nc blocks → 0 <= nt <= u64_max → 0 <= nc <= u64_max → Forall block_typed blocks →
  parses (checkpoint_image nt nc blocks)
    (decode_checkpoint (zlen (checkpoint_image nt nc blocks)) dedup)
    (mkDecoded nt nc (reread_block dedup <$> blocks)).
Proof.
  intros (Hnt0&Hnc0&Hl&Hv) Hnt Hnc Ht. unfold decode_checkpoint. apply parses_checkpoint.
  pose proof (zlen_blocks_image _ _ _ _ Hv) as Himg. pose proof (zlen_nonneg blocks).
  set (body := checkpoint_body nt nc blocks). set (bi := concat (block_image <$> blocks)) in *.
  assert (zlen (checkpoint_header nt nc (zlen blocks)) = 28) as Hzh
    by (unfold checkpoint_header; by rewrite !zlen_app, !zlen_le_bytes).
  assert (zlen body = 28 + zlen bi) as Hzb
    by (unfold body, checkpoint_body; by rewrite zlen_app, Hzh).
  assert (checkpoint_image nt nc blocks = checkpoint_header nt nc (zlen blocks) ++ bi ++
    le_bytes 4 (crc32c body)) as Him by (unfold checkpoint_image, checkpoint_body; by rewrite <-app_assoc).
  assert (zlen (checkpoint_image nt nc blocks) = zlen body + 4) as Hz
    by (rewrite Him, !zlen_app, zlen_le_bytes; lia).
  unfold CRC_BYTES, CHECKPOINT_HEADER_SIZE.
  rewrite Hz, (proj2 (Z.ltb_ge _ _)), (proj2 (Z.ltb_ge _ 28)) by lia. cbn [orb].
  replace (zlen body + 4 - 4) with (zlen body) by lia. rewrite Him.
  set (d0 := mkDecoder (zlen body) 0).
  eapply parses_bind; [apply decode_fixed_header_parses; [done..|lia|simpl; lia]|]. cbn beta iota.
  rewrite (proj2 (Z.ltb_ge _ (zlen blocks)))
    by (apply Z.div_le_lower_bound; [done|]; simpl; rewrite Hzh;
        unfold MIN_BLOCK_BYTES, BLOCK_HEADER_BYTES, VERSION_HEADER_BYTES; lia).
  replace (Z.to_nat (zlen blocks)) with (length blocks) by (unfold zlen; lia).
  eapply parses_bind; [apply (decode_blocks_parses _ _ _ blocks); [done..|]; fold bi; cbn [d_remaining dec_adv d0]; rewrite Hzh; lia|].
  cbn beta iota. fold bi. rewrite dec_adv_app. cbn [app].
  set (d1 := dec_adv d0 _).
  assert (d_remaining d1 = 0 ∧ d_crc d1 = crc32c body) as [Hr Hc].
  { unfold d1, d0. simpl. rewrite crc32c_append_start, zlen_app. split; [lia|done]. }
  rewrite <-Hc, <-(app_nil_r (le_bytes 4 (d_crc d1))).
  eapply parses_bind; [apply decoder_finish_parses; [done|rewrite Hc; apply crc32c_u32]|].
  apply parses_checkpoint, parses_ret.
Qed.
End decoder.

(** ** Equivalent chains *)

Section chains.
Context `{VersionCodec}.

(** The same versions, each resolving to the same bytes. *)
Definition same_versions (c c' : list BlockVersion) : Prop :=
  Forall2 (λ v v', bv_block v = bv_block v' ∧ bv_commit_seq v = bv_commit_seq v' ∧
                   bv_writer v = bv_writer v') c c' ∧
  ∀ i, (i < length c)%nat → resolve_walk c bv_data i = resolve_walk c' bv_data i.

Lemma same_versions_snoc acc pre v v' :
  same_versions acc pre → bv_block v' = bv_block v → bv_commit_seq v' = bv_commit_seq v →
  bv_writer v' = bv_writer v →
  resolve_walk (acc ++ [v']) bv_data (length acc) = resolve_walk (pre ++ [v]) bv_data (length pre) →
  same_versions (acc ++ [v']) (pre ++ [v]).
Proof.
  intros [Hall Hres] Hb Hs Hw Heq. pose proof (Forall2_length _ _ _ Hall) as Hl. split.
  - apply Forall2_app; [done|]. by repeat constructor.
  - intros i Hi. rewrite length_app in Hi. simpl in Hi.
    destruct (decide (i = length acc)) as [->|]; [by rewrite Heq, Hl|].
    rewrite !resolve_walk_app by lia. apply Hres. lia.
Qed.

Lemma reread_step dedup nt nc block prev chain pre v rest acc :
  chain = pre ++ v :: rest → same_versions acc pre →
  version_identity block nt nc prev v → (prev ≠ None → pre ≠ []) →
  (is_identical (bv_data v) = false →
   ∃ b, resolve_data_with chain (length pre) bv_data = Some b ∧ zlen b < u32_max) →
  same_versions (acc ++ [reread_version dedup acc chain (length pre) v]) (pre ++ [v]).
Proof.
  intros Hch Hsame Hid Hprev Hdata. apply same_versions_snoc; [done..|].
  destruct Hsame as [Hall Hres]. pose proof (Forall2_length _ _ _ Hall) as Hl.
  assert (∀ w : BlockVersion, bv_data w = Identical → pre ≠ [] →
    resolve_walk (acc ++ [w]) bv_data (length acc) = resolve_walk pre bv_data (pred (length pre))) as Hback.
  { intros w Hw Hne. rewrite resolve_walk_identical by (done || by destruct acc, pre).
    rewrite Hres, Hl; [done|]. destruct acc, pre; simpl in *; done || lia. }
  unfold reread_version, reread_data. destruct (is_identical (bv_data v)) eqn:Hi.
  - assert (pre ≠ []) as Hne.
    { destruct prev; [by apply Hprev|]. destruct Hid as (_&_&_&_&?). congruence. }
    rewrite Hback by done. rewrite resolve_walk_identical; [done| |done]. by destruct (bv_data v).
  - destruct (Hdata eq_refl) as (b&Hb&_). unfold version_bytes. rewrite Hb. cbn [default from_option id].
    rewrite resolve_data_walk in Hb.
    assert (resolve_walk (pre ++ [v]) bv_data (length pre) = Some b) as Hpre.
    { rewrite <-Hb, Hch. replace (pre ++ v :: rest) with ((pre ++ [v]) ++ rest) by by rewrite <-app_assoc.
      symmetry. apply resolve_walk_app. rewrite length_app. simpl. lia. }
    rewrite Hpre. destruct (dedup && chain_identical_to_latest acc b) eqn:Hd; [|by apply resolve_walk_full].
    apply andb_true_iff in Hd as [_ Hd]. unfold chain_identical_to_latest in Hd.
    destruct (length acc) as [|n] eqn:Hla; [done|]. cbn [nat_checked_pred] in Hd.
    rewrite resolve_data_walk in Hd. rewrite Hback; [|done|by destruct pre].
    rewrite <-Hl. cbn [Nat.pred]. rewrite <-Hres by lia.
    destruct (resolve_walk acc bv_data n); [|done]. by apply bool_decide_eq_true in Hd as ->.
Qed.

Lemma reread_versions_same dedup block nt nc chain pre rest acc prev :
  chain = pre ++ rest → same_versions acc pre → (prev ≠ None → pre ≠ []) →
  versions_valid block nt nc chain (length pre) prev rest →
  same_versions (reread_versions dedup chain (length pre) acc rest) chain.
Proof.
  revert pre acc prev. induction rest as [|v rest IH]; intros pre acc prev Hch Hsame Hprev Hv; simpl.
  { by rewrite Hch, app_nil_r. }
  destruct Hv as (Hid&Hdata&Hv).
  pose proof (reread_step dedup nt nc block prev chain pre v rest acc Hch Hsame Hid Hprev Hdata) as Hs.
  replace (S (length pre)) with (length (pre ++ [v])) in * by (rewrite length_app; simpl; lia).
  apply (IH _ _ (Some (bv_commit_seq v))); [by rewrite <-app_assoc|done| |done]. intros _. by destruct pre.
Qed.

Lemma reread_same dedup block nt nc chain : versions_valid block nt nc chain 0 None chain →
  same_versions (reread dedup chain) chain.
Proof.
  intros Hv. apply (reread_versions_same dedup block nt nc chain [] chain [] None); [done| |done|done].
  split; [constructor|]. simpl. lia.
Qed.

(** Equivalent chains read alike. *)
Lemma same_versions_lookup c c' i : same_versions c c' →
  bv_commit_seq <$> c !! i = bv_commit_seq <$> c' !! i.
Proof.
  intros [Hall _]. destruct (c !! i) as [v|] eqn:Hv.
  - eapply Forall2_lookup_l in Hall as (v'&->&_&Hs&_); [|done]. simpl. by rewrite Hs.
  - apply lookup_ge_None in Hv. rewrite (Forall2_length _ _ _ Hall) in Hv.
    apply lookup_ge_None in Hv. by rewrite Hv.
Qed.

Lemma same_versions_sorted c c' : same_versions c c' →
  seq_sorted bv_commit_seq c' → seq_sorted bv_commit_seq c.
Proof.
  intros Hs Hc' i j x y Hij Hx Hy.
  pose proof (same_versions_lookup c c' i Hs) as H1. pose proof (same_versions_lookup c c' j Hs) as H2.
  rewrite Hx in H1. rewrite Hy in H2. destruct (c' !! i) as [x'|] eqn:Hx'; [|done].
  destruct (c' !! j) as [y'|] eqn:Hy'; [|done]. injection H1 as ->. injection H2 as ->.
  by eapply (Hc' i j).
Qed.

Lemma same_versions_reads c c' h : same_versions c c' → seq_sorted bv_commit_seq c' →
  resolve_version_bytes_at_or_before c h = resolve_version_bytes_at_or_before c' h.
Proof.
  intros Hs Hsort. pose proof (same_versions_sorted c c' Hs Hsort) as Hsort'.
  unfold resolve_version_bytes_at_or_before, newest_visible_index.
  assert (newest_visible_index_by c h bv_commit_seq = newest_visible_index_by c' h bv_commit_seq) as ->.
  { apply option_eq. intros i. rewrite !newest_visible_index_Some by done. unfold is_newest_visible.
    assert (∀ j, (∃ x, c !! j = Some x ∧ bv_commit_seq x <= h) ↔
                 (∃ x, c' !! j = Some x ∧ bv_commit_seq x <= h)) as Hj.
    { intros j. pose proof (same_versions_lookup c c' j Hs) as Hl.
      destruct (c !! j), (c' !! j); simplify_eq/=; naive_solver lia. }
    rewrite Hj. split; intros [? Hmax]; (split; [done|]); intros j y Hy Hle.
    - destruct (proj2 (Hj j)) as (?&?&?); [eauto|]. by eapply Hmax.
    - destruct (proj1 (Hj j)) as (?&?&?); [eauto|]. by eapply Hmax. }
  destruct (newest_visible_index_by c' h bv_commit_seq) as [i|] eqn:Hi; [|done]. simpl.
  rewrite !resolve_data_walk. apply (proj2 Hs).
  apply newest_visible_index_Some in Hi as [(x&Hx&_) _]; [|done]. apply lookup_lt_Some in Hx.
  by rewrite (Forall2_length _ _ _ (proj1 Hs)).
Qed.
End chains.

(** ** Loading arbitrary bytes *)

(** [m] never panics, and what it returns satisfies [P]. *)
Definition returns {A} (m : replayM Source A) (P : A → Prop) : Prop :=
  ∀ src, bytes_ok (src_bytes src) →
  match m src with
  | Ret (src', Ok a) => bytes_ok (src_bytes src') ∧ P a
  | Ret (_, Err _) => True
  | Panic => False
  end.

Lemma returns_ret {A} (a : A) (P : A → Prop) : P a → returns (mret a) P.
Proof. by intros HP src. Qed.

Lemma returns_throw {A} e (P : A → Prop) : returns (throw e) P.
Proof. done. Qed.

Lemma returns_bind {A B} (m : replayM Source A) (f : A → replayM Source B) P Q :
  returns m P → (∀ a, P a → returns (f a) Q) → returns (m ≫= f) Q.
Proof.
  intros Hm Hf src Hok. specialize (Hm src Hok). unfold mbind, replayM_bind.
  destruct (m src) as [[s1 [a|e]]|]; [|done|done]. destruct Hm as [Hok1 HP]. by apply Hf.
Qed.

Lemma returns_checkpoint {B} (f : () → replayM Source B) Q : returns (f ()) Q → returns (checkpoint ≫= f) Q.
Proof.
  intros Hf src Hok. unfold mbind, replayM_bind.
  destruct (checkpoint_cases src) as [[_ [s1 ->]]|(s1&->&Hb&_)]; [done|].
  apply Hf. by rewrite Hb.
Qed.

Lemma returns_if {A} (b : bool) (m : replayM Source A) e P :
  (b = false → returns m P) → returns (if b then throw e else m) P.
Proof. destruct b; [intros _; apply returns_throw|auto]. Qed.

Lemma read_checkpoint_loop_returns fuel want got src :
  0 <= want → bytes_ok got → bytes_ok (src_bytes src) →
  (Z.to_nat want + length (src_script src) <= fuel)%nat →
  match read_checkpoint_loop fuel want got src with
  | Ret (src', Ok b) => bytes_ok (src_bytes src') ∧ bytes_ok b ∧ zlen b = zlen got + want
  | Ret (_, Err _) => True
  | Panic => False
  end.
Proof.
  revert want got src. induction fuel as [|fuel IH]; intros want got src Hw Hg Hok Hf;
    cbn [read_checkpoint_loop].
  1: rewrite (proj2 (Z.leb_le _ _)) by lia. 2: case_if.
  1, 2: apply (returns_checkpoint (λ _, mret got) (λ b, bytes_ok b ∧ zlen b = zlen got + want));
    [apply returns_ret; split; [done|lia]|done].
  unfold mbind, replayM_bind.
  destruct (checkpoint_cases src) as [[Hc [s1 ->]]|(s1&->&Hb1&Hl1&_)]; [done|].
  destruct (read_call_cases (Z.min want CHECKPOINT_IO_CHUNK_BYTES) s1
              ltac:(unfold CHECKPOINT_IO_CHUNK_BYTES; lia))
    as [(_&s2&code&->)|(s2&_&[(->&Hb2&Hl2)|(b&->&Hb2&Hlen&_&Hl2)])]; [done| |].
  - apply IH; [done|done|by rewrite Hb2, Hb1|rewrite <-Hl1 in Hf; lia].
  - destruct b as [|y b]; [done|]. set (c := y :: b) in *. rewrite <-Hb1, Hb2 in Hok.
    apply Forall_app in Hok as [Hokc Hok2].
    assert (1 <= zlen c) by (unfold c; rewrite zlen_cons; pose proof (zlen_nonneg b); lia).
    destruct (checkpoint_cases s2) as [[_ [s3 ->]]|(s3&->&Hb3&Hl3&_)]; [done|].
    specialize (IH (want - zlen c) (got ++ c) s3 ltac:(lia) ltac:(by apply Forall_app_2)
      ltac:(by rewrite Hb3) ltac:(rewrite Hl3; rewrite <-Hl1 in Hf; lia)).
    destruct (read_checkpoint_loop fuel _ _ s3) as [[s4 [r|e]]|]; [|done|done].
    rewrite zlen_app in IH. destruct IH as (?&?&?). split_and!; [done|done|lia].
Qed.

Lemma read_checkpoint_exact_returns n : 0 <= n →
  returns (read_checkpoint_exact n) (λ b, bytes_ok b ∧ zlen b = n).
Proof.
  intros Hn src Hok. unfold read_checkpoint_exact.
  pose proof (read_checkpoint_loop_returns (Z.to_nat n + length (src_script src)) n [] src Hn
    ltac:(constructor) Hok ltac:(done)) as Hl.
  destruct (read_checkpoint_loop _ n [] src) as [[s1 [b|e]]|]; [|done|done].
  destruct Hl as (?&?&Hz). rewrite zlen_nil in Hz. done.
Qed.

Section load.
Context `{Crc32cAppend} `{VersionCodec}.

Lemma read_into_returns d n : 0 <= n →
  returns (read_into d n) (λ r, bytes_ok r.2 ∧ zlen r.2 = n).
Proof.
  intros Hn. unfold read_into. apply returns_checkpoint, returns_if. intros _.
  eapply returns_bind; [by apply read_checkpoint_exact_returns|].
  intros b Hb. by apply returns_ret.
Qed.

Lemma decoder_read_returns d (n : nat) :
  returns (decoder_read d (Z.of_nat n)) (λ r, 0 <= r.2 < 256 ^ Z.of_nat n).
Proof.
  unfold decoder_read. eapply returns_bind; [apply read_into_returns; lia|].
  intros [d' b] [Hok Hz]. apply returns_ret. simpl in *. rewrite <-Hz. by apply le_value_bound.
Qed.

Lemma payload_loop_returns fuel d len data : bytes_ok data → zlen data <= len →
  (Z.to_nat (len - zlen data) <= fuel)%nat →
  returns (payload_loop fuel d len data) (λ r, bytes_ok r.2 ∧ zlen r.2 = len).
Proof.
  revert d data. induction fuel as [|fuel IH]; intros d data Hok Hl Hf; cbn [payload_loop].
  - rewrite (proj2 (Z.leb_le _ _)) by lia. apply returns_ret. simpl. split; [done|lia].
  - case_if; [apply returns_ret; simpl; split; [done|lia]|]. apply returns_checkpoint.
    eapply returns_bind; [apply read_into_returns; unfold CHECKPOINT_IO_CHUNK_BYTES; lia|].
    intros [d' b] [Hb Hz]. simpl in *. unfold CHECKPOINT_IO_CHUNK_BYTES in Hz.
    apply IH; [by apply Forall_app_2|rewrite zlen_app; lia..].
Qed.

Lemma decoder_payload_returns d block len reserved : 0 <= len →
  returns (decoder_payload d block len reserved) (λ r, bytes_ok r.2 ∧ zlen r.2 = len).
Proof.
  intros Hl. unfold decoder_payload. apply returns_checkpoint, returns_if. intros _.
  apply payload_loop_returns; [constructor|by rewrite zlen_nil|rewrite zlen_nil; lia].
Qed.

Lemma repeats_last_returns dedup block acc last_concrete b : concrete_ok acc last_concrete →
  returns (repeats_last dedup block acc last_concrete b)
    (λ r, r = dedup && chain_identical_to_latest acc b).
Proof.
  intros Hc src Hok. pose proof (repeats_last_parses dedup block acc last_concrete b Hc src (src_bytes src) eq_refl) as Hp.
  destruct (repeats_last _ _ _ _ _ src) as [[s1 [r|e]]|]; [|done|done].
  destruct Hp as (->&->&_). done.
Qed.

(** The versions accepted so far. *)
Record chain_so_far (block nt nc : Z) (acc : list BlockVersion) (last_concrete : option nat)
    (prev : option Z) : Prop := {
  csf_strict : seq_strict bv_commit_seq acc;
  csf_all : Forall (λ v, bv_block v = block ∧ 1 <= bv_commit_seq v < nc ∧ 0 <= bv_writer v < nt) acc;
  csf_bytes : ∀ i, (i < length acc)%nat → ∃ b, resolve_walk acc bv_data i = Some b ∧ bytes_ok b;
  csf_concrete : concrete_ok acc last_concrete;
  csf_prev : match prev with
             | None => acc = []
             | Some p => acc ≠ [] ∧ ∀ v, v ∈ acc → bv_commit_seq v <= p
             end;
}.

Lemma chain_so_far_snoc block nt nc acc last_concrete prev v :
  chain_so_far block nt nc acc last_concrete prev →
  bv_block v = block → 1 <= bv_commit_seq v < nc → 0 <= bv_writer v < nt →
  (∀ p, prev = Some p → p < bv_commit_seq v) →
  (bv_data v = Identical ∧ acc ≠ []) ∨ (∃ b, bv_data v = Full b ∧ bytes_ok b) →
  chain_so_far block nt nc (acc ++ [v])
    (if negb (is_identical (bv_data v)) then Some (length acc) else last_concrete)
    (Some (bv_commit_seq v)).
Proof.
  intros [Hst Hall Hby Hcon Hprev] Hb Hs Hw Hp Hd.
  assert (∀ x, x ∈ acc → bv_commit_seq x < bv_commit_seq v) as Hlt.
  { intros x Hx. destruct prev as [p|]; [|subst acc; by apply elem_of_nil in Hx].
    destruct Hprev as [_ Hle]. specialize (Hle x Hx). specialize (Hp p eq_refl). lia. }
  constructor.
  - by apply seq_strict_snoc.
  - apply Forall_app_2; [done|]. by apply Forall_singleton.
  - intros i Hi. rewrite length_app in Hi. simpl in Hi.
    destruct (decide (i < length acc)%nat); [rewrite resolve_walk_app by done; auto|].
    assert (i = length acc) as -> by lia. destruct Hd as [[Hd Hne]|(b&Hd&Hbo)].
    + rewrite resolve_walk_identical by done. apply Hby. destruct acc; [done|]. simpl. lia.
    + exists b. by rewrite (resolve_walk_full acc v b).
  - apply concrete_ok_snoc; [done|]. naive_solver.
  - split; [by destruct acc|]. intros x [Hx|Hx]%elem_of_app.
    + specialize (Hlt x Hx). lia.
    + by apply list_elem_of_singleton in Hx as ->.
Qed.

Lemma returns_validate {A} block v prev nt nc (m : replayM Source A) P :
  (version_identity block nt nc prev v → returns m P) →
  returns (_ ← validate_checkpoint_version block v prev nt nc; m) P.
Proof.
  intros Hm src Hok. unfold mbind, replayM_bind.
  destruct (validate_version_spec block v prev nt nc src) as [[-> Hv]|(why&->&_)]; [|done]. by apply Hm.
Qed.

Lemma decode_version_returns left block nt nc future dedup d acc last_concrete prev :
  chain_so_far block nt nc acc last_concrete prev →
  returns (decode_version left block nt nc future dedup d acc last_concrete prev)
    (λ r, chain_so_far block nt nc (acc ++ [r.2])
            (if negb (is_identical (bv_data r.2)) then Some (length acc) else last_concrete)
            (Some (bv_commit_seq r.2))).
Proof.
  intros Hc. unfold decode_version.
  eapply returns_bind; [apply (decoder_read_returns _ 8)|]. intros [d1 seq] Hseq. cbn [snd] in Hseq.
  eapply returns_bind; [apply (decoder_read_returns _ 8)|]. intros [d2 wr] Hwr. cbn [snd] in Hwr.
  eapply returns_bind; [apply (decoder_read_returns _ 4)|]. intros [d3 len] Hlen. cbn [snd] in Hlen.
  cbv zeta. apply returns_validate. intros (_&Hz&Hnc&Hnt&Hprev). cbn [bv_commit_seq bv_writer bv_data] in *.
  assert (∀ p, prev = Some p → p < seq) as Hp by (intros p ->; done).
  case_if.
  - eapply returns_bind; [apply decoder_payload_returns; lia|]. intros [d4 data] [Hok _]. cbn [snd] in Hok.
    eapply returns_bind; [by apply repeats_last_returns, (csf_concrete _ _ _ _ _ _ Hc)|].
    intros same ->. apply returns_ret. cbn [snd].
    apply (chain_so_far_snoc block nt nc acc last_concrete prev); simpl; try done; try lia.
    destruct (dedup && chain_identical_to_latest acc data) eqn:Hd; [left|right; eauto].
    split; [done|]. intros ->. by rewrite andb_false_r in Hd.
  - apply returns_ret. cbn [snd]. subst len.
    apply (chain_so_far_snoc block nt nc acc last_concrete prev); simpl; try done; try lia.
    left. split; [done|]. destruct prev; [by destruct (csf_prev _ _ _ _ _ _ Hc)|done].
Qed.

Lemma returns_weaken {A} (m : replayM Source A) (P Q : A → Prop) :
  returns m P → (∀ a, P a → Q a) → returns m Q.
Proof.
  intros Hm HPQ src Hok. specialize (Hm src Hok). destruct (m src) as [[? [?|?]]|]; naive_solver.
Qed.

Lemma decode_versions_returns n block nt nc future dedup d acc last_concrete prev :
  chain_so_far block nt nc acc last_concrete prev →
  returns (decode_versions n block nt nc future dedup d acc last_concrete prev)
    (λ r, length r.2 = (length acc + n)%nat ∧ ∃ lc p, chain_so_far block nt nc r.2 lc p).
Proof.
  revert d acc last_concrete prev. induction n as [|n IH]; intros d acc lc prev Hc; cbn [decode_versions].
  - apply returns_ret. cbn [snd]. split; [lia|eauto].
  - eapply returns_bind; [by apply decode_version_returns|]. intros [d' v] Hv. cbn [snd] in Hv.
    cbv zeta. eapply returns_weaken; [by apply IH|]. intros r [Hl ?]. split; [|done].
    rewrite length_app in Hl. simpl in Hl. lia.
Qed.

(** A chain the store can hold, with [u8] payloads and admissible writers. *)
Definition chain_loaded (nt nc block : Z) (c : list BlockVersion) : Prop :=
  chain_ok nc block c ∧ chain_typed nt block c.

Lemma chain_so_far_loaded block nt nc c lc p : 0 <= block <= u64_max → c ≠ [] →
  chain_so_far block nt nc c lc p → chain_loaded nt nc block c.
Proof.
  intros Hb Hne [Hst Hall Hby _ _]. split; [split; [done|split; [done|split]]|split; [done|split]].
  - eapply Forall_impl; [exact Hall|]. simpl. naive_solver.
  - intros i Hi. destruct (Hby i Hi) as (b&->&_). eauto.
  - eapply Forall_impl; [exact Hall|]. simpl. naive_solver.
  - intros i b Hr. destruct (decide (i < length c)%nat) as [Hi|Hi].
    + destruct (Hby i Hi) as (b'&Hb'&?). congruence.
    + by apply resolve_walk_lt in Hr.
Qed.

Lemma decode_chain_returns d block nt nc future dedup : 0 <= block <= u64_max →
  returns (decode_chain d block nt nc future dedup) (λ r, chain_loaded nt nc block r.2).
Proof.
  intros Hb. unfold decode_chain. eapply returns_bind; [apply (decoder_read_returns _ 4)|].
  intros [d1 count] Hcount. cbn [snd] in Hcount. apply returns_if. intros Hz%Z.eqb_neq.
  apply returns_if. intros _. eapply returns_weaken; [apply decode_versions_returns|].
  - constructor; [apply seq_strict_nil|done|simpl; lia|done|done].
  - intros r (Hl&lc&p&Hc). eapply chain_so_far_loaded; [done| |done]. simpl in Hl.
    destruct r.2; [simpl in Hl; lia|done].
Qed.

(** Blocks in strictly increasing order. *)
Definition blocks_loaded (nt nc : Z) (blocks : list (Z * list BlockVersion)) : Prop :=
  seq_strict fst blocks ∧ Forall (λ bc, chain_loaded nt nc bc.1 bc.2) blocks.

Lemma decode_blocks_returns n nt nc dedup d prev acc :
  blocks_loaded nt nc acc →
  match prev with None => acc = [] | Some p => ∀ bc, bc ∈ acc → bc.1 <= p end →
  returns (decode_blocks n nt nc dedup d prev acc) (λ r, blocks_loaded nt nc r.2).
Proof.
  revert d prev acc. induction n as [|n IH]; intros d prev acc [Hst Hall] Hprev; cbn [decode_blocks].
  { by apply returns_ret. }
  eapply returns_bind; [apply (decoder_read_returns _ 8)|]. intros [d1 block] Hblock. cbn [snd] in Hblock.
  apply returns_if. intros Hord. cbv zeta.
  eapply returns_bind; [apply decode_chain_returns; unfold u64_max; lia|]. intros [d2 c] Hc. cbn [snd] in Hc.
  assert (∀ bc, bc ∈ acc → bc.1 < block) as Hlt.
  { intros bc Hbc. destruct prev as [p|]; [|subst acc; by apply elem_of_nil in Hbc].
    apply Z.leb_gt in Hord. specialize (Hprev bc Hbc). lia. }
  apply IH.
  - split; [by apply seq_strict_snoc|]. apply Forall_app_2; [done|]. by apply Forall_singleton.
  - intros bc [Hbc|Hbc]%elem_of_app; [specialize (Hlt bc Hbc); lia|].
    by apply list_elem_of_singleton in Hbc as ->.
Qed.

Lemma decode_fixed_header_returns d :
  returns (decode_fixed_header d)
    (λ r, let '(nt, nc, n) := r.2 in 1 <= nt <= u64_max ∧ 1 <= nc <= u64_max ∧ 0 <= n).
Proof.
  unfold decode_fixed_header.
  eapply returns_bind; [apply (decoder_read_returns _ 4)|]. intros [d1 magic] _. apply returns_if. intros _.
  eapply returns_bind; [apply (decoder_read_returns _ 2)|]. intros [d2 ver] _. apply returns_if. intros _.
  eapply returns_bind; [by apply read_into_returns|]. intros [d3 rsv] _. apply returns_if. intros _.
  eapply returns_bind; [apply (decoder_read_returns _ 8)|]. intros [d4 nt] Hnt. cbn [snd] in Hnt.
  eapply returns_bind; [apply (decoder_read_returns _ 8)|]. intros [d5 nc] Hnc. cbn [snd] in Hnc.
  unfold validate_checkpoint_counters.
  eapply (returns_bind _ _ (λ _, nt ≠ 0 ∧ nc ≠ 0)).
  { apply returns_if. intros [?%Z.eqb_neq ?%Z.eqb_neq]%orb_false_iff. by apply returns_ret. }
  intros _ [? ?]. eapply returns_bind; [apply (decoder_read_returns _ 4)|]. intros [d6 n] Hn.
  cbn [snd] in Hn. apply returns_ret. simpl. unfold u64_max. lia.
Qed.

(** Decoding never panics, whatever the file holds, and what it accepts is
    well formed. *)
Lemma decode_checkpoint_returns file_len dedup :
  returns (decode_checkpoint file_len dedup)
    (λ c, 1 <= dc_next_txn c <= u64_max ∧ 1 <= dc_next_commit c <= u64_max ∧
          blocks_loaded (dc_next_txn c) (dc_next_commit c) (dc_blocks c)).
Proof.
  unfold decode_checkpoint. apply returns_checkpoint, returns_if. intros _.
  eapply returns_bind; [apply decode_fixed_header_returns|]. intros [d [[nt nc] n]] (Hnt&Hnc&Hn).
  apply returns_if. intros _.
  eapply returns_bind; [apply decode_blocks_returns; [|done]; split; [apply seq_strict_nil|constructor]|].
  intros [d1 blocks] Hb. cbn [snd] in Hb.
  eapply (returns_bind _ _ (λ _, True)).
  { unfold decoder_finish. apply returns_checkpoint, returns_if. intros _.
    eapply returns_bind; [by apply read_checkpoint_exact_returns|]. intros b _. apply returns_if. intros _.
    by apply returns_ret. }
  intros _ _. apply returns_checkpoint, returns_ret. done.
Qed.

(** *** Publication *)

Lemma insert_versions_all (blocks : smap (list BlockVersion)) s : sm_wf blocks →
  let s' := foldl (λ s bc, insert_versions s bc.1 bc.2) s blocks in
  s' = set_versions s (versions s') ∧
  ∀ b, versions s' !! b = match sm_get b blocks with
                          | Some c => Some (default [] (versions s !! b) ++ c)
                          | None => versions s !! b
                          end.
Proof.
  revert s. induction blocks as [|[b0 c0] blocks IH]; intros s Hwf; simpl; [by destruct s|].
  apply sm_wf_cons in Hwf as [Hb0 Hwf]. destruct (IH (insert_versions s b0 c0) Hwf) as [Heq Hl].
  split; [by rewrite Heq at 1|]. intros b. rewrite Hl. simpl. destruct (Z.eqb_spec b b0) as [->|Hne].
  - rewrite (sm_get_above b0 b0 blocks) by (done || lia). by rewrite lookup_insert_eq.
  - by rewrite lookup_insert_ne.
Qed.

(** The store after loading [blocks] with counters [nt] and [nc]. *)
Definition loaded_store (s : MvccStore) (nt nc : Z) (blocks : list (Z * list BlockVersion)) : MvccStore :=
  advance_counters (foldl (λ s bc, insert_versions s bc.1 bc.2) s blocks) (nc - 1) (nt - 1).

Lemma loaded_store_lookup s nt nc blocks b : versions s = ∅ → sm_wf blocks →
  versions (loaded_store s nt nc blocks) !! b = sm_get b blocks.
Proof.
  intros He Hwf. unfold loaded_store, advance_counters. simpl.
  destruct (insert_versions_all blocks s Hwf) as [_ ->]. rewrite He, lookup_empty.
  by destruct (sm_get b blocks).
Qed.

Lemma loaded_store_frame s nt nc blocks : sm_wf blocks → 1 <= nt <= u64_max → 1 <= nc <= u64_max →
  loaded_store s nt nc blocks =
  set_counters (set_versions s (versions (loaded_store s nt nc blocks)))
    (Z.max (next_txn s) nt) (Z.max (next_commit s) nc).
Proof.
  intros Hwf Hnt Hnc. unfold loaded_store at 1, advance_counters.
  destruct (insert_versions_all blocks s Hwf) as [-> _]. simpl.
  unfold saturating_add. rewrite !Z.sub_add. rewrite !Z.min_l by lia. done.
Qed.

Lemma loaded_store_ok s nt nc blocks :
  store_wf s → versions s = ∅ → 1 <= nt <= u64_max → 1 <= nc <= u64_max → blocks_loaded nt nc blocks →
  store_wf (loaded_store s nt nc blocks) ∧ store_typed (loaded_store s nt nc blocks).
Proof.
  intros Hs He Hnt Hnc [Hst Hall]. assert (sm_wf blocks) as Hwf by done.
  assert (∀ b c, versions (loaded_store s nt nc blocks) !! b = Some c → chain_loaded nt nc b c) as Hch.
  { intros b c. rewrite loaded_store_lookup by done. rewrite sm_get_elem by done.
    rewrite Forall_forall in Hall. intros Hin. by apply (Hall (b, c)). }
  pose proof Hs as []. split.
  - rewrite loaded_store_frame by done. constructor; simpl; try done; [lia..| | |].
    + intros b c [Hok _]%Hch. eapply chain_ok_weaken; [|done]. lia.
    + eapply map_Forall_impl; [exact wf_physical|]. intros b c. apply phys_ok_weaken. lia.
    + eapply log_ok_weaken; [|exact wf_log]. lia.
  - intros b c Hc. rewrite loaded_store_frame by done. simpl. apply Hch in Hc as [_ Ht].
    eapply chain_typed_weaken; [|done]. lia.
Qed.

Lemma load_checkpoint_returns io s : store_wf s → versions s = ∅ →
  returns (load_checkpoint io s) (λ s', store_wf s' ∧ store_typed s' ∧
    ∃ c, s' = loaded_store s (dc_next_txn c) (dc_next_commit c) (dc_blocks c) ∧
         1 <= dc_next_txn c <= u64_max ∧ 1 <= dc_next_commit c <= u64_max ∧
         blocks_loaded (dc_next_txn c) (dc_next_commit c) (dc_blocks c)).
Proof.
  intros Hs He src Hok. unfold load_checkpoint.
  set (n := zlen (src_bytes src)). set (dd := dedup_identical _). clearbody n dd.
  revert src Hok. apply returns_checkpoint. destruct (ci_open io) as [[]|]; [|apply returns_throw..].
  eapply returns_bind; [apply decode_checkpoint_returns|]. intros c (Hnt&Hnc&Hb).
  unfold publish_checkpoint. apply returns_checkpoint. destruct (ci_observed io) as [m|]; [|apply returns_throw].
  apply returns_if. intros _. apply returns_checkpoint, returns_ret.
  destruct (loaded_store_ok s (dc_next_txn c) (dc_next_commit c) (dc_blocks c)) as [? ?]; [done..|].
  split_and!; [done|done|]. by exists c.
Qed.
End load.

(** ** The store as a checkpoint *)

Section snapshot.
Context `{UnstableSort} `{Crc32cAppend} `{VersionCodec}.

Lemma versions_snapshot_elem s b c : (b, c) ∈ versions_snapshot s ↔ versions s !! b = Some c.
Proof. unfold versions_snapshot. rewrite sort_by_perm. apply elem_of_map_to_list. Qed.

Lemma sorted_keys_wf {V} (l : smap V) :
  StronglySorted (λ x y, (x.1 <=? y.1) = true) l → NoDup l.*1 → sm_wf l.
Proof.
  induction 1 as [|[k v] l Hs IH Hall]; [intros _; apply seq_strict_nil|].
  rewrite fmap_cons, NoDup_cons. intros [Hk Hnd]. apply sm_wf_cons. split; [|by apply IH].
  intros [k' v'] Hin. rewrite Forall_forall in Hall. specialize (Hall _ Hin). simpl in *.
  apply Z.leb_le in Hall. assert (k ≠ k'); [|lia]. intros ->. apply Hk, list_elem_of_fmap. by exists (k', v').
Qed.

Lemma versions_snapshot_wf s : sm_wf (versions_snapshot s).
Proof.
  apply sorted_keys_wf.
  - apply sort_by_sorted; intros; rewrite ?Z.leb_le in *; lia.
  - unfold versions_snapshot. rewrite sort_by_perm. apply NoDup_fst_map_to_list.
Qed.

Lemma versions_snapshot_get s b : sm_get b (versions_snapshot s) = versions s !! b.
Proof.
  apply option_eq. intros c. rewrite sm_get_elem by apply versions_snapshot_wf. apply versions_snapshot_elem.
Qed.

(** Every count and length of the store fits its field of the format. *)
Definition checkpoint_fits (s : MvccStore) : Prop :=
  Z.of_nat (size (versions s)) <= u32_max ∧
  map_Forall (λ _ c, zlen c <= u32_max ∧
    ∀ i b, resolve_walk c bv_data i = Some b → zlen b < u32_max) (versions s).

Lemma versions_valid_chain nt nc block chain pre rest prev :
  chain = pre ++ rest → chain_ok nc block chain → chain_typed nt block chain →
  (∀ i b, resolve_walk chain bv_data i = Some b → zlen b < u32_max) →
  match prev with None => pre = [] | Some seq => ∃ v, last pre = Some v ∧ seq = bv_commit_seq v end →
  versions_valid block nt nc chain (length pre) prev rest.
Proof.
  intros Hc Hok Ht Hfit. revert pre prev Hc. induction rest as [|v rest IH]; intros pre prev Hc Hp; simpl; [done|].
  assert (chain !! length pre = Some v) as Hv by (subst; by rewrite list_lookup_middle).
  pose proof Hok as (_&Hstrict&Hall&Hres). pose proof Ht as (_&Hw&_).
  rewrite Forall_lookup in Hall, Hw. destruct (Hall _ _ Hv) as [Hb Hseq]. specialize (Hw _ _ Hv). simpl in Hw.
  destruct (Hres (length pre)) as [b Hbytes]; [by eapply lookup_lt_Some|].
  split; [|split].
  - split_and!; [done|lia|lia|lia|]. destruct prev as [seq|].
    + destruct Hp as (u&Hu&->). rewrite last_lookup in Hu. pose proof (lookup_lt_Some _ _ _ Hu).
      eapply (Hstrict (pred (length pre)) (length pre)); [lia| |done].
      subst. by apply lookup_app_l_Some.
    + subst pre. simpl in *. rewrite Hv in Hbytes. by destruct (bv_data v).
  - intros _. rewrite resolve_data_walk. eauto.
  - specialize (IH (pre ++ [v]) (Some (bv_commit_seq v))). rewrite length_app, Nat.add_comm in IH. apply IH.
    + by rewrite <-app_assoc.
    + exists v. by rewrite last_snoc.
Qed.

Lemma blocks_valid_intro nt nc prev blocks : sm_wf blocks →
  Forall (λ bc, match prev with Some p => p < bc.1 | None => True end) blocks →
  Forall (λ bc, bc.2 ≠ [] ∧ zlen bc.2 <= u32_max ∧ versions_valid bc.1 nt nc bc.2 0 None bc.2) blocks →
  blocks_valid nt nc prev blocks.
Proof.
  revert prev. induction blocks as [|[b c] blocks IH]; intros prev Hwf Hp Hall; simpl; [done|].
  apply sm_wf_cons in Hwf as [Hb Hwf]. apply Forall_cons in Hp as [Hp _].
  apply Forall_cons in Hall as [(?&?&?) Hall]. split_and!; [done..|].
  apply IH; [done| |done]. apply Forall_forall. intros bc Hin. by apply Hb.
Qed.

(** A well-formed store that fits can always be written. *)
Lemma snapshot_valid s : store_wf s → store_typed s → checkpoint_fits s →
  checkpoint_valid (next_txn s) (next_commit s) (versions_snapshot s).
Proof.
  intros [] Ht [Hsize Hfit]. split; [lia|]. split; [lia|]. split.
  - unfold versions_snapshot, zlen. rewrite sort_by_perm. by rewrite length_map_to_list.
  - apply blocks_valid_intro; [apply versions_snapshot_wf|by apply Forall_true|].
    apply Forall_forall. intros [b c] Hin%versions_snapshot_elem. simpl.
    destruct (Hfit _ _ Hin) as [Hlen Hby]. split; [apply (wf_chains _ _ Hin)|]. split; [done|].
    apply (versions_valid_chain _ _ _ _ []); [done|by apply wf_chains|by apply Ht|done|done].
Qed.

Lemma same_versions_loaded nt nc b c c' : same_versions c' c → chain_loaded nt nc b c → chain_loaded nt nc b c'.
Proof.
  intros [Hall Hres] [(Hne&Hst&Hv&Hs) (Hb&Hw&Hp)]. pose proof (Forall2_length _ _ _ Hall) as Hl.
  assert (∀ i v', c' !! i = Some v' → ∃ v, c !! i = Some v ∧ bv_block v' = bv_block v ∧
    bv_commit_seq v' = bv_commit_seq v ∧ bv_writer v' = bv_writer v) as Hat.
  { intros i v' Hi. eapply Forall2_lookup_l in Hall as (v&?&?&?&?); [|done]. eauto. }
  rewrite Forall_lookup in Hv, Hw. split; split_and!; try done; try lia.
  - intros ->. by destruct c.
  - intros i j x y Hij (u&Hu&_&->&_)%Hat (w&Hw'&_&->&_)%Hat. by eapply Hst.
  - apply Forall_lookup. intros i v' (v&Hi&->&->&_)%Hat. by apply Hv in Hi.
  - intros i Hi. rewrite Hres by done. apply Hs. lia.
  - apply Forall_lookup. intros i v' (v&Hi&_&_&->)%Hat. by apply Hw in Hi.
  - intros i d Hd. pose proof (resolve_walk_lt _ _ _ Hd). rewrite Hres in Hd by done. by eapply Hp.
Qed.

Lemma sm_get_reread dedup b blocks : sm_get b (reread_block dedup <$> blocks) = reread dedup <$> sm_get b blocks.
Proof. induction blocks as [|[b0 c0] blocks IH]; [done|]. rewrite fmap_cons. simpl. by case_if. Qed.

Lemma sm_wf_reread dedup blocks : sm_wf blocks → sm_wf (reread_block dedup <$> blocks).
Proof.
  intros Hwf i j x y Hij. rewrite !list_lookup_fmap.
  intros (x'&Hx&->)%fmap_Some (y'&Hy&->)%fmap_Some. simpl. by apply (Hwf i j).
Qed.

Lemma blocks_valid_at nt nc prev blocks b c : blocks_valid nt nc prev blocks → (b, c) ∈ blocks →
  versions_valid b nt nc c 0 None c.
Proof.
  revert prev. induction blocks as [|[b0 c0] blocks IH]; simpl; intros prev Hv; [by intros ?%elem_of_nil|].
  destruct Hv as (_&_&_&Hv&Hrest). intros [[= -> ->]|Hin]%elem_of_cons; [done|]. by eapply IH.
Qed.

(** The chains of the reloaded store are those of the snapshot, reread. *)
Lemma snapshot_reread s dedup : store_wf s → store_typed s →
  checkpoint_valid (next_txn s) (next_commit s) (versions_snapshot s) →
  blocks_loaded (next_txn s) (next_commit s) (reread_block dedup <$> versions_snapshot s).
Proof.
  intros Hs Ht (_&_&_&Hv). split; [apply sm_wf_reread, versions_snapshot_wf|].
  apply Forall_fmap, Forall_forall. intros [b c] Hin. simpl.
  apply (same_versions_loaded _ _ _ c); [eapply reread_same, blocks_valid_at; done|].
  apply versions_snapshot_elem in Hin. split; [by apply wf_chains|by apply Ht].
Qed.

Lemma snapshot_reads s s0 dedup b snap : store_wf s → versions s0 = ∅ →
  checkpoint_valid (next_txn s) (next_commit s) (versions_snapshot s) →
  read_visible (loaded_store s0 (next_txn s) (next_commit s) (reread_block dedup <$> versions_snapshot s)) b snap =
  read_visible s b snap.
Proof.
  intros Hs He (_&_&_&Hv). unfold read_visible.
  rewrite loaded_store_lookup, sm_get_reread, versions_snapshot_get
    by (done || apply sm_wf_reread, versions_snapshot_wf).
  destruct (versions s !! b) as [c|] eqn:Hc; [|done]. cbn [fmap option_fmap option_map mbind option_bind].
  apply same_versions_reads.
  - eapply reread_same, blocks_valid_at; [done|]. by apply versions_snapshot_elem.
  - apply seq_strict_sorted. by apply (wf_chains _ Hs _ _ Hc).
Qed.

Lemma snapshot_typed s : store_wf s → store_typed s → Forall block_typed (versions_snapshot s).
Proof.
  intros Hs Ht. apply Forall_forall. intros [b c] Hin%versions_snapshot_elem.
  destruct (wf_chains _ Hs _ _ Hin) as (_&_&Hall&_). destruct (Ht _ _ Hin) as (Hb&Hw&_).
  pose proof (wf_next_txn _ Hs). pose proof (wf_next_commit _ Hs).
  split; [done|]. simpl. rewrite Forall_forall in Hall, Hw |- *. intros v Hv.
  specialize (Hall v Hv). specialize (Hw v Hv). simpl in *. split; lia.
Qed.

(** A load of a written image, from whatever source. *)
Lemma load_image s s0 src : store_wf s → store_typed s → versions s0 = ∅ →
  checkpoint_valid (next_txn s) (next_commit s) (versions_snapshot s) →
  src_bytes src = checkpoint_image (next_txn s) (next_commit s) (versions_snapshot s) →
  match load_checkpoint (mkCheckpointIo (Some true) (Some (zlen (src_bytes src)))) s0 src with
  | Ret (src', Ok s') =>
      s' = loaded_store s0 (next_txn s) (next_commit s)
             (reread_block (dedup_identical (compression_policy s0)) <$> versions_snapshot s) ∧
      (calm src → calm src')
  | Ret (_, Err e) => io_error e ∧ ¬ calm src
  | Panic => False
  end.
Proof.
  intros Hs Ht He Hv Hsrc. pose proof (wf_next_txn _ Hs). pose proof (wf_next_commit _ Hs).
  unfold load_checkpoint. simpl. rewrite Hsrc.
  set (img := checkpoint_image _ _ _) in *. set (dd := dedup_identical _).
  set (st := loaded_store _ _ _ _).
  set (m := _ ≫= _). assert (parses img m st) as Hp.
  { unfold m. apply parses_checkpoint. rewrite <-(app_nil_r img) at 1. eapply parses_bind.
    { apply decode_checkpoint_parses; [done|lia|lia|by apply snapshot_typed]. }
    unfold publish_checkpoint. apply parses_checkpoint. rewrite Z.eqb_refl. cbn [negb].
    apply parses_checkpoint, parses_ret. }
  specialize (Hp src [] ltac:(by rewrite app_nil_r)). destruct (m src) as [[? [?|?]]|]; naive_solver.
Qed.

(** C14. A checkpoint round trip, over every way its file operations can go.
    Writing the snapshot of a well-formed store either succeeds, or reports a
    failed write, or the store does not fit the format's 32-bit counts.  What a
    successful write left in the file, read back through any schedule of short
    reads, interruptions, errors and cancellations into an empty store, is
    either an I/O error or a cancellation (and then the source was not calm), or
    a well-formed store with the same counters on which every read at every
    snapshot answers as on the original. *)
Theorem checkpoint_roundtrip s s0 script :
  store_wf s → store_typed s → store_wf s0 → versions s0 = ∅ →
  next_txn s0 <= next_txn s → next_commit s0 <= next_commit s →
  match write_checkpoint (next_txn s) (next_commit s) (versions_snapshot s) (mkSink [] script) with
  | Ret (k, Ok _) =>
      ∀ src, src_bytes src = sk_out k →
      match load_checkpoint (mkCheckpointIo (Some true) (Some (zlen (src_bytes src)))) s0 src with
      | Ret (_, Ok s') =>
          store_wf s' ∧ store_typed s' ∧ next_txn s' = next_txn s ∧ next_commit s' = next_commit s ∧
          ∀ b snap, read_visible s' b snap = read_visible s b snap
      | Ret (_, Err e) => io_error e ∧ ¬ calm src
      | Panic => False
      end
  | Ret (_, Err e) => (e = External write_failed ∧ false ∈ script) ∨ ¬ checkpoint_fits s
  | Panic => False
  end.
Proof.
  intros Hs Ht Hs0 He Hnt Hnc. pose proof (wf_next_txn _ Hs). pose proof (wf_next_commit _ Hs).
  pose proof (write_checkpoint_spec (next_txn s) (next_commit s) (versions_snapshot s) (mkSink [] script)) as Hw.
  destruct (write_checkpoint _ _ _ _) as [[k [u|e]]|]; [|naive_solver eauto using snapshot_valid|done].
  destruct Hw as [Hv Hout]. simpl in Hout. intros src Hsrc.
  pose proof (load_image s s0 src Hs Ht He Hv ltac:(congruence)) as Hl.
  destruct (load_checkpoint _ _ _) as [[k' [s'|e]]|]; [|done|done]. destruct Hl as [-> _].
  destruct (loaded_store_ok s0 (next_txn s) (next_commit s)
    (reread_block (dedup_identical (compression_policy s0)) <$> versions_snapshot s)) as [Hwf' Htyped'];
    [done|done|lia|lia|by apply snapshot_reread|].
  split; [done|]. split; [done|].
  rewrite loaded_store_frame at 1 2 by (lia || apply sm_wf_reread, versions_snapshot_wf). simpl.
  split; [lia|]. split; [lia|]. intros b snap. by apply snapshot_reads.
Qed.

End snapshot.
