(* ===== verification/Persist.v ===== *)
(** * Persist: the durable store ([ffs-mvcc/src/persist.rs],
      [ffs-mvcc/src/wal_writer/namespace.rs])

    [PersistentMvccStore] composes the store, the log writer, the checkpoint
    file and the replay engine.  A commit is made in memory, appended to the
    log, and undone in memory if the append fails; a checkpoint is published by
    rename and directory sync, and only then allows the log to be truncated;
    opening admits one owner, loads the checkpoint, replays the log after it
    and trims a torn tail.

    The three locks of the Rust struct are taken for the whole of each method,
    so a method is one step here.  The answers of the operating system are
    arguments of each operation. *)

From stdpp Require Import base sorting numbers gmap list.
From S2P Require Import Prelude Sorted Merge Chain Txn Policy Metrics Store StoreLemmas StoreInv.
From S2P Require Import StoreCorrect StoreTyped Wal WalReplay WalWriter WalReader Checkpoint.

Local Open Scope Z_scope.

(** ** Options, statistics, reports *)

Record PersistOptions := mkOptions {
  sync_on_commit : bool;
  opt_verify_writes : bool;
  opt_backpressure_threshold_bytes : Z;
}.

Definition default_options : PersistOptions := mkOptions true false 0.

Definition to_writer_config (o : PersistOptions) : WalWriterConfig :=
  mkWriterConfig (if sync_on_commit o then Immediate else Manual) (opt_verify_writes o)
    (opt_backpressure_threshold_bytes o).

Record WalStats := mkWalStats {
  replayed_commits : Z;
  replayed_versions : Z;
  wal_size_bytes : Z;
  commits_written : Z;
  checkpoints_created : Z;
  checkpoint_commit_seq : Z;
}.

Definition default_stats : WalStats := mkWalStats 0 0 0 0 0 0.

Record WalRecoveryReport := mkRecovery {
  rc_outcome : ReplayOutcome;
  rc_commits_replayed : Z;
  rc_versions_replayed : Z;
  rc_records_discarded : Z;
  rc_wal_valid_bytes : Z;
  rc_wal_total_bytes : Z;
  rc_used_checkpoint : bool;
  rc_checkpoint_commit_seq : option Z;
}.

Definition default_recovery : WalRecoveryReport := mkRecovery EmptyLog 0 0 0 0 0 false None.

Record PersistentMvccStore := mkPersistent {
  p_store : MvccStore;
  p_wal : WalWriter;
  p_stats : WalStats;
  p_recovery : WalRecoveryReport;
}.

Definition set_store (p : PersistentMvccStore) (s : MvccStore) : PersistentMvccStore :=
  mkPersistent s (p_wal p) (p_stats p) (p_recovery p).
Definition set_wal (p : PersistentMvccStore) (w : WalWriter) : PersistentMvccStore :=
  mkPersistent (p_store p) w (p_stats p) (p_recovery p).

(** [FfsError], as far as it is told apart here. *)
Inductive PersistError := WalError (e : WalWriteError) | FileError (e : ReplayError).

(** ** Undoing an in-memory commit *)

(** One block: drop the newest version if the failed commit wrote it, and the
    entry if nothing is left. *)
Definition pop_version {T} (seq_of writer_of : T → Z) (commit_seq txn_id : Z)
    (m : gmap Z (list T)) (block : Z) : gmap Z (list T) :=
  match m !! block with
  | None => m
  | Some versions =>
      let versions :=
        match last versions with
        | Some v => if (seq_of v =? commit_seq) && (writer_of v =? txn_id)
                    then removelast versions else versions
        | None => versions
        end in
      match versions with [] => delete block m | _ => <[block := versions]> m end
  end.

Definition rollback_in_memory_commit (s : MvccStore) (txn_id commit_seq : Z)
    (write_blocks cow_blocks : list Z) (use_ssi : bool) : MvccStore :=
  let s := set_versions s
             (foldl (pop_version bv_commit_seq bv_writer commit_seq txn_id) (versions s) write_blocks) in
  let s := set_physical_versions s
             (foldl (pop_version pv_commit_seq pv_writer commit_seq txn_id) (physical_versions s)
                cow_blocks) in
  let s := if use_ssi then
             match last (ssi_log s) with
             | Some r => if (r_commit_seq r =? commit_seq) && (r_txn_id r =? txn_id)
                         then set_ssi_log s (removelast (ssi_log s)) else s
             | None => s
             end
           else s in
  set_counters s (next_txn s) commit_seq.

Section persist.
Context `{UnstableSort} `{Crc32cAppend} `{VersionCodec}.

(** ** Committing *)

Definition commit_internal (io : Io) (p : PersistentMvccStore) (txn : Transaction) (time : Timing)
    (use_ssi : bool) : outcome (PersistentMvccStore * res CommitError Z) :=
  let write_blocks := write_set_keys txn in
  let cow_blocks := filter (λ b, is_Some (staged_physical txn b)) write_blocks in
  match ensure_ready (p_wal p) with
  | Err _ => Ret (p, Err (DurabilityFailure WalWriterUnavailable))
  | Ok _ =>
    resolved ← resolved_writes_for_commit (p_store p) txn;
    match resolved with
    | Err e => Ret (p, Err e)
    | Ok resolved =>
      let writes := (λ bd, mkWalWrite bd.1 bd.2) <$> resolved in
      r ← (if use_ssi then commit_ssi (p_store p) txn time else commit (p_store p) txn time);
      match r with
      | (s, Err e) => Ret (set_store p s, Err e)
      | (s, Ok commit_seq) =>
        match append_commit io (p_wal p) (mkWalCommit commit_seq (t_id txn) writes) with
        | (w, Err _) =>
            let s := rollback_in_memory_commit s (t_id txn) commit_seq write_blocks cow_blocks use_ssi in
            Ret (mkPersistent s w (p_stats p) (p_recovery p), Err (DurabilityFailure WalWriteFailed))
        | (w, Ok _) =>
            let st := p_stats p in
            let st := mkWalStats (replayed_commits st) (replayed_versions st) (write_pos w)
                        (add64 (commits_written st) 1) (checkpoints_created st)
                        (checkpoint_commit_seq st) in
            Ret (mkPersistent s w st (p_recovery p), Ok commit_seq)
        end
      end
    end
  end.

(** ** Delegated operations *)

Definition p_begin (p : PersistentMvccStore) : Transaction * PersistentMvccStore :=
  let '(txn, s) := begin (p_store p) in (txn, set_store p s).

Definition p_register_snapshot (p : PersistentMvccStore) (snapshot : Snapshot) : PersistentMvccStore :=
  set_store p (register_snapshot (p_store p) snapshot).

Definition p_release_snapshot (p : PersistentMvccStore) (snapshot : Snapshot) :
    outcome (PersistentMvccStore * bool) :=
  '(s, released) ← release_snapshot (p_store p) snapshot; Ret (set_store p s, released).

Definition p_read_visible (p : PersistentMvccStore) (block : Z) (snapshot : Snapshot) : option bytes :=
  read_visible (p_store p) block snapshot.

Definition p_current_snapshot (p : PersistentMvccStore) : Snapshot := current_snapshot (p_store p).

Definition sync (io : Io) (p : PersistentMvccStore) : PersistentMvccStore * res PersistError () :=
  match flush io (p_wal p) with
  | (w, Ok _) => (set_wal p w, Ok ())
  | (w, Err e) => (set_wal p w, Err (WalError e))
  end.

(** ** Publishing a checkpoint *)

(** What [path.metadata()] answers. *)
Inductive PathMeta := MetaFound (identity : Z * Z) | MetaNotFound | MetaError.

Definition io_failed : Z := 6.

Definition validate_checkpoint_destination (named : bool) (destination : PathMeta)
    (wal : option (Z * Z)) : res ReplayError () :=
  if negb named then Err (Refused 0 CheckpointDestination)
  else
    match destination with
    | MetaFound identity =>
        match wal with
        | None => Err (External io_failed)
        | Some wal => if bool_decide (identity = wal) then Err (Refused 0 CheckpointDestination) else Ok ()
        end
    | MetaNotFound => Ok ()
    | MetaError => Err (External io_failed)
    end.

(** The file at the checkpoint path: what a lookup of the path finds now, and
    what it finds after a crash if the directory was not synced since. *)
Record CheckpointFile := mkCheckpointFile { ck_visible : option bytes; ck_durable : option bytes }.

Record PublishIo := mkPublishIo {
  pi_named : bool;
  pi_destination : PathMeta;
  pi_wal : option (Z * Z);
  pi_directory : option bool;
  pi_tempfile : bool;
  pi_writes : list bool;
  pi_flush : bool;
  pi_sync : bool;
  pi_rename : bool;
  pi_sync_directory : bool;
}.

(** The temporary file's contents once it is flushed and synced. *)
Definition write_temporary (io : PublishIo) (s : MvccStore) : outcome (res ReplayError bytes) :=
  if negb (pi_tempfile io) then Ret (Err (External io_failed))
  else
    '(k, r) ← write_checkpoint (next_txn s) (next_commit s) (versions_snapshot s) (mkSink [] (pi_writes io));
    match r with
    | Err e => Ret (Err e)
    | Ok _ => if negb (pi_flush io && pi_sync io) then Ret (Err (External io_failed)) else Ret (Ok (sk_out k))
    end.

Definition checkpoint_with_directory_sync (io : PublishIo) (p : PersistentMvccStore) (ck : CheckpointFile) :
    outcome (PersistentMvccStore * CheckpointFile * res PersistError ()) :=
  match ensure_ready (p_wal p) with
  | Err e => Ret (p, ck, Err (WalError e))
  | Ok _ =>
    match validate_checkpoint_destination (pi_named io) (pi_destination io) (pi_wal io) with
    | Err e => Ret (p, ck, Err (FileError e))
    | Ok _ =>
      match pi_directory io with
      | None => Ret (p, ck, Err (FileError (External io_failed)))
      | Some false => Ret (p, ck, Err (FileError (Refused 0 CheckpointParentNotDirectory)))
      | Some true =>
        temporary ← write_temporary io (p_store p);
        match temporary with
        | Err e => Ret (p, ck, Err (FileError e))
        | Ok contents =>
          if negb (pi_rename io) then Ret (p, ck, Err (FileError (External io_failed)))
          else
            let ck := mkCheckpointFile (Some contents) (ck_durable ck) in
            if negb (pi_sync_directory io) then Ret (p, ck, Err (FileError (External io_failed)))
            else
              let ck := mkCheckpointFile (Some contents) (Some contents) in
              let st := p_stats p in
              let st := mkWalStats (replayed_commits st) (replayed_versions st) (wal_size_bytes st)
                          (commits_written st) (add64 (checkpoints_created st) 1)
                          (saturating_sub (next_commit (p_store p)) 1) in
              Ret (mkPersistent (p_store p) (p_wal p) st (p_recovery p), ck, Ok ())
        end
      end
    end
  end.

Definition truncate_wal (io : Io) (observed : option Z) (p : PersistentMvccStore) :
    PersistentMvccStore * res PersistError () :=
  match ensure_ready (p_wal p) with
  | Err e => (p, Err (WalError e))
  | Ok _ =>
    let current_commit_seq := saturating_sub (next_commit (p_store p)) 1 in
    if checkpoint_commit_seq (p_stats p) <? current_commit_seq
    then (p, Err (FileError (Refused 0 CheckpointStale)))
    else
      match truncate_after_checkpoint io observed (p_wal p) current_commit_seq with
      | (w, Err e) => (set_wal p w, Err (WalError e))
      | (w, Ok header_size) =>
          let st := p_stats p in
          let st := mkWalStats (replayed_commits st) (replayed_versions st) header_size
                      (commits_written st) (checkpoints_created st) (checkpoint_commit_seq st) in
          (mkPersistent (p_store p) w st (p_recovery p), Ok ())
      end
  end.

(** ** Applying a logged commit *)

Definition maybe_dedup (s : MvccStore) (block : Z) (new_bytes : bytes) : VersionData :=
  match versions s !! block with
  | Some versions =>
      if chain_identical_to_latest versions new_bytes then Identical
      else compress_data (compression_policy s) new_bytes
  | None => compress_data (compression_policy s) new_bytes
  end.

Definition apply_wal_write (commit_seq txn_id : Z) (s : MvccStore) (write : WalWrite) : MvccStore :=
  let version_data :=
    if dedup_identical (compression_policy s) then maybe_dedup s (ww_block write) (ww_data write)
    else compress_data (compression_policy s) (ww_data write) in
  push_version s (mkVersion (ww_block write) commit_seq txn_id version_data).

Definition apply_wal_commit (s : MvccStore) (commit : WalCommit) : MvccStore :=
  let s := if next_commit s <=? wc_commit_seq commit
           then set_counters s (next_txn s) (saturating_add u64_max (wc_commit_seq commit) 1) else s in
  let s := if next_txn s <=? wc_txn_id commit
           then set_counters s (saturating_add u64_max (wc_txn_id commit) 1) (next_commit s) else s in
  foldl (apply_wal_write (wc_commit_seq commit) (wc_txn_id commit)) s (wc_writes commit).

(** ** Admitting one owner of the log *)

Record Meta := mkMeta { m_identity : Z * Z; m_regular : bool; m_directory : bool }.

(** [None] is an error of the call. *)
Record AdmitIo := mkAdmitIo {
  ad_open : option Meta;
  ad_lock : option bool;
  ad_canonicalize : bool;
  ad_resolved : option (Z * Z);
  ad_target : option Meta;
  ad_requested : option Meta;
  ad_sync_file : bool;
  ad_sync_target : bool;
  ad_sync_requested : bool;
  ad_resolved_again : option (Z * Z);
  ad_path_again : option (Z * Z);
}.

Definition would_block : Z := 7.
Definition pathname_changed : Z := 8.

Definition verify_name (observed : option (Z * Z)) (owned : Z * Z) : res ReplayError () :=
  match observed with
  | None => Err (External io_failed)
  | Some identity => if bool_decide (identity = owned) then Ok () else Err (External pathname_changed)
  end.

(** The file after the barriers, and whether it is ours. *)
Definition open_owned_wal (io : AdmitIo) (file : WalFile) : WalFile * res ReplayError () :=
  match ad_open io with
  | None => (file, Err (External io_failed))
  | Some owned =>
    if negb (m_regular owned) then (file, Err (Refused 0 WalNotRegular))
    else
    match ad_lock io with
    | None => (file, Err (External io_failed))
    | Some false => (file, Err (External would_block))
    | Some true =>
      if negb (ad_canonicalize io) then (file, Err (External io_failed))
      else
      match verify_name (ad_resolved io) (m_identity owned) with
      | Err e => (file, Err e)
      | Ok _ =>
        match ad_target io, ad_requested io with
        | Some target, Some requested =>
          if negb (m_directory target && m_directory requested)
          then (file, Err (Refused 0 WalParentNotDirectory))
          else if negb (ad_sync_file io) then (file, Err (External io_failed))
          else
            let file := file_sync file in
            if negb (ad_sync_target io) then (file, Err (External io_failed))
            else if negb (bool_decide (m_identity target = m_identity requested))
                    && negb (ad_sync_requested io) then (file, Err (External io_failed))
            else
              match verify_name (ad_resolved_again io) (m_identity owned) with
              | Err e => (file, Err e)
              | Ok _ => (file, verify_name (ad_path_again io) (m_identity owned))
              end
        | _, _ => (file, Err (External io_failed))
        end
      end
    end
  end.

(** [WalWriter::create]: a fresh log, whatever the file held.  A failed
    [set_len] may have taken effect and a failed [write_all] may have written a
    part. *)
Record CreateIo := mkCreateIo {
  cr_admit : AdmitIo;
  cr_set_len : option bool;
  cr_write : option Z;
  cr_sync : bool;
}.

Definition create (io : CreateIo) (file : WalFile) (config : WalWriterConfig) :
    outcome (WalFile * res ReplayError WalWriter) :=
  match open_owned_wal (cr_admit io) file with
  | (file, Err e) => Ret (file, Err e)
  | (file, Ok _) =>
    match cr_set_len io with
    | Some took_effect =>
        Ret ((if took_effect then file_set_len file 0 else file), Err (External io_failed))
    | None =>
      let file := file_set_len file 0 in
      header_bytes ← encode_header default_header;
      match cr_write io with
      | Some landed =>
          Ret (file_write file 0 (take (Z.to_nat landed) header_bytes), Err (External io_failed))
      | None =>
        let file := file_write file 0 header_bytes in
        if negb (cr_sync io) then Ret (file, Err (External io_failed))
        else let file := file_sync file in Ret (file, Ok (writer_new file HEADER_SIZE config))
      end
    end
  end.

(** ** Opening *)

(** The answers of the calls of one [open], in the order of the code.  A failed
    [set_len] may have taken effect; a failed [write_all] may have written a
    part; [oi_observed] is the length seen before trimming. *)
Record OpenIo := mkOpenIo {
  oi_admit : AdmitIo;
  oi_try_exists : bool;
  oi_checkpoint : CheckpointIo;
  oi_checkpoint_script : list ReadAnswer;
  oi_metadata : bool;
  oi_seek : bool;
  oi_wal_script : list ReadAnswer;
  oi_observed : option Z;
  oi_set_len : option bool;
  oi_sync : bool;
  oi_header_write : option Z;
  oi_header_sync : bool;
}.

(** The log file, and the cancellations still to come. *)
Record Opening := mkOpening { ow_file : WalFile; ow_cancel : list bool }.

Definition cx_checkpoint : replayM Opening () := λ w,
  match ow_cancel w with
  | [] => Ret (w, Ok ())
  | cancelled :: rest =>
      Ret (mkOpening (ow_file w) rest, if cancelled : bool then Err Cancelled else Ok ())
  end.

(** [Read::read_exact] of the standard library: retries interruptions. *)
Fixpoint std_read_exact_loop (fuel : nat) (want : Z) (got : bytes) : replayM Source bytes :=
  if want <=? 0 then mret got
  else
    match fuel with
    | O => λ _, Panic
    | S fuel' =>
        r ← read_call want;
        match r with
        | None => std_read_exact_loop fuel' want got
        | Some [] => throw (External unexpected_eof)
        | Some b => std_read_exact_loop fuel' (want - zlen b) (got ++ b)
        end
    end.

Definition std_read_exact (want : Z) : replayM Source bytes := λ src,
  std_read_exact_loop (Z.to_nat want + length (src_script src)) want [] src.

Record ReplayStats := mkReplayStats {
  rs_outcome : ReplayOutcome;
  rs_commits_replayed : Z;
  rs_versions_replayed : Z;
  rs_records_discarded : Z;
}.

(** [decode_header(..)?] *)
Definition check_header {W} (b : bytes) : replayM W () := λ w,
  match decode_header b with
  | Ret (Ok _) => Ret (w, Ok ())
  | Ret (Err _) => Ret (w, Err (Refused 0 WalHeaderInvalid))
  | Panic => Panic
  end.

(** [file.take(data_bytes)] *)
Definition take_range (data_bytes : Z) : replayM (Replaying MvccStore) () := λ w,
  Ret (mkReplaying (rp_source w) data_bytes (rp_state w), Ok ()).

Definition replay_wal_from_seq (seek : bool) (skip_up_to_seq total_bytes : Z) :
    replayM (Replaying MvccStore) (Z * ReplayStats) :=
  _ ← on_source checkpoint;
  if negb seek then throw (External io_failed)
  else
    header_buf ← on_source (std_read_exact HEADER_SIZE);
    _ ← on_source checkpoint;
    _ ← check_header header_buf;
    if total_bytes <? HEADER_SIZE then throw (Refused 0 WalShorterThanHeader)
    else
      let data_bytes := total_bytes - HEADER_SIZE in
      _ ← take_range data_bytes;
      report ← replay_reader TruncateToLastGood data_bytes skip_up_to_seq
                 (λ s c, (apply_wal_commit s c, Ok ()));
      match report with
      | None => λ _, Panic
      | Some report =>
          match checked_add u64_max HEADER_SIZE (rr_last_valid_offset report) with
          | None => throw (Refused 0 WalPositionOverflow)
          | Some write_pos =>
              mret (write_pos, mkReplayStats (rr_outcome report) (rr_commits_replayed report)
                                 (rr_versions_replayed report) (rr_records_discarded report))
          end
      end.

(** Replay the whole file into [store]. *)
Definition on_wal {A} (io : OpenIo) (store : MvccStore) (m : replayM (Replaying MvccStore) A) :
    replayM Opening (A * MvccStore) := λ w,
  let src := mkSource (f_bytes (ow_file w)) (oi_wal_script io) (ow_cancel w) in
  match m (mkReplaying src 0 store) with
  | Ret (r, Ok a) => Ret (mkOpening (ow_file w) (src_cancel (rp_source r)), Ok (a, rp_state r))
  | Ret (r, Err e) => Ret (mkOpening (ow_file w) (src_cancel (rp_source r)), Err e)
  | Panic => Panic
  end.

(** [set_len] and [sync_all]. *)
Definition trim_tail (io : OpenIo) (valid_bytes : Z) : replayM Opening () := λ w,
  match oi_set_len io with
  | Some took_effect =>
      Ret (mkOpening (if took_effect then file_set_len (ow_file w) valid_bytes else ow_file w)
             (ow_cancel w), Err (External io_failed))
  | None =>
      let f := file_set_len (ow_file w) valid_bytes in
      if oi_sync io then Ret (mkOpening (file_sync f) (ow_cancel w), Ok ())
      else Ret (mkOpening f (ow_cancel w), Err (External io_failed))
  end.

Definition truncate_wal_tail_if_needed (io : OpenIo) (valid_bytes total_bytes : Z) : replayM Opening () :=
  _ ← cx_checkpoint;
  match oi_observed io with
  | None => throw (External io_failed)
  | Some observed_bytes =>
    if negb (observed_bytes =? total_bytes) then throw (Refused 0 WalLengthChanged)
    else if (valid_bytes <? HEADER_SIZE) || (total_bytes <? valid_bytes)
    then throw (Refused 0 InvalidRecoveryBoundary)
    else
      _ ← cx_checkpoint;
      if valid_bytes <? total_bytes then trim_tail io valid_bytes else mret ()
  end.

(** The header of a new log. *)
Definition write_header (io : OpenIo) : replayM Opening () := λ w,
  match encode_header default_header with
  | Panic => Panic
  | Ret header_bytes =>
      match oi_header_write io with
      | Some landed =>
          Ret (mkOpening (file_write (ow_file w) 0 (take (Z.to_nat landed) header_bytes)) (ow_cancel w),
               Err (External io_failed))
      | None =>
          let f := file_write (ow_file w) 0 header_bytes in
          if oi_header_sync io then Ret (mkOpening (file_sync f) (ow_cancel w), Ok ())
          else Ret (mkOpening f (ow_cancel w), Err (External io_failed))
      end
  end.

(** [file.metadata()?.len()] *)
Definition file_length (io : OpenIo) : replayM Opening Z := λ w,
  Ret (w, if oi_metadata io then Ok (zlen (f_bytes (ow_file w))) else Err (External io_failed)).

(** The writer over the recovered file, and the store around it. *)
Definition finish_open (options : PersistOptions) (store : MvccStore) (pos : Z) (stats : WalStats)
    (recovery : WalRecoveryReport) : replayM Opening PersistentMvccStore := λ w,
  let stats := mkWalStats (replayed_commits stats) (replayed_versions stats) pos
                 (commits_written stats) (checkpoints_created stats) (checkpoint_commit_seq stats) in
  let writer := writer_new (ow_file w) pos (to_writer_config options) in
  let writer := set_last_commit_seq writer (saturating_sub (next_commit store) 1) in
  Ret (w, Ok (mkPersistent store writer stats recovery)).

(** The part both entry points share, from reading the log's length on. *)
Definition open_log (io : OpenIo) (options : PersistOptions) (store : MvccStore) (skip_up_to_seq : Z)
    (stats : WalStats) (recovery : WalRecoveryReport) : replayM Opening PersistentMvccStore :=
  wal_total_bytes ← file_length io;
  if 0 <? wal_total_bytes then
    '(r, store) ← on_wal io store (replay_wal_from_seq (oi_seek io) skip_up_to_seq wal_total_bytes);
    let '(pos, rs) := r in
    _ ← truncate_wal_tail_if_needed io pos wal_total_bytes;
    finish_open options store pos
      (mkWalStats (rs_commits_replayed rs) (rs_versions_replayed rs) (wal_size_bytes stats)
         (commits_written stats) (checkpoints_created stats) (checkpoint_commit_seq stats))
      (mkRecovery (rs_outcome rs) (rs_commits_replayed rs) (rs_versions_replayed rs)
         (rs_records_discarded rs) pos wal_total_bytes (rc_used_checkpoint recovery)
         (rc_checkpoint_commit_seq recovery))
  else
    _ ← cx_checkpoint;
    _ ← write_header io;
    finish_open options store HEADER_SIZE stats recovery.

Definition admit_wal (io : OpenIo) : replayM Opening () := λ w,
  let '(f, r) := open_owned_wal (oi_admit io) (ow_file w) in Ret (mkOpening f (ow_cancel w), r).

Definition on_checkpoint_file (io : OpenIo) (contents : bytes) (store : MvccStore) :
    replayM Opening MvccStore := λ w,
  match load_checkpoint (oi_checkpoint io) store
          (mkSource contents (oi_checkpoint_script io) (ow_cancel w)) with
  | Ret (src, r) => Ret (mkOpening (ow_file w) (src_cancel src), r)
  | Panic => Panic
  end.

(** The log only. *)
Definition open_with_options (io : OpenIo) (options : PersistOptions) :
    replayM Opening PersistentMvccStore :=
  _ ← cx_checkpoint;
  _ ← admit_wal io;
  _ ← cx_checkpoint;
  open_log io options store_new 0 default_stats default_recovery.

(** The checkpoint, if there is one at the path, and the log after it. *)
Definition open_with_checkpoint_and_options (io : OpenIo) (options : PersistOptions)
    (checkpoint_file : option bytes) : replayM Opening PersistentMvccStore :=
  _ ← cx_checkpoint;
  _ ← admit_wal io;
  _ ← cx_checkpoint;
  if negb (oi_try_exists io) then throw (External io_failed)
  else
    match checkpoint_file with
    | Some contents =>
        store ← on_checkpoint_file io contents store_new;
        _ ← cx_checkpoint;
        let ckpt_seq := saturating_sub (next_commit store) 1 in
        _ ← cx_checkpoint;
        open_log io options store ckpt_seq (mkWalStats 0 0 0 0 0 ckpt_seq)
          (mkRecovery EmptyLog 0 0 0 0 0 true (Some ckpt_seq))
    | None =>
        _ ← cx_checkpoint;
        open_log io options store_new (saturating_sub (next_commit store_new) 1) default_stats
          default_recovery
    end.

Definition open (io : OpenIo) (checkpoint_file : option bytes) : replayM Opening PersistentMvccStore :=
  _ ← cx_checkpoint; open_with_checkpoint_and_options io default_options checkpoint_file.
End persist.
