(* ===== verification/PersistLemmas.v ===== *)
(** * Store-level facts behind the durable store

    The newest bytes of each block, and how the operations [Persist] adds to
    the store change them: replaying a logged commit appends it, undoing a
    commit restores the store it was made on, and the bytes that go to the log
    are the bytes that go to the chains. *)

From stdpp Require Import base sorting numbers gmap list.
From S2P Require Import Prelude Sorted Merge Chain Txn Policy Metrics Store StoreLemmas StoreInv.
From S2P Require Import StoreCorrect StoreTyped Wal WalReplay WalWriter WalReader Checkpoint Persist.

Local Open Scope Z_scope.

(** ** What a history of commits says about a block *)

Fixpoint write_of (b : Z) (ws : list WalWrite) : option bytes :=
  match ws with
  | [] => None
  | w :: ws' => if b =? ww_block w then Some (ww_data w) else write_of b ws'
  end.

Definition after_commit (b : Z) (old : option bytes) (c : WalCommit) : option bytes :=
  match write_of b (wc_writes c) with Some d => Some d | None => old end.

(** The bytes of block [b] after the commits of [h]. *)
Definition contents (h : list WalCommit) (b : Z) : option bytes := foldl (after_commit b) None h.

(** A commit as the store logs it: encodable, at most one write per block. *)
Definition well_logged (c : WalCommit) : Prop := loggable c ∧ NoDup (ww_block <$> wc_writes c).

Lemma contents_snoc h c b : contents (h ++ [c]) b = after_commit b (contents h b) c.
Proof. unfold contents. by rewrite foldl_app. Qed.

Lemma write_of_elem b ws d : write_of b ws = Some d → mkWalWrite b d ∈ ws.
Proof.
  induction ws as [|[b0 d0] ws IH]; simpl; [done|].
  destruct (Z.eqb_spec b b0) as [->|]; [intros [= ->]; left|right; auto].
Qed.

Section newest.
Context `{VersionCodec}.

(** ** The newest bytes *)

Definition newest (s : MvccStore) (b : Z) : option bytes :=
  chain ← versions s !! b; resolve_walk chain bv_data (pred (length chain)).

Lemma resolve_newest n b c h : chain_ok n b c → n - 1 <= h →
  resolve_version_bytes_at_or_before c h = resolve_walk c bv_data (pred (length c)).
Proof.
  intros Hok Hh. pose proof (chain_ok_sorted _ _ _ Hok) as Hs. destruct Hok as (Hne&_&Hall&_).
  unfold resolve_version_bytes_at_or_before, newest_visible_index.
  rewrite (proj2 (newest_visible_index_Some _ _ h (pred (length c)) Hs)).
  - simpl. apply resolve_data_walk.
  - destruct (last c) as [v|] eqn:Hv; [|by apply last_None in Hv]. rewrite last_lookup in Hv.
    split; [exists v; split; [done|]|].
    + apply (Forall_lookup_1 _ _ _ _ Hall) in Hv. lia.
    + intros j y Hy _. apply lookup_lt_Some in Hy. lia.
Qed.

(** A snapshot at or above the last commit reads the newest bytes. *)
Lemma read_newest s b snap : store_wf s → next_commit s - 1 <= high snap →
  read_visible s b snap = newest s b.
Proof.
  intros Hs Hh. unfold newest. destruct (versions s !! b) as [c|] eqn:Hc.
  - rewrite (read_visible_chain s b snap c Hc). simpl. eapply resolve_newest; [|exact Hh].
    by apply (wf_chains _ Hs).
  - unfold read_visible. by rewrite Hc.
Qed.

Lemma read_current s b : store_wf s → read_visible s b (current_snapshot s) = newest s b.
Proof.
  intros Hs. apply read_newest; [done|]. simpl. unfold saturating_sub. lia.
Qed.

Lemma newest_versions s s' b : versions s' !! b = versions s !! b → newest s' b = newest s b.
Proof. intros Hv. unfold newest. by rewrite Hv. Qed.

Lemma newest_core s s' b : same_core s s' → newest s' b = newest s b.
Proof. intros Hc. apply newest_versions. by rewrite (sc_versions _ _ Hc). Qed.

(** ** Replaying a logged commit *)

Lemma replay_version_data s b data :
  (if dedup_identical (compression_policy s) then maybe_dedup s b data
   else compress_data (compression_policy s) data) =
  version_data_for (compression_policy s) (default [] (versions s !! b)) data.
Proof.
  unfold version_data_for, maybe_dedup, compress_data.
  destruct (dedup_identical _); simpl; [|by destruct (algo _)].
  destruct (versions s !! b) as [c|]; simpl; [|by destruct (algo _)].
  destruct (chain_identical_to_latest c data); [done|]. by destruct (algo _).
Qed.

Lemma apply_wal_write_versions seq id s w b :
  versions (apply_wal_write seq id s w) !! b =
  if decide (b = ww_block w)
  then Some (default [] (versions s !! b) ++
             [mkVersion b seq id (version_data_for (compression_policy s) (default [] (versions s !! b)) (ww_data w))])
  else versions s !! b.
Proof.
  unfold apply_wal_write. rewrite replay_version_data. unfold push_version. simpl.
  destruct (decide (b = ww_block w)) as [->|Hne]; [by rewrite lookup_insert_eq|].
  by rewrite lookup_insert_ne.
Qed.

(** Everything but the chains is untouched. *)
Lemma apply_wal_writes_frame seq id ws s :
  let s' := foldl (apply_wal_write seq id) s ws in s' = set_versions s (versions s').
Proof.
  revert s. induction ws as [|w ws IH]; intros s; simpl; [by destruct s|].
  specialize (IH (apply_wal_write seq id s w)). simpl in IH. by rewrite IH at 1.
Qed.

Lemma apply_wal_writes_versions seq id ws s b :
  NoDup (ww_block <$> ws) →
  versions (foldl (apply_wal_write seq id) s ws) !! b =
  match write_of b ws with
  | Some data => Some (default [] (versions s !! b) ++
      [mkVersion b seq id (version_data_for (compression_policy s) (default [] (versions s !! b)) data)])
  | None => versions s !! b
  end.
Proof.
  revert s. induction ws as [|w ws IH]; intros s; [done|]. rewrite fmap_cons, NoDup_cons.
  intros [Hw Hnd]. cbn [foldl write_of]. rewrite (IH _ Hnd), apply_wal_write_versions.
  assert (compression_policy (apply_wal_write seq id s w) = compression_policy s) as -> by done.
  destruct (Z.eqb_spec b (ww_block w)) as [->|Hne]; [|by rewrite decide_False].
  rewrite decide_True by done. destruct (write_of (ww_block w) ws) as [d|] eqn:Hd; [|done].
  destruct Hw. apply write_of_elem in Hd. apply list_elem_of_fmap. by exists (mkWalWrite (ww_block w) d).
Qed.

(** The counters a replayed commit leaves. *)
Lemma apply_wal_commit_counters s c :
  next_commit s <= wc_commit_seq c < u64_max → wc_txn_id c < u64_max →
  apply_wal_commit s c =
  foldl (apply_wal_write (wc_commit_seq c) (wc_txn_id c))
    (set_counters s (Z.max (next_txn s) (wc_txn_id c + 1)) (wc_commit_seq c + 1)) (wc_writes c).
Proof.
  intros Hc Ht. unfold apply_wal_commit. rewrite (proj2 (Z.leb_le (next_commit s) _)) by lia.
  unfold saturating_add. rewrite !Z.min_l by lia. simpl.
  destruct (Z.leb_spec (next_txn s) (wc_txn_id c)); [by rewrite Z.max_r by lia|].
  by rewrite Z.max_l by lia.
Qed.

Lemma apply_wal_commit_ok s c :
  store_wf s → store_typed s → well_logged c →
  next_commit s <= wc_commit_seq c → wc_commit_seq c ≠ u64_max → wc_txn_id c ≠ u64_max →
  let s' := apply_wal_commit s c in
  store_wf s' ∧ store_typed s' ∧ next_commit s' = wc_commit_seq c + 1 ∧
  compression_policy s' = compression_policy s ∧
  ∀ b, newest s' b = after_commit b (newest s b) c.
Proof.
  intros Hs Ht [[(Hseq&Hid&Hws) _] Hnd] Hn Hsmax Hidmax. rewrite apply_wal_commit_counters by lia.
  set (s1 := set_counters s _ _). set (s' := foldl _ _ _). cbv zeta.
  pose proof (apply_wal_writes_frame (wc_commit_seq c) (wc_txn_id c) (wc_writes c) s1) as Hf.
  fold s' in Hf. cbv zeta in Hf.
  assert (∀ b, versions s' !! b = match write_of b (wc_writes c) with
    | Some data => Some (default [] (versions s !! b) ++
        [mkVersion b (wc_commit_seq c) (wc_txn_id c)
           (version_data_for (compression_policy s) (default [] (versions s !! b)) data)])
    | None => versions s !! b end) as Hv
    by (intros b; unfold s'; by rewrite apply_wal_writes_versions).
  pose proof Hs as []. split; [|split; [|split; [|split]]].
  - rewrite Hf. constructor; simpl; try done; [lia..| | |].
    + intros b ch. rewrite Hv. destruct (write_of b (wc_writes c)) as [d|].
      * intros [= <-]. apply chain_ok_push; [lia|].
        destruct (chain_lookup_ok s b Hs) as [?|?]; [by left|right]. by eapply chain_ok_weaken.
      * intros Hb. eapply chain_ok_weaken; [|by apply wf_chains]. lia.
    + eapply map_Forall_impl; [done|]. intros b ch. apply phys_ok_weaken. lia.
    + eapply log_ok_weaken; [|done]. lia.
  - intros b ch. rewrite Hv. rewrite Hf. simpl. destruct (write_of b (wc_writes c)) as [d|] eqn:Hd.
    + intros [= <-]. apply write_of_elem in Hd. rewrite Forall_forall in Hws.
      apply Hws in Hd as [? ?]. simpl in *. apply chain_typed_push; [done|lia|done|].
      destruct (versions s !! b) as [ch|] eqn:Hb; [right|by left]. simpl.
      eapply chain_typed_weaken; [|by apply Ht]. lia.
    + intros Hb. eapply chain_typed_weaken; [|by apply Ht]. lia.
  - by rewrite Hf.
  - by rewrite Hf.
  - intros b. unfold after_commit, newest at 1. rewrite Hv.
    destruct (write_of b (wc_writes c)) as [d|]; [|done].
    cbn [mbind option_bind]. rewrite length_app. simpl. rewrite Nat.add_1_r. simpl.
    by eapply version_data_for_resolve.
Qed.
End newest.

(** ** Undoing a commit *)

Definition popped {T} (seq_of writer_of : T → Z) (commit_seq txn_id : Z) (o : option (list T)) :
    option (list T) :=
  o ≫= λ versions,
    let versions := match last versions with
                    | Some v => if (seq_of v =? commit_seq) && (writer_of v =? txn_id)
                                then removelast versions else versions
                    | None => versions
                    end in
    match versions with [] => None | _ => Some versions end.

Lemma pop_version_lookup {T} (seq_of writer_of : T → Z) seq id m b0 b :
  pop_version seq_of writer_of seq id m b0 !! b =
  if decide (b = b0) then popped seq_of writer_of seq id (m !! b) else m !! b.
Proof.
  unfold pop_version, popped. destruct (decide (b = b0)) as [->|Hne].
  - destruct (m !! b0) as [vs|] eqn:Hm; [|done]. simpl.
    set (vs1 := match last vs with Some _ => _ | None => _ end). destruct vs1 as [|v vs'].
    + by rewrite lookup_delete_eq.
    + by rewrite lookup_insert_eq.
  - destruct (m !! b0) as [vs|]; [|done].
    set (vs1 := match last vs with Some _ => _ | None => _ end). destruct vs1 as [|v vs'].
    + by rewrite lookup_delete_ne.
    + by rewrite lookup_insert_ne.
Qed.

Lemma pop_versions_lookup {T} (seq_of writer_of : T → Z) seq id bs m b : NoDup bs →
  foldl (pop_version seq_of writer_of seq id) m bs !! b =
  if decide (b ∈ bs) then popped seq_of writer_of seq id (m !! b) else m !! b.
Proof.
  revert m. induction bs as [|b0 bs IH]; intros m; cbn [foldl].
  { intros _. by rewrite decide_False by (by intros ?%elem_of_nil). }
  intros [Hb0 Hnd]%NoDup_cons. rewrite IH, pop_version_lookup by done.
  destruct (decide (b = b0)) as [->|Hne].
  - by rewrite decide_False, decide_True by (done || left).
  - destruct (decide (b ∈ bs)) as [Hin|Hin]; [by rewrite decide_True by (by right)|].
    rewrite decide_False; [done|]. by intros [?|?]%elem_of_cons.
Qed.

(** Popping a version the commit pushed. *)
Lemma popped_snoc {T} (seq_of writer_of : T → Z) seq id c v :
  seq_of v = seq → writer_of v = id →
  popped seq_of writer_of seq id (Some (c ++ [v])) = match c with [] => None | _ => Some c end.
Proof.
  intros <- <-. unfold popped. simpl. by rewrite last_snoc, !Z.eqb_refl, removelast_last.
Qed.

(** Trimming stops at the cap. *)
Lemma trim_loop_room {T} fuel (seq_of : T → Z) l max_len wm trim :
  let t := trim_loop fuel seq_of l max_len wm trim in
  t = trim ∨ max_len <= zlen l - Z.of_nat t.
Proof.
  revert trim. induction fuel as [|fuel IH]; intros trim; cbn; [by left|].
  destruct (Z.ltb_spec max_len (saturating_sub (zlen l) (Z.of_nat trim))) as [Hlt|]; [|by left].
  destruct (l !! S trim) as [v|] eqn:Hv; [|by left]. destruct (wm <? seq_of v); [by left|].
  right. apply lookup_lt_Some in Hv. destruct (IH (S trim)) as [->|?]; [|done].
  unfold saturating_sub, zlen in *. lia.
Qed.

Section undo.
Context `{VersionCodec} `{UnstableSort}.

Lemma drain_chain_snoc c v k : (k < length c)%nat → drain_chain (c ++ [v]) k = drain_chain c k ++ [v].
Proof.
  intros Hk. unfold drain_chain.
  assert (make_chain_head_full (c ++ [v]) k = make_chain_head_full c k ++ [v]) as ->.
  { unfold make_chain_head_full. rewrite lookup_app_l by done. destruct (c !! k) as [x|]; [|done].
    destruct (is_identical (bv_data x)); [|done].
    rewrite !resolve_data_walk, resolve_walk_app by done. destruct (resolve_walk c bv_data k); [|done].
    by rewrite insert_app_l. }
  rewrite drop_app_le by (rewrite make_chain_head_full_length; lia). done.
Qed.

(** With a cap of at least two, trimming keeps the newest version and one before it. *)
Lemma trim_pushed c v max_len wm : 2 <= max_len →
  ∃ c', (trim_block_chain_to_cap (c ++ [v]) max_len wm).1 = c' ++ [v] ∧
    (c' = c ∨ ∃ k x, c' = drain_chain c k ∧ c !! k = Some x ∧ bv_commit_seq x <= wm).
Proof.
  intros Hmax. unfold trim_block_chain_to_cap.
  set (l := c ++ [v]). assert (length l = S (length c)) as Hlen
    by (unfold l; rewrite length_app; simpl; lia).
  destruct (trim_loop_spec (length l) bv_commit_seq l max_len wm 0) as (Hb&Hor&_); [lia..|].
  pose proof (trim_loop_room (length l) bv_commit_seq l max_len wm 0) as Hroom.
  set (t := trim_loop _ _ _ _ _ _) in *. cbv zeta in Hroom.
  destruct (Nat.ltb_spec 0 t) as [Ht|Ht]; [|exists c; split; [done|by left]].
  destruct Hroom as [?|Hroom]; [lia|]. destruct Hor as [?|(x&Hx&Hle)]; [lia|].
  unfold zlen in Hroom. assert (t < length c)%nat as Htc by lia. simpl.
  exists (drain_chain c t). split; [by apply drain_chain_snoc|]. right. exists t, x.
  unfold l in Hx. by rewrite lookup_app_l in Hx by done.
Qed.

Lemma trim_physical_pushed c v max_len wm : 2 <= max_len →
  ∃ k, trim_physical_chain_to_cap (c ++ [v]) max_len wm = drop k c ++ [v] ∧
    (k = 0%nat ∨ ∃ x, c !! k = Some x ∧ pv_commit_seq x <= wm).
Proof.
  intros Hmax. unfold trim_physical_chain_to_cap. set (l := c ++ [v]).
  assert (length l = S (length c)) as Hlen by (unfold l; rewrite length_app; simpl; lia).
  destruct (trim_loop_spec (length l) pv_commit_seq l max_len wm 0) as (Hb&Hor&_); [lia..|].
  pose proof (trim_loop_room (length l) pv_commit_seq l max_len wm 0) as Hroom.
  set (t := trim_loop _ _ _ _ _ _) in *. cbv zeta in Hroom.
  destruct (Nat.ltb_spec 0 t) as [Ht|Ht]; [|exists 0%nat; split; [done|by left]].
  destruct Hroom as [?|Hroom]; [lia|]. destruct Hor as [?|(x&Hx&Hle)]; [lia|].
  unfold zlen in Hroom. assert (t < length c)%nat as Htc by lia. simpl.
  exists t. unfold l in *. split; [apply drop_app_le; lia|]. right. exists x.
  by rewrite lookup_app_l in Hx by done.
Qed.

Lemma trim_physical_drop c max_len wm : c ≠ [] →
  ∃ k, trim_physical_chain_to_cap c max_len wm = drop k c ∧
    (k = 0%nat ∨ ∃ x, c !! k = Some x ∧ pv_commit_seq x <= wm).
Proof.
  intros Hne. unfold trim_physical_chain_to_cap. assert (0 < length c)%nat by (destruct c; simpl; [done|lia]).
  destruct (trim_loop_spec (length c) pv_commit_seq c max_len wm 0) as (_&Hor&_); [lia..|].
  set (t := trim_loop _ _ _ _ _ _) in *.
  destruct (Nat.ltb_spec 0 t); [|exists 0%nat; split; [done|by left]].
  exists t. split; [done|]. destruct Hor as [?|?]; [lia|by right].
Qed.

(** [s'] is [s], but versions that a newer one at or below [wm] shadows may be
    gone, and snapshots and telemetry may have moved. *)
Record undone (wm : Z) (s s' : MvccStore) : Prop := {
  un_next_txn : next_txn s' = next_txn s;
  un_next_commit : next_commit s' = next_commit s;
  un_ssi_log : ssi_log s' = ssi_log s;
  un_compression : compression_policy s' = compression_policy s;
  un_versions : ∀ b, versions s' !! b = versions s !! b ∨
    ∃ c k x, versions s !! b = Some c ∧ versions s' !! b = Some (drain_chain c k) ∧
             c !! k = Some x ∧ bv_commit_seq x <= wm;
  un_physical : ∀ b, physical_versions s' !! b = physical_versions s !! b ∨
    ∃ c k x, physical_versions s !! b = Some c ∧ physical_versions s' !! b = Some (drop k c) ∧
             c !! k = Some x ∧ pv_commit_seq x <= wm;
}.

Lemma write_set_keys_elem txn b : sm_wf (staged_writes txn) →
  b ∈ write_set_keys txn ↔ is_Some (sm_get b (staged_writes txn)).
Proof.
  intros Hwf. unfold write_set_keys. rewrite list_elem_of_fmap. split.
  - intros ([b' st]&->&Hin). exists st. by apply sm_get_elem.
  - intros [st Hst]. exists (b, st). split; [done|]. by apply sm_get_elem.
Qed.

Lemma sm_keys_nodup {V} (m : smap V) : sm_wf m → NoDup m.*1.
Proof.
  induction m as [|[k v] m IH]; [constructor|]. intros [Hk Hwf]%sm_wf_cons. rewrite fmap_cons.
  constructor; [|by apply IH]. intros ([k' v']&Heq&Hin)%list_elem_of_fmap. simpl in Heq. subst.
  specialize (Hk _ Hin). simpl in Hk. lia.
Qed.

(** What undoing an installed write leaves of its chain. *)
Lemma popped_chain sp seq id b data : store_wf sp → seq = next_commit sp →
  (∀ cap, max_chain_length (compression_policy sp) = Some cap → 2 <= cap) →
  let sc := set_counters sp (next_txn sp) (seq + 1) in
  let o := popped bv_commit_seq bv_writer seq id
             (Some (installed_chain sc b (installed_version sp seq id b data))) in
  o = versions sp !! b ∨
  ∃ c k x, versions sp !! b = Some c ∧ o = Some (drain_chain c k) ∧ c !! k = Some x ∧
           bv_commit_seq x <= gc_watermark sc.
Proof.
  intros Hs Hseq Hcap sc. set (v := installed_version sp seq id b data).
  assert (∃ c', installed_chain sc b v = c' ++ [v] ∧ (c' = default [] (versions sp !! b) ∨
    ∃ k x, c' = drain_chain (default [] (versions sp !! b)) k ∧
      default [] (versions sp !! b) !! k = Some x ∧ bv_commit_seq x <= gc_watermark sc)) as (c'&->&Hc').
  { unfold installed_chain. simpl. destruct (max_chain_length _) as [cap|] eqn:Hm; [|eauto].
    apply trim_pushed. specialize (Hcap _ eq_refl). lia. }
  cbv zeta. rewrite popped_snoc by done. destruct Hc' as [->|(k&x&->&Hx&Hle)].
  - left. destruct (versions sp !! b) as [c|] eqn:Hb; simpl; [|done].
    apply (wf_chains _ Hs) in Hb as [? _]. by destruct c.
  - right. destruct (versions sp !! b) as [c|] eqn:Hb; simpl in *; [|done].
    exists c, k, x. split_and!; [done| |done..].
    destruct (drain_chain c k) eqn:E; [|done]. apply (f_equal length) in E.
    rewrite drain_chain_length in E. simpl in E. apply lookup_lt_Some in Hx. lia.
Qed.

Lemma popped_physical sp seq id b intent : store_wf sp → seq = next_commit sp →
  (∀ cap, max_chain_length (compression_policy sp) = Some cap → 2 <= cap) →
  let sc := set_counters sp (next_txn sp) (seq + 1) in
  let o := installed_physical sc seq id b intent in
  let o := match intent with Some _ => popped pv_commit_seq pv_writer seq id o | None => o end in
  o = physical_versions sp !! b ∨
  ∃ c k x, physical_versions sp !! b = Some c ∧ o = Some (drop k c) ∧ c !! k = Some x ∧
           pv_commit_seq x <= gc_watermark sc.
Proof.
  intros Hs Hseq Hcap sc. unfold installed_physical. simpl. destruct intent as [i|].
  - set (v := mkPhysical _ _ _ _). set (pc := default [] (physical_versions sp !! b)).
    assert (∃ k, match max_chain_length (compression_policy sp) with
      | Some cap => (λ c, trim_physical_chain_to_cap c (Z.max cap 1) (gc_watermark sc)) <$> Some (pc ++ [v])
      | None => Some (pc ++ [v]) end = Some (drop k pc ++ [v]) ∧
      (k = 0%nat ∨ ∃ x, pc !! k = Some x ∧ pv_commit_seq x <= gc_watermark sc)) as (k&->&Hk).
    { destruct (max_chain_length _) as [cap|] eqn:Hm; [|exists 0%nat; split; [done|by left]].
      specialize (Hcap _ eq_refl). destruct (trim_physical_pushed pc v (Z.max cap 1) (gc_watermark sc))
        as (k&Hk&?); [lia|]. exists k. simpl. by rewrite Hk. }
    rewrite popped_snoc by done. destruct Hk as [->|(x&Hx&Hle)].
    + left. rewrite drop_0. unfold pc. destruct (physical_versions sp !! b) as [c|] eqn:Hb; simpl; [|done].
      apply (wf_physical _ Hs) in Hb as [? _]. by destruct c.
    + right. unfold pc in *. destruct (physical_versions sp !! b) as [c|] eqn:Hb; simpl in *; [|done].
      exists c, k, x. split_and!; [done| |done..]. destruct (drop k c) eqn:E; [|done].
      apply (f_equal length) in E. rewrite length_drop in E. simpl in E. apply lookup_lt_Some in Hx. lia.
  - destruct (physical_versions sp !! b) as [c|] eqn:Hb; [|left; by destruct (max_chain_length _)].
    destruct (max_chain_length _) as [cap|]; [|by left]. simpl.
    destruct (trim_physical_drop c (Z.max cap 1) (gc_watermark sc)) as (k&->&[->|(x&?&?)]);
      [by apply (wf_physical _ Hs) in Hb as [? _]|by left|right; eauto 10].
Qed.

(** The five pieces [rollback_in_memory_commit] puts back. *)
Lemma rollback_undone sp s1 s2 txn seq merged (use_ssi : bool) :
  store_wf sp → sm_wf (staged_writes txn) →
  (∀ cap, max_chain_length (compression_policy sp) = Some cap → 2 <= cap) →
  installed sp seq txn merged s1 → same_core s1 s2 →
  ssi_log s1 = (if use_ssi then ssi_log sp ++ [ssi_record txn seq] else ssi_log sp) →
  let s' := rollback_in_memory_commit s2 (t_id txn) seq (write_set_keys txn)
              (filter (λ b, is_Some (staged_physical txn b)) (write_set_keys txn)) use_ssi in
  undone (gc_watermark (set_counters sp (next_txn sp) (seq + 1))) sp s' ∧
  active_snapshots s' = active_snapshots s2 ∧
  force_advanced_releases s' = force_advanced_releases s2 ∧
  contention_metrics s' = contention_metrics s2 ∧ telemetry s' = telemetry s2.
Proof.
  intros Hs Hwf Hcap Hin Hc Hlog s'. pose proof (ins_seq _ _ _ _ _ Hin) as Hseq.
  assert (NoDup (write_set_keys txn)) as Hnd by by apply sm_keys_nodup.
  set (cows := filter (λ b, is_Some (staged_physical txn b)) (write_set_keys txn)) in *.
  assert (versions s' = foldl (pop_version bv_commit_seq bv_writer seq (t_id txn)) (versions s2)
    (write_set_keys txn) ∧
    physical_versions s' = foldl (pop_version pv_commit_seq pv_writer seq (t_id txn))
      (physical_versions s2) cows ∧
    next_txn s' = next_txn s2 ∧ next_commit s' = seq ∧ compression_policy s' = compression_policy s2 ∧
    ssi_log s' = ssi_log sp ∧ active_snapshots s' = active_snapshots s2 ∧
    force_advanced_releases s' = force_advanced_releases s2 ∧
    contention_metrics s' = contention_metrics s2 ∧ telemetry s' = telemetry s2)
    as (Hv&Hp&Hnt&Hnc&Hcp&Hl&Ha&Hfo&Hcm&Ht).
  { rewrite <-(sc_ssi_log _ _ Hc) in Hlog. unfold s', rollback_in_memory_commit. destruct use_ssi; [|done].
    simpl. rewrite Hlog, last_snoc. simpl. rewrite !Z.eqb_refl. simpl. by rewrite removelast_last. }
  split; [|done]. constructor.
  - by rewrite Hnt, (sc_next_txn _ _ Hc), (ins_next_txn _ _ _ _ _ Hin).
  - by rewrite Hnc.
  - done.
  - by rewrite Hcp, (sc_compression _ _ Hc), (ins_compression _ _ _ _ _ Hin).
  - intros b. rewrite Hv, pop_versions_lookup, (sc_versions _ _ Hc) by done.
    rewrite (ins_versions _ _ _ _ _ Hin b).
    destruct (sm_get b (staged_writes txn)) as [st|] eqn:Hst.
    + rewrite decide_True by (apply write_set_keys_elem; [done|by rewrite Hst]).
      by apply popped_chain.
    + rewrite decide_False by (rewrite write_set_keys_elem, Hst by done; by intros []). by left.
  - intros b. rewrite Hp, pop_versions_lookup, (sc_physical _ _ Hc) by by apply NoDup_filter.
    rewrite (ins_physical _ _ _ _ _ Hin b).
    assert (b ∈ cows ↔ is_Some (sm_get b (staged_writes txn)) ∧ is_Some (sm_get b (cow_writes txn))) as Hb.
    { unfold cows, staged_physical. rewrite list_elem_of_filter, write_set_keys_elem, fmap_is_Some by done. tauto. }
    destruct (sm_get b (staged_writes txn)) as [st|] eqn:Hst.
    + pose proof (popped_physical sp seq (t_id txn) b (sm_get b (cow_writes txn)) Hs Hseq Hcap) as Hpp.
      cbv zeta in Hpp. destruct (sm_get b (cow_writes txn)) as [i|].
      * by rewrite decide_True by (apply Hb; eauto).
      * rewrite decide_False by (rewrite Hb; by intros [_ []]). done.
    + rewrite decide_False by (rewrite Hb; by intros [[] _]). by left.
Qed.

Lemma undone_wf wm s s' : undone wm s s' → store_wf s →
  snapshots_ok (active_snapshots s') → snapshots_ok (force_advanced_releases s') →
  metrics_wf (contention_metrics s') → runtime_wf (runtime_metrics (telemetry s')) → store_wf s'.
Proof.
  intros [Hnt Hnc Hl _ Hv Hp] [] ????. constructor; rewrite ?Hnt, ?Hnc, ?Hl; try done.
  - intros b c Hb. destruct (Hv b) as [Heq|(c0&k&x&Hc0&Hk&Hx&_)]; [apply wf_chains; congruence|].
    assert (c = drain_chain c0 k) as -> by congruence.
    apply chain_ok_drain; [by eapply lookup_lt_Some|by apply wf_chains].
  - intros b c Hb. destruct (Hp b) as [Heq|(c0&k&x&Hc0&Hk&Hx&_)]; [apply wf_physical; congruence|].
    assert (c = drop k c0) as -> by congruence.
    apply phys_ok_drop; [by eapply lookup_lt_Some|by apply wf_physical].
Qed.

Lemma undone_typed wm s s' : undone wm s s' → store_typed s → store_typed s'.
Proof.
  intros [Hnt _ _ _ Hv _] Ht b c Hb. rewrite Hnt.
  destruct (Hv b) as [Heq|(c0&k&x&Hc0&Hk&Hx&_)]; [apply Ht; congruence|].
  assert (c = drain_chain c0 k) as -> by congruence. by apply chain_typed_drain, Ht.
Qed.

Lemma undone_newest wm s s' b : undone wm s s' → newest s' b = newest s b.
Proof.
  intros [_ _ _ _ Hv _]. unfold newest. destruct (Hv b) as [->|(c&k&x&->&->&Hx&_)]; [done|].
  apply lookup_lt_Some in Hx. cbn [mbind option_bind]. rewrite drain_chain_length, drain_chain_resolve by lia.
  f_equal. lia.
Qed.

Lemma undone_reads wm s s' b snap : store_wf s → undone wm s s' → wm <= high snap →
  read_visible s' b snap = read_visible s b snap.
Proof.
  intros Hs [_ _ _ _ Hv _] Hle. unfold read_visible.
  destruct (Hv b) as [->|(c&k&x&Hc&->&Hx&Hlx)]; [done|]. rewrite Hc. cbn [mbind option_bind].
  apply (drain_chain_read c k x); [|done|lia]. eapply chain_ok_sorted. by apply (wf_chains _ Hs).
Qed.
End undo.

(** ** What is logged is what is installed *)

Section logged.
Context `{VersionCodec} `{UnstableSort}.

(** Whether the base is the recorded one or empty, a merge that succeeds with
    both gives the same bytes. *)
Lemma merge_bytes_base p base latest staged m m' :
  merge_bytes p base latest staged = Ret (Some m) → merge_bytes p [] latest staged = Ret (Some m') →
  m = m'.
Proof.
  assert (∀ rs, merge_non_overlapping_ranges rs base latest staged = Ret (Some m) →
    merge_non_overlapping_ranges rs [] latest staged = Ret (Some m') → m = m') as Hr.
  { intros rs. unfold merge_non_overlapping_ranges. intros (v&_&Hm)%outcome_bind_Ret.
    intros (v'&_&Hm')%outcome_bind_Ret. destruct v, v'; [|done..]. simpl in *. congruence. }
  destruct p; simpl; try done; eauto.
  - intros (v&_&Hm)%outcome_bind_Ret. intros (v'&_&Hm')%outcome_bind_Ret.
    destruct v, v'; [|done..]. simpl in *. congruence.
  - case_if; [done|]. case_if; [done|]. congruence.
  - case_if; [done|]. case_if as Hv; [done|]. intros [= <-] [= <-].
    unfold bitmap_delta_merge_valid in Hv. revert Hv. case_if as Hl; [done|]. intros _.
    bool_to_prop. change (zlen (@nil Z)) with 0 in *. destruct latest; [done|]. rewrite zlen_cons in *.
    pose proof (zlen_nonneg latest). lia.
Qed.

Lemma resolved_is_installed s txn b st d data :
  sm_wf (staged_writes txn) → sm_get b (staged_writes txn) = Some st →
  resolved_write_bytes s txn b = Ret (Ok d) →
  (latest_commit_seq s b <= high (t_snapshot txn) ∧ data = sw_bytes st) ∨
  (high (t_snapshot txn) < latest_commit_seq s b ∧ conflict_policy s ≠ Strict ∧
   merge_bytes (sw_merge_proof st)
     (default [] (version_bytes_at s b (high (t_snapshot txn))))
     (default [] (version_bytes_at s b (latest_commit_seq s b)))
     (sw_bytes st) = Ret (Some data)) →
  d = data.
Proof.
  intros Hwf Hst Hr Hd. unfold resolved_write_bytes, resolved_write_bytes_with_policy in Hr.
  unfold staged_write, merge_proof, merge_base, staged_base in Hr.
  rewrite staged_entry_get, Hst in Hr by done. simpl in Hr.
  destruct (Z.leb_spec (latest_commit_seq s b) (high (t_snapshot txn))) as [Hle|Hgt].
  { injection Hr as <-. destruct Hd as [[_ ->]|[? _]]; [done|lia]. }
  destruct Hd as [[? _]|(_&_&Hm)]; [lia|]. case_bool_decide; [done|].
  apply outcome_bind_Ret in Hr as (m&Hm'&Hr). destruct m as [m|]; [|done]. injection Hr as <-.
  destruct (version_bytes_at s b (high (t_snapshot txn))) as [base|]; simpl in *; [congruence|].
  by eapply merge_bytes_base.
Qed.

Lemma resolved_writes_spec s txn blocks l :
  resolved_writes_loop s txn blocks = Ret (Ok l) →
  l.*1 = blocks ∧ Forall (λ bd, resolved_write_bytes s txn bd.1 = Ret (Ok bd.2)) l.
Proof.
  revert l. induction blocks as [|b blocks IH]; intros l; cbn [resolved_writes_loop]; [by intros [= <-]|].
  intros (r&Hr&Hk)%outcome_bind_Ret. destruct r as [d|e]; [|done].
  apply outcome_bind_Ret in Hk as (rest&Hrest&Hk). destruct rest as [l'|e]; [|done].
  injection Hk as <-. destruct (IH l' Hrest) as [Hb Hall]. split; [by rewrite fmap_cons, Hb|]. by constructor.
Qed.

Definition log_writes (l : list (Z * bytes)) : list WalWrite := (λ bd, mkWalWrite bd.1 bd.2) <$> l.

Lemma write_of_Some b d l : NoDup l.*1 → write_of b (log_writes l) = Some d ↔ (b, d) ∈ l.
Proof.
  induction l as [|[b0 d0] l IH]; [by rewrite elem_of_nil|]. rewrite fmap_cons, NoDup_cons.
  intros [Hb0 Hnd]. cbn [log_writes]. rewrite elem_of_cons. unfold log_writes. rewrite fmap_cons. simpl.
  destruct (Z.eqb_spec b b0) as [->|Hne].
  - split; [intros [= ->]; by left|]. intros [[= ->]|Hin]; [done|]. destruct Hb0.
    apply list_elem_of_fmap. by exists (b0, d).
  - rewrite IH by done. naive_solver.
Qed.

Lemma write_of_None b l : write_of b (log_writes l) = None ↔ b ∉ l.*1.
Proof.
  induction l as [|[b0 d0] l IH]; [split; [intros _; apply not_elem_of_nil|done]|].
  unfold log_writes. rewrite !fmap_cons. simpl.
  rewrite not_elem_of_cons. destruct (Z.eqb_spec b b0) as [->|Hne]; [naive_solver|]. rewrite IH. naive_solver.
Qed.

(** The logged writes of a committed transaction, block by block. *)
Lemma logged_is_committed s txn seq s' l :
  sm_wf (staged_writes txn) → store_wf s' →
  resolved_writes_for_commit s txn = Ret (Ok l) → committed s txn seq s' →
  ∀ b, newest s' b = match write_of b (log_writes l) with Some d => Some d | None => newest s b end.
Proof.
  intros Hwf Hs' Hr (_&_&Hc) b. apply resolved_writes_spec in Hr as [Hk Hall]. specialize (Hc b).
  assert (NoDup l.*1) as Hnd by (rewrite Hk; by apply sm_keys_nodup).
  destruct (sm_get b (staged_writes txn)) as [st|] eqn:Hst.
  - destruct Hc as (data&Hread&_&Hd). rewrite read_current in Hread by done.
    assert (b ∈ l.*1) as Hin by (rewrite Hk; apply write_set_keys_elem; [done|by rewrite Hst]).
    apply list_elem_of_fmap in Hin as ([b' d]&->&Hin). simpl in *.
    rewrite (proj2 (write_of_Some b' d l Hnd) Hin), Hread. f_equal. symmetry.
    rewrite Forall_forall in Hall. eapply resolved_is_installed; [done|done| |done]. by apply (Hall (b', d)).
  - rewrite (proj2 (write_of_None b l)); [by apply newest_versions|].
    rewrite Hk, write_set_keys_elem, Hst by done. by intros [].
Qed.
End logged.
