(* ===== verification/PersistCorrect.v ===== *)
(** * The durable store is correct

    The state of a [PersistentMvccStore] and of its two files, related to the
    history of the commits it has acknowledged: the store shows the history's
    contents, and what a crash can leave of the log, together with either
    checkpoint the path may lead to, is a representation of the history, up to
    unsynced commits and the one commit whose append failed half-way.  The
    operations preserve this under every pattern of faults, and opening what a
    crash left restores it. *)

From stdpp Require Import base sorting numbers gmap list.
From S2P Require Import Prelude Sorted Merge Chain Txn Policy Metrics Store StoreLemmas StoreInv.
From S2P Require Import StoreCorrect StoreTyped Wal WalReplay WalWriter WalReader Checkpoint Persist.
From S2P Require Import PersistLemmas.

Local Open Scope Z_scope.

(** ** The configuration of a writer never changes *)

Section config.
Context `{Crc32cAppend}.

Lemma append_commit_config io w c : config (append_commit io w c).1 = config w.
Proof.
  unfold append_commit, append_one_streamed, append_prepared_streamed, rollback_failed_append,
    maybe_sync, do_sync, require_recovery, truncate_and_sync_rollback, fails.
  repeat (case_match; simplify_eq/=; try done).
Qed.

Lemma flush_config io w : config (flush io w).1 = config w.
Proof. unfold flush, do_sync, require_recovery. repeat (case_match; simplify_eq/=; try done). Qed.

Lemma truncate_after_checkpoint_config io o w n : config (truncate_after_checkpoint io o w n).1 = config w.
Proof.
  unfold truncate_after_checkpoint, require_recovery, truncate_and_sync_rollback, fails.
  repeat (case_match; simplify_eq/=; try done).
Qed.
End config.

Section correct.
Context `{UnstableSort} `{Crc32cAppend} `{VersionCodec}.

(** ** The store and its history *)

Record store_holds (s : MvccStore) (h : list WalCommit) : Prop := {
  sh_wf : store_wf s;
  sh_typed : store_typed s;
  sh_policy : compression_policy s = default_policy;
  sh_next : next_commit s = last_seq 0 h + 1;
  sh_newest : ∀ b, newest s b = contents h b;
}.

(** Commits in the order of their numbers, each as the store logs it. *)
Definition history_ok (h : list WalCommit) : Prop := accepted 0 h ∧ Forall well_logged h.

Lemma store_holds_core s s' h : same_core s s' → store_wf s' → store_holds s h → store_holds s' h.
Proof.
  intros Hc Hwf [_ Ht Hp Hn Hb]. constructor; [done| | | |].
  - by eapply store_typed_core.
  - by rewrite (sc_compression _ _ Hc).
  - by rewrite (sc_next_commit _ _ Hc).
  - intros b. rewrite (newest_core s s') by done. apply Hb.
Qed.

(** *** The in-memory commit *)

Lemma memory_commit_outcome (use_ssi : bool) s txn time s' r :
  txn_wf txn → timing_ok time → store_wf s → store_typed s → txn_typed (next_txn s) txn →
  (if use_ssi then commit_ssi s txn time else commit s txn time) = Ret (s', r) →
  store_wf s' ∧ store_typed s' ∧
  match r with
  | Err _ => same_core s s'
  | Ok seq => committed s txn seq s' ∧
      ∃ sp s1 merged, same_core s sp ∧ store_wf sp ∧ installed sp seq txn merged s1 ∧
        same_core s1 s' ∧ active_snapshots s' = active_snapshots sp ∧
        ssi_log s1 = (if use_ssi then ssi_log sp ++ [ssi_record txn seq] else ssi_log sp)
  end.
Proof.
  intros Htxn Htm Hs Hty Htt Hc.
  assert (exec (if use_ssi then OpCommitSsi txn time else OpCommit txn time) s = Ret s') as He
    by (destruct use_ssi; simpl; by rewrite Hc).
  split; [eapply exec_wf; [|done|exact He]; by destruct use_ssi|].
  split; [eapply exec_typed; [| |done|done|exact He]; by destruct use_ssi|].
  pose proof (with_attempt_wf s Hs) as Hsa. pose proof (with_attempt_core s) as Hca.
  pose proof Htxn as (Hwf&_). destruct use_ssi.
  - pose proof (commit_ssi_cases s txn time s' r Htxn Htm Hs Hc) as Hcase.
    destruct r as [seq|e]; [|done]. split; [by destruct Hcase|].
    unfold commit_ssi in Hc. apply outcome_bind_Ret in Hc as ([s1 r1]&Hc&Hf).
    apply finish_commit_cases in Hf as (Hr&Hsc&Ha&_). simpl in *.
    apply commit_ssi_internal_cases in Hc as (sp&rp&Hp&Hcp&Hin); [|done..].
    destruct r1 as [[seq' def]|]; [|done]. injection Hr as ->.
    destruct Hin as (_&merged&checks&_&_&Hin&Hl&_). exists sp, s1, merged.
    split_and!; [by etrans|by eapply preflight_fcw_wf|done|done| |done].
    by rewrite Ha, (ins_active _ _ _ _ _ Hin).
  - pose proof (commit_cases s txn time s' r Htxn Htm Hs Hc) as Hcase.
    destruct r as [seq|e]; [|done]. split; [done|].
    unfold commit in Hc. apply outcome_bind_Ret in Hc as ([s1 r1]&Hc&Hf).
    apply finish_commit_cases in Hf as (Hr&Hsc&Ha&_). simpl in *.
    apply commit_fcw_internal_cases in Hc as (sp&rp&Hp&Hcp&Hin); [|done..].
    destruct r1 as [[seq' def]|]; [|done]. injection Hr as ->.
    destruct Hin as (_&merged&_&Hin&Hl&_). exists sp, s1, merged.
    split_and!; [by etrans|by eapply preflight_fcw_wf|done|done| |done].
    by rewrite Ha, (ins_active _ _ _ _ _ Hin).
Qed.

(** The record a commit hands to the log. *)
Lemma committed_well_logged s s' txn seq l : store_wf s → store_typed s' → store_wf s' →
  sm_wf (staged_writes txn) → txn_typed (next_txn s) txn →
  resolved_writes_for_commit s txn = Ret (Ok l) → committed s txn seq s' →
  commit_ok (mkWalCommit seq (t_id txn) (log_writes l)) ∧ NoDup (ww_block <$> log_writes l).
Proof.
  intros Hs Ht' Hs' Hwf [Hid Htw] Hr Hc. pose proof (logged_is_committed s txn seq s' l Hwf Hs' Hr Hc) as Hn.
  pose proof Hr as [Hk _]%resolved_writes_spec. pose proof Hc as (->&_&_).
  assert (NoDup l.*1) as Hnd by (rewrite Hk; by apply sm_keys_nodup).
  assert (ww_block <$> log_writes l = l.*1) as ->
    by (unfold log_writes; rewrite <-list_fmap_compose; done).
  split; [|done]. pose proof (wf_next_commit _ Hs). pose proof (wf_next_txn _ Hs).
  split; [simpl; lia|]. split; [simpl; lia|]. simpl. apply Forall_forall.
  intros w ([b d]&->&Hin)%list_elem_of_fmap. simpl. split.
  - assert (b ∈ write_set_keys txn) as Hb by (rewrite <-Hk; apply list_elem_of_fmap; by exists (b, d)).
    apply write_set_keys_elem in Hb as [st Hst]; [|done]. by apply Htw in Hst as [? _].
  - specialize (Hn b). rewrite (proj2 (write_of_Some b d l Hnd) Hin) in Hn. unfold newest in Hn.
    destruct (versions s' !! b) as [c|] eqn:Hb; [|done]. simpl in Hn.
    apply Ht' in Hb as (_&_&Hp). by eapply Hp.
Qed.

(** ** Committing *)

(** A commit that was made in memory and undone. *)
Lemma undo_commit (use_ssi : bool) s txn time s' seq h :
  txn_wf txn → timing_ok time → txn_typed (next_txn s) txn → store_holds s h →
  (if use_ssi then commit_ssi s txn time else commit s txn time) = Ret (s', Ok seq) →
  let s'' := rollback_in_memory_commit s' (t_id txn) seq (write_set_keys txn)
               (filter (λ b, is_Some (staged_physical txn b)) (write_set_keys txn)) use_ssi in
  store_holds s'' h ∧ next_txn s'' = next_txn s ∧ ssi_log s'' = ssi_log s ∧
  ∀ b snap, registered s'' snap → read_visible s'' b snap = read_visible s b snap.
Proof.
  intros Htxn Htm Htt Hh Hc s''. pose proof Hh as [Hs Hty Hp Hn Hb].
  destruct (memory_commit_outcome use_ssi s txn time s' (Ok seq)) as (Hwf'&_&_&sp&s1&merged&Hsp&Hwsp&Hin&Hs1&Ha&Hl);
    [done..|].
  destruct (rollback_undone sp s1 s' txn seq merged use_ssi) as (Hun&Ha''&Hf''&Hm''&Ht'');
    [done|by destruct Htxn| |done..|].
  { rewrite (sc_compression _ _ Hsp), Hp. simpl. intros cap [= <-]. lia. }
  fold s'' in Hun, Ha'', Hf'', Hm'', Ht''.
  assert (store_wf s'') as Hws''.
  { pose proof Hwf' as []. eapply undone_wf; [done..| | | |]; by rewrite ?Ha'', ?Hf'', ?Hm'', ?Ht''. }
  split_and!.
  - eapply store_holds_core in Hh; [|exact Hsp|done]. destruct Hh as [_ Hty' Hp' Hn' Hb']. constructor.
    + done.
    + by eapply undone_typed.
    + by rewrite (un_compression _ _ _ Hun).
    + by rewrite (un_next_commit _ _ _ Hun).
    + intros b. rewrite (undone_newest _ sp) by done. apply Hb'.
  - by rewrite (un_next_txn _ _ _ Hun), (sc_next_txn _ _ Hsp).
  - by rewrite (un_ssi_log _ _ _ Hun), (sc_ssi_log _ _ Hsp).
  - intros b snap Hreg. rewrite <-(same_core_reads s sp) by done. eapply undone_reads; [done..|].
    apply gc_watermark_registered; [exact (proj1 (wf_active _ Hwsp))|].
    unfold registered in *. simpl. congruence.
Qed.

(** The record of a transaction committed under number [seq]: its writes as the
    resolver merged them. *)
Definition commit_record (s : MvccStore) (txn : Transaction) (seq : Z) (c : WalCommit) : Prop :=
  ∃ l, resolved_writes_for_commit s txn = Ret (Ok l) ∧ c = mkWalCommit seq (t_id txn) (log_writes l).

(** What [commit_internal] does, whatever the answers of the system. *)
Definition commit_effect (p p' : PersistentMvccStore) (h : list WalCommit) (txn : Transaction)
    (r : res CommitError Z) : Prop :=
  match r with
  | Ok seq => ∃ c, commit_record (p_store p) txn seq c ∧ well_logged c ∧
      accepted (last_commit_seq (p_wal p)) [c] ∧ seq = last_seq 0 h + 1 ∧
      store_holds (p_store p') (h ++ [c]) ∧
      appended (p_wal p) (p_wal p') (log_image [c]) seq
  | Err _ => store_holds (p_store p') h ∧ next_txn (p_store p') = next_txn (p_store p) ∧
      ssi_log (p_store p') = ssi_log (p_store p) ∧
      (∀ b snap, registered (p_store p') snap →
         read_visible (p_store p') b snap = read_visible (p_store p) b snap) ∧
      (p_wal p' = p_wal p ∨ unchanged (p_wal p) (p_wal p') ∨
       ∃ c e, commit_record (p_store p) txn (wc_commit_seq c) c ∧ well_logged c ∧
         accepted (last_commit_seq (p_wal p)) [c] ∧ sealed (p_wal p) (p_wal p') (log_image [c]) e)
  end.

Lemma commit_internal_effect io p txn time use_ssi p' r h :
  txn_wf txn → timing_ok time → txn_typed (next_txn (p_store p)) txn →
  store_holds (p_store p) h → writer_ok (p_wal p) →
  commit_internal io p txn time use_ssi = Ret (p', r) → commit_effect p p' h txn r.
Proof.
  intros Htxn Htm Htt Hh Hw. unfold commit_internal, ensure_ready. rewrite (wo_ready _ Hw).
  intros (res&Hres&Hk)%outcome_bind_Ret. destruct res as [l|e]; [|injection Hk as <- <-; simpl; auto 10].
  apply outcome_bind_Ret in Hk as ([s1 r1]&Hc&Hk).
  pose proof (sh_wf _ _ Hh) as Hs. pose proof (sh_typed _ _ Hh) as Hty.
  pose proof (memory_commit_outcome use_ssi _ _ _ _ _ Htxn Htm Hs Hty Htt Hc) as (Hs1&Hty1&Hcase).
  destruct r1 as [seq|e].
  2:{ injection Hk as <- <-. simpl. split_and!; [by eapply store_holds_core|by apply Hcase|by apply Hcase| |auto].
      intros b snap _. by apply same_core_reads. }
  destruct Hcase as [Hcm _]. fold (log_writes l) in Hk. set (c := mkWalCommit seq (t_id txn) (log_writes l)) in *.
  destruct (committed_well_logged _ _ txn seq l Hs Hty1 Hs1 (proj1 Htxn) Htt Hres Hcm) as [Hcok Hnd].
  pose proof Hcm as (Hseq&Hnext&_). rewrite (sh_next _ _ Hh) in Hseq.
  pose proof (append_one_spec io (p_wal p) c Hw) as Ha. unfold append_commit in Hk.
  destruct (append_one_streamed io (p_wal p) c) as [w' [a|e]].
  - injection Hk as <- <-. destruct Ha as (Hacc&Henc&Happ). exists c.
    split_and!; try done; [by exists l|].
    + constructor; simpl; try done.
      * destruct (memory_commit_outcome use_ssi _ _ _ _ _ Htxn Htm Hs Hty Htt Hc)
          as (_&_&_&sp&s2&merged&Hsp&_&Hin&Hs2&_).
        rewrite (sc_compression _ _ Hs2), (ins_compression _ _ _ _ _ Hin), (sc_compression _ _ Hsp).
        apply (sh_policy _ _ Hh).
      * rewrite Hnext, last_seq_default. done.
      * intros b. rewrite contents_snoc, <-(sh_newest _ _ Hh). unfold after_commit.
        by apply (logged_is_committed _ txn seq); [by destruct Htxn|..].
  - injection Hk as <- <-. simpl. destruct Ha as [Ha Hpl].
    destruct (undo_commit use_ssi _ _ _ _ _ _ Htxn Htm Htt Hh Hc) as (?&?&?&?).
    split_and!; [done..|]. destruct Ha as [[? _]|Hsealed]; [auto|]. right. right.
    destruct Hpl as [Hacc Henc]; [by destruct Hsealed as ((?&_&->)&_); intros []|].
    exists c, e. split; [by exists l|]. done.
Qed.

(** ** The files and the history *)

(** A checkpoint file that was written for the history [h]. *)
Definition checkpoint_holds (b : bytes) (h : list WalCommit) : Prop :=
  ∃ s, store_holds s h ∧ checkpoint_valid (next_txn s) (next_commit s) (versions_snapshot s) ∧
       b = checkpoint_image (next_txn s) (next_commit s) (versions_snapshot s).

(** A checkpoint (or none) and the log [cs] after it represent [h]; the
    checkpoint reaches at least to commit [n]. *)
Definition covers (n : Z) (cs : list WalCommit) (ckpt : option bytes) (h : list WalCommit) : Prop :=
  match ckpt with
  | None => n <= 0 ∧ h = cs
  | Some b => ∃ hc, checkpoint_holds b hc ∧ n <= last_seq 0 hc ∧ h = hc ++ applied (last_seq 0 hc) cs
  end.

Record log_holds (w : WalWriter) (ck : CheckpointFile) (n : Z) (h pending cs : list WalCommit) : Prop := {
  lh_ok : Forall well_logged (cs ++ pending);
  lh_accepted : accepted 0 (cs ++ pending);
  lh_pending : accepted (last_seq 0 h) pending;
  lh_visible : covers n cs (ck_visible ck) h;
  lh_durable : covers n cs (ck_durable ck) h;
  lh_bytes : f_bytes (w_file w) `prefix_of` header_image ++ log_image (cs ++ pending);
  lh_synced : HEADER_SIZE <= f_synced (w_file w) <= zlen (f_bytes (w_file w));
  lh_ready : recovery_required w = None →
    pending = [] ∧ writer_ok w ∧ writer_log w cs ∧ last_commit_seq w = last_seq 0 h;
  lh_immediate : sync_policy (config w) = Immediate →
    zlen (header_image ++ log_image cs) <= f_synced (w_file w) ∨
    (covers n [] (ck_visible ck) h ∧ covers n [] (ck_durable ck) h);
}.

(** The invariant: [h] are the acknowledged commits, [pending] the one whose
    append failed without a clean rollback. *)
Record persist_holds (p : PersistentMvccStore) (ck : CheckpointFile) (h pending : list WalCommit) :
    Prop := {
  ph_store : store_holds (p_store p) h;
  ph_history : history_ok h;
  ph_log : ∃ cs, log_holds (p_wal p) ck (checkpoint_commit_seq (p_stats p)) h pending cs;
}.

(** *** Sequence numbers *)

Lemma accepted_elem last cs c : accepted last cs → c ∈ cs → last < wc_commit_seq c <= last_seq last cs.
Proof.
  revert last. induction cs as [|c0 cs IH]; intros last; simpl; [by intros _ ?%elem_of_nil|].
  intros (Hl&_&_&Hacc). pose proof (accepted_last_seq _ _ Hacc).
  intros [->|Hin]%elem_of_cons; [lia|]. specialize (IH _ Hacc Hin). lia.
Qed.

Lemma applied_app n cs ds : applied n (cs ++ ds) = applied n cs ++ applied n ds.
Proof. apply filter_app. Qed.

Lemma applied_all n cs : (∀ c, c ∈ cs → n < wc_commit_seq c) → applied n cs = cs.
Proof.
  induction cs as [|c cs IH]; intros Hall; [done|]. rewrite applied_cons.
  rewrite (proj2 (Z.leb_gt _ _)) by (apply Hall; by left). f_equal. apply IH. intros c' Hc'. apply Hall. by right.
Qed.

Lemma applied_none n cs : (∀ c, c ∈ cs → wc_commit_seq c <= n) → applied n cs = [].
Proof.
  induction cs as [|c cs IH]; intros Hall; [done|]. rewrite applied_cons.
  rewrite (proj2 (Z.leb_le _ _)) by (apply Hall; by left). apply IH. intros c' Hc'. apply Hall. by right.
Qed.

Lemma applied_elem n cs c : c ∈ applied n cs ↔ n < wc_commit_seq c ∧ c ∈ cs.
Proof. unfold applied. by rewrite list_elem_of_filter. Qed.

Lemma applied_accepted n last cs : accepted last cs → accepted last (applied n cs).
Proof.
  revert last. induction cs as [|c cs IH]; intros last; [done|]. rewrite applied_cons. simpl.
  intros (?&?&?&Hacc). destruct (wc_commit_seq c <=? n); [|simpl; auto].
  apply IH. eapply accepted_weaken; [|done]. lia.
Qed.

(** *** Checkpoints and logs *)

Lemma covers_snoc n cs ckpt h c : accepted 0 h → last_seq 0 h < wc_commit_seq c →
  covers n cs ckpt h → covers n (cs ++ [c]) ckpt (h ++ [c]).
Proof.
  intros Hacc Hc. destruct ckpt as [b|]; simpl; [|by intros [? ->]].
  intros (hc&Hb&Hn&->). exists hc. split_and!; [done..|]. rewrite applied_app, <-app_assoc. do 2 f_equal.
  apply accepted_app in Hacc as [_ Hacc]. apply accepted_last_seq in Hacc. rewrite last_seq_app in Hc.
  symmetry. apply applied_all. intros c' ->%list_elem_of_singleton. lia.
Qed.

Lemma covers_full n cs b h : checkpoint_holds b h → n <= last_seq 0 h →
  (∀ c, c ∈ cs → wc_commit_seq c <= last_seq 0 h) → covers n cs (Some b) h.
Proof. intros Hb Hn Hall. exists h. split_and!; [done..|]. by rewrite applied_none, app_nil_r. Qed.

Lemma covers_weaken n n' cs ckpt h : n' <= n → covers n cs ckpt h → covers n' cs ckpt h.
Proof.
  intros Hn. destruct ckpt as [b|]; simpl; [|intros [? ->]; split; [lia|done]].
  intros (hc&?&?&?). exists hc. split_and!; [done|lia|done].
Qed.

(** A checkpoint that reaches the newest commit needs no log. *)
Lemma covers_truncate n cs ckpt h : accepted 0 h → last_seq 0 h <= n →
  covers n cs ckpt h → covers n [] ckpt h.
Proof.
  intros Hacc Hle. destruct ckpt as [b|]; simpl.
  - intros (hc&Hb&Hn&Heq). exists hc. split_and!; [done..|]. rewrite Heq. f_equal.
    destruct (applied (last_seq 0 hc) cs) as [|c l] eqn:E; [done|]. exfalso.
    assert (c ∈ applied (last_seq 0 hc) cs) as [Hc _]%applied_elem by (rewrite E; by left).
    assert (c ∈ h) as Hin by (rewrite Heq; apply elem_of_app; right; by left).
    pose proof (accepted_elem 0 _ _ Hacc Hin). lia.
  - intros [? ->]. split; [done|]. destruct cs as [|c cs]; [done|].
    assert (c ∈ c :: cs) as Hc by by left. pose proof (accepted_elem 0 _ _ Hacc Hc). lia.
Qed.

(** *** The log after each outcome of an append *)

Lemma zlen_header : zlen header_image = HEADER_SIZE.
Proof. reflexivity. Qed.

Lemma ready_log_holds w ck n h cs : 
  writer_ok w → writer_log w cs → last_commit_seq w = last_seq 0 h →
  Forall well_logged cs → covers n cs (ck_visible ck) h → covers n cs (ck_durable ck) h →
  HEADER_SIZE <= f_synced (w_file w) →
  (sync_policy (config w) = Immediate → f_synced (w_file w) = zlen (f_bytes (w_file w))) →
  log_holds w ck n h [] cs.
Proof.
  intros Hw Hl Hlast Hok Hv Hd Hsy Him. pose proof (wl_bytes _ _ Hl) as Hb.
  constructor; rewrite ?app_nil_r; try done.
  - apply (wl_accepted _ _ Hl).
  - by rewrite Hb.
  - split; [done|]. rewrite (wo_pos _ Hw). apply (wo_synced _ Hw).
  - intros Hi. left. rewrite (Him Hi), Hb. done.
Qed.

Lemma log_appended w w' ck n h cs c : accepted 0 h →
  log_holds w ck n h [] cs → recovery_required w = None → well_logged c →
  accepted (last_commit_seq w) [c] → appended w w' (log_image [c]) (wc_commit_seq c) →
  log_holds w' ck n (h ++ [c]) [] (cs ++ [c]).
Proof.
  intros Hacc Hlh Hready Hc Hc1 Happ. pose proof Happ as (Hw'&Hb'&Hlast'&Hcfg&Hsy&Himm).
  destruct Hlh as [Hok _ _ Hv Hd _ Hs Hr _]. rewrite app_nil_r in Hok.
  destruct (Hr Hready) as (_&Hw&Hl&Hlast). pose proof (proj1 Hc1) as Hlt. rewrite Hlast in Hlt.
  apply ready_log_holds.
  - done.
  - apply (appended_log w w' cs [c]); try done; apply Forall_singleton; by apply Hc.
  - by rewrite Hlast', last_seq_default.
  - apply Forall_app_2; [done|by apply Forall_singleton].
  - by apply covers_snoc.
  - by apply covers_snoc.
  - lia.
  - intros Hi. apply Himm. congruence.
Qed.

Lemma log_unchanged w w' ck n h cs : log_holds w ck n h [] cs → recovery_required w = None →
  unchanged w w' → config w' = config w → log_holds w' ck n h [] cs.
Proof.
  intros Hlh Hready Hu Hcfg. destruct Hlh as [Hok Ha Hp Hv Hd Hb Hs Hr Hi]. destruct (Hr Hready) as (_&Hw&Hl&Hlast).
  pose proof (unchanged_log w w' cs Hl Hu) as Hl'. destruct Hu as (Hw'&Hb'&Hlast'&Hsy).
  constructor; try done.
  - by rewrite Hb'.
  - split; [lia|]. rewrite (wo_pos _ Hw'). apply (wo_synced _ Hw').
  - intros _. split_and!; [done..|congruence].
  - rewrite Hcfg. intros Himm. destruct (Hi Himm); [left; lia|by right].
Qed.

Lemma log_sealed w w' ck n h cs c e : log_holds w ck n h [] cs → recovery_required w = None →
  well_logged c → accepted (last_commit_seq w) [c] → sealed w w' (log_image [c]) e →
  config w' = config w → log_holds w' ck n h [c] cs.
Proof.
  intros Hlh Hready Hc Hc1 ((reason&Hrec&_)&(junk&Hj&Hb')&Hsy) Hcfg.
  destruct Hlh as [Hok Ha Hp Hv Hd Hb Hs Hr Hi]. destruct (Hr Hready) as (_&Hw&Hl&Hlast).
  rewrite app_nil_r in Hok. pose proof (wl_last _ _ Hl). constructor; try done.
  - apply Forall_app_2; [done|by apply Forall_singleton].
  - apply accepted_app. split; [apply (wl_accepted _ _ Hl)|]. eapply accepted_weaken; [|done]. lia.
  - by rewrite <-Hlast.
  - rewrite Hb', (wl_bytes _ _ Hl), log_image_app, <-app_assoc. by do 2 apply prefix_app.
  - rewrite Hb', zlen_app, Hsy. pose proof (zlen_nonneg junk). lia.
  - congruence.
  - rewrite Hcfg, Hsy. done.
Qed.

(** *** Committing *)

Lemma commit_internal_frame io p txn time use_ssi p' r :
  commit_internal io p txn time use_ssi = Ret (p', r) →
  checkpoint_commit_seq (p_stats p') = checkpoint_commit_seq (p_stats p) ∧
  config (p_wal p') = config (p_wal p).
Proof.
  unfold commit_internal. destruct (ensure_ready (p_wal p)); [|by intros [= <- <-]].
  intros (res&_&Hk)%outcome_bind_Ret. destruct res as [l|e]; [|by injection Hk as <- <-].
  apply outcome_bind_Ret in Hk as ([s1 [seq|e]]&_&Hk); [|by injection Hk as <- <-].
  match type of Hk with context [append_commit io (p_wal p) ?c] =>
    pose proof (append_commit_config io (p_wal p) c) as Hc;
    destruct (append_commit io (p_wal p) c) as [? [?|?]] end;
    injection Hk as <- <-; done.
Qed.

Lemma ensure_ready_sealed w : ¬ recovery_required w = None → ∃ e, ensure_ready w = Err e.
Proof. unfold ensure_ready. destruct (recovery_required w); [eauto|done]. Qed.

Lemma commit_holds io p ck txn time use_ssi p' r h pending :
  txn_wf txn → timing_ok time → txn_typed (next_txn (p_store p)) txn →
  persist_holds p ck h pending → commit_internal io p txn time use_ssi = Ret (p', r) →
  match r with
  | Ok seq => ∃ c, commit_record (p_store p) txn seq c ∧ persist_holds p' ck (h ++ [c]) []
  | Err _ => ∃ pending', persist_holds p' ck h pending' ∧
      (pending' = pending ∨ ∃ c, pending' = [c] ∧ commit_record (p_store p) txn (wc_commit_seq c) c)
  end.
Proof.
  intros Htxn Htm Htt [Hst [Hacc Hok] [cs Hlh]] Hc.
  destruct (decide (recovery_required (p_wal p) = None)) as [Hready|Hsealed].
  2:{ destruct (ensure_ready_sealed _ Hsealed) as [e He]. unfold commit_internal in Hc. rewrite He in Hc.
      injection Hc as <- <-. exists pending. split; [by constructor; [..|exists cs]|by left]. }
  pose proof (lh_ready _ _ _ _ _ _ Hlh Hready) as (->&Hw&Hl&Hlast).
  destruct (commit_internal_frame _ _ _ _ _ _ _ Hc) as [Hst' Hcfg].
  pose proof (commit_internal_effect _ _ _ _ _ _ _ _ Htxn Htm Htt Hst Hw Hc) as Heff.
  destruct r as [seq|e].
  - destruct Heff as (c&Hrec&Hwl&Hac&_&Hst1&Happ). exists c. split_and!; [done|].
    assert (wc_commit_seq c = seq) as <- by by destruct Hrec as (?&_&->).
    constructor; [done| |exists (cs ++ [c]); rewrite Hst'; by eapply log_appended].
    split; [|apply Forall_app_2; [done|by apply Forall_singleton]].
    apply accepted_app. split; [done|]. by rewrite <-Hlast.
  - destruct Heff as (Hst1&_&_&_&[Hsame|[Hun|(c&e'&Hrec&Hwl&Hac&Hse)]]).
    + exists []. split; [|by left]. constructor; [done..|]. exists cs. by rewrite Hst', Hsame.
    + exists []. split; [|by left]. constructor; [done..|]. exists cs. rewrite Hst'. by eapply log_unchanged.
    + exists [c]. split; [|by right; exists c]. constructor; [done..|]. exists cs. rewrite Hst'. by eapply log_sealed.
Qed.

(** *** The other operations *)

(** Operations that only touch counters of transactions or snapshot maps. *)
Lemma store_op_holds p ck s' h pending : persist_holds p ck h pending →
  store_holds s' h → persist_holds (set_store p s') ck h pending.
Proof. by intros [? ? ?] ?. Qed.

Lemma begin_holds p ck h pending : persist_holds p ck h pending → persist_holds (p_begin p).2 ck h pending.
Proof.
  intros Hp. apply store_op_holds; [done|]. destruct (ph_store _ _ _ _ Hp) as [Hs Ht Hpo Hn Hb].
  constructor; [by apply begin_wf| |done..]. apply (store_typed_same (p_store p)); [done| |done].
  pose proof (wf_next_txn _ Hs). simpl. unfold saturating_add. lia.
Qed.

Lemma register_holds p ck snap h pending :
  persist_holds p ck h pending → persist_holds (p_register_snapshot p snap) ck h pending.
Proof.
  intros Hp. apply store_op_holds; [done|]. destruct Hp as [Hst _ _].
  apply (store_holds_core (p_store p)); [by constructor| |done]. by apply register_snapshot_wf, sh_wf with h.
Qed.

Lemma release_holds p ck snap h pending : persist_holds p ck h pending →
  ∃ p' released, p_release_snapshot p snap = Ret (p', released) ∧ persist_holds p' ck h pending.
Proof.
  intros Hp. unfold p_release_snapshot.
  destruct (release_snapshot_total (p_store p) snap) as (s'&released&->&Hwf&Hc);
    [by apply (sh_wf _ h), (ph_store _ ck _ pending)|].
  eexists _, _. split; [done|]. apply store_op_holds; [done|].
  by apply (store_holds_core (p_store p)), (ph_store _ ck _ pending).
Qed.

(** A writer sealed over an unchanged file. *)
Lemma log_sealed_in_place w w' ck n h pending cs : log_holds w ck n h pending cs →
  w_file w' = w_file w → config w' = config w → recovery_required w' ≠ None → log_holds w' ck n h pending cs.
Proof. intros [] Hf Hc Hr. constructor; rewrite ?Hf, ?Hc; done. Qed.

Lemma sync_holds io p ck h pending : persist_holds p ck h pending →
  persist_holds (sync io p).1 ck h pending.
Proof.
  intros [Hst Hh [cs Hlh]]. unfold sync. pose proof (flush_config io (p_wal p)) as Hcfg.
  destruct (decide (recovery_required (p_wal p) = None)) as [Hready|Hsealed].
  - pose proof (lh_ready _ _ _ _ _ _ Hlh Hready) as (->&Hw&Hl&Hlast).
    pose proof (flush_spec io (p_wal p) cs Hw Hl) as Hf.
    destruct (flush io (p_wal p)) as [w' [n|e]]; simpl in *; (constructor; [done..|]); exists cs; simpl.
    + destruct Hf as (Hw'&Hl'&Hlast'&Hsy). destruct Hlh as [Hok _ _ Hv Hd _ Hs _ _]. rewrite app_nil_r in Hok.
      apply ready_log_holds; try done; [congruence|]. rewrite Hsy, (wl_bytes _ _ Hl'), zlen_app, zlen_header.
      pose proof (zlen_nonneg (log_image cs)). lia.
    + destruct Hf as [[reason Hr] Hf]. apply (log_sealed_in_place (p_wal p)); [done..|congruence].
  - destruct (ensure_ready_sealed _ Hsealed) as [e He]. unfold flush. rewrite He. simpl.
    by constructor; [..|exists cs].
Qed.

Lemma truncate_holds io observed p ck h pending : persist_holds p ck h pending →
  persist_holds (truncate_wal io observed p).1 ck h pending.
Proof.
  intros Hp. pose proof Hp as [Hst [Hacc Hok] [cs Hlh]]. unfold truncate_wal.
  destruct (decide (recovery_required (p_wal p) = None)) as [Hready|Hsealed].
  2:{ destruct (ensure_ready_sealed _ Hsealed) as [e ->]. done. }
  unfold ensure_ready at 1. rewrite Hready. simpl. case_if; [done|].
  pose proof (lh_ready _ _ _ _ _ _ Hlh Hready) as (->&Hw&Hl&Hlast).
  pose proof (accepted_last_seq 0 h Hacc) as Hge.
  assert (saturating_sub (next_commit (p_store p)) 1 = last_seq 0 h) as Hseq
    by (rewrite (sh_next _ _ Hst); unfold saturating_sub; lia).
  rewrite Hseq in *. set (n := checkpoint_commit_seq (p_stats p)) in *. 
  destruct Hlh as [Hwl _ _ Hv Hd Hb Hs _ Hi]. rewrite app_nil_r in *.
  pose proof (covers_truncate n cs _ h Hacc ltac:(lia) Hv) as Hv0.
  pose proof (covers_truncate n cs _ h Hacc ltac:(lia) Hd) as Hd0.
  pose proof (truncate_after_checkpoint_config io observed (p_wal p) (last_seq 0 h)) as Hcfg.
  pose proof (truncate_after_checkpoint_spec io observed (p_wal p) cs (last_seq 0 h) Hw Hl) as Ht.
  destruct (truncate_after_checkpoint io observed (p_wal p) (last_seq 0 h)) as [w' [m|e]]; simpl in *.
  - destruct Ht as (_&Hw'&Hl'&Hlast'&_&Hsy). constructor; [done..|]. exists []. simpl.
    apply ready_log_holds; try done. by rewrite Hsy, (wl_bytes _ _ Hl').
  - destruct Ht as [[-> _]|[[reason Hr] Hf]]; [by destruct p|].
    constructor; [done..|]. exists cs. simpl. fold n. constructor; rewrite ?app_nil_r; try done.
    + apply (wl_accepted _ _ Hl).
    + destruct Hf as [->|[_ ->]]; [done|]. apply prefix_app_r, reflexivity.
    + destruct Hf as [->|[Hf Hbytes]]; [done|]. rewrite Hbytes, Hf, zlen_header. simpl. lia.
    + congruence.
    + intros _. by right.
Qed.

(** *** Publishing a checkpoint *)

Lemma write_temporary_spec io s :
  ∃ r, write_temporary io s = Ret r ∧
  match r with
  | Ok contents => checkpoint_valid (next_txn s) (next_commit s) (versions_snapshot s) ∧
      contents = checkpoint_image (next_txn s) (next_commit s) (versions_snapshot s)
  | Err _ => True
  end.
Proof.
  unfold write_temporary. case_if; [by eexists|].
  pose proof (write_checkpoint_spec (next_txn s) (next_commit s) (versions_snapshot s)
    (mkSink [] (pi_writes io))) as Hw.
  destruct (write_checkpoint _ _ _ _) as [[k [u|e]]|]; [| |done]; simpl; [|by eexists].
  destruct Hw as [Hv Hout]. case_if; [by eexists|]. eexists. split; [done|]. by rewrite Hout.
Qed.

Lemma covers_bound n cs ckpt h : accepted 0 h → covers n cs ckpt h → n <= last_seq 0 h.
Proof.
  intros Hacc. pose proof (accepted_last_seq _ _ Hacc). destruct ckpt as [b|]; simpl; [|lia].
  intros (hc&_&Hn&->). apply accepted_app in Hacc as [_ Ha]. rewrite last_seq_app.
  apply accepted_last_seq in Ha. lia.
Qed.

Lemma checkpoint_holds_op io p ck h pending : persist_holds p ck h pending →
  ∃ p' ck' r, checkpoint_with_directory_sync io p ck = Ret (p', ck', r) ∧ persist_holds p' ck' h pending.
Proof.
  intros Hp. unfold checkpoint_with_directory_sync. pose proof Hp as [Hst [Hacc Hok] [cs Hlh]].
  destruct (decide (recovery_required (p_wal p) = None)) as [Hready|Hsealed].
  2:{ destruct (ensure_ready_sealed _ Hsealed) as [e ->]. eauto. }
  unfold ensure_ready. rewrite Hready. destruct (validate_checkpoint_destination _ _ _); [|eauto].
  destruct (pi_directory io) as [[]|]; [|eauto..].
  destruct (write_temporary_spec io (p_store p)) as (r&->&Hr). simpl.
  destruct r as [contents|e]; [|eauto]. case_if; [eauto|].
  pose proof (lh_ready _ _ _ _ _ _ Hlh Hready) as (->&Hw&Hl&Hlast).
  assert (checkpoint_holds contents h) as Hck by (destruct Hr; by exists (p_store p)).
  assert (∀ c, c ∈ cs → wc_commit_seq c <= last_seq 0 h) as Hall.
  { intros c Hc. pose proof (accepted_elem 0 cs c (wl_accepted _ _ Hl) Hc). pose proof (wl_last _ _ Hl). lia. }
  destruct Hlh as [Hwl Hac Hpe Hv Hd Hb Hs Hre Hi].
  pose proof (covers_bound _ _ _ _ Hacc Hv) as Hn.
  assert (∀ n ds, n <= last_seq 0 h → (ds = cs ∨ ds = []) → covers n ds (Some contents) h) as Hfull.
  { intros n ds Hle Hds. apply covers_full; [done..|]. destruct Hds as [->| ->]; [done|by intros ? ?%elem_of_nil]. }
  case_if; eexists _, _, _; (split; [done|]); (constructor; [done..|]); exists cs; simpl.
  - constructor; try done; cbn [ck_visible ck_durable]; [auto|].
    intros Himm. destruct (Hi Himm) as [?|[_ ?]]; [by left|right; auto].
  - pose proof (accepted_last_seq _ _ Hacc).
    assert (saturating_sub (next_commit (p_store p)) 1 = last_seq 0 h) as ->
      by (rewrite (sh_next _ _ Hst); unfold saturating_sub; lia).
    constructor; try done; cbn [ck_visible ck_durable]; [apply Hfull; auto; lia..|].
    intros Himm. right. split; apply Hfull; auto; lia.
Qed.

Lemma holds_reads p ck h pending b : persist_holds p ck h pending →
  p_read_visible p b (p_current_snapshot p) = contents h b.
Proof. intros [[Hwf _ _ _ Hn] _ _]. rewrite <-Hn. by apply read_current. Qed.

Lemma holds_snapshot p ck h pending : persist_holds p ck h pending →
  p_current_snapshot p = mkSnapshot (last_seq 0 h).
Proof.
  intros [[_ _ _ Hn _] [Ha _] _]. unfold p_current_snapshot, current_snapshot. rewrite Hn.
  apply accepted_last_seq in Ha. f_equal. unfold saturating_sub. lia.
Qed.

(** C4. A durable commit is all or nothing, in memory and on file, whichever
    system call fails.  On success exactly one record was appended, it carries
    the merged writes and the next number, it is synced under [Immediate], and
    the newest contents are the old ones overwritten by that record.  On an
    error the sequence counter, the newest contents and what every registered
    snapshot reads are as before, and the log has its old contents, or the
    writer refuses all further work. *)
Theorem durable_commit_atomic io p ck txn time use_ssi p' r h pending :
  txn_wf txn → timing_ok time → txn_typed (next_txn (p_store p)) txn →
  persist_holds p ck h pending → commit_internal io p txn time use_ssi = Ret (p', r) →
  match r with
  | Ok seq => ∃ c, commit_record (p_store p) txn seq c ∧ seq = last_seq 0 h + 1 ∧
      f_bytes (w_file (p_wal p')) = f_bytes (w_file (p_wal p)) ++ record_image c ∧
      (sync_policy (config (p_wal p)) = Immediate →
       f_synced (w_file (p_wal p')) = zlen (f_bytes (w_file (p_wal p')))) ∧
      ∀ b, p_read_visible p' b (p_current_snapshot p') =
           after_commit b (p_read_visible p b (p_current_snapshot p)) c
  | Err _ => p_current_snapshot p' = p_current_snapshot p ∧
      (∀ b, p_read_visible p' b (p_current_snapshot p') = p_read_visible p b (p_current_snapshot p)) ∧
      (∀ b snap, registered (p_store p') snap → p_read_visible p' b snap = p_read_visible p b snap) ∧
      (f_bytes (w_file (p_wal p')) = f_bytes (w_file (p_wal p)) ∨ recovery_required (p_wal p') ≠ None)
  end.
Proof.
  intros Htxn Htm Htt Hp Hc. pose proof (commit_holds _ _ _ _ _ _ _ _ _ _ Htxn Htm Htt Hp Hc) as Hh.
  destruct (decide (recovery_required (p_wal p) = None)) as [Hready|Hsealed].
  2:{ destruct (ensure_ready_sealed _ Hsealed) as [e He]. unfold commit_internal in Hc. rewrite He in Hc.
      injection Hc as <- <-. auto. }
  pose proof Hp as [Hst _ [cs Hlh]]. pose proof (lh_ready _ _ _ _ _ _ Hlh Hready) as (_&Hw&_&_).
  pose proof (commit_internal_effect _ _ _ _ _ _ _ _ Htxn Htm Htt Hst Hw Hc) as Heff. destruct r as [seq|e].
  - destruct Heff as (c&Hrec&_&_&Hseq&Hst'&_&Hb&_&_&_&Himm). exists c. split_and!; [done..| |done|].
    { by rewrite Hb, log_image_cons, app_nil_r. }
    intros b. rewrite (holds_reads p ck h pending b Hp), <-contents_snoc, <-(sh_newest _ _ Hst').
    by apply read_current, (sh_wf _ (h ++ [c])).
  - destruct Hh as (pending'&Hp'&_). destruct Heff as (_&_&_&Hreg&Hlog).
    rewrite (holds_snapshot _ _ _ _ Hp), (holds_snapshot _ _ _ _ Hp'). split_and!; [done| |done|].
    + intros b. pose proof (holds_reads _ _ _ _ b Hp) as Hr. pose proof (holds_reads _ _ _ _ b Hp') as Hr'.
      rewrite (holds_snapshot _ _ _ _ Hp) in Hr. rewrite (holds_snapshot _ _ _ _ Hp') in Hr'. congruence.
    + destruct Hlog as [->|[(_&?&_)|(c&e'&_&_&_&(reason&Hs&_)&_)]]; [by left|by left|right; congruence].
Qed.
End correct.
