(* ===== verification/PersistOpen.v ===== *)
(** * Opening what a crash left

    Opening a durable store whose files are calm finds exactly the history they
    represent.  With the invariant of [PersistCorrect] this makes commits
    durable: what was acknowledged before a crash is there after it. *)

From stdpp Require Import base sorting numbers gmap list.
From S2P Require Import Prelude Sorted Merge Chain Txn Policy Metrics Store StoreLemmas StoreInv.
From S2P Require Import StoreCorrect StoreTyped Wal WalReplay WalWriter WalReader Checkpoint Persist.
From S2P Require Import PersistLemmas PersistCorrect.

Local Open Scope Z_scope.

(** ** Computations over the files *)

(** No cancellation is to come. *)
Definition quiet (w : Opening) : Prop := Forall (λ c, c = false) (ow_cancel w).

(** Under any answers [m] returns: a value with [P], or an error that leaves a
    file with [F].  A calm system ([ok] and no cancellation) gives no error. *)
Definition opens {A} (ok : Prop) (F : WalFile → Prop) (m : replayM Opening A) (w : Opening)
    (P : WalFile → A → Prop) : Prop :=
  match m w with
  | Ret (w', Ok a) => P (ow_file w') a ∧ (ok → quiet w → quiet w')
  | Ret (w', Err _) => F (ow_file w') ∧ ¬ (ok ∧ quiet w)
  | Panic => False
  end.

Lemma opens_ret {A} ok F (a : A) w (P : WalFile → A → Prop) : P (ow_file w) a → opens ok F (mret a) w P.
Proof. by intros Hp. Qed.

Lemma opens_throw {A} ok F e w (P : WalFile → A → Prop) : F (ow_file w) → ¬ ok → opens ok F (throw e) w P.
Proof. intros Hf Hn. split; [done|by intros []]. Qed.

Lemma opens_bind {A B} ok F (m : replayM Opening A) (g : A → replayM Opening B) w Q P :
  opens ok F m w Q → (∀ a w1, Q (ow_file w1) a → opens ok F (g a) w1 P) → opens ok F (m ≫= g) w P.
Proof.
  unfold opens, mbind, replayM_bind. destruct (m w) as [[w1 [a|e]]|]; [|done..].
  intros [Hq Hc] Hg. specialize (Hg a w1 Hq). destruct (g a w1) as [[w2 [b|e]]|]; naive_solver.
Qed.

Lemma opens_weaken {A} ok F (m : replayM Opening A) w P Q :
  opens ok F m w Q → (∀ f a, Q f a → P f a) → opens ok F m w P.
Proof. unfold opens. destruct (m w) as [[w1 [a|e]]|]; naive_solver. Qed.

(** A cancellation check in front. *)
Lemma opens_cx {B} ok F (g : () → replayM Opening B) w P : F (ow_file w) →
  (∀ w1, ow_file w1 = ow_file w → opens ok F (g ()) w1 P) → opens ok F (cx_checkpoint ≫= g) w P.
Proof.
  intros Hf Hg. apply opens_bind with (Q := λ f _, f = ow_file w); [|by intros [] w1; apply Hg].
  unfold opens, cx_checkpoint, quiet. destruct (ow_cancel w) as [|c cs] eqn:E; [by rewrite E|].
  destruct c; simpl; (split; [done|]); [intros [_ Hq]|intros _ Hq];
    apply Forall_cons in Hq as [? ?]; done.
Qed.

Lemma std_read_exact_loop_parses fuel d got src rest :
  src_bytes src = d ++ rest → (length d + length (src_script src) <= fuel)%nat →
  match std_read_exact_loop fuel (zlen d) got src with
  | Ret (src', Ok b) => b = got ++ d ∧ src_bytes src' = rest ∧ (calm src → calm src')
  | Ret (_, Err e) => io_error e ∧ ¬ calm src
  | Panic => False
  end.
Proof.
  revert d got src. induction fuel as [|fuel IH]; intros d got src Hs Hf; cbn [std_read_exact_loop].
  all: destruct d as [|x d']; [rewrite zlen_nil; simpl; by rewrite app_nil_r|].
  { simpl in Hf. lia. }
  set (d := x :: d') in *. assert (1 <= zlen d) by (unfold d; rewrite zlen_cons; pose proof (zlen_nonneg d'); lia).
  rewrite (proj2 (Z.leb_gt _ _)) by lia. unfold mbind, replayM_bind.
  destruct (read_call_cases (zlen d) src ltac:(lia))
    as [(Hc&s2&code&->)|(s2&Hc2&[(->&Hb2&Hl2)|(b&->&Hb2&Hlen&Hpos&Hl2)])]; [naive_solver| |].
  - specialize (IH d got s2 ltac:(by rewrite Hb2) ltac:(lia)).
    destruct (std_read_exact_loop fuel _ got s2) as [[s3 [r|e]]|]; naive_solver.
  - destruct b as [|y b].
    { split; [done|]. intros Hc. rewrite Hs, zlen_app in Hpos. pose proof (zlen_nonneg rest).
      specialize (Hpos Hc ltac:(lia)). by rewrite zlen_nil in Hpos. }
    set (c := y :: b) in *. rewrite Hs in Hb2.
    destruct (app_front d rest c (src_bytes s2) Hb2 ltac:(lia)) as (d2&Hd&Hs2).
    assert (zlen d - zlen c = zlen d2) as -> by (rewrite Hd, zlen_app; lia).
    specialize (IH d2 (got ++ c) s2 Hs2). rewrite Hd, length_app in Hf. unfold c in Hf at 1. simpl in Hf.
    specialize (IH ltac:(lia)). rewrite Hd, app_assoc.
    destruct (std_read_exact_loop fuel _ _ s2) as [[s4 [r|e]]|]; naive_solver.
Qed.

Lemma std_read_exact_parses d : parses d (std_read_exact (zlen d)) d.
Proof.
  intros src rest Hs. apply (std_read_exact_loop_parses _ d [] src rest Hs). unfold zlen. lia.
Qed.

Section opening.
Context `{UnstableSort} `{Crc32cAppend} `{VersionCodec}.

(** ** Replaying the log of a file *)

(** The next computation of the source: it goes on behind what it parses, or an
    uncalm source made it fail. *)
Lemma on_source_then {A B} d (m : replayM Source A) a (g : A → replayM (Replaying MvccStore) B)
    src rest n s (R : outcome (Replaying MvccStore * res ReplayError B) → Prop) :
  parses d m a → src_bytes src = d ++ rest →
  (∀ src', src_bytes src' = rest → (calm src → calm src') → R (g a (mkReplaying src' n s))) →
  (∀ w e, ¬ calm src → R (Ret (w, Err e))) → R ((on_source m ≫= g) (mkReplaying src n s)).
Proof.
  intros Hp Hs Hg He. specialize (Hp src rest Hs). unfold mbind, replayM_bind, on_source. simpl.
  destruct (m src) as [[s1 [a'|e]]|]; [|naive_solver|done]. destruct Hp as (->&?&?). auto.
Qed.

Lemma checkpoint_parses : parses [] checkpoint ().
Proof.
  intros src rest Hs. destruct (checkpoint_cases src) as [[Hc [s1 ->]]|(s1&->&Hb&_&Hc)]; [done|].
  rewrite Hb. done.
Qed.

Lemma check_header_image {W} (w : W) : check_header header_image w = Ret (w, Ok ()).
Proof. reflexivity. Qed.

Lemma replay_wal_runs data script cancel seek s skip cs tail o :
  bytes_ok data → HEADER_SIZE + zlen data <= usize_max → log_reads 0 0 data cs tail o →
  let src := mkSource (header_image ++ data) script cancel in
  match replay_wal_from_seq seek skip (HEADER_SIZE + zlen data) (mkReplaying src 0 s) with
  | Ret (w', Ok (pos, _)) => pos = HEADER_SIZE + zlen (log_image cs) ∧
      rp_state w' = foldl apply_wal_commit s (applied skip cs) ∧ (calm src → calm (rp_source w'))
  | Ret (_, Err _) => ¬ (seek = true ∧ calm src)
  | Panic => False
  end.
Proof.
  intros Hok Hlen Hr src. pattern (replay_wal_from_seq seek skip (HEADER_SIZE + zlen data) (mkReplaying src 0 s)).
  match goal with |- ?R' _ => set (R := R') end.
  assert (∀ w e, ¬ calm src → R (Ret (w, Err e))) as Hfail by (intros w e Hn [_ Hc]; done).
  unfold replay_wal_from_seq.
  eapply (on_source_then []); [apply checkpoint_parses|done| |exact Hfail]. intros s1 Hs1 Hc1.
  destruct seek; [|by intros []]. cbn [negb].
  eapply (on_source_then header_image); [apply (std_read_exact_parses header_image)|exact Hs1| |naive_solver].
  intros s2 Hs2 Hc2.
  eapply (on_source_then []); [apply checkpoint_parses|exact Hs2| |naive_solver]. intros s3 Hs3 Hc3.
  unfold mbind at 1, replayM_bind at 1. rewrite check_header_image.
  pose proof (zlen_nonneg data). rewrite (proj2 (Z.ltb_ge _ _)) by lia. replace (HEADER_SIZE + zlen data - HEADER_SIZE) with (zlen data) by lia.
  unfold mbind at 1, replayM_bind at 1. cbn [take_range rp_source rp_state].
  unfold mbind, replayM_bind.
  pose proof (replay_reader_replays TruncateToLastGood data [] (src_script s3) (src_cancel s3) skip
    apply_wal_commit s ltac:(by rewrite app_nil_r) ltac:(unfold HEADER_SIZE in *; lia)) as Hrep.
  cbv zeta in Hrep. rewrite app_nil_r in Hrep.
  assert (mkSource data (src_script s3) (src_cancel s3) = s3) as Heq by (destruct s3; simpl in *; by subst).
  rewrite Heq in Hrep.
  destruct (replay_reads TruncateToLastGood data skip apply_wal_commit s cs tail o Hok
    ltac:(unfold HEADER_SIZE in *; lia) Hr) as (r&Hbuf&Hres). simpl in Hres.
  rewrite Hbuf in Hrep.
  destruct (replay_reader _ _ _ _ _) as [[w' [r'|e]]|]; [| |done].
  - destruct Hrep as [[= Hst Hrr] Hc']. rewrite Hres in Hrr. injection Hrr as <-. simpl.
    assert (zlen (log_image cs) <= zlen data) as Hle.
    { destruct Hr as (->&_). rewrite zlen_app. pose proof (zlen_nonneg tail). lia. }
    pose proof (zlen_nonneg (log_image cs)). unfold checked_add.
    rewrite (proj2 (Z.leb_le _ _)) by (unfold HEADER_SIZE, usize_max, u64_max in *; lia).
    split; [done|]. split; [done|]. auto.
  - destruct Hrep as [(_&Hn&_)|(e0&[= _ Herr]&_)]; [|by rewrite Hres in Herr]. apply Hfail. naive_solver.
Qed.

Lemma replay_holds s hc l : store_holds s hc → accepted (last_seq 0 hc) l → Forall well_logged l →
  store_holds (foldl apply_wal_commit s l) (hc ++ l).
Proof.
  revert s hc. induction l as [|c l IH]; intros s hc Hs Hacc Hall; [by rewrite app_nil_r|].
  apply Forall_cons in Hall as [Hc Hall]. destruct Hacc as (Hlt&Hn1&Hn2&Hacc).
  pose proof Hs as [Hwf Hty Hp Hn Hb].
  destruct (apply_wal_commit_ok s c) as (Hwf'&Hty'&Hn'&Hp'&Hb'); [done..|lia|done|done|].
  cbn [foldl]. replace (hc ++ c :: l) with ((hc ++ [c]) ++ l) by by rewrite <-app_assoc.
  apply IH; [|by rewrite last_seq_default|done]. constructor; [done..| | |].
  - congruence.
  - by rewrite last_seq_default.
  - intros b. by rewrite Hb', contents_snoc, Hb.
Qed.

Lemma store_new_holds : store_holds store_new [].
Proof.
  constructor; [apply store_new_wf|apply store_new_typed|done|done|].
  intros b. unfold newest. simpl. by rewrite lookup_empty.
Qed.

(** ** A calm opening *)

(** Every call answers as a healthy system does, for a log of [total] bytes
    and the checkpoint file [ckpt]. *)
Record io_calm (io : OpenIo) (total : Z) (ckpt : option bytes) : Prop := {
  ic_admit : ∀ f, open_owned_wal (oi_admit io) f = (file_sync f, Ok ());
  ic_exists : oi_try_exists io = true;
  ic_checkpoint : ∀ b, ckpt = Some b → oi_checkpoint io = mkCheckpointIo (Some true) (Some (zlen b));
  ic_checkpoint_script : Forall answer_calm (oi_checkpoint_script io);
  ic_metadata : oi_metadata io = true;
  ic_seek : oi_seek io = true;
  ic_wal_script : Forall answer_calm (oi_wal_script io);
  ic_observed : oi_observed io = Some total;
  ic_set_len : oi_set_len io = None;
  ic_sync : oi_sync io = true;
  ic_header_write : oi_header_write io = None;
  ic_header_sync : oi_header_sync io = true;
}.

(** A synced log file. *)
Definition log_file_of (cs : list WalCommit) : WalFile :=
  let b := header_image ++ log_image cs in mkWalFile b (zlen b).

(** The file is empty, or a header and bytes whose longest valid run is [cs]. *)
Definition log_file (b : bytes) (cs : list WalCommit) : Prop :=
  (b = [] ∧ cs = []) ∨
  ∃ data tail o, b = header_image ++ data ∧ bytes_ok data ∧ log_reads 0 0 data cs tail o.

Lemma log_file_accepted b cs : log_file b cs → accepted 0 cs.
Proof. intros [[_ ->]|(?&?&?&_&_&_&_&?&_)]; done. Qed.

(** What an opening that fails leaves of a file: all of it, or its valid run. *)
Definition kept (f : WalFile) (cs : list WalCommit) (f' : WalFile) : Prop :=
  f_bytes f = [] ∨
  ((f_bytes f' = f_bytes f ∨ f' = log_file_of cs) ∧
   Z.min (f_synced f) (zlen (header_image ++ log_image cs)) <= f_synced f' <= zlen (f_bytes f')).

(** What an opening returns. *)
Record opened (p : PersistentMvccStore) (options : PersistOptions) (h cs : list WalCommit) : Prop := {
  od_store : store_holds (p_store p) h;
  od_writer : writer_ok (p_wal p);
  od_log : writer_log (p_wal p) cs;
  od_last : last_commit_seq (p_wal p) = last_seq 0 h;
  od_config : config (p_wal p) = to_writer_config options;
  od_synced : f_synced (w_file (p_wal p)) = zlen (f_bytes (w_file (p_wal p)));
}.

Lemma admission_file ad f : let '(f', r) := open_owned_wal ad f in
  match r with Ok _ => f' = file_sync f | Err _ => f' = f ∨ f' = file_sync f end.
Proof.
  unfold open_owned_wal. destruct (ad_open ad); [|by left]. case_if; [by left|].
  destruct (ad_lock ad) as [[]|]; [|by left..]. case_if; [by left|].
  destruct (verify_name _ _); [|by left]. destruct (ad_target ad); [|by left].
  destruct (ad_requested ad); [|by left]. case_if; [by left|]. case_if; [by left|].
  case_if; [by right|]. case_if; [by right|]. destruct (verify_name _ _); [|by right].
  destruct (verify_name _ _); [done|by right].
Qed.

(** A created log is empty and durable; a refused one was not touched. *)
Lemma create_spec io f cfg :
  match create io f cfg with
  | Ret (f', Ok w) => w_file w = f' ∧ writer_ok w ∧ writer_log w [] ∧ config w = cfg ∧
      f_synced f' = zlen (f_bytes f')
  | Ret (f', Err _) => ∀ e, snd (open_owned_wal (cr_admit io) f) = Err e → f_bytes f' = f_bytes f
  | Panic => False
  end.
Proof.
  unfold create. pose proof (admission_file (cr_admit io) f) as Ha.
  destruct (open_owned_wal _ _) as [f1 [[]|e]]; [|by destruct Ha as [->| ->]]. subst f1.
  destruct (cr_set_len io); [done|]. cbn [mbind outcome_bind].
  assert (encode_header default_header = Ret header_image) as -> by reflexivity. cbn [outcome_bind].
  destruct (cr_write io); [done|]. case_if; [done|].
  unfold mbind, outcome_bind. assert (file_sync (file_write (file_set_len (file_sync f) 0) 0 header_image) = mkWalFile header_image HEADER_SIZE)
    as -> by reflexivity.
  split_and!; try done; constructor; try done; by split.
Qed.

(** Loading a written checkpoint, whatever the system answers. *)
Lemma load_any cio s src : store_wf s → store_typed s →
  checkpoint_valid (next_txn s) (next_commit s) (versions_snapshot s) →
  src_bytes src = checkpoint_image (next_txn s) (next_commit s) (versions_snapshot s) →
  match load_checkpoint cio store_new src with
  | Ret (src', Ok s') =>
      s' = loaded_store store_new (next_txn s) (next_commit s)
             (reread_block (dedup_identical (compression_policy store_new)) <$> versions_snapshot s) ∧
      (calm src → calm src')
  | Ret (_, Err e) => ¬ (cio = mkCheckpointIo (Some true) (Some (zlen (src_bytes src))) ∧ calm src)
  | Panic => False
  end.
Proof.
  intros Hs Ht Hv Hsrc. pose proof (wf_next_txn _ Hs). pose proof (wf_next_commit _ Hs).
  destruct (decide (cio = mkCheckpointIo (Some true) (Some (zlen (src_bytes src))))) as [->|Hne].
  { pose proof (load_image s store_new src Hs Ht eq_refl Hv Hsrc) as Hl.
    destruct (load_checkpoint _ _ _) as [[? [?|?]]|]; naive_solver. }
  unfold load_checkpoint. destruct cio as [co cobs]. cbn [ci_open ci_observed].
  pose proof (checkpoint_parses src (src_bytes src) eq_refl) as Hc.
  unfold mbind at 1, replayM_bind at 1. destruct (checkpoint src) as [[s1 [[]|e]]|]; [|naive_solver|done].
  destruct Hc as (_&Hs1&_). destruct co as [[]|]; [|naive_solver..].
  pose proof (decode_checkpoint_parses _ _ (versions_snapshot s) (dedup_identical (compression_policy store_new))
    Hv ltac:(lia) ltac:(lia) ltac:(by apply snapshot_typed) s1 [] ltac:(by rewrite Hs1, Hsrc, app_nil_r)) as Hd.
  rewrite <-Hsrc in Hd. unfold mbind, replayM_bind.
  destruct (decode_checkpoint _ _ s1) as [[s2 [d|e]]|]; [|naive_solver|done].
  unfold publish_checkpoint, mbind, replayM_bind.
  destruct (checkpoint_cases s2) as [[_ [s3 ->]]|(s3&->&_)]; [naive_solver|].
  destruct cobs as [n|]; [|naive_solver]. destruct (Z.eqb_spec n (zlen (src_bytes src))) as [->|]; [done|naive_solver].
Qed.

Lemma loaded_holds s hc : store_holds s hc →
  checkpoint_valid (next_txn s) (next_commit s) (versions_snapshot s) →
  store_holds (loaded_store store_new (next_txn s) (next_commit s)
    (reread_block (dedup_identical (compression_policy store_new)) <$> versions_snapshot s)) hc.
Proof.
  intros [Hs Ht Hp Hn Hb] Hv. pose proof (wf_next_txn _ Hs). pose proof (wf_next_commit _ Hs).
  set (blocks := reread_block _ <$> _). assert (sm_wf blocks) by apply sm_wf_reread, versions_snapshot_wf.
  destruct (loaded_store_ok store_new (next_txn s) (next_commit s) blocks) as [Hwf' Htyped'];
    [apply store_new_wf|done|simpl; lia|simpl; lia|by apply snapshot_reread|].
  pose proof (loaded_store_frame store_new (next_txn s) (next_commit s) blocks ltac:(done) ltac:(lia) ltac:(lia)) as Hfr.
  constructor; [done|done| | |].
  - rewrite Hfr. done.
  - rewrite Hfr. simpl. rewrite <-Hn. lia.
  - intros blk. rewrite <-Hb, <-(read_newest _ blk (mkSnapshot (next_commit s)) Hwf') by
      (rewrite Hfr; simpl; lia). unfold blocks. rewrite snapshot_reads by done. apply read_newest; [done|simpl; lia].
Qed.

(** What the log adds to a checkpoint ends with the log's last commit, if it
    adds anything. *)
Lemma log_last_bound hc cs : accepted 0 cs → accepted 0 (hc ++ applied (last_seq 0 hc) cs) →
  last_seq 0 cs <= last_seq 0 (hc ++ applied (last_seq 0 hc) cs).
Proof.
  intros Hcs Hacc. pose proof (accepted_last_seq _ _ Hacc). apply accepted_app in Hacc as Hsp.
  destruct Hsp as [_ Hap]. destruct cs as [|c cs _] using rev_ind; [done|]. rewrite last_seq_default.
  destruct (Z.le_gt_cases (wc_commit_seq c) (last_seq 0 hc)) as [Hle|Hgt].
  - rewrite last_seq_app. apply accepted_last_seq in Hap. lia.
  - apply (accepted_elem 0 (hc ++ applied (last_seq 0 hc) (cs ++ [c])) c); [done|].
    apply elem_of_app. right. apply applied_elem. split; [lia|]. apply elem_of_app. right. by left.
Qed.

(** One opening, of the file [f] and the checkpoint [ckpt]. *)
Section one.
Context (io : OpenIo) (options : PersistOptions) (f : WalFile) (ckpt : option bytes) (cs : list WalCommit).
Hypothesis Hf : f_synced f <= zlen (f_bytes f).
Let ok : Prop := io_calm io (zlen (f_bytes f)) ckpt.
Let opens_one {A} := opens (A := A) ok (kept f cs).

Lemma kept_refl : kept f cs f.
Proof. right. split; [by left|]. lia. Qed.

Lemma kept_sync : kept f cs (file_sync f).
Proof. right. split; [by left|]. simpl. lia. Qed.

Lemma kept_trimmed : kept f cs (log_file_of cs).
Proof. right. split; [by right|]. unfold log_file_of. cbn [f_synced f_bytes]. lia. Qed.

Lemma admit_opens w : ow_file w = f → opens_one (admit_wal io) w (λ f' _, f' = file_sync f).
Proof.
  intros Hw. unfold opens_one, opens, admit_wal. rewrite Hw.
  pose proof (admission_file (oi_admit io) f) as Ha.
  destruct (open_owned_wal _ _) as [f' [[]|e]] eqn:Ho; [done|]. split.
  - destruct Ha as [->| ->]; [apply kept_refl|apply kept_sync].
  - intros [Hio _]. by rewrite (ic_admit _ _ _ Hio) in Ho.
Qed.

Lemma load_opens b hc w : ckpt = Some b → checkpoint_holds b hc → ow_file w = file_sync f →
  opens_one (on_checkpoint_file io b store_new) w (λ f' s', f' = file_sync f ∧ store_holds s' hc).
Proof.
  intros Hb (s&Hh&Hv&->) Hw. pose proof Hh as [Hs Ht Hp Hn Hnew]. unfold opens_one, opens, on_checkpoint_file.
  set (img := checkpoint_image _ _ _) in *. set (src := mkSource img (oi_checkpoint_script io) (ow_cancel w)).
  pose proof (load_any (oi_checkpoint io) s src Hs Ht Hv eq_refl) as Hl.
  destruct (load_checkpoint _ _ _) as [[src' [s'|e]]|]; [| |done].
  2:{ cbn [ow_file]. rewrite Hw. split; [apply kept_sync|]. intros [Hio Hq]. apply Hl.
      split; [by apply (ic_checkpoint _ _ _ Hio)|]. split; [apply (ic_checkpoint_script _ _ _ Hio)|done]. }
  destruct Hl as [-> Hc']. split; [split; [done|by apply loaded_holds]|].
  intros Hio Hq. apply Hc'. split; [apply (ic_checkpoint_script _ _ _ Hio)|done].
Qed.

Lemma finish_opens s pos stats recovery h w :
  store_holds s h → Forall well_logged cs → accepted 0 cs → last_seq 0 cs <= last_seq 0 h →
  pos = zlen (header_image ++ log_image cs) → ow_file w = log_file_of cs →
  opens_one (finish_open options s pos stats recovery) w
    (λ _ p, opened p options h cs ∧ checkpoint_commit_seq (p_stats p) = checkpoint_commit_seq stats).
Proof.
  intros Hs Hcs Hacc Hlast -> Hw. unfold opens_one, opens, finish_open. split; [|done]. split; [|done].
  pose proof (accepted_last_seq _ _ Hacc). pose proof (sh_next _ _ Hs).
  assert (saturating_sub (next_commit s) 1 = last_seq 0 h) as -> by (unfold saturating_sub; lia).
  rewrite Hw. unfold log_file_of. set (img := header_image ++ log_image cs). pose proof (zlen_nonneg img).
  constructor; cbn; [done| | |done..].
  - by constructor; cbn.
  - constructor; cbn; [done| |done|lia]. eapply Forall_impl; [exact Hcs|]. by intros c [].
Qed.

(** Cutting the file behind its valid run. *)
Lemma set_len_valid data tail : f_bytes f = header_image ++ data → data = log_image cs ++ tail →
  file_set_len (file_sync f) (HEADER_SIZE + zlen (log_image cs)) = log_file_of cs.
Proof.
  intros Hb ->. unfold file_set_len, file_sync, log_file_of. cbn [f_bytes f_synced]. rewrite Hb, app_assoc.
  set (img := header_image ++ log_image cs).
  assert (HEADER_SIZE + zlen (log_image cs) = zlen img) as -> by (unfold img; by rewrite zlen_app, zlen_header).
  rewrite resize_app, zlen_app. pose proof (zlen_nonneg tail). f_equal. lia.
Qed.

Lemma trim_opens data tail w : f_bytes f = header_image ++ data → data = log_image cs ++ tail →
  ow_file w = file_sync f →
  opens_one (truncate_wal_tail_if_needed io (HEADER_SIZE + zlen (log_image cs)) (zlen (f_bytes f))) w
    (λ f' _, f' = log_file_of cs).
Proof.
  intros Hb Hd Hw. pose proof kept_sync as Hk. pose proof (set_len_valid data tail Hb Hd) as Hcut.
  unfold truncate_wal_tail_if_needed. apply opens_cx; [by rewrite Hw|]. intros w1 Hw1. rewrite Hw in Hw1.
  destruct (oi_observed io) as [n|] eqn:Ho;
    [|apply opens_throw; [by rewrite Hw1|intros Hio; by rewrite (ic_observed _ _ _ Hio) in Ho]].
  case_if; [apply opens_throw; [by rewrite Hw1|]; intros Hio; rewrite (ic_observed _ _ _ Hio) in Ho; naive_solver|].
  pose proof (zlen_nonneg (log_image cs)). pose proof (zlen_nonneg tail).
  assert (zlen (f_bytes f) = HEADER_SIZE + zlen (log_image cs) + zlen tail) as Hz
    by (rewrite Hb, Hd, !zlen_app; rewrite zlen_header; lia).
  rewrite (proj2 (Z.ltb_ge _ _)), (proj2 (Z.ltb_ge (zlen (f_bytes f)) _)) by lia. cbn [orb].
  apply opens_cx; [by rewrite Hw1|]. intros w2 Hw2. rewrite Hw1 in Hw2.
  destruct (Z.ltb_spec (HEADER_SIZE + zlen (log_image cs)) (zlen (f_bytes f))) as [Hlt|Hge].
  - pose proof kept_trimmed. unfold opens, trim_tail. rewrite Hw2, Hcut.
    destruct (oi_set_len io) as [took|] eqn:Hset.
    { split; [by destruct took|]. intros [Hio _]. by rewrite (ic_set_len _ _ _ Hio) in Hset. }
    destruct (oi_sync io) eqn:Hsync; [done|]. split; [done|].
    intros [Hio _]. by rewrite (ic_sync _ _ _ Hio) in Hsync.
  - apply opens_ret. rewrite Hw2. unfold file_sync, log_file_of. rewrite Hb, Hd.
    assert (tail = []) as -> by (destruct tail; [done|rewrite zlen_cons in *; pose proof (zlen_nonneg tail); lia]).
    by rewrite app_nil_r.
Qed.

Lemma length_opens w : ow_file w = file_sync f →
  opens_one (file_length io) w (λ f' n, f' = file_sync f ∧ n = zlen (f_bytes f)).
Proof.
  intros Hw. unfold opens_one, opens, file_length. rewrite Hw. destruct (oi_metadata io) eqn:Hm; [done|].
  split; [apply kept_sync|]. intros [Hio _]. by rewrite (ic_metadata _ _ _ Hio) in Hm.
Qed.

Lemma write_header_opens w : f_bytes f = [] → ow_file w = file_sync f →
  opens_one (write_header io) w (λ f' _, f' = log_file_of []).
Proof.
  intros Hb Hw. assert (∀ f', kept f cs f') as Hk by by left.
  unfold opens_one, opens, write_header. destruct (oi_header_write io) as [landed|] eqn:Hhw.
  { split; [apply Hk|]. intros [Hio _]. by rewrite (ic_header_write _ _ _ Hio) in Hhw. }
  destruct (oi_header_sync io) eqn:Hhs.
  2:{ split; [apply Hk|]. intros [Hio _]. by rewrite (ic_header_sync _ _ _ Hio) in Hhs. }
  split; [|done]. cbn [ow_file]. rewrite Hw. unfold file_sync at 2. by rewrite Hb.
Qed.

Lemma replay_opens s hc data tail o w : ow_file w = file_sync f → store_holds s hc →
  f_bytes f = header_image ++ data → bytes_ok data → HEADER_SIZE + zlen data <= usize_max →
  log_reads 0 0 data cs tail o → let h := hc ++ applied (last_seq 0 hc) cs in history_ok h →
  opens_one (on_wal io s (replay_wal_from_seq (oi_seek io) (last_seq 0 hc) (zlen (f_bytes f)))) w
    (λ f' a, f' = file_sync f ∧ a.1.1 = HEADER_SIZE + zlen (log_image cs) ∧ store_holds a.2 h).
Proof.
  intros Hw Hs Hb Hbo Hlen Hr h [Hacc Hok].
  unfold opens_one, opens, on_wal. rewrite Hw. cbn [file_sync f_bytes]. rewrite Hb, zlen_app, zlen_header.
  set (src := mkSource _ _ _).
  pose proof (replay_wal_runs data (oi_wal_script io) (ow_cancel w) (oi_seek io) s (last_seq 0 hc)
    cs tail o Hbo Hlen Hr) as Hrun. cbv zeta in Hrun. fold src in Hrun.
  assert (ok → quiet w → calm src) as Hcalm by (intros Hio Hq; split; [apply (ic_wal_script _ _ _ Hio)|done]).
  destruct (replay_wal_from_seq _ _ _ _) as [[r [[pos rs]|e]]|]; [| |done]; cbn [ow_file].
  - destruct Hrun as (->&Hst&Hc). split; [|intros Hio Hq; by apply Hc, Hcalm].
    split; [done|]. split; [done|]. cbn [fst snd]. rewrite Hst.
    apply accepted_app in Hacc as [_ ?]. apply Forall_app in Hok as [_ ?]. by apply replay_holds.
  - split; [apply kept_sync|]. intros [Hio Hq]. apply Hrun. split; [apply (ic_seek _ _ _ Hio)|auto].
Qed.

(** The log from its length on: new, or replayed. *)
Lemma open_log_opens s hc stats recovery w : ow_file w = file_sync f → zlen (f_bytes f) <= usize_max →
  log_file (f_bytes f) cs → Forall well_logged cs → store_holds s hc →
  let h := hc ++ applied (last_seq 0 hc) cs in history_ok h →
  opens_one (open_log io options s (last_seq 0 hc) stats recovery) w
    (λ _ p, opened p options h cs ∧ checkpoint_commit_seq (p_stats p) = checkpoint_commit_seq stats).
Proof.
  intros Hw Hlen Hlog Hcs Hs h Hh. pose proof (log_file_accepted _ _ Hlog) as Hacs.
  pose proof (log_last_bound _ _ Hacs (proj1 Hh)) as Hlast.
  unfold open_log. eapply opens_bind; [by apply length_opens|]. intros n w1 [Hw1 ->].
  destruct Hlog as [[Hb Hc]|(data&tail&o&Hb&Hbo&Hr)].
  - rewrite Hb. simpl. apply opens_cx; [by left|]. intros w2 Hw2. rewrite Hw1 in Hw2.
    eapply opens_bind; [by apply write_header_opens|]. intros [] w3 Hw3.
    apply finish_opens; [|done..|by rewrite Hc|by rewrite Hc].
    unfold h. rewrite Hc. simpl applied. by rewrite app_nil_r.
  - pose proof Hr as (Hd&_). rewrite Hb, zlen_app, zlen_header in Hlen. pose proof (zlen_nonneg data).
    rewrite (proj2 (Z.ltb_lt _ _)) by (rewrite Hb, zlen_app, zlen_header; unfold HEADER_SIZE; lia).
    eapply opens_bind; [by eapply replay_opens|].
    intros [[pos rs] s'] w2 (Hw2&Hpos&Hs'). simpl in Hpos. subst pos. cbn [fst snd].
    eapply opens_bind; [by eapply trim_opens|]. intros [] w3 Hw3.
    eapply opens_weaken; [apply (finish_opens s' _ _ _ h); try done; by rewrite zlen_app, zlen_header|done].
Qed.

End one.

(** An opening returns what the checkpoint and the log represent. *)
Lemma open_opens io options f ckpt cs n h w : f_synced f <= zlen (f_bytes f) → ow_file w = f → zlen (f_bytes f) <= usize_max → log_file (f_bytes f) cs →
  Forall well_logged cs → covers n cs ckpt h → history_ok h →
  opens (io_calm io (zlen (f_bytes f)) ckpt) (kept f cs) (open_with_checkpoint_and_options io options ckpt) w
    (λ _ p, opened p options h cs ∧ covers (checkpoint_commit_seq (p_stats p)) cs ckpt h).
Proof.
  intros Hf Hw Hlen Hlog Hcs Hcov Hh. pose proof (log_file_accepted _ _ Hlog) as Hacs.
  pose proof (kept_refl f cs Hf) as Hkr. pose proof (kept_sync f cs Hf) as Hks. unfold open_with_checkpoint_and_options.
  apply opens_cx; [by rewrite Hw|]. intros w1 Hw1. rewrite Hw in Hw1.
  eapply opens_bind; [by apply admit_opens|]. intros [] w2 Hw2.
  apply opens_cx; [by rewrite Hw2|]. intros w3 Hw3. rewrite Hw2 in Hw3.
  destruct (oi_try_exists io) eqn:Hex; cbn [negb].
  2:{ apply opens_throw; [by rewrite Hw3|]. intros Hio. by rewrite (ic_exists _ _ _ Hio) in Hex. }
  destruct ckpt as [b|].
  - destruct Hcov as (hc&Hb&Hn&->).
    eapply opens_bind; [by apply (load_opens _ _ _ _ Hf b hc)|]. intros s w4 [Hw4 Hs].
    apply opens_cx; [by rewrite Hw4|]. intros w5 Hw5. cbv zeta.
    apply opens_cx; [by rewrite Hw5, Hw4|]. intros w6 Hw6. rewrite Hw5, Hw4 in Hw6.
    pose proof (proj1 (proj1 (accepted_app _ _ _) (proj1 Hh))) as Hahc. pose proof (accepted_last_seq _ _ Hahc).
    assert (saturating_sub (next_commit s) 1 = last_seq 0 hc) as ->
      by (rewrite (sh_next _ _ Hs); unfold saturating_sub; lia).
    eapply opens_weaken; [by eapply open_log_opens|]. intros _ p [Hp Hst]. split; [done|].
    rewrite Hst. by exists hc.
  - destruct Hcov as [Hn ->].
    apply opens_cx; [by rewrite Hw3|]. intros w4 Hw4. rewrite Hw3 in Hw4.
    assert (applied (last_seq 0 []) cs = cs) as Hap.
    { apply applied_all. intros c Hc. by apply (accepted_elem 0 cs). }
    eapply opens_weaken.
    { eapply (open_log_opens io options f None cs Hf store_new []); [done..|apply store_new_holds|by rewrite Hap]. }
    intros _ p [Hp Hst]. rewrite Hap in Hp. split; [done|]. by rewrite Hst.
Qed.
End opening.
