(* ===== verification/PersistSystem.v ===== *)
(** * Crashes and restarts

    A durable store as a transition system: it runs, the process stops, the
    power fails, it is opened again, any of it any number of times and with any
    answers of the system.  Commits that were acknowledged under the [Immediate]
    policy are never lost, and a store that is down can be opened. *)

From stdpp Require Import base sorting numbers gmap list.
From S2P Require Import Prelude Sorted Merge Chain Txn Policy Metrics Store StoreLemmas StoreInv.
From S2P Require Import StoreCorrect StoreTyped Wal WalReplay WalWriter WalReader Checkpoint Persist.
From S2P Require Import PersistLemmas PersistCorrect PersistOpen.

Local Open Scope Z_scope.

Section system.
Context `{UnstableSort} `{Crc32cAppend} `{VersionCodec}.

(** ** The files of a store that does not run *)

(** [h] are the commits the files are known to represent, [pending] one that
    may be found as well; [immediate]: nothing of [h] is in the volatile part. *)
Record files_hold (immediate : bool) (f : WalFile) (ck : CheckpointFile) (h pending cs : list WalCommit) :
    Prop := {
  fh_ok : Forall well_logged (cs ++ pending);
  fh_accepted : accepted 0 (cs ++ pending);
  fh_history : history_ok h;
  fh_pending : accepted (last_seq 0 h) pending;
  fh_visible : ∃ n, covers n cs (ck_visible ck) h;
  fh_durable : ∃ n, covers n cs (ck_durable ck) h;
  fh_bytes : f_bytes f `prefix_of` header_image ++ log_image (cs ++ pending);
  fh_synced : HEADER_SIZE <= f_synced f <= zlen (f_bytes f);
  fh_immediate : immediate = true →
    zlen (header_image ++ log_image cs) <= f_synced f ∨
    ((∃ n, covers n [] (ck_visible ck) h) ∧ ∃ n, covers n [] (ck_durable ck) h);
}.

Lemma running_files (imm : bool) p ck h pending : persist_holds p ck h pending →
  (imm = true → sync_policy (config (p_wal p)) = Immediate) →
  ∃ cs, files_hold imm (w_file (p_wal p)) ck h pending cs.
Proof.
  intros [_ Hh [cs [Hok Ha Hp Hv Hd Hb Hs _ Hi]]] Himm. exists cs. constructor; eauto.
  intros Ht. destruct (Hi (Himm Ht)) as [?|[]]; eauto.
Qed.

(** What the power failure leaves of a file: the durable part and some of the
    rest. *)
Definition crash_keeps (f : WalFile) (b : bytes) : Prop :=
  b `prefix_of` f_bytes f ∧ f_synced f <= zlen b.

Lemma files_crash imm f ck h pending cs b c : files_hold imm f ck h pending cs → crash_keeps f b →
  c = ck_visible ck ∨ c = ck_durable ck →
  files_hold imm (mkWalFile b (zlen b)) (mkCheckpointFile c c) h pending cs.
Proof.
  intros [Hok Ha Hh Hp Hv Hd Hb Hs Hi] [Hpre Hsy] Hc.
  constructor; cbn [ck_visible ck_durable f_bytes f_synced]; try done.
  - by destruct Hc as [->| ->].
  - by destruct Hc as [->| ->].
  - by etrans.
  - lia.
  - intros Himm. destruct (Hi Himm) as [?|[]]; [left; lia|right]. by destruct Hc as [->| ->].
Qed.

(** ** What is found in them *)

Lemma prefix_header b X : b `prefix_of` header_image ++ X → HEADER_SIZE <= zlen b →
  ∃ data, b = header_image ++ data ∧ data `prefix_of` X.
Proof.
  intros [k Hk] Hlen. symmetry in Hk.
  destruct (app_front b k header_image X) as (data&Hb&HX); [done|by rewrite zlen_header|].
  exists data. split; [done|]. by exists k.
Qed.

Lemma log_image_prefix cs ds : cs `prefix_of` ds → log_image cs `prefix_of` log_image ds.
Proof. intros [k ->]. rewrite log_image_app. by exists (log_image k). Qed.

(** A log read up to a torn record has every record that is all there. *)
Lemma read_all_synced (cs L : list WalCommit) data k torn :
  cs `prefix_of` L → data = log_image (take k L) ++ torn →
  (torn = [] ∨ ∃ c rest, L !! k = Some c ∧ record_image c = torn ++ rest ∧ rest ≠ []) →
  zlen (log_image cs) <= zlen data → cs `prefix_of` take k L.
Proof.
  intros [r ->] -> Ht Hlen. destruct (decide (length cs <= k)%nat) as [Hle|Hgt].
  { rewrite take_app_ge by done. by apply prefix_app_r. }
  exfalso. rewrite take_app_le in Hlen by lia.
  destruct (lookup_lt_is_Some_2 cs k) as [c Hc]; [lia|].
  rewrite <-(take_drop_middle cs k c Hc) in Hlen at 1.
  rewrite log_image_app, log_image_cons, !zlen_app in Hlen. pose proof (zlen_nonneg (log_image (drop (S k) cs))).
  destruct Ht as [->|(c'&rest&Hc'&Himg&Hrest)].
  - rewrite zlen_nil in Hlen. rewrite zlen_record_image in Hlen. pose proof (zlen_nonneg (payload c)). lia.
  - rewrite lookup_app_l in Hc' by lia. assert (c' = c) as -> by congruence. rewrite Himg, zlen_app in Hlen.
    destruct rest; [done|]. rewrite zlen_cons in Hlen. pose proof (zlen_nonneg rest). lia.
Qed.

(** The records found in the log. *)
Lemma files_read imm f ck h pending cs : files_hold imm f ck h pending cs →
  ∃ k, let cs' := take k (cs ++ pending) in
    log_file (f_bytes f) cs' ∧
    (zlen (header_image ++ log_image cs) <= f_synced f → cs `prefix_of` cs').
Proof.
  intros [Hok Ha _ _ _ _ Hb Hs _].
  assert (Forall loggable (cs ++ pending)) as Hlog by (eapply Forall_impl; [exact Hok|]; by intros c []).
  destruct (prefix_header _ _ Hb ltac:(lia)) as (data&Hdata&q&Hq).
  destruct (crash_reads (cs ++ pending) data q) as (k&torn&Hr&Ht); [done..|].
  exists k. cbv zeta. split.
  - right. exists data, torn, (torn_outcome torn). split_and!; [done| |done].
    pose proof (log_image_ok _ Hlog) as Hbo. rewrite Hq in Hbo. by apply Forall_app in Hbo as [? _].
  - intros Hsy. eapply read_all_synced; [by apply prefix_app_r|by apply Hr|done|].
    rewrite Hdata, !zlen_app in *. lia.
Qed.

Lemma applied_mono n l1 l2 : l1 `prefix_of` l2 → applied n l1 `prefix_of` applied n l2.
Proof. intros [l ->]. rewrite applied_app. by apply prefix_app_r. Qed.

(** The history they make with the checkpoint. *)
Lemma covers_read n cs ckpt h pending k : covers n cs ckpt h → accepted 0 h → accepted (last_seq 0 h) pending →
  ∃ h', covers n (take k (cs ++ pending)) ckpt h' ∧ h' `prefix_of` h ++ pending ∧
    (cs `prefix_of` take k (cs ++ pending) → h `prefix_of` h').
Proof.
  intros Hcov Hacc Hp. destruct ckpt as [b|].
  - destruct Hcov as (hc&Hck&Hn&->). set (a := applied (last_seq 0 hc)) in *.
    exists (hc ++ a (take k (cs ++ pending))). split; [by exists hc|].
    assert (a pending = pending) as Hap.
    { apply applied_all. intros c Hc. apply (accepted_elem _ _ _ Hp) in Hc.
      apply accepted_app in Hacc as [_ Ha]. apply accepted_last_seq in Ha. rewrite last_seq_app in Hc. lia. }
    assert (∀ l1 l2, l1 `prefix_of` l2 → hc ++ a l1 `prefix_of` hc ++ a l2) as Hmono.
    { intros l1 l2 Hl. by apply prefix_app, applied_mono. }
    split; [|apply Hmono]. replace ((hc ++ a cs) ++ pending) with (hc ++ a (cs ++ pending)).
    { apply Hmono, prefix_take. }
    rewrite <-app_assoc. f_equal. rewrite <-Hap at 2. apply applied_app.
  - destruct Hcov as [Hn ->]. exists (take k (cs ++ pending)). split_and!; [done|apply prefix_take|done].
Qed.

(** A checkpoint of all of [h]. *)
Lemma covers_read_full n n' cs ckpt h pending k : covers n [] ckpt h → covers n' cs ckpt h →
  accepted 0 (cs ++ pending) → accepted 0 h → accepted (last_seq 0 h) pending →
  ∃ h', covers n (take k (cs ++ pending)) ckpt h' ∧ h' `prefix_of` h ++ pending ∧ h `prefix_of` h'.
Proof.
  intros Hfull Hcov Hcs Hacc Hp. apply accepted_app in Hcs as [Hcs _]. destruct ckpt as [b|].
  - assert (last_seq 0 cs <= last_seq 0 h) as Hlast.
    { destruct Hcov as (hc&_&_&->). by apply log_last_bound. }
    destruct Hfull as (hc&Hck&Hn&Hh). simpl in Hh. rewrite app_nil_r in Hh. subst hc.
    set (a := applied (last_seq 0 h)).
    exists (h ++ a (take k (cs ++ pending))). split; [by exists h|]. split; [|by apply prefix_app_r].
    apply prefix_app. assert (a (cs ++ pending) = pending) as Hap.
    { unfold a. rewrite applied_app, applied_none, applied_all; [done| |].
      - intros c Hc. apply (accepted_elem _ _ _ Hp) in Hc. lia.
      - intros c Hc. apply (accepted_elem _ _ _ Hcs) in Hc. lia. }
    assert (a (take k (cs ++ pending)) `prefix_of` a (cs ++ pending)) as Hle by apply applied_mono, prefix_take.
    by rewrite Hap in Hle.
  - destruct Hfull as [Hn ->]. destruct Hcov as [_ <-]. exists (take k ([] ++ pending)).
    split_and!; [done|apply prefix_take|apply prefix_nil].
Qed.

(** Together. *)
Lemma files_recover imm f ck h pending cs : files_hold imm f ck h pending cs →
  ∃ k n h', let cs' := take k (cs ++ pending) in
    log_file (f_bytes f) cs' ∧ covers n cs' (ck_visible ck) h' ∧ history_ok h' ∧
    h' `prefix_of` h ++ pending ∧ (imm = true → h `prefix_of` h') ∧
    (zlen (header_image ++ log_image cs) <= f_synced f → cs `prefix_of` cs').
Proof.
  intros Hf. destruct (files_read _ _ _ _ _ _ Hf) as (k&Hlog&Hpre). exists k.
  pose proof Hf as [Hok Ha [Hacc Hwl] Hp [n Hv] _ _ _ Hi].
  assert (∀ h', h' `prefix_of` h ++ pending → history_ok h') as Hhist.
  { intros h' [l Hl]. apply Forall_app in Hok as [_ Hok].
    assert (history_ok (h' ++ l)) as [Ha' Hw'].
    { rewrite <-Hl. split; [by apply accepted_app|by apply Forall_app_2]. }
    apply accepted_app in Ha' as [? _]. by apply Forall_app in Hw' as [? _]. }
  destruct (decide (zlen (header_image ++ log_image cs) <= f_synced f)) as [Hsy|Hns].
  - destruct (covers_read n cs _ h pending k Hv Hacc Hp) as (h'&Hc&Hpr&Hh). exists n, h'. cbv zeta.
    split_and!; auto.
  - destruct imm.
    + destruct (Hi eq_refl) as [?|[[m Hv'] _]]; [done|].
      destruct (covers_read_full m n cs _ h pending k Hv' Hv Ha Hacc Hp) as (h'&Hc&Hpr&Hh).
      exists m, h'. cbv zeta. split_and!; auto.
    + destruct (covers_read n cs _ h pending k Hv Hacc Hp) as (h'&Hc&Hpr&Hh). exists n, h'. cbv zeta.
      split_and!; by auto.
Qed.

(** A failed opening loses nothing. *)
Lemma files_kept imm f ck h pending cs cs' f' : files_hold imm f ck h pending cs →
  cs' `prefix_of` cs ++ pending →
  (zlen (header_image ++ log_image cs) <= f_synced f → cs `prefix_of` cs') → kept f cs' f' →
  files_hold imm f' ck h pending cs.
Proof.
  intros [Hok Ha Hh Hp Hv Hd Hb Hs Hi] Hcs' Hpre Hk.
  destruct Hk as [He|[Hf' Hs']]; [rewrite He, zlen_nil in Hs; unfold HEADER_SIZE in Hs; lia|].
  assert (HEADER_SIZE <= zlen (header_image ++ log_image cs')) as Hlen
    by (rewrite zlen_app, zlen_header; pose proof (zlen_nonneg (log_image cs')); lia).
  constructor; try done.
  - destruct Hf' as [->| ->]; [done|]. unfold log_file_of. cbn [f_bytes].
    by apply prefix_app, log_image_prefix.
  - lia.
  - intros Himm. destruct (Hi Himm) as [Hsy|]; [left|by right].
    assert (zlen (log_image cs) <= zlen (log_image cs')) as Hle.
    { destruct (Hpre Hsy) as [l ->]. rewrite log_image_app, zlen_app. pose proof (zlen_nonneg (log_image l)). lia. }
    rewrite !zlen_app in *. lia.
Qed.

(** Opening them, with any answers of the system. *)
Lemma files_open imm f ck h pending cs io options w :
  files_hold imm f ck h pending cs → zlen (f_bytes f) <= usize_max → ow_file w = f →
  let v := ck_visible ck in
  match open_with_checkpoint_and_options io options v w with
  | Ret (w', Ok p) => ∃ h', persist_holds p (mkCheckpointFile v v) h' [] ∧
      config (p_wal p) = to_writer_config options ∧
      h' `prefix_of` h ++ pending ∧ (imm = true → h `prefix_of` h')
  | Ret (w', Err _) => files_hold imm (ow_file w') ck h pending cs ∧
      ¬ (io_calm io (zlen (f_bytes f)) v ∧ quiet w)
  | Panic => False
  end.
Proof.
  intros Hf Hlen Hw v. destruct (files_recover _ _ _ _ _ _ Hf) as (k&n&h'&Hlog&Hcov&Hh&Hpr&Himm&Hpre).
  set (cs' := take k (cs ++ pending)) in *.
  assert (Forall well_logged cs') as Hcs' by apply Forall_take, (fh_ok _ _ _ _ _ _ Hf).
  pose proof (open_opens io options f v cs' n h' w (proj2 (fh_synced _ _ _ _ _ _ Hf)) Hw Hlen Hlog Hcs' Hcov Hh) as Ho.
  unfold opens in Ho. destruct (open_with_checkpoint_and_options _ _ _ _) as [[w' [p|e]]|]; [| |done].
  - destruct Ho as [[[Hst Hwo Hwl Hlast Hcfg Hsy] Hcv] _]. exists h'. split_and!; [|done..].
    constructor; [done..|]. exists cs'. apply ready_log_holds; try done.
    rewrite Hsy, (wl_bytes _ _ Hwl), zlen_app, zlen_header. pose proof (zlen_nonneg (log_image cs')). lia.
  - destruct Ho as [Hk Hn]. split; [|done]. eapply files_kept; [done|apply (prefix_take _ k)|done|done].
Qed.

(** ** The transition system *)

Inductive System :=
| Running (p : PersistentMvccStore) (ck : CheckpointFile)
| Down (f : WalFile) (ck : CheckpointFile).

(** What the callers of [commit] are told. *)
Inductive Event :=
| Acknowledged (c : WalCommit)
| Declined (txn : Transaction).

Definition told (txn : Transaction) (c : WalCommit) (r : res CommitError Z) : Event :=
  match r with Ok _ => Acknowledged c | Err _ => Declined txn end.

(** Every operation takes the answers of the system it meets.  A process that
    dies inside an operation leaves the files as a failing run of the operation
    does, so stopping between operations is no loss of generality.  The
    checkpoint lies in the directory of the log, which an opening syncs. *)
Inductive step (options : PersistOptions) : System → list Event → System → Prop :=
| step_begin p ck : step options (Running p ck) [] (Running (p_begin p).2 ck)
| step_commit io p ck txn time use_ssi p' r c :
    txn_wf txn → timing_ok time → txn_typed (next_txn (p_store p)) txn →
    commit_internal io p txn time use_ssi = Ret (p', r) →
    (∀ seq, r = Ok seq → commit_record (p_store p) txn seq c) →
    step options (Running p ck) [told txn c r] (Running p' ck)
| step_register p ck snap : step options (Running p ck) [] (Running (p_register_snapshot p snap) ck)
| step_release p ck snap p' released : p_release_snapshot p snap = Ret (p', released) →
    step options (Running p ck) [] (Running p' ck)
| step_sync io p ck : step options (Running p ck) [] (Running (sync io p).1 ck)
| step_checkpoint io p ck p' ck' r : checkpoint_with_directory_sync io p ck = Ret (p', ck', r) →
    step options (Running p ck) [] (Running p' ck')
| step_truncate io observed p ck :
    step options (Running p ck) [] (Running (truncate_wal io observed p).1 ck)
| step_stop p ck : step options (Running p ck) [] (Down (w_file (p_wal p)) ck)
| step_power f ck b c : crash_keeps f b → c = ck_visible ck ∨ c = ck_durable ck →
    step options (Down f ck) [] (Down (mkWalFile b (zlen b)) (mkCheckpointFile c c))
| step_open io f ck cancel w' p : zlen (f_bytes f) <= usize_max →
    open_with_checkpoint_and_options io options (ck_visible ck) (mkOpening f cancel) = Ret (w', Ok p) →
    step options (Down f ck) [] (Running p (mkCheckpointFile (ck_visible ck) (ck_visible ck)))
| step_open_failed io f ck cancel w' e : zlen (f_bytes f) <= usize_max →
    open_with_checkpoint_and_options io options (ck_visible ck) (mkOpening f cancel) = Ret (w', Err e) →
    step options (Down f ck) [] (Down (ow_file w') ck).

Inductive steps (options : PersistOptions) : System → list Event → System → Prop :=
| steps_refl x : steps options x [] x
| steps_snoc x es y e z : steps options x es y → step options y e z → steps options x (es ++ e) z.

(** A store that was just created: no log, no checkpoint. *)
Definition created (options : PersistOptions) (p : PersistentMvccStore) : Prop :=
  ∃ io cancel w', open_with_checkpoint_and_options io options None (mkOpening (mkWalFile [] 0) cancel) =
    Ret (w', Ok p).

Definition acknowledged (es : list Event) : list WalCommit :=
  omap (λ e, match e with Acknowledged c => Some c | Declined _ => None end) es.

(** A commit that some caller asked for. *)
Definition asked (es : list Event) (c : WalCommit) : Prop :=
  Acknowledged c ∈ es ∨ ∃ txn, Declined txn ∈ es ∧ t_id txn = wc_txn_id c.

(** ** Its invariant *)

Definition system_holds (options : PersistOptions) (x : System) (h pending : list WalCommit) : Prop :=
  match x with
  | Running p ck => persist_holds p ck h pending ∧ config (p_wal p) = to_writer_config options
  | Down f ck => ∃ cs, files_hold (sync_on_commit options) f ck h pending cs
  end.

Definition told_right (options : PersistOptions) (es : list Event) (h pending : list WalCommit) : Prop :=
  (sync_on_commit options = true → acknowledged es `sublist_of` h) ∧ ∀ c, c ∈ h ++ pending → asked es c.

Lemma asked_app es e c : asked es c → asked (es ++ e) c.
Proof.
  intros [Hc|(txn&Hc&Hid)]; [left|right; exists txn]; rewrite elem_of_app; auto.
Qed.

Lemma acknowledged_app es e : acknowledged (es ++ e) = acknowledged es ++ acknowledged e.
Proof. apply omap_app. Qed.

(** Nothing was told, and at most unacknowledged commits were lost. *)
Lemma told_right_recovered options es h pending h' : told_right options es h pending →
  h' `prefix_of` h ++ pending → (sync_on_commit options = true → h `prefix_of` h') →
  told_right options (es ++ []) h' [].
Proof.
  intros [Hack Hask] Hpre Himm. rewrite app_nil_r. split.
  - intros Ht. etrans; [by apply Hack|]. destruct (Himm Ht) as [l ->]. by apply sublist_inserts_r.
  - intros c. rewrite app_nil_r. intros Hc. apply Hask. destruct Hpre as [l ->]. apply elem_of_app. by left.
Qed.

Lemma told_right_commit options es h pending txn c s seq : told_right options es h pending →
  commit_record s txn seq c → told_right options (es ++ [told txn c (Ok seq)]) (h ++ [c]) [].
Proof.
  intros [Hack Hask] Hrec. split.
  - intros Ht. rewrite acknowledged_app. by apply sublist_app; [apply Hack|].
  - intros c'. rewrite app_nil_r, elem_of_app, list_elem_of_singleton. intros [Hc| ->].
    + apply asked_app, Hask, elem_of_app. by left.
    + left. apply elem_of_app. right. by left.
Qed.

Lemma told_right_declined options es h pending pending' txn c s e : told_right options es h pending →
  pending' = pending ∨ (∃ c', pending' = [c'] ∧ commit_record s txn (wc_commit_seq c') c') →
  told_right options (es ++ [told txn c (Err e)]) h pending'.
Proof.
  intros [Hack Hask] Hp. split.
  - intros Ht. rewrite acknowledged_app, app_nil_r. auto.
  - intros c'. rewrite elem_of_app. intros [Hc|Hc]; [apply asked_app, Hask, elem_of_app; by left|].
    destruct Hp as [->|(c2&->&l&_&Hid)]; [apply asked_app, Hask, elem_of_app; by right|].
    apply list_elem_of_singleton in Hc as ->. right. exists txn. split; [apply elem_of_app; right; by left|].
    by rewrite Hid.
Qed.

Lemma checkpoint_config io p ck p' ck' r : checkpoint_with_directory_sync io p ck = Ret (p', ck', r) →
  p_wal p' = p_wal p.
Proof.
  unfold checkpoint_with_directory_sync. destruct (write_temporary io (p_store p)) as [t|]; intros Hc;
    repeat (case_match; simplify_eq/=; try done).
Qed.

Lemma truncate_config io observed p : config (p_wal (truncate_wal io observed p).1) = config (p_wal p).
Proof.
  unfold truncate_wal. destruct (ensure_ready _); [|done]. case_if; [done|].
  match goal with |- context [truncate_after_checkpoint ?a ?b ?c ?d] =>
    pose proof (truncate_after_checkpoint_config a b c d) as Hc;
    destruct (truncate_after_checkpoint a b c d) as [w [n|e]] end; done.
Qed.

Lemma commit_record_unique s txn seq c c' : commit_record s txn seq c → commit_record s txn seq c' → c = c'.
Proof. intros (l&Hl&->) (l'&Hl'&->). congruence. Qed.

Lemma commit_step_holds options io p ck txn time use_ssi p' r c es h pending :
  txn_wf txn → timing_ok time → txn_typed (next_txn (p_store p)) txn →
  commit_internal io p txn time use_ssi = Ret (p', r) →
  (∀ seq, r = Ok seq → commit_record (p_store p) txn seq c) →
  persist_holds p ck h pending → told_right options es h pending →
  ∃ h' pending', persist_holds p' ck h' pending' ∧ told_right options (es ++ [told txn c r]) h' pending'.
Proof.
  intros Htw Htm Htt Hrun Hrec Hp Htold.
  pose proof (commit_holds _ _ _ _ _ _ _ _ _ _ Htw Htm Htt Hp Hrun) as Hc. destruct r as [seq|e].
  - destruct Hc as (c'&Hrec'&Hp'). specialize (Hrec seq eq_refl).
    rewrite (commit_record_unique _ _ _ _ _ Hrec' Hrec) in Hp'. exists (h ++ [c]), []. split; [done|].
    by eapply told_right_commit.
  - destruct Hc as (pending'&Hp'&Hpend). exists h, pending'. split; [done|]. by eapply told_right_declined.
Qed.

Lemma options_immediate options w : config w = to_writer_config options →
  sync_on_commit options = true → sync_policy (config w) = Immediate.
Proof. intros -> Hs. unfold to_writer_config. simpl. by rewrite Hs. Qed.

(** Every step keeps the invariant and tells the truth. *)
Lemma step_holds options x e y es h pending : step options x e y →
  system_holds options x h pending → told_right options es h pending →
  ∃ h' pending', system_holds options y h' pending' ∧ told_right options (es ++ e) h' pending'.
Proof.
  intros Hstep. destruct Hstep as [p ck|io p ck txn time use_ssi p' r c Htw Htm Htt Hrun Hrec|p ck snap
    |p ck snap p' released Hrun|io p ck|io p ck p' ck' r Hrun|io observed p ck|p ck|f ck b c Hkeep Hc
    |io f ck cancel w' p Hlen Hrun|io f ck cancel w' e Hlen Hrun];
    cbn [system_holds]; intros Hx Htold; rewrite ?(app_nil_r es).
  - destruct Hx. exists h, pending. split; [|done]. split; [by apply begin_holds|done].
  - destruct Hx as [Hp Hcfg]. destruct (commit_internal_frame _ _ _ _ _ _ _ Hrun) as [_ Hcfg'].
    destruct (commit_step_holds options io p ck txn time use_ssi p' r c es h pending) as (h'&pending'&?&?);
      [done..|]. exists h', pending'. split; [|done]. split; [done|]. congruence.
  - destruct Hx. exists h, pending. split; [|done]. split; [by apply register_holds|done].
  - destruct Hx as [Hp Hcfg]. destruct (release_holds p ck snap h pending Hp) as (p2&r2&Hrun2&Hp2).
    rewrite Hrun in Hrun2. injection Hrun2 as <- <-. exists h, pending. split; [|done]. split; [done|].
    apply outcome_bind_Ret in Hrun as ([s r]&_&[= <- _]). done.
  - destruct Hx as [Hp Hcfg]. exists h, pending. split; [|done]. split; [by apply sync_holds|].
    rewrite <-Hcfg, <-(flush_config io (p_wal p)). unfold sync. by destruct (flush _ _) as [? []].
  - destruct Hx as [Hp Hcfg]. destruct (checkpoint_holds_op io p ck h pending Hp) as (p2&ck2&r2&Hrun2&Hp2).
    rewrite Hrun in Hrun2. injection Hrun2 as <- <- <-. exists h, pending. split; [|done]. split; [done|].
    by rewrite (checkpoint_config _ _ _ _ _ _ Hrun).
  - destruct Hx as [Hp Hcfg]. exists h, pending. split; [|done]. split; [by apply truncate_holds|].
    by rewrite truncate_config.
  - destruct Hx as [Hp Hcfg]. exists h, pending. split; [|done].
    by apply running_files; [|apply options_immediate].
  - destruct Hx as [cs Hf]. exists h, pending. split; [|done]. exists cs. by eapply files_crash.
  - destruct Hx as [cs Hf].
    pose proof (files_open _ f ck h pending cs io options (mkOpening f cancel) Hf Hlen eq_refl) as Ho.
    cbv zeta in Ho. rewrite Hrun in Ho. destruct Ho as (h'&Hp&Hcfg&Hpre&Himm). exists h', [].
    split; [done|]. rewrite <-(app_nil_r es). by eapply told_right_recovered.
  - destruct Hx as [cs Hf].
    pose proof (files_open _ f ck h pending cs io options (mkOpening f cancel) Hf Hlen eq_refl) as Ho.
    cbv zeta in Ho. rewrite Hrun in Ho. destruct Ho as [Hk _]. exists h, pending. split; [|done]. by exists cs.
Qed.

Lemma steps_hold options x es y h pending : steps options x es y →
  system_holds options x h pending → told_right options [] h pending →
  ∃ h' pending', system_holds options y h' pending' ∧ told_right options es h' pending'.
Proof.
  intros Hsteps Hx Ht. induction Hsteps as [x|x es y e z _ IH Hstep]; [by exists h, pending|].
  destruct (IH Hx) as (h1&pending1&Hy&Ht1). by eapply step_holds.
Qed.

Lemma created_holds options p : created options p → system_holds options (Running p (mkCheckpointFile None None)) [] [].
Proof.
  intros (io&cancel&w'&Hrun).
  pose proof (open_opens io options (mkWalFile [] 0) None [] 0 [] (mkOpening (mkWalFile [] 0) cancel)) as Ho.
  unfold opens in Ho. rewrite Hrun in Ho.
  destruct Ho as [[[Hst Hwo Hwl Hlast Hcfg Hsy] Hcv] _]; try done; [by left|].
  split; [|done]. constructor; [done..|]. exists []. apply ready_log_holds; try done.
  by rewrite Hsy, (wl_bytes _ _ Hwl).
Qed.

Lemma reachable_holds options p es y : created options p →
  steps options (Running p (mkCheckpointFile None None)) es y →
  ∃ h pending, system_holds options y h pending ∧ told_right options es h pending.
Proof.
  intros Hp Hs. eapply steps_hold; [done|by apply created_holds|]. split; [done|]. by intros c ?%elem_of_nil.
Qed.



End system.
