(* ===== verification/PersistWitness.v ===== *)
(** * Persistence scenarios

    Concrete checkpoints, logs and stores that satisfy the hypotheses of the
    persistence theorems. *)

From stdpp Require Import base sorting numbers gmap list.
From S2P Require Import Prelude Sorted Merge Chain Txn Policy Metrics Store StoreLemmas StoreInv.
From S2P Require Import StoreCorrect StoreLimits StorePreflight StoreTyped StoreWitness Wal WalReplay WalWriter WalReader Checkpoint.
From S2P Require Import Persist PersistLemmas PersistCorrect PersistOpen PersistSystem.

Local Open Scope Z_scope.

#[local] Existing Instance RleCodec.
#[local] Existing Instance InsertionSort.
#[local] Existing Instance BitwiseCrc.
#[local] Existing Instance BitwiseCrcAppend.

(** Two versions of block 5, the older one kept for a registered reader. *)
Definition ops_kept : list op :=
  [OpBegin; OpBegin; OpCommit txn_a no_delay; OpRegister (mkSnapshot 1); OpCommit txn_b no_delay].

Lemma after_kept_wf : store_wf (after ops_kept).
Proof. apply after_wf. ops_ok. Qed.

Lemma after_kept_typed : store_typed (after ops_kept).
Proof.
  unfold after. destruct (run ops_kept store_new) as [s|] eqn:E; [|by vm_compute in E].
  apply (run_typed ops_kept store_new s); [ops_ok| |apply store_new_wf|apply store_new_typed|exact E].
  apply ops_typedb_sound. vm_compute. reflexivity.
Qed.

(** Did the computation succeed? *)
Definition succeeds {W A} (r : outcome (W * res ReplayError A)) : bool :=
  match r with Ret (_, Ok _) => true | _ => false end.

(** The checkpoint of a store with two versions of block 5. *)
Definition written : outcome (Sink * res ReplayError ()) :=
  write_checkpoint (next_txn (after ops_kept)) (next_commit (after ops_kept))
    (versions_snapshot (after ops_kept)) (mkSink [] []).

Definition written_bytes : bytes := match written with Ret (k, _) => sk_out k | Panic => [] end.

(** Read back through short reads and an interruption. *)
Definition choppy : Source := mkSource written_bytes [Got 3; Interrupted; Got 1] [].

Definition reload (src : Source) : outcome (Source * res ReplayError MvccStore) :=
  load_checkpoint (mkCheckpointIo (Some true) (Some (zlen (src_bytes src)))) store_new src.

Lemma checkpoint_roundtrip_witness :
  succeeds written = true ∧ zlen written_bytes = 92 ∧ succeeds (reload choppy) = true ∧
  match written with
  | Ret (k, Ok _) =>
      match reload (mkSource (sk_out k) [Got 3; Interrupted; Got 1] []) with
      | Ret (_, Ok s') => ∀ b snap, read_visible s' b snap = read_visible (after ops_kept) b snap
      | _ => True
      end
  | _ => False
  end.
Proof.
  split; [vm_compute; reflexivity|]. split; [vm_compute; reflexivity|]. split; [vm_compute; reflexivity|].
  assert (succeeds written = true) as Hw by (vm_compute; reflexivity). revert Hw.
  pose proof (checkpoint_roundtrip (after ops_kept) store_new [] after_kept_wf after_kept_typed
    store_new_wf eq_refl ltac:(vm_compute; discriminate) ltac:(vm_compute; discriminate)) as H.
  fold written in H. destruct written as [[k [u|e]]|]; simpl; [|discriminate..]. intros _.
  specialize (H (mkSource (sk_out k) [Got 3; Interrupted; Got 1] []) eq_refl). fold (reload (mkSource (sk_out k) [Got 3; Interrupted; Got 1] [])) in H.
  destruct (reload _) as [[k' [s'|e]]|]; [|done..]. apply H.
Defined.

(** The same file with one bit of a payload flipped is refused. *)
Definition flipped : Source := mkSource (<[70%nat := 1]> written_bytes) [] [].


(** ** A run of a durable store *)

Definition the_store (r : outcome (Opening * res ReplayError PersistentMvccStore)) : PersistentMvccStore :=
  match r with
  | Ret (_, Ok p) => p
  | _ => mkPersistent store_new (writer_new (mkWalFile [] 0) 0 (to_writer_config default_options))
           default_stats default_recovery
  end.

Lemma the_store_eq r : succeeds r = true → ∃ w', r = Ret (w', Ok (the_store r)).
Proof. destruct r as [[w [p|e]]|]; [|discriminate..]. intros _. exists w. reflexivity. Qed.

Definition store_after {A} (p : PersistentMvccStore) (r : outcome (PersistentMvccStore * A)) :
    PersistentMvccStore := match r with Ret (p', _) => p' | Panic => p end.

Lemma store_after_eq {A} p (r : outcome (PersistentMvccStore * A)) a :
  snd <$> r = Ret a → r = Ret (store_after p r, a).
Proof. destruct r as [[p' a']|]; [|discriminate]. intros [= ->]. reflexivity. Qed.

Definition healthy : Io := mkIo (λ _, true) (λ _, None) (λ _, None) true None true.
(** The first write lands in part, and neither can it be undone. *)
Definition failing : Io := mkIo (λ _, true) (λ _, Some 5) (λ _, None) false (Some false) false.

Definition admitted : AdmitIo :=
  mkAdmitIo (Some (mkMeta (1, 1) true false)) (Some true) true (Some (1, 1)) (Some (mkMeta (1, 2) false true))
    (Some (mkMeta (1, 2) false true)) true true true (Some (1, 1)) (Some (1, 1)).

Definition healthy_open (total : Z) (ckpt : option bytes) : OpenIo :=
  mkOpenIo admitted true (mkCheckpointIo (Some true) (Some (zlen (default [] ckpt)))) [Got 3] true true
    [Got 5; Interrupted] (Some total) None true None true.

Lemma healthy_open_calm total ckpt : io_calm (healthy_open total ckpt) total ckpt.
Proof.
  constructor; try reflexivity.
  - intros b ->. reflexivity.
  - constructor; [simpl; lia|constructor].
  - constructor; [simpl; lia|]. constructor; [exact I|constructor].
Qed.

Definition no_checkpoint : CheckpointFile := mkCheckpointFile None None.
Definition opening (f : WalFile) (ckpt : option bytes) : outcome (Opening * res ReplayError PersistentMvccStore) :=
  open_with_checkpoint_and_options (healthy_open (zlen (f_bytes f)) ckpt) default_options ckpt (mkOpening f []).

(** Created; two transactions begin; the first commits; the append of the
    second fails and seals the log; the process stops and the power fails; the
    store is opened again. *)
Definition d_created : PersistentMvccStore := the_store (opening (mkWalFile [] 0) None).
Definition d_begun : PersistentMvccStore := (p_begin (p_begin d_created).2).2.
Definition d_committed : PersistentMvccStore :=
  store_after d_begun (commit_internal healthy d_begun txn_a no_delay false).
Definition d_sealed : PersistentMvccStore :=
  store_after d_committed (commit_internal failing d_committed txn_b no_delay true).
Definition d_left : bytes := take (Z.to_nat (f_synced (w_file (p_wal d_sealed)) + 3)) (f_bytes (w_file (p_wal d_sealed))).
Definition d_reopened : PersistentMvccStore := the_store (opening (mkWalFile d_left (zlen d_left)) None).

Definition d_events : list Event :=
  [Acknowledged (mkWalCommit 1 1 [mkWalWrite 5 [0; 0; 0; 0]]); Declined txn_b].

Lemma d_created_ok : created default_options d_created.
Proof.
  destruct (the_store_eq (opening (mkWalFile [] 0) None)) as [w' Hw]; [vm_compute; reflexivity|].
  exists (healthy_open 0 None), [], w'. exact Hw.
Qed.

Lemma d_begun_run : steps default_options (Running d_created no_checkpoint) [] (Running d_begun no_checkpoint).
Proof.
  apply (steps_snoc _ _ [] (Running (p_begin d_created).2 no_checkpoint) []); [|apply step_begin].
  apply (steps_snoc _ _ [] (Running d_created no_checkpoint) []); [apply steps_refl|apply step_begin].
Qed.

Lemma d_committed_step : step default_options (Running d_begun no_checkpoint)
  [Acknowledged (mkWalCommit 1 1 [mkWalWrite 5 [0; 0; 0; 0]])] (Running d_committed no_checkpoint).
Proof.
  apply (step_commit default_options healthy d_begun no_checkpoint txn_a no_delay false d_committed (Ok 1)
    (mkWalCommit 1 1 [mkWalWrite 5 [0; 0; 0; 0]])).
  - check_wf.
  - exact no_delay_ok.
  - apply txn_typedb_sound. vm_compute. reflexivity.
  - apply store_after_eq. vm_compute. reflexivity.
  - intros seq [= <-]. exists [(5, [0; 0; 0; 0])]. split; [vm_compute; reflexivity|reflexivity].
Qed.

Lemma d_sealed_step : step default_options (Running d_committed no_checkpoint) [Declined txn_b]
  (Running d_sealed no_checkpoint).
Proof.
  apply (step_commit default_options failing d_committed no_checkpoint txn_b no_delay true d_sealed
    (Err (DurabilityFailure WalWriteFailed)) (mkWalCommit 0 0 [])).
  - check_wf.
  - exact no_delay_ok.
  - apply txn_typedb_sound. vm_compute. reflexivity.
  - apply store_after_eq. vm_compute. reflexivity.
  - intros seq. discriminate.
Qed.

Lemma d_sealed_run : steps default_options (Running d_created no_checkpoint) d_events
  (Running d_sealed no_checkpoint).
Proof.
  apply (steps_snoc _ _ [Acknowledged (mkWalCommit 1 1 [mkWalWrite 5 [0; 0; 0; 0]])]
    (Running d_committed no_checkpoint) [Declined txn_b]); [|apply d_sealed_step].
  apply (steps_snoc _ _ [] (Running d_begun no_checkpoint)); [apply d_begun_run|apply d_committed_step].
Qed.

Lemma d_down_run : steps default_options (Running d_created no_checkpoint) d_events
  (Down (mkWalFile d_left (zlen d_left)) no_checkpoint).
Proof.
  apply (steps_snoc _ _ d_events (Down (w_file (p_wal d_sealed)) no_checkpoint) []).
  - apply (steps_snoc _ _ d_events (Running d_sealed no_checkpoint) []); [apply d_sealed_run|apply step_stop].
  - apply (step_power default_options (w_file (p_wal d_sealed)) no_checkpoint d_left None); [|by left].
    split; [apply prefix_take|]. vm_compute. discriminate.
Qed.

Lemma d_reopened_run : steps default_options (Running d_created no_checkpoint) d_events
  (Running d_reopened no_checkpoint).
Proof.
  apply (steps_snoc _ _ d_events (Down (mkWalFile d_left (zlen d_left)) no_checkpoint) []); [apply d_down_run|].
  destruct (the_store_eq (opening (mkWalFile d_left (zlen d_left)) None)) as [w' Hw]; [vm_compute; reflexivity|].
  apply (step_open default_options (healthy_open (zlen d_left) None) (mkWalFile d_left (zlen d_left)) no_checkpoint []
    w' d_reopened); [vm_compute; discriminate|exact Hw].
Qed.




(** The commit that failed: nothing of it is seen. *)
Lemma durable_commit_atomic_witness :
  p_read_visible d_committed 5 (p_current_snapshot d_committed) = Some [0; 0; 0; 0] ∧
  p_read_visible d_sealed 5 (p_current_snapshot d_sealed) =
  p_read_visible d_committed 5 (p_current_snapshot d_committed).
Proof.
  assert (∃ h pending, persist_holds d_committed no_checkpoint h pending) as (h&pending&Hp).
  { destruct (reachable_holds default_options d_created [Acknowledged (mkWalCommit 1 1 [mkWalWrite 5 [0; 0; 0; 0]])]
      (Running d_committed no_checkpoint) d_created_ok) as (h&pending&[Hp _]&_); [|exists h, pending; exact Hp].
    apply (steps_snoc _ _ [] (Running d_begun no_checkpoint)); [apply d_begun_run|apply d_committed_step]. }
  split; [vm_compute; reflexivity|].
  refine (proj1 (proj2 (durable_commit_atomic failing d_committed no_checkpoint txn_b no_delay true d_sealed
    (Err (DurabilityFailure WalWriteFailed)) h pending _ no_delay_ok _ Hp _)) 5).
  - check_wf.
  - apply txn_typedb_sound. vm_compute. reflexivity.
  - apply store_after_eq. vm_compute. reflexivity.
Defined.

(** ** A checkpoint outside the log's directory *)

Definition publish_unsynced : PublishIo :=
  mkPublishIo true MetaNotFound (Some (1, 1)) (Some true) true [] true true true false.

(** The checkpoint is renamed into place and the sync of its directory fails. *)
Definition o_published : outcome (PersistentMvccStore * CheckpointFile * res PersistError ()) :=
  checkpoint_with_directory_sync publish_unsynced d_committed no_checkpoint.
Definition o_checkpoint : CheckpointFile :=
  match o_published with Ret (_, ck, _) => ck | Panic => no_checkpoint end.
(** The process restarts.  Opening syncs the log's directory only, so the
    checkpoint's directory entry stays volatile. *)
Definition o_reopened : PersistentMvccStore :=
  the_store (opening (w_file (p_wal d_committed)) (ck_visible o_checkpoint)).
Definition o_truncated : PersistentMvccStore * res PersistError () :=
  truncate_wal healthy (Some (zlen (f_bytes (w_file (p_wal o_reopened))))) o_reopened.
(** The power fails. *)
Definition o_recovered : outcome (Opening * res ReplayError PersistentMvccStore) :=
  opening (w_file (p_wal o_truncated.1)) (ck_durable o_checkpoint).

