(* ===== verification/Journal.v ===== *)
(** * Journals: the block device and the journal's blocks

    The part of [BlockDevice] (ffs-block) that ffs-journal uses, in the form of
    its byte-device implementation, and the journal's regions, segments and
    fixed-width fields (ffs-journal, lib.rs). *)

From stdpp Require Import base sorting numbers gmap list.
From S2P Require Import Prelude.

Local Open Scope Z_scope.

(** ** Errors *)

(** [FfsError], as far as the journal code makes it. *)
Inductive JournalError :=
| BadFormat
| Corruption (block : Z)
| NoSpace
| DeviceIo.

#[global] Instance JournalError_eq_dec : EqDecision JournalError.
Proof. solve_decision. Defined.

(** ** The device *)

(** How the next write goes: it is done, it fails when only the first [k] blocks
    have been written, or it fails and leaves some other bytes in their place. *)
Inductive WriteAnswer :=
| WriteDone
| WriteLanded (k : nat)
| WriteTorn (torn : bytes).

(** Blocks that were never written are zero.  [dev_durable] is what the last
    successful sync made durable, [dev_unsynced] what was written since, in
    order.  The scripts answer the next writes and syncs; past their ends all
    succeed. *)
Record Device := mkDevice {
  dev_block_size : Z;
  dev_block_count : Z;
  dev_contiguous : bool;
  dev_durable : gmap Z bytes;
  dev_unsynced : list (Z * bytes);
  dev_unreadable : gset Z;
  dev_writes : list WriteAnswer;
  dev_syncs : list bool;
}.

Definition zeros (n : Z) : bytes := replicate (Z.to_nat n) 0.

Definition write_all (ws : list (Z * bytes)) (m : gmap Z bytes) : gmap Z bytes :=
  fold_left (λ m w, <[w.1 := w.2]> m) ws m.

(** What reads see. *)
Definition dev_blocks (d : Device) : gmap Z bytes := write_all (dev_unsynced d) (dev_durable d).

Definition block_at (d : Device) (block : Z) : bytes :=
  default (zeros (dev_block_size d)) (dev_blocks d !! block).

Definition add_writes (d : Device) (new : list (Z * bytes)) (writes : list WriteAnswer) : Device :=
  mkDevice (dev_block_size d) (dev_block_count d) (dev_contiguous d) (dev_durable d)
    (dev_unsynced d ++ new) (dev_unreadable d) writes (dev_syncs d).
Definition set_writes (d : Device) (writes : list WriteAnswer) : Device := add_writes d [] writes.

(** Computations on the device. *)
Definition devM (A : Type) : Type := Device → Device * res JournalError A.
#[global] Instance devM_ret : MRet devM := λ A a d, (d, Ok a).
#[global] Instance devM_bind : MBind devM := λ A B f m d,
  match m d with
  | (d', Ok a) => f a d'
  | (d', Err e) => (d', Err e)
  end.
Definition fail {A} (e : JournalError) : devM A := λ d, (d, Err e).
Definition lift {A} (r : res JournalError A) : devM A := λ d, (d, r).

Definition read_block (block : Z) : devM bytes := λ d,
  if dev_block_count d <=? block then (d, Err BadFormat)
  else if bool_decide (block ∈ dev_unreadable d) then (d, Err DeviceIo)
  else (d, Ok (block_at d block)).

(** The next answer for a write of the blocks [new]; [torn] cuts torn bytes
    into blocks. *)
Definition answer_write (new : list (Z * bytes)) (torn_blocks : bytes → list (Z * bytes)) : devM () := λ d,
  match dev_writes d with
  | [] => (add_writes d new [], Ok ())
  | WriteDone :: ws => (add_writes d new ws, Ok ())
  | WriteLanded k :: ws => (add_writes d (take k new) ws, Err DeviceIo)
  | WriteTorn torn :: ws => (add_writes d (torn_blocks torn) ws, Err DeviceIo)
  end.

Definition write_block (block : Z) (data : bytes) : devM () := λ d,
  if negb (zlen data =? dev_block_size d) then (d, Err BadFormat)
  else if dev_block_count d <=? block then (d, Err BadFormat)
  else
    answer_write [(block, data)]
      (λ torn, if zlen torn =? dev_block_size d then [(block, torn)] else []) d.

(** [data] as blocks of [n] bytes from [start] on. *)
Fixpoint block_run (count : nat) (n : nat) (start : Z) (data : bytes) : list (Z * bytes) :=
  match count with
  | O => []
  | S count' => (start, take n data) :: block_run count' n (start + 1) (drop n data)
  end.

Definition write_contiguous_blocks (start : Z) (data : bytes) : devM () := λ d,
  let bs := dev_block_size d in
  if (bs =? 0) || negb (zlen data mod bs =? 0) then (d, Err BadFormat)
  else if zlen data =? 0 then (d, Ok ())
  else
    let count := zlen data / bs in
    match checked_add u64_max start count with
    | None => (d, Err BadFormat)
    | Some e =>
        if dev_block_count d <? e then (d, Err BadFormat)
        else
          let run := block_run (Z.to_nat count) (Z.to_nat bs) start in
          answer_write (run data) (λ torn, if zlen torn =? zlen data then run torn else []) d
    end.

Definition supports_contiguous_writes : devM bool := λ d, (d, Ok (dev_contiguous d)).

Definition sync_device : devM () := λ d,
  let synced rest :=
    mkDevice (dev_block_size d) (dev_block_count d) (dev_contiguous d) (dev_blocks d) []
      (dev_unreadable d) (dev_writes d) rest in
  match dev_syncs d with
  | [] => (synced [], Ok ())
  | true :: rest => (synced rest, Ok ())
  | false :: rest =>
      (mkDevice (dev_block_size d) (dev_block_count d) (dev_contiguous d) (dev_durable d)
         (dev_unsynced d) (dev_unreadable d) (dev_writes d) rest, Err DeviceIo)
  end.

Definition device_block_size : devM Z := λ d, (d, Ok (dev_block_size d)).

(** ** Regions and segments *)

Record JournalRegion := mkRegion { jr_start : Z; jr_blocks : Z }.
Record JournalSegment := mkSegment { js_start : Z; js_blocks : Z }.

Definition region_resolve (r : JournalRegion) (index : Z) : option Z :=
  if jr_blocks r <=? index then None else checked_add u64_max (jr_start r) index.
Definition region_is_empty (r : JournalRegion) : bool := jr_blocks r =? 0.
Definition segment_resolve (s : JournalSegment) (index : Z) : option Z :=
  if js_blocks s <=? index then None else checked_add u64_max (js_start s) index.
Definition segment_is_empty (s : JournalSegment) : bool := js_blocks s =? 0.

Definition resolve_region_block (r : JournalRegion) (index : Z) : res JournalError Z :=
  if jr_blocks r <=? index then Err BadFormat
  else ok_or (checked_add u64_max (jr_start r) index) BadFormat.

Fixpoint resolve_segment_block (segments : list JournalSegment) (index : Z) : res JournalError Z :=
  match segments with
  | [] => Err BadFormat
  | s :: segments' =>
      if index <? js_blocks s then ok_or (checked_add u64_max (js_start s) index) BadFormat
      else resolve_segment_block segments' (saturating_sub index (js_blocks s))
  end.

(** ** Fields *)

Definition be_bytes (n : nat) (x : Z) : bytes := rev (le_bytes n x).
Definition be_value (b : bytes) : Z := le_value (rev b).

(** [bytes.get(offset..offset + n)] *)
Definition field (n : nat) (b : bytes) (offset : Z) : option bytes :=
  match checked_add usize_max offset (Z.of_nat n) with
  | None => None
  | Some e => if e <=? zlen b then Some (take n (drop (Z.to_nat offset) b)) else None
  end.

Definition read_be_u32 (b : bytes) (offset : Z) : option Z := be_value <$> field 4 b offset.
Definition read_be_u16 (b : bytes) (offset : Z) : option Z := be_value <$> field 2 b offset.
Definition field_le_u16 (b : bytes) (offset : Z) : option Z := le_value <$> field 2 b offset.
Definition field_le_u32 (b : bytes) (offset : Z) : option Z := le_value <$> field 4 b offset.
Definition field_le_u64 (b : bytes) (offset : Z) : option Z := le_value <$> field 8 b offset.

(** [buf[offset..offset + src.len()].copy_from_slice(src)], in range wherever it
    is used. *)
Definition put (buf : bytes) (offset : Z) (src : bytes) : bytes :=
  take (Z.to_nat offset) buf ++ src ++ drop (Z.to_nat offset + length src) buf.

Definition is_all_zero (b : bytes) : bool := forallb (λ x, x =? 0) b.

Lemma checked_add_ok mx a b : a + b <= mx → checked_add mx a b = Some (a + b).
Proof. intros Hle. unfold checked_add. by rewrite (proj2 (Z.leb_le _ _)). Qed.

(** ** Lemmas on the device *)

Lemma write_all_app a b m : write_all (a ++ b) m = write_all b (write_all a m).
Proof. apply fold_left_app. Qed.

Lemma add_writes_blocks d new ws : dev_blocks (add_writes d new ws) = write_all new (dev_blocks d).
Proof. apply write_all_app. Qed.

Lemma block_at_write d block data ws b :
  block_at (add_writes d [(block, data)] ws) b = if decide (b = block) then data else block_at d b.
Proof.
  unfold block_at. rewrite add_writes_blocks. simpl. case_decide.
  - subst. by rewrite lookup_insert_eq.
  - by rewrite lookup_insert_ne.
Qed.

Lemma write_all_other ws m b : b ∉ ws.*1 → write_all ws m !! b = m !! b.
Proof.
  unfold write_all. revert m. induction ws as [|w ws IH]; intros m; [done|]. simpl.
  rewrite not_elem_of_cons. intros [Hb Hws]. rewrite IH by done. by rewrite lookup_insert_ne.
Qed.

(** A block write is done, or fails and leaves the block as it was, written, or
    with torn bytes. *)
Inductive write_outcome (d : Device) (block : Z) (data : bytes) : Device → res JournalError () → Prop :=
| wrote_done ws : ws `suffix_of` dev_writes d →
    write_outcome d block data (add_writes d [(block, data)] ws) (Ok ())
| wrote_nothing ws : ws `suffix_of` dev_writes d → dev_writes d ≠ [] →
    write_outcome d block data (add_writes d [] ws) (Err DeviceIo)
| wrote_late ws x : ws `suffix_of` dev_writes d → dev_writes d ≠ [] → zlen x = dev_block_size d →
    x = data ∨ WriteTorn x ∈ dev_writes d →
    write_outcome d block data (add_writes d [(block, x)] ws) (Err DeviceIo).

Lemma write_block_outcome d block data d' out : zlen data = dev_block_size d → block < dev_block_count d →
  write_block block data d = (d', out) → write_outcome d block data d' out.
Proof.
  intros Hl Hb. unfold write_block, answer_write.
  rewrite (proj2 (Z.eqb_eq _ _)), (proj2 (Z.leb_gt _ _)) by done. simpl.
  destruct (dev_writes d) as [|a ws] eqn:Hw.
  { intros [= <- <-]. constructor. rewrite Hw. apply suffix_nil. }
  assert (ws `suffix_of` dev_writes d) by (rewrite Hw; by apply suffix_cons_r).
  destruct a as [|[|k]|torn]; [..|case_if]; intros [= <- <-].
  - by constructor.
  - constructor; [done|by rewrite Hw].
  - rewrite take_nil. apply wrote_late; [done|by rewrite Hw|done|by left].
  - apply wrote_late; [done|by rewrite Hw|done|right; rewrite Hw; by left].
  - constructor; [done|by rewrite Hw].
Qed.

Lemma add_writes_nil_at d ws b : block_at (add_writes d [] ws) b = block_at d b.
Proof. unfold block_at. by rewrite add_writes_blocks. Qed.

(** ** Lemmas on fields *)

Lemma field_slice n b off x : 0 <= off → zlen b <= usize_max →
  field n b off = Some x ↔ slice b off (off + Z.of_nat n) = Ret x.
Proof.
  intros Ho Hb. unfold field, checked_add. rewrite slice_Ret.
  assert (Z.to_nat (off + Z.of_nat n - off) = n) as -> by lia. split.
  - case_if; [|done]. case_if; [|done]. intros [= <-]. split_and!; [lia..|done].
  - intros (?&?&->). rewrite !(proj2 (Z.leb_le _ _)) by lia. done.
Qed.

Lemma field_app n pre mid post off : zlen pre = off → length mid = n →
  zlen (pre ++ mid ++ post) <= usize_max → field n (pre ++ mid ++ post) off = Some mid.
Proof.
  intros Ho Hn Hb. apply field_slice; [rewrite <-Ho; apply zlen_nonneg|done|].
  apply slice_app; [done|]. unfold zlen. lia.
Qed.

Lemma field_head n a rest : length a = n → zlen (a ++ rest) <= usize_max → field n (a ++ rest) 0 = Some a.
Proof. intros Hn Hb. by apply (field_app n [] a rest). Qed.

Lemma field_skip n a rest off : zlen a <= off → zlen (a ++ rest) <= usize_max →
  field n (a ++ rest) off = field n rest (off - zlen a).
Proof.
  rewrite zlen_app. intros Ho Hb. pose proof (zlen_nonneg rest). pose proof (zlen_nonneg a).
  unfold field, checked_add. rewrite zlen_app.
  assert (drop (Z.to_nat off) (a ++ rest) = drop (Z.to_nat (off - zlen a)) rest) as ->.
  { rewrite drop_app_ge by (unfold zlen in *; lia). f_equal. unfold zlen in *. lia. }
  repeat case_if; try done; lia.
Qed.

Lemma field_Some n b off x : 0 <= off → field n b off = Some x →
  length x = n ∧ off + Z.of_nat n <= zlen b ∧ drop (Z.to_nat off) b = x ++ drop (Z.to_nat off + n) b.
Proof.
  intros Ho. unfold field, checked_add. case_if; [|done]. case_if; [|done]. intros [= <-].
  split_and!; [|done|by rewrite <-drop_drop, take_drop].
  unfold zlen in *. rewrite length_take, length_drop. lia.
Qed.

Lemma be_value_bytes n x : 0 <= x < 256 ^ Z.of_nat n → be_value (be_bytes n x) = x.
Proof. intros Hx. unfold be_value, be_bytes. rewrite rev_involutive. by apply le_value_bytes. Qed.

Lemma be_bytes_value l : bytes_ok l → be_bytes (length l) (be_value l) = l.
Proof.
  intros Hl. unfold be_bytes, be_value. rewrite <-(length_rev l), le_bytes_value, rev_involutive; [done|].
  rewrite rev_alt. by apply Forall_reverse.
Qed.

Lemma zlen_be_bytes n x : zlen (be_bytes n x) = Z.of_nat n.
Proof. unfold zlen, be_bytes. by rewrite length_rev, le_bytes_length. Qed.

Lemma be_bytes_length n x : length (be_bytes n x) = n.
Proof. unfold be_bytes. by rewrite length_rev, le_bytes_length. Qed.

Lemma be_bytes_ok n x : bytes_ok (be_bytes n x).
Proof. unfold bytes_ok, be_bytes. rewrite rev_alt. apply Forall_reverse, le_bytes_ok. Qed.

#[export] Hint Rewrite zlen_be_bytes : zlen.

Lemma zlen_zeros n : 0 <= n → zlen (zeros n) = n.
Proof. intros Hn. unfold zlen, zeros. rewrite length_replicate. lia. Qed.

Lemma zeros_split a b : 0 <= a → 0 <= b → zeros (a + b) = zeros a ++ zeros b.
Proof. intros Ha Hb. unfold zeros. rewrite <-replicate_add. f_equal. lia. Qed.

Lemma zeros_lookup n i : (i < Z.to_nat n)%nat → zeros n !! i = Some 0.
Proof. intros Hi. by apply lookup_replicate. Qed.

Lemma zeros_ok n : bytes_ok (zeros n).
Proof. apply Forall_replicate. done. Qed.

Lemma put_app pre mid post src off : zlen pre = off → length src = length mid →
  put (pre ++ mid ++ post) off src = pre ++ src ++ post.
Proof.
  intros <- Hs. unfold put, zlen. rewrite Nat2Z.id, take_app_length, Hs.
  rewrite (app_assoc pre mid). rewrite <-length_app, drop_app_length. done.
Qed.

(** Filling a zeroed buffer from the left. *)
Lemma put_zeros pre n src off : zlen pre = off → zlen src <= n →
  put (pre ++ zeros n) off src = (pre ++ src) ++ zeros (n - zlen src).
Proof.
  intros Ho Hn. pose proof (zlen_nonneg src).
  replace n with (zlen src + (n - zlen src)) at 1 by lia.
  rewrite zeros_split by lia. rewrite put_app; [by rewrite app_assoc|done|].
  unfold zeros. rewrite length_replicate. unfold zlen. lia.
Qed.

Lemma put_length buf off src : 0 <= off → off + zlen src <= zlen buf → zlen (put buf off src) = zlen buf.
Proof.
  intros Ho Hl. unfold put, zlen in *. rewrite !length_app, length_take, length_drop. lia.
Qed.

Lemma is_all_zero_spec b : is_all_zero b = true ↔ b = zeros (zlen b).
Proof.
  unfold is_all_zero, zeros, zlen. rewrite Nat2Z.id. induction b as [|x b IH]; [done|]. simpl.
  rewrite andb_true_iff, Z.eqb_eq, IH. split; [by intros [-> <-]|by intros [= -> <-]].
Qed.

(** [b] filled up with zeros to a block. *)
Definition padded (bs : Z) (b : bytes) : bytes := b ++ zeros (bs - zlen b).

Lemma put_padded bs b : zlen b <= bs → put (zeros bs) 0 b = padded bs b.
Proof. intros Hb. by apply (put_zeros [] bs b 0). Qed.

Lemma zlen_padded bs b : zlen b <= bs → zlen (padded bs b) = bs.
Proof. intros Hb. unfold padded. rewrite zlen_app, zlen_zeros; lia. Qed.

Lemma padded_ok bs b : bytes_ok b → bytes_ok (padded bs b).
Proof. intros Hb. apply Forall_app. split; [done|apply zeros_ok]. Qed.
