(* ===== verification/CowJournal.v ===== *)
(** * The native copy-on-write journal (ffs-journal, lib.rs)

    One record per block: a write or a commit marker.  Recovery returns the
    transactions whose commit marker was found.  [usize] and [u32] conversions
    of the block size cannot fail and are not written out. *)

From stdpp Require Import base sorting numbers gmap list.
From S2P Require Import Prelude Wal Journal.

Local Open Scope Z_scope.

(** ** Records *)

Definition COW_MAGIC : Z := 0x4A534646.
Definition COW_VERSION : Z := 1.
Definition COW_RECORD_WRITE : Z := 1.
Definition COW_RECORD_COMMIT : Z := 2.
Definition COW_HEADER_SIZE : Z := 32.

(** Both the borrowed form that is encoded and the owned form that is decoded. *)
Inductive CowRecord :=
| CowWriteRecord (commit_seq block : Z) (payload : bytes)
| CowCommitRecord (commit_seq : Z).

Section codec.
Context `{Crc32c}.

Definition encode_cow_record (block_size : Z) (record : CowRecord) : res JournalError bytes :=
  if block_size <? COW_HEADER_SIZE then Err BadFormat
  else
    let out := zeros block_size in
    let out := put out 0 (le_bytes 4 COW_MAGIC) in
    let out := put out 4 (le_bytes 2 COW_VERSION) in
    match record with
    | CowWriteRecord commit_seq block payload =>
        let payload_capacity := saturating_sub block_size COW_HEADER_SIZE in
        if payload_capacity <? zlen payload then Err BadFormat
        else if u32_max <? zlen payload then Err BadFormat
        else
          let out := put out 6 (le_bytes 2 COW_RECORD_WRITE) in
          let out := put out 8 (le_bytes 8 commit_seq) in
          let out := put out 16 (le_bytes 8 block) in
          let out := put out 24 (le_bytes 4 (zlen payload)) in
          let out := put out 28 (le_bytes 4 (crc32c payload)) in
          Ok (put out COW_HEADER_SIZE payload)
    | CowCommitRecord commit_seq =>
        let out := put out 6 (le_bytes 2 COW_RECORD_COMMIT) in
        let out := put out 8 (le_bytes 8 commit_seq) in
        let out := put out 16 (le_bytes 8 0) in
        let out := put out 24 (le_bytes 4 0) in
        Ok (put out 28 (le_bytes 4 0))
    end.

Definition decode_cow_record (block : bytes) : res JournalError (option CowRecord) :=
  if is_all_zero block then Ok None
  else
    match field_le_u32 block 0 with
    | None => Ok None
    | Some magic =>
      if negb (magic =? COW_MAGIC) then Ok None
      else
        version ← ok_or (field_le_u16 block 4) BadFormat;
        if negb (version =? COW_VERSION) then Err BadFormat
        else
          kind ← ok_or (field_le_u16 block 6) BadFormat;
          commit_seq ← ok_or (field_le_u64 block 8) BadFormat;
          target_block ← ok_or (field_le_u64 block 16) BadFormat;
          payload_len ← ok_or (field_le_u32 block 24) BadFormat;
          payload_crc ← ok_or (field_le_u32 block 28) BadFormat;
          if kind =? COW_RECORD_WRITE then
            payload_end ← ok_or (checked_add usize_max COW_HEADER_SIZE payload_len) BadFormat;
            if zlen block <? payload_end then Err BadFormat
            else
              let payload := take (Z.to_nat payload_len) (drop (Z.to_nat COW_HEADER_SIZE) block) in
              if negb (crc32c payload =? payload_crc) then Err (Corruption target_block)
              else if negb (is_all_zero (drop (Z.to_nat payload_end) block)) then Err BadFormat
              else Ok (Some (CowWriteRecord commit_seq target_block payload))
          else if kind =? COW_RECORD_COMMIT then
            if negb (target_block =? 0) || negb (payload_len =? 0) || negb (payload_crc =? 0)
            then Err BadFormat
            else if negb (is_all_zero (drop (Z.to_nat COW_HEADER_SIZE) block)) then Err BadFormat
            else Ok (Some (CowCommitRecord commit_seq))
          else Err BadFormat
    end.

(** ** The writer *)

Record NativeCowJournal := mkCowJournal { cj_region : JournalRegion; cj_next_slot : Z }.

(** [n] slots are left. *)
Fixpoint cow_open_loop (n : nat) (region : JournalRegion) (slot : Z) : devM Z :=
  match n with
  | O => mret slot
  | S n' =>
      block ← lift (resolve_region_block region slot);
      raw ← read_block block;
      match decode_cow_record raw with
      | Ok (Some _) => cow_open_loop n' region (saturating_add u64_max slot 1)
      | Ok None => mret slot
      | Err BadFormat => if slot =? 0 then fail BadFormat else mret slot
      | Err e => fail e
      end
  end.

Definition cow_open (region : JournalRegion) : devM NativeCowJournal :=
  if region_is_empty region then fail BadFormat
  else
    next_slot ← cow_open_loop (Z.to_nat (jr_blocks region)) region 0;
    mret (mkCowJournal region next_slot).

(** The journal and the outcome: the journal keeps its slot on an error. *)
Definition write_next (j : NativeCowJournal) (encoded : bytes) : devM NativeCowJournal :=
  if jr_blocks (cj_region j) <=? cj_next_slot j then fail NoSpace
  else
    block ← lift (resolve_region_block (cj_region j) (cj_next_slot j));
    _ ← write_block block encoded;
    mret (mkCowJournal (cj_region j) (saturating_add u64_max (cj_next_slot j) 1)).

Definition append_record (j : NativeCowJournal) (record : CowRecord) : devM NativeCowJournal :=
  bs ← device_block_size;
  encoded ← lift (encode_cow_record bs record);
  write_next j encoded.

Definition cow_append_write (j : NativeCowJournal) (commit_seq block : Z) (payload : bytes) :
    devM NativeCowJournal := append_record j (CowWriteRecord commit_seq block payload).
Definition cow_append_commit (j : NativeCowJournal) (commit_seq : Z) : devM NativeCowJournal :=
  append_record j (CowCommitRecord commit_seq).

(** ** Recovery *)

Record CowWrite := mkCowWrite { cw_block : Z; cw_bytes : bytes }.
Record RecoveredCommit := mkRecovered { rcv_commit_seq : Z; rcv_writes : list CowWrite }.

(** [pending] and [commit_order]; the set [committed] has the elements of
    [commit_order]. *)
Record CowScan := mkCowScan { cs_pending : gmap Z (list CowWrite); cs_order : list Z }.

(** The new state and whether the scan goes on. *)
Definition cow_scan_record (sc : CowScan) (record : CowRecord) : res JournalError (CowScan * bool) :=
  match record with
  | CowWriteRecord commit_seq block payload =>
      if bool_decide (commit_seq ∈ cs_order sc) then Ok (sc, false)
      else
        let ws := default [] (cs_pending sc !! commit_seq) in
        Ok (mkCowScan (<[commit_seq := ws ++ [mkCowWrite block payload]]> (cs_pending sc)) (cs_order sc), true)
  | CowCommitRecord commit_seq =>
      if match last (cs_order sc) with Some last_commit_seq => commit_seq <? last_commit_seq | None => false end
      then Err BadFormat
      else if bool_decide (commit_seq ∈ cs_order sc) then Ok (sc, true)
      else Ok (mkCowScan (cs_pending sc) (cs_order sc ++ [commit_seq]), true)
  end.

Fixpoint recover_loop (n : nat) (region : JournalRegion) (slot : Z) (sc : CowScan) : devM CowScan :=
  match n with
  | O => mret sc
  | S n' =>
      block ← lift (resolve_region_block region slot);
      raw ← read_block block;
      match decode_cow_record raw with
      | Ok (Some record) =>
          '(sc, go_on) ← lift (cow_scan_record sc record);
          if go_on : bool then recover_loop n' region (saturating_add u64_max slot 1) sc else mret sc
      | Ok None => mret sc
      | Err BadFormat => match cs_order sc with [] => fail BadFormat | _ => mret sc end
      | Err e => fail e
      end
  end.

(** [pending.remove] for each commit in order. *)
Fixpoint recovered_commits (pending : gmap Z (list CowWrite)) (order : list Z) : list RecoveredCommit :=
  match order with
  | [] => []
  | seq :: order' =>
      mkRecovered seq (default [] (pending !! seq)) :: recovered_commits (delete seq pending) order'
  end.

Definition recover_native_cow (region : JournalRegion) : devM (list RecoveredCommit) :=
  if region_is_empty region then mret []
  else
    sc ← recover_loop (Z.to_nat (jr_blocks region)) region 0 (mkCowScan ∅ []);
    mret (recovered_commits (cs_pending sc) (cs_order sc)).

(** ** Replay *)

Definition replay_cow_write (w : CowWrite) : devM () :=
  bs ← device_block_size;
  if bs <? zlen (cw_bytes w) then fail BadFormat
  else write_block (cw_block w) (put (zeros bs) 0 (cw_bytes w)).

Fixpoint replay_cow_writes (ws : list CowWrite) : devM () :=
  match ws with
  | [] => mret ()
  | w :: ws' => _ ← replay_cow_write w; replay_cow_writes ws'
  end.

Fixpoint replay_native_cow (commits : list RecoveredCommit) : devM () :=
  match commits with
  | [] => mret ()
  | c :: commits' => _ ← replay_cow_writes (rcv_writes c); replay_native_cow commits'
  end.
End codec.
