(* ===== verification/CowCorrect.v ===== *)
(** * Correctness of the native copy-on-write journal

    The record codec is a bijection between records and the blocks that hold
    one; recovery returns exactly the committed transactions of the records
    that were appended; replay writes them out. *)

From stdpp Require Import base sorting numbers gmap list.
From S2P Require Import Prelude Wal Journal CowJournal.

Local Open Scope Z_scope.

(** ** The codec *)

(** Field by field, the contents of a record block. *)
Definition cow_image (kind commit_seq block len crc : Z) (rest : bytes) : bytes :=
  le_bytes 4 COW_MAGIC ++ le_bytes 2 COW_VERSION ++ le_bytes 2 kind ++ le_bytes 8 commit_seq ++
  le_bytes 8 block ++ le_bytes 4 len ++ le_bytes 4 crc ++ rest.

(** Records of Rust's types that fit a block. *)
Definition cow_record_ok (block_size : Z) (r : CowRecord) : Prop :=
  match r with
  | CowWriteRecord seq block payload =>
      0 <= seq <= u64_max ∧ 0 <= block <= u64_max ∧ bytes_ok payload ∧
      zlen payload <= block_size - COW_HEADER_SIZE
  | CowCommitRecord seq => 0 <= seq <= u64_max
  end.

#[local] Arguments le_bytes : simpl never.
#[local] Arguments le_value : simpl never.
#[local] Arguments Z.to_nat : simpl never.
#[local] Arguments Z.pow : simpl never.

Ltac same_prefix := repeat (apply (f_equal2 app); [reflexivity|]).

Section codec.
Context `{Crc32c}.

Definition cow_record_image (bs : Z) (r : CowRecord) : bytes :=
  match r with
  | CowWriteRecord seq block payload =>
      cow_image COW_RECORD_WRITE seq block (zlen payload) (crc32c payload)
        (payload ++ zeros (bs - COW_HEADER_SIZE - zlen payload))
  | CowCommitRecord seq => cow_image COW_RECORD_COMMIT seq 0 0 0 (zeros (bs - COW_HEADER_SIZE))
  end.

Lemma encode_cow_image bs r : COW_HEADER_SIZE <= bs <= u32_max →
  encode_cow_record bs r =
    match r with
    | CowWriteRecord _ _ payload =>
        if bs - COW_HEADER_SIZE <? zlen payload then Err BadFormat else Ok (cow_record_image bs r)
    | _ => Ok (cow_record_image bs r)
    end.
Proof.
  intros Hbs. unfold encode_cow_record, cow_record_image, cow_image, saturating_sub, COW_HEADER_SIZE, u32_max in *.
  rewrite (proj2 (Z.ltb_ge bs 32)) by lia. cbv zeta.
  change (zeros bs) with ([] ++ zeros bs).
  destruct r as [seq block payload|seq].
  - pose proof (zlen_nonneg payload). rewrite Z.max_l by lia. case_if; [done|].
    rewrite (proj2 (Z.ltb_ge _ (zlen payload))) by lia.
    rewrite !put_zeros by (autorewrite with zlen; lia). autorewrite with zlen.
    rewrite <-!app_assoc, app_nil_l. f_equal. same_prefix. f_equal. lia.
  - rewrite !put_zeros by (autorewrite with zlen; lia). autorewrite with zlen.
    rewrite <-!app_assoc, app_nil_l. f_equal. same_prefix. f_equal. lia.
Qed.

Lemma cow_image_fields kind seq block len crc rest :
  zlen (cow_image kind seq block len crc rest) <= usize_max →
  let b := cow_image kind seq block len crc rest in
  field 4 b 0 = Some (le_bytes 4 COW_MAGIC) ∧ field 2 b 4 = Some (le_bytes 2 COW_VERSION) ∧
  field 2 b 6 = Some (le_bytes 2 kind) ∧ field 8 b 8 = Some (le_bytes 8 seq) ∧
  field 8 b 16 = Some (le_bytes 8 block) ∧ field 4 b 24 = Some (le_bytes 4 len) ∧
  field 4 b 28 = Some (le_bytes 4 crc) ∧ drop 32 b = rest.
Proof.
  intros Hb b. subst b. unfold cow_image in *. autorewrite with zlen in Hb.
  pose proof (zlen_nonneg rest).
  split_and!; [..|done];
    rewrite ?field_skip by (autorewrite with zlen; lia); autorewrite with zlen;
    (rewrite field_head by (rewrite ?le_bytes_length; autorewrite with zlen; lia); done).
Qed.

Lemma cow_image_length kind seq block len crc rest :
  zlen (cow_image kind seq block len crc rest) = COW_HEADER_SIZE + zlen rest.
Proof. unfold cow_image, COW_HEADER_SIZE. autorewrite with zlen. lia. Qed.

Lemma cow_record_image_length bs r : COW_HEADER_SIZE <= bs → cow_record_ok bs r →
  zlen (cow_record_image bs r) = bs.
Proof.
  intros Hbs. destruct r as [seq block payload|seq]; simpl; rewrite cow_image_length.
  - intros (_&_&_&?). rewrite zlen_app, zlen_zeros by lia. lia.
  - intros _. rewrite zlen_zeros by lia. lia.
Qed.

Lemma cow_record_image_bytes bs r : cow_record_ok bs r → bytes_ok (cow_record_image bs r).
Proof.
  intros Hr. destruct r as [seq block payload|seq]; simpl; unfold cow_image, bytes_ok;
    rewrite !Forall_app; split_and!; try apply le_bytes_ok; try apply zeros_ok.
  by destruct Hr as (_&_&?&_).
Qed.

Lemma is_all_zero_zeros n : is_all_zero (zeros n) = true.
Proof. unfold is_all_zero, zeros. by induction (Z.to_nat n). Qed.

Lemma decode_cow_image bs r : COW_HEADER_SIZE <= bs <= u32_max → cow_record_ok bs r →
  decode_cow_record (cow_record_image bs r) = Ok (Some r).
Proof.
  intros Hbs Hr. pose proof (cow_record_image_length bs r ltac:(lia) Hr) as Hl.
  unfold decode_cow_record, field_le_u32, field_le_u16, field_le_u64. rewrite Hl.
  assert (is_all_zero (cow_record_image bs r) = false) as -> by by destruct r.
  assert (bs <= usize_max) as Hu by (unfold u32_max, usize_max, u64_max in *; lia).
  destruct r as [seq block payload|seq]; cbn [cow_record_image cow_record_ok] in *.
  - destruct Hr as (?&?&?&?). pose proof (zlen_nonneg payload). pose proof (crc32c_u32 payload).
    destruct (cow_image_fields COW_RECORD_WRITE seq block (zlen payload) (crc32c payload)
      (payload ++ zeros (bs - COW_HEADER_SIZE - zlen payload))) as (->&->&->&->&->&->&->&Hd); [lia|].
    simpl. unfold u32_max, u64_max in *.
    rewrite !le_value_bytes by (unfold COW_RECORD_WRITE, COW_VERSION, COW_MAGIC, COW_HEADER_SIZE in *; lia). simpl.
    unfold checked_add. rewrite (proj2 (Z.leb_le _ _)) by lia. simpl.
    rewrite (proj2 (Z.ltb_ge _ _)) by lia.
    change (Z.to_nat COW_HEADER_SIZE) with 32%nat. rewrite ?Hd, ?drop_0.
    replace (Z.to_nat (COW_HEADER_SIZE + zlen payload)) with (32 + length payload)%nat
      by (unfold zlen, COW_HEADER_SIZE; lia).
    replace (Z.to_nat (zlen payload)) with (length payload) by (unfold zlen; lia).
    rewrite <-drop_drop, Hd, take_app_length, drop_app_length.
    by rewrite Z.eqb_refl, is_all_zero_zeros.
  - destruct (cow_image_fields COW_RECORD_COMMIT seq 0 0 0 (zeros (bs - COW_HEADER_SIZE)))
      as (->&->&->&->&->&->&->&Hd); [lia|].
    simpl. unfold u64_max in *. rewrite (le_value_bytes 8 seq) by lia.
    change (Z.to_nat COW_HEADER_SIZE) with 32%nat. by rewrite ?Hd, ?drop_0, is_all_zero_zeros.
Qed.

Lemma field_le_inv n b off v : 0 <= off → bytes_ok b → le_value <$> field n b off = Some v →
  off + Z.of_nat n <= zlen b ∧ 0 <= v < 256 ^ Z.of_nat n ∧
  drop (Z.to_nat off) b = le_bytes n v ++ drop (Z.to_nat (off + Z.of_nat n)) b.
Proof.
  intros Ho Hb. destruct (field n b off) as [x|] eqn:Hf; intros [= <-].
  apply field_Some in Hf as (Hn&Hl&Hd); [|done].
  assert (bytes_ok x) as Hx by (assert (bytes_ok (drop (Z.to_nat off) b)) as Hok by (by apply Forall_drop);
    rewrite Hd in Hok; by apply Forall_app in Hok as [??]).
  pose proof (le_value_bound x Hx) as Hv. unfold zlen in Hv. rewrite Hn in Hv.
  split_and!; [lia..|]. rewrite Hd, <-(le_bytes_value x Hx), Hn at 1. do 2 f_equal. lia.
Qed.

Lemma cow_write_image b seq block len :
  0 <= seq <= u64_max → 0 <= block <= u64_max → bytes_ok (drop 32 b) → 0 <= len →
  COW_HEADER_SIZE + len <= zlen b → is_all_zero (drop (Z.to_nat (COW_HEADER_SIZE + len)) b) = true →
  let payload := take (Z.to_nat len) (drop 32 b) in
  b = cow_image COW_RECORD_WRITE seq block len (crc32c payload) (drop 32 b) →
  cow_record_ok (zlen b) (CowWriteRecord seq block payload) ∧
  b = cow_record_image (zlen b) (CowWriteRecord seq block payload).
Proof.
  intros Hs Hb Hok Hlen Hle Hz payload Himg.
  assert (zlen payload = len) as Hp.
  { unfold payload, zlen, COW_HEADER_SIZE in *. rewrite length_take, length_drop. lia. }
  split; simpl; rewrite Hp.
  - split_and!; try lia. by apply Forall_take.
  - rewrite Himg at 1. f_equal. rewrite <-(take_drop (Z.to_nat len) (drop 32 b)) at 1.
    fold payload. f_equal. rewrite drop_drop. apply is_all_zero_spec in Hz.
    replace (32 + Z.to_nat len)%nat with (Z.to_nat (COW_HEADER_SIZE + len)) by (unfold COW_HEADER_SIZE; lia).
    rewrite Hz. f_equal. unfold zlen, COW_HEADER_SIZE in *. rewrite length_drop. lia.
Qed.

(** Only the images decode to a record. *)
Lemma decode_cow_inv b r : bytes_ok b → decode_cow_record b = Ok (Some r) →
  COW_HEADER_SIZE <= zlen b ∧ cow_record_ok (zlen b) r ∧ b = cow_record_image (zlen b) r.
Proof.
  intros Hb. unfold decode_cow_record, ok_or. case_if; [done|].
  destruct (field_le_u32 b 0) as [magic|] eqn:H0; [|done].
  destruct (magic =? COW_MAGIC) eqn:Em; [|done]. apply Z.eqb_eq in Em as ->. simpl.
  destruct (field_le_u16 b 4) as [version|] eqn:H4; [|done]. simpl.
  destruct (version =? COW_VERSION) eqn:Ev; [|done]. apply Z.eqb_eq in Ev as ->. simpl.
  destruct (field_le_u16 b 6) as [kind|] eqn:H6; [|done]. simpl.
  destruct (field_le_u64 b 8) as [seq|] eqn:H8; [|done]. simpl.
  destruct (field_le_u64 b 16) as [block|] eqn:H16; [|done]. simpl.
  destruct (field_le_u32 b 24) as [len|] eqn:H24; [|done]. simpl.
  destruct (field_le_u32 b 28) as [crc|] eqn:H28; [|done]. simpl.
  apply field_le_inv in H0 as (_&_&E0), H4 as (_&_&E4), H6 as (_&_&E6), H8 as (_&Hseq&E8),
    H16 as (_&Hblock&E16), H24 as (_&Hlen&E24), H28 as (Hl&_&E28); [|done..].
  assert (b = cow_image kind seq block len crc (drop 32 b)) as Himg.
  { cbv [Z.of_nat Pos.of_succ_nat Pos.succ Z.add Pos.add] in *.
    change b with (drop (Z.to_nat 0) b) at 1. unfold cow_image.
    by rewrite E0, E4, E6, E8, E16, E24, E28. }
  clear E0 E4 E6 E8 E16 E24 E28. change (Z.to_nat COW_HEADER_SIZE) with 32%nat.
  intros Hr. split; [unfold COW_HEADER_SIZE; lia|]. revert Hr.
  assert (bytes_ok (drop 32 b)) by by apply Forall_drop.
  destruct (kind =? COW_RECORD_WRITE) eqn:Ek.
  - apply Z.eqb_eq in Ek as ->. unfold checked_add.
    destruct (_ <=? usize_max); [|done]. simpl. destruct (zlen b <? _) eqn:Hlt; [done|].
    apply Z.ltb_ge in Hlt.
    destruct (crc32c _ =? crc) eqn:Ec; [|done]. apply Z.eqb_eq in Ec. simpl.
    destruct (is_all_zero (drop (Z.to_nat (COW_HEADER_SIZE + len)) b)) eqn:Hz; [|done].
    intros [= <-]. rewrite <-Ec in Himg. apply cow_write_image; try done; unfold u64_max; lia.
  - destruct (kind =? COW_RECORD_COMMIT) eqn:Ec; [|done]. apply Z.eqb_eq in Ec as ->.
    destruct (block =? 0) eqn:E1, (len =? 0) eqn:E2, (crc =? 0) eqn:E3; try done. simpl.
    apply Z.eqb_eq in E1 as ->, E2 as ->, E3 as ->. destruct (is_all_zero (drop 32 b)) eqn:Hz; [|done]. intros [= <-]. simpl.
    split; [unfold u64_max; lia|]. rewrite Himg at 1. f_equal. apply is_all_zero_spec in Hz. rewrite Hz.
    f_equal. unfold zlen, COW_HEADER_SIZE in *. rewrite length_drop. lia.
Qed.

Lemma encode_cow_ok bs r : COW_HEADER_SIZE <= bs <= u32_max → cow_record_ok bs r →
  encode_cow_record bs r = Ok (cow_record_image bs r).
Proof.
  intros Hbs Hr. rewrite encode_cow_image by done. destruct r; [|done].
  destruct Hr as (_&_&_&?). rewrite (proj2 (Z.ltb_ge _ _)); [done|lia].
Qed.

(** C33. A block decodes to a record exactly when it is the encoding of that
    record: the codec of the copy-on-write journal is a bijection between the
    records that fit a block and the blocks that decode. *)
Theorem cow_record_bijection bs b r : COW_HEADER_SIZE <= bs <= u32_max → bytes_ok b → zlen b = bs →
  decode_cow_record b = Ok (Some r) ↔ cow_record_ok bs r ∧ encode_cow_record bs r = Ok b.
Proof.
  intros Hbs Hb Hl. split.
  - intros (_&Hr&Himg)%decode_cow_inv; [|done]. rewrite Hl in *. split; [done|].
    by rewrite encode_cow_ok, <-Himg.
  - intros [Hr He]. rewrite encode_cow_ok in He by done. injection He as <-. by apply decode_cow_image.
Qed.
End codec.
