(* ===== verification/CowRecovery.v ===== *)
(** * Recovery of the native copy-on-write journal

    What the journal's blocks hold after appends that may fail or tear,
    what recovery makes of them, and what replay writes. *)

From stdpp Require Import base sorting numbers gmap list.
From S2P Require Import Prelude Wal Journal CowJournal CowCorrect.

Local Open Scope Z_scope.

(** ** The abstract journal *)

(** The commit markers and the writes of one transaction, in order. *)
Definition commits_of (rs : list CowRecord) : list Z :=
  omap (λ r, match r with CowCommitRecord s => Some s | _ => None end) rs.
Definition writes_of (s : Z) (rs : list CowRecord) : list CowWrite :=
  omap (λ r, match r with
             | CowWriteRecord s' b p => if s' =? s then Some (mkCowWrite b p) else None
             | _ => None
             end) rs.
Definition committed (rs : list CowRecord) : list RecoveredCommit :=
  (λ s, mkRecovered s (writes_of s rs)) <$> commits_of rs.

(** How the journal is used: transactions may interleave, commit in increasing
    order, and a committed one is written no more. *)
Definition cow_next_ok (done : list Z) (r : CowRecord) : bool :=
  match r with
  | CowWriteRecord s _ _ => negb (bool_decide (s ∈ done))
  | CowCommitRecord s => forallb (λ c, c <? s) done
  end.
Fixpoint cow_protocol (done : list Z) (rs : list CowRecord) : bool :=
  match rs with
  | [] => true
  | r :: rs' => cow_next_ok done r && cow_protocol (done ++ commits_of [r]) rs'
  end.

Lemma commits_of_app a b : commits_of (a ++ b) = commits_of a ++ commits_of b.
Proof. apply omap_app. Qed.
Lemma writes_of_app s a b : writes_of s (a ++ b) = writes_of s a ++ writes_of s b.
Proof. apply omap_app. Qed.

Lemma commits_of_cons r rs : commits_of (r :: rs) = commits_of [r] ++ commits_of rs.
Proof. apply (commits_of_app [r]). Qed.
#[local] Arguments commits_of : simpl never.

Lemma cow_protocol_app done a b :
  cow_protocol done (a ++ b) = cow_protocol done a && cow_protocol (done ++ commits_of a) b.
Proof.
  revert done. induction a as [|r a IH]; intros done; simpl; [by rewrite app_nil_r|].
  by rewrite IH, (commits_of_cons r a), (app_assoc done), andb_assoc.
Qed.

(** ** Scanning records *)

Fixpoint scan_records (sc : CowScan) (rs : list CowRecord) : res JournalError (CowScan * bool) :=
  match rs with
  | [] => Ok (sc, true)
  | r :: rs' =>
      '(sc, go_on) ← cow_scan_record sc r;
      if go_on : bool then scan_records sc rs' else Ok (sc, false)
  end.

(** The scan state that the records [rs] lead to. *)
Definition scanned (sc : CowScan) (rs : list CowRecord) : Prop :=
  cs_order sc = commits_of rs ∧ ∀ s, default [] (cs_pending sc !! s) = writes_of s rs.

Lemma scanned_start : scanned (mkCowScan ∅ []) [].
Proof. done. Qed.

Lemma scan_step sc rs r : scanned sc rs → cow_next_ok (commits_of rs) r = true →
  ∃ sc', cow_scan_record sc r = Ok (sc', true) ∧ scanned sc' (rs ++ [r]).
Proof.
  intros [Ho Hp] Hr. unfold cow_scan_record, scanned. rewrite Ho, commits_of_app.
  destruct r as [s b p|s]; simpl in Hr.
  - apply negb_true_iff in Hr. rewrite Hr. eexists. split; [done|]. simpl. rewrite app_nil_r.
    split; [done|]. intros s'. rewrite writes_of_app. simpl. destruct (decide (s = s')) as [->|Hne].
    + by rewrite lookup_insert_eq, Z.eqb_refl, Hp.
    + rewrite lookup_insert_ne by done. rewrite (proj2 (Z.eqb_neq s s')) by done. by rewrite app_nil_r.
  - rewrite forallb_forall in Hr.
    assert (bool_decide (s ∈ commits_of rs) = false) as Hin.
    { apply bool_decide_eq_false. intros Hin%list_elem_of_In. apply Hr, Z.ltb_lt in Hin. lia. }
    assert (match last (commits_of rs) with Some l => s <? l | None => false end = false) as ->.
    { destruct (last (commits_of rs)) as [l|] eqn:Hl; [|done].
      apply last_Some_elem_of, list_elem_of_In, Hr, Z.ltb_lt in Hl. apply Z.ltb_ge. lia. }
    rewrite Hin. eexists. split; [done|]. split; [done|]. intros s'. rewrite writes_of_app. simpl.
    by rewrite app_nil_r.
Qed.

Lemma scan_protocol sc rs rs' : scanned sc rs → cow_protocol (commits_of rs) rs' = true →
  ∃ sc', scan_records sc rs' = Ok (sc', true) ∧ scanned sc' (rs ++ rs').
Proof.
  revert sc rs. induction rs' as [|r rs' IH]; intros sc rs Hsc; simpl.
  - intros _. rewrite app_nil_r. eauto.
  - rewrite andb_true_iff. intros [Hr Hrs'].
    destruct (scan_step sc rs r Hsc Hr) as (sc'&->&Hsc'). simpl.
    rewrite <-commits_of_app in Hrs'. destruct (IH _ _ Hsc' Hrs') as (sc''&->&?).
    eexists. split; [done|]. by rewrite <-app_assoc in *.
Qed.

(** Increasing, so that no commit is listed twice. *)
Lemma protocol_commits_nodup done rs : NoDup done → cow_protocol done rs = true → NoDup (done ++ commits_of rs).
Proof.
  revert done. induction rs as [|r rs IH]; intros done Hd; simpl; [by rewrite app_nil_r|].
  rewrite andb_true_iff. intros [Hr Hrs]. rewrite commits_of_cons, app_assoc. apply IH; [|done].
  destruct r as [s b p|s]; simpl in *; [by rewrite app_nil_r|].
  apply NoDup_app. split_and!; [done| |apply NoDup_singleton].
  intros c Hc ->%list_elem_of_singleton. rewrite forallb_forall in Hr.
  apply list_elem_of_In, Hr, Z.ltb_lt in Hc. lia.
Qed.

(** The last commit is the largest. *)
Lemma protocol_bound done rs c : (∀ c, c ∈ done → ∃ l, last done = Some l ∧ c <= l) →
  cow_protocol done rs = true → c ∈ done ++ commits_of rs →
  ∃ l, last (done ++ commits_of rs) = Some l ∧ c <= l.
Proof.
  revert done. induction rs as [|r rs IH]; intros done Hd; simpl.
  { intros _. rewrite app_nil_r. apply Hd. }
  rewrite andb_true_iff, (commits_of_cons r rs), app_assoc. intros [Hr Hrs]. apply IH; [|done].
  clear c IH. intros c. destruct r as [s b p|s]; [rewrite app_nil_r; apply Hd|].
  change (commits_of [CowCommitRecord s]) with [s]. rewrite last_snoc. intros Hc. exists s. split; [done|].
  apply elem_of_app in Hc as [Hc| ->%list_elem_of_singleton]; [|done]. simpl in Hr.
  rewrite forallb_forall in Hr. apply list_elem_of_In, Hr, Z.ltb_lt in Hc. lia.
Qed.

Lemma protocol_last rs s : cow_protocol [] rs = true → forallb (λ c, c <? s) (commits_of rs) = false →
  ∃ l, last (commits_of rs) = Some l ∧ s <= l.
Proof.
  intros Hrs Hs. destruct (decide (Exists (λ c, s <= c) (commits_of rs))) as [He|Hn].
  - apply Exists_exists in He as (c&Hc&Hsc).
    destruct (protocol_bound [] rs c) as (l&Hl&Hcl); [set_solver|done|done|]. exists l. split; [done|lia].
  - exfalso. apply not_true_iff_false in Hs. apply Hs, forallb_forall. intros c Hc%list_elem_of_In.
    apply Z.ltb_lt. apply Z.nle_gt. intros ?. apply Hn, Exists_exists. eauto.
Qed.

Lemma recovered_commits_lookup pending order : NoDup order →
  recovered_commits pending order = (λ s, mkRecovered s (default [] (pending !! s))) <$> order.
Proof.
  revert pending. induction order as [|s order IH]; intros pending; [done|].
  rewrite NoDup_cons. intros [Hs Hnd]. simpl. f_equal. rewrite IH by done.
  apply list_fmap_ext. intros i x Hx%list_elem_of_lookup_2. rewrite lookup_delete_ne by (by intros ->). done.
Qed.

Lemma recovered_committed sc rs : scanned sc rs → cow_protocol [] rs = true →
  recovered_commits (cs_pending sc) (cs_order sc) = committed rs.
Proof.
  intros [Ho Hp] Hrs. rewrite Ho, recovered_commits_lookup.
  - apply list_fmap_ext. intros i s _. by rewrite Hp.
  - by apply (protocol_commits_nodup [] rs (NoDup_nil_2)).
Qed.

(** ** The journal on the device *)

(** A region inside the device whose blocks can be read and hold a record. *)
Record region_ok (d : Device) (region : JournalRegion) : Prop := {
  ro_size : COW_HEADER_SIZE <= dev_block_size d <= u32_max;
  ro_start : 0 <= jr_start region;
  ro_blocks : 0 < jr_blocks region;
  ro_fits : jr_start region + jr_blocks region <= dev_block_count d;
  ro_count : dev_block_count d <= u64_max;
  ro_readable : ∀ i, 0 <= i < jr_blocks region → jr_start region + i ∉ dev_unreadable d;
}.

Section device.
Context `{Crc32c}.

(** The records [rs], then a block [tail] (of zeros after a clean append), then
    blocks of zeros. *)
Definition cow_slot (d : Device) (rs : list CowRecord) (tail : bytes) (i : nat) : bytes :=
  match rs !! i with
  | Some r => cow_record_image (dev_block_size d) r
  | None => if decide (i = length rs) then tail else zeros (dev_block_size d)
  end.
Definition cow_holds (d : Device) (region : JournalRegion) (rs : list CowRecord) (tail : bytes) : Prop :=
  zlen rs <= jr_blocks region ∧ Forall (cow_record_ok (dev_block_size d)) rs ∧
  ∀ i, Z.of_nat i < jr_blocks region → block_at d (jr_start region + Z.of_nat i) = cow_slot d rs tail i.

Lemma resolve_region_ok d region i : region_ok d region → 0 <= i < jr_blocks region →
  resolve_region_block region i = Ok (jr_start region + i).
Proof.
  intros Hok Hi. unfold resolve_region_block, checked_add. destruct Hok.
  rewrite (proj2 (Z.leb_gt _ _)), (proj2 (Z.leb_le _ _)) by lia. done.
Qed.

Lemma read_region_ok d region i : region_ok d region → 0 <= i < jr_blocks region →
  read_block (jr_start region + i) d = (d, Ok (block_at d (jr_start region + i))).
Proof.
  intros Hok Hi. unfold read_block. pose proof (ro_readable _ _ Hok i Hi). destruct Hok.
  rewrite (proj2 (Z.leb_gt _ _)) by lia. by rewrite bool_decide_eq_false_2.
Qed.

Lemma decode_zeros n : decode_cow_record (zeros n) = Ok None.
Proof. unfold decode_cow_record. by rewrite is_all_zero_zeros. Qed.

Lemma slot_record d region rs tail i r : region_ok d region → cow_holds d region rs tail →
  rs !! i = Some r → decode_cow_record (cow_slot d rs tail i) = Ok (Some r).
Proof.
  intros Hok (_&Hrs&_) Hi. unfold cow_slot. rewrite Hi. apply decode_cow_image; [apply Hok|].
  by eapply Forall_lookup_1.
Qed.

Lemma slot_tail d rs tail : cow_slot d rs tail (length rs) = tail.
Proof. unfold cow_slot. rewrite lookup_ge_None_2 by done. by rewrite decide_True. Qed.

Lemma next_slot_sat d region i : region_ok d region → 0 <= i < jr_blocks region →
  saturating_add u64_max i 1 = i + 1.
Proof. intros [] Hi. unfold saturating_add. lia. Qed.

(** One slot read and decoded. *)
Lemma slot_read d region rs tail (i : nat) : region_ok d region → cow_holds d region rs tail →
  Z.of_nat i < jr_blocks region →
  resolve_region_block region (Z.of_nat i) = Ok (jr_start region + Z.of_nat i) ∧
  read_block (jr_start region + Z.of_nat i) d = (d, Ok (cow_slot d rs tail i)) ∧
  saturating_add u64_max (Z.of_nat i) 1 = Z.of_nat (S i).
Proof.
  intros Hok (_&_&Hd) Hi. split_and!.
  - by eapply resolve_region_ok; [|lia].
  - rewrite (read_region_ok d region) by (done || lia). by rewrite Hd.
  - rewrite (next_slot_sat d region) by (done || lia). lia.
Qed.

(** *** Opening *)

(** A block after the records that opening takes for free. *)
Definition tail_free (rs : list CowRecord) (tail : bytes) : Prop :=
  decode_cow_record tail = Ok None ∨ decode_cow_record tail = Err BadFormat ∧ rs ≠ [].

Lemma zeros_free rs n : tail_free rs (zeros n).
Proof. left. apply decode_zeros. Qed.

Lemma open_loop_spec d region rs tail i n : region_ok d region → cow_holds d region rs tail → tail_free rs tail →
  (i <= length rs)%nat → Z.of_nat (i + n) = jr_blocks region →
  cow_open_loop n region (Z.of_nat i) d = (d, Ok (zlen rs)).
Proof.
  intros Hok Hh Hfree. revert i. induction n as [|n IH]; intros i Hi Hn; simpl.
  - destruct Hh as (?&_). unfold mret, devM_ret, zlen in *. repeat f_equal. lia.
  - destruct (slot_read _ _ _ _ i Hok Hh) as (Hres&Hread&Hsat); [lia|].
    unfold mbind, devM_bind, lift. rewrite Hres, Hread.
    destruct (rs !! i) as [r|] eqn:Hr.
    + rewrite (slot_record _ _ _ _ _ _ Hok Hh Hr), Hsat. apply IH; [|lia].
      apply lookup_lt_Some in Hr. lia.
    + apply lookup_ge_None_1 in Hr. assert (i = length rs) as -> by lia.
      rewrite slot_tail. destruct Hfree as [->|[-> Hne]]; [done|].
      destruct rs; [done|]. rewrite (proj2 (Z.eqb_neq _ _)) by (simpl; lia). done.
Qed.

Lemma cow_open_spec d region rs tail : region_ok d region → cow_holds d region rs tail → tail_free rs tail →
  cow_open region d = (d, Ok (mkCowJournal region (zlen rs))).
Proof.
  intros Hok Hh Hfree. unfold cow_open, region_is_empty. pose proof (ro_blocks _ _ Hok).
  rewrite (proj2 (Z.eqb_neq _ _)) by lia. unfold mbind, devM_bind.
  rewrite (open_loop_spec d region rs tail 0) by (done || lia). done.
Qed.

(** *** Recovery *)

(** What recovery returns when the block after the records [rs] holds [tail]. *)
Definition cow_tail_outcome (rs : list CowRecord) (tail : bytes) : res JournalError (list RecoveredCommit) :=
  match decode_cow_record tail with
  | Ok None => Ok (committed rs)
  | Ok (Some r) =>
      if cow_next_ok (commits_of rs) r then Ok (committed (rs ++ [r]))
      else match r with
           | CowWriteRecord _ _ _ => Ok (committed rs)
           | CowCommitRecord s =>
               if bool_decide (last (commits_of rs) = Some s) then Ok (committed rs) else Err BadFormat
           end
  | Err BadFormat => match commits_of rs with [] => Err BadFormat | _ => Ok (committed rs) end
  | Err e => Err e
  end.
Definition cow_outcome (region : JournalRegion) (rs : list CowRecord) (tail : bytes) :=
  if zlen rs =? jr_blocks region then Ok (committed rs) else cow_tail_outcome rs tail.

Definition finish_scan (r : res JournalError CowScan) : res JournalError (list RecoveredCommit) :=
  match r with
  | Ok sc => Ok (recovered_commits (cs_pending sc) (cs_order sc))
  | Err e => Err e
  end.

(** A slot of zeros, or the end of the region, ends the scan. *)
Lemma recover_loop_end d region rs tail i n sc : region_ok d region → cow_holds d region rs tail →
  (length rs < i)%nat → Z.of_nat (i + n) = jr_blocks region →
  recover_loop n region (Z.of_nat i) sc d = (d, Ok sc).
Proof.
  intros Hok Hh Hi Hn. destruct n as [|n]; [done|]. simpl.
  destruct (slot_read _ _ _ _ i Hok Hh) as (Hres&Hread&_); [lia|].
  unfold mbind, devM_bind, lift. rewrite Hres, Hread. unfold cow_slot.
  rewrite lookup_ge_None_2, decide_False by lia. by rewrite decode_zeros.
Qed.

(** A record that does not follow the protocol ends the scan or fails it. *)
Lemma scan_foreign sc rs r : scanned sc rs → cow_protocol [] rs = true → cow_next_ok (commits_of rs) r = false →
  match r with
  | CowWriteRecord _ _ _ => cow_scan_record sc r = Ok (sc, false)
  | CowCommitRecord s =>
      if bool_decide (last (commits_of rs) = Some s) then cow_scan_record sc r = Ok (sc, true)
      else cow_scan_record sc r = Err BadFormat
  end.
Proof.
  intros [Ho _] Hrs Hr. destruct r as [s b p|s]; simpl in *; rewrite Ho.
  - apply negb_false_iff in Hr. by rewrite Hr.
  - destruct (protocol_last rs s Hrs Hr) as (l&Hl&Hsl). rewrite Hl. case_bool_decide as Hs.
    + injection Hs as ->. rewrite Z.ltb_irrefl, bool_decide_eq_true_2; [done|].
      by apply last_Some_elem_of.
    + rewrite (proj2 (Z.ltb_lt _ _)); [done|]. assert (s ≠ l) by congruence. lia.
Qed.

Lemma recover_loop_tail d region rs tail n sc : region_ok d region → cow_holds d region rs tail →
  cow_protocol [] rs = true → scanned sc rs → Z.of_nat (length rs + n) = jr_blocks region →
  ∃ out, recover_loop n region (zlen rs) sc d = (d, out) ∧ finish_scan out = cow_outcome region rs tail.
Proof.
  intros Hok Hh Hrs Hsc Hn. unfold cow_outcome. pose proof (recovered_committed sc rs Hsc Hrs) as Hrec.
  destruct n as [|n].
  { rewrite (proj2 (Z.eqb_eq _ _)) by (unfold zlen; lia). eexists. split; [done|]. simpl. by rewrite Hrec. }
  rewrite (proj2 (Z.eqb_neq _ _)) by (unfold zlen; lia).
  destruct (slot_read _ _ _ _ (length rs) Hok Hh) as (Hres&Hread&Hsat); [lia|].
  simpl. unfold mbind, devM_bind, lift, zlen. rewrite Hres, Hread, slot_tail, Hsat. unfold cow_tail_outcome.
  destruct (decode_cow_record tail) as [[r|]|e].
  - destruct (cow_next_ok (commits_of rs) r) eqn:Hr.
    + destruct (scan_step sc rs r Hsc Hr) as (sc'&->&Hsc'). simpl.
      rewrite (recover_loop_end d region rs tail) by (done || lia). eexists. split; [done|]. simpl.
      rewrite (recovered_committed sc' (rs ++ [r])); [done..|].
      rewrite cow_protocol_app, Hrs. simpl. by rewrite Hr.
    + pose proof (scan_foreign sc rs r Hsc Hrs Hr) as Hf. destruct r as [s b p|s].
      * rewrite Hf. eexists. split; [done|]. simpl. by rewrite Hrec.
      * case_bool_decide; rewrite Hf; [|by eexists].
        rewrite (recover_loop_end d region rs tail) by (done || lia). eexists. split; [done|]. simpl. by rewrite Hrec.
  - eexists. split; [done|]. simpl. by rewrite Hrec.
  - destruct Hsc as [Ho _]. rewrite Ho in *. destruct e; try by eexists.
    destruct (commits_of rs); eexists; (split; [done|]); simpl; rewrite ?Ho, ?Hrec; done.
Qed.

Lemma recover_loop_spec d region rs tail i n sc : region_ok d region → cow_holds d region rs tail →
  cow_protocol [] rs = true → (i <= length rs)%nat → scanned sc (take i rs) →
  Z.of_nat (i + n) = jr_blocks region →
  ∃ out, recover_loop n region (Z.of_nat i) sc d = (d, out) ∧ finish_scan out = cow_outcome region rs tail.
Proof.
  intros Hok Hh Hrs. revert i sc. induction n as [|n IH]; intros i sc Hi Hsc Hn.
  { pose proof Hh as (Hle&_). unfold zlen in Hle. assert (i = length rs) as -> by lia.
    rewrite take_ge in Hsc by done. by apply recover_loop_tail. }
  destruct (rs !! i) as [r|] eqn:Hr.
  - simpl. destruct (slot_read _ _ _ _ i Hok Hh) as (Hres&Hread&Hsat); [lia|].
    unfold mbind, devM_bind, lift. rewrite Hres, Hread, (slot_record _ _ _ _ _ _ Hok Hh Hr), Hsat.
    destruct (scan_step sc (take i rs) r Hsc) as (sc'&->&Hsc').
    { rewrite <-(take_drop_middle rs i r Hr), cow_protocol_app in Hrs. simpl in Hrs. by bool_to_prop. }
    rewrite <-take_S_r in Hsc' by done. apply IH; [|done|lia]. apply lookup_lt_Some in Hr. lia.
  - apply lookup_ge_None_1 in Hr. assert (i = length rs) as -> by lia.
    rewrite take_ge in Hsc by done. by apply recover_loop_tail.
Qed.

Lemma recover_spec d region rs tail : region_ok d region → cow_holds d region rs tail →
  cow_protocol [] rs = true → recover_native_cow region d = (d, cow_outcome region rs tail).
Proof.
  intros Hok Hh Hrs. unfold recover_native_cow, region_is_empty. pose proof (ro_blocks _ _ Hok).
  rewrite (proj2 (Z.eqb_neq _ _)) by lia. unfold mbind, devM_bind.
  destruct (recover_loop_spec d region rs tail 0 (Z.to_nat (jr_blocks region)) (mkCowScan ∅ []) Hok Hh Hrs)
    as (out&Hl&<-); [lia|done|lia|]. change (Z.of_nat 0) with 0 in Hl. rewrite Hl. by destruct out.
Qed.

(** *** Appending *)

(** Torn writes leave bytes. *)
Definition answers_ok (d : Device) : Prop :=
  Forall (λ a, match a with WriteTorn torn => bytes_ok torn | _ => True end) (dev_writes d).

(** Only contents inside the region and the answers differ. *)
Definition same_outside (region : JournalRegion) (d d' : Device) : Prop :=
  dev_block_size d' = dev_block_size d ∧ dev_block_count d' = dev_block_count d ∧
  dev_unreadable d' = dev_unreadable d ∧
  ∀ b, b < jr_start region ∨ jr_start region + jr_blocks region <= b → dev_blocks d' !! b = dev_blocks d !! b.

#[global] Instance same_outside_preorder region : PreOrder (same_outside region).
Proof.
  split; [done|]. intros d1 d2 d3 (?&?&?&Ho) (?&?&?&Ho'). split_and!; try congruence.
  intros b Hb. by rewrite Ho', Ho.
Qed.

Lemma region_ok_same d d' region : same_outside region d d' → region_ok d region → region_ok d' region.
Proof. intros (Hs&Hc&Hu&_) []. split; rewrite ?Hs, ?Hc, ?Hu; done. Qed.

(** The block of slot [length rs] replaced. *)
Lemma holds_set_block d region rs tail data ws : cow_holds d region rs tail → 0 <= jr_start region →
  cow_holds (add_writes d [(jr_start region + zlen rs, data)] ws) region rs data.
Proof.
  intros (Hle&Hrs&Hb) Hs. split_and!; [done..|]. intros i Hi. specialize (Hb i Hi).
  rewrite block_at_write. unfold cow_slot in *. destruct (decide (i = length rs)) as [->|Hne].
  - by rewrite decide_True, lookup_ge_None_2.
  - rewrite decide_False by (unfold zlen; lia). by rewrite Hb.
Qed.

Lemma holds_snoc d region rs r : cow_holds d region rs (cow_record_image (dev_block_size d) r) →
  cow_record_ok (dev_block_size d) r → zlen rs < jr_blocks region →
  cow_holds d region (rs ++ [r]) (zeros (dev_block_size d)).
Proof.
  intros (Hle&Hrs&Hb) Hr Hlt. split_and!.
  - rewrite zlen_app, zlen_cons, zlen_nil. lia.
  - apply Forall_app. auto.
  - intros i Hi. rewrite Hb by done. unfold cow_slot. rewrite lookup_app, length_app.
    destruct (rs !! i) as [r'|] eqn:Hri; [done|]. apply lookup_ge_None_1 in Hri.
    destruct (decide (i = length rs)) as [->|Hne]; [by rewrite Nat.sub_diag|].
    destruct (i - length rs)%nat eqn:Hd; [lia|]. simpl. by case_decide.
Qed.

Lemma same_outside_set d region i data ws : 0 <= i < jr_blocks region →
  same_outside region d (add_writes d [(jr_start region + i, data)] ws).
Proof. intros Hi. split_and!; [done..|]. intros b Hb. rewrite add_writes_blocks. simpl. by rewrite lookup_insert_ne by lia. Qed.

(** An append puts its record in the next slot, finds no space, or fails and
    leaves some bytes in that slot. *)
Lemma append_record_spec d region rs tail0 r : region_ok d region → answers_ok d →
  cow_holds d region rs tail0 → bytes_ok tail0 → zlen tail0 = dev_block_size d → cow_record_ok (dev_block_size d) r →
  ∃ d' out, append_record (mkCowJournal region (zlen rs)) r d = (d', out) ∧
    same_outside region d d' ∧ answers_ok d' ∧
    ((out = Ok (mkCowJournal region (zlen (rs ++ [r]))) ∧ cow_holds d' region (rs ++ [r]) (zeros (dev_block_size d'))) ∨
     (out = Err NoSpace ∧ d' = d ∧ zlen rs = jr_blocks region) ∨
     (out = Err DeviceIo ∧ ∃ tail, bytes_ok tail ∧ zlen tail = dev_block_size d' ∧ cow_holds d' region rs tail)).
Proof.
  intros Hok Ha Hh Ht0 Hl0 Hr. pose proof (ro_size _ _ Hok) as Hsize. pose proof (zlen_nonneg rs).
  unfold append_record, device_block_size, write_next, mbind, devM_bind, lift.
  rewrite encode_cow_ok by done. simpl. pose proof Hh as (Hle&_).
  destruct (jr_blocks region <=? zlen rs) eqn:Hfull; bool_to_prop.
  { eexists _, _. split; [done|]. split; [done|]. split; [done|]. right. left. split_and!; [done..|lia]. }
  rewrite (resolve_region_ok d) by (done || lia).
  pose proof (cow_record_image_length _ _ ltac:(apply Hsize) Hr) as Hil.
  destruct Hok as [_ Hst _ Hfit Hcnt _].
  destruct (write_block _ _ d) as [d1 o] eqn:Hw. apply write_block_outcome in Hw; [|done|lia].
  assert (saturating_add u64_max (zlen rs) 1 = zlen (rs ++ [r])) as Hsat
    by (rewrite zlen_app, zlen_cons, zlen_nil; unfold saturating_add; lia).
  assert (∀ ws, ws `suffix_of` dev_writes d →
    Forall (λ a, match a with WriteTorn torn => bytes_ok torn | _ => True end) ws) as Hsuf.
  { intros ws [k Hk]. unfold answers_ok in Ha. rewrite Hk in Ha. by apply Forall_app in Ha as [_ ?]. }
  destruct Hw as [ws Hs|ws Hs _|ws x Hs _ Hx Hcase].
  - eexists _, _. split; [by rewrite Hsat|]. split_and!; [by apply same_outside_set|by apply Hsuf|].
    left. split; [done|]. apply (holds_snoc (add_writes d _ ws)); [by eapply holds_set_block|done|done].
  - eexists _, _. split; [done|]. split_and!; [|by apply Hsuf|].
    { split_and!; [done..|]. intros b _. by rewrite add_writes_blocks. }
    right. right. split; [done|]. exists tail0. split_and!; [done..|].
    destruct Hh as (?&?&Hb). split_and!; [done..|]. intros i Hi. by rewrite add_writes_nil_at, Hb.
  - eexists _, _. split; [done|]. split_and!; [by apply same_outside_set|by apply Hsuf|].
    right. right. split; [done|]. exists x. split_and!; [|done|by eapply holds_set_block].
    destruct Hcase as [->|Ht]; [by apply cow_record_image_bytes|].
    unfold answers_ok in Ha. rewrite Forall_forall in Ha. by apply (Ha _ Ht).
Qed.

(** A client that appends records until one fails. *)
Fixpoint append_records (j : NativeCowJournal) (rs : list CowRecord) : devM NativeCowJournal :=
  match rs with
  | [] => mret j
  | r :: rs' => j ← append_record j r; append_records j rs'
  end.

(** How the appends of [rs] after [rs0] ended. *)
Definition appended (d d' : Device) (region : JournalRegion) (rs0 : list CowRecord) (tail0 : bytes)
    (rs : list CowRecord) (out : res JournalError NativeCowJournal) (done : list CowRecord) (tail : bytes) : Prop :=
  same_outside region d d' ∧ cow_holds d' region (rs0 ++ done) tail ∧ bytes_ok tail ∧ done `prefix_of` rs ∧
  match out with
  | Ok j => done = rs ∧ j = mkCowJournal region (zlen (rs0 ++ rs)) ∧ tail = match rs with [] => tail0 | _ => zeros (dev_block_size d) end
  | Err NoSpace => done ≠ rs ∧ zlen (rs0 ++ done) = jr_blocks region
  | Err e => e = DeviceIo ∧ done ≠ rs
  end.

Lemma append_records_spec rs d region rs0 tail0 d' out : region_ok d region → answers_ok d →
  cow_holds d region rs0 tail0 → bytes_ok tail0 → zlen tail0 = dev_block_size d →
  Forall (cow_record_ok (dev_block_size d)) rs →
  append_records (mkCowJournal region (zlen rs0)) rs d = (d', out) →
  ∃ done tail, appended d d' region rs0 tail0 rs out done tail.
Proof.
  revert d rs0 tail0. induction rs as [|r rs IH]; intros d rs0 tail0 Hok Ha Hh Ht Hl Hrs; simpl.
  - intros [= <- <-]. exists [], tail0. unfold appended. rewrite app_nil_r. by split_and!.
  - apply Forall_cons in Hrs as [Hr Hrs]. unfold mbind, devM_bind.
    destruct (append_record_spec d region rs0 tail0 r) as (d1&o&->&Hs&Ha1&Hcase); try done.
    destruct Hcase as [[-> Hh1]|[(->&->&Hfull)|(->&tail&Htail&Hlt&Hh1)]].
    + pose proof Hs as (Hbs&_). rewrite <-Hbs in Hrs. intros Happ.
      assert (0 <= dev_block_size d1) by (pose proof (ro_size _ _ Hok); unfold COW_HEADER_SIZE in *; lia).
      destruct (IH d1 (rs0 ++ [r]) _ (region_ok_same _ _ _ Hs Hok) Ha1 Hh1 (zeros_ok _) (zlen_zeros _ ltac:(done))
        Hrs Happ) as (done&tail&Hs2&Hh2&Ht2&Hp&Hout). rewrite <-!app_assoc in *.
      exists (r :: done), tail. split_and!; [by etrans|done|done|by apply prefix_cons|].
      destruct out as [j|[]]; [|naive_solver congruence..].
      destruct Hout as (->&->&Htl). split_and!; [done|done|]. rewrite <-Hbs. by destruct rs.
    + intros [= <- <-]. exists [], tail0. unfold appended. rewrite app_nil_r.
      by split_and!; [done|done|done|apply prefix_nil|..].
    + intros [= <- <-]. exists [], tail. unfold appended. rewrite app_nil_r.
      by split_and!; [done|done|done|apply prefix_nil|..].
Qed.

Lemma prefix_protocol done rs' rs : cow_protocol done rs = true → rs' `prefix_of` rs → cow_protocol done rs' = true.
Proof. intros Hrs [k ->]. rewrite cow_protocol_app in Hrs. by bool_to_prop. Qed.

End device.

(** ** Replay *)

Definition replay_fits (d : Device) (w : CowWrite) : Prop :=
  cw_block w < dev_block_count d ∧ zlen (cw_bytes w) <= dev_block_size d.

(** The contents of a block after the writes [ws]: the last of them, padded. *)
Definition block_after (d : Device) (ws : list CowWrite) (block : Z) : bytes :=
  match last (filter (λ w, cw_block w = block) ws) with
  | Some w => padded (dev_block_size d) (cw_bytes w)
  | None => block_at d block
  end.

Definition commit_writes (commits : list RecoveredCommit) : list CowWrite := concat (rcv_writes <$> commits).

Lemma replay_writes_app ws ws' d :
  replay_cow_writes (ws ++ ws') d =
    match replay_cow_writes ws d with (d', Ok _) => replay_cow_writes ws' d' | (d', Err e) => (d', Err e) end.
Proof.
  revert d. induction ws as [|w ws IH]; intros d; [done|]. simpl. unfold mbind, devM_bind.
  destruct (replay_cow_write w d) as [d1 [[]|e]]; [apply IH|done].
Qed.

Lemma replay_commits_writes commits d : replay_native_cow commits d = replay_cow_writes (commit_writes commits) d.
Proof.
  revert d. induction commits as [|c commits IH]; intros d; [done|].
  change (commit_writes (c :: commits)) with (rcv_writes c ++ commit_writes commits).
  rewrite replay_writes_app. simpl. unfold mbind, devM_bind.
  destruct (replay_cow_writes (rcv_writes c) d) as [d1 [[]|e]]; [apply IH|done].
Qed.

Lemma block_after_app d ws ws' b :
  block_after d (ws ++ ws') b =
    match last (filter (λ w, cw_block w = b) ws') with
    | Some w => padded (dev_block_size d) (cw_bytes w)
    | None => block_after d ws b
    end.
Proof.
  unfold block_after. rewrite filter_app, last_app. by destruct (last (filter _ ws')).
Qed.

(** One write, however it goes. *)
Lemma replay_write_spec w d d' out : replay_fits d w → replay_cow_write w d = (d', out) →
  dev_block_size d' = dev_block_size d ∧ dev_block_count d' = dev_block_count d ∧
  (∀ b, b ≠ cw_block w → block_at d' b = block_at d b) ∧
  (dev_writes d = [] → dev_writes d' = [] ∧ out = Ok ()) ∧
  (out = Ok () → ∀ b, block_at d' b = block_after d [w] b).
Proof.
  intros [Hc Hl]. unfold replay_cow_write, device_block_size, mbind, devM_bind.
  rewrite (proj2 (Z.ltb_ge _ _)), put_padded by done.
  assert (zlen (padded (dev_block_size d) (cw_bytes w)) = dev_block_size d) as Hp.
  { unfold padded. rewrite zlen_app, zlen_zeros by lia. lia. }
  intros Hw. apply write_block_outcome in Hw; [|done..].
  assert (∀ ws b, block_at (add_writes d [(cw_block w, padded (dev_block_size d) (cw_bytes w))] ws) b =
    block_after d [w] b) as Heq.
  { intros ws b. rewrite block_at_write. unfold block_after. rewrite filter_cons, filter_nil.
    destruct (decide (b = cw_block w)), (decide (cw_block w = b)); simpl; congruence. }
  assert (∀ ws x b, b ≠ cw_block w → block_at (add_writes d [(cw_block w, x)] ws) b = block_at d b) as Hne.
  { intros ws x b Hb. by rewrite block_at_write, decide_False. }
  destruct Hw as [ws Hs|ws Hs Hn|ws x Hs Hn _ _]; split_and!; try done; auto.
  - intros Hd. rewrite Hd in Hs. split; [|done]. by apply suffix_nil_inv in Hs.
  - intros b _. apply add_writes_nil_at.
Qed.

(** Contents depend on the device before only through its contents. *)
Lemma block_after_step d d1 w ws b : dev_block_size d1 = dev_block_size d →
  (∀ b, block_at d1 b = block_after d [w] b) → block_after d1 ws b = block_after d (w :: ws) b.
Proof.
  intros Hs Hb. change (w :: ws) with ([w] ++ ws). rewrite block_after_app. unfold block_after at 1.
  rewrite Hs. destruct (last _); [done|]. apply Hb.
Qed.

Lemma replay_writes_spec ws d d' out : Forall (replay_fits d) ws → replay_cow_writes ws d = (d', out) →
  dev_block_size d' = dev_block_size d ∧ dev_block_count d' = dev_block_count d ∧
  (∀ b, b ∉ (cw_block <$> ws) → block_at d' b = block_at d b) ∧
  (dev_writes d = [] → out = Ok ()) ∧
  (out = Ok () → ∀ b, block_at d' b = block_after d ws b).
Proof.
  revert d. induction ws as [|w ws IH]; intros d Hf; simpl; [by intros [= <- <-]|].
  apply Forall_cons in Hf as [Hw Hf]. unfold mbind, devM_bind.
  destruct (replay_cow_write w d) as [d1 o] eqn:E. apply replay_write_spec in E as (Hs&Hc&Hb&Hcalm&Hok); [|done].
  assert (Forall (replay_fits d1) ws) as Hf1.
  { eapply Forall_impl; [done|]. intros x. unfold replay_fits. by rewrite Hs, Hc. }
  destruct o as [[]|e].
  - intros Hr. destruct (IH _ Hf1 Hr) as (?&?&Hb'&Hcalm'&Hok'). split_and!; [congruence..| | |].
    + intros b Hn. rewrite not_elem_of_cons in Hn. rewrite Hb', Hb by naive_solver. done.
    + intros Hd. apply Hcalm', Hcalm, Hd.
    + intros Ho b. rewrite Hok' by done. apply block_after_step; auto.
  - intros [= <- <-]. split_and!; [done|done| | |done].
    + intros b Hn. rewrite not_elem_of_cons in Hn. apply Hb. naive_solver.
    + intros Hd. apply Hcalm in Hd as [_ ?]. done.
Qed.

(** C34. Replaying recovered transactions applies, to every block, the last of
    their writes to it, padded with zeros, and leaves the other blocks; and it can
    be interrupted: whatever a first run did before it failed or tore a block, a
    second run that meets no failure ends in that same state. *)
Theorem cow_replay_restartable commits d d1 out : Forall (replay_fits d) (commit_writes commits) →
  replay_native_cow commits d = (d1, out) →
  (out = Ok () → ∀ b, block_at d1 b = block_after d (commit_writes commits) b) ∧
  ∃ d2, replay_native_cow commits (set_writes d1 []) = (d2, Ok ()) ∧
    ∀ b, block_at d2 b = block_after d (commit_writes commits) b.
Proof.
  intros Hf. rewrite !replay_commits_writes. set (ws := commit_writes commits) in *. intros Hr.
  destruct (replay_writes_spec _ _ _ _ Hf Hr) as (Hs&Hc&Hb&_&Hok). split; [done|].
  assert (Forall (replay_fits (set_writes d1 [])) ws) as Hf1.
  { eapply Forall_impl; [done|]. intros x. unfold replay_fits. simpl. by rewrite Hs, Hc. }
  destruct (replay_cow_writes ws (set_writes d1 [])) as [d2 o] eqn:E.
  destruct (replay_writes_spec _ _ _ _ Hf1 E) as (_&_&_&Hcalm&Hok2). rewrite (Hcalm eq_refl) in *.
  eexists. split; [done|]. intros b. rewrite Hok2 by done. unfold block_after. simpl. rewrite Hs.
  destruct (last _) eqn:Hl; [done|]. unfold set_writes. rewrite add_writes_nil_at. apply (Hb b). intros (w&->&Hw)%list_elem_of_fmap.
  apply last_None in Hl. assert (w ∈ filter (λ w', cw_block w' = cw_block w) ws) as Hin by (by apply list_elem_of_filter).
  rewrite Hl in Hin. by apply not_elem_of_nil in Hin.
Qed.
