(* ===== verification/CowWitness.v ===== *)
(** * The copy-on-write journal: concrete runs *)

From stdpp Require Import base sorting numbers gmap list.
From S2P Require Import Prelude Wal Journal CowJournal CowCorrect CowRecovery.

Local Open Scope Z_scope.

#[local] Existing Instance BitwiseCrc.

#[local] Ltac byte_list := unfold bytes_ok; repeat constructor; by compute.

Definition sample_record : CowRecord := CowWriteRecord 3 17 [1; 2; 3].
Definition sample_block : bytes := match encode_cow_record 40 sample_record with Ok b => b | Err _ => [] end.

Lemma cow_record_bijection_witness :
  decode_cow_record sample_block = Ok (Some sample_record) ↔
    cow_record_ok 40 sample_record ∧ encode_cow_record 40 sample_record = Ok sample_block.
Proof.
  assert (bytes_ok sample_block ∧ zlen sample_block = 40) as [Hb Hz].
  { vm_compute sample_block. split; [byte_list|done]. }
  apply cow_record_bijection; [by compute|exact Hb|exact Hz].
Defined.

(** A device of eight blocks of 40 bytes, whose third write is torn. *)
Definition cow_device : Device := mkDevice 40 8 false ∅ [] ∅ [WriteDone; WriteDone; WriteTorn (replicate 40 255)] [].
Definition cow_region : JournalRegion := mkRegion 2 5.
Definition cow_sample : list CowRecord := [CowWriteRecord 1 7 [9; 9]; CowCommitRecord 1; CowWriteRecord 2 7 [8]; CowCommitRecord 2].
Definition cow_run : Device * res JournalError NativeCowJournal :=
  (j ← cow_open cow_region; append_records j cow_sample) cow_device.

Lemma cow_run_fails : cow_run.2 = Err DeviceIo.
Proof. vm_compute. reflexivity. Qed.


(** Two writes to block 7; the first run tears it. *)
Definition cow_commits : list RecoveredCommit :=
  [mkRecovered 1 [mkCowWrite 7 [9; 9]; mkCowWrite 3 [1]]; mkRecovered 2 [mkCowWrite 7 [8]]].
Definition cow_replay_run : Device * res JournalError () := replay_native_cow cow_commits cow_device.

Lemma cow_replay_restartable_witness :
  ∃ d2, replay_native_cow cow_commits (set_writes cow_replay_run.1 []) = (d2, Ok ()) ∧
    ∀ b, block_at d2 b = block_after cow_device (commit_writes cow_commits) b.
Proof.
  refine (proj2 (cow_replay_restartable cow_commits cow_device cow_replay_run.1 cow_replay_run.2 _ _)).
  - repeat constructor; by compute.
  - apply surjective_pairing.
Defined.
