(* ===== verification/Jbd2.v ===== *)
(** * JBD2: the on-disk format (ffs-journal, lib.rs)

    Superblocks, headers, descriptor tags in their three formats, revoke
    blocks and checksums, as the replay engine reads them and the writer makes
    them. *)

From stdpp Require Import base sorting numbers gmap list.
From S2P Require Import Prelude Sorted Wal WalReplay WalWriter Journal.

Local Open Scope Z_scope.

(** ** Constants *)

Definition JBD2_MAGIC : Z := 0xC03B3998.
Definition JBD2_BLOCKTYPE_DESCRIPTOR : Z := 1.
Definition JBD2_BLOCKTYPE_COMMIT : Z := 2.
Definition JBD2_BLOCKTYPE_SUPERBLOCK_V1 : Z := 3.
Definition JBD2_BLOCKTYPE_SUPERBLOCK_V2 : Z := 4.
Definition JBD2_BLOCKTYPE_REVOKE : Z := 5.

Definition JBD2_FEATURE_COMPAT_CHECKSUM : Z := 0x1.
Definition JBD2_FEATURE_INCOMPAT_64BIT : Z := 0x2.
Definition JBD2_FEATURE_INCOMPAT_ASYNC_COMMIT : Z := 0x4.
Definition JBD2_FEATURE_INCOMPAT_CSUM_V2 : Z := 0x8.
Definition JBD2_FEATURE_INCOMPAT_CSUM_V3 : Z := 0x10.
Definition JBD2_FEATURE_INCOMPAT_FAST_COMMIT : Z := 0x20.

Definition JBD2_HEADER_SIZE : Z := 12.
Definition JBD2_REVOKE_HEADER_SIZE : Z := 16.
Definition JBD2_TAG_SIZE_32 : Z := 8.
Definition JBD2_TAG_SIZE_64 : Z := 12.
Definition JBD2_TAG_SIZE_CSUM_V2_32 : Z := 8.
Definition JBD2_TAG_SIZE_CSUM_V2_64 : Z := 12.
Definition JBD2_TAG_SIZE_CSUM_V3 : Z := 16.
Definition JBD2_TAG_UUID_SIZE : Z := 16.
Definition JBD2_TAG_FLAGS_OFFSET_V1_V2 : Z := 6.
Definition JBD2_TAG_CHECKSUM_OFFSET_V1_V2 : Z := 4.
Definition JBD2_TAG_FLAGS_OFFSET_V3 : Z := 4.
Definition JBD2_TAG_HIGH_OFFSET_V3 : Z := 8.
Definition JBD2_TAG_CHECKSUM_OFFSET_V3 : Z := 12.
Definition JBD2_SUPERBLOCK_MIN_PARSE_SIZE : Z := 88.

Definition JBD2_SB_SEQUENCE_OFFSET : Z := 24.
Definition JBD2_SB_START_OFFSET : Z := 28.
Definition JBD2_SB_CHECKSUM_OFFSET : Z := 0xFC.
Definition JBD2_SB_STRUCT_SIZE : Z := 1024.

Definition JBD2_TAG_FLAG_ESCAPE : Z := 0x1.
Definition JBD2_TAG_FLAG_SAME_UUID : Z := 0x2.
Definition JBD2_TAG_FLAG_LAST : Z := 0x8.

Definition JBD2_COMMIT_CHKSUM_OFFSET : Z := 16.
Definition JBD2_CHECKSUM_TAIL_SIZE : Z := 4.
Definition JBD2_ZERO_CHECKSUM_FIELD : bytes := [0; 0; 0; 0].
Definition JBD2_COMMIT_SEGMENTED_CHECKSUM_MIN : Z := 4096.

(** [u32::not] and the wrapping operations on [u32]. *)
Definition not32 (x : Z) : Z := Z.lxor x u32_max.
Definition wrapping_add32 (a b : Z) : Z := (a + b) mod 2 ^ 32.
Definition wrapping_sub32 (a b : Z) : Z := (a - b) mod 2 ^ 32.

(** [(x & mask) != 0] *)
Definition has_bits (x mask : Z) : bool := negb (Z.land x mask =? 0).

(** ** Headers and superblocks *)

Record Jbd2Header := mkHeader { jh_magic : Z; jh_block_type : Z; jh_sequence : Z }.

Definition parse_header (b : bytes) : option Jbd2Header :=
  magic ← read_be_u32 b 0;
  if negb (magic =? JBD2_MAGIC) then None
  else
    block_type ← read_be_u32 b 4;
    sequence ← read_be_u32 b 8;
    Some (mkHeader magic block_type sequence).

Record Jbd2Superblock := mkJsb {
  jsb_block_size : Z;
  jsb_max_len : Z;
  jsb_first_log_block : Z;
  jsb_start_sequence : Z;
  jsb_start_block : Z;
  jsb_num_fc_blocks : Z;
  jsb_feature_compat : Z;
  jsb_feature_incompat : Z;
  jsb_feature_ro_compat : Z;
  jsb_uuid : bytes;
}.

Definition parse_superblock (b : bytes) : option Jbd2Superblock :=
  if zlen b <? JBD2_SUPERBLOCK_MIN_PARSE_SIZE then None
  else
    header ← parse_header b;
    if negb (jh_magic header =? JBD2_MAGIC) ||
       (negb (jh_block_type header =? JBD2_BLOCKTYPE_SUPERBLOCK_V1) &&
        negb (jh_block_type header =? JBD2_BLOCKTYPE_SUPERBLOCK_V2))
    then None
    else
      let uuid := take 16 (drop 48 b) in
      block_size ← read_be_u32 b 12;
      max_len ← read_be_u32 b 16;
      first_log_block ← read_be_u32 b 20;
      start_sequence ← read_be_u32 b 24;
      start_block ← read_be_u32 b 28;
      feature_compat ← read_be_u32 b 36;
      feature_incompat ← read_be_u32 b 40;
      feature_ro_compat ← read_be_u32 b 44;
      num_fc_blocks ← read_be_u32 b 84;
      Some (mkJsb block_size max_len first_log_block start_sequence start_block num_fc_blocks
              feature_compat feature_incompat feature_ro_compat uuid).

Definition is_64bit (sb : Jbd2Superblock) : bool :=
  has_bits (jsb_feature_incompat sb) JBD2_FEATURE_INCOMPAT_64BIT.
Definition has_async_commit (sb : Jbd2Superblock) : bool :=
  has_bits (jsb_feature_incompat sb) JBD2_FEATURE_INCOMPAT_ASYNC_COMMIT.
Definition has_checksum (sb : Jbd2Superblock) : bool :=
  has_async_commit sb || has_bits (jsb_feature_compat sb) JBD2_FEATURE_COMPAT_CHECKSUM ||
  has_bits (jsb_feature_incompat sb) JBD2_FEATURE_INCOMPAT_CSUM_V2 ||
  has_bits (jsb_feature_incompat sb) JBD2_FEATURE_INCOMPAT_CSUM_V3.

Inductive Jbd2TagFormat := Legacy | CsumV2 | CsumV3.

#[global] Instance Jbd2TagFormat_eq_dec : EqDecision Jbd2TagFormat.
Proof. solve_decision. Defined.

Definition tag_format (sb : Jbd2Superblock) : Jbd2TagFormat :=
  if has_bits (jsb_feature_incompat sb) JBD2_FEATURE_INCOMPAT_CSUM_V3 then CsumV3
  else if has_bits (jsb_feature_incompat sb) JBD2_FEATURE_INCOMPAT_CSUM_V2 then CsumV2
  else Legacy.

Definition has_fast_commit (sb : Jbd2Superblock) : bool :=
  has_bits (jsb_feature_incompat sb) JBD2_FEATURE_INCOMPAT_FAST_COMMIT && (0 <? jsb_num_fc_blocks sb).

Definition external_journal_segment (sb : Jbd2Superblock) : JournalSegment :=
  let start_block := if 0 <? jsb_first_log_block sb then jsb_first_log_block sb else 1 in
  mkSegment start_block (saturating_sub (jsb_max_len sb) start_block).

Definition tag_size (format : Jbd2TagFormat) (is_64bit : bool) : Z :=
  match format with
  | Legacy => if is_64bit then JBD2_TAG_SIZE_64 else JBD2_TAG_SIZE_32
  | CsumV2 => if is_64bit then JBD2_TAG_SIZE_CSUM_V2_64 else JBD2_TAG_SIZE_CSUM_V2_32
  | CsumV3 => JBD2_TAG_SIZE_CSUM_V3
  end.

(** ** Descriptor tags *)

Record DescriptorTag := mkTag { dt_target : Z; dt_flags : Z; dt_data_checksum : option Z }.

Definition is_last (t : DescriptorTag) : bool := has_bits (dt_flags t) JBD2_TAG_FLAG_LAST.
Definition is_escaped (t : DescriptorTag) : bool := has_bits (dt_flags t) JBD2_TAG_FLAG_ESCAPE.

(** The end of the tags or revoke entries of a block. *)
Definition body_limit (block : bytes) (has_tail : bool) : Z :=
  if has_tail then saturating_sub (zlen block) 4 else zlen block.

Definition descriptor_tag_record_size (base_tag_size flags : Z) : option Z :=
  if negb (has_bits flags JBD2_TAG_FLAG_SAME_UUID) then checked_add usize_max base_tag_size JBD2_TAG_UUID_SIZE
  else Some base_tag_size.

Definition read_descriptor_tag_flags_and_checksum (block : bytes) (offset : Z) (format : Jbd2TagFormat) :
    option (Z * option Z) :=
  match format with
  | Legacy =>
      o ← checked_add usize_max offset JBD2_TAG_FLAGS_OFFSET_V1_V2;
      flags ← read_be_u16 block o;
      Some (flags, None)
  | CsumV2 =>
      o ← checked_add usize_max offset JBD2_TAG_CHECKSUM_OFFSET_V1_V2;
      checksum ← read_be_u16 block o;
      o ← checked_add usize_max offset JBD2_TAG_FLAGS_OFFSET_V1_V2;
      flags ← read_be_u16 block o;
      Some (flags, Some checksum)
  | CsumV3 =>
      o ← checked_add usize_max offset JBD2_TAG_FLAGS_OFFSET_V3;
      flags ← read_be_u32 block o;
      o ← checked_add usize_max offset JBD2_TAG_CHECKSUM_OFFSET_V3;
      checksum ← read_be_u32 block o;
      Some (flags, Some checksum)
  end.

Definition high_offset (format : Jbd2TagFormat) (is_64bit : bool) : option Z :=
  match format with
  | CsumV3 => Some JBD2_TAG_HIGH_OFFSET_V3
  | Legacy | CsumV2 => if is_64bit then Some 8 else None
  end.

(** The low word, and the high one where the format has it. *)
Definition tag_target (block : bytes) (offset target_low : Z) (format : Jbd2TagFormat) (is_64bit : bool) : Z :=
  match high_offset format is_64bit with
  | Some h =>
      match read_be_u32 block (saturating_add usize_max offset h) with
      | Some target_high => Z.lor target_low (Z.shiftl target_high 32)
      | None => target_low
      end
  | None => target_low
  end.

(** Every turn moves the offset by at least a tag of 8 bytes, so [length block]
    turns are enough. *)
Fixpoint parse_tags_strict_loop (fuel : nat) (block : bytes) (is_64bit : bool) (format : Jbd2TagFormat)
    (limit offset : Z) (tags : list DescriptorTag) : option (list DescriptorTag) :=
  match fuel with
  | O => None
  | S fuel' =>
      let base_tag_size := tag_size format is_64bit in
      e ← checked_add usize_max offset base_tag_size;
      if limit <? e then None
      else
        '(flags, data_checksum) ← read_descriptor_tag_flags_and_checksum block offset format;
        size ← descriptor_tag_record_size base_tag_size flags;
        e ← checked_add usize_max offset size;
        if limit <? e then None
        else
          target_low ← read_be_u32 block offset;
          let tag := mkTag (tag_target block offset target_low format is_64bit) flags data_checksum in
          if is_last tag then Some (tags ++ [tag])
          else
            offset ← checked_add usize_max offset size;
            parse_tags_strict_loop fuel' block is_64bit format limit offset (tags ++ [tag])
  end.

Definition parse_descriptor_tags_strict_with_format (block : bytes) (is_64bit has_tail : bool)
    (format : Jbd2TagFormat) : option (list DescriptorTag) :=
  parse_tags_strict_loop (length block) block is_64bit format (body_limit block has_tail) JBD2_HEADER_SIZE [].

(** The tolerant parser: it stops where the strict one fails. *)
Fixpoint parse_tags_loop (fuel : nat) (block : bytes) (is_64bit : bool) (format : Jbd2TagFormat)
    (limit offset : Z) (tags : list DescriptorTag) : list DescriptorTag :=
  match fuel with
  | O => tags
  | S fuel' =>
      let base_tag_size := tag_size format is_64bit in
      if limit <? saturating_add usize_max offset base_tag_size then tags
      else
        match read_be_u32 block offset with
        | None => tags
        | Some target_low =>
            match read_descriptor_tag_flags_and_checksum block offset format with
            | None => tags
            | Some (flags, data_checksum) =>
                match descriptor_tag_record_size base_tag_size flags with
                | None => tags
                | Some size =>
                    if limit <? saturating_add usize_max offset size then tags
                    else
                      let tag := mkTag (tag_target block offset target_low format is_64bit) flags data_checksum in
                      if is_last tag then tags ++ [tag]
                      else parse_tags_loop fuel' block is_64bit format limit (saturating_add usize_max offset size)
                             (tags ++ [tag])
                end
            end
        end
  end.

Definition parse_descriptor_tags_with_format (block : bytes) (is_64bit has_tail : bool)
    (format : Jbd2TagFormat) : list DescriptorTag :=
  parse_tags_loop (length block) block is_64bit format (body_limit block has_tail) JBD2_HEADER_SIZE [].

Fixpoint strict_tag_count_loop (fuel : nat) (block : bytes) (is_64bit : bool) (format : Jbd2TagFormat)
    (limit offset count : Z) : option Z :=
  match fuel with
  | O => None
  | S fuel' =>
      let base_tag_size := tag_size format is_64bit in
      e ← checked_add usize_max offset base_tag_size;
      if limit <? e then None
      else
        '(flags, _) ← read_descriptor_tag_flags_and_checksum block offset format;
        size ← descriptor_tag_record_size base_tag_size flags;
        e ← checked_add usize_max offset size;
        if limit <? e then None
        else
          count ← checked_add usize_max count 1;
          if has_bits flags JBD2_TAG_FLAG_LAST then Some count
          else
            offset ← checked_add usize_max offset size;
            strict_tag_count_loop fuel' block is_64bit format limit offset count
  end.

Definition strict_descriptor_tag_count_with_format (block : bytes) (is_64bit has_tail : bool)
    (format : Jbd2TagFormat) : option Z :=
  strict_tag_count_loop (length block) block is_64bit format (body_limit block has_tail) JBD2_HEADER_SIZE 0.

(** ** Revoke blocks *)

Definition revoke_entry_size (is_64bit : bool) : Z := if is_64bit then 8 else 4.

Definition strict_revoke_layout (block : bytes) (is_64bit has_tail : bool) : option (Z * Z) :=
  r_count ← read_be_u32 block 12;
  let entry_size := revoke_entry_size is_64bit in
  let limit := body_limit block has_tail in
  if (r_count <? JBD2_REVOKE_HEADER_SIZE) || (limit <? r_count) then None
  else if negb ((r_count - JBD2_REVOKE_HEADER_SIZE) mod entry_size =? 0) then None
  else Some (r_count, (r_count - JBD2_REVOKE_HEADER_SIZE) / entry_size).

Definition strict_revoke_entry_count (block : bytes) (is_64bit has_tail : bool) : option Z :=
  snd <$> strict_revoke_layout block is_64bit has_tail.

Definition read_revoke_entry (block : bytes) (offset : Z) (is_64bit : bool) : option Z :=
  if is_64bit then
    high ← read_be_u32 block offset;
    low ← read_be_u32 block (offset + 4);
    Some (Z.lor (Z.shiftl high 32) low)
  else read_be_u32 block offset.

Record StagedWrite := mkStaged {
  sw_journal_idx : Z;
  sw_escaped : bool;
  sw_data_checksum : option Z;
  sw_sequence : Z;
}.

Inductive TxnBodyEvent :=
| EventWrite (target : Z) (staged : StagedWrite)
| EventRevoke (target : Z).

(** The events that were pushed and the count, absent when the block is refused. *)
Fixpoint revoke_events_loop (fuel : nat) (block : bytes) (is_64bit : bool) (r_count offset : Z)
    (events : list TxnBodyEvent) : list TxnBodyEvent * bool :=
  match fuel with
  | O => (events, false)
  | S fuel' =>
      match checked_add usize_max offset (revoke_entry_size is_64bit) with
      | None => (events, false)
      | Some e =>
          if r_count <? e then (events, true)
          else
            match read_revoke_entry block offset is_64bit with
            | None => (events, false)
            | Some target => revoke_events_loop fuel' block is_64bit r_count e (events ++ [EventRevoke target])
            end
      end
  end.

Definition extend_strict_revoke_events (block : bytes) (is_64bit has_tail : bool)
    (events : list TxnBodyEvent) : list TxnBodyEvent * option Z :=
  match strict_revoke_layout block is_64bit has_tail with
  | None => (events, None)
  | Some (r_count, entry_count) =>
      match revoke_events_loop (length block) block is_64bit r_count JBD2_REVOKE_HEADER_SIZE events with
      | (events, true) => (events, Some entry_count)
      | (events, false) => (events, None)
      end
  end.

Fixpoint revoke_entries_loop (fuel : nat) (block : bytes) (is_64bit : bool) (r_count offset : Z)
    (out : list Z) : option (list Z) :=
  match fuel with
  | O => None
  | S fuel' =>
      e ← checked_add usize_max offset (revoke_entry_size is_64bit);
      if r_count <? e then Some out
      else
        target ← read_revoke_entry block offset is_64bit;
        revoke_entries_loop fuel' block is_64bit r_count e (out ++ [target])
  end.

Definition strict_revoke_entries (block : bytes) (is_64bit has_tail : bool) : option (list Z) :=
  r_count ← read_be_u32 block 12;
  let entry_size := revoke_entry_size is_64bit in
  let limit := body_limit block has_tail in
  if (r_count <? JBD2_REVOKE_HEADER_SIZE) || (limit <? r_count) then None
  else if negb ((r_count - JBD2_REVOKE_HEADER_SIZE) mod entry_size =? 0) then None
  else revoke_entries_loop (length block) block is_64bit r_count JBD2_REVOKE_HEADER_SIZE [].

(** ** Checksums *)

Section checksums.
Context `{Crc32cAppend}.

Definition csum_seed (sb : Jbd2Superblock) : Z :=
  if has_bits (jsb_feature_incompat sb) (Z.lor JBD2_FEATURE_INCOMPAT_CSUM_V2 JBD2_FEATURE_INCOMPAT_CSUM_V3)
  then not32 (crc32c_append 0 (jsb_uuid sb))
  else 0.

Definition checksum_jbd2_tail_zeroed_block (block : bytes) (seed : Z) : option Z :=
  if zlen block <? JBD2_CHECKSUM_TAIL_SIZE then None
  else
    let tail := zlen block - JBD2_CHECKSUM_TAIL_SIZE in
    let checksum := crc32c_append (not32 seed) (take (Z.to_nat tail) block) in
    let checksum := crc32c_append checksum JBD2_ZERO_CHECKSUM_FIELD in
    Some (not32 checksum).

Definition checksum_jbd2_commit_zeroed_block (block : bytes) (seed : Z) : option Z :=
  after_field ← checked_add usize_max JBD2_COMMIT_CHKSUM_OFFSET JBD2_CHECKSUM_TAIL_SIZE;
  if zlen block <? after_field then None
  else if zlen block <? JBD2_COMMIT_SEGMENTED_CHECKSUM_MIN then
    let temp := put block JBD2_COMMIT_CHKSUM_OFFSET JBD2_ZERO_CHECKSUM_FIELD in
    Some (not32 (crc32c_append (not32 seed) temp))
  else
    let checksum := crc32c_append (not32 seed) (take (Z.to_nat JBD2_COMMIT_CHKSUM_OFFSET) block) in
    let checksum := crc32c_append checksum JBD2_ZERO_CHECKSUM_FIELD in
    let checksum := crc32c_append checksum (drop (Z.to_nat after_field) block) in
    Some (not32 checksum).

Definition checksum_jbd2_data_block (block : bytes) (sequence seed : Z) : Z :=
  let checksum := crc32c_append (not32 seed) (be_bytes 4 sequence) in
  not32 (crc32c_append checksum block).

Definition stamp_jbd2_tail_checksum (block : bytes) (seed : Z) : res JournalError bytes :=
  checksum ← ok_or (checksum_jbd2_tail_zeroed_block block seed) BadFormat;
  let tail := zlen block - JBD2_CHECKSUM_TAIL_SIZE in
  Ok (put block tail (be_bytes 4 checksum)).

Definition stamp_jbd2_tag_data_checksum (tag : bytes) (format : Jbd2TagFormat) (data_block : bytes)
    (sequence seed : Z) : res JournalError bytes :=
  match format with
  | Legacy => Ok tag
  | CsumV2 =>
      if zlen tag <? JBD2_TAG_CHECKSUM_OFFSET_V1_V2 + 2 then Err BadFormat
      else
        let checksum := Z.land (checksum_jbd2_data_block data_block sequence seed) 0xFFFF in
        Ok (put tag JBD2_TAG_CHECKSUM_OFFSET_V1_V2 (be_bytes 2 checksum))
  | CsumV3 =>
      if zlen tag <? JBD2_TAG_CHECKSUM_OFFSET_V3 + JBD2_CHECKSUM_TAIL_SIZE then Err BadFormat
      else
        let checksum := checksum_jbd2_data_block data_block sequence seed in
        Ok (put tag JBD2_TAG_CHECKSUM_OFFSET_V3 (be_bytes 4 checksum))
  end.

Definition stamp_jbd2_commit_checksum (block : bytes) (seed : Z) : res JournalError bytes :=
  if zlen block <? JBD2_COMMIT_CHKSUM_OFFSET + JBD2_CHECKSUM_TAIL_SIZE then Err BadFormat
  else
    let block := put block JBD2_COMMIT_CHKSUM_OFFSET (be_bytes 4 0) in
    let checksum := not32 (crc32c_append (not32 seed) block) in
    Ok (put block JBD2_COMMIT_CHKSUM_OFFSET (be_bytes 4 checksum)).

Definition stamp_jbd2_superblock_checksum (raw : bytes) : res JournalError bytes :=
  if zlen raw <? JBD2_SB_STRUCT_SIZE then Err BadFormat
  else
    let raw := put raw JBD2_SB_CHECKSUM_OFFSET JBD2_ZERO_CHECKSUM_FIELD in
    let csum := not32 (crc32c_append 0 (take (Z.to_nat JBD2_SB_STRUCT_SIZE) raw)) in
    Ok (put raw JBD2_SB_CHECKSUM_OFFSET (be_bytes 4 csum)).

Definition verify_jbd2_block_checksum (block : bytes) (sb : Jbd2Superblock) : bool :=
  if negb (has_checksum sb) then true
  else
    match parse_header block with
    | None => false
    | Some header =>
        let ty := jh_block_type header in
        if (ty =? JBD2_BLOCKTYPE_DESCRIPTOR) || (ty =? JBD2_BLOCKTYPE_REVOKE) then
          let bs := zlen block in
          if bs <? JBD2_CHECKSUM_TAIL_SIZE then false
          else
            let stored := default 0 (read_be_u32 block (bs - JBD2_CHECKSUM_TAIL_SIZE)) in
            let computed := default 0 (checksum_jbd2_tail_zeroed_block block (csum_seed sb)) in
            stored =? computed
        else if ty =? JBD2_BLOCKTYPE_COMMIT then
          if zlen block <? JBD2_COMMIT_CHKSUM_OFFSET + JBD2_CHECKSUM_TAIL_SIZE then false
          else
            let stored := default 0 (read_be_u32 block JBD2_COMMIT_CHKSUM_OFFSET) in
            let computed := default 0 (checksum_jbd2_commit_zeroed_block block (csum_seed sb)) in
            stored =? computed
        else true
    end.
End checksums.

Definition JOURNAL_SEQ_HALF_RANGE : Z := 2 ^ 31.

Definition journal_seq_is_newer (candidate current : Z) : bool :=
  negb (candidate =? current) && (wrapping_sub32 candidate current <? JOURNAL_SEQ_HALF_RANGE).
Definition journal_seq_is_newer_or_equal (candidate current : Z) : bool :=
  (candidate =? current) || journal_seq_is_newer candidate current.
