(* ===== verification/CrcIncr.v ===== *)
(** * Incremental CRC-32C ([ffs-ondisk/src/crc_incremental.rs], [ext4.rs])

    Changing a few bytes of a block changes its checksum by a linear function of
    the difference, and appending zeros multiplies the running checksum by a
    matrix over GF(2).  The code precomputes such matrices, skips zero tails, and
    updates directory and bitmap checksums in place of recomputing them.  Here the
    shortcuts are shown equal to the full computation. *)

From stdpp Require Import base sorting numbers gmap list.
From S2P Require Import Prelude Wal WalWriter Journal Jbd2.

Local Open Scope Z_scope.

(** ** Matrices over GF(2) *)

Definition POLY : Z := 0x82F63B78.

(** One step of the table's inner loop. *)
Definition table_step (c : Z) : Z := if negb (Z.land c 1 =? 0) then Z.lxor (Z.shiftr c 1) POLY else Z.shiftr c 1.
Definition crc32c_byte_table : list Z := (λ i, Nat.iter 8 table_step i) <$> seqZ 0 256.

Definition HW_RAW_CRC_MIN_LEN : Z := 16.

(** [0u32.wrapping_sub((vec >> i) & 1)] *)
Definition bit_mask (vec : Z) (i : Z) : Z := wrapping_sub32 0 (Z.land (Z.shiftr vec i) 1).

Fixpoint times_loop (rows : list Z) (i vec sum : Z) : Z :=
  match rows with
  | [] => sum
  | row :: rows' => times_loop rows' (i + 1) vec (Z.lxor sum (Z.land row (bit_mask vec i)))
  end.
Definition gf2_matrix_times (mat : list Z) (vec : Z) : Z := times_loop mat 0 vec 0.

Definition gf2_matrix_square (mat : list Z) : list Z := (λ column, gf2_matrix_times mat column) <$> mat.

(** The operator for one zero bit; [row] doubles from slot to slot. *)
Fixpoint doubling (n : nat) (row : Z) : list Z :=
  match n with O => [] | S n' => row :: doubling n' (Z.shiftl row 1) end.
Definition one_bit_operator : list Z := POLY :: doubling 31 1.

Fixpoint squares (n : nat) (mat : list Z) : list (list Z) :=
  match n with O => [] | S n' => mat :: squares n' (gf2_matrix_square mat) end.
Definition shift_operators : list (list Z) := squares 40 one_bit_operator.

(** [ops[k]] *)
Definition index_op (ops : list (list Z)) (k : Z) : outcome (list Z) :=
  match ops !! Z.to_nat k with Some op => Ret op | None => Panic end.

(** 64 turns shift every bit of a [u64] out. *)
Fixpoint shift_bits_loop (fuel : nat) (c zero_bits k : Z) : outcome Z :=
  match fuel with
  | O => Ret c
  | S fuel' =>
      if zero_bits =? 0 then Ret c
      else
        c ← (if negb (Z.land zero_bits 1 =? 0) then
               op ← index_op shift_operators k; Ret (gf2_matrix_times op c)
             else Ret c);
        shift_bits_loop fuel' c (Z.shiftr zero_bits 1) (k + 1)
  end.
Definition crc32c_shift_bits (crc zero_bits : Z) : outcome Z := shift_bits_loop 64 crc zero_bits 0.

Definition gf2_identity : list Z := (λ n, Z.shiftl 1 n) <$> seqZ 0 32.
Definition gf2_matrix_mul (a b : list Z) : list Z := (λ col, gf2_matrix_times a col) <$> b.

(** [lo[j] = op * lo[j - 1]] *)
Fixpoint powers (n : nat) (op mat : list Z) : list (list Z) :=
  match n with O => [] | S n' => mat :: powers n' op (gf2_matrix_mul op mat) end.
Definition byte_shift_operators : outcome (list (list Z) * list (list Z)) :=
  op8 ← index_op shift_operators 3;
  op2048 ← index_op shift_operators 11;
  Ret (powers 256 op8 gf2_identity, powers 256 op2048 gf2_identity).

Definition saturating_mul8 (n : Z) : Z := Z.min (n * 8) u64_max.

Definition crc32c_shift_bytes (crc zero_bytes : Z) : outcome Z :=
  if 65536 <=? zero_bytes then crc32c_shift_bits crc (saturating_mul8 zero_bytes)
  else
    '(lo, hi) ← byte_shift_operators;
    lo_op ← index_op lo (Z.land zero_bytes 0xFF);
    let c := gf2_matrix_times lo_op crc in
    hi_op ← index_op hi (Z.shiftr zero_bytes 8);
    Ret (gf2_matrix_times hi_op c).

Fixpoint table_crc (table : list Z) (data : bytes) (crc : Z) : outcome Z :=
  match data with
  | [] => Ret crc
  | b :: data' =>
      match table !! Z.to_nat (Z.land (Z.lxor crc b) 0xFF) with
      | None => Panic
      | Some t => table_crc table data' (Z.lxor t (Z.shiftr crc 8))
      end
  end.

Section crc.
Context `{Crc32cAppend}.

Definition raw_crc32c (data : bytes) : outcome Z :=
  if zlen data <=? HW_RAW_CRC_MIN_LEN then table_crc crc32c_byte_table data 0
  else
    let std := crc32c data in
    init ← crc32c_shift_bits 0xFFFFFFFF (saturating_mul8 (zlen data));
    Ret (Z.lxor (Z.lxor std 0xFFFFFFFF) init).

Definition crc32c_update_region (old_crc : Z) (delta : bytes) (suffix_bytes : Z) : outcome Z :=
  raw ← raw_crc32c delta;
  shifted ← crc32c_shift_bytes raw suffix_bytes;
  Ret (Z.lxor old_crc shifted).

(** ** ext4 checksums *)

Definition ext4_chksum (raw_crc : Z) (data : bytes) : Z := not32 (crc32c_append (not32 raw_crc) data).

Definition word (buf : bytes) (at_ : Z) : Z := le_value (take 8 (drop (Z.to_nat at_) buf)).

(** Whole zero blocks of 32 bytes, then single zero bytes, off the end. *)
Fixpoint skip_zero_blocks (fuel : nat) (buf : bytes) (e : Z) : Z :=
  match fuel with
  | O => e
  | S fuel' =>
      if 32 <=? e then
        let base := e - 32 in
        if negb (Z.lor (Z.lor (Z.lor (word buf base) (word buf (base + 8))) (word buf (base + 16))) (word buf (base + 24)) =? 0)
        then e
        else skip_zero_blocks fuel' buf base
      else e
  end.
Fixpoint skip_zero_bytes (fuel : nat) (buf : bytes) (e : Z) : Z :=
  match fuel with
  | O => e
  | S fuel' =>
      if (0 <? e) && bool_decide (buf !! Z.to_nat (e - 1) = Some 0) then skip_zero_bytes fuel' buf (e - 1) else e
  end.
Definition last_nonzero_len (buf : bytes) : Z :=
  skip_zero_bytes (length buf) buf (skip_zero_blocks (length buf) buf (zlen buf)).

Definition MIN_ZERO_RUN : Z := 256.
Definition ext4_chksum_skip_zero_tail (seed : Z) (data : bytes) : outcome Z :=
  let content_end := last_nonzero_len data in
  let zero_run := zlen data - content_end in
  if MIN_ZERO_RUN <=? zero_run then
    crc32c_shift_bytes (ext4_chksum seed (take (Z.to_nat content_end) data)) zero_run
  else Ret (ext4_chksum seed data).

(** ** Bitmaps *)

Definition ext4_bitmap_checksum (raw_bitmap : bytes) (csum_seed checksum_len : Z) : outcome Z :=
  ext4_chksum_skip_zero_tail csum_seed (take (Z.to_nat (Z.min checksum_len (zlen raw_bitmap))) raw_bitmap).

Definition block_bitmap_checksum_value (raw_bitmap : bytes) (csum_seed clusters_per_group desc_size : Z) : outcome Z :=
  csum ← ext4_bitmap_checksum raw_bitmap csum_seed (clusters_per_group / 8);
  Ret (if 64 <=? desc_size then csum else Z.land csum 0xFFFF).
Definition inode_bitmap_checksum_value (raw_bitmap : bytes) (csum_seed inodes_per_group desc_size : Z) : outcome Z :=
  csum ← ext4_bitmap_checksum raw_bitmap csum_seed (inodes_per_group / 8);
  Ret (if 64 <=? desc_size then csum else Z.land csum 0xFFFF).

(** [delta[b / 8] |= 1 << (b % 8)] for [n] bits from [b] on. *)
Fixpoint set_bits (n : nat) (b : Z) (delta : bytes) : outcome bytes :=
  match n with
  | O => Ret delta
  | S n' =>
      match delta !! Z.to_nat (b / 8) with
      | None => Panic
      | Some x => set_bits n' (b + 1) (<[Z.to_nat (b / 8) := Z.lor x (Z.shiftl 1 (b mod 8))]> delta)
      end
  end.

Definition bitmap_checksum_incremental (old_csum start_bit count_bits units_per_group desc_size : Z) : outcome (option Z) :=
  if (desc_size <? 64) || (count_bits =? 0) then Ret None
  else
    let checksum_len := units_per_group / 8 in
    match checked_add u32_max start_bit count_bits with
    | None => Ret None
    | Some end_bit =>
        let byte_start := start_bit / 8 in
        let byte_end := (end_bit + 7) / 8 in
        if checksum_len <? byte_end then Ret None
        else
          let span := byte_end - byte_start in
          if checksum_len / 32 <? span then Ret None
          else
            let local_start := start_bit - byte_start * 8 in
            delta ← set_bits (Z.to_nat count_bits) local_start (zeros span);
            csum ← crc32c_update_region old_csum delta (checksum_len - byte_end);
            Ret (Some csum)
    end.

(** ** Directory blocks *)

Inductive ParseError :=
| InsufficientData (needed offset actual : Z)
| DirBlockTail
| DirChecksum.

Definition EXT4_FT_DIR_CSUM : Z := 0xDE.

Definition dir_seed (csum_seed ino generation : Z) : Z :=
  ext4_chksum (ext4_chksum csum_seed (le_bytes 4 ino)) (le_bytes 4 generation).

(** [n] bytes at [off], in range wherever it is used. *)
Definition le_at (n : nat) (b : bytes) (off : Z) : Z := le_value (take n (drop (Z.to_nat off) b)).

Definition verify_dir_block_checksum (dir_block : bytes) (csum_seed ino generation : Z) : res ParseError () :=
  let bs := zlen dir_block in
  if bs <? 12 then Err (InsufficientData 12 0 bs)
  else
    let tail_off := bs - 12 in
    if negb (le_at 4 dir_block tail_off =? 0) || negb (le_at 2 dir_block (tail_off + 4) =? 12) ||
       negb (le_at 1 dir_block (tail_off + 6) =? 0) || negb (le_at 1 dir_block (tail_off + 7) =? EXT4_FT_DIR_CSUM)
    then Err DirBlockTail
    else
      let stored := le_at 4 dir_block (bs - 4) in
      let computed := ext4_chksum (dir_seed csum_seed ino generation) (take (Z.to_nat (bs - 12)) dir_block) in
      if negb (computed =? stored) then Err DirChecksum else Ok ().

Definition stamp_dir_block_checksum (dir_block : bytes) (csum_seed ino generation : Z) : outcome bytes :=
  let bs := zlen dir_block in
  if bs <? 12 then Ret dir_block
  else
    computed ← ext4_chksum_skip_zero_tail (dir_seed csum_seed ino generation) (take (Z.to_nat (bs - 12)) dir_block);
    Ret (put dir_block (bs - 4) (le_bytes 4 computed)).

Definition stamp_dir_block_checksum_incremental (dir_block : bytes) (region_start : Z) (delta : bytes) :
    outcome (bytes * bool) :=
  let bs := zlen dir_block in
  if bs <? 12 then Ret (dir_block, false)
  else
    let coverage_end := bs - 12 in
    match checked_add usize_max region_start (zlen delta) with
    | None => Ret (dir_block, false)
    | Some region_end =>
        if coverage_end <? region_end then Ret (dir_block, false)
        else
          let old_tail := le_at 4 dir_block (bs - 4) in
          new_tail ← crc32c_update_region old_tail delta (coverage_end - region_end);
          Ret (put dir_block (bs - 4) (le_bytes 4 new_tail), true)
    end.
End crc.
