(* ===== verification/CrcLinear.v ===== *)
(** * CRC-32C is linear

    The one-bit step of the CRC is linear over GF(2), so its powers are matrices;
    the precomputed operators are those matrices. *)

From stdpp Require Import base sorting numbers gmap list.
From S2P Require Import Prelude Wal WalWriter Journal Jbd2 CrcIncr.

Local Open Scope Z_scope.

(** Equations between exclusive ors, bit by bit. *)
Ltac lxor_solve :=
  apply Z.bits_inj'; intros ? _; rewrite ?Z.lxor_spec, ?Z.testbit_0_l;
  repeat match goal with |- context [Z.testbit ?a ?n] => destruct (Z.testbit a n) end; done.

(** ** Linear functions on 32-bit words *)

Record linear (f : Z → Z) : Prop := {
  lin_xor : ∀ a b, f (Z.lxor a b) = Z.lxor (f a) (f b);
  lin_u32 : ∀ a, 0 <= a <= u32_max → 0 <= f a <= u32_max;
}.

Lemma lin_0 f : linear f → f 0 = 0.
Proof. intros [Hx _]. specialize (Hx 0 0). by rewrite Z.lxor_0_l, Z.lxor_nilpotent in Hx. Qed.

Lemma linear_id : linear id.
Proof. done. Qed.

Lemma linear_compose f g : linear f → linear g → linear (f ∘ g).
Proof. intros [Hf Hf'] [Hg Hg']. split; intros; simpl; [by rewrite Hg, Hf|auto]. Qed.

Lemma linear_iter n f : linear f → linear (Nat.iter n f).
Proof. intros Hf. induction n as [|n IH]; [apply linear_id|]. by apply (linear_compose f). Qed.

Lemma linear_ext f g : linear f → (∀ x, f x = g x) → linear g.
Proof. intros [Hx Hu] He. split; intros; rewrite <-!He; auto. Qed.

Lemma crc_bit_linear : linear crc_bit.
Proof.
  split; [|apply crc_bit_u32]. intros a b. unfold crc_bit. rewrite Z.shiftr_lxor, <-!Z.bit0_odd, Z.lxor_spec.
  destruct (Z.testbit a 0), (Z.testbit b 0); simpl; lxor_solve.
Qed.

(** ** Matrices *)

Definition units : list Z := (λ i, 2 ^ i) <$> seqZ 0 32.

(** [mat] is the matrix of [f]. *)
Definition represents (mat : list Z) (f : Z → Z) : Prop := linear f ∧ mat = f <$> units.

(** Bits [i .. i + n] of [v]. *)
Definition bits_of (v i n : Z) : Z := Z.land v (Z.shiftl (Z.ones n) i).

Lemma bits_of_0 v i : bits_of v i 0 = 0.
Proof. unfold bits_of. by rewrite Z.shiftl_0_l, Z.land_0_r. Qed.

Lemma testbit_ones_shift n i j : 0 <= n → 0 <= i → 0 <= j →
  Z.testbit (Z.shiftl (Z.ones n) i) j = bool_decide (i <= j < i + n).
Proof.
  intros Hn Hi Hj. rewrite Z.shiftl_spec by done. destruct (decide (i <= j)) as [Hle|Hlt].
  - rewrite Z.testbit_ones_nonneg by lia. destruct (Z.ltb_spec (j - i) n); symmetry;
      [apply bool_decide_eq_true_2|apply bool_decide_eq_false_2]; lia.
  - rewrite Z.testbit_neg_r by lia. by rewrite bool_decide_eq_false_2 by lia.
Qed.

Lemma bits_of_S v i n : 0 <= n → 0 <= i →
  bits_of v i (n + 1) = Z.lxor (if Z.testbit v i then 2 ^ i else 0) (bits_of v (i + 1) n).
Proof.
  intros Hn Hi. apply Z.bits_inj'. intros j Hj. unfold bits_of.
  rewrite Z.lxor_spec, !Z.land_spec, !testbit_ones_shift by lia.
  assert (Z.testbit (if Z.testbit v i then 2 ^ i else 0) j = Z.testbit v i && bool_decide (i = j)) as ->.
  { destruct (Z.testbit v i); simpl; [rewrite Z.pow2_bits_eqb by done|by rewrite Z.testbit_0_l].
    destruct (Z.eqb_spec i j); case_bool_decide; done. }
  destruct (decide (i = j)) as [->|Hne].
  - rewrite !bool_decide_eq_true_2 by lia. rewrite bool_decide_eq_false_2 by lia. by destruct (Z.testbit v j).
  - rewrite (bool_decide_eq_false_2 (i = j)) by done. rewrite !andb_false_r, xorb_false_l. f_equal.
    apply bool_decide_ext. lia.
Qed.

Lemma bit_mask_spec v i : 0 <= i → bit_mask v i = if Z.testbit v i then u32_max else 0.
Proof.
  intros Hi. unfold bit_mask, wrapping_sub32.
  assert (Z.land (Z.shiftr v i) 1 = Z.b2z (Z.testbit v i)) as ->.
  { change 1 with (Z.ones 1). rewrite Z.land_ones by lia. change (2 ^ 1) with 2.
    by rewrite <-Z.bit0_mod, Z.shiftr_spec. }
  by destruct (Z.testbit v i).
Qed.

Lemma land_u32_max x : 0 <= x <= u32_max → Z.land x u32_max = x.
Proof. intros Hx. change u32_max with (Z.ones 32) in *. rewrite Z.land_ones by lia. apply Z.mod_small. change (2 ^ 32) with (Z.ones 32 + 1). lia. Qed.

Lemma times_loop_spec f n i v sum : linear f → 0 <= i → i + Z.of_nat n <= 32 →
  times_loop ((λ k, f (2 ^ k)) <$> seqZ i (Z.of_nat n)) i v sum = Z.lxor sum (f (bits_of v i (Z.of_nat n))).
Proof.
  intros Hf. revert i sum. induction n as [|n IH]; intros i sum Hi Hn.
  { simpl. by rewrite bits_of_0, (lin_0 f), Z.lxor_0_r. }
  rewrite seqZ_cons by lia. replace (Z.pred (Z.of_nat (S n))) with (Z.of_nat n) by lia.
  cbn [fmap list_fmap times_loop]. fold (fmap (M := list) (λ k, f (2 ^ k))). rewrite <-Z.add_1_r, IH by lia.
  rewrite bit_mask_spec by done. replace (Z.of_nat (S n)) with (Z.of_nat n + 1) by lia.
  rewrite bits_of_S, (lin_xor f Hf), <-Z.lxor_assoc by lia. do 2 f_equal.
  destruct (Z.testbit v i); [|by rewrite Z.land_0_r, (lin_0 f)].
  apply land_u32_max, (lin_u32 f Hf). split; [lia|]. unfold u32_max.
  assert (2 ^ i < 2 ^ 32); [|lia]. apply Z.pow_lt_mono_r; lia.
Qed.

Lemma times_loop_bits f i n v sum : linear f → 0 <= i → 0 <= n → i + n <= 32 →
  times_loop ((λ k, f (2 ^ k)) <$> seqZ i n) i v sum = Z.lxor sum (f (bits_of v i n)).
Proof. intros Hf Hi Hn Hle. rewrite <-(Z2Nat.id n) by done. apply times_loop_spec; [done|done|lia]. Qed.

Lemma represents_times mat f v : represents mat f → 0 <= v <= u32_max → gf2_matrix_times mat v = f v.
Proof.
  intros [Hf ->] Hv. unfold gf2_matrix_times, units. rewrite <-list_fmap_compose.
  change (f ∘ λ i, 2 ^ i) with (λ k, f (2 ^ k)).
  rewrite (times_loop_bits f 0 32 v 0) by (done || lia). rewrite Z.lxor_0_l. f_equal.
  unfold bits_of. rewrite Z.shiftl_0_r. by apply land_u32_max.
Qed.

Lemma units_u32 u : u ∈ units → 0 <= u <= u32_max.
Proof.
  intros (i&->&Hi%elem_of_seqZ)%list_elem_of_fmap. split; [lia|]. unfold u32_max.
  assert (2 ^ i < 2 ^ 32); [|lia]. apply Z.pow_lt_mono_r; lia.
Qed.

Lemma represents_mul a b f g : represents a f → represents b g → represents (gf2_matrix_mul a b) (f ∘ g).
Proof.
  intros Ha [Hg ->]. split; [apply linear_compose; [apply Ha|done]|]. unfold gf2_matrix_mul. rewrite <-list_fmap_compose.
  apply list_fmap_ext. intros i u Hu%list_elem_of_lookup_2. simpl. apply represents_times; [done|].
  by apply (lin_u32 g Hg), units_u32.
Qed.

Lemma represents_square a f : represents a f → represents (gf2_matrix_square a) (f ∘ f).
Proof. intros Ha. by apply (represents_mul a a). Qed.

Lemma represents_ext mat f g : represents mat f → (∀ x, f x = g x) → represents mat g.
Proof. intros [Hf ->] He. split; [by eapply linear_ext|]. by apply list_fmap_ext. Qed.

Lemma one_bit_represents : represents one_bit_operator crc_bit.
Proof. split; [apply crc_bit_linear|by vm_compute]. Qed.

Lemma identity_represents : represents gf2_identity id.
Proof. split; [apply linear_id|by vm_compute]. Qed.

(** ** The operators *)

(** [n] steps of the CRC. *)
Definition crc_bits (n : Z) : Z → Z := N.iter (Z.to_N n) crc_bit.

Lemma iter_linear n f : linear f → linear (N.iter n f).
Proof.
  intros Hf. induction n as [|n IH] using N.peano_ind; [apply linear_id|].
  eapply linear_ext; [apply (linear_compose f _ Hf IH)|]. intros x. simpl. by rewrite N.iter_succ.
Qed.

Lemma crc_bits_linear n : linear (crc_bits n).
Proof. apply iter_linear, crc_bit_linear. Qed.

Lemma crc_bits_add a b x : 0 <= a → 0 <= b → crc_bits (a + b) x = crc_bits a (crc_bits b x).
Proof. intros Ha Hb. unfold crc_bits. by rewrite Z2N.inj_add, N.iter_add by done. Qed.

Lemma crc_bits_0 x : crc_bits 0 x = x.
Proof. done. Qed.

Lemma crc_bits_u32 n x : 0 <= x <= u32_max → 0 <= crc_bits n x <= u32_max.
Proof. apply (lin_u32 _ (crc_bits_linear n)). Qed.

Lemma squares_lookup n mat a k : represents mat (crc_bits a) → 0 <= a → (k < n)%nat →
  ∃ op, squares n mat !! k = Some op ∧ represents op (crc_bits (a * 2 ^ Z.of_nat k)).
Proof.
  revert mat a k. induction n as [|n IH]; intros mat a k Hm Ha Hk; [lia|]. destruct k as [|k]; simpl.
  - exists mat. split; [done|]. by rewrite Z.mul_1_r.
  - destruct (IH (gf2_matrix_square mat) (a + a) k) as (op&Hop&Hr); [|lia|lia|].
    + eapply represents_ext; [by apply represents_square|]. intros x. simpl. by rewrite crc_bits_add.
    + exists op. split; [done|]. rewrite Nat2Z.inj_succ, Z.pow_succ_r by lia.
      by replace (a * (2 * 2 ^ Z.of_nat k)) with ((a + a) * 2 ^ Z.of_nat k) by lia.
Qed.

Lemma index_shift k : 0 <= k < 40 → ∃ op, index_op shift_operators k = Ret op ∧ represents op (crc_bits (2 ^ k)).
Proof.
  intros Hk. destruct (squares_lookup 40 one_bit_operator 1 (Z.to_nat k)) as (op&Hop&Hr); [|lia|lia|].
  - eapply represents_ext; [apply one_bit_represents|done].
  - exists op. unfold index_op, shift_operators. rewrite Hop. split; [done|]. by rewrite Z.mul_1_l, Z2Nat.id in Hr by lia.
Qed.

Lemma powers_lookup n op mat a b j : represents op (crc_bits a) → represents mat (crc_bits b) → 0 <= a → 0 <= b → (j < n)%nat →
  ∃ m, powers n op mat !! j = Some m ∧ represents m (crc_bits (a * Z.of_nat j + b)).
Proof.
  intros Hop. revert mat b j. induction n as [|n IH]; intros mat b j Hm Ha Hb Hj; [lia|]. destruct j as [|j]; simpl.
  - exists mat. split; [done|]. by rewrite Z.mul_0_r.
  - destruct (IH (gf2_matrix_mul op mat) (a + b) j) as (m&Hl&Hr); [|lia|lia|lia|].
    + eapply represents_ext; [by eapply represents_mul|]. intros x. simpl. by rewrite crc_bits_add.
    + exists m. split; [done|]. by replace (a * Z.of_nat (S j) + b) with (a * Z.of_nat j + (a + b)) by lia.
Qed.

Lemma index_power op a j : represents op (crc_bits a) → 0 <= a → 0 <= j < 256 →
  ∃ m, index_op (powers 256 op gf2_identity) j = Ret m ∧ represents m (crc_bits (a * j)).
Proof.
  intros Hop Ha Hj. destruct (powers_lookup 256 op gf2_identity a 0 (Z.to_nat j)) as (m&Hm&Hr); [done| |lia|lia|lia|].
  - eapply represents_ext; [apply identity_represents|done].
  - exists m. unfold index_op. rewrite Hm. split; [done|]. by rewrite Z.add_0_r, Z2Nat.id in Hr by lia.
Qed.

(** ** Shifting *)

Lemma shift_bits_spec fuel c n k : 0 <= c <= u32_max → 0 <= k → 0 <= n < 2 ^ Z.of_nat fuel → n * 2 ^ k < 2 ^ 40 →
  shift_bits_loop fuel c n k = Ret (crc_bits (n * 2 ^ k) c).
Proof.
  revert c n k. induction fuel as [|fuel IH]; intros c n k Hc Hk Hn Hb; cbn [shift_bits_loop].
  { assert (n = 0) as -> by (simpl in Hn; lia). done. }
  destruct (Z.eqb_spec n 0) as [->|Hne]; [done|].
  assert (0 < 2 ^ k) by (apply Z.pow_pos_nonneg; lia).
  assert (Z.land n 1 = Z.b2z (Z.odd n)) as ->.
  { change 1 with (Z.ones 1). rewrite Z.land_ones by lia. change (2 ^ 1) with 2. rewrite Zmod_odd. by destruct (Z.odd n). }
  assert (n = Z.b2z (Z.odd n) + 2 * Z.shiftr n 1) as Hsplit.
  { rewrite Z.shiftr_div_pow2 by lia. change (2 ^ 1) with 2. rewrite (Z.div_mod n 2) at 1 by lia. rewrite Zmod_odd.
    destruct (Z.odd n); simpl; lia. }
  assert (0 <= Z.shiftr n 1) by (apply Z.shiftr_nonneg; lia). rewrite Nat2Z.inj_succ, Z.pow_succ_r in Hn by lia.
  assert (∀ c', 0 <= c' <= u32_max → shift_bits_loop fuel c' (Z.shiftr n 1) (k + 1) = Ret (crc_bits (2 * Z.shiftr n 1 * 2 ^ k) c')) as Hrec.
  { intros c' Hc'. rewrite IH; [|done|lia|destruct (Z.odd n); simpl in Hsplit; lia|rewrite Z.pow_add_r by lia; change (2 ^ 1) with 2; destruct (Z.odd n); simpl in Hsplit; nia].
    rewrite Z.pow_add_r by lia. change (2 ^ 1) with 2. do 2 f_equal. lia. }
  destruct (Z.odd n); simpl in Hsplit |- *.
  - assert (k < 40) by (apply (Z.pow_lt_mono_r_iff 2); [lia|lia|]; nia).
    destruct (index_shift k) as (op&->&Hop); [lia|]. simpl. rewrite (represents_times op _ c Hop Hc).
    rewrite Hrec by (by apply crc_bits_u32). rewrite <-crc_bits_add by nia. do 2 f_equal. nia.
  - rewrite Hrec by done. do 2 f_equal. lia.
Qed.

Lemma crc32c_shift_bits_spec c n : 0 <= c <= u32_max → 0 <= n < 2 ^ 40 → crc32c_shift_bits c n = Ret (crc_bits n c).
Proof.
  intros Hc Hn. unfold crc32c_shift_bits. rewrite shift_bits_spec; [|done|lia| |lia].
  - by rewrite Z.mul_1_r.
  - change (Z.of_nat 64) with 64. assert (2 ^ 40 < 2 ^ 64) by (apply Z.pow_lt_mono_r; lia). lia.
Qed.

(** The bytes: two products, or the bits. *)
Lemma crc32c_shift_bytes_spec c n : 0 <= c <= u32_max → 0 <= n < 2 ^ 37 → crc32c_shift_bytes c n = Ret (crc_bits (8 * n) c).
Proof.
  intros Hc Hn. unfold crc32c_shift_bytes. destruct (Z.leb_spec 65536 n) as [Hle|Hlt].
  - unfold saturating_mul8, u64_max. rewrite Z.min_l by lia. rewrite crc32c_shift_bits_spec by (done || lia).
    by rewrite Z.mul_comm.
  - unfold byte_shift_operators. destruct (index_shift 3) as (op8&->&H8); [lia|]. destruct (index_shift 11) as (op2048&->&H2048); [lia|].
    cbn [mbind outcome_bind]. change (Z.land n 0xFF) with (Z.land n (Z.ones 8)). rewrite Z.land_ones by lia.
    rewrite Z.shiftr_div_pow2 by lia. change (2 ^ 8) with 256.
    pose proof (Z.mod_pos_bound n 256 ltac:(lia)). assert (0 <= n / 256 < 256) by (split; [apply Z.div_pos; lia|apply Z.div_lt_upper_bound; lia]).
    destruct (index_power op8 (2 ^ 3) (n mod 256) H8) as (lo&->&Hlo); [lia|lia|].
    destruct (index_power op2048 (2 ^ 11) (n / 256) H2048) as (hi&->&Hhi); [lia|lia|]. cbn [mbind outcome_bind].
    rewrite (represents_times lo _ c Hlo Hc), (represents_times hi _ _ Hhi) by (by apply crc_bits_u32).
    rewrite <-crc_bits_add by lia. do 2 f_equal. pose proof (Z.div_mod n 256). lia.
Qed.
