(* ===== verification/CrcCorrect.v ===== *)
(** * The checksum shortcuts are exact

    The incremental update, the zero-tail shortcut and their users in the ext4
    checksums agree with the full computation. *)

From stdpp Require Import base sorting numbers gmap list.
From S2P Require Import Prelude Wal WalWriter Journal Jbd2 CrcIncr CrcLinear.

Local Open Scope Z_scope.

(** The crate computes CRC-32C: reflected, polynomial [0x82F63B78], inverted at
    both ends. *)
Class Crc32cStandard `{Crc32cAppend} : Prop :=
  crc32c_standard : ∀ c b, 0 <= c <= u32_max → bytes_ok b → crc32c_append c b = crc_append c b.

Definition BitwiseCrcStandard : Crc32cStandard (H := BitwiseCrc) (H0 := BitwiseCrcAppend) := λ c b _ _, eq_refl.

(** ** The running checksum *)

Definition raw (c : Z) (b : bytes) : Z := fold_left crc_byte b c.

Lemma crc_byte_bits c b : crc_byte c b = crc_bits 8 (Z.lxor c (b mod 256)).
Proof. done. Qed.

Lemma raw_app c a b : raw c (a ++ b) = raw (raw c a) b.
Proof. apply fold_left_app. Qed.

Lemma raw_u32 c b : 0 <= c <= u32_max → 0 <= raw c b <= u32_max.
Proof. apply crc_fold_u32. Qed.

Lemma raw_zeros n c : 0 <= n → raw c (zeros n) = crc_bits (8 * n) c.
Proof.
  intros Hn. rewrite <-(Z2Nat.id n) by done. generalize (Z.to_nat n). clear. intros n. unfold zeros. rewrite Nat2Z.id. revert c.
  induction n as [|n IH]; intros c; [done|]. simpl replicate. unfold raw in *. cbn [fold_left].
  rewrite IH, crc_byte_bits, Z.lxor_0_r, <-crc_bits_add by lia. f_equal. lia.
Qed.

Lemma lxor_mod256 a b : Z.lxor a b mod 256 = Z.lxor (a mod 256) (b mod 256).
Proof.
  change 256 with (2 ^ 8). rewrite <-!Z.land_ones by lia. apply Z.bits_inj'. intros n Hn.
  rewrite !Z.land_spec, !Z.lxor_spec, !Z.land_spec. by destruct (Z.testbit a n), (Z.testbit b n), (Z.testbit (Z.ones 8) n).
Qed.

(** The bytewise difference of two regions. *)
Definition xor_bytes (a b : bytes) : bytes := zip_with Z.lxor a b.

Lemma raw_xor a b c c' : length a = length b → raw (Z.lxor c c') (xor_bytes a b) = Z.lxor (raw c a) (raw c' b).
Proof.
  revert b c c'. induction a as [|x a IH]; intros [|y b] c c' Hl; simplify_eq/=; [done|].
  rewrite <-IH by done. unfold raw, xor_bytes at 1. cbn [zip_with fold_left]. f_equal.
  rewrite !crc_byte_bits, lxor_mod256, <-(lin_xor _ (crc_bits_linear 8)). f_equal. lxor_solve.
Qed.

(** ** The byte table *)

Lemma table_step_bit c : table_step c = crc_bit c.
Proof.
  unfold table_step, crc_bit, POLY. assert (Z.land c 1 = Z.b2z (Z.odd c)) as ->.
  { change 1 with (Z.ones 1). rewrite Z.land_ones by lia. change (2 ^ 1) with 2. rewrite Zmod_odd. by destruct (Z.odd c). }
  by destruct (Z.odd c).
Qed.

Lemma table_lookup i : 0 <= i < 256 → crc32c_byte_table !! Z.to_nat i = Some (crc_bits 8 i).
Proof.
  intros Hi. unfold crc32c_byte_table. rewrite list_lookup_fmap.
  assert (seqZ 0 256 !! Z.to_nat i = Some i) as ->; [apply lookup_seqZ; lia|]. simpl. f_equal.
  rewrite !table_step_bit. done.
Qed.

Lemma crc_bit_even y : crc_bit (Z.shiftl y 1) = y.
Proof.
  unfold crc_bit. rewrite Z.shiftl_mul_pow2 by lia. change (2 ^ 1) with 2. rewrite Z.mul_comm, Z.odd_mul. simpl.
  rewrite Z.shiftr_div_pow2, Z.mul_comm by lia. change (2 ^ 1) with 2. apply Z.div_mul. lia.
Qed.

Lemma crc_bits_shifted y : crc_bits 8 (Z.shiftl y 8) = y.
Proof.
  change 8 with (1 + (1 + (1 + (1 + (1 + (1 + (1 + 1))))))) at 2. rewrite <-!Z.shiftl_shiftl by lia.
  change (crc_bits 8 ?x) with (crc_bit (crc_bit (crc_bit (crc_bit (crc_bit (crc_bit (crc_bit (crc_bit x)))))))).
  by rewrite !crc_bit_even.
Qed.

(** The table's lookup and shift is one byte of the CRC. *)
Lemma crc_bits_split x : 0 <= x → crc_bits 8 x = Z.lxor (crc_bits 8 (Z.land x 0xFF)) (Z.shiftr x 8).
Proof.
  intros Hx. assert (x = Z.lxor (Z.land x 0xFF) (Z.shiftl (Z.shiftr x 8) 8)) as Hs.
  { apply Z.bits_inj'. intros n Hn. rewrite Z.lxor_spec, Z.land_spec. change 0xFF with (Z.ones 8).
    rewrite Z.testbit_ones_nonneg, Z.shiftl_spec by lia. destruct (Z.ltb_spec n 8).
    - rewrite (Z.testbit_neg_r (Z.shiftr x 8)) by lia. by rewrite andb_true_r, xorb_false_r.
    - rewrite Z.shiftr_spec by lia. rewrite Z.sub_add. by rewrite andb_false_r, xorb_false_l. }
  rewrite Hs at 1. by rewrite (lin_xor _ (crc_bits_linear 8)), crc_bits_shifted.
Qed.

Lemma table_crc_spec data c : bytes_ok data → 0 <= c <= u32_max → table_crc crc32c_byte_table data c = Ret (raw c data).
Proof.
  intros Hd. revert c. induction Hd as [|b data Hb Hd IH]; intros c Hc; [done|]. cbn [table_crc].
  unfold byte_ok in Hb. assert (0 <= Z.lxor c b <= u32_max) as Hx by (apply lxor_u32; [done|unfold u32_max; lia]).
  assert (0 <= Z.land (Z.lxor c b) 0xFF < 256).
  { change 0xFF with (Z.ones 8). rewrite Z.land_ones by lia. apply Z.mod_pos_bound. lia. }
  rewrite table_lookup by done.
  assert (Z.lxor (crc_bits 8 (Z.land (Z.lxor c b) 0xFF)) (Z.shiftr c 8) = crc_byte c b) as ->.
  { rewrite crc_byte_bits, (Z.mod_small b) by lia. rewrite (crc_bits_split (Z.lxor c b)) by lia. f_equal.
    rewrite Z.shiftr_lxor. assert (Z.shiftr b 8 = 0) as ->; [|by rewrite Z.lxor_0_r].
    rewrite Z.shiftr_div_pow2 by lia. apply Z.div_small. lia. }
  rewrite IH; [done|]. by apply crc_byte_u32.
Qed.

(** ** The update *)

Section correct.
Context `{Crc32cStandard}.

Lemma crc32c_raw b : bytes_ok b → crc32c b = Z.lxor (raw u32_max b) u32_max.
Proof.
  intros Hb. rewrite <-crc32c_append_start, crc32c_standard by (done || (unfold u32_max; lia)).
  unfold crc_append. by rewrite Z.lxor_0_l.
Qed.

Lemma raw_from_zero data : raw u32_max data = Z.lxor (crc_bits (8 * zlen data) u32_max) (raw 0 data).
Proof.
  rewrite <-raw_zeros by apply zlen_nonneg. rewrite <-raw_xor.
  - rewrite Z.lxor_0_r. f_equal. unfold xor_bytes, zeros, zlen. rewrite Nat2Z.id. clear.
    induction data as [|x data IH]; [done|]. simpl. by rewrite <-IH.
  - unfold zeros, zlen. rewrite length_replicate. lia.
Qed.

(** Both paths compute the checksum of the difference from zero. *)
Lemma raw_crc32c_spec data : bytes_ok data → zlen data < 2 ^ 37 → raw_crc32c data = Ret (raw 0 data).
Proof.
  intros Hd Hl. unfold raw_crc32c. pose proof (zlen_nonneg data). destruct (zlen data <=? HW_RAW_CRC_MIN_LEN).
  - apply table_crc_spec; [done|unfold u32_max; lia].
  - unfold saturating_mul8, u64_max. rewrite Z.min_l by lia.
    rewrite crc32c_shift_bits_spec by (unfold u32_max; lia). cbn [mbind outcome_bind]. f_equal.
    rewrite crc32c_raw, raw_from_zero, (Z.mul_comm 8) by done. change 0xFFFFFFFF with u32_max. lxor_solve.
Qed.

Lemma xor_bytes_ok a b : bytes_ok a → bytes_ok b → bytes_ok (xor_bytes a b).
Proof.
  intros Ha. revert b. induction Ha as [|x a Hx Ha IH]; intros b Hb; [constructor|]. destruct Hb as [|y b Hy Hb]; constructor; [|by apply IH].
  unfold byte_ok in *. split; [apply Z.lxor_nonneg; lia|].
  destruct (Z.eq_dec (Z.lxor x y) 0) as [->|Hne]; [lia|].
  assert (Z.log2 (Z.lxor x y) <= 7); [|apply (Z.log2_lt_pow2 _ 8); [pose proof (proj2 (Z.lxor_nonneg x y)); lia|lia]].
  etrans; [apply Z.log2_lxor; lia|]. apply Z.max_lub; change 7 with (Z.log2 255); apply Z.log2_le_mono; lia.
Qed.

Lemma raw_replace c pre old new suf : length old = length new →
  raw c (pre ++ new ++ suf) =
    Z.lxor (raw c (pre ++ old ++ suf)) (raw (raw 0 (xor_bytes old new)) (zeros (zlen suf))).
Proof.
  intros Hl. rewrite !raw_app. set (s := raw c pre).
  assert (raw (raw 0 (xor_bytes old new)) (zeros (zlen suf)) = Z.lxor (raw (raw s old) suf) (raw (raw s new) suf)) as ->; [|lxor_solve].
  rewrite <-(raw_xor suf suf) by done. rewrite <-raw_xor, Z.lxor_nilpotent by done. f_equal.
  unfold xor_bytes, zeros, zlen. rewrite Nat2Z.id. clear. induction suf as [|x suf IH]; [done|]. simpl. by rewrite Z.lxor_nilpotent, <-IH.
Qed.

Lemma update_region_spec c delta n : bytes_ok delta → zlen delta < 2 ^ 37 → 0 <= n < 2 ^ 37 →
  crc32c_update_region c delta n = Ret (Z.lxor c (raw (raw 0 delta) (zeros n))).
Proof.
  intros Hd Hl Hn. unfold crc32c_update_region. rewrite raw_crc32c_spec by done. cbn [mbind outcome_bind].
  rewrite crc32c_shift_bytes_spec by (lia || (apply raw_u32; unfold u32_max; lia)). cbn [mbind outcome_bind].
  by rewrite raw_zeros by lia.
Qed.

Lemma zlen_xor_bytes a b : length a = length b → zlen (xor_bytes a b) = zlen a.
Proof. intros Hl. unfold xor_bytes, zlen. rewrite length_zip_with. lia. Qed.

(** C12. Updating a checksum in place is exact: for a region of a buffer replaced
    by another of the same length, the incremental update of the old checksum from
    the bytewise difference and the length of what follows is the checksum of the
    new buffer, on the byte-table path and the hardware path, for shifts by table
    and by bits; it does not panic. *)
Theorem crc32c_update_region_exact pre old new suf :
  bytes_ok (pre ++ old ++ suf) → bytes_ok new → length old = length new → zlen (pre ++ old ++ suf) < 2 ^ 37 →
  crc32c_update_region (crc32c (pre ++ old ++ suf)) (xor_bytes old new) (zlen suf) = Ret (crc32c (pre ++ new ++ suf)).
Proof.
  intros Hok Hn Hl Hlen. pose proof Hok as Hok'. unfold bytes_ok in Hok'. rewrite !Forall_app in Hok'. destruct Hok' as (Hp&Ho&Hs).
  rewrite !zlen_app in Hlen. pose proof (zlen_nonneg pre). pose proof (zlen_nonneg old). pose proof (zlen_nonneg suf).
  rewrite update_region_spec; [|by apply xor_bytes_ok|rewrite zlen_xor_bytes by done; lia|lia]. f_equal.
  rewrite !crc32c_raw by (done || (unfold bytes_ok; rewrite !Forall_app; done)).
  rewrite (raw_replace _ pre old new suf) by done. lxor_solve.
Qed.

(** ** Zero tails *)

Lemma ext4_chksum_raw seed data : 0 <= seed <= u32_max → bytes_ok data → ext4_chksum seed data = raw seed data.
Proof.
  intros Hs Hd. unfold ext4_chksum, not32. rewrite crc32c_standard; [|by apply lxor_u32; [|by vm_compute]|done].
  unfold crc_append. fold (raw (Z.lxor (Z.lxor seed u32_max) u32_max) data).
  rewrite !Z.lxor_assoc, Z.lxor_nilpotent, !Z.lxor_0_r. done.
Qed.

(** Everything from [e] on is zero. *)
Definition zero_from (b : bytes) (e : Z) : Prop := 0 <= e <= zlen b ∧ drop (Z.to_nat e) b = zeros (zlen b - e).

Lemma le_value_zero l : bytes_ok l → le_value l = 0 → l = zeros (zlen l).
Proof.
  intros Hl Hv. pose proof (le_bytes_value l Hl) as Hb. rewrite Hv in Hb. rewrite <-Hb. unfold zeros, zlen.
  rewrite le_bytes_length, Nat2Z.id. generalize (length l). clear. induction n as [|n IH]; [done|]. simpl. f_equal. exact IH.
Qed.

Lemma zero_from_step b e n : bytes_ok b → zero_from b e → 0 <= n <= e → le_value (take (Z.to_nat n) (drop (Z.to_nat (e - n)) b)) = 0 →
  zero_from b (e - n).
Proof.
  intros Hb [He Hz] Hn Hv. split; [lia|]. rewrite <-(take_drop (Z.to_nat n) (drop (Z.to_nat (e - n)) b)).
  assert (zlen (take (Z.to_nat n) (drop (Z.to_nat (e - n)) b)) = n) as Hl.
  { unfold zlen in *. rewrite length_take, length_drop. lia. }
  rewrite (le_value_zero (take _ _)), Hl by (done || by apply Forall_take, Forall_drop).
  rewrite drop_drop. replace (Z.to_nat (e - n) + Z.to_nat n)%nat with (Z.to_nat e) by lia. rewrite Hz, <-zeros_split by lia. f_equal. lia.
Qed.

Lemma word_zero b at_ e : bytes_ok b → zero_from b e → e = at_ + 8 → 0 <= at_ → word b at_ = 0 → zero_from b at_.
Proof.
  intros Hb Hz -> Ha Hw. replace at_ with (at_ + 8 - 8) by lia. apply zero_from_step; [done..|lia|].
  unfold word in Hw. replace (at_ + 8 - 8) with at_ by lia. done.
Qed.

Lemma skip_blocks_zero fuel b e : bytes_ok b → zero_from b e → zero_from b (skip_zero_blocks fuel b e).
Proof.
  intros Hb. revert e. induction fuel as [|fuel IH]; intros e Hz; cbn [skip_zero_blocks]; [done|]. case_if; [|done]. case_if; [done|].
  apply IH. rewrite !Z.lor_eq_0_iff in *. destruct_and!.
  apply (word_zero b _ (e - 32 + 8)); [done| |lia|lia|done]. apply (word_zero b _ (e - 32 + 16)); [done| |lia|lia|done].
  apply (word_zero b _ (e - 32 + 24)); [done| |lia|lia|done]. apply (word_zero b _ e); [done|done|lia|lia|done].
Qed.

Lemma skip_bytes_zero fuel b e : bytes_ok b → zero_from b e → zero_from b (skip_zero_bytes fuel b e).
Proof.
  intros Hb. revert e. induction fuel as [|fuel IH]; intros e Hz; cbn [skip_zero_bytes]; [done|]. case_if; [|done].
  apply IH. bool_to_prop. apply zero_from_step; [done|done|lia|].
  match goal with Hd : bool_decide _ = true |- _ => apply bool_decide_eq_true in Hd; by rewrite (drop_S _ _ _ Hd) end.
Qed.

Lemma last_nonzero_split b : bytes_ok b →
  0 <= last_nonzero_len b <= zlen b ∧ b = take (Z.to_nat (last_nonzero_len b)) b ++ zeros (zlen b - last_nonzero_len b).
Proof.
  intros Hb. assert (zero_from b (last_nonzero_len b)) as [He Hz].
  { apply skip_bytes_zero, skip_blocks_zero; [done..|]. split; [pose proof (zlen_nonneg b); lia|].
    rewrite Z.sub_diag. apply drop_ge. unfold zlen. lia. }
  split; [done|]. by rewrite <-Hz, take_drop.
Qed.

(** The zero-tail shortcut. *)
Lemma skip_zero_tail_spec seed data : 0 <= seed <= u32_max → bytes_ok data → zlen data < 2 ^ 37 →
  ext4_chksum_skip_zero_tail seed data = Ret (ext4_chksum seed data).
Proof.
  intros Hs Hd Hl. unfold ext4_chksum_skip_zero_tail. case_if; [|done].
  destruct (last_nonzero_split data Hd) as [He Hsplit]. set (e := last_nonzero_len data) in *.
  assert (bytes_ok (take (Z.to_nat e) data)) by (by apply Forall_take).
  rewrite crc32c_shift_bytes_spec; [|rewrite ext4_chksum_raw by done; by apply raw_u32|lia].
  rewrite !ext4_chksum_raw by done. f_equal.
  transitivity (raw seed (take (Z.to_nat e) data ++ zeros (zlen data - e))); [by rewrite raw_app, raw_zeros by lia|by rewrite <-Hsplit].
Qed.
End correct.
