(* ===== verification/CrcUsers.v ===== *)
(** * Users of the checksum shortcuts

    The checksums of allocation bitmaps and of directory blocks. *)

From stdpp Require Import base sorting numbers gmap list.
From S2P Require Import Prelude Wal WalWriter Journal Jbd2 CrcIncr CrcLinear CrcCorrect.

Local Open Scope Z_scope.

(** ** Bits of a buffer *)

Definition bit_at (b : bytes) (i : Z) : bool :=
  match b !! Z.to_nat (i / 8) with Some x => Z.testbit x (i mod 8) | None => false end.

Lemma bit_at_byte b k x j : b !! k = Some x → 0 <= j < 8 → bit_at b (8 * Z.of_nat k + j) = Z.testbit x j.
Proof.
  intros Hk Hj. unfold bit_at. rewrite (Z.mul_comm 8), Z.div_add_l by lia.
  rewrite (Z.div_small j), Z.add_0_r, Nat2Z.id, Hk by lia.
  by rewrite (Z.add_comm _ j), Z.mod_add, Z.mod_small by lia.
Qed.

Lemma byte_ext x y : byte_ok x → byte_ok y → (∀ j, 0 <= j < 8 → Z.testbit x j = Z.testbit y j) → x = y.
Proof.
  unfold byte_ok. intros Hx Hy Hb. apply Z.bits_inj'. intros n Hn. destruct (decide (n < 8)); [auto with lia|].
  assert (∀ z, 0 <= z < 256 → Z.testbit z n = false) as Hhi; [|by rewrite !Hhi].
  intros z Hz. destruct (Z.eq_dec z 0) as [->|]; [apply Z.testbit_0_l|]. apply Z.bits_above_log2; [lia|].
  assert (Z.log2 z < 8); [|lia]. apply Z.log2_lt_pow2; lia.
Qed.

Lemma bytes_ext a b : bytes_ok a → bytes_ok b → length a = length b →
  (∀ i, 0 <= i < 8 * zlen a → bit_at a i = bit_at b i) → a = b.
Proof.
  intros Ha Hb Hl He. eapply list_eq_same_length; [done|done|]. intros k x y Hk Hx Hy. symmetry.
  unfold bytes_ok in *. apply byte_ext; [by eapply Forall_lookup_1 in Hb|by eapply Forall_lookup_1 in Ha|]. intros j Hj.
  rewrite <-(bit_at_byte a k x j), <-(bit_at_byte b k y j) by done. symmetry. apply He. unfold zlen. lia.
Qed.

Lemma bit_at_drop k b i : 0 <= i → bit_at (drop k b) i = bit_at b (i + 8 * Z.of_nat k).
Proof.
  intros Hi. unfold bit_at. rewrite lookup_drop. rewrite (Z.mul_comm 8), Z.div_add, Z.mod_add by lia.
  pose proof (Z.div_pos i 8). by replace (Z.to_nat (i / 8 + Z.of_nat k)) with (k + Z.to_nat (i / 8))%nat by lia.
Qed.

Lemma bit_at_take k b i : 0 <= i < 8 * Z.of_nat k → bit_at (take k b) i = bit_at b i.
Proof.
  intros Hi. unfold bit_at. assert (0 <= i / 8 < Z.of_nat k); [|by rewrite lookup_take_lt by lia].
  split; [apply Z.div_pos; lia|apply Z.div_lt_upper_bound; lia].
Qed.

Lemma bit_at_xor a b i : length a = length b → bit_at (xor_bytes a b) i = xorb (bit_at a i) (bit_at b i).
Proof.
  intros Hl. unfold bit_at, xor_bytes. rewrite lookup_zip_with.
  destruct (a !! Z.to_nat (i / 8)) as [x|] eqn:Ha; simpl.
  - destruct (lookup_lt_is_Some_2 b (Z.to_nat (i / 8))) as [y Hy]; [rewrite <-Hl; by eapply lookup_lt_Some|].
    rewrite Hy. simpl. apply Z.lxor_spec.
  - destruct (b !! Z.to_nat (i / 8)) as [y|] eqn:Hb; [|done]. apply lookup_lt_Some in Hb. apply lookup_ge_None in Ha. lia.
Qed.

Lemma bit_at_zeros n i : bit_at (zeros n) i = false.
Proof.
  unfold bit_at, zeros. destruct (replicate _ 0 !! _) as [x|] eqn:Hx; [|done]. apply lookup_replicate in Hx as [-> _]. apply Z.testbit_0_l.
Qed.

Lemma set_bits_spec n b delta : bytes_ok delta → 0 <= b → b + Z.of_nat n <= 8 * zlen delta →
  ∃ d', set_bits n b delta = Ret d' ∧ length d' = length delta ∧ bytes_ok d' ∧
    ∀ i, 0 <= i → bit_at d' i = bit_at delta i || bool_decide (b <= i < b + Z.of_nat n).
Proof.
  revert b delta. induction n as [|n IH]; intros b delta Hok Hb Hn; cbn [set_bits].
  { exists delta. split_and!; try done. intros i Hi. rewrite bool_decide_eq_false_2 by lia. by rewrite orb_false_r. }
  assert (0 <= b / 8 < zlen delta) as Hlt by (split; [apply Z.div_pos; lia|apply Z.div_lt_upper_bound; lia]).
  pose proof (Z.mod_pos_bound b 8 ltac:(lia)) as Hm.
  destruct (lookup_lt_is_Some_2 delta (Z.to_nat (b / 8))) as [x Hx]; [unfold zlen in Hlt; lia|]. rewrite Hx.
  set (y := Z.lor x (Z.shiftl 1 (b mod 8))). set (delta1 := <[Z.to_nat (b / 8) := y]> delta).
  assert (byte_ok x) as Hxok by (unfold bytes_ok in Hok; by eapply Forall_lookup_1 in Hok).
  assert (byte_ok y) as Hyok.
  { unfold byte_ok in *. unfold y. split; [apply Z.lor_nonneg; split; [lia|apply Z.shiftl_nonneg; lia]|].
    assert (Z.lor x (Z.shiftl 1 (b mod 8)) < 2 ^ 8); [|done]. rewrite Z.shiftl_1_l.
    apply Z.log2_lt_cancel. change (Z.log2 (2 ^ 8)) with 8. rewrite Z.log2_lor by lia.
    apply Z.max_lub_lt; [|rewrite Z.log2_pow2 by lia; lia].
    destruct (Z.eq_dec x 0) as [->|]; [done|]. apply Z.log2_lt_pow2; lia. }
  destruct (IH (b + 1) delta1) as (d'&->&Hl&Hok'&Hbits).
  { by apply Forall_insert. } { lia. } { unfold delta1, zlen in *. rewrite length_insert. lia. }
  exists d'. split_and!; [done|by rewrite Hl; apply length_insert|done|]. intros i Hi. rewrite Hbits by done.
  assert (bit_at delta1 i = bit_at delta i || bool_decide (i = b)) as ->.
  { unfold bit_at, delta1. pose proof (Z.div_mod i 8). pose proof (Z.div_mod b 8). pose proof (Z.div_pos i 8).
    destruct (decide (Z.to_nat (i / 8) = Z.to_nat (b / 8))) as [He|He].
    - rewrite He, list_lookup_insert_eq, Hx by (by eapply lookup_lt_Some). unfold y.
      rewrite Z.lor_spec, Z.shiftl_1_l, Z.pow2_bits_eqb by lia. f_equal.
      destruct (Z.eqb_spec (b mod 8) (i mod 8)); symmetry; [apply bool_decide_eq_true_2|apply bool_decide_eq_false_2]; lia.
    - rewrite list_lookup_insert_ne by done. rewrite (bool_decide_eq_false_2 (i = b)) by (intros ->; done). by rewrite orb_false_r. }
  rewrite <-orb_assoc. f_equal. apply eq_true_iff_eq. rewrite orb_true_iff, !bool_decide_eq_true. lia.
Qed.

(** The bytes a range of bits touches. *)
Lemma span_facts start count : 0 <= start → 0 < count →
  0 <= start - start / 8 * 8 ∧ 0 <= start / 8 < (start + count + 7) / 8 ∧ start + count <= 8 * ((start + count + 7) / 8).
Proof.
  intros Hs Hc. pose proof (Z.div_mod start 8 ltac:(lia)). pose proof (Z.mod_pos_bound start 8 ltac:(lia)).
  pose proof (Z.div_pos start 8 ltac:(lia) ltac:(lia)).
  pose proof (Z.div_mod (start + count + 7) 8 ltac:(lia)). pose proof (Z.mod_pos_bound (start + count + 7) 8 ltac:(lia)). lia.
Qed.

Lemma take_cut {A} (a e len : nat) (b : list A) : (a <= e <= len)%nat →
  take len b = take a b ++ take (e - a) (drop a b) ++ take (len - e) (drop e b).
Proof.
  intros Hae. rewrite <-(take_drop a (take len b)), take_take. f_equal; [f_equal; lia|].
  rewrite <-(take_drop (e - a) (drop a (take len b))). rewrite !skipn_firstn_comm, take_take, drop_drop.
  f_equal; [f_equal; lia|]. f_equal; [lia|f_equal; lia].
Qed.

Section users.
Context `{Crc32cStandard}.

(** ** Bitmaps *)

(** [new] is [old] with exactly the bits [start .. start + count] flipped. *)
Definition range_flipped (old new : bytes) (start count : Z) : Prop :=
  length old = length new ∧
  ∀ i, 0 <= i < 8 * zlen old → bit_at new i = xorb (bit_at old i) (bool_decide (start <= i < start + count)).

Lemma range_flipped_same old new start count k : range_flipped old new start count → bytes_ok old → bytes_ok new →
  Z.of_nat k <= start / 8 → Z.of_nat k <= zlen old → take k old = take k new.
Proof.
  intros [Hl Hf] Ho Hn Hk Hk'. apply bytes_ext; [by apply Forall_take..|rewrite !length_take; lia|].
  unfold zlen in *. rewrite length_take. intros i Hi. rewrite !bit_at_take by lia. rewrite Hf by lia.
  rewrite bool_decide_eq_false_2; [by rewrite xorb_false_r|]. pose proof (Z.div_mod start 8). pose proof (Z.mod_pos_bound start 8). lia.
Qed.

Lemma range_flipped_after old new start count k : range_flipped old new start count → bytes_ok old → bytes_ok new →
  start + count <= 8 * Z.of_nat k → drop k old = drop k new.
Proof.
  intros [Hl Hf] Ho Hn Hk. apply bytes_ext; [by apply Forall_drop..|rewrite !length_drop; lia|].
  unfold zlen in *. rewrite length_drop. intros i Hi. rewrite !bit_at_drop by lia. rewrite Hf by lia.
  rewrite bool_decide_eq_false_2; [by rewrite xorb_false_r|]. lia.
Qed.

Lemma bitmap_checksum_raw bitmap seed len : bytes_ok bitmap → 0 <= seed <= u32_max → 0 <= len <= zlen bitmap → len < 2 ^ 37 →
  ext4_bitmap_checksum bitmap seed len = Ret (raw seed (take (Z.to_nat len) bitmap)).
Proof.
  intros Hb Hs Hl Hlen. unfold ext4_bitmap_checksum. rewrite Z.min_l by lia.
  assert (bytes_ok (take (Z.to_nat len) bitmap)) by (by apply Forall_take).
  rewrite skip_zero_tail_spec; [by rewrite ext4_chksum_raw|done|done|]. unfold zlen in *. rewrite length_take. lia.
Qed.

(** The difference of the touched bytes is the mask. *)
Lemma range_mask old new start count len : range_flipped old new start count → bytes_ok old → bytes_ok new →
  0 <= start → 0 < count → (start + count + 7) / 8 <= len → len <= zlen old →
  let a := Z.to_nat (start / 8) in let n := (Z.to_nat ((start + count + 7) / 8) - a)%nat in
  ∃ delta, set_bits (Z.to_nat count) (start - start / 8 * 8) (zeros ((start + count + 7) / 8 - start / 8)) = Ret delta ∧
    bytes_ok delta ∧ length delta = n ∧ xor_bytes (take n (drop a old)) (take n (drop a new)) = delta.
Proof.
  intros [Hl Hf] Ho Hn Hs Hc He Hlen a n. set (e := (start + count + 7) / 8) in *.
  destruct (span_facts start count Hs Hc) as (Hb&[Ha0 Hae]&Hend). fold e in Hae, Hend.
  destruct (set_bits_spec (Z.to_nat count) (start - start / 8 * 8) (zeros (e - start / 8))) as (delta&Hset&Hdl&Hdok&Hbits);
    [apply zeros_ok|lia|rewrite zlen_zeros by lia; lia|].
  assert (length delta = n) as Hdn by (rewrite Hdl; unfold zeros; rewrite length_replicate; lia).
  exists delta. split_and!; [done|done|done|].
  assert (length (take n (drop a old)) = n ∧ length (take n (drop a new)) = n) as [Hlo Hln]
    by (unfold zlen in Hlen; rewrite !length_take, !length_drop; lia).
  apply bytes_ext; [apply xor_bytes_ok; by apply Forall_take, Forall_drop|done| |].
  { unfold xor_bytes. rewrite length_zip_with. lia. }
  rewrite zlen_xor_bytes by congruence. intros i Hi. unfold zlen in Hi. rewrite Hlo in Hi.
  rewrite bit_at_xor, Hbits, bit_at_zeros by (lia || congruence). rewrite !bit_at_take, !bit_at_drop by lia.
  rewrite Hf by (unfold zlen in *; lia). rewrite <-xorb_assoc, xorb_nilpotent, xorb_false_l. simpl.
  apply bool_decide_ext. lia.
Qed.


(** ** Directory blocks *)

(** A directory block with entries [body] and stored checksum [csum]. *)
Definition dir_tail : bytes := le_bytes 4 0 ++ le_bytes 2 12 ++ [0; EXT4_FT_DIR_CSUM].
Definition dir_block (body : bytes) (csum : Z) : bytes := body ++ dir_tail ++ le_bytes 4 csum.

Lemma dir_seed_u32 csum_seed ino generation : 0 <= csum_seed <= u32_max → 0 <= dir_seed csum_seed ino generation <= u32_max.
Proof.
  intros Hs. unfold dir_seed. assert (0 <= ext4_chksum csum_seed (le_bytes 4 ino) <= u32_max) as H1'.
  { rewrite ext4_chksum_raw by (done || apply le_bytes_ok). by apply raw_u32. }
  rewrite (ext4_chksum_raw (ext4_chksum _ _)) by (done || apply le_bytes_ok). by apply raw_u32.
Qed.

Lemma zlen_dir_block body csum : zlen (dir_block body csum) = zlen body + 12.
Proof. unfold dir_block. rewrite !zlen_app, zlen_le_bytes. done. Qed.

Lemma dir_block_entries body csum : take (Z.to_nat (zlen (dir_block body csum) - 12)) (dir_block body csum) = body.
Proof.
  rewrite zlen_dir_block. replace (Z.to_nat (zlen body + 12 - 12)) with (length body) by (unfold zlen; lia).
  apply take_app_length.
Qed.

Lemma dir_block_put body csum csum' :
  put (dir_block body csum) (zlen (dir_block body csum) - 4) (le_bytes 4 csum') = dir_block body csum'.
Proof.
  rewrite zlen_dir_block. unfold dir_block. rewrite !(app_assoc body), <-(app_nil_r (le_bytes 4 csum)), <-(app_nil_r (le_bytes 4 csum')) at 1.
  rewrite put_app; [done| |by rewrite !le_bytes_length]. rewrite zlen_app. change (zlen dir_tail) with 8. lia.
Qed.

Lemma dir_block_stored body csum : 0 <= csum <= u32_max → le_at 4 (dir_block body csum) (zlen (dir_block body csum) - 4) = csum.
Proof.
  intros Hc. unfold le_at. rewrite zlen_dir_block. unfold dir_block. rewrite app_assoc.
  replace (Z.to_nat (zlen body + 12 - 4)) with (length (body ++ dir_tail)) by (rewrite length_app; unfold zlen; simpl; lia).
  rewrite drop_app_length, take_ge by (by rewrite le_bytes_length). apply le_value_bytes. unfold u32_max in Hc. lia.
Qed.

Lemma stamp_dir_spec body csum csum_seed ino generation : bytes_ok body → 0 <= csum_seed <= u32_max → zlen body < 2 ^ 37 →
  stamp_dir_block_checksum (dir_block body csum) csum_seed ino generation =
    Ret (dir_block body (raw (dir_seed csum_seed ino generation) body)).
Proof.
  intros Hb Hs Hl. unfold stamp_dir_block_checksum. pose proof (zlen_nonneg body). pose proof (dir_seed_u32 csum_seed ino generation Hs).
  rewrite (proj2 (Z.ltb_ge _ _)) by (rewrite zlen_dir_block; lia).
  rewrite dir_block_entries, skip_zero_tail_spec by done. cbn [mbind outcome_bind].
  by rewrite dir_block_put, ext4_chksum_raw by done.
Qed.

Lemma verify_dir_spec body csum_seed ino generation : bytes_ok body → 0 <= csum_seed <= u32_max →
  verify_dir_block_checksum (dir_block body (raw (dir_seed csum_seed ino generation) body)) csum_seed ino generation = Ok ().
Proof.
  intros Hb Hs. pose proof (dir_seed_u32 csum_seed ino generation Hs) as Hd. pose proof (zlen_nonneg body).
  set (csum := raw _ body). unfold verify_dir_block_checksum. rewrite (proj2 (Z.ltb_ge _ _)) by (rewrite zlen_dir_block; lia).
  assert (∀ k n, 0 <= k → le_at n (dir_block body csum) (zlen (dir_block body csum) - 12 + k) =
    le_value (take n (drop (Z.to_nat k) (dir_tail ++ le_bytes 4 csum)))) as Htail.
  { intros k n Hk. unfold le_at. rewrite zlen_dir_block. do 2 f_equal.
    replace (Z.to_nat (zlen body + 12 - 12 + k)) with (length body + Z.to_nat k)%nat by (unfold zlen; lia).
    unfold dir_block. by rewrite <-drop_drop, drop_app_length. }
  pose proof (Htail 0 4%nat ltac:(lia)) as H0'. rewrite Z.add_0_r in H0'.
  rewrite H0', (Htail 4 2%nat), (Htail 6 1%nat), (Htail 7 1%nat), dir_block_stored by (lia || by apply raw_u32).
  rewrite dir_block_entries, ext4_chksum_raw by done. fold csum. rewrite (Z.eqb_refl csum). by generalize (le_bytes 4 csum).
Qed.

(** C24. Stamping a directory block in place is exact: on a stamped block whose
    entries then change in one region, the incremental stamp from the bytewise
    difference of the region gives byte for byte the block a full stamp gives, and
    the verifier accepts it, as it accepts the block before. *)
Theorem dir_stamp_incremental_exact pre old new suf csum csum_seed ino generation :
  bytes_ok (pre ++ old ++ suf) → bytes_ok new → length old = length new → 0 <= csum_seed <= u32_max →
  zlen (pre ++ old ++ suf) < 2 ^ 37 →
  ∃ before after,
    stamp_dir_block_checksum (dir_block (pre ++ old ++ suf) csum) csum_seed ino generation =
      Ret (dir_block (pre ++ old ++ suf) before) ∧
    verify_dir_block_checksum (dir_block (pre ++ old ++ suf) before) csum_seed ino generation = Ok () ∧
    stamp_dir_block_checksum_incremental (dir_block (pre ++ new ++ suf) before) (zlen pre) (xor_bytes old new) =
      Ret (dir_block (pre ++ new ++ suf) after, true) ∧
    stamp_dir_block_checksum (dir_block (pre ++ new ++ suf) before) csum_seed ino generation =
      Ret (dir_block (pre ++ new ++ suf) after) ∧
    verify_dir_block_checksum (dir_block (pre ++ new ++ suf) after) csum_seed ino generation = Ok ().
Proof.
  intros Hok Hn Hl Hs Hlen. pose proof (dir_seed_u32 csum_seed ino generation Hs) as Hd.
  assert (bytes_ok (pre ++ new ++ suf)) as Hok'.
  { unfold bytes_ok in *. rewrite !Forall_app in *. tauto. }
  assert (zlen (pre ++ new ++ suf) = zlen (pre ++ old ++ suf)) as Hz by (unfold zlen; rewrite !length_app; lia).
  set (sd := dir_seed csum_seed ino generation) in *.
  exists (raw sd (pre ++ old ++ suf)), (raw sd (pre ++ new ++ suf)). rewrite !stamp_dir_spec by (done || lia). split_and!; try done.
  - by apply verify_dir_spec.
  - unfold stamp_dir_block_checksum_incremental. pose proof (zlen_nonneg pre). pose proof (zlen_nonneg old). pose proof (zlen_nonneg suf).
    assert (zlen new = zlen old) as Hnew by (unfold zlen; lia).
    rewrite zlen_dir_block, (proj2 (Z.ltb_ge _ _)) by (rewrite !zlen_app; lia).
    rewrite zlen_xor_bytes, checked_add_ok by (done || (rewrite !zlen_app in Hlen; unfold usize_max, u64_max; lia)).
    rewrite (proj2 (Z.ltb_ge _ _)) by (rewrite !zlen_app; lia). rewrite <-zlen_dir_block with (csum := raw sd (pre ++ old ++ suf)).
    rewrite dir_block_stored by (by apply raw_u32). rewrite zlen_dir_block. unfold bytes_ok in Hok. rewrite !Forall_app in Hok. destruct Hok as (_&Hold&_).
    rewrite !zlen_app in Hlen. rewrite update_region_spec; [|by apply xor_bytes_ok|rewrite zlen_xor_bytes by done; lia|rewrite !zlen_app; lia].
    cbn [mbind outcome_bind]. rewrite <-zlen_dir_block with (csum := raw sd (pre ++ old ++ suf)), dir_block_put.
    do 3 f_equal. rewrite (raw_replace sd pre old new suf) by done. do 2 f_equal. f_equal. rewrite zlen_dir_block, !zlen_app. lia.
  - by apply verify_dir_spec.
Qed.
End users.
