(* ===== verification/CrcWitness.v ===== *)
(** * Checksums: concrete runs

    The incremental checksums on small buffers, with the CRC computed bit by bit. *)

From stdpp Require Import base sorting numbers gmap list.
From S2P Require Import Prelude Wal WalReplay WalWriter Journal Jbd2 CrcIncr CrcLinear CrcCorrect CrcUsers.

Local Open Scope Z_scope.

#[local] Existing Instances BitwiseCrc BitwiseCrcAppend BitwiseCrcStandard.

#[local] Ltac byte_list := unfold bytes_ok; repeat constructor; by compute.

Lemma crc32c_update_region_exact_witness :
  crc32c_update_region (crc32c [1; 2; 3; 4; 5]) [0x0A] 2 = Ret (crc32c [1; 2; 9; 4; 5]).
Proof.
  change (crc32c_update_region (crc32c ([1; 2] ++ [3] ++ [4; 5])) (xor_bytes [3] [9]) (zlen [4; 5]) =
    Ret (crc32c ([1; 2] ++ [9] ++ [4; 5]))).
  apply crc32c_update_region_exact; [byte_list|byte_list|done|done].
Defined.

(** Bits 10 to 12 of a bitmap of 64 units are allocated. *)
Definition bitmap_before : bytes := [255; 3; 0; 0; 0; 0; 0; 0].
Definition bitmap_after : bytes := [255; 31; 0; 0; 0; 0; 0; 0].
Definition bitmap_csum : Z := match block_bitmap_checksum_value bitmap_before 7 64 64 with Ret c => c | Panic => 0 end.


Lemma dir_stamp_incremental_exact_witness :
  ∃ before after,
    stamp_dir_block_checksum (dir_block ([1; 2; 3; 4] ++ [5; 6] ++ [7; 8]) 0) 11 2 3 =
      Ret (dir_block ([1; 2; 3; 4] ++ [5; 6] ++ [7; 8]) before) ∧
    verify_dir_block_checksum (dir_block ([1; 2; 3; 4] ++ [5; 6] ++ [7; 8]) before) 11 2 3 = Ok () ∧
    stamp_dir_block_checksum_incremental (dir_block ([1; 2; 3; 4] ++ [9; 6] ++ [7; 8]) before) 4 [0x0C; 0] =
      Ret (dir_block ([1; 2; 3; 4] ++ [9; 6] ++ [7; 8]) after, true) ∧
    stamp_dir_block_checksum (dir_block ([1; 2; 3; 4] ++ [9; 6] ++ [7; 8]) before) 11 2 3 =
      Ret (dir_block ([1; 2; 3; 4] ++ [9; 6] ++ [7; 8]) after) ∧
    verify_dir_block_checksum (dir_block ([1; 2; 3; 4] ++ [9; 6] ++ [7; 8]) after) 11 2 3 = Ok ().
Proof. apply (dir_stamp_incremental_exact [1; 2; 3; 4] [5; 6] [9; 6] [7; 8] 0 11 2 3); [byte_list|byte_list|done|done|done]. Defined.
