(* ===== verification/Jbd2Replay.v ===== *)
(** * JBD2 replay (ffs-journal, lib.rs)

    The scan of the log, the order of the committed sequences, and the writes
    to the home blocks. *)

From stdpp Require Import base sorting numbers gmap list.
From S2P Require Import Prelude Sorted Wal WalReplay WalWriter Journal Jbd2.

Local Open Scope Z_scope.

Definition bump (x : Z) : Z := saturating_add u64_max x 1.

Record ReplayStats := mkReplayStats {
  st_scanned_blocks : Z;
  st_descriptor_blocks : Z;
  st_descriptor_tags : Z;
  st_commit_blocks : Z;
  st_revoke_blocks : Z;
  st_revoke_entries : Z;
  st_replayed_blocks : Z;
  st_skipped_revoked_blocks : Z;
  st_orphaned_commit_blocks : Z;
  st_incomplete_transactions : Z;
}.

Definition stats_start : ReplayStats := mkReplayStats 0 0 0 0 0 0 0 0 0 0.
Definition count_scanned (s : ReplayStats) : ReplayStats :=
  mkReplayStats (bump (st_scanned_blocks s)) (st_descriptor_blocks s) (st_descriptor_tags s)
    (st_commit_blocks s) (st_revoke_blocks s) (st_revoke_entries s) (st_replayed_blocks s)
    (st_skipped_revoked_blocks s) (st_orphaned_commit_blocks s) (st_incomplete_transactions s).
Definition count_descriptor (s : ReplayStats) : ReplayStats :=
  mkReplayStats (st_scanned_blocks s) (bump (st_descriptor_blocks s)) (st_descriptor_tags s)
    (st_commit_blocks s) (st_revoke_blocks s) (st_revoke_entries s) (st_replayed_blocks s)
    (st_skipped_revoked_blocks s) (st_orphaned_commit_blocks s) (st_incomplete_transactions s).
Definition count_tags (n : Z) (s : ReplayStats) : ReplayStats :=
  mkReplayStats (st_scanned_blocks s) (st_descriptor_blocks s) (saturating_add u64_max (st_descriptor_tags s) n)
    (st_commit_blocks s) (st_revoke_blocks s) (st_revoke_entries s) (st_replayed_blocks s)
    (st_skipped_revoked_blocks s) (st_orphaned_commit_blocks s) (st_incomplete_transactions s).
Definition count_commit (s : ReplayStats) : ReplayStats :=
  mkReplayStats (st_scanned_blocks s) (st_descriptor_blocks s) (st_descriptor_tags s)
    (bump (st_commit_blocks s)) (st_revoke_blocks s) (st_revoke_entries s) (st_replayed_blocks s)
    (st_skipped_revoked_blocks s) (st_orphaned_commit_blocks s) (st_incomplete_transactions s).
Definition count_revoke_block (s : ReplayStats) : ReplayStats :=
  mkReplayStats (st_scanned_blocks s) (st_descriptor_blocks s) (st_descriptor_tags s)
    (st_commit_blocks s) (bump (st_revoke_blocks s)) (st_revoke_entries s) (st_replayed_blocks s)
    (st_skipped_revoked_blocks s) (st_orphaned_commit_blocks s) (st_incomplete_transactions s).
Definition count_revokes (n : Z) (s : ReplayStats) : ReplayStats :=
  mkReplayStats (st_scanned_blocks s) (st_descriptor_blocks s) (st_descriptor_tags s)
    (st_commit_blocks s) (st_revoke_blocks s) (saturating_add u64_max (st_revoke_entries s) n)
    (st_replayed_blocks s) (st_skipped_revoked_blocks s) (st_orphaned_commit_blocks s)
    (st_incomplete_transactions s).
Definition count_skipped (s : ReplayStats) : ReplayStats :=
  mkReplayStats (st_scanned_blocks s) (st_descriptor_blocks s) (st_descriptor_tags s)
    (st_commit_blocks s) (st_revoke_blocks s) (st_revoke_entries s) (st_replayed_blocks s)
    (bump (st_skipped_revoked_blocks s)) (st_orphaned_commit_blocks s) (st_incomplete_transactions s).
Definition count_orphan (s : ReplayStats) : ReplayStats :=
  mkReplayStats (st_scanned_blocks s) (st_descriptor_blocks s) (st_descriptor_tags s)
    (st_commit_blocks s) (st_revoke_blocks s) (st_revoke_entries s) (st_replayed_blocks s)
    (st_skipped_revoked_blocks s) (bump (st_orphaned_commit_blocks s)) (st_incomplete_transactions s).
Definition count_end (replayed incomplete : Z) (s : ReplayStats) : ReplayStats :=
  mkReplayStats (st_scanned_blocks s) (st_descriptor_blocks s) (st_descriptor_tags s)
    (st_commit_blocks s) (st_revoke_blocks s) (st_revoke_entries s) replayed
    (st_skipped_revoked_blocks s) (st_orphaned_commit_blocks s) incomplete.

Record Jbd2ReplayOutcome := mkJbd2ReplayOutcome { ro_committed_sequences : list Z; ro_stats : ReplayStats }.

(** ** The log's window *)

(** [(log_first, log_last)] *)
Definition log_window (journal_sb : option Jbd2Superblock) (total_blocks : Z) : Z * Z :=
  match journal_sb with
  | None => (0, total_blocks)
  | Some sb =>
      let first := jsb_first_log_block sb in
      let last := Z.min (jsb_max_len sb) total_blocks in
      let last := if has_fast_commit sb then saturating_sub last (jsb_num_fc_blocks sb) else last in
      if first <? last then (first, last) else (0, total_blocks)
  end.

Definition wrap_idx (window : Z * Z) (raw : Z) : Z :=
  if raw <? window.2 then raw else window.1 + (raw - window.1) mod (window.2 - window.1).

(** ** Scanning *)

Record ScanState := mkScanState {
  ss_stats : ReplayStats;
  ss_pending : smap (list TxnBodyEvent);
  ss_committed : sset;
  ss_idx : Z;
  ss_expected_seq : option Z;
  ss_blocks_scanned : Z;
}.

(** The fixed parameters of a replay. *)
Record ReplayEnv := mkReplayEnv {
  re_total_blocks : Z;
  re_verify_checksums : bool;
  re_resolve : Z → res JournalError Z;
  re_journal_sb : option Jbd2Superblock;
}.

Definition env_is_64bit (env : ReplayEnv) : bool :=
  match re_journal_sb env with Some sb => is_64bit sb | None => false end.
Definition env_has_tail (env : ReplayEnv) : bool :=
  match re_journal_sb env with Some sb => has_checksum sb | None => false end.
Definition env_tag_format (env : ReplayEnv) : Jbd2TagFormat :=
  match re_journal_sb env with Some sb => tag_format sb | None => Legacy end.
Definition env_window (env : ReplayEnv) : Z * Z := log_window (re_journal_sb env) (re_total_blocks env).

Definition staged_writes (env : ReplayEnv) (idx sequence : Z) (tags : list DescriptorTag) : list TxnBodyEvent :=
  imap (λ tag_idx tag,
    let raw_data_idx := saturating_add u64_max idx (bump (Z.of_nat tag_idx)) in
    EventWrite (dt_target tag)
      (mkStaged (wrap_idx (env_window env) raw_data_idx) (is_escaped tag) (dt_data_checksum tag) sequence)) tags.

(** [pending.entry(seq).or_default()] *)
Definition pending_events (pending : smap (list TxnBodyEvent)) (seq : Z) : list TxnBodyEvent :=
  default [] (sm_get seq pending).

Section replay.
Context `{Crc32cAppend}.

(** The body of the loop for a block with a header that passed the checks; the
    flag tells whether the scan goes on. *)
Definition scan_descriptor (env : ReplayEnv) (raw : bytes) (seq : Z) (s : ScanState) : ScanState * bool :=
  if ss_contains seq (ss_committed s) then (s, false)
  else
    let stats := count_descriptor (ss_stats s) in
    let stop stats := (mkScanState stats (ss_pending s) (ss_committed s) (ss_idx s) (ss_expected_seq s)
                         (ss_blocks_scanned s), false) in
    match parse_descriptor_tags_strict_with_format raw (env_is_64bit env) (env_has_tail env) (env_tag_format env) with
    | None => stop stats
    | Some tags =>
        let tag_count := zlen tags in
        let stats := count_tags tag_count stats in
        if re_total_blocks env <=? tag_count then stop stats
        else
          let events := pending_events (ss_pending s) seq ++ staged_writes env (ss_idx s) seq tags in
          (mkScanState stats (sm_insert seq events (ss_pending s)) (ss_committed s)
             (saturating_add u64_max (bump (ss_idx s)) tag_count) (ss_expected_seq s)
             (saturating_add u64_max (ss_blocks_scanned s) tag_count), true)
    end.

Definition scan_commit (seq : Z) (s : ScanState) : ScanState * bool :=
  (mkScanState (count_commit (ss_stats s)) (ss_pending s) (ss_insert seq (ss_committed s)) (bump (ss_idx s))
     (match ss_expected_seq s with
      | Some expected => if seq =? expected then Some (wrapping_add32 expected 1) else Some expected
      | None => None
      end) (ss_blocks_scanned s), true).

Definition scan_revoke (env : ReplayEnv) (raw : bytes) (seq : Z) (s : ScanState) : ScanState * bool :=
  if ss_contains seq (ss_committed s) then (s, false)
  else
    let stats := count_revoke_block (ss_stats s) in
    match extend_strict_revoke_events raw (env_is_64bit env) (env_has_tail env) (pending_events (ss_pending s) seq) with
    | (events, None) =>
        (mkScanState stats (sm_insert seq events (ss_pending s)) (ss_committed s) (ss_idx s) (ss_expected_seq s)
           (ss_blocks_scanned s), false)
    | (events, Some revoke_count) =>
        (mkScanState (count_revokes revoke_count stats) (sm_insert seq events (ss_pending s)) (ss_committed s)
           (bump (ss_idx s)) (ss_expected_seq s) (ss_blocks_scanned s), true)
    end.

Definition skip_block (s : ScanState) : ScanState :=
  mkScanState (ss_stats s) (ss_pending s) (ss_committed s) (bump (ss_idx s)) (ss_expected_seq s) (ss_blocks_scanned s).

Definition scan_header (env : ReplayEnv) (raw : bytes) (header : Jbd2Header) (s : ScanState) : ScanState * bool :=
  let seq := jh_sequence header in
  if re_verify_checksums env &&
     match re_journal_sb env with Some sb => negb (verify_jbd2_block_checksum raw sb) | None => false end
  then (s, false)
  else if match ss_expected_seq s with
          | Some expected => negb (seq =? expected) && negb (seq =? wrapping_add32 expected 1)
          | None => false
          end
  then (s, false)
  else if jh_block_type header =? JBD2_BLOCKTYPE_DESCRIPTOR then scan_descriptor env raw seq s
  else if jh_block_type header =? JBD2_BLOCKTYPE_COMMIT then scan_commit seq s
  else if jh_block_type header =? JBD2_BLOCKTYPE_REVOKE then scan_revoke env raw seq s
  else if bool_decide (is_Some (sm_get seq (ss_pending s))) && negb (ss_contains seq (ss_committed s))
  then (s, false)
  else (skip_block s, true).

Definition scan_block (env : ReplayEnv) (raw : bytes) (s : ScanState) : ScanState * bool :=
  match parse_header raw with
  | None => match ss_expected_seq s with Some _ => (s, false) | None => (skip_block s, true) end
  | Some header =>
      if negb (jh_magic header =? JBD2_MAGIC)
      then match ss_expected_seq s with Some _ => (s, false) | None => (skip_block s, true) end
      else scan_header env raw header s
  end.

(** Every turn counts a block, so [total_blocks] turns are enough. *)
Fixpoint scan_loop (fuel : nat) (env : ReplayEnv) (s : ScanState) : devM ScanState :=
  match fuel with
  | O => mret s
  | S fuel' =>
      if re_total_blocks env <=? ss_blocks_scanned s then mret s
      else
        absolute ← lift (re_resolve env (wrap_idx (env_window env) (ss_idx s)));
        raw ← read_block absolute;
        let s := mkScanState (count_scanned (ss_stats s)) (ss_pending s) (ss_committed s) (ss_idx s)
                   (ss_expected_seq s) (bump (ss_blocks_scanned s)) in
        let (s, go_on) := scan_block env raw s in
        if go_on : bool then scan_loop fuel' env s else mret s
  end.

(** ** The order of the commits *)

(** [(max_jump, oldest_idx)] over the ascending sequences. *)
Fixpoint oldest_loop (seqs : list Z) (prev : Z) (i : nat) (max_jump : Z) (oldest_idx : nat) : nat :=
  match seqs with
  | [] => oldest_idx
  | seq :: seqs' =>
      let jump := wrapping_sub32 seq prev in
      if max_jump <? jump then oldest_loop seqs' seq (S i) jump i
      else oldest_loop seqs' seq (S i) max_jump oldest_idx
  end.

(** The set is ascending, so [sort_unstable] leaves it as it is. *)
Definition commit_order (seqs : list Z) : list Z :=
  match last seqs with
  | None => []
  | Some prev =>
      let oldest_idx := oldest_loop seqs prev 0 0 0 in
      drop oldest_idx seqs ++ take oldest_idx seqs
  end.

(** ** The final writes *)

Definition apply_event (st : smap StagedWrite * ReplayStats) (e : TxnBodyEvent) : smap StagedWrite * ReplayStats :=
  match e with
  | EventWrite target staged => (sm_insert target staged st.1, st.2)
  | EventRevoke target =>
      match sm_get target st.1 with
      | Some _ => (sm_remove target st.1, count_skipped st.2)
      | None => st
      end
  end.

Definition apply_txn (pending : smap (list TxnBodyEvent)) (st : smap StagedWrite * ReplayStats) (seq : Z) :
    smap StagedWrite * ReplayStats :=
  match sm_get seq pending with
  | Some events => fold_left apply_event events st
  | None => (st.1, count_orphan st.2)
  end.

Definition final_writes (pending : smap (list TxnBodyEvent)) (order : list Z) (stats : ReplayStats) :
    smap StagedWrite * ReplayStats :=
  fold_left (apply_txn pending) order ([], stats).

(** The plan: every block number resolved, the first error ends it. *)
Fixpoint plan_writes (env : ReplayEnv) (ws : smap StagedWrite) : res JournalError (list (Z * StagedWrite * Z)) :=
  match ws with
  | [] => Ok []
  | (target, staged) :: ws' =>
      absolute ← re_resolve env (sw_journal_idx staged);
      planned ← plan_writes env ws';
      Ok ((target, staged, absolute) :: planned)
  end.

(** The parallel reads: all happen before the first write. *)
Definition staged_reads (d : Device) (planned : list (Z * StagedWrite * Z)) :
    list (Z * StagedWrite * res JournalError bytes) :=
  (λ p, (p.1.1, p.1.2, (read_block p.2 d).2)) <$> planned.

Definition data_checksum_matches (env : ReplayEnv) (staged : StagedWrite) (data : bytes) : bool :=
  if re_verify_checksums env then
    match re_journal_sb env, sw_data_checksum staged with
    | Some sb, Some expected =>
        let computed := checksum_jbd2_data_block data (sw_sequence staged) (csum_seed sb) in
        match tag_format sb with
        | CsumV2 => Z.land computed 0xFFFF =? expected
        | CsumV3 => computed =? expected
        | Legacy => true
        end
    | _, _ => true
    end
  else true.

Definition restore_escaped (staged : StagedWrite) (data : bytes) : res JournalError bytes :=
  if sw_escaped staged then
    if 4 <=? zlen data then Ok (put data 0 (be_bytes 4 JBD2_MAGIC)) else Err BadFormat
  else Ok data.

Fixpoint consume_writes (env : ReplayEnv) (reads : list (Z * StagedWrite * res JournalError bytes))
    (replayed_blocks : Z) : devM Z :=
  match reads with
  | [] => mret replayed_blocks
  | (target, staged, read) :: reads' =>
      data ← lift read;
      if negb (data_checksum_matches env staged data) then consume_writes env reads' replayed_blocks
      else
        data ← lift (restore_escaped staged data);
        _ ← write_block target data;
        consume_writes env reads' (bump replayed_blocks)
  end.

Definition incomplete_transactions (pending : smap (list TxnBodyEvent)) (committed : sset) : Z :=
  zlen (filter (λ p, ss_contains p.1 committed = false) pending).

Definition replay_scanned (env : ReplayEnv) (s : ScanState) : devM Jbd2ReplayOutcome :=
  let order := commit_order (ss_committed s).*1 in
  let (writes, stats) := final_writes (ss_pending s) order (ss_stats s) in
  planned ← lift (plan_writes env writes);
  reads ← (λ d, (d, Ok (staged_reads d planned)));
  replayed_blocks ← consume_writes env reads 0;
  mret (mkJbd2ReplayOutcome order
          (count_end replayed_blocks (incomplete_transactions (ss_pending s) (ss_committed s)) stats)).

Definition replay_jbd2_inner (total_blocks : Z) (verify_checksums : bool)
    (resolve_block : Z → res JournalError Z) : devM Jbd2ReplayOutcome :=
  if total_blocks =? 0 then fail BadFormat
  else
    first_abs ← lift (resolve_block 0);
    first_raw ← read_block first_abs;
    let journal_sb := parse_superblock first_raw in
    let env := mkReplayEnv total_blocks verify_checksums resolve_block journal_sb in
    let idx := match journal_sb with Some sb => jsb_start_block sb | None => 0 end in
    let expected_seq := jsb_start_sequence <$> journal_sb in
    s ← scan_loop (Z.to_nat total_blocks) env (mkScanState stats_start [] [] idx expected_seq 0);
    replay_scanned env s.

Definition replay_jbd2_with_options (journal_region : JournalRegion) (verify_checksums : bool) : devM Jbd2ReplayOutcome :=
  replay_jbd2_inner (jr_blocks journal_region) verify_checksums (resolve_region_block journal_region).
Definition replay_jbd2 (journal_region : JournalRegion) : devM Jbd2ReplayOutcome :=
  replay_jbd2_with_options journal_region true.

Fixpoint segment_blocks (segments : list JournalSegment) (acc : Z) : res JournalError Z :=
  match segments with
  | [] => Ok acc
  | s :: segments' => acc ← ok_or (checked_add u64_max acc (js_blocks s)) BadFormat; segment_blocks segments' acc
  end.

Definition replay_jbd2_segments_with_options (segments : list JournalSegment) (verify_checksums : bool) :
    devM Jbd2ReplayOutcome :=
  match segments with
  | [] => fail BadFormat
  | _ =>
      if existsb segment_is_empty segments then fail BadFormat
      else
        total_blocks ← lift (segment_blocks segments 0);
        replay_jbd2_inner total_blocks verify_checksums (resolve_segment_block segments)
  end.
Definition replay_jbd2_segments (segments : list JournalSegment) : devM Jbd2ReplayOutcome :=
  replay_jbd2_segments_with_options segments true.
End replay.

(** ** Applying recovered transactions, clearing the journal *)

Record ApplyStats := mkApplyStats { as_written : Z; as_verified : Z; as_mismatches : Z }.

Abbreviation CommittedTxn := (list (Z * bytes) * gset Z)%type.

Fixpoint apply_writes (writes : list (Z * bytes)) (revoked : gset Z) (stats : ApplyStats) : devM ApplyStats :=
  match writes with
  | [] => mret stats
  | (target, payload) :: writes' =>
      if bool_decide (target ∈ revoked) then apply_writes writes' revoked stats
      else
        _ ← write_block target payload;
        readback ← read_block target;
        if bool_decide (readback = payload)
        then apply_writes writes' revoked
               (mkApplyStats (bump (as_written stats)) (bump (as_verified stats)) (as_mismatches stats))
        else fail (Corruption target)
  end.

Fixpoint apply_replay_from (committed : list CommittedTxn) (stats : ApplyStats) : devM ApplyStats :=
  match committed with
  | [] => mret stats
  | (writes, revoked) :: committed' =>
      stats ← apply_writes writes revoked stats;
      apply_replay_from committed' stats
  end.
Definition apply_replay (committed : list CommittedTxn) : devM ApplyStats :=
  apply_replay_from committed (mkApplyStats 0 0 0).

(** [n] blocks are left. *)
Fixpoint clear_loop (n : nat) (region : JournalRegion) (idx : Z) : devM () :=
  match n with
  | O => mret ()
  | S n' =>
      block ← lift (resolve_region_block region idx);
      bs ← device_block_size;
      _ ← write_block block (zeros bs);
      clear_loop n' region (idx + 1)
  end.
Definition clear_journal (region : JournalRegion) : devM () := clear_loop (Z.to_nat (jr_blocks region)) region 0.
