(* ===== verification/Jbd2Writer.v ===== *)
(** * The JBD2 writer (ffs-journal, lib.rs)

    Transactions, their admission, the write phase of a commit, the tail scan
    of [open], and the log tail in the journal's superblock. *)

From stdpp Require Import base sorting numbers gmap list.
From S2P Require Import Prelude Sorted Wal WalReplay WalWriter Journal Jbd2 Jbd2Replay.

Local Open Scope Z_scope.

Inductive Jbd2TxnBodyItem :=
| ItemWrite (target : Z) (payload : bytes)
| ItemRevoke (target : Z).

Record Jbd2Transaction := mkTxn { tx_body_items : list Jbd2TxnBodyItem; tx_write_count : Z; tx_revoke_count : Z }.

Definition begin_transaction : Jbd2Transaction := mkTxn [] 0 0.
Definition add_write (t : Jbd2Transaction) (target : Z) (payload : bytes) : Jbd2Transaction :=
  mkTxn (tx_body_items t ++ [ItemWrite target payload]) (saturating_add usize_max (tx_write_count t) 1)
    (tx_revoke_count t).
Definition add_revoke (t : Jbd2Transaction) (target : Z) : Jbd2Transaction :=
  mkTxn (tx_body_items t ++ [ItemRevoke target]) (tx_write_count t)
    (saturating_add usize_max (tx_revoke_count t) 1).

Record Jbd2WriteStats := mkWriteStats {
  ws_descriptor_blocks : Z;
  ws_data_blocks : Z;
  ws_revoke_blocks : Z;
  ws_commit_blocks : Z;
}.

Record Jbd2Writer := mkJwriter {
  jw_segments : list JournalSegment;
  jw_total_blocks : Z;
  jw_head : Z;
  jw_base_head : Z;
  jw_next_seq : Z;
  jw_aborted : bool;
  jw_is_64bit : bool;
  jw_tag_format : Jbd2TagFormat;
  jw_has_checksum : bool;
  jw_csum_seed : Z;
}.

(** [iter().sum()] of the segments, within [u64]. *)
Definition sum_blocks (segments : list JournalSegment) : Z := fold_right (λ s acc, js_blocks s + acc) 0 segments.

Definition new_segmented (segments : list JournalSegment) (start_seq : Z) : Jbd2Writer :=
  mkJwriter segments (sum_blocks segments) 0 0 start_seq false false Legacy false 0.
Definition new_writer (region : JournalRegion) (start_seq : Z) : Jbd2Writer :=
  mkJwriter [mkSegment (jr_start region) (jr_blocks region)] (jr_blocks region) 0 0 start_seq false false Legacy false 0.
Definition with_checksum_config (region : JournalRegion) (start_seq : Z) (has_checksum : bool) (csum_seed : Z) :
    Jbd2Writer :=
  mkJwriter [mkSegment (jr_start region) (jr_blocks region)] (jr_blocks region) 0 0 start_seq false false
    (if has_checksum then CsumV3 else Legacy) has_checksum csum_seed.
Definition set_64bit (w : Jbd2Writer) (enabled : bool) : Jbd2Writer :=
  mkJwriter (jw_segments w) (jw_total_blocks w) (jw_head w) (jw_base_head w) (jw_next_seq w) (jw_aborted w)
    enabled (jw_tag_format w) (jw_has_checksum w) (jw_csum_seed w).
Definition reset_after_checkpoint (w : Jbd2Writer) : Jbd2Writer :=
  mkJwriter (jw_segments w) (jw_total_blocks w) (jw_base_head w) (jw_base_head w) (jw_next_seq w) (jw_aborted w)
    (jw_is_64bit w) (jw_tag_format w) (jw_has_checksum w) (jw_csum_seed w).
Definition free_blocks (w : Jbd2Writer) : Z := saturating_sub (jw_total_blocks w) (jw_head w).

(** ** Space *)

Definition tail_bytes (has_checksum : bool) : Z := if has_checksum then JBD2_CHECKSUM_TAIL_SIZE else 0.

Definition max_tags_per_descriptor_for_format (block_size : Z) (is_64bit has_checksum : bool)
    (format : Jbd2TagFormat) : Z :=
  saturating_sub block_size (JBD2_HEADER_SIZE + tail_bytes has_checksum) / tag_size format is_64bit.

Definition max_revoke_entries_with_checksum (block_size : Z) (is_64bit has_checksum : bool) : Z :=
  saturating_sub block_size (JBD2_REVOKE_HEADER_SIZE + tail_bytes has_checksum) / revoke_entry_size is_64bit.

(** [usize::div_ceil] *)
Definition div_ceil (a b : Z) : Z := let q := a / b in if 0 <? a mod b then q + 1 else q.

Definition blocks_needed_for_format (block_size writes revokes : Z) (is_64bit has_checksum : bool)
    (format : Jbd2TagFormat) : Z :=
  let tags_per_desc := max_tags_per_descriptor_for_format block_size is_64bit has_checksum format in
  let entries_per_revoke := max_revoke_entries_with_checksum block_size is_64bit has_checksum in
  if (0 <? writes) && (tags_per_desc =? 0) then u64_max
  else
    let total :=
      if 0 <? writes then saturating_add u64_max (saturating_add u64_max 0 (div_ceil writes tags_per_desc)) writes
      else 0 in
    if (0 <? revokes) && (entries_per_revoke =? 0) then u64_max
    else
      let total :=
        if 0 <? revokes then saturating_add u64_max total (div_ceil revokes entries_per_revoke) else total in
      saturating_add u64_max total 1.

Definition blocks_needed_with_checksum (block_size writes revokes : Z) (is_64bit has_checksum : bool) : Z :=
  blocks_needed_for_format block_size writes revokes is_64bit has_checksum (if has_checksum then CsumV3 else Legacy).

Definition oversized (bs : Z) (item : Jbd2TxnBodyItem) : bool :=
  match item with ItemWrite _ payload => bs <? zlen payload | ItemRevoke _ => false end.

Definition preflight_transaction (w : Jbd2Writer) (bs : Z) (txn : Jbd2Transaction) : res JournalError () :=
  if jw_aborted w then Err DeviceIo
  else if bs <? JBD2_HEADER_SIZE then Err BadFormat
  else if jw_has_checksum w && (bs <? JBD2_COMMIT_CHKSUM_OFFSET + JBD2_CHECKSUM_TAIL_SIZE) then Err BadFormat
  else
    let tags_per_desc :=
      max_tags_per_descriptor_for_format bs (jw_is_64bit w) (jw_has_checksum w) (jw_tag_format w) in
    if (0 <? tx_write_count txn) && (tags_per_desc =? 0) then Err BadFormat
    else
      let entries_per_revoke := max_revoke_entries_with_checksum bs (jw_is_64bit w) (jw_has_checksum w) in
      if (0 <? tx_revoke_count txn) && (entries_per_revoke =? 0) then Err BadFormat
      else if existsb (oversized bs) (tx_body_items txn) then Err BadFormat
      else if free_blocks w <?
        blocks_needed_for_format bs (tx_write_count txn) (tx_revoke_count txn) (jw_is_64bit w)
          (jw_has_checksum w) (jw_tag_format w)
      then Err NoSpace
      else Ok ().

(** ** Encoding *)

Definition encode_jbd2_header (buf : bytes) (block_type sequence : Z) : bytes :=
  let buf := put buf 0 (be_bytes 4 JBD2_MAGIC) in
  let buf := put buf 4 (be_bytes 4 block_type) in
  put buf 8 (be_bytes 4 sequence).

(** A write of a descriptor: target, escaped, and the block as journalled. *)
Record ChunkWrite := mkChunk { cw_target : Z; cw_escaped : bool; cw_padded : bytes }.

Definition chunk_write (bs target : Z) (payload : bytes) : ChunkWrite :=
  let copy_len := Z.min (zlen payload) bs in
  let escaped := (4 <=? zlen payload) && bool_decide (take 4 payload = be_bytes 4 JBD2_MAGIC) in
  let p :=
    if copy_len =? bs then take (Z.to_nat bs) payload
    else put (zeros bs) 0 (take (Z.to_nat copy_len) payload) in
  mkChunk target escaped (if escaped then put p 0 [0; 0; 0; 0] else p).

(** The writes of the next descriptor, at most [n], and the items after them. *)
Fixpoint take_writes (n : nat) (bs : Z) (items : list Jbd2TxnBodyItem) : list ChunkWrite * list Jbd2TxnBodyItem :=
  match n, items with
  | S n', ItemWrite target payload :: items' =>
      let (chunk, rest) := take_writes n' bs items' in (chunk_write bs target payload :: chunk, rest)
  | _, _ => ([], items)
  end.

Fixpoint take_revokes (n : nat) (items : list Jbd2TxnBodyItem) : list Z * list Jbd2TxnBodyItem :=
  match n, items with
  | S n', ItemRevoke target :: items' =>
      let (chunk, rest) := take_revokes n' items' in (target :: chunk, rest)
  | _, _ => ([], items)
  end.

Section writer.
Context `{Crc32cAppend}.

Definition tag_flags (escaped last : bool) : Z :=
  let flags := if last then JBD2_TAG_FLAG_LAST else 0 in
  let flags := if escaped then Z.lor flags JBD2_TAG_FLAG_ESCAPE else flags in
  Z.lor flags JBD2_TAG_FLAG_SAME_UUID.

(** One tag put at [off]. *)
Definition encode_tag (w : Jbd2Writer) (seq : Z) (desc : bytes) (off : Z) (c : ChunkWrite) (last : bool) :
    res JournalError bytes :=
  let flags := tag_flags (cw_escaped c) last in
  let size := tag_size (jw_tag_format w) (jw_is_64bit w) in
  let target := cw_target c in
  let target_low := Z.land target 0xFFFFFFFF in
  let target_high := Z.land (Z.shiftr target 32) 0xFFFFFFFF in
  let stamp desc :=
    tag ← stamp_jbd2_tag_data_checksum (take (Z.to_nat size) (drop (Z.to_nat off) desc)) (jw_tag_format w)
            (cw_padded c) seq (jw_csum_seed w);
    Ok (put desc off tag) in
  match jw_tag_format w with
  | CsumV3 =>
      let desc := put desc off (be_bytes 4 target_low) in
      let desc := put desc (off + JBD2_TAG_FLAGS_OFFSET_V3) (be_bytes 4 flags) in
      let desc := put desc (off + JBD2_TAG_HIGH_OFFSET_V3) (be_bytes 4 target_high) in
      stamp desc
  | Legacy | CsumV2 =>
      if jw_is_64bit w then
        let desc := put desc off (be_bytes 4 target_low) in
        if u16_max <? flags then Err BadFormat
        else
          let desc := put desc (off + JBD2_TAG_FLAGS_OFFSET_V1_V2) (be_bytes 2 flags) in
          let desc := put desc (off + 8) (be_bytes 4 target_high) in
          stamp desc
      else if u32_max <? target then Err BadFormat
      else
        let desc := put desc off (be_bytes 4 target) in
        if u16_max <? flags then Err BadFormat
        else
          let desc := put desc (off + JBD2_TAG_FLAGS_OFFSET_V1_V2) (be_bytes 2 flags) in
          stamp desc
  end.

Fixpoint encode_tags (w : Jbd2Writer) (seq : Z) (desc : bytes) (off : Z) (chunk : list ChunkWrite) :
    res JournalError bytes :=
  match chunk with
  | [] => Ok desc
  | c :: chunk' =>
      desc ← encode_tag w seq desc off c (match chunk' with [] => true | _ => false end);
      encode_tags w seq desc (off + tag_size (jw_tag_format w) (jw_is_64bit w)) chunk'
  end.

Definition stamp_tail (w : Jbd2Writer) (block : bytes) : res JournalError bytes :=
  if jw_has_checksum w then stamp_jbd2_tail_checksum block (jw_csum_seed w) else Ok block.

Definition encode_descriptor (w : Jbd2Writer) (bs seq : Z) (chunk : list ChunkWrite) : res JournalError bytes :=
  let desc := encode_jbd2_header (zeros bs) JBD2_BLOCKTYPE_DESCRIPTOR seq in
  desc ← encode_tags w seq desc JBD2_HEADER_SIZE chunk;
  stamp_tail w desc.

Fixpoint encode_revoke_entries (is_64bit : bool) (revoke : bytes) (off : Z) (chunk : list Z) :
    res JournalError bytes :=
  match chunk with
  | [] => Ok revoke
  | target :: chunk' =>
      if is_64bit then
        let revoke := put revoke off (be_bytes 4 (Z.land (Z.shiftr target 32) 0xFFFFFFFF)) in
        let revoke := put revoke (off + 4) (be_bytes 4 (Z.land target 0xFFFFFFFF)) in
        encode_revoke_entries is_64bit revoke (off + 8) chunk'
      else if u32_max <? target then Err BadFormat
      else encode_revoke_entries is_64bit (put revoke off (be_bytes 4 target)) (off + 4) chunk'
  end.

Definition encode_revoke (w : Jbd2Writer) (bs seq : Z) (chunk : list Z) : res JournalError bytes :=
  let revoke := encode_jbd2_header (zeros bs) JBD2_BLOCKTYPE_REVOKE seq in
  let r_count := JBD2_REVOKE_HEADER_SIZE + zlen chunk * revoke_entry_size (jw_is_64bit w) in
  if u32_max <? r_count then Err BadFormat
  else
    let revoke := put revoke 12 (be_bytes 4 r_count) in
    revoke ← encode_revoke_entries (jw_is_64bit w) revoke JBD2_REVOKE_HEADER_SIZE chunk;
    stamp_tail w revoke.

Definition encode_commit_block (w : Jbd2Writer) (bs seq : Z) : res JournalError bytes :=
  let commit := encode_jbd2_header (zeros bs) JBD2_BLOCKTYPE_COMMIT seq in
  if jw_has_checksum w then stamp_jbd2_commit_checksum commit (jw_csum_seed w) else Ok commit.

(** ** Committing *)

(** The block at [head] and the next head. *)
Definition alloc_block (w : Jbd2Writer) (head : Z) : res JournalError (Z * Z) :=
  if jw_total_blocks w <=? head then Err NoSpace
  else
    block ← resolve_segment_block (jw_segments w) head;
    Ok (block, saturating_add u64_max head 1).

Fixpoint alloc_blocks (w : Jbd2Writer) (n : nat) (head : Z) : res JournalError (list Z * Z) :=
  match n with
  | O => Ok ([], head)
  | S n' =>
      '(block, head) ← alloc_block w head;
      '(blocks, head) ← alloc_blocks w n' head;
      Ok (block :: blocks, head)
  end.

Definition physically_contiguous (desc_block : Z) (data_blocks : list Z) : bool :=
  forallb id (imap (λ i block,
    bool_decide ((d ← checked_add u64_max (Z.of_nat i) 1; checked_add u64_max desc_block d) = Some block)) data_blocks).

Fixpoint write_blocks (ws : list (Z * bytes)) : devM () :=
  match ws with
  | [] => mret ()
  | (block, data) :: ws' => _ ← write_block block data; write_blocks ws'
  end.

Definition assemble_jbd2_descriptor_data_run (descriptor : bytes) (chunk : list ChunkWrite) : bytes :=
  descriptor ++ concat (cw_padded <$> chunk).

Definition write_descriptor_run (desc_block : Z) (desc : bytes) (data_blocks : list Z) (chunk : list ChunkWrite) :
    devM () :=
  contiguous ← supports_contiguous_writes;
  if contiguous && physically_contiguous desc_block data_blocks
  then write_contiguous_blocks desc_block (assemble_jbd2_descriptor_data_run desc chunk)
  else
    _ ← write_block desc_block desc;
    write_blocks (zip data_blocks (cw_padded <$> chunk)).

(** The write phase: the head and counts after the body. *)
Fixpoint write_body (fuel : nat) (w : Jbd2Writer) (bs seq : Z) (items : list Jbd2TxnBodyItem) (head : Z)
    (stats : Jbd2WriteStats) : devM (Z * Jbd2WriteStats) :=
  match fuel, items with
  | O, _ | _, [] => mret (head, stats)
  | S fuel', ItemWrite _ _ :: _ =>
      let n := max_tags_per_descriptor_for_format bs (jw_is_64bit w) (jw_has_checksum w) (jw_tag_format w) in
      let (chunk, rest) := take_writes (Z.to_nat n) bs items in
      desc ← lift (encode_descriptor w bs seq chunk);
      '(desc_block, head) ← lift (alloc_block w head);
      '(data_blocks, head) ← lift (alloc_blocks w (length chunk) head);
      _ ← write_descriptor_run desc_block desc data_blocks chunk;
      write_body fuel' w bs seq rest head
        (mkWriteStats (bump (ws_descriptor_blocks stats))
           (saturating_add u64_max (ws_data_blocks stats) (zlen chunk)) (ws_revoke_blocks stats) (ws_commit_blocks stats))
  | S fuel', ItemRevoke _ :: _ =>
      let n := max_revoke_entries_with_checksum bs (jw_is_64bit w) (jw_has_checksum w) in
      let (chunk, rest) := take_revokes (Z.to_nat n) items in
      revoke ← lift (encode_revoke w bs seq chunk);
      '(rev_block, head) ← lift (alloc_block w head);
      _ ← write_block rev_block revoke;
      write_body fuel' w bs seq rest head
        (mkWriteStats (ws_descriptor_blocks stats) (ws_data_blocks stats) (bump (ws_revoke_blocks stats))
           (ws_commit_blocks stats))
  end.

Definition write_phase (w : Jbd2Writer) (bs seq : Z) (txn : Jbd2Transaction) : devM (Z * Jbd2WriteStats) :=
  '(head, stats) ← write_body (length (tx_body_items txn)) w bs seq (tx_body_items txn) (jw_head w)
                     (mkWriteStats 0 0 0 0);
  _ ← sync_device;
  commit ← lift (encode_commit_block w bs seq);
  '(commit_blk, head) ← lift (alloc_block w head);
  _ ← write_block commit_blk commit;
  mret (head, mkWriteStats (ws_descriptor_blocks stats) (ws_data_blocks stats) (ws_revoke_blocks stats)
                (bump (ws_commit_blocks stats))).

(** The writer with its sequence consumed: aborted, or with its new head. *)
Definition committed_writer (w : Jbd2Writer) (head : Z) (aborted : bool) : Jbd2Writer :=
  mkJwriter (jw_segments w) (jw_total_blocks w) head (jw_base_head w) (wrapping_add32 (jw_next_seq w) 1) aborted
    (jw_is_64bit w) (jw_tag_format w) (jw_has_checksum w) (jw_csum_seed w).

Definition commit_transaction (w : Jbd2Writer) (txn : Jbd2Transaction) (d : Device) :
    Device * Jbd2Writer * res JournalError (Z * Jbd2WriteStats) :=
  let bs := dev_block_size d in
  match preflight_transaction w bs txn with
  | Err e => (d, w, Err e)
  | Ok _ =>
      let seq := jw_next_seq w in
      match write_phase w bs seq txn d with
      | (d', Err e) => (d', committed_writer w (jw_head w) true, Err e)
      | (d', Ok (head, stats)) => (d', committed_writer w head false, Ok (seq, stats))
      end
  end.

(** ** The log tail in the superblock *)

Definition write_log_tail (w : Jbd2Writer) (start sequence : Z) : devM () :=
  if jw_base_head w =? 0 then fail BadFormat
  else
    sb_block ← lift (resolve_segment_block (jw_segments w) 0);
    raw ← read_block sb_block;
    sb ← lift (ok_or (parse_superblock raw) BadFormat);
    let raw := put raw JBD2_SB_SEQUENCE_OFFSET (be_bytes 4 sequence) in
    let raw := put raw JBD2_SB_START_OFFSET (be_bytes 4 start) in
    raw ← lift (if has_bits (jsb_feature_incompat sb)
                     (Z.lor JBD2_FEATURE_INCOMPAT_CSUM_V2 JBD2_FEATURE_INCOMPAT_CSUM_V3)
                then stamp_jbd2_superblock_checksum raw else Ok raw);
    write_block sb_block raw.

Definition mark_log_live (w : Jbd2Writer) : devM () :=
  if u32_max <? jw_head w then fail BadFormat else write_log_tail w (jw_head w) (jw_next_seq w).
Definition mark_log_empty (w : Jbd2Writer) : devM () := write_log_tail w 0 (jw_next_seq w).

(** ** Opening *)

(** [n] turns are left; every turn moves the index. *)
Fixpoint tail_scan_loop (n : nat) (region : JournalRegion) (is_64bit has_tail : bool) (format : Jbd2TagFormat)
    (idx : Z) (sequence : option Z) (saw_body : bool) : devM (option (Z * Z)) :=
  match n with
  | O => mret None
  | S n' =>
      if jr_blocks region <=? idx then mret None
      else
        block ← lift (resolve_region_block region idx);
        raw ← read_block block;
        match parse_header raw with
        | None => mret None
        | Some header =>
            if negb (jh_magic header =? JBD2_MAGIC) then mret None
            else
              let seq := default (jh_sequence header) sequence in
              if negb (jh_sequence header =? seq) then mret None
              else if jh_block_type header =? JBD2_BLOCKTYPE_DESCRIPTOR then
                match strict_descriptor_tag_count_with_format raw is_64bit has_tail format with
                | None => mret None
                | Some tag_count =>
                    advance ← lift (ok_or (checked_add u64_max 1 tag_count) BadFormat);
                    next_idx ← lift (ok_or (checked_add u64_max idx advance) BadFormat);
                    if jr_blocks region <? next_idx then mret None
                    else tail_scan_loop n' region is_64bit has_tail format next_idx (Some seq) true
                end
              else if jh_block_type header =? JBD2_BLOCKTYPE_REVOKE then
                match strict_revoke_entry_count raw is_64bit has_tail with
                | None => mret None
                | Some _ =>
                    tail_scan_loop n' region is_64bit has_tail format (saturating_add u64_max idx 1) (Some seq) true
                end
              else if (jh_block_type header =? JBD2_BLOCKTYPE_COMMIT) && saw_body then
                next_head ← lift (ok_or (checked_add u64_max idx 1) BadFormat);
                mret (Some (next_head, wrapping_add32 seq 1))
              else mret None
        end
  end.

(** The checksum tail and tag format of the region's superblock, if it can be read. *)
Definition region_format (region : JournalRegion) : devM (bool * Jbd2TagFormat) := λ d,
  (d, Ok (match resolve_region_block region 0 with
          | Ok first_abs =>
              match read_block first_abs d with
              | (_, Ok first_raw) =>
                  match parse_superblock first_raw with
                  | Some sb => (has_checksum sb, tag_format sb)
                  | None => (false, Legacy)
                  end
              | _ => (false, Legacy)
              end
          | Err _ => (false, Legacy)
          end)).

Definition scan_committed_tail_transaction (region : JournalRegion) (start_idx : Z) (is_64bit : bool) :
    devM (option (Z * Z)) :=
  '(has_tail, format) ← region_format region;
  tail_scan_loop (Z.to_nat (jr_blocks region)) region is_64bit has_tail format start_idx None false.

(** [n] transactions at most are left. *)
Fixpoint open_scan (n : nat) (region : JournalRegion) (start_seq : Z) (is_64bit : bool) (head max_seq : Z) :
    devM (Z * Z) :=
  match n with
  | O => mret (head, max_seq)
  | S n' =>
      if jr_blocks region <=? head then mret (head, max_seq)
      else
        block ← lift (resolve_region_block region head);
        _ ← read_block block;
        found ← scan_committed_tail_transaction region head is_64bit;
        match found with
        | None => mret (head, max_seq)
        | Some (next_head, next_seq) =>
            let max_seq :=
              if (max_seq =? start_seq) || journal_seq_is_newer_or_equal next_seq max_seq then next_seq else max_seq in
            open_scan n' region start_seq is_64bit next_head max_seq
        end
  end.

Definition open_writer (region : JournalRegion) (start_seq : Z) : devM Jbd2Writer :=
  let make head base_head next_seq is_64bit format has_checksum csum_seed :=
    mkJwriter [mkSegment (jr_start region) (jr_blocks region)] (jr_blocks region) head base_head next_seq false
      is_64bit format has_checksum csum_seed in
  if jr_blocks region =? 0 then mret (make 0 0 start_seq false Legacy false 0)
  else
    block ← lift (resolve_region_block region 0);
    raw ← read_block block;
    match parse_superblock raw with
    | Some sb =>
        '(head, next_seq) ← open_scan (Z.to_nat (jr_blocks region)) region start_seq (is_64bit sb) 1 start_seq;
        mret (make head 1 next_seq (is_64bit sb) (tag_format sb) (has_checksum sb) (csum_seed sb))
    | None =>
        '(head, next_seq) ← open_scan (Z.to_nat (jr_blocks region)) region start_seq false 0 start_seq;
        mret (make head 0 next_seq false Legacy false 0)
    end.

Definition open_segmented (segments : list JournalSegment) (start_seq : Z) : devM Jbd2Writer :=
  let total_blocks := sum_blocks segments in
  if total_blocks =? 0 then fail BadFormat
  else
    first ← lift (resolve_segment_block segments 0);
    raw ← read_block first;
    match parse_superblock raw with
    | Some sb =>
        mret (mkJwriter segments total_blocks 1 1 start_seq false (is_64bit sb) (tag_format sb) (has_checksum sb)
                (csum_seed sb))
    | None => mret (mkJwriter segments total_blocks 0 0 start_seq false false Legacy false 0)
    end.
End writer.
