(* ===== verification/Jbd2Codec.v ===== *)
(** * The JBD2 codecs

    What the writer encodes, the replay engine reads back: headers, descriptor
    tags in every format, revoke entries and all checksums.  The two strict
    parsers agree with each other, and so do the two revoke decoders. *)

From stdpp Require Import base sorting numbers gmap list.
From S2P Require Import Prelude Sorted Wal WalReplay WalWriter Journal Jbd2 Jbd2Replay Jbd2Writer.

Local Open Scope Z_scope.

#[local] Opaque be_bytes zeros.

(** ** Buffers *)

Lemma put_local pre mid post off k src : zlen pre = off → 0 <= k → k + zlen src <= zlen mid →
  put (pre ++ mid ++ post) (off + k) src = pre ++ put mid k src ++ post.
Proof.
  intros <- Hk Hl. unfold put, zlen in *.
  replace (Z.to_nat (Z.of_nat (length pre) + k)) with (length pre + Z.to_nat k)%nat by lia.
  rewrite take_app_add. rewrite take_app_le by lia. rewrite <-!app_assoc. do 3 f_equal.
  rewrite <-Nat.add_assoc, drop_app_add, drop_app_le by lia. done.
Qed.

Lemma put_local0 pre mid post off src : zlen pre = off → zlen src <= zlen mid →
  put (pre ++ mid ++ post) off src = pre ++ put mid 0 src ++ post.
Proof. intros Ho Hl. rewrite <-(Z.add_0_r off). by apply put_local. Qed.

Lemma put_whole b off src : off = 0 → zlen src = zlen b → put b off src = src.
Proof.
  intros -> Hs. unfold put, zlen in *. rewrite drop_ge by lia. simpl. apply app_nil_r.
Qed.

Lemma zlen_put buf off src : 0 <= off → off + zlen src <= zlen buf → zlen (put buf off src) = zlen buf.
Proof. apply put_length. Qed.

Lemma put_skip a b off src : zlen a <= off → put (a ++ b) off src = a ++ put b (off - zlen a) src.
Proof.
  intros Ho. unfold put, zlen in *.
  replace (Z.to_nat off) with (length a + Z.to_nat (off - Z.of_nat (length a)))%nat by lia.
  rewrite take_app_add, <-app_assoc, <-Nat.add_assoc, drop_app_add. done.
Qed.

Lemma put_head b c off src : off = 0 → zlen src = zlen b → put (b ++ c) off src = src ++ c.
Proof. intros -> Hs. apply (put_app [] b c src 0); [done|]. by apply zlen_inj. Qed.

(** A field replaced in a zeroed buffer of known layout. *)
Lemma put_field a b c src off : zlen a = off → zlen src = zlen b → put (a ++ b ++ c) off src = a ++ src ++ c.
Proof. intros Ho Hs. apply put_app; [done|]. by apply zlen_inj. Qed.

(** ** Words *)

Lemma read_be_u32_app pre x post off : zlen pre = off → 0 <= x <= u32_max →
  zlen (pre ++ be_bytes 4 x ++ post) <= usize_max → read_be_u32 (pre ++ be_bytes 4 x ++ post) off = Some x.
Proof.
  intros Ho Hx Hb. unfold read_be_u32. rewrite field_app by (done || apply be_bytes_length). simpl.
  rewrite be_value_bytes; [done|]. unfold u32_max in Hx. lia.
Qed.

Lemma read_be_u16_app pre x post off : zlen pre = off → 0 <= x <= u16_max →
  zlen (pre ++ be_bytes 2 x ++ post) <= usize_max → read_be_u16 (pre ++ be_bytes 2 x ++ post) off = Some x.
Proof.
  intros Ho Hx Hb. unfold read_be_u16. rewrite field_app by (done || apply be_bytes_length). simpl.
  rewrite be_value_bytes; [done|]. unfold u16_max in Hx. lia.
Qed.

Lemma read_be_u32_head x post : 0 <= x <= u32_max → zlen (be_bytes 4 x ++ post) <= usize_max →
  read_be_u32 (be_bytes 4 x ++ post) 0 = Some x.
Proof. intros Hx Hb. by apply (read_be_u32_app [] x post 0). Qed.

Lemma land_u32 t : Z.land t 0xFFFFFFFF = t mod 2 ^ 32.
Proof. change 0xFFFFFFFF with (Z.ones 32). by rewrite Z.land_ones. Qed.

Lemma land_u32_bound t : 0 <= Z.land t 0xFFFFFFFF <= u32_max.
Proof. rewrite land_u32. unfold u32_max. pose proof (Z.mod_pos_bound t (2 ^ 32)). lia. Qed.

Lemma join_words t : 0 <= t <= u64_max →
  Z.lor (Z.land t 0xFFFFFFFF) (Z.shiftl (Z.land (Z.shiftr t 32) 0xFFFFFFFF) 32) = t.
Proof.
  intros Ht. change 0xFFFFFFFF with (Z.ones 32). apply Z.bits_inj'. intros i Hi.
  rewrite Z.lor_spec, Z.land_spec, Z.shiftl_spec by done.
  destruct (decide (i < 32)).
  - rewrite Z.ones_spec_low, andb_true_r by lia. rewrite (Z.testbit_neg_r _ (i - 32)) by lia. by rewrite orb_false_r.
  - rewrite Z.ones_spec_high, andb_false_r by lia. simpl.
    rewrite Z.land_spec, Z.shiftr_spec by lia. replace (i - 32 + 32) with i by lia.
    destruct (decide (i < 64)); [by rewrite Z.ones_spec_low, andb_true_r by lia|].
    rewrite Z.ones_spec_high, andb_false_r by lia. symmetry.
    destruct (decide (t = 0)) as [->|]; [apply Z.testbit_0_l|]. apply Z.bits_above_log2; [lia|].
    assert (Z.log2 t < 64); [|lia]. apply Z.log2_lt_pow2; [lia|]. unfold u64_max in Ht. lia.
Qed.

Lemma not32_u32 x : 0 <= x <= u32_max → 0 <= not32 x <= u32_max.
Proof. intros Hx. apply lxor_u32; [done|]. by vm_compute. Qed.

(** ** Headers *)

Definition header_bytes (ty seq : Z) : bytes := be_bytes 4 JBD2_MAGIC ++ be_bytes 4 ty ++ be_bytes 4 seq.

Lemma zlen_header_bytes ty seq : zlen (header_bytes ty seq) = JBD2_HEADER_SIZE.
Proof. unfold header_bytes, JBD2_HEADER_SIZE. autorewrite with zlen. lia. Qed.
#[export] Hint Rewrite zlen_header_bytes : zlen.

Lemma encode_header_zeros bs ty seq : JBD2_HEADER_SIZE <= bs →
  encode_jbd2_header (zeros bs) ty seq = header_bytes ty seq ++ zeros (bs - JBD2_HEADER_SIZE).
Proof.
  unfold JBD2_HEADER_SIZE. intros Hbs. unfold encode_jbd2_header, header_bytes.
  change (zeros bs) with ([] ++ zeros bs). rewrite !put_zeros by (autorewrite with zlen; lia).
  autorewrite with zlen. rewrite app_nil_l, <-!app_assoc. repeat apply (f_equal2 app); try done. f_equal. lia.
Qed.

Lemma parse_header_bytes ty seq rest : 0 <= ty <= u32_max → 0 <= seq <= u32_max →
  zlen (header_bytes ty seq ++ rest) <= usize_max →
  parse_header (header_bytes ty seq ++ rest) = Some (mkHeader JBD2_MAGIC ty seq).
Proof.
  intros Hty Hseq Hl. unfold parse_header, header_bytes in *. rewrite <-!app_assoc in *.
  rewrite read_be_u32_head by done. simpl.
  rewrite (read_be_u32_app (be_bytes 4 JBD2_MAGIC) ty _ 4) by (done || by autorewrite with zlen). simpl.
  rewrite (app_assoc (be_bytes 4 JBD2_MAGIC)) in *.
  rewrite (read_be_u32_app _ seq _ 8) by (done || by autorewrite with zlen). done.
Qed.

(** ** Tags *)

Lemma tag_size_pos f b : 8 <= tag_size f b <= 16.
Proof. destruct f, b; by vm_compute. Qed.

Lemma tag_flags_facts esc lst :
  0 <= tag_flags esc lst <= u16_max ∧ has_bits (tag_flags esc lst) JBD2_TAG_FLAG_LAST = lst ∧
  has_bits (tag_flags esc lst) JBD2_TAG_FLAG_ESCAPE = esc ∧
  has_bits (tag_flags esc lst) JBD2_TAG_FLAG_SAME_UUID = true.
Proof. destruct esc, lst; by vm_compute. Qed.

Section tags.
Context `{Crc32cAppend}.
Context (w : Jbd2Writer) (seq : Z).
Hypothesis seed_u32 : 0 <= jw_csum_seed w <= u32_max.

(** Block numbers a tag or a revoke entry can hold. *)
Definition wide (w : Jbd2Writer) : bool := jw_is_64bit w || bool_decide (jw_tag_format w = CsumV3).
Definition target_ok (is_wide : bool) (target : Z) : Prop :=
  0 <= target <= if is_wide then u64_max else u32_max.

Definition data_csum (c : ChunkWrite) : Z := checksum_jbd2_data_block (cw_padded c) seq (jw_csum_seed w).

Lemma data_csum_u32 c : 0 <= data_csum c <= u32_max.
Proof. apply not32_u32, crc32c_append_u32, crc32c_append_u32, not32_u32, seed_u32. Qed.

Definition tag_bytes (c : ChunkWrite) (lst : bool) : bytes :=
  let flags := tag_flags (cw_escaped c) lst in
  let low := Z.land (cw_target c) 0xFFFFFFFF in
  let high := Z.land (Z.shiftr (cw_target c) 32) 0xFFFFFFFF in
  let short_csum := be_bytes 2 (match jw_tag_format w with CsumV2 => Z.land (data_csum c) 0xFFFF | _ => 0 end) in
  match jw_tag_format w with
  | CsumV3 => be_bytes 4 low ++ be_bytes 4 flags ++ be_bytes 4 high ++ be_bytes 4 (data_csum c)
  | _ =>
      if jw_is_64bit w then be_bytes 4 low ++ short_csum ++ be_bytes 2 flags ++ be_bytes 4 high
      else be_bytes 4 (cw_target c) ++ short_csum ++ be_bytes 2 flags
  end.

Definition decoded_tag (c : ChunkWrite) (lst : bool) : DescriptorTag :=
  mkTag (cw_target c) (tag_flags (cw_escaped c) lst)
    (match jw_tag_format w with
     | Legacy => None
     | CsumV2 => Some (Z.land (data_csum c) 0xFFFF)
     | CsumV3 => Some (data_csum c)
     end).

Lemma zlen_tag_bytes c lst : zlen (tag_bytes c lst) = tag_size (jw_tag_format w) (jw_is_64bit w).
Proof. unfold tag_bytes. destruct (jw_tag_format w), (jw_is_64bit w); autorewrite with zlen; done. Qed.

(** The tag at the front of a buffer. *)
Lemma take_drop_tag (pre mid post : bytes) off size : zlen pre = off → zlen mid = size →
  take (Z.to_nat size) (drop (Z.to_nat off) (pre ++ mid ++ post)) = mid.
Proof.
  intros <- <-. unfold zlen. rewrite !Nat2Z.id, drop_app_length. apply take_app_length.
Qed.

(** Puts at increasing places, after the common prefix. *)
Lemma put_at pre b off k src : zlen pre = off → 0 <= k → put (pre ++ b) (off + k) src = pre ++ put b k src.
Proof. intros Ho Hk. rewrite put_skip by lia. do 2 f_equal. lia. Qed.

Lemma put_at0 pre b off src : zlen pre = off → put (pre ++ b) off src = pre ++ put b 0 src.
Proof. intros Ho. rewrite put_skip by lia. do 2 f_equal. lia. Qed.

Ltac len := rewrite ?zlen_be_bytes; lia.
Ltac fields := repeat first [rewrite put_head by len | rewrite put_skip by len | rewrite put_whole by len].

Lemma layout_v3 pre off m a b c : zlen pre = off → zlen a = 4 → zlen b = 4 → zlen c = 4 → 0 <= m →
  put (put (put (pre ++ zeros (16 + m)) off a) (off + 4) b) (off + 8) c =
    pre ++ (a ++ b ++ c ++ be_bytes 4 0) ++ zeros m.
Proof.
  intros Ho Ha Hb Hc Hm. rewrite zeros_split by lia.
  change (zeros 16) with (be_bytes 4 0 ++ be_bytes 4 0 ++ be_bytes 4 0 ++ be_bytes 4 0).
  rewrite <-!app_assoc. fields. done.
Qed.

Lemma layout_64 pre off m a b c : zlen pre = off → zlen a = 4 → zlen b = 2 → zlen c = 4 → 0 <= m →
  put (put (put (pre ++ zeros (12 + m)) off a) (off + 6) b) (off + 8) c =
    pre ++ (a ++ be_bytes 2 0 ++ b ++ c) ++ zeros m.
Proof.
  intros Ho Ha Hb Hc Hm. rewrite zeros_split by lia.
  change (zeros 12) with (be_bytes 4 0 ++ be_bytes 2 0 ++ be_bytes 2 0 ++ be_bytes 4 0).
  rewrite <-!app_assoc. fields. done.
Qed.

Lemma layout_32 pre off m a b : zlen pre = off → zlen a = 4 → zlen b = 2 → 0 <= m →
  put (put (pre ++ zeros (8 + m)) off a) (off + 6) b = pre ++ (a ++ be_bytes 2 0 ++ b) ++ zeros m.
Proof.
  intros Ho Ha Hb Hm. rewrite zeros_split by lia.
  change (zeros 8) with (be_bytes 4 0 ++ be_bytes 2 0 ++ be_bytes 2 0).
  rewrite <-!app_assoc. fields. done.
Qed.

Lemma encode_tag_spec pre n off c lst : zlen pre = off → target_ok (wide w) (cw_target c) →
  tag_size (jw_tag_format w) (jw_is_64bit w) <= n →
  encode_tag w seq (pre ++ zeros n) off c lst =
    Ok (pre ++ tag_bytes c lst ++ zeros (n - tag_size (jw_tag_format w) (jw_is_64bit w))).
Proof.
  intros Ho Ht Hn. pose proof (tag_flags_facts (cw_escaped c) lst) as (Hf&_).
  set (size := tag_size (jw_tag_format w) (jw_is_64bit w)) in *.
  replace n with (size + (n - size)) at 1 by lia. unfold encode_tag, tag_bytes, wide, target_ok in *. fold size.
  destruct (jw_tag_format w) eqn:Ef, (jw_is_64bit w) eqn:Eb; simpl in *; subst size;
    rewrite ?(proj2 (Z.ltb_ge u16_max _)), ?(proj2 (Z.ltb_ge u32_max _)) by lia;
    unfold JBD2_TAG_SIZE_64, JBD2_TAG_SIZE_32, JBD2_TAG_SIZE_CSUM_V2_64, JBD2_TAG_SIZE_CSUM_V2_32,
      JBD2_TAG_SIZE_CSUM_V3, JBD2_TAG_FLAGS_OFFSET_V1_V2, JBD2_TAG_FLAGS_OFFSET_V3, JBD2_TAG_HIGH_OFFSET_V3 in *;
    rewrite ?layout_v3, ?layout_64, ?layout_32 by (rewrite ?zlen_be_bytes; lia || done);
    rewrite take_drop_tag by (autorewrite with zlen; done);
    unfold stamp_jbd2_tag_data_checksum, JBD2_TAG_CHECKSUM_OFFSET_V1_V2, JBD2_TAG_CHECKSUM_OFFSET_V3,
      JBD2_CHECKSUM_TAIL_SIZE;
    rewrite ?(proj2 (Z.ltb_ge (zlen _) _)) by (autorewrite with zlen; lia); simpl; f_equal;
    rewrite put_field by (done || (rewrite ?zlen_put by (autorewrite with zlen; lia); autorewrite with zlen; lia));
    fields; rewrite <-?app_assoc; done.
Qed.

(** What a descriptor holds after its header. *)
Fixpoint tags_bytes (chunk : list ChunkWrite) : bytes :=
  match chunk with
  | [] => []
  | c :: chunk' => tag_bytes c (match chunk' with [] => true | _ => false end) ++ tags_bytes chunk'
  end.
Fixpoint decoded_tags (chunk : list ChunkWrite) : list DescriptorTag :=
  match chunk with
  | [] => []
  | c :: chunk' => decoded_tag c (match chunk' with [] => true | _ => false end) :: decoded_tags chunk'
  end.

Lemma zlen_tags_bytes chunk :
  zlen (tags_bytes chunk) = zlen chunk * tag_size (jw_tag_format w) (jw_is_64bit w).
Proof.
  induction chunk as [|c chunk IH]; [done|]. simpl. rewrite zlen_app, IH, zlen_tag_bytes, zlen_cons. lia.
Qed.

Lemma encode_tags_spec chunk pre n off : zlen pre = off → Forall (λ c, target_ok (wide w) (cw_target c)) chunk →
  zlen (tags_bytes chunk) <= n →
  encode_tags w seq (pre ++ zeros n) off chunk = Ok (pre ++ tags_bytes chunk ++ zeros (n - zlen (tags_bytes chunk))).
Proof.
  revert pre n off. induction chunk as [|c chunk IH]; intros pre n off Ho Hc Hn; simpl.
  - do 3 f_equal. rewrite zlen_nil. lia.
  - apply Forall_cons in Hc as [Hc Hcs]. simpl in Hn. rewrite zlen_app, zlen_tag_bytes in Hn.
    pose proof (zlen_nonneg (tags_bytes chunk)).
    rewrite encode_tag_spec by (done || lia). simpl. rewrite app_assoc, IH.
    + rewrite zlen_app, zlen_tag_bytes, <-!app_assoc. do 5 f_equal. lia.
    + by rewrite zlen_app, zlen_tag_bytes, Ho.
    + done.
    + lia.
Qed.

Lemma field_at n pre rest off k : zlen pre = off → 0 <= k → zlen (pre ++ rest) <= usize_max →
  field n (pre ++ rest) (off + k) = field n rest k.
Proof. intros Ho Hk Hl. rewrite field_skip by lia. f_equal. lia. Qed.

Lemma field_at0 n pre rest off : zlen pre = off → zlen (pre ++ rest) <= usize_max →
  field n (pre ++ rest) off = field n rest 0.
Proof. intros Ho Hl. rewrite <-(field_at n pre rest off 0) by done. by rewrite Z.add_0_r. Qed.

Lemma field_first n a rest off : off = 0 → length a = n → zlen (a ++ rest) <= usize_max →
  field n (a ++ rest) off = Some a.
Proof. intros ->. apply field_head. Qed.

(** Reads the big-endian fields of a known layout. *)
Ltac read_fields :=
  repeat first [rewrite field_first by (rewrite ?be_bytes_length, ?zlen_be_bytes; autorewrite with zlen in *; done || lia)
               |rewrite field_skip by (autorewrite with zlen in *; lia)];
  simpl; rewrite ?be_value_bytes by lia.

Lemma read_tag_flags pre c lst post off : zlen pre = off → zlen (pre ++ tag_bytes c lst ++ post) <= usize_max →
  read_descriptor_tag_flags_and_checksum (pre ++ tag_bytes c lst ++ post) off (jw_tag_format w) =
    Some (dt_flags (decoded_tag c lst), dt_data_checksum (decoded_tag c lst)).
Proof.
  intros Ho Hl. pose proof (tag_flags_facts (cw_escaped c) lst) as (Hf&_). pose proof (data_csum_u32 c) as Hcs.
  assert (0 <= Z.land (data_csum c) 0xFFFF <= u16_max) as Hcs'.
  { change 0xFFFF with (Z.ones 16). rewrite Z.land_ones by done. unfold u16_max.
    pose proof (Z.mod_pos_bound (data_csum c) (2 ^ 16)). lia. }
  unfold u16_max, u32_max in *. pose proof (zlen_nonneg pre). pose proof (zlen_nonneg post).
  pose proof (tag_size_pos (jw_tag_format w) (jw_is_64bit w)).
  assert (off + 16 <= usize_max ∨ off + tag_size (jw_tag_format w) (jw_is_64bit w) <= usize_max) as Hu.
  { rewrite !zlen_app, zlen_tag_bytes in Hl. lia. }
  unfold read_descriptor_tag_flags_and_checksum, decoded_tag, checked_add, read_be_u16, read_be_u32,
    JBD2_TAG_FLAGS_OFFSET_V1_V2, JBD2_TAG_CHECKSUM_OFFSET_V1_V2, JBD2_TAG_FLAGS_OFFSET_V3,
    JBD2_TAG_CHECKSUM_OFFSET_V3 in *.
  destruct (jw_tag_format w) eqn:Ef; simpl;
    rewrite ?(proj2 (Z.leb_le _ _))
      by (destruct (jw_is_64bit w); simpl in *;
          unfold JBD2_TAG_SIZE_64, JBD2_TAG_SIZE_32, JBD2_TAG_SIZE_CSUM_V2_64, JBD2_TAG_SIZE_CSUM_V2_32,
            JBD2_TAG_SIZE_CSUM_V3 in *; lia); simpl; rewrite ?field_at by (done || lia);
    unfold tag_bytes in *; rewrite Ef in *; destruct (jw_is_64bit w); simpl; rewrite <-!app_assoc in *;
    read_fields; done.
Qed.

Lemma read_tag_target pre c lst post off : zlen pre = off → target_ok (wide w) (cw_target c) →
  zlen (pre ++ tag_bytes c lst ++ post) <= usize_max →
  ∃ low, read_be_u32 (pre ++ tag_bytes c lst ++ post) off = Some low ∧
    tag_target (pre ++ tag_bytes c lst ++ post) off low (jw_tag_format w) (jw_is_64bit w) = cw_target c.
Proof.
  intros Ho Ht Hl. pose proof (land_u32_bound (cw_target c)). pose proof (land_u32_bound (Z.shiftr (cw_target c) 32)).
  unfold u32_max in *. pose proof (zlen_nonneg pre). pose proof (zlen_nonneg post).
  assert (off + tag_size (jw_tag_format w) (jw_is_64bit w) <= usize_max) as Hu
    by (rewrite !zlen_app, zlen_tag_bytes in Hl; lia).
  unfold tag_target, high_offset, read_be_u32, saturating_add, target_ok, wide in *. rewrite field_at0 by done.
  unfold tag_bytes in *.
  destruct (jw_tag_format w) eqn:Ef, (jw_is_64bit w) eqn:Eb; simpl in *; rewrite <-!app_assoc in *;
    unfold JBD2_TAG_SIZE_64, JBD2_TAG_SIZE_32, JBD2_TAG_SIZE_CSUM_V2_64, JBD2_TAG_SIZE_CSUM_V2_32,
      JBD2_TAG_SIZE_CSUM_V3, JBD2_TAG_HIGH_OFFSET_V3, u32_max in *;
    rewrite ?Z.min_l by lia; rewrite ?field_at by (done || lia); read_fields;
    eexists; (split; [reflexivity|]); rewrite ?join_words by done; done.
Qed.

Lemma parse_tag_step fuel pre c lst post off limit tags : zlen pre = off → target_ok (wide w) (cw_target c) →
  zlen (pre ++ tag_bytes c lst ++ post) <= usize_max →
  off + tag_size (jw_tag_format w) (jw_is_64bit w) <= limit → limit <= usize_max →
  parse_tags_strict_loop (S fuel) (pre ++ tag_bytes c lst ++ post) (jw_is_64bit w) (jw_tag_format w) limit off tags =
    if lst then Some (tags ++ [decoded_tag c lst])
    else parse_tags_strict_loop fuel (pre ++ tag_bytes c lst ++ post) (jw_is_64bit w) (jw_tag_format w) limit
           (off + tag_size (jw_tag_format w) (jw_is_64bit w)) (tags ++ [decoded_tag c lst]).
Proof.
  intros Ho Ht Hl Hlim Hu. cbn [parse_tags_strict_loop].
  pose proof (tag_flags_facts (cw_escaped c) lst) as (_&Hlast&_&Huuid).
  rewrite checked_add_ok by lia. simpl.
  rewrite (proj2 (Z.ltb_ge limit _)) by lia. rewrite read_tag_flags by done. simpl.
  unfold descriptor_tag_record_size. rewrite Huuid. simpl.
  rewrite checked_add_ok by lia. simpl. rewrite (proj2 (Z.ltb_ge limit _)) by lia.
  destruct (read_tag_target pre c lst post off Ho Ht Hl) as (low&->&Htgt). simpl. rewrite Htgt.
  unfold is_last. simpl. by rewrite Hlast.
Qed.

Lemma parse_tags_spec chunk fuel pre post off limit tags : chunk ≠ [] → zlen pre = off →
  Forall (λ c, target_ok (wide w) (cw_target c)) chunk → (length chunk <= fuel)%nat →
  zlen (pre ++ tags_bytes chunk ++ post) <= usize_max → off + zlen (tags_bytes chunk) <= limit → limit <= usize_max →
  parse_tags_strict_loop fuel (pre ++ tags_bytes chunk ++ post) (jw_is_64bit w) (jw_tag_format w) limit off tags =
    Some (tags ++ decoded_tags chunk).
Proof.
  revert fuel pre off tags. induction chunk as [|c chunk IH]; intros fuel pre off tags Hne Ho Hc Hf Hl Hlim Hu; [done|].
  apply Forall_cons in Hc as [Hc Hcs]. destruct fuel as [|fuel]; [simpl in Hf; lia|].
  cbn [tags_bytes decoded_tags] in *. rewrite <-app_assoc in *.
  rewrite zlen_app, zlen_tag_bytes in Hlim. pose proof (zlen_nonneg (tags_bytes chunk)).
  rewrite parse_tag_step by (done || lia). destruct chunk as [|c' chunk].
  { done. }
  rewrite (app_assoc pre) in *. rewrite IH; try done.
  - by rewrite <-app_assoc.
  - by rewrite zlen_app, zlen_tag_bytes, Ho.
  - simpl in *. lia.
  - lia.
Qed.
End tags.

(** ** Sealed blocks *)

Lemma limit_room (hc : bool) bs : tail_bytes hc <= bs →
  (if hc then saturating_sub bs 4 else bs) = bs - tail_bytes hc ∧ 0 <= tail_bytes hc.
Proof. unfold tail_bytes, saturating_sub, JBD2_CHECKSUM_TAIL_SIZE. destruct hc; lia. Qed.

Section sealed.
Context `{Crc32cAppend}.

Definition tail_csum (seed : Z) (body : bytes) : Z :=
  not32 (crc32c_append (crc32c_append (not32 seed) body) JBD2_ZERO_CHECKSUM_FIELD).

(** A descriptor or revoke block with the contents [body]. *)
Definition sealed_block (w : Jbd2Writer) (bs : Z) (body : bytes) : bytes :=
  if jw_has_checksum w then
    let b := body ++ zeros (bs - 4 - zlen body) in b ++ be_bytes 4 (tail_csum (jw_csum_seed w) b)
  else body ++ zeros (bs - zlen body).

Lemma tail_zeroed_csum b tail seed : zlen tail = 4 →
  checksum_jbd2_tail_zeroed_block (b ++ tail) seed = Some (tail_csum seed b).
Proof.
  intros Ht. unfold checksum_jbd2_tail_zeroed_block, JBD2_CHECKSUM_TAIL_SIZE. pose proof (zlen_nonneg b).
  rewrite zlen_app, Ht. rewrite (proj2 (Z.ltb_ge _ _)) by lia.
  replace (Z.to_nat (zlen b + 4 - 4)) with (length b) by (unfold zlen; lia). by rewrite take_app_length.
Qed.

Lemma stamp_tail_sealed w bs body : zlen body + tail_bytes (jw_has_checksum w) <= bs →
  stamp_tail w (body ++ zeros (bs - zlen body)) = Ok (sealed_block w bs body).
Proof.
  intros Hl. unfold stamp_tail, sealed_block, tail_bytes, JBD2_CHECKSUM_TAIL_SIZE in *.
  destruct (jw_has_checksum w); [|done].
  replace (bs - zlen body) with (bs - 4 - zlen body + 4) by lia. rewrite zeros_split by lia.
  rewrite app_assoc. set (b := body ++ zeros (bs - 4 - zlen body)).
  unfold stamp_jbd2_tail_checksum. rewrite tail_zeroed_csum by done. simpl.
  rewrite <-(app_nil_r (b ++ zeros 4)), <-app_assoc. rewrite put_field; [by rewrite app_nil_r| |done].
  rewrite app_nil_r, zlen_app. unfold JBD2_CHECKSUM_TAIL_SIZE. change (zlen (zeros 4)) with 4. lia.
Qed.

Lemma sealed_shape w bs body : zlen body + tail_bytes (jw_has_checksum w) <= bs →
  zlen (sealed_block w bs body) = bs ∧ ∃ post, sealed_block w bs body = body ++ post.
Proof.
  intros Hl. unfold sealed_block, tail_bytes, JBD2_CHECKSUM_TAIL_SIZE in *. destruct (jw_has_checksum w).
  - split; [|rewrite <-app_assoc; eauto]. autorewrite with zlen. rewrite zlen_zeros by lia. lia.
  - split; [|eauto]. autorewrite with zlen. rewrite zlen_zeros by lia. lia.
Qed.

(** The superblock of a journal a writer was opened on. *)
Record sb_matches (w : Jbd2Writer) (sb : Jbd2Superblock) : Prop := {
  sbm_64bit : is_64bit sb = jw_is_64bit w;
  sbm_format : tag_format sb = jw_tag_format w;
  sbm_checksum : has_checksum sb = jw_has_checksum w;
  sbm_seed : csum_seed sb = jw_csum_seed w;
}.

Lemma tail_csum_u32 seed b : 0 <= seed <= u32_max → 0 <= tail_csum seed b <= u32_max.
Proof. intros Hs. by apply not32_u32, crc32c_append_u32, crc32c_append_u32, not32_u32. Qed.

Lemma verify_sealed w sb bs body ty seq : sb_matches w sb → 0 <= jw_csum_seed w <= u32_max → bs <= usize_max →
  zlen body + tail_bytes (jw_has_checksum w) <= bs →
  parse_header (sealed_block w bs body) = Some (mkHeader JBD2_MAGIC ty seq) →
  ty = JBD2_BLOCKTYPE_DESCRIPTOR ∨ ty = JBD2_BLOCKTYPE_REVOKE →
  verify_jbd2_block_checksum (sealed_block w bs body) sb = true.
Proof.
  intros Hm Hs Hu Hl Hh Hty. unfold verify_jbd2_block_checksum. rewrite (sbm_checksum _ _ Hm).
  pose proof (sealed_shape w bs body Hl) as [Hlen _].
  destruct (jw_has_checksum w) eqn:Ec; [|done]. simpl. rewrite Hh. simpl.
  assert ((ty =? JBD2_BLOCKTYPE_DESCRIPTOR) || (ty =? JBD2_BLOCKTYPE_REVOKE) = true) as -> by (by destruct Hty as [->| ->]).
  rewrite Hlen. unfold sealed_block in *. rewrite Ec in *. unfold tail_bytes, JBD2_CHECKSUM_TAIL_SIZE in *.
  set (b := body ++ zeros (bs - 4 - zlen body)) in *. pose proof (zlen_nonneg body).
  rewrite (proj2 (Z.ltb_ge _ _)) by lia. rewrite tail_zeroed_csum by (by rewrite zlen_be_bytes). simpl.
  rewrite (sbm_seed _ _ Hm). autorewrite with zlen in Hlen.
  assert (read_be_u32 (b ++ be_bytes 4 (tail_csum (jw_csum_seed w) b)) (bs - 4) =
    Some (tail_csum (jw_csum_seed w) b)) as ->.
  { rewrite <-(app_nil_r (be_bytes 4 _)). apply read_be_u32_app; [lia|by apply tail_csum_u32|].
    autorewrite with zlen. lia. }
  simpl. apply Z.eqb_refl.
Qed.
End sealed.

(** ** Descriptors *)

Section descriptor.
Context `{Crc32cAppend}.
Context (w : Jbd2Writer) (sb : Jbd2Superblock) (bs seq : Z).
Hypothesis Hmatch : sb_matches w sb.
Hypothesis Hseed : 0 <= jw_csum_seed w <= u32_max.
Hypothesis Hbs : bs <= u32_max.
Hypothesis Hseq : 0 <= seq <= u32_max.

(** What the scan needs to know of a header block. *)
Record header_block (b : bytes) (ty : Z) : Prop := {
  hb_length : zlen b = bs;
  hb_header : parse_header b = Some (mkHeader JBD2_MAGIC ty seq);
  hb_verified : verify_jbd2_block_checksum b sb = true;
}.

Lemma sealed_header_block body ty rest : body = header_bytes ty seq ++ rest →
  zlen body + tail_bytes (jw_has_checksum w) <= bs →
  ty = JBD2_BLOCKTYPE_DESCRIPTOR ∨ ty = JBD2_BLOCKTYPE_REVOKE →
  header_block (sealed_block w bs body) ty.
Proof.
  intros -> Hl Hty. destruct (sealed_shape w bs _ Hl) as [Hlen [post Hp]].
  assert (parse_header (sealed_block w bs (header_bytes ty seq ++ rest)) = Some (mkHeader JBD2_MAGIC ty seq)) as Hh.
  { rewrite Hp, <-app_assoc in *. apply parse_header_bytes; [by destruct Hty as [->| ->]|done|].
    rewrite Hlen. unfold usize_max, u64_max, u32_max in *. lia. }
  split; [done|done|]. eapply verify_sealed; try done. unfold usize_max, u64_max, u32_max in *. lia.
Qed.

Definition chunk_ok (chunk : list ChunkWrite) : Prop :=
  chunk ≠ [] ∧ Forall (λ c, target_ok (wide w) (cw_target c)) chunk ∧
  zlen chunk <= max_tags_per_descriptor_for_format bs (jw_is_64bit w) (jw_has_checksum w) (jw_tag_format w).

Lemma chunk_fits chunk : chunk_ok chunk →
  JBD2_HEADER_SIZE + zlen chunk * tag_size (jw_tag_format w) (jw_is_64bit w) + tail_bytes (jw_has_checksum w) <= bs.
Proof.
  intros (Hne&_&Hn). unfold max_tags_per_descriptor_for_format, saturating_sub in Hn.
  pose proof (tag_size_pos (jw_tag_format w) (jw_is_64bit w)).
  set (size := tag_size (jw_tag_format w) (jw_is_64bit w)) in *.
  set (room := bs - (JBD2_HEADER_SIZE + tail_bytes (jw_has_checksum w))) in *.
  assert (1 <= zlen chunk) by (destruct chunk; [done|]; rewrite zlen_cons; pose proof (zlen_nonneg chunk); lia).
  assert (size * (Z.max room 0 / size) <= Z.max room 0) by (apply Z.mul_div_le; lia).
  nia.
Qed.

Definition descriptor_block (chunk : list ChunkWrite) : bytes :=
  sealed_block w bs (header_bytes JBD2_BLOCKTYPE_DESCRIPTOR seq ++ tags_bytes w seq chunk).

Lemma encode_descriptor_spec chunk : chunk_ok chunk → encode_descriptor w bs seq chunk = Ok (descriptor_block chunk).
Proof.
  intros Hc. pose proof (chunk_fits chunk Hc) as Hfit. destruct Hc as (Hne&Htg&_).
  assert (0 <= tail_bytes (jw_has_checksum w)) by (by destruct (jw_has_checksum w)).
  pose proof (zlen_nonneg (tags_bytes w seq chunk)) as Hp. pose proof (zlen_tags_bytes w seq chunk) as Hz.
  unfold encode_descriptor. rewrite encode_header_zeros by lia.
  rewrite (encode_tags_spec w seq chunk) by (done || by rewrite ?zlen_header_bytes || lia). simpl.
  rewrite app_assoc. unfold descriptor_block. rewrite <-(stamp_tail_sealed w bs) by (autorewrite with zlen; lia).
  do 3 f_equal. autorewrite with zlen. lia.
Qed.

Lemma descriptor_block_spec chunk : chunk_ok chunk →
  header_block (descriptor_block chunk) JBD2_BLOCKTYPE_DESCRIPTOR ∧
  parse_descriptor_tags_strict_with_format (descriptor_block chunk) (is_64bit sb) (has_checksum sb) (tag_format sb) =
    Some (decoded_tags w seq chunk).
Proof.
  intros Hc. pose proof (chunk_fits chunk Hc) as Hfit. destruct Hc as (Hne&Htg&_).
  pose proof (zlen_tags_bytes w seq chunk) as Hz. unfold descriptor_block.
  set (body := header_bytes JBD2_BLOCKTYPE_DESCRIPTOR seq ++ tags_bytes w seq chunk).
  assert (zlen body = JBD2_HEADER_SIZE + zlen (tags_bytes w seq chunk)) as Hb by (by unfold body; autorewrite with zlen).
  assert (zlen body + tail_bytes (jw_has_checksum w) <= bs) as Hl by lia.
  split; [by eapply sealed_header_block; [done| |left]|].
  destruct (sealed_shape w bs _ Hl) as [Hlen [post Hp]].
  unfold parse_descriptor_tags_strict_with_format, body_limit.
  rewrite (sbm_64bit _ _ Hmatch), (sbm_format _ _ Hmatch), (sbm_checksum _ _ Hmatch), Hlen, Hp.
  rewrite Hp in Hlen. unfold body in *. rewrite <-!app_assoc in *.
  pose proof (zlen_nonneg post). pose proof (tag_size_pos (jw_tag_format w) (jw_is_64bit w)).
  assert (bs <= usize_max) by (unfold usize_max, u64_max, u32_max in *; lia).
  pose proof (zlen_nonneg chunk).
  assert (length chunk <= length (header_bytes JBD2_BLOCKTYPE_DESCRIPTOR seq ++ tags_bytes w seq chunk ++ post))%nat.
  { apply Nat2Z.inj_le. fold (zlen chunk). fold (zlen (header_bytes JBD2_BLOCKTYPE_DESCRIPTOR seq ++ tags_bytes w seq chunk ++ post)).
    autorewrite with zlen. unfold JBD2_HEADER_SIZE. nia. }
  apply (parse_tags_spec w seq Hseed _ _ _ _ _ _ []); try done; [by rewrite Hlen|..];
    destruct (limit_room (jw_has_checksum w) bs) as [-> ?]; unfold JBD2_HEADER_SIZE in *; nia.
Qed.

(** *** Revoke blocks *)

Definition entry_bytes (target : Z) : bytes :=
  if jw_is_64bit w then
    be_bytes 4 (Z.land (Z.shiftr target 32) 0xFFFFFFFF) ++ be_bytes 4 (Z.land target 0xFFFFFFFF)
  else be_bytes 4 target.
Fixpoint entries_bytes (chunk : list Z) : bytes :=
  match chunk with [] => [] | t :: chunk' => entry_bytes t ++ entries_bytes chunk' end.

Lemma zlen_entry_bytes target : zlen (entry_bytes target) = revoke_entry_size (jw_is_64bit w).
Proof. unfold entry_bytes. destruct (jw_is_64bit w); autorewrite with zlen; done. Qed.

Lemma zlen_entries_bytes chunk : zlen (entries_bytes chunk) = zlen chunk * revoke_entry_size (jw_is_64bit w).
Proof.
  induction chunk as [|t chunk IH]; [done|]. simpl.
  rewrite zlen_app, IH, zlen_entry_bytes, zlen_cons. lia.
Qed.

Lemma encode_revoke_entries_spec chunk pre n off : zlen pre = off → Forall (target_ok (jw_is_64bit w)) chunk →
  zlen (entries_bytes chunk) <= n →
  encode_revoke_entries (jw_is_64bit w) (pre ++ zeros n) off chunk =
    Ok (pre ++ entries_bytes chunk ++ zeros (n - zlen (entries_bytes chunk))).
Proof.
  revert pre n off. induction chunk as [|t chunk IH]; intros pre n off Ho Hc Hn; simpl.
  { do 3 f_equal. rewrite zlen_nil. lia. }
  apply Forall_cons in Hc as [Ht Hcs]. change (entries_bytes (t :: chunk)) with (entry_bytes t ++ entries_bytes chunk) in *.
  rewrite zlen_app, zlen_entry_bytes in Hn. pose proof (zlen_nonneg (entries_bytes chunk)) as Hp.
  unfold target_ok in Ht. pose proof (zlen_entry_bytes t) as Hel. unfold entry_bytes in *.
  destruct (jw_is_64bit w); unfold revoke_entry_size in *.
  - rewrite !put_zeros by (autorewrite with zlen; lia). autorewrite with zlen in *.
    rewrite IH by (done || autorewrite with zlen; lia). rewrite <-!app_assoc. do 6 f_equal. lia.
  - rewrite (proj2 (Z.ltb_ge _ _)) by lia. rewrite put_zeros by (autorewrite with zlen; lia). autorewrite with zlen in *.
    rewrite IH by (done || autorewrite with zlen; lia). rewrite <-!app_assoc. do 5 f_equal. lia.
Qed.

Definition revoke_chunk_ok (chunk : list Z) : Prop :=
  chunk ≠ [] ∧ Forall (target_ok (jw_is_64bit w)) chunk ∧
  zlen chunk <= max_revoke_entries_with_checksum bs (jw_is_64bit w) (jw_has_checksum w).

Lemma revoke_entry_size_pos : revoke_entry_size (jw_is_64bit w) = 4 ∨ revoke_entry_size (jw_is_64bit w) = 8.
Proof. unfold revoke_entry_size. destruct (jw_is_64bit w); auto. Qed.

Lemma revoke_fits chunk : revoke_chunk_ok chunk →
  JBD2_REVOKE_HEADER_SIZE + zlen chunk * revoke_entry_size (jw_is_64bit w) + tail_bytes (jw_has_checksum w) <= bs.
Proof.
  intros (Hne&_&Hn). unfold max_revoke_entries_with_checksum, saturating_sub in Hn.
  pose proof revoke_entry_size_pos. set (size := revoke_entry_size (jw_is_64bit w)) in *.
  set (room := bs - (JBD2_REVOKE_HEADER_SIZE + tail_bytes (jw_has_checksum w))) in *.
  assert (1 <= zlen chunk) by (destruct chunk; [done|]; rewrite zlen_cons; pose proof (zlen_nonneg chunk); lia).
  assert (size * (Z.max room 0 / size) <= Z.max room 0) by (apply Z.mul_div_le; lia).
  nia.
Qed.

Definition revoke_count (chunk : list Z) : Z :=
  JBD2_REVOKE_HEADER_SIZE + zlen chunk * revoke_entry_size (jw_is_64bit w).
Definition revoke_block (chunk : list Z) : bytes :=
  sealed_block w bs (header_bytes JBD2_BLOCKTYPE_REVOKE seq ++ be_bytes 4 (revoke_count chunk) ++ entries_bytes chunk).

Lemma encode_revoke_spec chunk : revoke_chunk_ok chunk → encode_revoke w bs seq chunk = Ok (revoke_block chunk).
Proof.
  intros Hc. pose proof (revoke_fits chunk Hc) as Hfit. destruct Hc as (Hne&Htg&_).
  assert (0 <= tail_bytes (jw_has_checksum w)) by (by destruct (jw_has_checksum w)).
  pose proof (zlen_entries_bytes chunk) as Hz. pose proof (zlen_nonneg (entries_bytes chunk)).
  unfold encode_revoke. fold (revoke_count chunk). unfold revoke_count, JBD2_REVOKE_HEADER_SIZE in *.
  rewrite (proj2 (Z.ltb_ge _ _)) by lia.
  rewrite encode_header_zeros by (unfold JBD2_HEADER_SIZE; lia).
  rewrite put_zeros by (autorewrite with zlen; unfold JBD2_HEADER_SIZE; done || lia). autorewrite with zlen.
  rewrite encode_revoke_entries_spec by (done || autorewrite with zlen; unfold JBD2_HEADER_SIZE; done || lia). simpl.
  rewrite app_assoc. unfold revoke_block, revoke_count, JBD2_REVOKE_HEADER_SIZE. rewrite <-app_assoc.
  rewrite <-(stamp_tail_sealed w bs) by (autorewrite with zlen; unfold JBD2_HEADER_SIZE; lia).
  rewrite <-!app_assoc. do 5 f_equal. autorewrite with zlen. unfold JBD2_HEADER_SIZE. lia.
Qed.

Lemma read_revoke_entry_spec pre t post off : zlen pre = off → target_ok (jw_is_64bit w) t →
  zlen (pre ++ entry_bytes t ++ post) <= usize_max →
  read_revoke_entry (pre ++ entry_bytes t ++ post) off (jw_is_64bit w) = Some t.
Proof.
  intros Ho Ht Hl. unfold read_revoke_entry, entry_bytes, target_ok in *. destruct (jw_is_64bit w).
  - rewrite <-app_assoc in *. rewrite (read_be_u32_app pre _ _ off) by (done || apply land_u32_bound). simpl.
    rewrite app_assoc in *.
    rewrite (read_be_u32_app _ _ _ (off + 4)) by (done || apply land_u32_bound || (autorewrite with zlen; lia)).
    simpl. f_equal. rewrite Z.lor_comm. by apply join_words.
  - by apply read_be_u32_app.
Qed.

Lemma revoke_events_spec chunk fuel pre post off r_count events : zlen pre = off →
  Forall (target_ok (jw_is_64bit w)) chunk → (length chunk < fuel)%nat →
  zlen (pre ++ entries_bytes chunk ++ post) <= u32_max → r_count = off + zlen (entries_bytes chunk) →
  revoke_events_loop fuel (pre ++ entries_bytes chunk ++ post) (jw_is_64bit w) r_count off events =
    (events ++ (EventRevoke <$> chunk), true).
Proof.
  revert fuel pre off events. pose proof revoke_entry_size_pos as Hpos.
  induction chunk as [|t chunk IH]; intros fuel pre off events Ho Hc Hf Hl Hr; destruct fuel as [|fuel]; [simpl in Hf; lia| |simpl in Hf; lia|].
  - simpl in *. autorewrite with zlen in *. pose proof (zlen_nonneg post).
    rewrite checked_add_ok by (unfold usize_max, u64_max, u32_max in *; lia).
    rewrite (proj2 (Z.ltb_lt _ _)) by lia. by rewrite app_nil_r.
  - apply Forall_cons in Hc as [Ht Hcs]. change (entries_bytes (t :: chunk)) with (entry_bytes t ++ entries_bytes chunk) in *.
    rewrite zlen_app, zlen_entry_bytes in Hr. pose proof (zlen_nonneg (entries_bytes chunk)). pose proof (zlen_nonneg post).
    rewrite <-app_assoc in *. cbn [revoke_events_loop].
    assert (off + revoke_entry_size (jw_is_64bit w) <= u32_max) by (rewrite !zlen_app, zlen_entry_bytes in Hl; lia).
    rewrite checked_add_ok by (unfold usize_max, u64_max, u32_max in *; lia).
    rewrite (proj2 (Z.ltb_ge _ _)) by lia.
    rewrite read_revoke_entry_spec by (done || (unfold usize_max, u64_max, u32_max in *; lia)).
    rewrite (app_assoc pre) in *. rewrite IH; try done.
    + by rewrite <-app_assoc.
    + by rewrite zlen_app, zlen_entry_bytes, Ho.
    + simpl in Hf. lia.
    + lia.
Qed.

Lemma revoke_block_spec chunk events : revoke_chunk_ok chunk →
  header_block (revoke_block chunk) JBD2_BLOCKTYPE_REVOKE ∧
  extend_strict_revoke_events (revoke_block chunk) (is_64bit sb) (has_checksum sb) events =
    (events ++ (EventRevoke <$> chunk), Some (zlen chunk)).
Proof.
  intros Hc. pose proof (revoke_fits chunk Hc) as Hfit. destruct Hc as (Hne&Htg&_).
  pose proof (zlen_entries_bytes chunk) as Hz. unfold revoke_block. pose proof revoke_entry_size_pos as Hpos.
  pose proof (zlen_nonneg chunk).
  set (body := header_bytes JBD2_BLOCKTYPE_REVOKE seq ++ be_bytes 4 (revoke_count chunk) ++ entries_bytes chunk).
  assert (0 <= tail_bytes (jw_has_checksum w)) by (by destruct (jw_has_checksum w)).
  assert (zlen body = revoke_count chunk) as Hb.
  { unfold body, revoke_count. autorewrite with zlen. unfold JBD2_HEADER_SIZE, JBD2_REVOKE_HEADER_SIZE. lia. }
  assert (zlen body + tail_bytes (jw_has_checksum w) <= bs) as Hl by (unfold revoke_count in Hb; lia).
  split; [by eapply sealed_header_block; [done| |right]|].
  destruct (sealed_shape w bs _ Hl) as [Hlen [post Hp]].
  unfold extend_strict_revoke_events, strict_revoke_layout, body_limit.
  rewrite (sbm_64bit _ _ Hmatch), (sbm_checksum _ _ Hmatch), Hlen, Hp. rewrite Hp in Hlen.
  unfold body in *. rewrite <-!app_assoc in *.
  assert (bs <= usize_max) by (unfold usize_max, u64_max, u32_max in *; lia).
  rewrite read_be_u32_app by (done || (rewrite zlen_header_bytes; done) || (unfold revoke_count, JBD2_REVOKE_HEADER_SIZE in *; nia) || lia).
  destruct (limit_room (jw_has_checksum w) bs) as [-> _]; [pose proof (zlen_nonneg (entries_bytes chunk)); unfold JBD2_REVOKE_HEADER_SIZE in *; lia|]. simpl.
  assert (revoke_count chunk - JBD2_REVOKE_HEADER_SIZE = zlen chunk * revoke_entry_size (jw_is_64bit w)) as ->
    by (unfold revoke_count; lia).
  assert (JBD2_REVOKE_HEADER_SIZE <= revoke_count chunk) by (unfold revoke_count; nia).
  rewrite !(proj2 (Z.ltb_ge _ _)), Z.mod_mul, Z.div_mul by lia. simpl.
  rewrite (app_assoc (header_bytes _ _)) in *. rewrite (revoke_events_spec chunk); try done.
  - apply Nat2Z.inj_lt. fold (zlen chunk).
    fold (zlen ((header_bytes JBD2_BLOCKTYPE_REVOKE seq ++ be_bytes 4 (revoke_count chunk)) ++ entries_bytes chunk ++ post)).
    pose proof (zlen_nonneg post). rewrite !zlen_app, zlen_header_bytes, Hz. unfold JBD2_HEADER_SIZE.
    pose proof (zlen_nonneg (be_bytes 4 (revoke_count chunk))). nia.
  - lia.
  - unfold revoke_count. by rewrite Hz.
Qed.

(** *** Commit blocks *)

Definition commit_csum : Z :=
  not32 (crc32c_append (not32 (jw_csum_seed w)) (header_bytes JBD2_BLOCKTYPE_COMMIT seq ++ zeros (bs - JBD2_HEADER_SIZE))).
Definition commit_block : bytes :=
  if jw_has_checksum w then
    header_bytes JBD2_BLOCKTYPE_COMMIT seq ++ zeros 4 ++ be_bytes 4 commit_csum ++ zeros (bs - 20)
  else header_bytes JBD2_BLOCKTYPE_COMMIT seq ++ zeros (bs - JBD2_HEADER_SIZE).

(** The room preflight asks for. *)
Hypothesis Hroom : JBD2_HEADER_SIZE <= bs ∧ (jw_has_checksum w = true → 20 <= bs).

Lemma commit_zeros : 20 <= bs →
  header_bytes JBD2_BLOCKTYPE_COMMIT seq ++ zeros (bs - JBD2_HEADER_SIZE) =
  header_bytes JBD2_BLOCKTYPE_COMMIT seq ++ zeros 4 ++ be_bytes 4 0 ++ zeros (bs - 20).
Proof.
  intros Hb. unfold JBD2_HEADER_SIZE. replace (bs - 12) with (4 + (4 + (bs - 20))) by lia.
  rewrite !zeros_split by lia. done.
Qed.

Lemma encode_commit_spec : encode_commit_block w bs seq = Ok commit_block.
Proof.
  unfold encode_commit_block, commit_block. rewrite encode_header_zeros by apply Hroom.
  destruct (jw_has_checksum w) eqn:Ec; [|done]. destruct Hroom as [_ Hb]. specialize (Hb eq_refl).
  unfold stamp_jbd2_commit_checksum, JBD2_COMMIT_CHKSUM_OFFSET, JBD2_CHECKSUM_TAIL_SIZE.
  rewrite (proj2 (Z.ltb_ge _ _)) by (autorewrite with zlen; rewrite zlen_zeros; unfold JBD2_HEADER_SIZE; lia).
  unfold commit_csum. rewrite !commit_zeros by done. rewrite !(app_assoc (header_bytes _ _) (zeros 4)).
  do 2 (rewrite put_field by (autorewrite with zlen; done)). done.
Qed.

Lemma commit_block_spec : header_block commit_block JBD2_BLOCKTYPE_COMMIT.
Proof.
  destruct Hroom as [Hb Hc]. assert (bs <= usize_max) as Hu by (unfold usize_max, u64_max, u32_max in *; lia).
  assert (zlen commit_block = bs) as Hlen.
  { unfold commit_block, JBD2_HEADER_SIZE in *. destruct (jw_has_checksum w); autorewrite with zlen;
      rewrite ?zlen_zeros by (auto with lia); unfold JBD2_HEADER_SIZE; [specialize (Hc eq_refl)|]; lia. }
  assert (parse_header commit_block = Some (mkHeader JBD2_MAGIC JBD2_BLOCKTYPE_COMMIT seq)) as Hh.
  { unfold commit_block in *. destruct (jw_has_checksum w); apply parse_header_bytes; try done; by rewrite Hlen. }
  split; [done|done|]. unfold verify_jbd2_block_checksum. rewrite (sbm_checksum _ _ Hmatch).
  destruct (jw_has_checksum w) eqn:Ec; [|done]. simpl. rewrite Hh. simpl. specialize (Hc eq_refl).
  rewrite Hlen. unfold JBD2_COMMIT_CHKSUM_OFFSET, JBD2_CHECKSUM_TAIL_SIZE. rewrite (proj2 (Z.ltb_ge _ _)) by lia.
  rewrite (sbm_seed _ _ Hmatch). apply Z.eqb_eq. unfold commit_block in *. rewrite Ec in *.
  rewrite (app_assoc (header_bytes _ _)) in *.
  rewrite read_be_u32_app; [|by autorewrite with zlen|by apply not32_u32, crc32c_append_u32, not32_u32|lia]. simpl.
  unfold checksum_jbd2_commit_zeroed_block. rewrite checked_add_ok by done. simpl. rewrite Hlen.
  change (JBD2_COMMIT_CHKSUM_OFFSET + JBD2_CHECKSUM_TAIL_SIZE) with 20. rewrite (proj2 (Z.ltb_ge _ _)) by lia.
  unfold commit_csum. rewrite commit_zeros, (app_assoc (header_bytes _ _)) by done.
  change JBD2_ZERO_CHECKSUM_FIELD with (be_bytes 4 0). unfold JBD2_COMMIT_CHKSUM_OFFSET.
  case_if; simpl.
  - by rewrite put_field by (autorewrite with zlen; done).
  - set (hd := header_bytes JBD2_BLOCKTYPE_COMMIT seq ++ zeros 4) in *.
    assert (length hd = 16%nat) as Hl16 by (apply Nat2Z.inj; change (zlen hd = 16); unfold hd; by autorewrite with zlen).
    change (Z.to_nat 16) with 16%nat. change (Z.to_nat 20) with 20%nat.
    rewrite <-Hl16 at 1. rewrite take_app_length. rewrite !crc32c_append_app. do 2 f_equal.
Qed.
End descriptor.

(** ** The parsers agree *)

Lemma read_be_u32_inside b off : 0 <= off → off + 4 <= zlen b → zlen b <= usize_max → is_Some (read_be_u32 b off).
Proof.
  intros Ho Hl Hu. unfold read_be_u32, field. rewrite checked_add_ok by lia.
  rewrite (proj2 (Z.leb_le _ _)) by lia. by eexists.
Qed.

Lemma saturating_add_ok mx a b : a + b <= mx → saturating_add mx a b = a + b.
Proof. unfold saturating_add. lia. Qed.

Lemma checked_add_Some mx a b c : checked_add mx a b = Some c ↔ c = a + b ∧ c <= mx.
Proof. unfold checked_add. case_if; split; [intros [= <-]|intros [-> ?]|..]; try done; lia. Qed.

(** The fuel of the strict parser is enough: more of it changes nothing. *)
Lemma strict_loop_fuel f1 f2 block is64 fmt limit off tags :
  limit - off < Z.of_nat f1 → limit - off < Z.of_nat f2 →
  parse_tags_strict_loop f1 block is64 fmt limit off tags = parse_tags_strict_loop f2 block is64 fmt limit off tags.
Proof.
  assert (8 <= tag_size fmt is64) as Hmin by (destruct fmt, is64; by vm_compute).
  assert (∀ fuel off tags, limit < off → parse_tags_strict_loop fuel block is64 fmt limit off tags = None) as Hend.
  { intros [|fuel] o ts Ho; [done|]. cbn [parse_tags_strict_loop].
    destruct (checked_add usize_max o (tag_size fmt is64)) as [e|] eqn:He; [|done]. apply checked_add_Some in He as [-> _].
    cbn. by rewrite (proj2 (Z.ltb_lt limit (o + tag_size fmt is64))) by lia. }
  revert f2 off tags. induction f1 as [|f1 IH]; intros f2 off tags H1 H2; [by rewrite !Hend by lia|].
  destruct f2 as [|f2]; [by rewrite !Hend by lia|]. cbn [parse_tags_strict_loop].
  destruct (checked_add usize_max off (tag_size fmt is64)) as [e|]; [|done]. cbn.
  destruct (limit <? e); [done|].
  destruct (read_descriptor_tag_flags_and_checksum block off fmt) as [[flags csum]|]; [|done]. cbn.
  destruct (descriptor_tag_record_size (tag_size fmt is64) flags) as [size|] eqn:Hs; [|done]. cbn.
  destruct (checked_add usize_max off size) as [e'|] eqn:He'; [|done]. cbn. destruct (limit <? e'); [done|].
  destruct (read_be_u32 block off) as [low|]; [|done]. cbn. destruct (is_last _); [done|].
  apply checked_add_Some in He' as [-> _].
  assert (8 <= size).
  { unfold descriptor_tag_record_size in Hs. destruct (negb _);
      [apply checked_add_Some in Hs as [-> _]; unfold JBD2_TAG_UUID_SIZE|injection Hs as <-]; lia. }
  apply IH; lia.
Qed.

Lemma strict_loop_agrees fuel block is64 fmt limit off tags cnt : 0 <= off → limit <= zlen block →
  zlen block <= usize_max → cnt + Z.of_nat fuel <= usize_max →
  parse_tags_strict_loop fuel block is64 fmt limit off tags =
    (if strict_tag_count_loop fuel block is64 fmt limit off cnt then
       Some (parse_tags_loop fuel block is64 fmt limit off tags) else None) ∧
  ∀ n, strict_tag_count_loop fuel block is64 fmt limit off cnt = Some n →
    n = cnt + zlen (parse_tags_loop fuel block is64 fmt limit off tags) - zlen tags.
Proof.
  revert off tags cnt. induction fuel as [|fuel IH]; intros off tags cnt Ho Hlim Hu Hc; [done|].
  cbn [parse_tags_strict_loop strict_tag_count_loop parse_tags_loop].
  pose proof (tag_size_pos fmt is64) as Hsize. set (base := tag_size fmt is64) in *.
  destruct (checked_add usize_max off base) as [e|] eqn:He; [|done].
  apply checked_add_Some in He as [-> He]. simpl. rewrite saturating_add_ok by lia.
  destruct (limit <? off + base) eqn:E1; [done|]. bool_to_prop.
  destruct (read_be_u32_inside block off) as [low Hlow]; [lia..|]. rewrite Hlow.
  destruct (read_descriptor_tag_flags_and_checksum block off fmt) as [[flags ck]|]; [|done]. simpl.
  destruct (descriptor_tag_record_size base flags) as [size|] eqn:Es; [|done]. simpl.
  assert (base <= size) as Hbs.
  { unfold descriptor_tag_record_size in Es. destruct (negb _); [|by injection Es as <-].
    apply checked_add_Some in Es as [-> _]. unfold JBD2_TAG_UUID_SIZE. lia. }
  destruct (checked_add usize_max off size) as [e|] eqn:He2; [|done].
  apply checked_add_Some in He2 as [-> He2]. simpl. rewrite saturating_add_ok by lia.
  destruct (limit <? off + size) eqn:E2; [done|]. rewrite checked_add_ok by lia. simpl.
  unfold is_last. simpl. destruct (has_bits flags JBD2_TAG_FLAG_LAST).
  - split; [done|]. intros n [= <-]. autorewrite with zlen. lia.
  - destruct (IH (off + size) (tags ++ [mkTag (tag_target block off low fmt is64) flags ck]) (cnt + 1)) as [-> Hn]; [lia..|].
    split; [done|]. intros n Hs. rewrite (Hn n Hs). autorewrite with zlen. lia.
Qed.

(** C32. The one-pass strict parser of descriptor tags is the strict count
    followed by the tolerant parse: it accepts exactly the blocks the count
    accepts, yields exactly the tags the parse yields, and the count is their
    number, for every block, tag format and checksum tail. *)
Theorem strict_parse_agrees block is64 has_tail fmt : zlen block <= usize_max →
  parse_descriptor_tags_strict_with_format block is64 has_tail fmt =
    (if strict_descriptor_tag_count_with_format block is64 has_tail fmt
     then Some (parse_descriptor_tags_with_format block is64 has_tail fmt) else None) ∧
  ∀ n, strict_descriptor_tag_count_with_format block is64 has_tail fmt = Some n →
    n = zlen (parse_descriptor_tags_with_format block is64 has_tail fmt).
Proof.
  intros Hu. unfold parse_descriptor_tags_strict_with_format, strict_descriptor_tag_count_with_format,
    parse_descriptor_tags_with_format.
  assert (body_limit block has_tail <= zlen block) as Hl.
  { pose proof (zlen_nonneg block). unfold body_limit, saturating_sub. destruct has_tail; lia. }
  destruct (strict_loop_agrees (length block) block is64 fmt (body_limit block has_tail) JBD2_HEADER_SIZE [] 0)
    as [-> Hn]; [done|done|done|unfold zlen in Hu; lia|]. split; [done|].
  intros n Hs. apply Hn in Hs. rewrite Hs at 1. unfold zlen at 2. simpl. lia.
Qed.
