(* ===== verification/Jbd2Order.v ===== *)
(** * The order of JBD2 commits

    Sequences are 32-bit and wrap.  From the set of committed sequences, in
    ascending order, the replay engine recovers the order of commit. *)

From stdpp Require Import base sorting numbers gmap list.
From S2P Require Import Prelude Sorted Wal WalReplay WalWriter Journal Jbd2 Jbd2Replay.

Local Open Scope Z_scope.

(** The [k]-th sequence from [seq] on. *)
Definition nth_seq (seq : Z) (k : nat) : Z := (seq + Z.of_nat k) mod 2 ^ 32.

Lemma nth_seq_u32 seq k : 0 <= nth_seq seq k <= u32_max.
Proof. unfold nth_seq, u32_max. pose proof (Z.mod_pos_bound (seq + Z.of_nat k) (2 ^ 32)). lia. Qed.

Lemma nth_seq_S seq k : wrapping_add32 (nth_seq seq k) 1 = nth_seq seq (S k).
Proof. unfold wrapping_add32, nth_seq. rewrite Zplus_mod_idemp_l. f_equal. lia. Qed.

Lemma nth_seq_inj seq j k : Z.of_nat j < 2 ^ 32 → Z.of_nat k < 2 ^ 32 → nth_seq seq j = nth_seq seq k → j = k.
Proof.
  intros Hj Hk He. unfold nth_seq in He.
  assert ((Z.of_nat j - Z.of_nat k) mod 2 ^ 32 = 0) as Hz.
  { replace (Z.of_nat j - Z.of_nat k) with ((seq + Z.of_nat j) - (seq + Z.of_nat k)) by lia.
    rewrite Zminus_mod, He, Z.sub_diag. done. }
  apply Z.mod_divide in Hz as [q Hq]; [|done]. assert (q = 0) by nia. lia.
Qed.

Lemma nth_seq_0 seq : 0 <= seq <= u32_max → nth_seq seq 0 = seq.
Proof. intros Hs. unfold nth_seq, u32_max in *. rewrite Z.add_0_r, Z.mod_small; lia. Qed.

(** Ascending lists with the same elements are equal. *)
Lemma seq_strict_eq (l k : list Z) : seq_strict id l → seq_strict id k → (∀ x, x ∈ l ↔ x ∈ k) → l = k.
Proof.
  revert k. induction l as [|x l IH]; intros k Hl Hk He.
  { destruct k as [|y k]; [done|]. exfalso. specialize (He y). set_solver. }
  destruct k as [|y k]; [exfalso; specialize (He x); set_solver|].
  apply seq_strict_cons in Hl as [Hx Hl], Hk as [Hy Hk]. simpl in *.
  assert (x = y) as ->.
  { pose proof (proj1 (He x) ltac:(by left)) as [|Hxk]%elem_of_cons; [done|].
    pose proof (proj2 (He y) ltac:(by left)) as [|Hyl]%elem_of_cons; [done|].
    apply Hy in Hxk. apply Hx in Hyl. lia. }
  f_equal. apply IH; [done..|]. intros z. specialize (He z). rewrite !elem_of_cons in He. split; intros Hz.
  - destruct (proj1 He) as [->|]; [by right| |done]. apply Hx in Hz. lia.
  - destruct (proj2 He) as [->|]; [by right| |done]. apply Hy in Hz. lia.
Qed.

Lemma seqZ_strict m n : seq_strict id (seqZ m n).
Proof. intros i j x y Hij (->&_)%lookup_seqZ (->&_)%lookup_seqZ. simpl. lia. Qed.

Lemma seq_strict_app {A} (key : A → Z) l k : seq_strict key l → seq_strict key k →
  (∀ x y, x ∈ l → y ∈ k → key x < key y) → seq_strict key (l ++ k).
Proof.
  intros Hl Hk Hlk. induction l as [|x l IH]; [done|]. apply seq_strict_cons in Hl as [Hx Hl]. simpl.
  apply seq_strict_cons. split.
  - intros y [Hy|Hy]%elem_of_app; [auto|]. apply Hlk; [by left|done].
  - apply IH; [done|]. intros. apply Hlk; [by right|done].
Qed.

(** A run of neighbours finds no larger jump. *)
Lemma oldest_run n x rest prev i mj o : 0 <= x → x + Z.of_nat n <= 2 ^ 32 → wrapping_sub32 x prev = 1 → 1 <= mj →
  oldest_loop (seqZ x (Z.of_nat n) ++ rest) prev i mj o =
    oldest_loop rest (match n with O => prev | S _ => x + Z.of_nat n - 1 end) (i + n) mj o.
Proof.
  revert x prev i. induction n as [|n IH]; intros x prev i Hx Hn Hj Hmj.
  { simpl. by rewrite Nat.add_0_r. }
  rewrite seqZ_cons by lia. simpl. rewrite Hj, (proj2 (Z.ltb_ge _ _)) by lia.
  replace (Z.pred (Z.of_nat (S n))) with (Z.of_nat n) by lia.
  rewrite IH; [|lia|lia|unfold wrapping_sub32; rewrite Z.mod_small; lia|lia].
  f_equal; [|lia]. destruct n; lia.
Qed.

Lemma commit_order_plain seq n : 0 <= seq → seq + Z.of_nat n <= 2 ^ 32 →
  commit_order (seqZ seq (Z.of_nat n)) = seqZ seq (Z.of_nat n).
Proof.
  intros Hs Hn. unfold commit_order. destruct n as [|n]; [done|].
  assert (last (seqZ seq (Z.of_nat (S n))) = Some (seq + Z.of_nat n)) as ->.
  { rewrite last_lookup, length_seqZ. apply lookup_seqZ. lia. }
  rewrite seqZ_cons by lia. replace (Z.pred (Z.of_nat (S n))) with (Z.of_nat n) by lia. cbn [oldest_loop].
  set (jump := wrapping_sub32 seq (seq + Z.of_nat n)).
  assert (n = 0%nat ∨ 0 < jump) as Hj.
  { destruct n as [|n]; [by left|]. right. unfold jump, wrapping_sub32.
    replace (seq - (seq + Z.of_nat (S n))) with (- Z.of_nat (S n)) by lia.
    rewrite Z.mod_opp_l_nz; [|done|]; rewrite Z.mod_small by lia; lia. }
  assert (oldest_loop (seqZ (Z.succ seq) (Z.of_nat n)) seq 1 (if 0 <? jump then jump else 0) 0 = 0%nat) as Ho.
  { destruct Hj as [->|Hj]; [done|]. rewrite (proj2 (Z.ltb_lt _ _)) by done.
    rewrite <-(app_nil_r (seqZ _ _)), oldest_run; [done|lia|lia|unfold wrapping_sub32; rewrite Z.mod_small; lia|lia]. }
  destruct (0 <? jump); rewrite Ho; simpl; by rewrite app_nil_r.
Qed.

Lemma commit_order_wrapped seq b : 0 <= b < seq → seq < 2 ^ 32 → b + 1 < seq →
  commit_order (seqZ 0 (b + 1) ++ seqZ seq (2 ^ 32 - seq)) = seqZ seq (2 ^ 32 - seq) ++ seqZ 0 (b + 1).
Proof.
  intros Hb Hs Hgap. unfold commit_order.
  assert (last (seqZ 0 (b + 1) ++ seqZ seq (2 ^ 32 - seq)) = Some (2 ^ 32 - 1)) as ->.
  { rewrite last_app. assert (last (seqZ seq (2 ^ 32 - seq)) = Some (2 ^ 32 - 1)) as ->; [|done].
    rewrite last_lookup, length_seqZ. apply lookup_seqZ. lia. }
  assert (oldest_loop (seqZ 0 (b + 1) ++ seqZ seq (2 ^ 32 - seq)) (2 ^ 32 - 1) 0 0 0 = Z.to_nat (b + 1)) as ->.
  { rewrite (seqZ_cons 0) by lia. cbn [app oldest_loop].
    assert (wrapping_sub32 0 (2 ^ 32 - 1) = 1) as -> by done. cbn [Z.ltb Z.compare].
    replace (Z.pred (b + 1)) with (Z.of_nat (Z.to_nat b)) by lia.
    rewrite oldest_run; [|lia|lia|done|lia].
    rewrite (seqZ_cons seq) by lia. cbn [oldest_loop].
    set (prev := match Z.to_nat b with O => 0 | S _ => _ end).
    assert (prev = b) as -> by (unfold prev; destruct (Z.to_nat b) eqn:E; lia).
    assert (wrapping_sub32 seq b = seq - b) as -> by (unfold wrapping_sub32; rewrite Z.mod_small; lia).
    rewrite (proj2 (Z.ltb_lt _ _)) by lia.
    replace (Z.pred (2 ^ 32 - seq)) with (Z.of_nat (Z.to_nat (Z.pred (2 ^ 32 - seq)))) by lia.
    rewrite <-(app_nil_r (seqZ (Z.succ seq) _)), oldest_run; [simpl; lia|lia|lia| |lia].
    unfold wrapping_sub32. rewrite Z.mod_small; lia. }
  assert (length (seqZ 0 (b + 1)) = Z.to_nat (b + 1)) as <- by apply length_seqZ.
  by rewrite drop_app_length, take_app_length.
Qed.

(** The sequences from [seq] on, as they stand in ascending order. *)
Lemma nth_seq_run seq n : 0 <= seq → seq + Z.of_nat n <= 2 ^ 32 → nth_seq seq <$> List.seq 0 n = seqZ seq (Z.of_nat n).
Proof.
  intros Hs Hn. unfold seqZ. rewrite Nat2Z.id. apply list_fmap_ext. intros j x (->&Hx)%lookup_seq.
  simpl. unfold nth_seq. rewrite Z.mod_small; lia.
Qed.

Lemma nth_seq_runs seq n : 0 <= seq <= u32_max → 2 ^ 32 < seq + Z.of_nat n → Z.of_nat n < 2 ^ 32 →
  nth_seq seq <$> List.seq 0 n = seqZ seq (2 ^ 32 - seq) ++ seqZ 0 (seq + Z.of_nat n - 2 ^ 32).
Proof.
  intros Hs Hw Hn. unfold u32_max in Hs. set (m := Z.to_nat (2 ^ 32 - seq)).
  replace n with (m + (n - m))%nat at 1 by lia. rewrite seq_app, fmap_app, nth_seq_run by lia.
  f_equal; [f_equal; lia|].
  apply list_eq. intros j. rewrite list_lookup_fmap.
  destruct (decide (j < n - m)%nat).
  - rewrite lookup_seq_lt by done. simpl. symmetry. apply lookup_seqZ. split; [|lia].
    unfold nth_seq. replace (seq + Z.of_nat (m + j)) with (Z.of_nat j + 1 * 2 ^ 32) by lia.
    rewrite Z_mod_plus_full, Z.mod_small; lia.
  - rewrite lookup_seq_ge by lia. simpl. symmetry. apply lookup_seqZ_ge. lia.
Qed.

Lemma commit_order_run seq n l : 0 <= seq <= u32_max → Z.of_nat n < 2 ^ 32 → seq_strict id l →
  (∀ x, x ∈ l ↔ ∃ k, (k < n)%nat ∧ x = nth_seq seq k) → commit_order l = nth_seq seq <$> List.seq 0 n.
Proof.
  intros Hs Hn Hl Hin.
  assert (∀ x, x ∈ l ↔ x ∈ nth_seq seq <$> List.seq 0 n) as He.
  { intros x. rewrite Hin, list_elem_of_fmap. split; intros (k&?&?); exists k; rewrite elem_of_seq in *; lia || auto with lia. }
  destruct (decide (seq + Z.of_nat n <= 2 ^ 32)).
  - rewrite nth_seq_run in He |- * by lia. rewrite (seq_strict_eq l _ Hl (seqZ_strict _ _) He). apply commit_order_plain; lia.
  - rewrite nth_seq_runs in He |- * by lia. unfold u32_max in Hs.
    set (b := seq + Z.of_nat n - 2 ^ 32 - 1). replace (seq + Z.of_nat n - 2 ^ 32) with (b + 1) in * by lia.
    rewrite <-(commit_order_wrapped seq b) by lia. f_equal. apply seq_strict_eq; [done| |].
    + apply seq_strict_app; [apply seqZ_strict..|]. intros x y Hx%elem_of_seqZ Hy%elem_of_seqZ. simpl. lia.
    + intros x. rewrite He. rewrite !elem_of_app. tauto.
Qed.
