(* ===== verification/Jbd2Log.v ===== *)
(** * Replaying a log

    A log is a sequence of transactions, each a sequence of pieces (a
    descriptor with its data blocks, or a revoke block) and a commit block.
    The scan of a log that is present on the device stages exactly its events,
    and the replay writes exactly its effect. *)

From stdpp Require Import base sorting numbers gmap list.
From S2P Require Import Prelude Sorted Wal WalReplay WalWriter Journal Jbd2 Jbd2Replay Jbd2Writer Jbd2Codec Jbd2Order.

Local Open Scope Z_scope.

#[local] Opaque be_bytes zeros.

(** ** Pieces *)

Inductive Piece :=
| PieceWrites (chunk : list ChunkWrite)
| PieceRevokes (chunk : list Z).

(** The number of log blocks of a piece. *)
Definition piece_len (p : Piece) : Z :=
  match p with PieceWrites chunk => 1 + zlen chunk | PieceRevokes _ => 1 end.
Definition pieces_len (ps : list Piece) : Z := fold_right (λ p acc, piece_len p + acc) 0 ps.

Lemma piece_len_pos p : 1 <= piece_len p.
Proof. destruct p; simpl; [pose proof (zlen_nonneg chunk)|]; lia. Qed.
Lemma pieces_len_nonneg ps : 0 <= pieces_len ps.
Proof. induction ps as [|p ps IH]; simpl; [lia|]. pose proof (piece_len_pos p). lia. Qed.
Lemma pieces_len_app a b : pieces_len (a ++ b) = pieces_len a + pieces_len b.
Proof. induction a as [|p a IH]; simpl; lia. Qed.

Section log.
Context `{Crc32cAppend}.
Context (w : Jbd2Writer) (sb : Jbd2Superblock) (bs : Z) (env : ReplayEnv) (d : Device).

Record log_params : Prop := {
  lp_matches : sb_matches w sb;
  lp_sb : re_journal_sb env = Some sb;
  lp_seed : 0 <= jw_csum_seed w <= u32_max;
  lp_bs : JBD2_HEADER_SIZE <= bs <= u32_max;
  lp_commit : jw_has_checksum w = true → 20 <= bs;
  lp_total : re_total_blocks env <= u32_max;
  lp_window : 0 <= (env_window env).1 < (env_window env).2 ∧ (env_window env).2 <= re_total_blocks env;
}.
Hypothesis params : log_params.

Definition piece_ok (p : Piece) : Prop :=
  match p with
  | PieceWrites chunk => chunk_ok w bs chunk
  | PieceRevokes chunk => revoke_chunk_ok w bs chunk
  end.

(** The header block of a piece, and all its blocks. *)
Definition piece_head (seq : Z) (p : Piece) : bytes :=
  match p with
  | PieceWrites chunk => descriptor_block w bs seq chunk
  | PieceRevokes chunk => revoke_block w bs seq chunk
  end.
Definition piece_data (p : Piece) : list bytes :=
  match p with PieceWrites chunk => cw_padded <$> chunk | PieceRevokes _ => [] end.
Definition piece_blocks (seq : Z) (p : Piece) : list bytes := piece_head seq p :: piece_data p.

(** Block [b] is readable at index [i] of the log. *)
Definition at_idx (i : Z) (b : bytes) : Prop :=
  0 <= i ∧ ∃ a, re_resolve env i = Ok a ∧ read_block a d = (d, Ok b).

(** The events a piece at index [i] stages. *)
Definition chunk_events (seq i : Z) (chunk : list ChunkWrite) : list TxnBodyEvent :=
  imap (λ j c, EventWrite (cw_target c)
    (mkStaged (i + 1 + Z.of_nat j) (cw_escaped c) (dt_data_checksum (decoded_tag w seq c true)) seq)) chunk.
Definition piece_events (seq i : Z) (p : Piece) : list TxnBodyEvent :=
  match p with
  | PieceWrites chunk => chunk_events seq i chunk
  | PieceRevokes chunk => EventRevoke <$> chunk
  end.
Fixpoint pieces_events (seq i : Z) (ps : list Piece) : list TxnBodyEvent :=
  match ps with
  | [] => []
  | p :: ps' => piece_events seq i p ++ pieces_events seq (i + piece_len p) ps'
  end.

(** ** Turns of the scan *)

Definition counted (s : ScanState) : ScanState :=
  mkScanState (count_scanned (ss_stats s)) (ss_pending s) (ss_committed s) (ss_idx s) (ss_expected_seq s)
    (bump (ss_blocks_scanned s)).

(** Everything but the statistics. *)
Definition core (s : ScanState) :=
  (ss_pending s, ss_committed s, ss_idx s, ss_expected_seq s, ss_blocks_scanned s).

Lemma bump_ok x : 0 <= x < u64_max → bump x = x + 1.
Proof. unfold bump, saturating_add. lia. Qed.

Lemma scan_turn fuel s b : ss_blocks_scanned s < re_total_blocks env →
  at_idx (wrap_idx (env_window env) (ss_idx s)) b →
  scan_loop (S fuel) env s d =
    (let (s', go_on) := scan_block env b (counted s) in if go_on then scan_loop fuel env s' d else (d, Ok s')).
Proof.
  intros Hs (_&a&Hres&Hread). cbn [scan_loop]. rewrite (proj2 (Z.leb_gt _ _)) by done.
  unfold mbind, devM_bind, lift. rewrite Hres, Hread. fold (counted s).
  by destruct (scan_block env b (counted s)) as [s' []].
Qed.

(** The checks before the dispatch on the block type pass. *)
Lemma scan_header_pass raw ty seq s : header_block sb bs seq raw ty → ss_expected_seq s = Some seq →
  scan_block env raw s =
    if ty =? JBD2_BLOCKTYPE_DESCRIPTOR then scan_descriptor env raw seq s
    else if ty =? JBD2_BLOCKTYPE_COMMIT then scan_commit seq s
    else if ty =? JBD2_BLOCKTYPE_REVOKE then scan_revoke env raw seq s
    else if bool_decide (is_Some (sm_get seq (ss_pending s))) && negb (ss_contains seq (ss_committed s))
    then (s, false)
    else (skip_block s, true).
Proof.
  intros [_ Hh Hv] He. unfold scan_block. rewrite Hh. simpl. unfold scan_header. simpl.
  rewrite (lp_sb params), Hv, andb_false_r, He, Z.eqb_refl. done.
Qed.

Lemma wrap_small i : i < (env_window env).2 → wrap_idx (env_window env) i = i.
Proof. intros Hi. unfold wrap_idx. by rewrite (proj2 (Z.ltb_lt _ _)). Qed.

Lemma decoded_tags_lookup seq chunk j :
  decoded_tags w seq chunk !! j = (λ c, decoded_tag w seq c (bool_decide (S j = length chunk))) <$> chunk !! j.
Proof.
  revert j. induction chunk as [|c chunk IH]; intros j; [done|]. destruct j as [|j]; simpl.
  - by destruct chunk.
  - rewrite IH. destruct (chunk !! j); [|done]. simpl. do 2 f_equal. apply bool_decide_ext. lia.
Qed.

Lemma staged_tags seq i chunk : 0 <= i → i + zlen chunk < (env_window env).2 →
  staged_writes env i seq (decoded_tags w seq chunk) = chunk_events seq i chunk.
Proof.
  intros Hi Hl. pose proof (lp_window params). pose proof (lp_total params). unfold u32_max in *.
  apply list_eq. intros j. unfold staged_writes, chunk_events. rewrite !list_lookup_imap, decoded_tags_lookup.
  destruct (chunk !! j) as [c|] eqn:Hc; [|done]. simpl.
  apply lookup_lt_Some in Hc. unfold zlen in Hl. unfold is_escaped. simpl.
  rewrite (proj1 (proj2 (proj2 (tag_flags_facts _ _)))).
  rewrite bump_ok by (unfold u64_max; lia). rewrite saturating_add_ok by (unfold u64_max; lia).
  rewrite wrap_small by lia. do 3 f_equal. lia.
Qed.

(** Where a scan is in the middle of transaction [seq]. *)
Record mid_txn (s : ScanState) (seq i : Z) (events : list TxnBodyEvent) : Prop := {
  mt_idx : ss_idx s = i;
  mt_expected : ss_expected_seq s = Some seq;
  mt_fresh : ss_contains seq (ss_committed s) = false;
  mt_pending : pending_events (ss_pending s) seq = events;
}.

(** What does not change while [seq] is scanned. *)
Definition same_others (seq : Z) (s s' : ScanState) : Prop :=
  ss_committed s' = ss_committed s ∧ (sm_wf (ss_pending s) → sm_wf (ss_pending s')) ∧
  ∀ k, k ≠ seq → sm_get k (ss_pending s') = sm_get k (ss_pending s).

#[global] Instance same_others_preorder seq : PreOrder (same_others seq).
Proof.
  split; [done|]. intros s1 s2 s3 (?&?&Hk) (?&?&Hk'). split_and!; [congruence|auto|].
  intros k Hne. by rewrite Hk', Hk.
Qed.

(** One piece: its header block is enough. *)
Lemma scan_piece fuel s seq i events p : 0 <= seq <= u32_max → piece_ok p → mid_txn s seq i events →
  sm_wf (ss_pending s) →
  0 <= i → i + piece_len p <= (env_window env).2 → 0 <= ss_blocks_scanned s <= i →
  at_idx i (piece_head seq p) →
  ∃ s', scan_loop (S fuel) env s d = scan_loop fuel env s' d ∧
    mid_txn s' seq (i + piece_len p) (events ++ piece_events seq i p) ∧ same_others seq s s' ∧
    ss_blocks_scanned s' = ss_blocks_scanned s + piece_len p ∧ is_Some (sm_get seq (ss_pending s')).
Proof.
  intros Hseq Hp [Hidx Hexp Hfresh Hpend] Hwf Hi Hfit Hsc Hat.
  pose proof (lp_window params). pose proof (lp_total params) as Htot. pose proof (piece_len_pos p) as Hpos.
  assert (u32_max < u64_max) by done.
  rewrite (scan_turn fuel s (piece_head seq p)); [|lia|by rewrite Hidx, wrap_small by lia].
  destruct p as [chunk|chunk]; cbn [piece_head piece_len piece_events piece_ok] in *.
  - destruct (descriptor_block_spec w sb bs seq (lp_matches params) (lp_seed params) ltac:(apply (lp_bs params)) Hseq chunk Hp)
      as [Hb Htags].
    rewrite (scan_header_pass _ _ seq) by (done || by simpl). rewrite Z.eqb_refl. unfold scan_descriptor.
    cbn [counted ss_committed ss_stats ss_pending ss_idx ss_expected_seq ss_blocks_scanned]. rewrite Hfresh.
    unfold env_is_64bit, env_has_tail, env_tag_format. rewrite (lp_sb params), Htags.
    assert (zlen (decoded_tags w seq chunk) = zlen chunk) as Hlt.
    { unfold zlen. f_equal. clear. induction chunk; simpl; congruence. }
    rewrite Hlt, (proj2 (Z.leb_gt _ _)) by lia. rewrite Hidx, staged_tags, Hpend by lia.
    pose proof (zlen_nonneg chunk). rewrite !bump_ok, !saturating_add_ok by lia.
    eexists. split; [done|]. split_and!; simpl.
    + split; simpl; [lia|done|done|]. unfold pending_events. by rewrite sm_get_insert, Z.eqb_refl by done.
    + split_and!; [done|intros; by apply sm_insert_wf|]. intros k Hk. simpl. rewrite sm_get_insert by done.
      by rewrite (proj2 (Z.eqb_neq _ _)).
    + lia.
    + rewrite sm_get_insert, Z.eqb_refl by done. by eexists.
  - destruct (revoke_block_spec w sb bs seq (lp_matches params) (lp_seed params) ltac:(apply (lp_bs params)) Hseq chunk
      (pending_events (ss_pending s) seq) Hp) as [Hb Hrev].
    rewrite (scan_header_pass _ _ seq) by (done || by simpl). simpl. unfold scan_revoke.
    cbn [counted ss_committed ss_stats ss_pending ss_idx ss_expected_seq ss_blocks_scanned]. rewrite Hfresh.
    unfold env_is_64bit, env_has_tail. rewrite (lp_sb params), Hrev, Hidx, Hpend, !bump_ok by lia.
    eexists. split; [done|]. split_and!; simpl.
    + split; simpl; [lia|done|done|]. unfold pending_events. by rewrite sm_get_insert, Z.eqb_refl by done.
    + split_and!; [done|intros; by apply sm_insert_wf|]. intros k Hk. simpl. rewrite sm_get_insert by done.
      by rewrite (proj2 (Z.eqb_neq _ _)).
    + lia.
    + rewrite sm_get_insert, Z.eqb_refl by done. by eexists.
Qed.

Fixpoint heads_at (seq i : Z) (ps : list Piece) : Prop :=
  match ps with
  | [] => True
  | p :: ps' => at_idx i (piece_head seq p) ∧ heads_at seq (i + piece_len p) ps'
  end.

Lemma scan_pieces ps fuel s seq i events : 0 <= seq <= u32_max → Forall piece_ok ps → mid_txn s seq i events →
  sm_wf (ss_pending s) →
  0 <= i → i + pieces_len ps <= (env_window env).2 → 0 <= ss_blocks_scanned s <= i → heads_at seq i ps →
  ∃ s', scan_loop (length ps + fuel) env s d = scan_loop fuel env s' d ∧
    mid_txn s' seq (i + pieces_len ps) (events ++ pieces_events seq i ps) ∧ same_others seq s s' ∧
    ss_blocks_scanned s' = ss_blocks_scanned s + pieces_len ps ∧ sm_wf (ss_pending s').
Proof.
  intros Hseq. revert s i events. induction ps as [|p ps IH]; intros s i events Hps Hmid Hwf Hi Hfit Hsc Hat;
    cbn [length Nat.add pieces_len fold_right pieces_events heads_at] in *.
  { exists s. rewrite !Z.add_0_r, app_nil_r. by split_and!. }
  fold (pieces_len ps) in *. apply Forall_cons in Hps as [Hp Hps]. destruct Hat as [Hat Hats].
  pose proof (pieces_len_nonneg ps). pose proof (piece_len_pos p).
  destruct (scan_piece (length ps + fuel) s seq i events p) as (s1&->&Hmid1&Hsame1&Hsc1&_); try done; [lia|].
  assert (sm_wf (ss_pending s1)) as Hwf1 by (by apply Hsame1).
  destruct (IH s1 (i + piece_len p) (events ++ piece_events seq i p)) as (s2&Hrun&Hmid2&Hsame2&Hsc2&Hwf2); try done; try lia.
  exists s2. rewrite Hrun, Z.add_assoc, app_assoc. split_and!; [done|done|by etrans|lia|done].
Qed.

(** The commit of the transaction. *)
Lemma scan_commit_block fuel s seq i events : 0 <= seq <= u32_max → mid_txn s seq i events →
  0 <= i < (env_window env).2 → 0 <= ss_blocks_scanned s <= i → at_idx i (commit_block w bs seq) →
  ∃ s', scan_loop (S fuel) env s d = scan_loop fuel env s' d ∧
    ss_idx s' = i + 1 ∧ ss_expected_seq s' = Some (wrapping_add32 seq 1) ∧ ss_pending s' = ss_pending s ∧
    ss_committed s' = ss_insert seq (ss_committed s) ∧ ss_blocks_scanned s' = ss_blocks_scanned s + 1.
Proof.
  intros Hseq [Hidx Hexp Hfresh Hpend] Hi Hsc Hat. pose proof (lp_window params). pose proof (lp_total params).
  assert (u32_max < u64_max) by done.
  rewrite (scan_turn fuel s (commit_block w bs seq)); [|lia|by rewrite Hidx, wrap_small by lia].
  pose proof (commit_block_spec w sb bs seq (lp_matches params) (lp_seed params) ltac:(apply (lp_bs params)) Hseq
    (conj (proj1 (lp_bs params)) (lp_commit params))) as Hb.
  rewrite (scan_header_pass _ _ seq) by (done || by simpl). simpl. unfold scan_commit. simpl.
  rewrite Hexp, Z.eqb_refl, Hidx, !bump_ok by lia. eexists. split; [done|]. by split_and!.
Qed.

(** ** Transactions *)

Definition txn_len (ps : list Piece) : Z := pieces_len ps + 1.
Definition log_len (txns : list (list Piece)) : Z := fold_right (λ ps acc, txn_len ps + acc) 0 txns.
Definition log_turns (txns : list (list Piece)) : nat := fold_right (λ ps acc, length ps + 1 + acc)%nat 0%nat txns.

Lemma log_len_app a b : log_len (a ++ b) = log_len a + log_len b.
Proof. induction a as [|p a IH]; simpl; lia. Qed.
Lemma log_len_nonneg a : 0 <= log_len a.
Proof. induction a as [|p a IH]; simpl; [lia|]. unfold txn_len. pose proof (pieces_len_nonneg p). lia. Qed.

(** Headers and commits of [txns] on the device, from sequence [seq] and index [i]. *)
Fixpoint txns_at (seq i : Z) (txns : list (list Piece)) : Prop :=
  match txns with
  | [] => True
  | ps :: txns' =>
      heads_at seq i ps ∧ at_idx (i + pieces_len ps) (commit_block w bs seq) ∧
      txns_at (wrapping_add32 seq 1) (i + txn_len ps) txns'
  end.

(** The events of the [k]-th transaction. *)
Definition txn_events (seq i : Z) (txns : list (list Piece)) (k : nat) : list TxnBodyEvent :=
  match txns !! k with
  | Some ps => pieces_events (nth_seq seq k) (i + log_len (take k txns)) ps
  | None => []
  end.

(** The scan has passed the transactions [txns]. *)
Record logged (s : ScanState) (seq i : Z) (txns : list (list Piece)) : Prop := {
  lg_idx : ss_idx s = i + log_len txns;
  lg_expected : ss_expected_seq s = Some (nth_seq seq (length txns));
  lg_pending_wf : sm_wf (ss_pending s);
  lg_pending : ∀ k, (k < length txns)%nat → pending_events (ss_pending s) (nth_seq seq k) = txn_events seq i txns k;
  lg_keys : ∀ x, is_Some (sm_get x (ss_pending s)) → ∃ k, (k < length txns)%nat ∧ x = nth_seq seq k;
  lg_committed_wf : sm_wf (ss_committed s);
  lg_committed : ∀ x, (x, ()) ∈ ss_committed s ↔ ∃ k, (k < length txns)%nat ∧ x = nth_seq seq k;
}.

Lemma logged_mid s seq i txns : logged s seq i txns → Z.of_nat (length txns) < 2 ^ 32 →
  mid_txn s (nth_seq seq (length txns)) (i + log_len txns) [].
Proof.
  intros Hl Hn. split; [apply Hl|apply Hl| |].
  - destruct (ss_contains _ _) eqn:Hc; [|done]. apply ss_contains_spec in Hc; [|apply Hl].
    apply Hl in Hc as (k&Hk&He). apply nth_seq_inj in He; lia.
  - unfold pending_events. destruct (sm_get _ _) as [ev|] eqn:Hg; [|done].
    destruct (lg_keys _ _ _ _ Hl (nth_seq seq (length txns))) as (k&Hk&He); [by rewrite Hg|].
    apply nth_seq_inj in He; lia.
Qed.

Lemma txn_events_snoc seq i txns ps k : (k < length txns)%nat →
  txn_events seq i (txns ++ [ps]) k = txn_events seq i txns k.
Proof. intros Hk. unfold txn_events. by rewrite lookup_app_l, take_app_le by lia. Qed.

Lemma txn_events_last seq i txns ps :
  txn_events seq i (txns ++ [ps]) (length txns) = pieces_events (nth_seq seq (length txns)) (i + log_len txns) ps.
Proof. unfold txn_events. by rewrite list_lookup_middle, take_app_length by done. Qed.

Lemma scan_txn fuel s seq i txns ps : logged s seq i txns → Z.of_nat (length txns) < 2 ^ 32 →
  Forall piece_ok ps → 0 <= i → i + log_len txns + txn_len ps <= (env_window env).2 →
  0 <= ss_blocks_scanned s <= i + log_len txns →
  heads_at (nth_seq seq (length txns)) (i + log_len txns) ps →
  at_idx (i + log_len txns + pieces_len ps) (commit_block w bs (nth_seq seq (length txns))) →
  ∃ s', scan_loop (length ps + S fuel) env s d = scan_loop fuel env s' d ∧ logged s' seq i (txns ++ [ps]) ∧
    ss_blocks_scanned s' = ss_blocks_scanned s + txn_len ps.
Proof.
  intros Hl Hn Hps Hi Hfit Hsc Hheads Hcommit. pose proof (log_len_nonneg txns). unfold txn_len in *.
  pose proof (pieces_len_nonneg ps). set (sq := nth_seq seq (length txns)) in *.
  destruct (scan_pieces ps (S fuel) s sq (i + log_len txns) []) as (s1&->&Hmid&Hsame&Hsc1&Hwf1);
    [apply nth_seq_u32|done|by apply logged_mid|apply Hl|lia|lia|lia|done|].
  destruct (scan_commit_block fuel s1 sq (i + log_len txns + pieces_len ps) ([] ++ pieces_events sq (i + log_len txns) ps))
    as (s2&->&Hidx&Hexp&Hpend&Hcomm&Hsc2); [apply nth_seq_u32|done|lia|lia|done|].
  exists s2. split; [done|]. split; [|lia]. destruct Hsame as (Hc1&_&Hk1).
  split; rewrite ?length_app, ?log_len_app; simpl.
  - rewrite Hidx. unfold txn_len. lia.
  - rewrite Hexp. unfold sq. rewrite nth_seq_S. do 2 f_equal. lia.
  - by rewrite Hpend.
  - intros k Hk. rewrite Hpend. destruct (decide (k = length txns)) as [->|Hne].
    + fold sq. rewrite (mt_pending _ _ _ _ Hmid). unfold sq. by rewrite txn_events_last.
    + unfold pending_events. rewrite Hk1; [|intros He; apply nth_seq_inj in He; lia].
      fold (pending_events (ss_pending s) (nth_seq seq k)). rewrite txn_events_snoc by lia. apply Hl. lia.
  - intros x. rewrite Hpend. intros Hx. destruct (decide (x = sq)) as [->|Hne].
    + exists (length txns). split; [lia|done].
    + rewrite Hk1 in Hx by done. apply Hl in Hx as (k&?&->). exists k. split; [lia|done].
  - rewrite Hcomm, Hc1. apply sm_insert_wf, Hl.
  - intros x. rewrite Hcomm, Hc1. unfold ss_insert. rewrite <-sm_get_elem by (apply sm_insert_wf, Hl).
    rewrite sm_get_insert by apply Hl. split.
    + case_if; [|intros Hx; apply sm_get_elem, Hl in Hx as (k&?&->); [|apply Hl]; exists k; split; [lia|done]].
      intros _. exists (length txns). subst x. split; [lia|done].
    + intros (k&Hk&->). case_if; [done|]. apply sm_get_elem; [apply Hl|]. apply Hl. exists k. split; [|done].
      assert (k ≠ length txns) by (intros ->; done). lia.
Qed.

Lemma scan_txns rest fuel s seq i txns : logged s seq i txns → Z.of_nat (length txns + length rest) < 2 ^ 32 →
  Forall (Forall piece_ok) rest → 0 <= i → i + log_len txns + log_len rest <= (env_window env).2 →
  0 <= ss_blocks_scanned s <= i + log_len txns →
  txns_at (nth_seq seq (length txns)) (i + log_len txns) rest →
  ∃ s', scan_loop (log_turns rest + fuel) env s d = scan_loop fuel env s' d ∧ logged s' seq i (txns ++ rest).
Proof.
  revert s txns. induction rest as [|ps rest IH]; intros s txns Hl Hn Hps Hi Hfit Hsc Hat.
  { exists s. by rewrite app_nil_r. }
  apply Forall_cons in Hps as [Hp Hps]. cbn [log_len log_turns fold_right length txns_at] in *.
  fold (log_len rest) in *. fold (log_turns rest). destruct Hat as (Hheads&Hcommit&Hat).
  pose proof (log_len_nonneg rest).
  replace (length ps + 1 + log_turns rest + fuel)%nat with (length ps + S (log_turns rest + fuel))%nat by lia.
  destruct (scan_txn (log_turns rest + fuel) s seq i txns ps) as (s1&->&Hl1&Hsc1); try done; try lia.
  assert (log_len (txns ++ [ps]) = log_len txns + txn_len ps) as He by (rewrite log_len_app; simpl; lia).
  assert (0 <= txn_len ps) by (unfold txn_len; pose proof (pieces_len_nonneg ps); lia).
  rewrite nth_seq_S, <-Z.add_assoc, <-He in Hat.
  replace (txns ++ ps :: rest) with ((txns ++ [ps]) ++ rest) by (by rewrite <-app_assoc).
  assert (length (txns ++ [ps]) = S (length txns)) as Hlen by (rewrite length_app; simpl; lia).
  apply IH; rewrite ?Hlen; try done; lia.
Qed.

(** ** Past the last commit *)

(** [b] does not commit transaction [seq], nor the one after it. *)
Definition no_commit (seq : Z) (b : bytes) : Prop :=
  ∀ h, parse_header b = Some h → jh_block_type h = JBD2_BLOCKTYPE_COMMIT →
    jh_sequence h ≠ seq ∧ jh_sequence h ≠ wrapping_add32 seq 1.

(** Only transactions that [committed] does not hold have changed. *)
Definition only_uncommitted (seq : Z) (s s' : ScanState) : Prop :=
  ss_committed s' = ss_committed s ∧ ss_expected_seq s' = ss_expected_seq s ∧
  ss_idx s <= ss_idx s' ∧ (sm_wf (ss_pending s) → sm_wf (ss_pending s')) ∧
  (sm_wf (ss_pending s) → ∀ k, k ≠ seq → k ≠ wrapping_add32 seq 1 → sm_get k (ss_pending s') = sm_get k (ss_pending s)).

Lemma bump_le x : x <= u64_max → x <= bump x.
Proof. unfold bump, saturating_add. lia. Qed.

Lemma scan_block_uncommitted seq raw s s' go : ss_expected_seq s = Some seq → ss_idx s <= u64_max → no_commit seq raw →
  scan_block env raw s = (s', go) → only_uncommitted seq s s' ∧ ss_idx s' <= u64_max.
Proof.
  intros He Hi Hno. assert (only_uncommitted seq s s ∧ ss_idx s <= u64_max) as Hsame by (split; [by split_and!|done]).
  unfold scan_block. destruct (parse_header raw) as [h|] eqn:Hh; [|rewrite He; by intros [= <- <-]].
  case_if; [rewrite He; by intros [= <- <-]|]. specialize (Hno h Hh).
  unfold scan_header. case_if; [by intros [= <- <-]|]. rewrite He. case_if; [by intros [= <- <-]|].
  assert (jh_sequence h = seq ∨ jh_sequence h = wrapping_add32 seq 1) as Hseq
    by (rewrite !negb_false_iff, !Z.eqb_eq in *; tauto).
  assert (∀ ev k, sm_wf (ss_pending s) → k ≠ seq → k ≠ wrapping_add32 seq 1 →
    sm_get k (sm_insert (jh_sequence h) ev (ss_pending s)) = sm_get k (ss_pending s)) as Hins.
  { intros ev k Hwf Hk Hk'. rewrite sm_get_insert by done. rewrite (proj2 (Z.eqb_neq _ _)); [done|]. destruct Hseq; congruence. }
  pose proof (bump_le _ Hi).
  assert (bump (ss_idx s) <= u64_max) by (unfold bump, saturating_add; lia).
  case_if; [|case_if; [|case_if]].
  - unfold scan_descriptor. case_if; [by intros [= <- <-]|].
    destruct (parse_descriptor_tags_strict_with_format _ _ _ _) as [tags|]; [|intros [= <- <-]; split; [by split_and!|done]].
    case_if; intros [= <- <-]; simpl; (split; [split_and!; simpl; auto using sm_insert_wf|]); try done.
    + unfold saturating_add. pose proof (zlen_nonneg tags). lia.
    + unfold saturating_add. lia.
  - bool_to_prop. tauto.
  - unfold scan_revoke. case_if; [by intros [= <- <-]|].
    destruct (extend_strict_revoke_events _ _ _ _) as [ev [n|]]; intros [= <- <-]; simpl;
      (split; [split_and!; simpl; auto using sm_insert_wf|]); done.
  - case_if; intros [= <- <-]; [done|]. split; [|done]. by split_and!.
Qed.

Lemma only_uncommitted_trans seq a b c : only_uncommitted seq a b → only_uncommitted seq b c → only_uncommitted seq a c.
Proof.
  intros (Hc&He&Hi&Hw&Hk) (Hc'&He'&Hi'&Hw'&Hk'). split_and!; [congruence..|lia|auto|].
  intros Hwf k Hne Hne'. rewrite Hk' by auto. auto.
Qed.

Lemma wrap_idx_range i : 0 <= i → 0 <= wrap_idx (env_window env) i < (env_window env).2.
Proof.
  intros Hi. pose proof (lp_window params). unfold wrap_idx. case_if; [lia|].
  pose proof (Z.mod_pos_bound (i - (env_window env).1) ((env_window env).2 - (env_window env).1)). lia.
Qed.

(** The scan goes on as far as it likes: nothing more is committed. *)
Lemma scan_uncommitted fuel s seq : ss_expected_seq s = Some seq → 0 <= ss_idx s <= u64_max →
  (∀ i, 0 <= i < (env_window env).2 → ∃ b, at_idx i b ∧ no_commit seq b) →
  ∃ s', scan_loop fuel env s d = (d, Ok s') ∧ only_uncommitted seq s s'.
Proof.
  intros He Hi Hno. revert s He Hi. induction fuel as [|fuel IH]; intros s He Hi.
  { exists s. split; [done|]. by split_and!. }
  destruct (decide (ss_blocks_scanned s < re_total_blocks env)) as [Hlt|Hge].
  2:{ exists s. cbn [scan_loop]. rewrite (proj2 (Z.leb_le _ _)) by lia. split; [done|]. by split_and!. }
  destruct (Hno (wrap_idx (env_window env) (ss_idx s))) as (b&Hat&Hb); [apply wrap_idx_range; lia|].
  rewrite (scan_turn fuel s b) by done. destruct (scan_block env b (counted s)) as [s1 go] eqn:E.
  destruct (scan_block_uncommitted seq b (counted s) s1 go He ltac:(simpl; lia) Hb E) as [Hu Hi1].
  assert (only_uncommitted seq s s1) as Hu' by done.
  destruct go; [|by exists s1].
  destruct Hu as (_&He1&Hi2&_). simpl in *. destruct (IH s1) as (s2&->&Hu2); [congruence|lia|].
  exists s2. split; [done|]. by eapply only_uncommitted_trans.
Qed.

(** ** The scan of a log *)

(** What the scan of a log with the committed transactions [txns] ends with. *)
Record scanned_log (s : ScanState) (seq i : Z) (txns : list (list Piece)) : Prop := {
  sl_pending : ∀ k, (k < length txns)%nat → pending_events (ss_pending s) (nth_seq seq k) = txn_events seq i txns k;
  sl_order : commit_order (ss_committed s).*1 = nth_seq seq <$> List.seq 0 (length txns);
}.

Lemma scan_log fuel stats seq i txns : 0 <= seq <= u32_max → Z.of_nat (length txns) + 1 < 2 ^ 32 →
  Forall (Forall piece_ok) txns → 0 <= i → i + log_len txns <= (env_window env).2 →
  txns_at seq i txns →
  (∀ j, 0 <= j < (env_window env).2 → ∃ b, at_idx j b ∧ no_commit (nth_seq seq (length txns)) b) →
  ∃ s, scan_loop (log_turns txns + fuel) env (mkScanState stats [] [] i (Some seq) 0) d = (d, Ok s) ∧
    scanned_log s seq i txns.
Proof.
  intros Hseq Hn Hps Hi Hfit Hat Hno. pose proof (lp_window params). pose proof (lp_total params).
  assert (u32_max < u64_max) by done. pose proof (log_len_nonneg txns).
  set (s0 := mkScanState stats [] [] i (Some seq) 0).
  assert (logged s0 seq i []) as Hl0.
  { split; simpl; [lia|by rewrite nth_seq_0|apply seq_strict_nil| |by intros x [? ?]|apply seq_strict_nil|]; [intros; lia|].
    intros x. split; [by intros ?%not_elem_of_nil|intros (k&?&_); lia]. }
  destruct (scan_txns txns fuel s0 seq i []) as (s1&->&Hl); simpl; try done; try lia.
  { by rewrite nth_seq_0, Z.add_0_r. }
  cbn [app] in Hl.
  destruct (scan_uncommitted fuel s1 (nth_seq seq (length txns))) as (s2&->&Hc&_&_&_&Hp); [apply Hl| |done|].
  { rewrite (lg_idx _ _ _ _ Hl). lia. }
  exists s2. split; [done|]. specialize (Hp (lg_pending_wf _ _ _ _ Hl)). split.
  - intros k Hk. unfold pending_events. rewrite Hp.
    + apply Hl, Hk.
    + intros ?%nth_seq_inj; lia.
    + rewrite nth_seq_S. intros ?%nth_seq_inj; lia.
  - rewrite Hc. apply commit_order_run; [done|lia| |].
    + pose proof (lg_committed_wf _ _ _ _ Hl) as Hwf. intros a b x y Hab.
      rewrite !list_lookup_fmap, !fmap_Some. intros (u&Hu&->) (v&Hv&->). by apply (Hwf a b).
    + intros x. rewrite <-(lg_committed _ _ _ _ Hl), list_elem_of_fmap. split.
      * intros ([? []]&->&?). done.
      * intros ?. by exists (x, ()).
Qed.
End log.
