(* ===== verification/Jbd2Apply.v ===== *)
(** * What a replay writes

    The effect of the committed transactions on the home blocks: in commit
    order, a write sets its block and a revoke forgets the writes before it.
    The staged writes follow it, and the replay writes it out. *)

From stdpp Require Import base sorting numbers gmap list.
From S2P Require Import Prelude Sorted Wal WalReplay WalWriter Journal Jbd2 Jbd2Replay Jbd2Writer Jbd2Codec Jbd2Order Jbd2Log.

Local Open Scope Z_scope.

#[local] Opaque be_bytes zeros.

(** ** The effect *)

(** A journalled block with its magic number back in place. *)
Definition restored (c : ChunkWrite) : bytes :=
  if cw_escaped c then put (cw_padded c) 0 (be_bytes 4 JBD2_MAGIC) else cw_padded c.

Definition piece_effect (m : gmap Z bytes) (p : Piece) : gmap Z bytes :=
  match p with
  | PieceWrites chunk => fold_left (λ m c, <[cw_target c := restored c]> m) chunk m
  | PieceRevokes chunk => fold_left (λ m t, delete t m) chunk m
  end.
Definition txn_effect (m : gmap Z bytes) (ps : list Piece) : gmap Z bytes := fold_left piece_effect ps m.
Definition log_effect (txns : list (list Piece)) : gmap Z bytes := fold_left txn_effect txns ∅.

Definition piece_sized (bs : Z) (p : Piece) : Prop :=
  match p with PieceWrites chunk => Forall (λ c, zlen (cw_padded c) = bs) chunk | PieceRevokes _ => True end.

Section apply.
Context `{Crc32cAppend}.
Context (w : Jbd2Writer) (sb : Jbd2Superblock) (bs : Z) (env : ReplayEnv) (d : Device).
Hypothesis params : log_params w sb bs env.

(** The data blocks on the device. *)
Definition data_at (i : Z) (p : Piece) : Prop :=
  match p with
  | PieceWrites chunk => ∀ j c, chunk !! j = Some c → at_idx env d (i + 1 + Z.of_nat j) (cw_padded c)
  | PieceRevokes _ => True
  end.
Fixpoint pieces_data_at (i : Z) (ps : list Piece) : Prop :=
  match ps with
  | [] => True
  | p :: ps' => data_at i p ∧ pieces_data_at (i + piece_len p) ps'
  end.
Fixpoint log_data_at (i : Z) (txns : list (list Piece)) : Prop :=
  match txns with
  | [] => True
  | ps :: txns' => pieces_data_at i ps ∧ log_data_at (i + txn_len ps) txns'
  end.

(** Replaying [staged] writes [x]. *)
Definition stages (staged : StagedWrite) (x : bytes) : Prop :=
  ∃ y, at_idx env d (sw_journal_idx staged) y ∧ data_checksum_matches env staged y = true ∧
    restore_escaped staged y = Ok x ∧ zlen x = bs.

(** The staged writes stand for the effect [m]. *)
Definition tracks (writes : smap StagedWrite) (m : gmap Z bytes) : Prop :=
  sm_wf writes ∧ ∀ t,
    match sm_get t writes, m !! t with
    | Some staged, Some x => stages staged x
    | None, None => True
    | _, _ => False
    end.

Lemma tracks_insert writes m t staged x : tracks writes m → stages staged x →
  tracks (sm_insert t staged writes) (<[t := x]> m).
Proof.
  intros [Hwf Ht] Hs. split; [by apply sm_insert_wf|]. intros t'. rewrite sm_get_insert by done.
  destruct (Z.eqb_spec t' t) as [->|Hne]; [by rewrite lookup_insert_eq|]. rewrite lookup_insert_ne by done. apply Ht.
Qed.

Lemma tracks_revoke writes stats m t : tracks writes m →
  tracks (apply_event (writes, stats) (EventRevoke t)).1 (delete t m).
Proof.
  intros [Hwf Ht]. simpl. pose proof (Ht t) as Htt. destruct (sm_get t writes) as [staged|] eqn:Hg; simpl.
  - split; [by apply sm_remove_wf|]. intros t'. rewrite sm_get_remove by done.
    destruct (Z.eqb_spec t' t) as [->|Hne]; [by rewrite lookup_delete_eq|]. rewrite lookup_delete_ne by done. apply Ht.
  - split; [done|]. intros t'. destruct (decide (t' = t)) as [->|Hne].
    + by rewrite Hg, lookup_delete_eq.
    + rewrite lookup_delete_ne by done. apply Ht.
Qed.

(** ** Events *)

Lemma chunk_events_cons seq i c chunk :
  chunk_events w seq i (c :: chunk) =
    EventWrite (cw_target c) (mkStaged (i + 1) (cw_escaped c) (dt_data_checksum (decoded_tag w seq c true)) seq)
    :: chunk_events w seq (i + 1) chunk.
Proof.
  unfold chunk_events. rewrite imap_cons, Z.add_0_r. f_equal. apply imap_ext. intros j x _. simpl. do 2 f_equal. lia.
Qed.

Lemma chunk_stages seq c j : at_idx env d j (cw_padded c) → zlen (cw_padded c) = bs →
  stages (mkStaged j (cw_escaped c) (dt_data_checksum (decoded_tag w seq c true)) seq) (restored c).
Proof.
  intros Hat Hl. pose proof (lp_bs _ _ _ _ params) as [Hb _]. unfold JBD2_HEADER_SIZE in Hb.
  exists (cw_padded c). split_and!; [done| | |].
  - unfold data_checksum_matches. case_if; [|done].
    rewrite (lp_sb _ _ _ _ params). simpl. destruct (lp_matches _ _ _ _ params) as [_ -> _ ->].
    destruct (jw_tag_format w); [done|..]; apply Z.eqb_refl.
  - unfold restore_escaped, restored. simpl. destruct (cw_escaped c); [|done].
    by rewrite (proj2 (Z.leb_le _ _)) by lia.
  - unfold restored. destruct (cw_escaped c); [|done]. rewrite put_length; [done|lia|]. rewrite zlen_be_bytes. lia.
Qed.

Lemma tracks_chunk seq chunk i writes stats m : tracks writes m → data_at i (PieceWrites chunk) →
  Forall (λ c, zlen (cw_padded c) = bs) chunk →
  tracks (fold_left apply_event (chunk_events w seq i chunk) (writes, stats)).1 (piece_effect m (PieceWrites chunk)).
Proof.
  revert i writes stats m. induction chunk as [|c chunk IH]; intros i writes stats m Ht Hat Hl; [done|].
  apply Forall_cons in Hl as [Hc Hl]. rewrite chunk_events_cons. simpl. apply IH; [|intros j c' Hj|done].
  - apply tracks_insert; [done|]. apply chunk_stages; [|done].
    specialize (Hat 0%nat c eq_refl). by rewrite Z.add_0_r in Hat.
  - specialize (Hat (S j) c' Hj). replace (i + 1 + 1 + Z.of_nat j) with (i + 1 + Z.of_nat (S j)) by lia. done.
Qed.

Lemma tracks_revokes chunk writes stats m : tracks writes m →
  tracks (fold_left apply_event (EventRevoke <$> chunk) (writes, stats)).1 (piece_effect m (PieceRevokes chunk)).
Proof.
  revert writes stats m. induction chunk as [|t chunk IH]; intros writes stats m Ht; [done|].
  pose proof (tracks_revoke writes stats m t Ht) as Hr. cbn [fmap list_fmap fold_left piece_effect] in *.
  destruct (apply_event (writes, stats) (EventRevoke t)) as [ws' st']. by apply IH.
Qed.

Lemma tracks_pieces seq ps i writes stats m : tracks writes m → pieces_data_at i ps → Forall (piece_sized bs) ps →
  tracks (fold_left apply_event (pieces_events w seq i ps) (writes, stats)).1 (txn_effect m ps).
Proof.
  revert i writes stats m. induction ps as [|p ps IH]; intros i writes stats m Ht Hat Hs; [done|].
  apply Forall_cons in Hs as [Hp Hs]. destruct Hat as [Hat Hats]. cbn [pieces_events txn_effect fold_left].
  rewrite fold_left_app.
  assert (tracks (fold_left apply_event (piece_events w seq i p) (writes, stats)).1 (piece_effect m p)) as H1.
  { destruct p; [by apply tracks_chunk|by apply tracks_revokes]. }
  destruct (fold_left apply_event (piece_events w seq i p) (writes, stats)) as [ws' st']. by apply IH.
Qed.

(** ** The final writes *)

Lemma apply_txn_events pending seq st :
  (apply_txn pending st seq).1 = (fold_left apply_event (pending_events pending seq) st).1.
Proof. unfold apply_txn, pending_events. by destruct (sm_get seq pending). Qed.

Lemma log_data_lookup i txns k ps : log_data_at i txns → txns !! k = Some ps →
  pieces_data_at (i + log_len (take k txns)) ps.
Proof.
  revert i k. induction txns as [|q txns IH]; intros i k Hat Hk; [done|]. destruct Hat as [Hq Hat].
  destruct k as [|k]; simpl in *.
  - simplify_eq. by rewrite Z.add_0_r.
  - fold (log_len (take k txns)). rewrite Z.add_assoc. by apply IH.
Qed.

Lemma tracks_log pending seq i txns n stats :
  (∀ k, (k < length txns)%nat → pending_events pending (nth_seq seq k) = txn_events w seq i txns k) →
  log_data_at i txns → Forall (Forall (piece_sized bs)) txns → (n <= length txns)%nat →
  tracks (final_writes pending (nth_seq seq <$> List.seq 0 n) stats).1 (log_effect (take n txns)).
Proof.
  intros Hp Hat Hs. induction n as [|n IH]; intros Hn.
  { split; [apply seq_strict_nil|]. intros t. rewrite take_0.
    change (log_effect []) with (∅ : gmap Z bytes). by rewrite lookup_empty. }
  destruct (lookup_lt_is_Some_2 txns n) as [ps Hps]; [lia|].
  rewrite seq_S, fmap_app, (take_S_r _ _ ps) by done. unfold final_writes, log_effect. rewrite !fold_left_app.
  rewrite Nat.add_0_l. cbn [fmap list_fmap fold_left]. rewrite apply_txn_events, Hp by lia. unfold txn_events. rewrite Hps.
  unfold final_writes in IH. specialize (IH ltac:(lia)).
  destruct (fold_left (apply_txn pending) (nth_seq seq <$> List.seq 0 n) ([], stats)) as [ws' st'].
  apply tracks_pieces; [done|by apply log_data_lookup|].
  by eapply Forall_lookup_1 in Hs.
Qed.

(** ** Writing them *)

Lemma plan_reads writes m : tracks writes m →
  ∃ planned, plan_writes env writes = Ok planned ∧
    Forall2 (λ wr r, r.1 = wr ∧ ∃ x y, m !! wr.1 = Some x ∧ r.2 = Ok y ∧
      data_checksum_matches env wr.2 y = true ∧ restore_escaped wr.2 y = Ok x ∧ zlen x = bs)
      writes (staged_reads d planned).
Proof.
  intros [Hwf Ht]. assert (∀ t st, (t, st) ∈ writes → ∃ x, m !! t = Some x ∧ stages st x) as Hall.
  { intros t st Hin. apply sm_get_elem in Hin; [|done]. specialize (Ht t). rewrite Hin in Ht.
    destruct (m !! t) as [x|]; [|done]. by exists x. }
  clear Hwf Ht. induction writes as [|[t st] writes IH]; [by exists []|].
  destruct IH as (planned&Hpl&Hf); [intros; apply Hall; by right|].
  destruct (Hall t st ltac:(by left)) as (x&Hx&y&(_&a&Ha&Hr)&Hc&He&Hz).
  exists ((t, st, a) :: planned). cbn [plan_writes]. rewrite Ha. cbn [mbind res_bind]. rewrite Hpl. split; [done|].
  constructor; [|done]. simpl. rewrite Hr. split; [done|]. by exists x, y.
Qed.

(** The block writes of the consumption. *)
Lemma consume_spec reads n d0 d1 out (ws : list (Z * bytes)) :
  Forall2 (λ r w, r.1.1 = w.1 ∧ ∃ y, r.2 = Ok y ∧ data_checksum_matches env r.1.2 y = true ∧ restore_escaped r.1.2 y = Ok w.2)
    reads ws →
  consume_writes env reads n d0 = (d1, out) → ∃ n', (write_blocks ws d0).1 = d1 ∧
    out = match (write_blocks ws d0).2 with Ok _ => Ok n' | Err e => Err e end.
Proof.
  intros Hf. revert n d0. induction Hf as [|[[t st] r] [t' x] reads ws (Ht&y&Hr&Hc&He) Hf IH]; intros n d0; simpl.
  { intros [= <- <-]. by exists n. }
  simpl in *. subst t' r. unfold mbind, devM_bind, lift. rewrite Hc. simpl. rewrite He.
  destruct (write_block t x d0) as [d2 [[]|e]]; [apply IH|]. intros [= <- <-]. by exists 0.
Qed.
End apply.

(** ** Sequences of block writes *)

(** Every write of [ws] fits. *)
Definition writes_fit (d : Device) (ws : list (Z * bytes)) : Prop :=
  Forall (λ w, w.1 < dev_block_count d ∧ zlen w.2 = dev_block_size d) ws.

(** [d'] differs from [d] in blocks of [bs] only, and in the answers left. *)
Record same_but (bs : list Z) (d d' : Device) : Prop := {
  sb_size : dev_block_size d' = dev_block_size d;
  sb_count : dev_block_count d' = dev_block_count d;
  sb_unreadable : dev_unreadable d' = dev_unreadable d;
  sb_blocks : ∀ b, b ∉ bs → block_at d' b = block_at d b;
}.

Lemma write_all_union ws m : write_all ws m = write_all ws ∅ ∪ m.
Proof.
  revert m. induction ws as [|[t x] ws IH]; intros m; simpl; [by rewrite (left_id_L ∅ (∪))|].
  unfold write_all in *. simpl. rewrite IH, (IH (<[t := x]> ∅)), <-(assoc_L (∪)). f_equal.
  by rewrite <-insert_union_l, (left_id_L ∅ (∪)).
Qed.

Lemma write_blocks_spec ws d d' out : writes_fit d ws → write_blocks ws d = (d', out) →
  same_but ws.*1 d d' ∧ (dev_writes d = [] → out = Ok () ∧ dev_writes d' = []) ∧
  (out = Ok () → ∀ b, block_at d' b = default (block_at d b) (write_all ws ∅ !! b)).
Proof.
  revert d. induction ws as [|[t x] ws IH]; intros d Hf; simpl.
  { intros [= <- <-]. split_and!; try done. }
  apply Forall_cons in Hf as [[Hc Hz] Hf]. unfold mbind, devM_bind. simpl in *.
  destruct (write_block t x d) as [d1 o] eqn:E. apply write_block_outcome in E; [|done..].
  assert (same_but [t] d d1) as Hs1.
  { destruct E; split; try done; intros b Hb; [rewrite block_at_write, decide_False by set_solver; done
      |apply add_writes_nil_at|rewrite block_at_write, decide_False by set_solver; done]. }
  assert (dev_writes d = [] → o = Ok () ∧ dev_writes d1 = []) as Hcalm1.
  { intros Hd. destruct E as [ws' Hs|ws' Hs Hn|ws' y Hs Hn]; [|done..]. rewrite Hd in Hs. by apply suffix_nil_inv in Hs. }
  assert (o = Ok () → ∀ b, block_at d1 b = if decide (b = t) then x else block_at d b) as Hok1.
  { intros ->. inversion E; subst. intros b. apply block_at_write. }
  destruct o as [[]|e].
  2:{ intros [= <- <-]. split_and!; [|intros Hd; by apply Hcalm1 in Hd as [? _]|done].
      destruct Hs1. split; try done. intros b Hb. apply sb_blocks0. set_solver. }
  intros Hr. destruct Hs1 as [Hs1 Hc1 Hu1 Hb1]. destruct (IH d1) as (Hs2&Hcalm2&Hok2); [|done|].
  { eapply Forall_impl; [done|]. simpl. intros q. by rewrite Hs1, Hc1. }
  split_and!.
  - destruct Hs2. split; [congruence..|]. intros b Hb. rewrite sb_blocks0, Hb1 by set_solver. done.
  - intros Hd. apply Hcalm2, Hcalm1, Hd.
  - intros Ho b. rewrite Hok2, Hok1 by done.
    change (write_all ((t, x) :: ws) ∅) with (write_all ws (<[t := x]> ∅)).
    rewrite (write_all_union ws (<[t := x]> ∅)), lookup_union. destruct (write_all ws ∅ !! b); simpl.
    + by destruct (<[t:=x]> ∅ !! b).
    + case_decide; [subst; by rewrite lookup_insert_eq|]. by rewrite lookup_insert_ne, lookup_empty by done.
Qed.

Lemma write_all_sm (ws : smap bytes) b : sm_wf ws → write_all ws ∅ !! b = sm_get b ws.
Proof.
  induction ws as [|[t x] ws IH]; intros Hwf; [done|]. apply sm_wf_cons in Hwf as [Ht Hwf].
  change (write_all ((t, x) :: ws) ∅) with (write_all ws (<[t := x]> ∅)).
  rewrite write_all_union, lookup_union, IH by done. simpl. destruct (Z.eqb_spec b t) as [->|Hne].
  - rewrite lookup_insert_eq. destruct (sm_get t ws) as [y|] eqn:Hg; [|done].
    apply sm_get_elem in Hg; [|done]. apply Ht in Hg. simpl in Hg. lia.
  - rewrite lookup_insert_ne, lookup_empty by done. by destruct (sm_get b ws).
Qed.

Lemma sm_get_fmap {V W} (f : Z → V → W) b (m : smap V) :
  sm_get b ((λ kv, (kv.1, f kv.1 kv.2)) <$> m) = f b <$> sm_get b m.
Proof. induction m as [|[k v] m IH]; [done|]. simpl. destruct (Z.eqb_spec b k); [by subst|done]. Qed.

Lemma sm_map_wf {V W} (f : Z → V → W) (m : smap V) : sm_wf m → sm_wf ((λ kv, (kv.1, f kv.1 kv.2)) <$> m).
Proof.
  intros Hwf i j x y Hij. rewrite !list_lookup_fmap, !fmap_Some. intros (u&Hu&->) (v&Hv&->). by apply (Hwf i j u v).
Qed.

(** ** The replay of a log *)

Section replay_log.
Context `{Crc32cAppend}.

(** The log of the committed transactions [txns] is on the device: the
    superblock, the blocks of every transaction from the start block on, and no
    commit of a transaction past the last. *)
Record log_on (w : Jbd2Writer) (sb : Jbd2Superblock) (env : ReplayEnv) (txns : list (list Piece)) (d : Device) : Prop := {
  lo_params : log_params w sb (dev_block_size d) env;
  lo_sb : ∃ raw, at_idx env d 0 raw ∧ parse_superblock raw = Some sb;
  lo_seq : 0 <= jsb_start_sequence sb <= u32_max;
  lo_start : 0 <= jsb_start_block sb;
  lo_fit : jsb_start_block sb + log_len txns <= (env_window env).2;
  lo_short : Z.of_nat (length txns) + 1 < 2 ^ 32;
  lo_ok : Forall (Forall (piece_ok w (dev_block_size d))) txns;
  lo_sized : Forall (Forall (piece_sized (dev_block_size d))) txns;
  lo_heads : txns_at w (dev_block_size d) env d (jsb_start_sequence sb) (jsb_start_block sb) txns;
  lo_data : log_data_at env d (jsb_start_block sb) txns;
  lo_rest : ∀ j, 0 <= j < (env_window env).2 →
    ∃ b, at_idx env d j b ∧ no_commit (nth_seq (jsb_start_sequence sb) (length txns)) b;
}.

(** What the replay ends in. *)
Definition replayed (txns : list (list Piece)) (d d' : Device) : Prop :=
  ∀ b, block_at d' b = default (block_at d b) (log_effect txns !! b).

Lemma replay_scanned_spec w sb env txns d s d' out : log_on w sb env txns d →
  (∀ b, is_Some (log_effect txns !! b) → b < dev_block_count d) →
  scanned_log w s (jsb_start_sequence sb) (jsb_start_block sb) txns →
  replay_scanned env s d = (d', out) →
  (∃ targets, same_but targets d d' ∧ Forall (λ t, is_Some (log_effect txns !! t)) targets) ∧
  (dev_writes d = [] → ∃ o, out = Ok o) ∧
  ∀ o, out = Ok o → ro_committed_sequences o = nth_seq (jsb_start_sequence sb) <$> List.seq 0 (length txns) ∧
    replayed txns d d'.
Proof.
  intros Hon Hin Hs. set (m := log_effect txns) in *. unfold replay_scanned. rewrite (sl_order _ _ _ _ _ Hs).
  pose proof (tracks_log w sb (dev_block_size d) env d (lo_params _ _ _ _ _ Hon) (ss_pending s) (jsb_start_sequence sb)
    (jsb_start_block sb) txns (length txns) (ss_stats s) (sl_pending _ _ _ _ _ Hs) (lo_data _ _ _ _ _ Hon)
    (lo_sized _ _ _ _ _ Hon) ltac:(lia)) as Ht.
  rewrite firstn_all in Ht. fold m in Ht. destruct (final_writes _ _ _) as [writes stats]. simpl in Ht.
  destruct (plan_reads _ _ _ _ _ Ht) as (planned&Hpl&Hf). unfold mbind, devM_bind, lift. rewrite Hpl.
  set (ws := (λ kv, (kv.1, (λ t _, default [] (m !! t)) kv.1 kv.2)) <$> writes : smap bytes).
  assert (sm_wf ws) as Hwf by apply (sm_map_wf _ _ (proj1 Ht)).
  assert (∀ b, write_all ws ∅ !! b = m !! b) as Hws.
  { intros b. rewrite write_all_sm by done. unfold ws. rewrite (sm_get_fmap (λ t _, default [] (m !! t))).
    pose proof (proj2 Ht b). by destruct (sm_get b writes), (m !! b). }
  destruct (consume_writes env (staged_reads d planned) 0 d) as [d1 o] eqn:Ec.
  assert (writes_fit d ws) as Hfit.
  { apply Forall_fmap, Forall_forall. intros [t st] Hts. simpl. pose proof (proj2 Ht t) as Htt.
    apply sm_get_elem in Hts; [|apply Ht]. rewrite Hts in Htt. destruct (m !! t) as [x|] eqn:Hx; [|done].
    destruct Htt as (y&_&_&_&Hz). split; [|done]. apply Hin. by rewrite Hx. }
  apply (consume_spec env _ _ _ _ _ ws) in Ec as (n'&Hd1&Ho).
  2:{ apply Forall2_fmap_r, Forall2_flip. eapply Forall2_impl; [done|]. intros [t st] [wr r] (Hwr&x&y&Hx&Hr&Hc&He&_).
      simpl in *. subst wr. simpl. split; [done|]. exists y. by rewrite Hx. }
  destruct (write_blocks ws d) as [d1' o'] eqn:Ew. simpl in *. subst d1' o.
  destruct (write_blocks_spec _ _ _ _ Hfit Ew) as (Hsame&Hcalm&Hok).
  assert (Forall (λ t, is_Some (m !! t)) ws.*1) as Htg.
  { apply Forall_fmap, Forall_forall. intros [t x] Hx. simpl. apply sm_get_elem in Hx; [|done].
    rewrite <-Hws, write_all_sm, Hx by done. by eexists. }
  destruct o' as [[]|e]; intros [= <- <-]; (split; [by exists ws.*1|split]).
  - intros _. by eexists.
  - intros o [= <-]. split; [done|]. intros b. rewrite Hok by done. by rewrite Hws.
  - intros Hd. apply Hcalm in Hd as [? _]. done.
  - done.
Qed.

(** ** Devices with the same log *)

(** No block of the log before index [e] has changed. *)
Definition same_log (env : ReplayEnv) (e : Z) (d d' : Device) : Prop :=
  ∀ i b, i < e → at_idx env d i b → at_idx env d' i b.

Lemma same_log_but env e targets d d' : same_but targets d d' →
  (∀ i a, 0 <= i → re_resolve env i = Ok a → a ∉ targets) → same_log env e d d'.
Proof.
  intros [_ Hc Hu Hb] Hn i b _ (Hi&a&Ha&Hr). split; [done|]. exists a. split; [done|]. specialize (Hn i a Hi Ha). revert Hr.
  unfold read_block. rewrite Hc, Hu, (Hb a Hn). case_if; [done|]. case_if; [done|]. by intros [= ->].
Qed.

Lemma heads_at_same w bs env e d d' seq i ps : same_log env e d d' → i + pieces_len ps <= e →
  heads_at w bs env d seq i ps → heads_at w bs env d' seq i ps.
Proof.
  intros Hs. revert i. induction ps as [|p ps IH]; intros i; [done|]. simpl. fold (pieces_len ps). intros He [Hp Hps].
  pose proof (piece_len_pos p). pose proof (pieces_len_nonneg ps). split; [apply Hs; [lia|done]|apply IH; [lia|done]].
Qed.

Lemma txns_at_same w bs env e d d' seq i txns : same_log env e d d' → i + log_len txns <= e →
  txns_at w bs env d seq i txns → txns_at w bs env d' seq i txns.
Proof.
  intros Hs. revert seq i. induction txns as [|ps txns IH]; intros seq i; [done|]. simpl. fold (log_len txns).
  pose proof (log_len_nonneg txns). unfold txn_len. intros He (Hh&Hc&Ht).
  split_and!; [eapply heads_at_same; [done|lia|done]|apply Hs; [lia|done]|apply IH; [lia|done]].
Qed.

Lemma log_data_same env e d d' i txns : same_log env e d d' → i + log_len txns <= e →
  log_data_at env d i txns → log_data_at env d' i txns.
Proof.
  intros Hs. revert i. induction txns as [|ps txns IH]; intros i; [done|]. simpl. fold (log_len txns).
  pose proof (log_len_nonneg txns). unfold txn_len. intros He [Hp Ht]. split; [|apply IH; [lia|done]].
  assert (i + pieces_len ps <= e) as He' by lia. clear IH Ht He. revert i Hp He'.
  induction ps as [|p ps IH]; intros i; [done|]. simpl. fold (pieces_len ps). intros [Hp Hps] He.
  pose proof (piece_len_pos p). pose proof (pieces_len_nonneg ps). split; [|apply IH; [done|lia]].
  destruct p; [|done]. intros j c Hj. apply Hs; [|by apply Hp]. apply lookup_lt_Some in Hj. simpl in He. unfold zlen in He. lia.
Qed.

Lemma log_on_same w sb env e txns d d' : same_log env e d d' → 0 < e → jsb_start_block sb + log_len txns <= e →
  dev_block_size d' = dev_block_size d →
  (∀ j, 0 <= j < (env_window env).2 → ∃ b, at_idx env d' j b ∧ no_commit (nth_seq (jsb_start_sequence sb) (length txns)) b) →
  log_on w sb env txns d → log_on w sb env txns d'.
Proof.
  intros Hs He Hle Hz Hr [? (raw&?&?) ? ? ? ? ? ? ? ? _]. split; rewrite ?Hz; try done.
  - exists raw. split; [by apply Hs|done].
  - by eapply txns_at_same.
  - by eapply log_data_same.
Qed.

Lemma log_turns_len txns : Z.of_nat (log_turns txns) <= log_len txns.
Proof.
  induction txns as [|ps txns IH]; simpl; [lia|]. fold (log_turns txns) (log_len txns). unfold txn_len.
  assert (Z.of_nat (length ps) <= pieces_len ps); [|lia]. clear.
  induction ps as [|p ps IH]; simpl; [lia|]. fold (pieces_len ps). pose proof (piece_len_pos p). lia.
Qed.

Lemma replay_inner_spec w sb total verify resolve txns d d' out : let env := mkReplayEnv total verify resolve (Some sb) in
  log_on w sb env txns d → (∀ b, is_Some (log_effect txns !! b) → b < dev_block_count d) →
  replay_jbd2_inner total verify resolve d = (d', out) →
  (∃ targets, same_but targets d d' ∧ Forall (λ t, is_Some (log_effect txns !! t)) targets) ∧
  (dev_writes d = [] → ∃ o, out = Ok o) ∧
  ∀ o, out = Ok o → ro_committed_sequences o = nth_seq (jsb_start_sequence sb) <$> List.seq 0 (length txns) ∧
    replayed txns d d'.
Proof.
  intros env Hon Hin. pose proof (lo_params _ _ _ _ _ Hon) as Hp. pose proof (lp_window _ _ _ _ Hp) as Hw.
  destruct (lo_sb _ _ _ _ _ Hon) as (raw&(_&a&Ha&Hr)&Hsb). simpl in Ha.
  unfold replay_jbd2_inner. rewrite (proj2 (Z.eqb_neq total 0)) by (simpl in Hw; lia).
  unfold mbind at 1 2 3, devM_bind, lift. rewrite Ha, Hr, Hsb. fold env. cbn [fmap option_fmap option_map].
  pose proof (log_turns_len txns). pose proof (log_len_nonneg txns).
  pose proof (lo_fit _ _ _ _ _ Hon). pose proof (lo_start _ _ _ _ _ Hon). simpl in Hw.
  replace (Z.to_nat total) with (log_turns txns + (Z.to_nat total - log_turns txns))%nat by lia.
  destruct (scan_log w sb (dev_block_size d) env d Hp (Z.to_nat total - log_turns txns) stats_start
    (jsb_start_sequence sb) (jsb_start_block sb) txns) as (s&->&Hs); try apply Hon.
  by apply (replay_scanned_spec w sb env).
Qed.

(** C6. Replaying a log is exact and restartable: on a device that holds the log
    of the committed transactions [txns] (its superblock, blocks and commits, and
    no commit past the last one), the replay reports exactly their sequences, in
    commit order also across the wrap of the 32-bit sequence, and sets every home
    block to its last write that no later revoke cancels; blocks no transaction
    writes stay.  Whatever a first run did before it failed or tore a block, a
    second run that meets no failure ends in that same state. *)
Theorem jbd2_replay_exact w sb total verify resolve txns d d1 out : let env := mkReplayEnv total verify resolve (Some sb) in
  log_on w sb env txns d → (∀ b, is_Some (log_effect txns !! b) → b < dev_block_count d) →
  (∀ i a, 0 <= i → resolve i = Ok a → log_effect txns !! a = None) →
  replay_jbd2_inner total verify resolve d = (d1, out) →
  (∀ o, out = Ok o → ro_committed_sequences o = nth_seq (jsb_start_sequence sb) <$> List.seq 0 (length txns) ∧
    replayed txns d d1) ∧
  ∃ d2 o, replay_jbd2_inner total verify resolve (set_writes d1 []) = (d2, Ok o) ∧
    ro_committed_sequences o = nth_seq (jsb_start_sequence sb) <$> List.seq 0 (length txns) ∧ replayed txns d d2.
Proof.
  intros env Hon Hin Hout Hr. destruct (replay_inner_spec _ _ _ _ _ _ _ _ _ Hon Hin Hr) as ((tg&Hsame&Htg)&_&Hok).
  split; [done|]. set (d1' := set_writes d1 []).
  assert (same_but tg d d1') as Hsame'.
  { destruct Hsame. split; try done. intros b Hb. unfold d1', set_writes. rewrite add_writes_nil_at. auto. }
  rewrite Forall_forall in Htg.
  assert (log_on w sb env txns d1') as Hon'.
  { pose proof (lo_params _ _ _ _ _ Hon) as Hp. pose proof (lp_window _ _ _ _ Hp).
    assert (∀ e, same_log env e d d1') as Hlog.
    { intros e. eapply same_log_but; [done|]. intros i a Hi Ha Hin'.
      apply Htg in Hin' as [x Hx]. by rewrite (Hout i a Hi Ha) in Hx. }
    eapply (log_on_same _ _ _ (env_window env).2); [done|lia|apply Hon|apply Hsame'| |done].
    intros j Hj. destruct (lo_rest _ _ _ _ _ Hon j Hj) as (b&?&?). exists b. split; [|done]. by apply (Hlog (j + 1)); [lia|]. }
  destruct (replay_jbd2_inner total verify resolve d1') as [d2 o] eqn:E.
  destruct (replay_inner_spec _ _ _ _ _ _ _ _ _ Hon' ltac:(intros b Hb; rewrite (sb_count _ _ _ Hsame'); auto) E) as (_&Hcalm&Hok2).
  destruct (Hcalm eq_refl) as [oc ->]. exists d2, oc. split; [done|]. destruct (Hok2 oc eq_refl) as [Hc Hb].
  split; [done|]. intros b. rewrite Hb. destruct (log_effect txns !! b) as [x|] eqn:Hx; [done|]. simpl.
  apply Hsame'. intros Hin'. apply Htg in Hin' as [x' Hx']. congruence.
Qed.
End replay_log.
