(* ===== verification/Jbd2Commit.v ===== *)
(** * Committing a transaction

    What [commit_transaction] does to the device under any answers: the blocks of
    the transaction go to the log from the head on, the commit block after a
    barrier.  After a power failure at any point the log holds the transaction as
    a whole or not at all. *)

From stdpp Require Import base sorting numbers gmap list.
From S2P Require Import Prelude Sorted Wal WalReplay WalWriter Journal Jbd2 Jbd2Replay Jbd2Writer Jbd2Codec Jbd2Order Jbd2Log Jbd2Apply.

Local Open Scope Z_scope.

#[local] Opaque be_bytes zeros.

(** ** What computations write *)

(** [m] on [d] writes blocks that satisfy [P], and when it succeeds [Q] holds of
    the result and of the blocks. *)
Definition wspec {A} (P : Z * bytes → Prop) (m : devM A) (Q : A → list (Z * bytes) → Prop) (d : Device) : Prop :=
  ∃ new ws, (m d).1 = add_writes d new ws ∧ ws `suffix_of` dev_writes d ∧ Forall P new ∧
    ∀ a, (m d).2 = Ok a → Q a new.

Lemma add_writes_add d new ws new' ws' : add_writes (add_writes d new ws) new' ws' = add_writes d (new ++ new') ws'.
Proof. unfold add_writes. simpl. by rewrite app_assoc. Qed.

Lemma add_writes_none d : add_writes d [] (dev_writes d) = d.
Proof. unfold add_writes. rewrite app_nil_r. by destruct d. Qed.

Lemma wspec_lift {A} P (r : res JournalError A) Q d : (∀ a, r = Ok a → Q a []) → wspec P (lift r) Q d.
Proof. intros HQ. exists [], (dev_writes d). simpl. by rewrite add_writes_none. Qed.

Lemma wspec_ret {A} P (a : A) (Q : A → list (Z * bytes) → Prop) d : Q a [] → wspec P (mret a) Q d.
Proof. intros HQ. exists [], (dev_writes d). simpl. rewrite add_writes_none. split_and!; try done. by intros ? [= <-]. Qed.

Lemma wspec_bind {A B} P (m : devM A) (f : A → devM B) Q R d : wspec P m Q d →
  (∀ a new ws, Q a new → ws `suffix_of` dev_writes d →
     wspec P (f a) (λ b new', R b (new ++ new')) (add_writes d new ws)) →
  wspec P (m ≫= f) R d.
Proof.
  intros (new&ws&Hd&Hs&HP&HQ) Hf. unfold wspec, mbind, devM_bind. destruct (m d) as [d1 [a|e]]; simpl in *; subst d1.
  - destruct (Hf a new ws (HQ a eq_refl) Hs) as (new'&ws'&Hd'&Hs'&HP'&HQ').
    exists (new ++ new'), ws'. rewrite Hd', add_writes_add. split_and!; [done|by etrans|by apply Forall_app|done].
  - exists new, ws. by split_and!.
Qed.

Lemma wspec_wand {A} P (m : devM A) (Q R : A → list (Z * bytes) → Prop) d :
  wspec P m Q d → (∀ a new, Q a new → R a new) → wspec P m R d.
Proof. intros (new&ws&?&?&?&HQ) HR. exists new, ws. split_and!; [done..|]. intros a Ha. by apply HR, HQ. Qed.

(** ** Blocks that are no commits *)

Definition quiet (b : bytes) : Prop := ∀ h, parse_header b = Some h → jh_block_type h ≠ JBD2_BLOCKTYPE_COMMIT.

(** Torn writes do not forge commit blocks. *)
Definition torn_quiet (d : Device) : Prop :=
  ∀ torn k, WriteTorn torn ∈ dev_writes d →
    quiet (take (Z.to_nat (dev_block_size d)) (drop (k * Z.to_nat (dev_block_size d)) torn)).

Lemma torn_quiet_add d new ws : ws `suffix_of` dev_writes d → torn_quiet d → torn_quiet (add_writes d new ws).
Proof.
  intros [pre Hs] Ht torn k Hin. apply (Ht torn k). rewrite Hs. simpl in Hin. apply elem_of_app. by right.
Qed.

Lemma quiet_no_commit seq b : quiet b → no_commit seq b.
Proof. intros Hq h Hh Hc. by apply Hq in Hc. Qed.

(** A write that leaves quiet blocks at the addresses it is asked for. *)
Lemma answer_write_spec P new torn_blocks d : Forall P new →
  (∀ torn, WriteTorn torn ∈ dev_writes d → Forall P (torn_blocks torn)) →
  wspec P (answer_write new torn_blocks) (λ _ new', new' = new) d.
Proof.
  intros HP HT. unfold wspec, answer_write. destruct (dev_writes d) as [|a ws] eqn:Hw.
  { exists new, []. simpl. rewrite ?Hw. by split_and!. }
  assert (ws `suffix_of` a :: ws) by (by apply suffix_cons_r).
  destruct a as [|k|torn].
  - by exists new, ws.
  - exists (take k new), ws. split_and!; [done|done|by apply Forall_take|done].
  - exists (torn_blocks torn), ws. split_and!; [done|done| |done]. apply HT. by left.
Qed.

Lemma wspec_fail {A} P (m : devM A) e Q d : m d = (d, Err e) → wspec P m Q d.
Proof. intros Hm. exists [], (dev_writes d). rewrite Hm, add_writes_none. by split_and!. Qed.

Lemma wspec_eq {A} P (m m' : devM A) Q d : m d = m' d → wspec P m' Q d → wspec P m Q d.
Proof. unfold wspec. by intros ->. Qed.

Lemma write_block_spec (P : Z * bytes → Prop) block data d : torn_quiet d → P (block, data) →
  (∀ x, quiet x → P (block, x)) → wspec P (write_block block data) (λ _ new, new = [(block, data)]) d.
Proof.
  intros Ht HP Hq. destruct (zlen data =? dev_block_size d) eqn:Hz.
  2:{ eapply wspec_fail. unfold write_block. by rewrite Hz. }
  destruct (dev_block_count d <=? block) eqn:Hc.
  { eapply wspec_fail. unfold write_block. by rewrite Hz, Hc. }
  eapply wspec_eq; [unfold write_block; rewrite Hz, Hc; done|].
  apply answer_write_spec; [by constructor|]. intros torn Hin. case_if; [|done]. constructor; [|done].
  apply Hq. specialize (Ht torn 0%nat Hin). simpl in Ht. rewrite drop_0, take_ge in Ht; [done|]. unfold zlen in *. lia.
Qed.

(** ** Runs of blocks *)

Lemma block_run_zip (n : nat) start bl : Forall (λ b, length b = n) bl →
  block_run (length bl) n start (concat bl) = zip (seqZ start (Z.of_nat (length bl))) bl.
Proof.
  revert start. induction bl as [|b bl IH]; intros start Hf; [done|]. apply Forall_cons in Hf as [Hb Hf].
  cbn [length block_run concat]. rewrite seqZ_cons by lia. simpl zip.
  assert (take n (b ++ concat bl) = b) as -> by (rewrite <-Hb; apply take_app_length).
  assert (drop n (b ++ concat bl) = concat bl) as -> by (rewrite <-Hb; apply drop_app_length).
  f_equal. rewrite IH by done. do 2 f_equal; lia.
Qed.

Lemma block_run_elem n count start data k x : block_run count n start data !! k = Some x →
  (k < count)%nat ∧ x = (start + Z.of_nat k, take n (drop (k * n) data)).
Proof.
  revert start data k. induction count as [|count IH]; intros start data k Hk; [done|].
  destruct k as [|k]; simpl in Hk.
  - injection Hk as <-. split; [lia|]. by rewrite Z.add_0_r, drop_0.
  - apply IH in Hk as [Hk ->]. split; [lia|]. rewrite drop_drop. f_equal; lia.
Qed.

Lemma contiguous_seqZ desc_block data_blocks : physically_contiguous desc_block data_blocks = true →
  desc_block :: data_blocks = seqZ desc_block (Z.of_nat (S (length data_blocks))).
Proof.
  intros Hp. unfold physically_contiguous in Hp. rewrite forallb_forall in Hp.
  apply list_eq. intros [|k]; [by rewrite seqZ_cons by lia|].
  rewrite lookup_cons. destruct (data_blocks !! k) as [a|] eqn:Hk.
  - symmetry. apply lookup_seqZ. pose proof (lookup_lt_Some _ _ _ Hk). split; [|lia].
    specialize (Hp (bool_decide ((d ← checked_add u64_max (Z.of_nat k) 1; checked_add u64_max desc_block d) = Some a))).
    assert (id (bool_decide ((d ← checked_add u64_max (Z.of_nat k) 1; checked_add u64_max desc_block d) = Some a)) = true) as He.
    { apply Hp. apply list_elem_of_In. apply list_elem_of_lookup. exists k. by rewrite list_lookup_imap, Hk. }
    simpl in He. apply bool_decide_eq_true in He. unfold checked_add in He. simpl in He.
    destruct (Z.of_nat k + 1 <=? u64_max); [|done]. simpl in He.
    destruct (desc_block + (Z.of_nat k + 1) <=? u64_max); [|done]. injection He as <-. lia.
  - symmetry. apply lookup_seqZ_ge. apply lookup_ge_None in Hk. lia.
Qed.

Lemma zlen_concat bs (bl : list bytes) : Forall (λ b, zlen b = bs) bl → zlen (concat bl) = bs * zlen bl.
Proof.
  induction 1 as [|b bl Hb _ IH]; cbn [concat]; [unfold zlen; simpl; lia|]. rewrite zlen_app, zlen_cons. lia.
Qed.

(** A run of quiet blocks written at once. *)
Lemma write_contiguous_spec (P : Z * bytes → Prop) start (bl : list bytes) d : torn_quiet d → 0 < dev_block_size d → bl ≠ [] →
  Forall (λ b, zlen b = dev_block_size d) bl → Forall quiet bl →
  (∀ k x, (k < length bl)%nat → quiet x → P (start + Z.of_nat k, x)) →
  wspec P (write_contiguous_blocks start (concat bl)) (λ _ new, new = zip (seqZ start (Z.of_nat (length bl))) bl) d.
Proof.
  intros Ht Hbs Hne Hz Hq HP. set (bs := dev_block_size d) in *. pose proof (zlen_concat bs bl Hz) as Hl.
  assert (1 <= zlen bl) by (destruct bl; [done|]; rewrite zlen_cons; pose proof (zlen_nonneg bl); lia).
  assert (zlen (concat bl) / bs = zlen bl) as Hdiv by (rewrite Hl, Z.mul_comm; apply Z.div_mul; lia).
  assert (zlen (concat bl) mod bs = 0) as Hmod by (rewrite Hl, Z.mul_comm; apply Z.mod_mul; lia).
  assert (block_run (length bl) (Z.to_nat bs) start (concat bl) = zip (seqZ start (Z.of_nat (length bl))) bl) as Hrun.
  { apply block_run_zip. eapply Forall_impl; [exact Hz|]. unfold zlen. simpl. intros. lia. }
  destruct (checked_add u64_max start (zlen bl)) as [e|] eqn:He;
    [destruct (dev_block_count d <? e) eqn:Hcnt|];
    [eapply wspec_fail|eapply wspec_eq|eapply wspec_fail];
    try (unfold write_contiguous_blocks; fold bs; rewrite (proj2 (Z.eqb_neq bs 0)), Hmod, Hdiv, He by lia;
         rewrite (proj2 (Z.eqb_neq (zlen _) 0)) by nia; rewrite ?Hcnt; simpl; done).
  assert (Z.to_nat (zlen bl) = length bl) as -> by (unfold zlen; lia). rewrite Hrun.
  apply answer_write_spec.
  - apply Forall_lookup. intros k [a x] Hk. apply lookup_zip_Some in Hk as [(->&_)%lookup_seqZ Hx].
    apply HP; [by eapply lookup_lt_Some|]. by eapply Forall_lookup_1 in Hx.
  - intros torn Hin. case_if; [|done]. apply Forall_lookup. intros k x Hk. apply block_run_elem in Hk as [Hk ->].
    apply HP; [done|]. by apply Ht.
Qed.

(** ** Data blocks *)

Lemma parse_header_none b : 4 <= zlen b → zlen b <= usize_max → be_value (take 4 b) ≠ JBD2_MAGIC → parse_header b = None.
Proof.
  intros Hl Hu Hm. unfold parse_header, read_be_u32.
  rewrite <-(take_drop 4 b), field_head at 1.
  - simpl. by rewrite (proj2 (Z.eqb_neq _ _)).
  - rewrite length_take. unfold zlen in Hl. lia.
  - by rewrite take_drop.
Qed.

Lemma chunk_write_padded bs target payload : zlen payload <= bs →
  cw_padded (chunk_write bs target payload) =
    if cw_escaped (chunk_write bs target payload) then put (padded bs payload) 0 [0; 0; 0; 0] else padded bs payload.
Proof.
  intros Hl. unfold chunk_write. cbn [cw_padded cw_escaped]. rewrite Z.min_l by done.
  assert ((if zlen payload =? bs then take (Z.to_nat bs) payload else put (zeros bs) 0 (take (Z.to_nat (zlen payload)) payload)) =
    padded bs payload) as ->; [|done].
  rewrite (take_ge _ (Z.to_nat (zlen payload))) by (unfold zlen; lia). rewrite put_padded by done.
  case_if; [|done]. unfold padded. rewrite take_ge by (unfold zlen in *; lia).
  replace (bs - zlen payload) with 0 by lia. symmetry. apply app_nil_r.
Qed.

(** A journalled block is of the block size, carries no journal header, and is
    restored to the payload. *)
Lemma chunk_write_spec bs target payload : zlen payload <= bs → 4 <= bs <= u32_max → bytes_ok payload →
  zlen (cw_padded (chunk_write bs target payload)) = bs ∧
  parse_header (cw_padded (chunk_write bs target payload)) = None ∧
  restored (chunk_write bs target payload) = padded bs payload.
Proof.
  intros Hl Hbs Hok. pose proof (zlen_padded bs payload Hl) as Hp. assert (bs <= usize_max) by (unfold usize_max, u64_max, u32_max in *; lia).
  unfold restored. rewrite chunk_write_padded by done.
  destruct (cw_escaped (chunk_write bs target payload)) eqn:He.
  - assert (4 <= zlen payload ∧ take 4 payload = be_bytes 4 JBD2_MAGIC) as [H4 Hm].
    { unfold chunk_write in He. simpl in He. apply andb_true_iff in He as [?%Z.leb_le ?%bool_decide_eq_true]. done. }
    assert (zlen (put (padded bs payload) 0 [0; 0; 0; 0]) = bs) as Hz by (rewrite put_length; unfold zlen in *; simpl; lia).
    split_and!; [done| |].
    + apply parse_header_none; [lia|lia|]. done.
    + unfold put. simpl. rewrite be_bytes_length, <-Hm. simpl. rewrite drop_0.
      unfold padded. rewrite drop_app_le by (unfold zlen in H4; lia). by rewrite app_assoc, take_drop.
  - split_and!; [done| |done]. apply parse_header_none; [lia|lia|]. intros Hv.
    assert (length (take 4 (padded bs payload)) = 4%nat) as Hlen by (rewrite length_take; unfold zlen in *; lia).
    pose proof (be_bytes_value (take 4 (padded bs payload)) ltac:(by apply Forall_take, padded_ok)) as Hb.
    rewrite Hlen, Hv in Hb. destruct (decide (4 <= zlen payload)) as [H4|H4].
    + unfold chunk_write in He. simpl in He. rewrite (proj2 (Z.leb_le _ _)) in He by done.
      apply bool_decide_eq_false in He as []. rewrite Hb. unfold padded. rewrite take_app_le; [done|]. unfold zlen in H4. lia.
    + assert (take 4 (padded bs payload) !! 3%nat = Some 0) as H0.
      { rewrite lookup_take_lt by lia. unfold padded. rewrite lookup_app_r by (unfold zlen in *; lia).
        apply zeros_lookup. unfold zlen in *. lia. }
      rewrite <-Hb in H0. by vm_compute in H0.
Qed.

(** ** The body *)

(** The pieces [items] are cut into. *)
Fixpoint pieces_of (fuel : nat) (w : Jbd2Writer) (bs : Z) (items : list Jbd2TxnBodyItem) : list Piece :=
  match fuel, items with
  | O, _ | _, [] => []
  | S fuel', ItemWrite _ _ :: _ =>
      let n := max_tags_per_descriptor_for_format bs (jw_is_64bit w) (jw_has_checksum w) (jw_tag_format w) in
      let (chunk, rest) := take_writes (Z.to_nat n) bs items in PieceWrites chunk :: pieces_of fuel' w bs rest
  | S fuel', ItemRevoke _ :: _ =>
      let n := max_revoke_entries_with_checksum bs (jw_is_64bit w) (jw_has_checksum w) in
      let (chunk, rest) := take_revokes (Z.to_nat n) items in PieceRevokes chunk :: pieces_of fuel' w bs rest
  end.
Definition txn_pieces (w : Jbd2Writer) (bs : Z) (items : list Jbd2TxnBodyItem) : list Piece :=
  pieces_of (length items) w bs items.

(** An item the log can hold: its block number fits, and its payload. *)
Definition item_ok (w : Jbd2Writer) (bs : Z) (item : Jbd2TxnBodyItem) : Prop :=
  match item with
  | ItemWrite target payload =>
      target_ok (wide w) target ∧ zlen payload <= bs ∧ bytes_ok payload ∧
      1 <= max_tags_per_descriptor_for_format bs (jw_is_64bit w) (jw_has_checksum w) (jw_tag_format w)
  | ItemRevoke target =>
      target_ok (jw_is_64bit w) target ∧ 1 <= max_revoke_entries_with_checksum bs (jw_is_64bit w) (jw_has_checksum w)
  end.

Lemma take_writes_spec n bs items chunk rest : take_writes n bs items = (chunk, rest) →
  ∃ ws, items = (uncurry ItemWrite <$> ws) ++ rest ∧ chunk = (uncurry (chunk_write bs) <$> ws) ∧ (length ws <= n)%nat ∧
    ((1 <= n)%nat → ∀ t p l, items = ItemWrite t p :: l → chunk ≠ []).
Proof.
  revert items chunk rest. induction n as [|n IH]; intros items chunk rest; simpl.
  { destruct items; intros [= <- <-]; exists []; split_and!; done || lia. }
  destruct items as [|[t p|t] items]; [intros [= <- <-]; exists []; split_and!; done || simpl; lia| |
    intros [= <- <-]; exists []; split_and!; done || simpl; lia].
  destruct (take_writes n bs items) as [ch re] eqn:E. intros [= <- <-].
  destruct (IH _ _ _ E) as (ws&->&->&Hl&_). exists ((t, p) :: ws). split_and!; [done|done|simpl; lia|done].
Qed.

Lemma take_revokes_spec n items chunk rest : take_revokes n items = (chunk, rest) →
  items = (ItemRevoke <$> chunk) ++ rest ∧ (length chunk <= n)%nat ∧
    ((1 <= n)%nat → ∀ t l, items = ItemRevoke t :: l → chunk ≠ []).
Proof.
  revert items chunk rest. induction n as [|n IH]; intros items chunk rest; simpl.
  { destruct items; intros [= <- <-]; split_and!; done || lia. }
  destruct items as [|[t p|t] items]; [intros [= <- <-]; split_and!; done || simpl; lia|
    intros [= <- <-]; split_and!; done || simpl; lia|].
  destruct (take_revokes n items) as [ch re] eqn:E. intros [= <- <-].
  destruct (IH _ _ _ E) as (->&Hl&_). split_and!; [done|simpl; lia|done].
Qed.

(** The effect of items on the home blocks. *)
Definition item_effect (bs : Z) (m : gmap Z bytes) (item : Jbd2TxnBodyItem) : gmap Z bytes :=
  match item with
  | ItemWrite target payload => <[target := padded bs payload]> m
  | ItemRevoke target => delete target m
  end.

(** A piece of the log of a valid transaction. *)
Record good_piece (w : Jbd2Writer) (bs : Z) (p : Piece) : Prop := {
  gp_ok : piece_ok w bs p;
  gp_sized : piece_sized bs p;
  gp_quiet : Forall quiet (piece_data p);
}.

Lemma writes_piece w bs ws : 4 <= bs <= u32_max → ws ≠ [] → Forall (item_ok w bs) (uncurry ItemWrite <$> ws) →
  (length ws <= Z.to_nat (max_tags_per_descriptor_for_format bs (jw_is_64bit w) (jw_has_checksum w) (jw_tag_format w)))%nat →
  good_piece w bs (PieceWrites (uncurry (chunk_write bs) <$> ws)) ∧
  ∀ m, piece_effect m (PieceWrites (uncurry (chunk_write bs) <$> ws)) = fold_left (item_effect bs) (uncurry ItemWrite <$> ws) m.
Proof.
  intros Hbs Hne Hok Hl. rewrite Forall_fmap in Hok.
  assert (1 <= max_tags_per_descriptor_for_format bs (jw_is_64bit w) (jw_has_checksum w) (jw_tag_format w)) as Hmax.
  { destruct Hok as [|[t p] ws (_&_&_&?)]; done. }
  assert (Forall (λ tp, zlen (cw_padded (uncurry (chunk_write bs) tp)) = bs ∧ quiet (cw_padded (uncurry (chunk_write bs) tp)) ∧
    restored (uncurry (chunk_write bs) tp) = padded bs tp.2) ws) as Hall.
  { eapply Forall_impl; [done|]. intros [t p] (_&Hz&Hb&_). cbn [uncurry snd].
    destruct (chunk_write_spec bs t p Hz Hbs Hb) as (?&Hn&?). split_and!; [done| |done]. intros h. by rewrite Hn. }
  split.
  - split; simpl.
    + split_and!; [by destruct ws|rewrite Forall_fmap; eapply Forall_impl; [exact Hok|]; by intros [t p] (?&_)|].
      unfold zlen. rewrite length_fmap. lia.
    + rewrite Forall_fmap. eapply Forall_impl; [exact Hall|]. by intros ? (?&_).
    + rewrite !Forall_fmap. eapply Forall_impl; [exact Hall|]. by intros ? (_&?&_).
  - clear -Hall. induction Hall as [|[t p] ws (_&_&Hr) _ IH]; intros m; [done|]. cbn [uncurry snd] in Hr.
    change (piece_effect (<[t := restored (chunk_write bs t p)]> m) (PieceWrites (uncurry (chunk_write bs) <$> ws)) =
      fold_left (item_effect bs) (uncurry ItemWrite <$> ws) (<[t := padded bs p]> m)). by rewrite Hr, IH.
Qed.

Lemma revokes_piece w bs chunk : chunk ≠ [] → Forall (item_ok w bs) (ItemRevoke <$> chunk) →
  (length chunk <= Z.to_nat (max_revoke_entries_with_checksum bs (jw_is_64bit w) (jw_has_checksum w)))%nat →
  good_piece w bs (PieceRevokes chunk) ∧
  ∀ m, piece_effect m (PieceRevokes chunk) = fold_left (item_effect bs) (ItemRevoke <$> chunk) m.
Proof.
  intros Hne Hok Hl. rewrite Forall_fmap in Hok.
  assert (1 <= max_revoke_entries_with_checksum bs (jw_is_64bit w) (jw_has_checksum w)).
  { destruct Hok as [|t ws (_&?)]; done. }
  split.
  - split; simpl; [|done|done]. split_and!; [done|eapply Forall_impl; [done|]; by intros t (?&_)|]. unfold zlen. lia.
  - clear. induction chunk as [|t chunk IH]; intros m; [done|]. apply IH.
Qed.

Lemma txn_effect_cons m p ps : txn_effect m (p :: ps) = txn_effect (piece_effect m p) ps.
Proof. done. Qed.

(** The pieces of valid items are good, and have their effect. *)
Lemma pieces_of_spec fuel w bs items : 4 <= bs <= u32_max → (length items <= fuel)%nat → Forall (item_ok w bs) items →
  Forall (good_piece w bs) (pieces_of fuel w bs items) ∧
  ∀ m, txn_effect m (pieces_of fuel w bs items) = fold_left (item_effect bs) items m.
Proof.
  intros Hbs. revert items. induction fuel as [|fuel IH]; intros items Hl Hok.
  { by destruct items; [|simpl in Hl; lia]. }
  destruct items as [|[t p|t] items]; [done|..]; cbn [pieces_of].
  - destruct (take_writes _ _ _) as [chunk rest] eqn:E. apply take_writes_spec in E as (ws&Hit&->&Hn&Hne).
    pose proof (proj1 (Forall_cons _ _ _) Hok) as [(_&_&_&Hmax) _]. specialize (Hne ltac:(lia) _ _ _ eq_refl).
    assert (ws ≠ []) as Hws by (by destruct ws). rewrite Hit in Hl, Hok |- *. apply Forall_app in Hok as [Hok Hrest].
    destruct (writes_piece w bs ws Hbs Hws Hok Hn) as [Hgood Heff].
    destruct (IH rest) as [Hgs Heffs]; [|done|].
    { destruct ws; [done|]. rewrite length_app in Hl. simpl in Hl. lia. }
    split; [by constructor|]. intros m. rewrite txn_effect_cons, Heff, fold_left_app. apply Heffs.
  - destruct (take_revokes _ _) as [chunk rest] eqn:E. apply take_revokes_spec in E as (Hit&Hn&Hne).
    pose proof (proj1 (Forall_cons _ _ _) Hok) as [(_&Hmax) _]. specialize (Hne ltac:(lia) _ _ eq_refl).
    rewrite Hit in Hl, Hok |- *. apply Forall_app in Hok as [Hok Hrest].
    destruct (revokes_piece w bs chunk Hne Hok Hn) as [Hgood Heff].
    destruct (IH rest) as [Hgs Heffs]; [|done|].
    { destruct chunk; [done|]. rewrite length_app in Hl. simpl in Hl. lia. }
    split; [by constructor|]. intros m. rewrite txn_effect_cons, Heff, fold_left_app. apply Heffs.
Qed.

Section body.
Context `{Crc32cAppend}.
Context (w : Jbd2Writer) (sb : Jbd2Superblock) (bs seq : Z).
Hypothesis Hmatch : sb_matches w sb.
Hypothesis Hseed : 0 <= jw_csum_seed w <= u32_max.
Hypothesis Hbs : JBD2_HEADER_SIZE <= bs <= u32_max.
Hypothesis Hseq : 0 <= seq <= u32_max.
Hypothesis Htotal : jw_total_blocks w <= u32_max.

Definition pieces_blocks (ps : list Piece) : list bytes := concat (piece_blocks w bs seq <$> ps).

(** The addresses of the indices from [head] on. *)
Definition addresses (head : Z) (addrs : list Z) : Prop :=
  head + zlen addrs <= jw_total_blocks w ∧
  ∀ j a, addrs !! j = Some a → resolve_segment_block (jw_segments w) (head + Z.of_nat j) = Ok a.

(** A quiet block, or the block [x] asked for, of the log from [head] on. *)
Definition log_write (head : Z) (wr : Z * bytes) : Prop :=
  quiet wr.2 ∧ ∃ i, head <= i < jw_total_blocks w ∧ resolve_segment_block (jw_segments w) i = Ok wr.1.

Lemma alloc_block_spec head r : alloc_block w head = Ok r → 0 <= head →
  r.2 = head + 1 ∧ addresses head [r.1].
Proof.
  unfold alloc_block. case_if; [done|]. destruct (resolve_segment_block _ _) as [a|] eqn:Ha; [|done].
  intros [= <-] Hh. simpl. unfold saturating_add, u64_max, u32_max in *. split; [lia|]. split; [rewrite zlen_cons, zlen_nil; lia|].
  intros [|j] x Hj; [|done]. injection Hj as <-. by rewrite Z.add_0_r.
Qed.

Lemma addresses_app head a b : addresses head a → addresses (head + zlen a) b → addresses head (a ++ b).
Proof.
  intros [Ha Hla] [Hb Hlb]. split; [rewrite zlen_app; lia|]. intros j x Hj. apply lookup_app_Some in Hj as [Hj|[Hge Hj]].
  - by apply Hla.
  - apply Hlb in Hj. rewrite <-Hj. f_equal. unfold zlen. lia.
Qed.

Lemma alloc_blocks_spec n head r : alloc_blocks w n head = Ok r → 0 <= head → (n = 0%nat → head <= jw_total_blocks w) →
  length r.1 = n ∧ r.2 = head + Z.of_nat n ∧ addresses head r.1.
Proof.
  revert head r. induction n as [|n IH]; intros head r; cbn [alloc_blocks].
  { intros [= <-] Hh Hle. simpl. split_and!; [done|lia|]. split; [rewrite zlen_nil; auto with lia|done]. }
  destruct (alloc_block w head) as [[a h1]|] eqn:Ha; [|done]. cbn [mbind res_bind].
  destruct (alloc_blocks w n h1) as [[l h2]|] eqn:Hl; [|done]. intros [= <-] Hh _.
  apply alloc_block_spec in Ha as [Hh1 Ha]; [|done]. simpl in *.
  assert (head + 1 <= jw_total_blocks w) by (destruct Ha as [Ha _]; rewrite zlen_cons, zlen_nil in Ha; lia).
  apply IH in Hl as (Hlen&Hh2&Hadd); [|lia|lia]. simpl in *. split_and!; [lia|lia|].
  apply (addresses_app head [a]); [done|]. rewrite zlen_cons, zlen_nil. by rewrite Hh1 in Hadd.
Qed.

Lemma addresses_write head0 head addrs j a x : head0 <= head → addresses head addrs → addrs !! j = Some a → quiet x →
  log_write head0 (a, x).
Proof.
  intros Hle [Hl Ha] Hj Hq. split; [done|]. exists (head + Z.of_nat j). split; [|by apply Ha].
  apply lookup_lt_Some in Hj. unfold zlen in Hl. lia.
Qed.

(** Writes of quiet blocks to known addresses. *)
Lemma write_blocks_wspec head0 head addrs (bl : list bytes) d : torn_quiet d → head0 <= head → addresses head addrs →
  Forall quiet bl →
  wspec (log_write head0) (write_blocks (zip addrs bl)) (λ _ new, new = zip addrs bl) d.
Proof.
  intros Ht Hle Ha Hq.
  assert (Forall (λ wr, ∃ j, addrs !! j = Some wr.1 ∧ quiet wr.2) (zip addrs bl)) as Hf.
  { apply Forall_lookup. intros j [a x] Hj. apply lookup_zip_Some in Hj as [Hj Hx]. exists j. split; [done|].
    by eapply Forall_lookup_1 in Hx. }
  clear Hq. revert d Ht. induction Hf as [|[a x] l (j&Hj&Hx) _ IH]; intros d Ht; cbn [write_blocks].
  { by apply wspec_ret. }
  eapply wspec_bind; [apply write_block_spec; [done|by eapply addresses_write|intros; by eapply addresses_write]|].
  intros [] new ws -> Hs. eapply wspec_wand; [apply IH; by apply torn_quiet_add|]. by intros [] new ->.
Qed.

Lemma descriptor_run_spec head0 head addr addrs desc chunk d : dev_block_size d = bs → torn_quiet d → head0 <= head →
  addresses head (addr :: addrs) → length addrs = length chunk →
  Forall (λ b, quiet b ∧ zlen b = bs) (desc :: (cw_padded <$> chunk)) →
  wspec (log_write head0) (write_descriptor_run addr desc addrs chunk)
    (λ _ new, new = zip (addr :: addrs) (desc :: (cw_padded <$> chunk))) d.
Proof.
  intros Hd Ht Hle Ha Hlen [Hq Hz]%Forall_and. unfold write_descriptor_run.
  eapply wspec_bind; [apply (wspec_lift _ (Ok (dev_contiguous d)) (λ r new, r = dev_contiguous d ∧ new = []))|].
  { by intros ? [= <-]. }
  intros ? ? ws [-> ->] Hs. set (d1 := add_writes d [] ws).
  assert (torn_quiet d1) as Ht1 by (by apply torn_quiet_add). cbn [app].
  destruct (dev_contiguous d && physically_contiguous addr addrs) eqn:Hc.
  - apply andb_true_iff in Hc as [_ Hc]. apply contiguous_seqZ in Hc.
    eapply wspec_wand; [apply (write_contiguous_spec _ addr (desc :: (cw_padded <$> chunk)))|]; try done.
    + simpl. unfold JBD2_HEADER_SIZE in Hbs. lia.
    + eapply Forall_impl; [exact Hz|]. intros x Hx. simpl. congruence.
    + intros k x Hk Hx. eapply addresses_write; [done..| |done]. rewrite Hc. apply lookup_seqZ. split; [done|].
      simpl in Hk. rewrite length_fmap in Hk. lia.
    + intros _ new ->. rewrite Hc. do 2 f_equal. simpl. rewrite length_fmap. lia.
  - cbn [zip zip_with]. eapply wspec_bind; [apply write_block_spec; [done|..]|].
    + apply (addresses_write head0 head (addr :: addrs) 0); try done. by inversion Hq.
    + intros. by apply (addresses_write head0 head (addr :: addrs) 0).
    + intros [] new ws' -> Hs'. eapply wspec_wand; [apply (write_blocks_wspec head0 (head + 1))|].
      * by apply torn_quiet_add.
      * lia.
      * destruct Ha as [Hl Ha]. rewrite zlen_cons in Hl. split; [lia|]. intros j a Hj. rewrite <-(Ha (S j) a Hj). f_equal. lia.
      * by inversion Hq.
      * by intros [] new ->.
Qed.

Lemma quiet_header b ty : header_block sb bs seq b ty → ty ≠ JBD2_BLOCKTYPE_COMMIT → quiet b.
Proof. intros [_ Hh _] Hne h. rewrite Hh. by intros [= <-]. Qed.

Lemma good_piece_blocks p : good_piece w bs p →
  Forall (λ b, quiet b ∧ zlen b = bs) (piece_blocks w bs seq p) ∧ zlen (piece_blocks w bs seq p) = piece_len p.
Proof.
  intros [Hok Hz Hq]. unfold piece_blocks. rewrite zlen_cons. destruct p as [chunk|chunk]; simpl in *.
  - destruct (descriptor_block_spec w sb bs seq Hmatch Hseed ltac:(apply Hbs) Hseq chunk Hok) as [Hb _].
    split; [|unfold zlen; rewrite length_fmap; lia]. constructor; [split; [by eapply quiet_header|apply Hb]|].
    rewrite Forall_fmap in Hq. apply Forall_fmap, Forall_and. done.
  - destruct (revoke_block_spec w sb bs seq Hmatch Hseed ltac:(apply Hbs) Hseq chunk [] Hok) as [Hb _].
    split; [|done]. constructor; [|done]. split; [by eapply quiet_header|apply Hb].
Qed.

(** The blocks [bl] were written from [head] on. *)
Definition laid (head : Z) (bl : list bytes) (new : list (Z * bytes)) : Prop :=
  ∃ addrs, addresses head addrs ∧ length addrs = length bl ∧ new = zip addrs bl.

Lemma laid_app head a b na nb : laid head a na → laid (head + zlen a) b nb → laid head (a ++ b) (na ++ nb).
Proof.
  intros (aa&Ha&Hla&->) (ab&Hb&Hlb&->). exists (aa ++ ab). split_and!.
  - apply addresses_app; [done|]. by replace (zlen aa) with (zlen a) by (unfold zlen; lia).
  - rewrite !length_app. lia.
  - by rewrite zip_with_app.
Qed.

(** One piece. *)
Definition write_piece (p : Piece) (head : Z) : devM Z :=
  match p with
  | PieceWrites chunk =>
      desc ← lift (encode_descriptor w bs seq chunk);
      '(desc_block, head) ← lift (alloc_block w head);
      '(data_blocks, head) ← lift (alloc_blocks w (length chunk) head);
      _ ← write_descriptor_run desc_block desc data_blocks chunk;
      mret head
  | PieceRevokes chunk =>
      revoke ← lift (encode_revoke w bs seq chunk);
      '(rev_block, head) ← lift (alloc_block w head);
      _ ← write_block rev_block revoke;
      mret head
  end.

Lemma write_piece_spec head0 head p d : dev_block_size d = bs → torn_quiet d → 0 <= head0 <= head → good_piece w bs p →
  wspec (log_write head0) (write_piece p head)
    (λ head' new, head' = head + piece_len p ∧ laid head (piece_blocks w bs seq p) new) d.
Proof.
  intros Hd Ht Hh Hgood. destruct (good_piece_blocks p Hgood) as [Hbl _]. destruct Hgood as [Hok _ _].
  destruct p as [chunk|chunk]; simpl in *.
  - eapply wspec_bind; [apply (wspec_lift _ _ (λ b new, b = descriptor_block w bs seq chunk ∧ new = []))|].
    { rewrite encode_descriptor_spec by (done || apply Hbs). by intros ? [= <-]. }
    intros ? ? ws1 [-> ->] Hs1. eapply wspec_bind; [apply (wspec_lift _ _ (λ r new, alloc_block w head = Ok r ∧ new = [])); done|].
    intros [a h1] ? ws2 [Ha ->] Hs2. apply alloc_block_spec in Ha as [Hh1 Ha]; [|lia]. simpl in Hh1, Ha. subst h1.
    eapply wspec_bind; [apply (wspec_lift _ _ (λ r new, alloc_blocks w (length chunk) (head + 1) = Ok r ∧ new = [])); done|].
    intros [addrs h2] ? ws3 [Has ->] Hs3.
    assert (head + 1 <= jw_total_blocks w) by (destruct Ha as [Ha _]; rewrite zlen_cons, zlen_nil in Ha; lia).
    apply alloc_blocks_spec in Has as (Hlen&Hh2&Has); [|lia|lia]. simpl in Hlen, Hh2, Has. subst h2.
    assert (addresses head (a :: addrs)) as Hall by (apply (addresses_app head [a]); [done|by rewrite zlen_cons, zlen_nil]).
    eapply wspec_bind; [eapply (descriptor_run_spec head0 head); try done; [by repeat apply torn_quiet_add|lia]|].
    intros [] new ws4 -> Hs4. apply wspec_ret. split; [unfold zlen; lia|]. rewrite app_nil_r. cbn [app].
    exists (a :: addrs). split_and!; [done| |done]. simpl. rewrite length_fmap. lia.
  - eapply wspec_bind; [apply (wspec_lift _ _ (λ b new, b = revoke_block w bs seq chunk ∧ new = []))|].
    { rewrite encode_revoke_spec by (done || apply Hbs). by intros ? [= <-]. }
    intros ? ? ws1 [-> ->] Hs1. eapply wspec_bind; [apply (wspec_lift _ _ (λ r new, alloc_block w head = Ok r ∧ new = [])); done|].
    intros [a h1] ? ws2 [Ha ->] Hs2. apply alloc_block_spec in Ha as [Hh1 Ha]; [|lia]. simpl in Hh1, Ha. subst h1.
    apply Forall_cons in Hbl as [[Hq _] _].
    eapply wspec_bind; [eapply (write_block_spec (log_write head0)); [by repeat apply torn_quiet_add| |]|].
    + by apply (addresses_write head0 head [a] 0 a); [lia|..].
    + intros. by apply (addresses_write head0 head [a] 0 a); [lia|..].
    + intros [] new ws3 -> Hs3. apply wspec_ret. split; [done|]. cbn [app]. exists [a]. by split_and!.
Qed.

Lemma write_body_writes fuel t p items head stats d :
  let n := max_tags_per_descriptor_for_format bs (jw_is_64bit w) (jw_has_checksum w) (jw_tag_format w) in
  let (chunk, rest) := take_writes (Z.to_nat n) bs (ItemWrite t p :: items) in
  ∃ stats', write_body (S fuel) w bs seq (ItemWrite t p :: items) head stats d =
    (head ← write_piece (PieceWrites chunk) head; write_body fuel w bs seq rest head stats') d.
Proof.
  intros n. destruct (take_writes _ _ _) as [chunk rest] eqn:E. eexists. cbn [write_body]. fold n. rewrite E.
  unfold write_piece, mbind, devM_bind, lift, mret, devM_ret.
  destruct (encode_descriptor w bs seq chunk); [|done]. destruct (alloc_block w head) as [[ad h1]|]; [|done].
  destruct (alloc_blocks w (length chunk) h1) as [[l h2]|]; [|done].
  destruct (write_descriptor_run _ _ _ _ _) as [d1 [[]|]]; done.
Qed.

Lemma write_body_revokes fuel t items head stats d :
  let n := max_revoke_entries_with_checksum bs (jw_is_64bit w) (jw_has_checksum w) in
  let (chunk, rest) := take_revokes (Z.to_nat n) (ItemRevoke t :: items) in
  ∃ stats', write_body (S fuel) w bs seq (ItemRevoke t :: items) head stats d =
    (head ← write_piece (PieceRevokes chunk) head; write_body fuel w bs seq rest head stats') d.
Proof.
  intros n. destruct (take_revokes _ _) as [chunk rest] eqn:E. eexists. cbn [write_body]. fold n. rewrite E.
  unfold write_piece, mbind, devM_bind, lift, mret, devM_ret.
  destruct (encode_revoke w bs seq chunk); [|done]. destruct (alloc_block w head) as [[ad h1]|]; [|done].
  destruct (write_block _ _ _) as [d1 [[]|]]; done.
Qed.

(** [m] writes the blocks of [ps] from [head] on. *)
Definition writes_pieces (head0 head : Z) (ps : list Piece) (m : devM (Z * Jbd2WriteStats)) (d : Device) : Prop :=
  wspec (log_write head0) m (λ r new, r.1 = head + pieces_len ps ∧ laid head (pieces_blocks ps) new) d.

Lemma writes_pieces_nil head0 head stats d : head <= jw_total_blocks w →
  writes_pieces head0 head [] (mret (head, stats)) d.
Proof.
  intros Hle. apply wspec_ret. simpl. split; [lia|]. exists []. split_and!; [|done|done]. split; [rewrite zlen_nil; lia|done].
Qed.

Lemma writes_pieces_cons head0 head p ps (m : Z → devM (Z * Jbd2WriteStats)) d :
  dev_block_size d = bs → torn_quiet d → 0 <= head0 <= head → good_piece w bs p →
  (∀ d', dev_block_size d' = bs → torn_quiet d' → head + piece_len p <= jw_total_blocks w →
     writes_pieces head0 (head + piece_len p) ps (m (head + piece_len p)) d') →
  writes_pieces head0 head (p :: ps) (head ← write_piece p head; m head) d.
Proof.
  intros Hd Ht Hh Hp Hm. destruct (good_piece_blocks p Hp) as [_ Hpl]. pose proof (piece_len_pos p).
  eapply wspec_bind; [by eapply (write_piece_spec head0)|]. intros h1 new ws [-> Hlaid] Hs.
  eapply wspec_wand; [apply Hm; [done|by apply torn_quiet_add|]|].
  { destruct Hlaid as (addrs&[Ha _]&Hlen&_). rewrite <-Hpl. unfold zlen in *. lia. }
  intros [h2 st2] new2 [Hh2 Hlaid2]. cbn [fst pieces_len fold_right] in *. fold (pieces_len ps) in *.
  split; [lia|]. unfold pieces_blocks. cbn [fmap list_fmap concat]. apply laid_app; [done|]. by rewrite Hpl.
Qed.

(** The body writes the blocks of its pieces from the head on. *)
Lemma write_body_spec fuel items head0 head stats d : dev_block_size d = bs → torn_quiet d →
  0 <= head0 <= head → head <= jw_total_blocks w → (length items <= fuel)%nat → Forall (item_ok w bs) items →
  writes_pieces head0 head (pieces_of fuel w bs items) (write_body fuel w bs seq items head stats) d.
Proof.
  assert (4 <= bs <= u32_max) as Hbs4 by (unfold JBD2_HEADER_SIZE in Hbs; lia).
  revert items head stats d. induction fuel as [|fuel IH]; intros items head stats d Hd Ht Hh Hle Hl Hok;
    [by apply writes_pieces_nil|].
  destruct (pieces_of_spec (S fuel) w bs items Hbs4 Hl Hok) as [Hgood _].
  destruct items as [|[t p|t] items]; [by apply writes_pieces_nil|..].
  - pose proof (proj1 (Forall_cons _ _ _) Hok) as [(_&_&_&Hmax) _].
    pose proof (write_body_writes fuel t p items head stats d) as Hst. cbv zeta in Hst. cbn [pieces_of] in *.
    destruct (take_writes _ _ _) as [chunk rest] eqn:E. destruct Hst as [stats' Hst].
    eapply wspec_eq; [exact Hst|]. apply take_writes_spec in E as (ws&Hit&->&_&Hne). specialize (Hne ltac:(lia) _ _ _ eq_refl).
    apply Forall_cons in Hgood as [Hp _]. pose proof (piece_len_pos (PieceWrites (uncurry (chunk_write bs) <$> ws))).
    apply writes_pieces_cons; try done. intros d' Hd' Ht' Hle'.
    rewrite Hit in Hl, Hok. apply Forall_app in Hok as [_ Hrest]. apply IH; try done; [lia|].
    destruct ws; [done|]. rewrite length_app in Hl. simpl in Hl. lia.
  - pose proof (proj1 (Forall_cons _ _ _) Hok) as [(_&Hmax) _].
    pose proof (write_body_revokes fuel t items head stats d) as Hst. cbv zeta in Hst. cbn [pieces_of] in *.
    destruct (take_revokes _ _) as [chunk rest] eqn:E. destruct Hst as [stats' Hst].
    eapply wspec_eq; [exact Hst|]. apply take_revokes_spec in E as (Hit&_&Hne). specialize (Hne ltac:(lia) _ _ eq_refl).
    apply Forall_cons in Hgood as [Hp _]. pose proof (piece_len_pos (PieceRevokes chunk)).
    apply writes_pieces_cons; try done. intros d' Hd' Ht' Hle'.
    rewrite Hit in Hl, Hok. apply Forall_app in Hok as [_ Hrest]. apply IH; try done; [lia|].
    destruct chunk; [done|]. rewrite length_app in Hl. simpl in Hl. lia.
Qed.
End body.
