(* ===== verification/Jbd2Crash.v ===== *)
(** * Power failures

    A power failure keeps what the last sync made durable and, of the writes
    since, any selection.  Committing a transaction is atomic under it: the log
    holds the transaction as a whole or not at all, at any point of the commit
    and however its writes and its barrier go. *)

From stdpp Require Import base sorting numbers gmap list.
From S2P Require Import Prelude Sorted Wal WalReplay WalWriter Journal Jbd2 Jbd2Replay Jbd2Writer Jbd2Codec Jbd2Order Jbd2Log Jbd2Apply Jbd2Commit.

Local Open Scope Z_scope.

#[local] Opaque be_bytes zeros.

(** ** The device after a power failure *)

(** [kept] of the unsynced writes made it; the answers afterwards are others. *)
Definition crashed (d : Device) (kept : list (Z * bytes)) (writes : list WriteAnswer) (syncs : list bool) : Device :=
  mkDevice (dev_block_size d) (dev_block_count d) (dev_contiguous d) (write_all kept (dev_durable d)) []
    (dev_unreadable d) writes syncs.

Definition power_failure (d d' : Device) : Prop :=
  ∃ kept writes syncs, kept `sublist_of` dev_unsynced d ∧ d' = crashed d kept writes syncs.

(** Writes after [d]: its power failures, with some of the writes on top. *)
Lemma power_failure_add d new ws d' : power_failure (add_writes d new ws) d' →
  ∃ d0 kept writes syncs, power_failure d d0 ∧ kept `sublist_of` new ∧ d' = crashed d0 kept writes syncs.
Proof.
  intros (kept&writes&syncs&Hk&->). simpl in Hk. apply sublist_app_r in Hk as (k1&k2&->&Hk1&Hk2).
  exists (crashed d k1 writes syncs), k2, writes, syncs. split_and!; [by exists k1, writes, syncs|done|].
  unfold crashed. simpl. by rewrite write_all_app.
Qed.

(** After a sync only the whole remains. *)
Lemma power_failure_synced d d1 d' : sync_device d = (d1, Ok ()) → power_failure d1 d' →
  ∃ writes syncs, d' = crashed d (dev_unsynced d) writes syncs.
Proof.
  intros Hs (kept&writes&syncs&Hk&->). exists writes, syncs.
  unfold sync_device in Hs. destruct (dev_syncs d) as [|[] rest]; simplify_eq/=;
    apply sublist_nil_r in Hk as ->; done.
Qed.

Lemma power_failure_all d writes syncs : power_failure d (crashed d (dev_unsynced d) writes syncs).
Proof. by exists (dev_unsynced d), writes, syncs. Qed.

Lemma crashed_add d new ws kept writes syncs :
  crashed (add_writes d new ws) (dev_unsynced d ++ kept) writes syncs =
    crashed (crashed d (dev_unsynced d) writes syncs) kept writes syncs.
Proof. unfold crashed. simpl. by rewrite write_all_app. Qed.

Lemma write_all_in ws b x : write_all ws ∅ !! b = Some x → (b, x) ∈ ws.
Proof.
  induction ws as [|[t y] ws IH]; [done|]. change (write_all ((t, y) :: ws) ∅) with (write_all ws (<[t := y]> ∅)).
  rewrite write_all_union, lookup_union. destruct (write_all ws ∅ !! b) as [z|].
  - intros He. right. apply IH. by destruct (<[t := y]> ∅ !! b).
  - destruct (decide (b = t)) as [->|]; [rewrite lookup_insert_eq|by rewrite lookup_insert_ne, lookup_empty].
    intros [= ->]. by left.
Qed.

Lemma crashed_at d kept writes syncs b :
  block_at (crashed d kept writes syncs) b =
    default (default (zeros (dev_block_size d)) (dev_durable d !! b)) (write_all kept ∅ !! b).
Proof.
  unfold block_at, dev_blocks. simpl. change (write_all [] ?m) with m. rewrite write_all_union, lookup_union.
  destruct (write_all kept ∅ !! b), (dev_durable d !! b); done.
Qed.

(** On a device without unsynced writes. *)
Lemma crashed_over d kept writes syncs b : dev_unsynced d = [] →
  block_at (crashed d kept writes syncs) b = default (block_at d b) (write_all kept ∅ !! b).
Proof. intros Hu. rewrite crashed_at. unfold block_at, dev_blocks. by rewrite Hu. Qed.

Lemma power_failure_unsynced d d' : power_failure d d' → dev_unsynced d' = [].
Proof. by intros (?&?&?&_&->). Qed.

Lemma power_failure_size d d' : power_failure d d' → dev_block_size d' = dev_block_size d.
Proof. by intros (?&?&?&_&->). Qed.

(** ** The log under writes *)

Section crash.
Context `{Crc32cAppend}.

(** How the writer's indices lie on the device. *)
Record log_layout (w : Jbd2Writer) (env : ReplayEnv) : Prop := {
  ll_total : jw_total_blocks w <= (env_window env).2;
  ll_resolve : ∀ i, 0 <= i < jw_total_blocks w → re_resolve env i = resolve_segment_block (jw_segments w) i;
  ll_distinct : ∀ i j a, 0 <= i < (env_window env).2 → 0 <= j < (env_window env).2 →
    re_resolve env i = Ok a → re_resolve env j = Ok a → i = j;
}.

(** No block of the log commits transaction [seq] or the next. *)
Definition none_commits (env : ReplayEnv) (seq : Z) (d : Device) : Prop :=
  ∀ j, 0 <= j < (env_window env).2 → ∃ b, at_idx env d j b ∧ no_commit seq b.

Lemma at_idx_crashed env d kept writes syncs i b : dev_unsynced d = [] → at_idx env d i b →
  (∀ a x, re_resolve env i = Ok a → (a, x) ∉ kept) → at_idx env (crashed d kept writes syncs) i b.
Proof.
  intros Hu (Hi&a&Ha&Hr) Hk. split; [done|]. exists a. split; [done|]. revert Hr. unfold read_block.
  cbn [crashed dev_block_count dev_unreadable]. case_if; [done|]. case_if; [done|]. intros [= <-].
  rewrite crashed_over by done. destruct (write_all kept ∅ !! a) as [x|] eqn:Hx; [|done].
  apply write_all_in in Hx. by apply Hk in Hx.
Qed.

Lemma at_idx_kept env d kept writes syncs i a x b : at_idx env d i b → re_resolve env i = Ok a → 
  write_all kept ∅ !! a = Some x → at_idx env (crashed d kept writes syncs) i x.
Proof.
  intros (Hi&a'&Ha'&Hr) Ha Hx. split; [done|]. exists a. split; [done|]. assert (a' = a) as -> by congruence. revert Hr. unfold read_block.
  cbn [crashed dev_block_count dev_unreadable]. case_if; [done|]. case_if; [done|]. intros _.
  by rewrite crashed_at, Hx.
Qed.

(** Log writes from [head] on leave the log before [head], and add no commit. *)
Lemma same_log_crashed w env d head kept writes syncs : log_layout w env → dev_unsynced d = [] → 0 <= head <= jw_total_blocks w →
  Forall (log_write w head) kept → same_log env head d (crashed d kept writes syncs).
Proof.
  intros [Hle Hres Hinj] Hu Hh Hk i b Hi Hat. apply at_idx_crashed; [done|done|]. intros a x Ha Hin.
  rewrite Forall_forall in Hk. destruct (Hk _ Hin) as [_ (j&Hj&Haj)]. simpl in Haj. destruct Hat as [Hi0 _].
  rewrite <-Hres in Haj by lia. assert (i = j) by (eapply Hinj; [lia|lia|done..]). lia.
Qed.

Lemma none_commits_crashed w env d head seq kept writes syncs : dev_unsynced d = [] → Forall (log_write w head) kept →
  none_commits env seq d → none_commits env seq (crashed d kept writes syncs).
Proof.
  intros Hu Hk Hn j Hj. destruct (Hn j Hj) as (b&Hat&Hb). pose proof Hat as (Hj0&a&Ha&_).
  destruct (write_all kept ∅ !! a) as [x|] eqn:Hx.
  - exists x. split; [by eapply at_idx_kept|]. apply write_all_in in Hx. rewrite Forall_forall in Hk.
    apply quiet_no_commit. apply (Hk _ Hx).
  - exists b. split; [|done]. apply at_idx_crashed; [done|done|]. intros a' x' Ha' Hin. assert (a' = a) as -> by congruence.
    assert (is_Some (write_all kept ∅ !! a)) as [y Hy]; [|congruence].
    clear -Hin. induction kept as [|[t y] kept IH]; [by apply elem_of_nil in Hin|].
    change (write_all ((t, y) :: kept) ∅) with (write_all kept (<[t := y]> ∅)). rewrite write_all_union, lookup_union_is_Some.
    apply elem_of_cons in Hin as [[= <- <-]|Hin]; [right; by rewrite lookup_insert_eq|left; auto].
Qed.

Lemma log_on_crashed w sb env txns d head kept writes syncs : log_layout w env → dev_unsynced d = [] →
  0 < head <= jw_total_blocks w → jsb_start_block sb + log_len txns <= head → Forall (log_write w head) kept →
  log_on w sb env txns d → log_on w sb env txns (crashed d kept writes syncs).
Proof.
  intros Hl Hu Hh Hle Hk Hon. eapply (log_on_same w sb env head); [by eapply same_log_crashed; try done; lia|lia|done|done| |done].
  eapply none_commits_crashed; [done|done|]. intros j Hj. by apply (lo_rest _ _ _ _ _ Hon).
Qed.

(** ** One more transaction *)

Lemma nth_seq_shift seq k : nth_seq (wrapping_add32 seq 1) k = nth_seq seq (S k).
Proof. unfold nth_seq, wrapping_add32. rewrite Zplus_mod_idemp_l. f_equal. lia. Qed.

Lemma txns_at_snoc w bs env d seq i txns ps : 0 <= seq <= u32_max → txns_at w bs env d seq i txns →
  heads_at w bs env d (nth_seq seq (length txns)) (i + log_len txns) ps →
  at_idx env d (i + log_len txns + pieces_len ps) (commit_block w bs (nth_seq seq (length txns))) →
  txns_at w bs env d seq i (txns ++ [ps]).
Proof.
  revert seq i. induction txns as [|q txns IH]; intros seq i Hseq; cbn [txns_at app length log_len fold_right].
  { rewrite nth_seq_0, Z.add_0_r by done. done. }
  fold (log_len txns). intros (Hh&Hc&Ht) Hps Hcm. split_and!; [done|done|].
  rewrite (Z.add_assoc i) in Hps, Hcm. apply IH; rewrite ?nth_seq_shift; try done.
  rewrite <-(nth_seq_0 seq), nth_seq_S by done. apply nth_seq_u32.
Qed.

Lemma log_data_snoc env d i txns ps : log_data_at env d i txns → pieces_data_at env d (i + log_len txns) ps →
  log_data_at env d i (txns ++ [ps]).
Proof.
  revert i. induction txns as [|q txns IH]; intros i; cbn [log_data_at app log_len fold_right].
  { by rewrite Z.add_0_r. }
  fold (log_len txns). intros [Hq Ht] Hps. split; [done|]. apply IH; [done|]. by rewrite <-Z.add_assoc.
Qed.

Lemma pieces_data_same env e d d' i ps : same_log env e d d' → i + pieces_len ps <= e →
  pieces_data_at env d i ps → pieces_data_at env d' i ps.
Proof.
  intros Hs. revert i. induction ps as [|p ps IH]; intros i; [done|]. simpl. fold (pieces_len ps). intros He [Hp Hps].
  pose proof (piece_len_pos p). pose proof (pieces_len_nonneg ps). split; [|apply IH; [lia|done]].
  destruct p; [|done]. intros j c Hj. apply Hs; [|by apply Hp]. apply lookup_lt_Some in Hj. simpl in He. unfold zlen in He. lia.
Qed.

(** The blocks [bl] are on the device from index [i] on. *)
Definition run_at (env : ReplayEnv) (d : Device) (i : Z) (bl : list bytes) : Prop :=
  ∀ j b, bl !! j = Some b → at_idx env d (i + Z.of_nat j) b.

Lemma run_at_app env d i a b : run_at env d i (a ++ b) → run_at env d i a ∧ run_at env d (i + zlen a) b.
Proof.
  intros Hr. split; intros j x Hj.
  - apply Hr. by apply lookup_app_l_Some.
  - replace (i + zlen a + Z.of_nat j) with (i + Z.of_nat (length a + j)) by (unfold zlen; lia). apply Hr.
    rewrite lookup_app_r by lia. by replace (length a + j - length a)%nat with j by lia.
Qed.

Lemma zlen_piece_blocks w bs seq p : zlen (piece_blocks w bs seq p) = piece_len p.
Proof. unfold piece_blocks. rewrite zlen_cons. destruct p; simpl; unfold zlen; rewrite ?length_fmap; simpl; lia. Qed.

Lemma run_pieces w bs seq env d i ps : run_at env d i (pieces_blocks w bs seq ps) →
  heads_at w bs env d seq i ps ∧ pieces_data_at env d i ps.
Proof.
  revert i. induction ps as [|p ps IH]; intros i Hr; [done|]. unfold pieces_blocks in Hr. cbn [fmap list_fmap concat] in Hr.
  apply run_at_app in Hr as [Hp Hps]. rewrite zlen_piece_blocks in Hps. destruct (IH _ Hps) as [Hh Hd].
  simpl. split; (split; [|done]).
  - specialize (Hp 0%nat _ eq_refl). by rewrite Z.add_0_r in Hp.
  - destruct p as [chunk|]; [|done]. intros j c Hj. specialize (Hp (S j) (cw_padded c)).
    replace (i + 1 + Z.of_nat j) with (i + Z.of_nat (S j)) by lia. apply Hp. simpl. by rewrite list_lookup_fmap, Hj.
Qed.

(** [d'] has the log of [d], the pieces of one more transaction, and its commit. *)
Lemma log_on_snoc w sb env txns ps d d' : let n := length txns in let i := jsb_start_block sb + log_len txns in
  let seq := nth_seq (jsb_start_sequence sb) n in let bs := dev_block_size d in
  log_on w sb env txns d → same_log env (i + pieces_len ps) d d' → dev_block_size d' = bs → 0 < i →
  Forall (good_piece w bs) ps → i + txn_len ps <= (env_window env).2 → Z.of_nat n + 2 < 2 ^ 32 →
  run_at env d i (pieces_blocks w bs seq ps) → at_idx env d' (i + pieces_len ps) (commit_block w bs seq) →
  none_commits env (nth_seq (jsb_start_sequence sb) (S n)) d' →
  log_on w sb env (txns ++ [ps]) d'.
Proof.
  intros n i seq bs Hon Hsame Hz Hi Hgood Hfit Hn Hrun Hcm Hnone. apply run_pieces in Hrun as [Hh Hdt].
  pose proof (pieces_len_nonneg ps).
  destruct Hon as [? (raw&Hraw&?) Hsq Hst Hle ? ? ? Htx Hld _].
  assert (length (txns ++ [ps]) = S n) as Hlen by (rewrite length_app; simpl; lia).
  split; rewrite ?Hz, ?Hlen; try done.
  - exists raw. split; [|done]. apply Hsame; [lia|done].
  - rewrite log_len_app. unfold i in Hfit. simpl. lia.
  - lia.
  - apply Forall_app. split; [done|]. constructor; [|done]. eapply Forall_impl; [exact Hgood|]. by intros p [].
  - apply Forall_app. split; [done|]. constructor; [|done]. eapply Forall_impl; [exact Hgood|]. by intros p [].
  - apply txns_at_snoc; [done| |by eapply heads_at_same|done].
    eapply txns_at_same; [done| |done]. unfold i in *. lia.
  - apply log_data_snoc; [|by eapply pieces_data_same]. eapply log_data_same; [done| |done]. unfold i in *. lia.
Qed.

(** ** Committing *)

(** A writer at the end of the log [txns], once what was written is durable; the
    log has no commit of the next [ahead] transactions, nor of the one after them. *)
Record writer_ready (w : Jbd2Writer) (sb : Jbd2Superblock) (env : ReplayEnv) (txns : list (list Piece)) (ahead : nat)
    (d : Device) : Prop := {
  wr_log : ∀ writes syncs, log_on w sb env txns (crashed d (dev_unsynced d) writes syncs);
  wr_fresh : ∀ writes syncs k, (k <= ahead)%nat →
    none_commits env (nth_seq (jsb_start_sequence sb) (length txns + k)) (crashed d (dev_unsynced d) writes syncs);
  wr_layout : log_layout w env;
  wr_head : jw_head w = jsb_start_block sb + log_len txns;
  wr_room : 0 < jw_head w <= jw_total_blocks w;
  wr_seq : jw_next_seq w = nth_seq (jsb_start_sequence sb) (length txns);
  wr_short : Z.of_nat (length txns + ahead) + 1 < 2 ^ 32;
}.

Lemma write_all_zip (addrs : list Z) (bl : list bytes) j a b : NoDup addrs → addrs !! j = Some a → bl !! j = Some b →
  write_all (zip addrs bl) ∅ !! a = Some b.
Proof.
  revert bl j. induction addrs as [|x addrs IH]; intros bl j Hnd Ha Hb; [done|]. destruct bl as [|y bl]; [done|].
  apply NoDup_cons in Hnd as [Hx Hnd]. change (zip (x :: addrs) (y :: bl)) with ((x, y) :: zip addrs bl).
  change (write_all ((x, y) :: zip addrs bl) ∅) with (write_all (zip addrs bl) (<[x := y]> ∅)).
  rewrite write_all_union, lookup_union. destruct j as [|j]; simpl in Ha, Hb.
  - simplify_eq. rewrite lookup_insert_eq. destruct (write_all (zip addrs bl) ∅ !! a) as [z|] eqn:E; [|done].
    apply write_all_in in E. destruct Hx. apply list_elem_of_lookup in E as [k Hk]. apply lookup_zip_Some in Hk as [Hk _].
    by eapply list_elem_of_lookup_2.
  - rewrite (IH bl j) by done. by destruct (<[x := y]> ∅ !! a).
Qed.

(** What was laid out is there once it is durable. *)
Lemma laid_run w env d head bl new seq writes syncs : log_layout w env → 0 <= head → none_commits env seq d →
  laid w head bl new → run_at env (crashed d new writes syncs) head bl.
Proof.
  intros [Hle Hres Hinj] Hh Hnone (addrs&[Hfit Haddr]&Hlen&->) j b Hj.
  destruct (lookup_lt_is_Some_2 addrs j) as [a Ha]; [rewrite Hlen; by eapply lookup_lt_Some|].
  pose proof (lookup_lt_Some _ _ _ Ha). unfold zlen in Hfit.
  destruct (Hnone (head + Z.of_nat j)) as (b0&Hat&_); [lia|].
  eapply at_idx_kept; [done|rewrite Hres by lia; by apply Haddr|]. apply write_all_zip with j; [|done|done].
  apply NoDup_alt. intros k k' x Hk Hk'. pose proof (lookup_lt_Some _ _ _ Hk). pose proof (lookup_lt_Some _ _ _ Hk').
  apply Haddr in Hk, Hk'. rewrite <-Hres in Hk, Hk' by lia.
  assert (head + Z.of_nat k = head + Z.of_nat k'); [|lia]. eapply Hinj; [lia|lia|done..].
Qed.

(** A property of the device that writes to the log from the head on leave. *)
Definition log_stable (w : Jbd2Writer) (before : Device → Prop) : Prop :=
  ∀ d kept writes syncs, before d → dev_unsynced d = [] → Forall (log_write w (jw_head w)) kept →
    before (crashed d kept writes syncs).

Lemma log_write_sublist w head kept new : kept `sublist_of` new → Forall (log_write w head) new → Forall (log_write w head) kept.
Proof.
  rewrite !Forall_forall. intros Hk Hnew x Hx. apply Hnew. eapply elem_of_submseteq; [done|by apply sublist_submseteq].
Qed.

(** While the body is written nothing is committed. *)
Lemma body_before w before d new ws d0 : log_stable w before → (∀ d0, power_failure d d0 → before d0) →
  Forall (log_write w (jw_head w)) new → power_failure (add_writes d new ws) d0 → before d0.
Proof.
  intros Hst Hb Hnew Hp. apply power_failure_add in Hp as (d1&kept&writes&syncs&Hp&Hk&->).
  apply Hst; [by apply Hb|by eapply power_failure_unsynced|by eapply log_write_sublist].
Qed.

Lemma body_uncommitted w sb env txns ahead d new ws d1 d0 : writer_ready w sb env txns ahead d →
  Forall (log_write w (jw_head w)) new → sync_device (add_writes d new ws) = (d1, Ok ()) → power_failure d1 d0 →
  log_on w sb env txns d0 ∧
  ∀ k, (k <= ahead)%nat → none_commits env (nth_seq (jsb_start_sequence sb) (length txns + k)) d0.
Proof.
  intros Hw Hnew Hsync Hp. destruct (power_failure_synced _ _ _ Hsync Hp) as (writes&syncs&->).
  change (dev_unsynced (add_writes d new ws)) with (dev_unsynced d ++ new). rewrite crashed_add. split.
  - eapply log_on_crashed; [apply Hw|done|apply Hw|by rewrite (wr_head _ _ _ _ _ _ Hw)|done|by eapply Hw].
  - intros k Hle. eapply none_commits_crashed; [done..|]. by eapply Hw.
Qed.

Lemma log_commit_block w sb bs env n : log_params w sb bs env →
  header_block sb bs (nth_seq (jsb_start_sequence sb) n) (commit_block w bs (nth_seq (jsb_start_sequence sb) n))
    JBD2_BLOCKTYPE_COMMIT.
Proof.
  intros Hp. apply commit_block_spec; [apply Hp|apply Hp|apply (lp_bs _ _ _ _ Hp)|apply nth_seq_u32|].
  split; [apply (lp_bs _ _ _ _ Hp)|apply (lp_commit _ _ _ _ Hp)].
Qed.

Lemma at_idx_range env d i a b : at_idx env d i b → re_resolve env i = Ok a → a < dev_block_count d.
Proof.
  intros (_&a'&Ha'&Hr) Ha. assert (a' = a) as -> by congruence. revert Hr. unfold read_block. case_if; [done|]. lia.
Qed.

(** The commit block is on top of the body. *)
Lemma commit_present w sb env txns ps ahead d a writes syncs : let n := length txns in
  let i := jsb_start_block sb + log_len txns in let seq := nth_seq (jsb_start_sequence sb) n in
  let d' := crashed d [(a, commit_block w (dev_block_size d) seq)] writes syncs in
  log_on w sb env txns d → log_layout w env → dev_unsynced d = [] → 0 < i → i + txn_len ps <= jw_total_blocks w →
  Forall (good_piece w (dev_block_size d)) ps → run_at env d i (pieces_blocks w (dev_block_size d) seq ps) →
  re_resolve env (i + pieces_len ps) = Ok a → Z.of_nat (n + S ahead) + 1 < 2 ^ 32 →
  (∀ k, (k <= S ahead)%nat → none_commits env (nth_seq (jsb_start_sequence sb) (n + k)) d) →
  log_on w sb env (txns ++ [ps]) d' ∧
  ∀ k, (k <= ahead)%nat → none_commits env (nth_seq (jsb_start_sequence sb) (S n + k)) d'.
Proof.
  intros n i seq d' Hon [Hle Hres Hinj] Hu Hi Hfit Hgood Hrun Ha Hshort Hnone.
  pose proof (lo_params _ _ _ _ _ Hon) as Hpar. pose proof (pieces_len_nonneg ps). unfold txn_len in Hfit.
  pose proof (log_commit_block _ _ _ _ n Hpar) as [_ Hhd _]. fold seq in Hhd.
  assert (write_all [(a, commit_block w (dev_block_size d) seq)] ∅ !! a = Some (commit_block w (dev_block_size d) seq)) as Hx
    by apply lookup_insert_eq.
  assert (∀ k, (k <= ahead)%nat → none_commits env (nth_seq (jsb_start_sequence sb) (S n + k)) d') as Hnone'.
  { intros k Hk j Hj. replace (S n + k)%nat with (n + S k)%nat by lia.
    destruct (Hnone (S k) ltac:(lia) j Hj) as (b&Hat&Hb). pose proof Hat as (Hj0&aj&Haj&_).
    destruct (decide (aj = a)) as [->|Hne].
    - exists (commit_block w (dev_block_size d) seq). split; [by eapply at_idx_kept|].
      intros h. rewrite Hhd. intros [= <-] _. simpl. unfold seq. rewrite nth_seq_S.
      split; intros ?%nth_seq_inj; lia.
    - exists b. split; [|done]. apply at_idx_crashed; [done|done|]. intros a' x Ha' [[= -> _]|[]%elem_of_nil]%elem_of_cons. congruence. }
  split; [|done]. eapply log_on_snoc; [done| |done|done|done|unfold txn_len; lia|lia|done| |].
  - intros j b Hj Hat. apply at_idx_crashed; [done|done|]. intros a' x Ha' [[= -> _]|[]%elem_of_nil]%elem_of_cons.
    destruct Hat as [Hj0 _]. assert (j = i + pieces_len ps); [|lia]. eapply Hinj; [lia|lia|done..].
  - destruct (Hnone 0%nat ltac:(lia) (i + pieces_len ps) ltac:(lia)) as (b&Hat&_). by eapply at_idx_kept.
  - specialize (Hnone' 0%nat ltac:(lia)). by rewrite Nat.add_0_r in Hnone'.
Qed.

Lemma log_on_writer w sb env txns d head aborted :
  log_on w sb env txns d → log_on (committed_writer w head aborted) sb env txns d.
Proof. intros [[[] ? ? ? ? ? ?] ? ? ? ? ? ? ? ? ? ?]. split; try done. Qed.

(** The write of the commit block, over a durable body. *)
Lemma commit_write_spec w sb env txns ps ahead d a d' out : let n := length txns in
  let i := jsb_start_block sb + log_len txns in let seq := nth_seq (jsb_start_sequence sb) n in
  log_layout w env → dev_unsynced d = [] → torn_quiet d → 0 < i → i + txn_len ps <= jw_total_blocks w →
  Forall (good_piece w (dev_block_size d)) ps → re_resolve env (i + pieces_len ps) = Ok a →
  Z.of_nat (n + S ahead) + 1 < 2 ^ 32 →
  (∀ d0, power_failure d d0 → log_on w sb env txns d0 ∧ run_at env d0 i (pieces_blocks w (dev_block_size d) seq ps) ∧
     ∀ k, (k <= S ahead)%nat → none_commits env (nth_seq (jsb_start_sequence sb) (n + k)) d0) →
  write_block a (commit_block w (dev_block_size d) seq) d = (d', out) →
  (∀ d0, power_failure d' d0 → log_on w sb env txns d0 ∨ log_on w sb env (txns ++ [ps]) d0) ∧
  (out = Ok () → ∀ d1 d0, sync_device d' = (d1, Ok ()) → power_failure d1 d0 →
     log_on w sb env (txns ++ [ps]) d0 ∧
     ∀ k, (k <= ahead)%nat → none_commits env (nth_seq (jsb_start_sequence sb) (S n + k)) d0).
Proof.
  intros n i seq Hl Hu Ht Hi Hfit Hgood Ha Hshort Hall Hw. pose proof (pieces_len_nonneg ps) as Hps0.
  unfold txn_len in Hfit. pose proof (power_failure_all d [] []) as Hp0. destruct (Hall _ Hp0) as (Hon0&_&Hnone0).
  pose proof (lo_params _ _ _ _ _ Hon0) as Hpar.
  assert (a < dev_block_count d) as Hcnt.
  { pose proof (ll_total _ _ Hl). destruct (Hnone0 0%nat ltac:(lia) (i + pieces_len ps)) as (b&Hat&_); [lia|].
    by apply (at_idx_range _ _ _ _ _ Hat). }
  pose proof (log_commit_block _ _ _ _ n Hpar) as [Hz _ _].
  assert (∀ d0, power_failure d d0 → dev_unsynced d0 = [] ∧ dev_block_size d0 = dev_block_size d) as Hsz.
  { intros d0 Hd0. split; [by eapply power_failure_unsynced|by apply power_failure_size]. }
  assert (∀ d0 writes syncs, power_failure d d0 →
    log_on w sb env (txns ++ [ps]) (crashed d0 [(a, commit_block w (dev_block_size d) seq)] writes syncs) ∧
    ∀ k, (k <= ahead)%nat → none_commits env (nth_seq (jsb_start_sequence sb) (S n + k))
      (crashed d0 [(a, commit_block w (dev_block_size d) seq)] writes syncs)) as Hcommit.
  { intros d0 writes syncs Hd0. destruct (Hsz d0 Hd0) as [Hu0 Hb0]. destruct (Hall d0 Hd0) as (?&?&?).
    rewrite <-Hb0. eapply commit_present; try done; rewrite ?Hb0; try done; unfold txn_len; lia. }
  assert (∀ d0 kept writes syncs, power_failure d d0 → Forall (λ wr, wr.1 = a ∧ quiet wr.2) kept →
    log_on w sb env txns (crashed d0 kept writes syncs)) as Hno.
  { intros d0 kept writes syncs Hd0 Hk. destruct (Hsz d0 Hd0) as [Hu0 _].
    eapply (log_on_crashed w sb env txns d0 (i + pieces_len ps)); [done|done|lia|unfold i; lia| |by apply Hall].
    eapply Forall_impl; [exact Hk|]. intros [a' x] [Ha' Hq]. simpl in Ha', Hq. subst a'. split; [done|].
    exists (i + pieces_len ps). split; [lia|]. simpl. by rewrite <-(ll_resolve _ _ Hl) by lia. }
  apply write_block_outcome in Hw; [|done..].
  destruct Hw as [ws Hs|ws Hs _|ws x Hs _ Hzx Hx]; (split; [intros d0 Hd0; apply power_failure_add in Hd0
    as (d00&kept&writes&syncs&Hd00&Hk&->)|]).
  - apply sublist_cons_r in Hk as [Hk|(k'&->&Hk)]; apply sublist_nil_r in Hk as ->; [left; by apply Hno|right; by apply Hcommit].
  - intros _ d1 d0 Hsync Hd0. destruct (power_failure_synced _ _ _ Hsync Hd0) as (writes&syncs&->).
    change (dev_unsynced (add_writes d ?new ?ws)) with (dev_unsynced d ++ new). rewrite crashed_add. apply Hcommit, power_failure_all.
  - apply sublist_nil_r in Hk as ->. left. by apply Hno.
  - done.
  - apply sublist_cons_r in Hk as [Hk|(k'&->&Hk)]; apply sublist_nil_r in Hk as ->; [left; by apply Hno|].
    destruct Hx as [->|Htorn]; [right; by apply Hcommit|]. left. apply Hno; [done|]. constructor; [|done]. split; [done|].
    specialize (Ht x 0%nat Htorn). simpl in Ht. rewrite drop_0, take_ge in Ht; [done|]. unfold zlen in Hzx. lia.
  - done.
Qed.

(** The barrier: the body is durable, or nothing has changed. *)
Lemma sync_outcome d d' out : sync_device d = (d', out) →
  dev_block_size d' = dev_block_size d ∧ dev_writes d' = dev_writes d ∧
  (out = Ok () → dev_unsynced d' = []) ∧
  ∀ d0, power_failure d' d0 → power_failure d d0.
Proof.
  unfold sync_device. destruct (dev_syncs d) as [|[] rest]; intros [= <- <-]; split_and!; try done.
  - intros d0 (kept&writes&syncs&Hk&->). apply sublist_nil_r in Hk as ->. by exists (dev_unsynced d), writes, syncs.
  - intros d0 (kept&writes&syncs&Hk&->). apply sublist_nil_r in Hk as ->. by exists (dev_unsynced d), writes, syncs.
Qed.

Lemma ready_params w sb env txns ahead d : writer_ready w sb env txns ahead d →
  log_params w sb (dev_block_size d) env ∧ jw_total_blocks w <= u32_max ∧ 4 <= dev_block_size d <= u32_max.
Proof.
  intros Hw. pose proof (wr_log _ _ _ _ _ _ Hw [] []) as Hon. pose proof (lo_params _ _ _ _ _ Hon) as Hp.
  change (dev_block_size (crashed _ _ _ _)) with (dev_block_size d) in Hp. split; [done|].
  pose proof (ll_total _ _ (wr_layout _ _ _ _ _ _ Hw)). pose proof (lp_window _ _ _ _ Hp). pose proof (lp_total _ _ _ _ Hp).
  pose proof (lp_bs _ _ _ _ Hp) as Hb. unfold JBD2_HEADER_SIZE in Hb. lia.
Qed.

(** Once the barrier has passed, the body is there. *)
Lemma body_durable w sb env txns ahead bs seq ps d new ws d1 d0 : writer_ready w sb env txns ahead d →
  laid w (jw_head w) (pieces_blocks w bs seq ps) new →
  sync_device (add_writes d new ws) = (d1, Ok ()) → power_failure d1 d0 →
  run_at env d0 (jw_head w) (pieces_blocks w bs seq ps).
Proof.
  intros Hw Hlaid Hsync Hd0. destruct (power_failure_synced _ _ _ Hsync Hd0) as (writes&syncs&->).
  change (dev_unsynced (add_writes d new ws)) with (dev_unsynced d ++ new). rewrite crashed_add.
  pose proof (wr_room _ _ _ _ _ _ Hw).
  eapply laid_run; [apply Hw|lia|apply (wr_fresh _ _ _ _ _ _ Hw writes syncs 0%nat); lia|done].
Qed.

Lemma write_phase_spec w sb env txns txn ahead before d d' r : let ps := txn_pieces w (dev_block_size d) (tx_body_items txn) in
  let n := length txns in
  writer_ready w sb env txns (S ahead) d → log_stable w before → (∀ d0, power_failure d d0 → before d0) → torn_quiet d → Forall (item_ok w (dev_block_size d)) (tx_body_items txn) →
  write_phase w (dev_block_size d) (jw_next_seq w) txn d = (d', r) →
  (∀ d0, power_failure d' d0 → before d0 ∨ log_on w sb env txns d0 ∨ log_on w sb env (txns ++ [ps]) d0) ∧
  ∀ head stats, r = Ok (head, stats) → head = jw_head w + txn_len ps ∧ head <= jw_total_blocks w ∧
    ∀ d1 d0, sync_device d' = (d1, Ok ()) → power_failure d1 d0 →
      log_on w sb env (txns ++ [ps]) d0 ∧
      ∀ k, (k <= ahead)%nat → none_commits env (nth_seq (jsb_start_sequence sb) (S n + k)) d0.
Proof.
  intros ps n Hw Hst Hbefore Ht Hok. set (bs := dev_block_size d) in *. destruct (ready_params _ _ _ _ _ _ Hw) as (Hp&Htot&Hbs4).
  pose proof (wr_layout _ _ _ _ _ _ Hw) as Hl. pose proof (wr_room _ _ _ _ _ _ Hw) as Hroom. pose proof (wr_head _ _ _ _ _ _ Hw) as Hhead.
  pose proof (wr_seq _ _ _ _ _ _ Hw) as Hseq.
  destruct (pieces_of_spec (length (tx_body_items txn)) w bs (tx_body_items txn) Hbs4 ltac:(lia) Hok) as [Hgood _]. fold ps in Hgood.
  destruct (write_body_spec w sb bs (jw_next_seq w) (lp_matches _ _ _ _ Hp) (lp_seed _ _ _ _ Hp) (lp_bs _ _ _ _ Hp)
    ltac:(rewrite Hseq; apply nth_seq_u32) Htot (length (tx_body_items txn)) (tx_body_items txn) (jw_head w)
    (jw_head w) (mkWriteStats 0 0 0 0) d eq_refl Ht ltac:(lia) ltac:(lia) ltac:(lia) Hok) as (new&ws&Hd1&Hs&Hnew&Hbody).
  change (pieces_of _ _ _ _) with ps in Hbody. unfold write_phase, mbind, devM_bind.
  assert (∀ d0, power_failure (add_writes d new ws) d0 → before d0) as Hun by (intros d0 Hd0; by eapply body_before).
  destruct (write_body _ _ _ _ _ _ _ d) as [d1 [[h1 st1]|e]]; simpl in Hd1; subst d1.
  2:{ intros [= <- <-]. split; [|done]. intros d0 Hd0. left. by apply Hun. }
  destruct (Hbody _ eq_refl) as [Hh1 Hlaid]. simpl in Hh1. clear Hbody.
  destruct (sync_device (add_writes d new ws)) as [d2 [[]|e]] eqn:Hsync;
    destruct (sync_outcome _ _ _ Hsync) as (Hz2&Hw2&Hu2&Hpf2).
  2:{ intros [= <- <-]. split; [|done]. intros d0 Hd0%Hpf2. left. by apply Hun. }
  unfold lift. rewrite encode_commit_spec; [|by split; [apply (lp_bs _ _ _ _ Hp)|apply (lp_commit _ _ _ _ Hp)]].
  destruct (alloc_block w h1) as [[a h2]|e] eqn:Ha.
  2:{ intros [= <- <-]. split; [|done]. intros d0 Hd0%Hpf2. left. by apply Hun. }
  pose proof (pieces_len_nonneg ps). apply alloc_block_spec in Ha as [Hh2 [Hfit Haddr]]; [|done|lia].
  simpl in Hh2, Hfit, Haddr. specialize (Haddr 0%nat a eq_refl). rewrite Z.add_0_r in Haddr. rewrite zlen_cons, zlen_nil in Hfit.
  destruct (write_block a (commit_block w bs (jw_next_seq w)) d2) as [d3 o] eqn:Hcw.
  assert (dev_block_size d2 = bs) as Hz2' by done. rewrite Hseq, <-Hz2' in Hcw.
  destruct (commit_write_spec w sb env txns ps ahead d2 a d3 o) as [Hatomic Hdone]; try done.
  - by apply Hu2.
  - intros torn k. rewrite Hw2, Hz2. by apply (torn_quiet_add d new ws Hs Ht).
  - lia.
  - unfold txn_len. lia.
  - by rewrite Hz2'.
  - rewrite (ll_resolve _ _ Hl) by lia. rewrite <-Hhead, <-Hh1. done.
  - pose proof (wr_short _ _ _ _ _ _ Hw). lia.
  - intros d0 Hd0. destruct (body_uncommitted _ _ _ _ _ _ _ _ _ _ Hw Hnew Hsync Hd0) as [? ?]. split_and!; [done| |done].
    rewrite <-Hhead, <-Hseq, Hz2'. by eapply body_durable.
  - destruct o as [[]|e]; intros [= <- <-]; (split; [by right; apply Hatomic|]); [|done].
    intros head stats [= <- _]. unfold txn_len. split_and!; [lia|lia|]. intros. by eapply Hdone.
Qed.

Lemma log_on_stable w sb env txns : log_layout w env → 0 < jw_head w <= jw_total_blocks w →
  jsb_start_block sb + log_len txns <= jw_head w → log_stable w (log_on w sb env txns).
Proof. intros Hl Hr Hle d kept writes syncs Hon Hu Hk. by eapply log_on_crashed. Qed.

(** What a commit leaves, in a state where the power failures before it satisfy
    [before]. *)
Lemma commit_transaction_spec w sb env txns txn ahead before d d' w' r :
  let bs := dev_block_size d in let ps := txn_pieces w bs (tx_body_items txn) in
  writer_ready w sb env txns (S ahead) d → log_stable w before → (∀ d0, power_failure d d0 → before d0) →
  torn_quiet d → Forall (item_ok w bs) (tx_body_items txn) →
  commit_transaction w txn d = (d', w', r) →
  (∀ d0, power_failure d' d0 → before d0 ∨ log_on w sb env txns d0 ∨ log_on w sb env (txns ++ [ps]) d0) ∧
  match r with
  | Ok (seq, _) =>
      seq = nth_seq (jsb_start_sequence sb) (length txns) ∧
      ∀ d1, sync_device d' = (d1, Ok ()) →
        writer_ready w' sb env (txns ++ [ps]) ahead d1 ∧ ∀ d0, power_failure d1 d0 → log_on w' sb env (txns ++ [ps]) d0
  | Err _ => d' = d ∧ w' = w ∨ jw_aborted w' = true
  end.
Proof.
  intros bs ps Hw Hst Hbefore Ht Hok. unfold commit_transaction. destruct (preflight_transaction w (dev_block_size d) txn) as [[]|e].
  2:{ intros [= <- <- <-]. split; [|by left]. intros d0 Hd0. left. by apply Hbefore. }
  destruct (write_phase w (dev_block_size d) (jw_next_seq w) txn d) as [d2 o] eqn:E.
  destruct (write_phase_spec _ _ _ _ _ _ _ _ _ _ Hw Hst Hbefore Ht Hok E) as [Hatomic Hdone].
  destruct o as [[head stats]|e]; intros [= <- <- <-]; (split; [done|]); [|by right].
  split; [apply Hw|]. intros d1 Hsync. destruct (Hdone head stats eq_refl) as (Hh&Hfit&Hdur). fold bs ps in Hh, Hdur.
  pose proof (wr_room _ _ _ _ _ _ Hw). pose proof (wr_short _ _ _ _ _ _ Hw) as Hshort. pose proof (pieces_len_nonneg ps).
  assert (length (txns ++ [ps]) = S (length txns)) as Hlen by (rewrite length_app; simpl; lia).
  split; [split; rewrite ?Hlen|].
  - intros writes syncs. apply log_on_writer. eapply Hdur; [done|apply power_failure_all].
  - intros writes syncs k Hk. eapply Hdur; [done|apply power_failure_all|done].
  - destruct (wr_layout _ _ _ _ _ _ Hw). by split.
  - simpl. rewrite log_len_app, Hh, (wr_head _ _ _ _ _ _ Hw). simpl. lia.
  - simpl. unfold txn_len in Hh. lia.
  - simpl. by rewrite (wr_seq _ _ _ _ _ _ Hw), nth_seq_S.
  - lia.
  - intros d0 Hd0. apply log_on_writer. by eapply Hdur.
Qed.

End crash.
