(* ===== verification/Jbd2Boundary.v ===== *)
(** * The durability boundary ([ffs-core/src/lib.rs])

    [ext4_journal_and_checkpoint] journals a set of home blocks as one
    transaction, checkpoints them, and marks the log empty again. *)

From stdpp Require Import base sorting numbers gmap list.
From S2P Require Import Prelude Sorted Wal WalReplay WalWriter Journal Jbd2 CrcIncr Jbd2Replay Jbd2Writer.

Local Open Scope Z_scope.

Definition EXT4_SUPERBLOCK_OFFSET : Z := 1024.
Definition EXT4_SB_CHECKSUM_OFFSET : Z := 0x3FC.
Definition INCOMPAT_OFFSET : Z := 0x60.
Definition INCOMPAT_RECOVER : Z := 0x4.

(** Where the boundary stopped. *)
Inductive BoundaryError :=
| PreflightRejected (e : JournalError)
| NeedsRecoveryFailed (e : JournalError)
| MarkLiveFailed (e : JournalError)
| JournalWriteFailed (e : JournalError)
| CommitSyncFailed (e : JournalError)
| CheckpointWriteFailed (block : Z) (e : JournalError)
| CheckpointSyncFailed (e : JournalError)
| MarkEmptyFailed (e : JournalError)
| CleanupSyncFailed (e : JournalError).

Definition ext4_superblock_location (block_size : Z) : Z * Z :=
  (EXT4_SUPERBLOCK_OFFSET / block_size, EXT4_SUPERBLOCK_OFFSET mod block_size).

Section boundary.
Context `{Crc32cAppend}.

(** The patched block, and whether it changed. *)
Definition ext4_patch_needs_recovery (block_data : bytes) (sb_off : Z) (has_csum set_flag : bool) : outcome (bytes * bool) :=
  field ← slice block_data (sb_off + INCOMPAT_OFFSET) (sb_off + INCOMPAT_OFFSET + 4);
  let before := le_value field in
  let after := if set_flag then Z.lor before INCOMPAT_RECOVER else Z.land before (not32 INCOMPAT_RECOVER) in
  if after =? before then Ret (block_data, false)
  else
    let block_data := put block_data (sb_off + INCOMPAT_OFFSET) (le_bytes 4 after) in
    if has_csum then
      covered ← slice block_data sb_off (sb_off + EXT4_SB_CHECKSUM_OFFSET);
      csum ← ext4_chksum_skip_zero_tail u32_max covered;
      _ ← slice block_data (sb_off + EXT4_SB_CHECKSUM_OFFSET) (sb_off + EXT4_SB_CHECKSUM_OFFSET + 4);
      Ret (put block_data (sb_off + EXT4_SB_CHECKSUM_OFFSET) (le_bytes 4 csum), true)
    else Ret (block_data, true).

Definition ext4_write_needs_recovery (has_csum set_flag : bool) (d : Device) : outcome (Device * res JournalError ()) :=
  let (sb_block, sb_off) := ext4_superblock_location (dev_block_size d) in
  match read_block sb_block d with
  | (d, Err e) => Ret (d, Err e)
  | (d, Ok block_data) =>
      '(block_data, changed) ← ext4_patch_needs_recovery block_data sb_off has_csum set_flag;
      Ret (if changed : bool then write_block sb_block block_data d else (d, Ok ()))
  end.

(** The captured copy of the superblock, if there is one, keeps the flag. *)
Fixpoint patch_writes (sb_block sb_off : Z) (has_csum : bool) (writes : smap bytes) : outcome (smap bytes) :=
  match writes with
  | [] => Ret []
  | (block, data) :: writes' =>
      data ← (if block =? sb_block then
                '(data, _) ← ext4_patch_needs_recovery data sb_off has_csum true; Ret data
              else Ret data);
      writes' ← patch_writes sb_block sb_off has_csum writes';
      Ret ((block, data) :: writes')
  end.

Definition writes_transaction (writes : smap bytes) : Jbd2Transaction :=
  fold_left (λ txn bd, add_write txn bd.1 bd.2) writes begin_transaction.

Fixpoint checkpoint_writes (writes : smap bytes) (d : Device) : Device * res BoundaryError () :=
  match writes with
  | [] => (d, Ok ())
  | (block, data) :: writes' =>
      match write_block block data d with
      | (d, Err e) => (d, Err (CheckpointWriteFailed block e))
      | (d, Ok _) => checkpoint_writes writes' d
      end
  end.

(** Phase 3: the log is empty again, then the flag is cleared, then the last
    barrier. *)
Definition finish_boundary (has_csum : bool) (journal : Jbd2Writer) (d : Device) :
    outcome (Device * Jbd2Writer * res BoundaryError ()) :=
  let journal := reset_after_checkpoint journal in
  match mark_log_empty journal d with
  | (d, Err e) => Ret (d, journal, Err (MarkEmptyFailed e))
  | (d, Ok _) =>
      r ← ext4_write_needs_recovery has_csum false d;
      match r with
      | (d, Err e) => Ret (d, journal, Err (NeedsRecoveryFailed e))
      | (d, Ok _) =>
          match sync_device d with
          | (d, Err e) => Ret (d, journal, Err (CleanupSyncFailed e))
          | (d, Ok _) => Ret (d, journal, Ok ())
          end
      end
  end.

(** Phase 2: the home blocks, and their barrier. *)
Definition checkpoint (has_csum : bool) (journal : Jbd2Writer) (writes : smap bytes) (d : Device) :
    outcome (Device * Jbd2Writer * res BoundaryError ()) :=
  match checkpoint_writes writes d with
  | (d, Err e) => Ret (d, journal, Err e)
  | (d, Ok _) =>
      match sync_device d with
      | (d, Err e) => Ret (d, journal, Err (CheckpointSyncFailed e))
      | (d, Ok _) => finish_boundary has_csum journal d
      end
  end.

(** Phase 1: the journal, and the barrier of its commit record. *)
Definition journal_writes (has_csum : bool) (journal : Jbd2Writer) (txn : Jbd2Transaction) (writes : smap bytes) (d : Device) :
    outcome (Device * Jbd2Writer * res BoundaryError ()) :=
  match mark_log_live journal d with
  | (d, Err e) => Ret (d, journal, Err (MarkLiveFailed e))
  | (d, Ok _) =>
      match commit_transaction journal txn d with
      | (d, journal, Err e) => Ret (d, journal, Err (JournalWriteFailed e))
      | (d, journal, Ok _) =>
          match sync_device d with
          | (d, Err e) => Ret (d, journal, Err (CommitSyncFailed e))
          | (d, Ok _) => checkpoint has_csum journal writes d
          end
      end
  end.

(** The device, the writer, the patched writes, and the result. *)
Definition ext4_journal_and_checkpoint (has_csum : bool) (journal : Jbd2Writer) (writes : smap bytes) (d : Device) :
    outcome (Device * Jbd2Writer * smap bytes * res BoundaryError ()) :=
  let (sb_block, sb_off) := ext4_superblock_location (dev_block_size d) in
  writes ← patch_writes sb_block sb_off has_csum writes;
  let txn := writes_transaction writes in
  match preflight_transaction journal (dev_block_size d) txn with
  | Err e => Ret (d, journal, writes, Err (PreflightRejected e))
  | Ok _ =>
      r ← ext4_write_needs_recovery has_csum true d;
      match r with
      | (d, Err e) => Ret (d, journal, writes, Err (NeedsRecoveryFailed e))
      | (d, Ok _) =>
          '(d, journal, out) ← journal_writes has_csum journal txn writes d;
          Ret (d, journal, writes, out)
      end
  end.
End boundary.
