(* ===== verification/Jbd2Frame.v ===== *)
(** * Frames of the journal operations

    Which blocks an operation on the device can change, and which stay settled:
    durable, with no unsynced write to them. *)

From stdpp Require Import base sorting numbers gmap list.
From S2P Require Import Prelude Sorted Wal WalReplay WalWriter Journal Jbd2 CrcIncr Jbd2Replay Jbd2Writer Jbd2Codec Jbd2Order Jbd2Log Jbd2Apply Jbd2Commit Jbd2Crash Jbd2Boundary.

Local Open Scope Z_scope.

#[local] Opaque be_bytes le_bytes zeros.

(** ** Settled blocks *)

Definition settled (d : Device) (b : Z) : Prop :=
  dev_durable d !! b = dev_blocks d !! b ∧ ∀ x, (b, x) ∉ dev_unsynced d.

Lemma settled_image d d0 b : settled d b → power_failure d d0 → block_at d0 b = block_at d b.
Proof.
  intros [Hd Hn] (kept&writes&syncs&Hk&->). rewrite crashed_at. unfold block_at. rewrite <-Hd.
  destruct (write_all kept ∅ !! b) as [x|] eqn:Hx; [|done]. apply write_all_in in Hx. destruct (Hn x).
  eapply elem_of_submseteq; [done|by apply sublist_submseteq].
Qed.

Lemma settled_synced d b : dev_unsynced d = [] → settled d b.
Proof. intros Hu. unfold settled, dev_blocks. rewrite Hu. split; [done|]. intros x. apply not_elem_of_nil. Qed.

(** [d'] comes from [d] by writes to blocks of [A] and by syncs. *)
Record touched (A : Z → Prop) (d d' : Device) : Prop := {
  to_size : dev_block_size d' = dev_block_size d;
  to_count : dev_block_count d' = dev_block_count d;
  to_unreadable : dev_unreadable d' = dev_unreadable d;
  to_writes : dev_writes d' `suffix_of` dev_writes d;
  to_blocks : ∀ b, ¬ A b → block_at d' b = block_at d b;
  to_settled : ∀ b, ¬ A b → settled d b → settled d' b;
}.

#[global] Instance touched_preorder A : PreOrder (touched A).
Proof.
  split; [by split|]. intros d1 d2 d3 [] []. split; try congruence; [by etrans|..].
  - intros b Hb. rewrite to_blocks1, to_blocks0; done.
  - auto.
Qed.

Lemma touched_weaken (A B : Z → Prop) d d' : (∀ b, A b → B b) → touched A d d' → touched B d d'.
Proof. intros Hw []. split; auto. Qed.

Lemma touched_add (A : Z → Prop) d new ws : ws `suffix_of` dev_writes d → Forall (λ wr, A wr.1) new →
  touched A d (add_writes d new ws).
Proof.
  intros Hs Hf. assert (∀ b, ¬ A b → b ∉ new.*1) as Hn.
  { intros b Hb ([b' x]&->&Hin)%list_elem_of_fmap. rewrite Forall_forall in Hf. by apply Hf in Hin. }
  split; try done.
  - intros b Hb. unfold block_at. rewrite add_writes_blocks. simpl. by rewrite write_all_other by auto.
  - intros b Hb [Hd Hu]. split; simpl.
    + rewrite Hd. change (dev_blocks ?d') with (write_all (dev_unsynced d') (dev_durable d')). simpl.
      rewrite write_all_app. symmetry. apply (write_all_other new). auto.
    + intros x [Hin|Hin]%elem_of_app; [by apply Hu in Hin|]. apply (Hn b Hb). apply list_elem_of_fmap. by exists (b, x).
Qed.

Lemma touched_sync A d d' out : sync_device d = (d', out) → touched A d d'.
Proof.
  unfold sync_device. destruct (dev_syncs d) as [|[] rest]; intros [= <- <-]; split; try done; intros b _ _; by apply settled_synced.
Qed.

(** ** Devices that do not tear blocks *)

(** Every block write lands as a whole or not at all. *)
Definition untorn (d : Device) : Prop := ∀ torn, WriteTorn torn ∉ dev_writes d.

Lemma untorn_touched A d d' : touched A d d' → untorn d → untorn d'.
Proof. intros [_ _ _ [pre Hs] _ _] Hu torn Hin. apply (Hu torn). rewrite Hs. apply elem_of_app. by right. Qed.

Lemma untorn_quiet d : untorn d → torn_quiet d.
Proof. intros Hu torn k Hin. by apply Hu in Hin. Qed.

Lemma write_block_untorn d a x d' out : untorn d → write_block a x d = (d', out) →
  ∃ new ws, d' = add_writes d new ws ∧ ws `suffix_of` dev_writes d ∧ (new = [] ∨ new = [(a, x)]) ∧
    (out = Ok () → new = [(a, x)]) ∧ (new ≠ [] → zlen x = dev_block_size d).
Proof.
  intros Hu. unfold write_block.
  assert (∀ e, (d, Err e) = (d', out) → ∃ new ws, d' = add_writes d new ws ∧ ws `suffix_of` dev_writes d ∧
    (new = [] ∨ new = [(a, x)]) ∧ (out = Ok () → new = [(a, x)]) ∧ (new ≠ [] → zlen x = dev_block_size d)) as Hfail.
  { intros e [= <- <-]. exists [], (dev_writes d). rewrite add_writes_none. by split_and!; [| |left| |]. }
  destruct (Z.eqb_spec (zlen x) (dev_block_size d)) as [Hz|]; [|apply Hfail]. simpl. case_if; [apply Hfail|]. clear Hfail.
  unfold answer_write. destruct (dev_writes d) as [|[|k|torn] ws] eqn:Hw; intros [= <- <-].
  - exists [(a, x)], []. split_and!; try done. by right.
  - exists [(a, x)], ws. split_and!; try done; [by apply suffix_cons_r|by right].
  - exists (take k [(a, x)]), ws. split_and!; try done; [by apply suffix_cons_r|]. destruct k; [by left|right]. by rewrite take_ge by (simpl; lia).
  - destruct (Hu torn). rewrite Hw. by left.
Qed.

Lemma write_block_touched d a x d' out : untorn d → write_block a x d = (d', out) → touched (λ b, b = a) d d'.
Proof.
  intros Hu Hw. destruct (write_block_untorn _ _ _ _ _ Hu Hw) as (new&ws&->&Hs&Hn&_). apply touched_add; [done|].
  destruct Hn as [->| ->]; [constructor|by repeat constructor].
Qed.

(** ** The commit touches the log only *)

Section frame.
Context `{Crc32cAppend}.

Definition log_address (env : ReplayEnv) (b : Z) : Prop := ∃ i, 0 <= i ∧ re_resolve env i = Ok b.

Lemma log_write_address w env head wr : log_layout w env → 0 <= head → log_write w head wr → log_address env wr.1.
Proof. intros Hl Hh (_&i&Hi&Hr). exists i. split; [lia|]. by rewrite (ll_resolve _ _ Hl) by lia. Qed.

Lemma write_phase_touched w sb env txns txn ahead d d' r : writer_ready w sb env txns ahead d → untorn d →
  Forall (item_ok w (dev_block_size d)) (tx_body_items txn) →
  write_phase w (dev_block_size d) (jw_next_seq w) txn d = (d', r) → touched (log_address env) d d'.
Proof.
  intros Hw Hun Hok. destruct (ready_params _ _ _ _ _ _ Hw) as (Hp&Htot&Hbs4).
  pose proof (wr_layout _ _ _ _ _ _ Hw) as Hl. pose proof (wr_room _ _ _ _ _ _ Hw) as Hroom.
  destruct (write_body_spec w sb (dev_block_size d) (jw_next_seq w) (lp_matches _ _ _ _ Hp) (lp_seed _ _ _ _ Hp) (lp_bs _ _ _ _ Hp)
    ltac:(rewrite (wr_seq _ _ _ _ _ _ Hw); apply nth_seq_u32) Htot (length (tx_body_items txn)) (tx_body_items txn) (jw_head w)
    (jw_head w) (mkWriteStats 0 0 0 0) d eq_refl (untorn_quiet _ Hun) ltac:(lia) ltac:(lia) ltac:(lia) Hok) as (new&ws&Hd1&Hs&Hnew&Hbody).
  assert (touched (log_address env) d (add_writes d new ws)) as Ht1.
  { apply touched_add; [done|]. eapply Forall_impl; [exact Hnew|]. intros wr. apply log_write_address; [done|lia]. }
  unfold write_phase, mbind, devM_bind. destruct (write_body _ _ _ _ _ _ _ d) as [d1 [[h1 st1]|e]]; simpl in Hd1; subst d1;
    [|by intros [= <- <-]].
  destruct (Hbody _ eq_refl) as [Hh1 _]. simpl in Hh1. clear Hbody. pose proof (pieces_len_nonneg (pieces_of (length (tx_body_items txn)) w (dev_block_size d) (tx_body_items txn))).
  destruct (sync_device (add_writes d new ws)) as [d2 o2] eqn:Hsync.
  assert (touched (log_address env) d d2) as Ht2 by (etrans; [done|by eapply touched_sync]).
  destruct o2 as [[]|e]; [|by intros [= <- <-]]. unfold lift.
  destruct (encode_commit_block _ _ _) as [commit|e]; [|by intros [= <- <-]].
  destruct (alloc_block w h1) as [[a h2]|e] eqn:Ha; [|by intros [= <- <-]].
  apply alloc_block_spec in Ha as [_ [Hfit Haddr]]; [|done|lia]. specialize (Haddr 0%nat a eq_refl). rewrite Z.add_0_r in Haddr.
  simpl in Hfit. rewrite zlen_cons, zlen_nil in Hfit.
  destruct (write_block a commit d2) as [d3 o3] eqn:Hcw.
  assert (touched (log_address env) d d3) as Ht3.
  { etrans; [exact Ht2|]. eapply touched_weaken; [|eapply write_block_touched; [by eapply untorn_touched|done]].
    intros b ->. exists h1. split; [lia|]. by rewrite (ll_resolve _ _ Hl) by lia. }
  destruct o3 as [[]|e]; by intros [= <- <-].
Qed.

Lemma commit_touched w sb env txns txn ahead d d' w' r : writer_ready w sb env txns ahead d → untorn d →
  Forall (item_ok w (dev_block_size d)) (tx_body_items txn) → commit_transaction w txn d = (d', w', r) →
  touched (log_address env) d d'.
Proof.
  intros Hw Hun Hok. unfold commit_transaction. destruct (preflight_transaction _ _ _) as [[]|e]; [|by intros [= <- <- <-]].
  destruct (write_phase _ _ _ _ d) as [d1 o] eqn:E. pose proof (write_phase_touched _ _ _ _ _ _ _ _ _ Hw Hun Hok E).
  destruct o as [[]|]; by intros [= <- <- <-].
Qed.
End frame.
