(* ===== verification/Jbd2Super.v ===== *)
(** * The journal superblock

    Moving the log's tail rewrites the sequence and the start of the superblock
    and leaves everything else that is parsed. *)

From stdpp Require Import base sorting numbers gmap list.
From S2P Require Import Prelude Sorted Wal WalReplay WalWriter Journal Jbd2 CrcIncr Jbd2Replay Jbd2Writer Jbd2Codec Jbd2Order Jbd2Log Jbd2Apply Jbd2Commit Jbd2Crash Jbd2Boundary Jbd2Frame.

Local Open Scope Z_scope.

#[local] Opaque be_bytes le_bytes zeros.

Lemma lookup_put b off src i : 0 <= off → off + zlen src <= zlen b →
  put b off src !! i = if decide (Z.to_nat off <= i < Z.to_nat off + length src)%nat then src !! (i - Z.to_nat off)%nat else b !! i.
Proof.
  intros Ho Hl. unfold put, zlen in *. destruct (decide (i < Z.to_nat off)%nat).
  - rewrite lookup_app_l by (rewrite length_take; lia). rewrite lookup_take_lt, decide_False by lia. done.
  - rewrite lookup_app_r by (rewrite length_take; lia). rewrite length_take, Nat.min_l by lia.
    destruct (decide (i - Z.to_nat off < length src)%nat).
    + by rewrite lookup_app_l, decide_True by lia.
    + rewrite lookup_app_r, decide_False, lookup_drop by lia. f_equal. lia.
Qed.

Lemma field_put_other n b off src off' : 0 <= off → 0 <= off' → off + zlen src <= zlen b →
  off' + Z.of_nat n <= off ∨ off + zlen src <= off' → field n (put b off src) off' = field n b off'.
Proof.
  intros Ho Ho' Hl Hd. unfold field. rewrite put_length by done. destruct (checked_add _ _ _); [|done]. case_if; [|done]. f_equal.
  apply list_eq. intros i. destruct (decide (i < n)%nat).
  - rewrite !lookup_take_lt, !lookup_drop, lookup_put, decide_False by (done || unfold zlen in *; lia). done.
  - rewrite !lookup_take_ge by lia. done.
Qed.

Lemma field_put_same b off src : 0 <= off → off + zlen src <= zlen b → off + zlen src <= usize_max →
  field (length src) (put b off src) off = Some src.
Proof.
  intros Ho Hl Hb. unfold field. rewrite checked_add_ok by done. rewrite put_length by done. fold (zlen src).
  rewrite (proj2 (Z.leb_le _ _)) by done. f_equal. apply list_eq. intros i. destruct (decide (i < length src)%nat).
  - rewrite lookup_take_lt, lookup_drop, lookup_put, decide_True by (done || lia). f_equal. lia.
  - rewrite lookup_take_ge, lookup_ge_None_2 by lia. done.
Qed.

Lemma take_drop_field n b off x : 0 <= off → field n b off = Some x → take n (drop (Z.to_nat off) b) = x.
Proof. intros Ho. unfold field. destruct (checked_add _ _ _); [|done]. case_if; [|done]. by intros [= <-]. Qed.

(** [sb] with another tail. *)
Definition sb_at (sb : Jbd2Superblock) (seq start : Z) : Jbd2Superblock :=
  mkJsb (jsb_block_size sb) (jsb_max_len sb) (jsb_first_log_block sb) seq start (jsb_num_fc_blocks sb)
    (jsb_feature_compat sb) (jsb_feature_incompat sb) (jsb_feature_ro_compat sb) (jsb_uuid sb).

(** Everything [parse_superblock] reads but the tail. *)
Definition same_but_tail (b b' : bytes) : Prop :=
  zlen b' = zlen b ∧ take 16 (drop 48 b') = take 16 (drop 48 b) ∧
  ∀ off, off ∈ [0; 4; 8; 12; 16; 20; 36; 40; 44; 84] → field 4 b' off = field 4 b off.

Lemma parse_same_tail b b' sb seq start : same_but_tail b b' → parse_superblock b = Some sb →
  read_be_u32 b' 24 = Some seq → read_be_u32 b' 28 = Some start → parse_superblock b' = Some (sb_at sb seq start).
Proof.
  intros (Hl&Hu&Hf) Hp Hseq Hst. assert (∀ off, off ∈ [0; 4; 8; 12; 16; 20; 36; 40; 44; 84] → read_be_u32 b' off = read_be_u32 b off) as Hr.
  { intros off Hin. unfold read_be_u32. by rewrite Hf. }
  unfold parse_superblock in *. rewrite Hl. destruct (zlen b <? _); [done|]. unfold parse_header in *.
  rewrite (Hr 0), (Hr 4), (Hr 8), (Hr 12), (Hr 16), (Hr 20), (Hr 36), (Hr 40), (Hr 44), (Hr 84), Hseq, Hst, Hu by (by apply (bool_decide_unpack _)).
  destruct (read_be_u32 b 0) as [m|]; [|done]. cbn [mbind option_bind] in *. destruct (m =? JBD2_MAGIC); [|done]. cbn [negb] in *.
  destruct (read_be_u32 b 4) as [ty|]; [|done]. destruct (read_be_u32 b 8) as [sq|]; [|done].
  cbn [mbind option_bind jh_magic jh_block_type] in *. destruct (negb _ || _); [done|].
  destruct (read_be_u32 b 12), (read_be_u32 b 16), (read_be_u32 b 20), (read_be_u32 b 24), (read_be_u32 b 28), (read_be_u32 b 36),
    (read_be_u32 b 40), (read_be_u32 b 44), (read_be_u32 b 84); try done. by injection Hp as <-.
Qed.

Lemma same_but_tail_put b off src : 0 <= off → off + zlen src <= zlen b → (24 <= off ∧ off + zlen src <= 32) ∨ 88 <= off →
  same_but_tail b (put b off src).
Proof.
  intros Ho Hl Hd. pose proof (zlen_nonneg src). split_and!; [by apply put_length| |].
  - apply list_eq. intros i. destruct (decide (i < 16)%nat).
    + rewrite !lookup_take_lt, !lookup_drop, lookup_put, decide_False by (done || unfold zlen in *; lia). done.
    + rewrite !lookup_take_ge by lia. done.
  - intros off' Hin. rewrite !elem_of_cons, elem_of_nil in Hin. apply field_put_other; lia.
Qed.

Lemma same_but_tail_trans a b c : same_but_tail a b → same_but_tail b c → same_but_tail a c.
Proof. intros (H1&H2&H3) (H4&H5&H6). split_and!; [congruence..|]. intros off Ho. by rewrite H6, H3. Qed.

Lemma same_but_tail_refl b : same_but_tail b b.
Proof. by split_and!. Qed.

Section super.
Context `{Crc32cAppend}.

(** The block [write_log_tail] writes. *)
Definition tail_image (sb : Jbd2Superblock) (raw : bytes) (start seq : Z) : res JournalError bytes :=
  let raw := put (put raw JBD2_SB_SEQUENCE_OFFSET (be_bytes 4 seq)) JBD2_SB_START_OFFSET (be_bytes 4 start) in
  if has_bits (jsb_feature_incompat sb) (Z.lor JBD2_FEATURE_INCOMPAT_CSUM_V2 JBD2_FEATURE_INCOMPAT_CSUM_V3)
  then stamp_jbd2_superblock_checksum raw else Ok raw.

Lemma stamp_same raw raw' : stamp_jbd2_superblock_checksum raw = Ok raw' →
  same_but_tail raw raw' ∧ field 4 raw' 24 = field 4 raw 24 ∧ field 4 raw' 28 = field 4 raw 28.
Proof.
  unfold stamp_jbd2_superblock_checksum, JBD2_SB_STRUCT_SIZE, JBD2_SB_CHECKSUM_OFFSET, JBD2_ZERO_CHECKSUM_FIELD.
  destruct (Z.ltb_spec (zlen raw) 1024) as [|Hl]; [done|]. intros [= <-].
  assert (zlen [0; 0; 0; 0] = 4) as H4 by done. set (off := 0xFC). assert (off = 252) as Hoff by done. clearbody off.
  assert (zlen (put raw off [0; 0; 0; 0]) = zlen raw) as Hz by (apply put_length; lia). split_and!.
  - eapply same_but_tail_trans; apply same_but_tail_put; rewrite ?zlen_be_bytes, ?Hz; lia.
  - rewrite !field_put_other by (rewrite ?zlen_be_bytes, ?Hz; lia). done.
  - rewrite !field_put_other by (rewrite ?zlen_be_bytes, ?Hz; lia). done.
Qed.

Lemma tail_image_parse sb raw start seq raw' : parse_superblock raw = Some sb →
  0 <= seq <= u32_max → 0 <= start <= u32_max → tail_image sb raw start seq = Ok raw' →
  zlen raw' = zlen raw ∧ parse_superblock raw' = Some (sb_at sb seq start).
Proof.
  intros Hp Hs Hst Hi. assert (88 <= zlen raw) as Hmin.
  { unfold parse_superblock, JBD2_SUPERBLOCK_MIN_PARSE_SIZE in Hp. destruct (Z.ltb_spec (zlen raw) 88); [done|lia]. }
  unfold tail_image, JBD2_SB_SEQUENCE_OFFSET, JBD2_SB_START_OFFSET in Hi.
  set (r1 := put raw 24 (be_bytes 4 seq)) in *. set (r2 := put r1 28 (be_bytes 4 start)) in *.
  assert (zlen r1 = zlen raw) as Hz1 by (apply put_length; rewrite ?zlen_be_bytes; lia).
  assert (zlen r2 = zlen raw) as Hz2 by (unfold r2; rewrite put_length; rewrite ?zlen_be_bytes; lia).
  assert (same_but_tail raw r2) as Hsame.
  { eapply same_but_tail_trans; apply same_but_tail_put; rewrite ?zlen_be_bytes; lia. }
  assert (field 4 r2 24 = Some (be_bytes 4 seq) ∧ field 4 r2 28 = Some (be_bytes 4 start)) as [F1 F2].
  { split.
    - unfold r2. rewrite field_put_other by (rewrite ?zlen_be_bytes; lia).
      apply (field_put_same raw 24 (be_bytes 4 seq)); rewrite ?zlen_be_bytes; [lia..|done].
    - apply (field_put_same r1 28 (be_bytes 4 start)); rewrite ?zlen_be_bytes; [lia..|done]. }
  assert (same_but_tail r2 raw' ∧ field 4 raw' 24 = field 4 r2 24 ∧ field 4 raw' 28 = field 4 r2 28) as (Hsame3&G1&G2).
  { destruct (has_bits _ _); [by apply stamp_same|]. injection Hi as <-. by split_and!. }
  assert (same_but_tail raw raw') as Hall by (by eapply same_but_tail_trans). split; [apply Hall|].
  unfold u32_max in *. eapply parse_same_tail; [done|done|..]; unfold read_be_u32; rewrite ?G1, ?G2, ?F1, ?F2; simpl; rewrite be_value_bytes; done || lia.
Qed.
End super.
