(* ===== verification/Jbd2System.v ===== *)
(** * The durability boundary survives power failures

    The states the boundary passes through, as power failures see them: the empty
    log under the old or the live superblock, the log with the transaction, the
    log over a half-done checkpoint, and the empty log again. *)

From stdpp Require Import base sorting numbers gmap list.
From S2P Require Import Prelude Sorted Wal WalReplay WalWriter Journal Jbd2 CrcIncr CrcLinear CrcCorrect Jbd2Replay Jbd2Writer Jbd2Codec Jbd2Order Jbd2Log Jbd2Apply Jbd2Commit Jbd2Crash Jbd2Boundary Jbd2Frame Jbd2Super.

Local Open Scope Z_scope.

#[local] Opaque be_bytes le_bytes zeros.

(** Writers with the same on-disk format. *)
Definition same_format (w w' : Jbd2Writer) : Prop :=
  jw_is_64bit w' = jw_is_64bit w ∧ jw_tag_format w' = jw_tag_format w ∧ jw_has_checksum w' = jw_has_checksum w ∧
  jw_csum_seed w' = jw_csum_seed w.

Lemma image_synced d new ws d0 : dev_unsynced d = [] → power_failure (add_writes d new ws) d0 →
  ∃ kept writes syncs, kept `sublist_of` new ∧ d0 = crashed d kept writes syncs.
Proof. intros Hu (kept&writes&syncs&Hk&->). simpl in Hk. rewrite Hu in Hk. by exists kept, writes, syncs. Qed.

Lemma crashed_adds d new ws kept writes syncs : crashed (add_writes d new ws) kept writes syncs = crashed d kept writes syncs.
Proof. done. Qed.

Lemma Forall_sublist {A} (P : A → Prop) (k l : list A) : k `sublist_of` l → Forall P l → Forall P k.
Proof. rewrite !Forall_forall. intros Hk Hl x Hx. apply Hl. eapply elem_of_submseteq; [done|by apply sublist_submseteq]. Qed.

(** ** What the steps write *)

Section steps.
Context `{Crc32cAppend}.

Lemma quiet_nil : quiet [].
Proof. by intros h. Qed.

(** The log tail: the superblock of the journal, rewritten, or nothing. *)
Lemma write_log_tail_spec w sb raw a0 start seq d d' out : untorn d → resolve_segment_block (jw_segments w) 0 = Ok a0 →
  read_block a0 d = (d, Ok raw) → parse_superblock raw = Some sb → 0 <= seq <= u32_max → 0 <= start <= u32_max →
  write_log_tail w start seq d = (d', out) →
  ∃ raw' new ws, d' = add_writes d new ws ∧ ws `suffix_of` dev_writes d ∧ (new = [] ∨ new = [(a0, raw')]) ∧
    (out = Ok () → new = [(a0, raw')]) ∧
    (new ≠ [] → parse_superblock raw' = Some (sb_at sb seq start)).
Proof.
  intros Hun Ha Hr Hp Hs Hst Hrun.
  assert (∀ e, (d, Err e) = (d', out) → ∃ raw' new ws, d' = add_writes d new ws ∧ ws `suffix_of` dev_writes d ∧
    (new = [] ∨ new = [(a0, raw')]) ∧ (out = Ok () → new = [(a0, raw')]) ∧
    (new ≠ [] → parse_superblock raw' = Some (sb_at sb seq start))) as Hfail.
  { intros e [= <- <-]. exists [], [], (dev_writes d). rewrite add_writes_none. by split_and!; [| |left| |]. }
  revert Hrun. unfold write_log_tail. case_if; [apply Hfail|]. unfold mbind, devM_bind, lift. rewrite Ha, Hr, Hp. simpl.
  fold (tail_image sb raw start seq). destruct (tail_image sb raw start seq) as [raw'|e] eqn:Hi; [|apply Hfail]. clear Hfail.
  destruct (tail_image_parse _ _ _ _ _ Hp Hs Hst Hi) as [_ Hp'].
  intros Hw. destruct (write_block_untorn _ _ _ _ _ Hun Hw) as (new&ws&?&?&?&?&_). by exists raw', new, ws.
Qed.

(** The recovery flag: the ext4 superblock only. *)
Lemma needs_recovery_spec has_csum set_flag d d' out : untorn d →
  ext4_write_needs_recovery has_csum set_flag d = Ret (d', out) →
  ∃ new ws, d' = add_writes d new ws ∧ ws `suffix_of` dev_writes d ∧
    Forall (λ wr, wr.1 = EXT4_SUPERBLOCK_OFFSET / dev_block_size d) new.
Proof.
  intros Hun. unfold ext4_write_needs_recovery, ext4_superblock_location. set (sbk := _ / _).
  assert (∃ new ws, d = add_writes d new ws ∧ ws `suffix_of` dev_writes d ∧ Forall (λ wr : Z * bytes, wr.1 = sbk) new) as Hsame.
  { exists [], (dev_writes d). by rewrite add_writes_none. }
  unfold read_block. case_if; [by intros [= <- <-]|]. case_if; [by intros [= <- <-]|].
  destruct (ext4_patch_needs_recovery _ _ _ _) as [[b' []]|]; [| |done]; intros [= Hw]; [|by simplify_eq].
  destruct (write_block_untorn _ _ _ _ _ Hun Hw) as (new&ws&->&Hs&Hn&_). exists new, ws. split_and!; [done..|].
  destruct Hn as [->| ->]; [constructor|by repeat constructor].
Qed.

Lemma put_ok b off src : bytes_ok b → bytes_ok src → bytes_ok (put b off src).
Proof. intros Hb Hs. unfold put. apply Forall_app. split; [by apply Forall_take|]. apply Forall_app. split; [done|by apply Forall_drop]. Qed.

Lemma patch_needs_recovery_size b off has_csum set_flag b' changed : 0 <= off →
  ext4_patch_needs_recovery b off has_csum set_flag = Ret (b', changed) → zlen b' = zlen b ∧ (bytes_ok b → bytes_ok b').
Proof.
  intros Ho. unfold ext4_patch_needs_recovery, INCOMPAT_OFFSET, EXT4_SB_CHECKSUM_OFFSET. destruct (slice b _ _) as [f|] eqn:Hf; [|done]. simpl.
  apply slice_Ret in Hf as (Hf&Hfl&_). destruct (_ =? le_value f); [by intros [= <- _]|].
  set (b1 := put b _ _). assert (zlen b1 = zlen b) as Hz1 by (apply put_length; rewrite ?zlen_le_bytes; lia).
  assert (bytes_ok b → bytes_ok b1) by (intros; apply put_ok; [done|apply le_bytes_ok]).
  destruct has_csum; [|by intros [= <- _]]. clearbody b1. destruct (slice b1 off _) as [c|]; simpl; [|done].
  destruct (ext4_chksum_skip_zero_tail _ _) as [x|]; [|done]. simpl. destruct (slice b1 _ _) as [c'|] eqn:Hc'; [|done]. simpl.
  apply slice_Ret in Hc' as (Hc'&Hcl&_). intros [= <- _]. split; [rewrite put_length; rewrite ?zlen_le_bytes; lia|].
  intros. apply put_ok; [auto|apply le_bytes_ok].
Qed.

(** The patched writes are those given, but for the ext4 superblock. *)
Lemma patch_writes_spec bk off has_csum writes writes' (P : bytes → Prop) : 0 <= off →
  (∀ b b' changed, ext4_patch_needs_recovery b off has_csum true = Ret (b', changed) → P b → P b') →
  patch_writes bk off has_csum writes = Ret writes' → Forall (λ bd, P bd.2) writes →
  writes'.*1 = writes.*1 ∧ Forall (λ bd, P bd.2) writes' ∧ ∀ b, b ≠ bk → sm_get b writes' = sm_get b writes.
Proof.
  intros Ho HP. revert writes'. induction writes as [|[t x] writes IH]; intros writes'; [by intros [= <-]|]. simpl.
  destruct (if t =? bk then _ else _) as [x'|] eqn:Hx; [|done]. simpl.
  destruct (patch_writes _ _ _ writes) as [ws|]; [|done]. simpl. intros [= <-] [Hpx Hf]%Forall_cons.
  destruct (IH _ eq_refl Hf) as (Hk&Hf'&Hg). simpl in Hpx. split_and!; [simpl; f_equal; exact Hk| |].
  - constructor; [|done]. simpl. destruct (t =? bk); [|by injection Hx as <-].
    destruct (ext4_patch_needs_recovery _ _ _ _) as [[y c]|] eqn:Hy; [|done]. injection Hx as <-. by eapply HP.
  - intros b Hb. simpl. destruct (Z.eqb_spec b t) as [<-|]; [|by apply Hg].
    destruct (Z.eqb_spec b bk); [done|]. by injection Hx as <-.
Qed.

Lemma writes_transaction_items writes : tx_body_items (writes_transaction writes) = uncurry ItemWrite <$> writes.
Proof.
  unfold writes_transaction. change (uncurry ItemWrite <$> writes) with (tx_body_items begin_transaction ++ (uncurry ItemWrite <$> writes)).
  generalize begin_transaction. induction writes as [|[t x] writes IH]; intros txn; simpl; [by rewrite app_nil_r|].
  rewrite IH. simpl. by rewrite <-app_assoc.
Qed.

(** The checkpoint: a prefix of the writes. *)
Lemma checkpoint_writes_spec writes d d' out : untorn d → checkpoint_writes writes d = (d', out) →
  ∃ new ws, d' = add_writes d new ws ∧ ws `suffix_of` dev_writes d ∧ new `sublist_of` writes ∧ (out = Ok () → new = writes).
Proof.
  revert d. induction writes as [|[t x] writes IH]; intros d Hun; simpl.
  { intros [= <- <-]. exists [], (dev_writes d). by rewrite add_writes_none. }
  destruct (write_block t x d) as [d1 o] eqn:Hw. destruct (write_block_untorn _ _ _ _ _ Hun Hw) as (n1&ws1&->&Hs1&Hn1&Hok1&_).
  destruct o as [[]|e].
  - rewrite (Hok1 eq_refl). intros Hrun. destruct (IH (add_writes d [(t, x)] ws1)) as (n2&ws2&->&Hs2&Hsub&Hok2).
    { eapply (untorn_touched (λ _, True)); [|done]. apply touched_add; [done|by repeat constructor]. }
    { done. }
    exists ((t, x) :: n2), ws2. split_and!; [by rewrite add_writes_add|by etrans|by apply sublist_skip|]. intros ?. by rewrite Hok2.
  - intros [= <- <-]. exists n1, ws1. split_and!; [done..| |done]. destruct Hn1 as [->| ->]; [apply sublist_nil_l|].
    apply sublist_skip, sublist_nil_l.
Qed.
End steps.

Section system.
Context `{Crc32cAppend}.
Context (total : Z) (verify : bool) (resolve : Z → res JournalError Z) (sbk : Z).

Definition env_of (sb : Jbd2Superblock) : ReplayEnv := mkReplayEnv total verify resolve (Some sb).

(** The blocks recovery is about: neither log nor ext4 superblock. *)
Definition home (b : Z) : Prop := b ≠ sbk ∧ ∀ i, 0 <= i → resolve i ≠ Ok b.

(** The ext4 superblock is not in the log. *)
Hypothesis clear : ∀ i, 0 <= i → resolve i ≠ Ok sbk.

Lemma log_on_format w w' sb txns d : same_format w w' → log_on w sb (env_of sb) txns d → log_on w' sb (env_of sb) txns d.
Proof.
  destruct w as [s1 t1 h1 b1 q1 a1 i1 f1 c1 e1], w' as [s2 t2 h2 b2 q2 a2 i2 f2 c2 e2]. unfold same_format. simpl.
  intros (->&->&->&->) [[[] ? ? ? ? ? ?] ? ? ? ? ? ? ? ? ? ?]. split; try done.
Qed.

(** ** Superblock writes *)

Lemma superblock_quiet raw sb : parse_superblock raw = Some sb → quiet raw.
Proof.
  unfold parse_superblock. destruct (zlen raw <? _); [done|]. intros Hp h Hh. rewrite Hh in Hp. simpl in Hp.
  destruct (Z.eqb_spec (jh_block_type h) JBD2_BLOCKTYPE_SUPERBLOCK_V1) as [->|]; [done|].
  destruct (Z.eqb_spec (jh_block_type h) JBD2_BLOCKTYPE_SUPERBLOCK_V2) as [->|]; [done|].
  simpl in Hp. rewrite orb_true_r in Hp. done.
Qed.

(** An empty log under a superblock with another tail. *)
Lemma log_on_tail w sb txns d d' seq start raw' : log_on w sb (env_of sb) txns d → 0 <= seq <= u32_max →
  0 <= start <= (env_window (env_of sb)).2 → dev_block_size d' = dev_block_size d →
  at_idx (env_of sb) d' 0 raw' → parse_superblock raw' = Some (sb_at sb seq start) → none_commits (env_of sb) seq d' →
  log_on w (sb_at sb seq start) (env_of (sb_at sb seq start)) [] d'.
Proof.
  intros [[[] ? ? ? ? ? ?] _ _ _ _ _ _ _ _ _ _] Hs Hst Hz Hat Hp Hn. split; rewrite ?Hz; simpl; try done.
  - exists raw'. done.
  - lia.
  - rewrite Z.add_0_r. apply Hst.
  - intros j Hj. destruct (Hn j Hj) as (b&?&?). exists b. split; [done|]. by rewrite nth_seq_0.
Qed.

Section images.
Context (w : Jbd2Writer) (sb : Jbd2Superblock) (txns : list (list Piece)) (d : Device) (a0 : Z) (raw' : bytes).
Context (kept : list (Z * bytes)) (writes : list WriteAnswer) (syncs : list bool).
Hypothesis Hon : log_on w sb (env_of sb) txns d.
Hypothesis Hu : dev_unsynced d = [].
Hypothesis Hl : log_layout w (env_of sb).
Hypothesis Ha0 : resolve 0 = Ok a0.
Hypothesis Hkept : Forall (λ wr, wr.1 = sbk ∨ wr = (a0, raw')) kept.

Lemma other_index i b : 0 < i < (env_window (env_of sb)).2 → at_idx (env_of sb) d i b →
  at_idx (env_of sb) (crashed d kept writes syncs) i b.
Proof.
  intros Hi Hat. apply at_idx_crashed; [done|done|]. intros a x Ha Hin. rewrite Forall_forall in Hkept.
  destruct (Hkept _ Hin) as [Hx|[= -> _]]; simpl in *.
  - subst a. by apply (clear i); [lia|].
  - assert (i = 0); [|lia]. eapply (ll_distinct _ _ Hl); [lia|pose proof (lp_window _ _ _ _ (lo_params _ _ _ _ _ Hon)); lia|done..].
Qed.

Lemma superblock_kept : write_all kept ∅ !! a0 = None ∨ write_all kept ∅ !! a0 = Some raw'.
Proof.
  destruct (write_all kept ∅ !! a0) as [x|] eqn:Hx; [|by left]. right. apply write_all_in in Hx. rewrite Forall_forall in Hkept.
  destruct (Hkept _ Hx) as [Hs|[= ->]]; [|done]. simpl in Hs. subst a0. by destruct (clear 0).
Qed.

Lemma index0_old b : write_all kept ∅ !! a0 = None → at_idx (env_of sb) d 0 b → at_idx (env_of sb) (crashed d kept writes syncs) 0 b.
Proof.
  intros Hn Hat. destruct Hat as (_&a&Ha&Hr). assert (a = a0) as -> by (simpl in Ha; congruence).
  split; [done|]. exists a0. split; [done|]. revert Hr. unfold read_block. cbn [crashed dev_block_count dev_unreadable].
  case_if; [done|]. case_if; [done|]. intros [= <-]. rewrite crashed_over by done. by rewrite Hn.
Qed.

Lemma index0_new b : write_all kept ∅ !! a0 = Some raw' → at_idx (env_of sb) d 0 b → at_idx (env_of sb) (crashed d kept writes syncs) 0 raw'.
Proof. intros Hs Hat. by eapply at_idx_kept. Qed.

Hypothesis Hraw : quiet raw'.

(** No commit appears. *)
Lemma images_fresh s : none_commits (env_of sb) s d → none_commits (env_of sb) s (crashed d kept writes syncs).
Proof.
  intros Hn j Hj. destruct (decide (j = 0)) as [->|Hne].
  - destruct (Hn 0 Hj) as (b&Hat&Hb). destruct superblock_kept as [Hk|Hk].
    + exists b. split; [by apply index0_old|done].
    + exists raw'. split; [by eapply index0_new|by apply quiet_no_commit].
  - destruct (Hn j Hj) as (b&Hat&Hb). exists b. split; [|done]. apply other_index; [lia|done].
Qed.

(** The old superblock: the log as it was. *)
Lemma images_old : write_all kept ∅ !! a0 = None → log_on w sb (env_of sb) txns (crashed d kept writes syncs).
Proof.
  intros Hn. pose proof (lp_window _ _ _ _ (lo_params _ _ _ _ _ Hon)).
  apply (log_on_same w sb (env_of sb) (env_window (env_of sb)).2 txns d); [|lia|apply Hon|done| |exact Hon].
  - intros i b Hi Hat. pose proof Hat as [Hi0 _]. destruct (decide (i = 0)) as [->|]; [by apply index0_old|].
    apply other_index; [lia|done].
  - apply images_fresh. intros j Hj. by apply (lo_rest _ _ _ _ _ Hon).
Qed.

(** The new superblock: an empty log. *)
Lemma images_new seq start : write_all kept ∅ !! a0 = Some raw' → parse_superblock raw' = Some (sb_at sb seq start) →
  0 <= seq <= u32_max → 0 <= start <= (env_window (env_of sb)).2 → none_commits (env_of sb) seq d →
  log_on w (sb_at sb seq start) (env_of (sb_at sb seq start)) [] (crashed d kept writes syncs).
Proof.
  intros Hk Hp Hs Hst Hn. eapply (log_on_tail w sb txns d); try done; [|by apply images_fresh].
  destruct (lo_sb _ _ _ _ _ Hon) as (raw&Hat&_). by eapply index0_new.
Qed.
End images.

(** ** Recovery *)

(** Replaying the log brings the home blocks to [h]. *)
Definition recoverable (h : Z → bytes) (d0 : Device) : Prop :=
  ∃ d2 o, replay_jbd2_inner total verify resolve (set_writes d0 []) = (d2, Ok o) ∧ ∀ b, home b → block_at d2 b = h b.

Lemma recover_log w sb txns d0 h : log_on w sb (env_of sb) txns d0 →
  (∀ b, is_Some (log_effect txns !! b) → b < dev_block_count d0) →
  (∀ b, home b → default (block_at d0 b) (log_effect txns !! b) = h b) → recoverable h d0.
Proof.
  intros Hon Hin Hh. assert (same_but [] d0 (set_writes d0 [])) as Hsame.
  { split; try done. intros b _. unfold block_at, set_writes. by rewrite add_writes_blocks. }
  assert (log_on w sb (env_of sb) txns (set_writes d0 [])) as Hon'.
  { assert (same_log (env_of sb) (env_window (env_of sb)).2 d0 (set_writes d0 [])) as Hl.
    { eapply same_log_but; [done|]. intros. apply not_elem_of_nil. }
    apply (log_on_same w sb (env_of sb) (env_window (env_of sb)).2 txns d0); [done| |apply Hon|done| |exact Hon].
    - pose proof (lp_window _ _ _ _ (lo_params _ _ _ _ _ Hon)). lia.
    - intros j Hj. destruct (lo_rest _ _ _ _ _ Hon j Hj) as (b&?&?). exists b. split; [|done]. apply Hl; [lia|done]. }
  destruct (replay_jbd2_inner total verify resolve (set_writes d0 [])) as [d2 out] eqn:E.
  destruct (replay_inner_spec w sb total verify resolve txns (set_writes d0 []) d2 out Hon' Hin E) as (_&Hcalm&Hok).
  destruct (Hcalm eq_refl) as [o ->]. exists d2, o. split; [done|]. intros b Hb. rewrite <-Hh by done.
  destruct (Hok o eq_refl) as [_ ->]. f_equal. apply Hsame, not_elem_of_nil.
Qed.

Lemma recover_empty w sb d0 h : log_on w sb (env_of sb) [] d0 → (∀ b, home b → block_at d0 b = h b) → recoverable h d0.
Proof. intros Hon Hh. eapply recover_log; [done| |]; intros b; [|by apply Hh]. by intros [x [=]]. Qed.

(** ** Synced states *)

(** The log holds [txns], all of it durable, and has no commit of the next [ahead]
    transactions, nor of the one after them. *)
Record logged (w : Jbd2Writer) (sb : Jbd2Superblock) (txns : list (list Piece)) (ahead : nat) (d : Device) : Prop := {
  lg_synced : dev_unsynced d = [];
  lg_log : log_on w sb (env_of sb) txns d;
  lg_fresh : ∀ k, (k <= ahead)%nat → none_commits (env_of sb) (nth_seq (jw_next_seq w) k) d;
  lg_layout : log_layout w (env_of sb);
  lg_base : 0 < jw_base_head w <= jw_total_blocks w;
  lg_seq : 0 <= jw_next_seq w <= u32_max;
  lg_short : Z.of_nat ahead + 1 < 2 ^ 32;
}.

(** Between two boundaries: the log is empty and the writer is at its start. *)
Record quiescent (w : Jbd2Writer) (sb : Jbd2Superblock) (ahead : nat) (d : Device) : Prop := {
  qs_logged : logged w sb [] ahead d;
  qs_head : jw_head w = jw_base_head w;
  qs_start : jsb_start_block sb <= jw_base_head w;
}.

Lemma synced_image d : dev_unsynced d = [] → power_failure d d.
Proof. intros Hu. exists [], (dev_writes d), (dev_syncs d). split; [apply sublist_nil_l|]. destruct d. simpl in Hu. by subst. Qed.

Lemma read_added a d new ws raw : read_block a d = (d, Ok raw) → a ∉ new.*1 →
  read_block a (add_writes d new ws) = (add_writes d new ws, Ok raw).
Proof.
  unfold read_block. intros Hr Ha. change (dev_block_count (add_writes d new ws)) with (dev_block_count d).
  change (dev_unreadable (add_writes d new ws)) with (dev_unreadable d). revert Hr.
  case_if; [done|]. case_if; [done|]. intros [= <-]. f_equal. f_equal. unfold block_at.
  by rewrite add_writes_blocks, write_all_other.
Qed.

Lemma not_superblock a new i : 0 <= i → resolve i = Ok a → Forall (λ wr : Z * bytes, wr.1 = sbk) new → a ∉ new.*1.
Proof.
  intros Hi Ha Hf ([b x]&->&Hin)%list_elem_of_fmap. rewrite Forall_forall in Hf. apply Hf in Hin. simpl in *. subst b.
  by apply (clear i).
Qed.

Lemma log_superblock w sb txns d : log_on w sb (env_of sb) txns d → ∃ a0 raw, resolve 0 = Ok a0 ∧ read_block a0 d = (d, Ok raw) ∧
  at_idx (env_of sb) d 0 raw ∧ parse_superblock raw = Some sb.
Proof. intros Hon. destruct (lo_sb _ _ _ _ _ Hon) as (raw&Hat&Hp). pose proof Hat as (_&a&?&?). by exists a, raw. Qed.

(** Images of [d] after writes to the ext4 superblock and of a new tail. *)
Section retail.
Context (w : Jbd2Writer) (sb : Jbd2Superblock) (txns : list (list Piece)) (ahead : nat) (d : Device) (a0 start : Z) (raw' : bytes).
Hypothesis Hlg : logged w sb txns ahead d.
Hypothesis Ha0 : resolve 0 = Ok a0.
Hypothesis Hst : 0 <= start <= jw_base_head w.
Hypothesis Hp : parse_superblock raw' = Some (sb_at sb (jw_next_seq w) start).
Local Notation sb' := (sb_at sb (jw_next_seq w) start).
Local Notation tail_write := (λ wr : Z * bytes, wr.1 = sbk ∨ wr = (a0, raw')).

Lemma retail_start : 0 <= start <= (env_window (env_of sb)).2.
Proof. pose proof (ll_total _ _ (lg_layout _ _ _ _ _ Hlg)). pose proof (lg_base _ _ _ _ _ Hlg). lia. Qed.

Lemma retail_fresh0 : none_commits (env_of sb) (jw_next_seq w) d.
Proof. pose proof (lg_fresh _ _ _ _ _ Hlg 0 ltac:(lia)) as Hf. rewrite nth_seq_0 in Hf; [done|apply Hlg]. Qed.

Lemma retail_images kept writes syncs : Forall tail_write kept →
  log_on w sb (env_of sb) txns (crashed d kept writes syncs) ∨ log_on w sb' (env_of sb') [] (crashed d kept writes syncs).
Proof.
  intros Hk. pose proof (superblock_quiet _ _ Hp) as Hq. destruct Hlg as [Hu Hon _ Hl _ Hseq _].
  destruct (superblock_kept a0 raw' kept Ha0 Hk).
  - left. by eapply images_old.
  - right. eapply images_new; try done; [apply retail_start|apply retail_fresh0].
Qed.

Lemma retail_logged kept writes syncs : Forall tail_write kept → write_all kept ∅ !! a0 = Some raw' →
  logged w sb' [] ahead (crashed d kept writes syncs).
Proof.
  intros Hk Hs. pose proof (superblock_quiet _ _ Hp) as Hq. pose proof Hlg as [Hu Hon Hf Hl Hb Hseq Hsh]. split; try done.
  - eapply images_new; try done; [apply retail_start|apply retail_fresh0].
  - intros k Hle. change (none_commits (env_of sb') ?s ?d0) with (none_commits (env_of sb) s d0). by eapply images_fresh; [..|apply Hf].
  - destruct Hl. by split.
Qed.
End retail.

(** Writes outside the log leave it. *)
Lemma away_images w sb txns ahead d kept writes syncs : logged w sb txns ahead d →
  Forall (λ wr : Z * bytes, ∀ i, 0 <= i → resolve i ≠ Ok wr.1) kept → logged w sb txns ahead (crashed d kept writes syncs).
Proof.
  intros [Hu Hon Hf Hl Hb Hseq Hsh] Hk.
  assert (∀ i b, at_idx (env_of sb) d i b → at_idx (env_of sb) (crashed d kept writes syncs) i b) as Hat.
  { intros i b Hib. apply at_idx_crashed; [done|done|]. intros a x Ha Hin. rewrite Forall_forall in Hk. by apply (Hk _ Hin i); [apply Hib|]. }
  assert (∀ s, none_commits (env_of sb) s d → none_commits (env_of sb) s (crashed d kept writes syncs)) as Hn.
  { intros s Hs j Hj. destruct (Hs j Hj) as (b&?&?). exists b. auto. }
  split; try done; [|auto]. pose proof (lp_window _ _ _ _ (lo_params _ _ _ _ _ Hon)).
  apply (log_on_same w sb (env_of sb) (env_window (env_of sb)).2 txns d); [|lia|apply Hon|done| |exact Hon].
  - intros i b _. apply Hat.
  - apply Hn. exact (lo_rest _ _ _ _ _ Hon).
Qed.

Lemma flag_images w sb txns ahead d kept writes syncs : logged w sb txns ahead d → Forall (λ wr, wr.1 = sbk) kept →
  log_on w sb (env_of sb) txns (crashed d kept writes syncs).
Proof.
  intros Hlg Hk. eapply lg_log, away_images; [done|]. eapply Forall_impl; [exact Hk|]. intros wr ->. apply clear.
Qed.

(** Home blocks keep their contents in images that lost or kept only other writes. *)
Lemma home_image d kept writes syncs b : dev_unsynced d = [] → home b →
  Forall (λ wr : Z * bytes, ¬ home wr.1) kept → block_at (crashed d kept writes syncs) b = block_at d b.
Proof.
  intros Hu Hb Hk. rewrite crashed_over by done. destruct (write_all kept ∅ !! b) as [x|] eqn:Hx; [|done].
  apply write_all_in in Hx. rewrite Forall_forall in Hk. by apply Hk in Hx.
Qed.

Lemma sbk_not_home b : b = sbk → ¬ home b.
Proof. by intros -> [? _]. Qed.

Lemma address_not_home i b : 0 <= i → resolve i = Ok b → ¬ home b.
Proof. intros Hi Hr [_ Hn]. by apply (Hn i). Qed.

Lemma flags_not_home new : Forall (λ wr : Z * bytes, wr.1 = sbk) new → Forall (λ wr : Z * bytes, ¬ home wr.1) new.
Proof. intros Hf. eapply Forall_impl; [exact Hf|]. intros wr. apply sbk_not_home. Qed.

(** Writing a new tail, with writes [n0] of the ext4 superblock before it and [n2]
    after it. *)
Lemma retail_spec w sb txns ahead start d n0 ws0 d' o : logged w sb txns ahead d → untorn d → 0 <= start <= jw_base_head w →
  start <= u32_max → Forall (λ wr, wr.1 = sbk) n0 → ws0 `suffix_of` dev_writes d →
  write_log_tail w start (jw_next_seq w) (add_writes d n0 ws0) = (d', o) →
  let sb' := sb_at sb (jw_next_seq w) start in
  ∃ new ws, d' = add_writes d new ws ∧ ws `suffix_of` dev_writes d ∧ Forall (λ wr, ¬ home wr.1) new ∧
    (∀ n2 kept writes syncs, Forall (λ wr, wr.1 = sbk) n2 → kept `sublist_of` new ++ n2 →
      log_on w sb (env_of sb) txns (crashed d kept writes syncs) ∨ log_on w sb' (env_of sb') [] (crashed d kept writes syncs)) ∧
    (o = Ok () → ∀ n2 writes syncs, Forall (λ wr, wr.1 = sbk) n2 → logged w sb' [] ahead (crashed d (new ++ n2) writes syncs)).
Proof.
  intros Hlg Hun Hst Hmax Hn0 Hs0 Hrun sb'. pose proof Hlg as [Hu Hon _ Hl Hb Hseq _].
  destruct (log_superblock _ _ _ _ Hon) as (a0&raw&Ha0&Hr&_&Hp).
  assert (resolve_segment_block (jw_segments w) 0 = Ok a0) as Hseg by (rewrite <-(ll_resolve _ _ Hl) by lia; done).
  assert (touched (λ b, ¬ home b) d (add_writes d n0 ws0)) as Ht0 by (apply touched_add; [done|by apply flags_not_home]).
  destruct (write_log_tail_spec w sb raw a0 start (jw_next_seq w) (add_writes d n0 ws0) d' o) as (raw'&new&ws&->&Hs&Hnew&Hok&Hp');
    [by eapply untorn_touched|done|apply read_added; [done|by apply (not_superblock _ _ 0)]|done|done|lia|done|].
  rewrite add_writes_add. exists (n0 ++ new), ws. split_and!; [done|by etrans| | |].
  - apply Forall_app. split; [by apply flags_not_home|]. destruct Hnew as [->| ->]; [constructor|].
    apply Forall_singleton. by apply (address_not_home 0).
  - intros n2 kept writes syncs Hn2 Hk. destruct Hnew as [->| ->].
    + left. eapply flag_images; [done|]. eapply Forall_sublist; [done|]. rewrite app_nil_r. by apply Forall_app.
    + eapply (retail_images w sb txns ahead d a0 start raw'); try done; [by apply Hp'|]. eapply Forall_sublist; [done|].
      rewrite <-app_assoc. apply Forall_app. split; [by eapply Forall_impl; [exact Hn0|left]|]. constructor; [by right|].
      by eapply Forall_impl; [exact Hn2|left].
  - intros Ho n2 writes syncs Hn2. rewrite (Hok Ho) in *. apply (retail_logged w sb txns ahead d a0 start raw'); try done.
    + by apply Hp'.
    + rewrite <-app_assoc. apply Forall_app. split; [by eapply Forall_impl; [exact Hn0|left]|]. constructor; [by right|].
      by eapply Forall_impl; [exact Hn2|left].
    + rewrite <-app_assoc, write_all_app. simpl. rewrite (write_all_other n2) by (by apply (not_superblock _ _ 0)). by rewrite lookup_insert_eq.
Qed.

(** ** Phase 3 *)

Section finish.
Context (w : Jbd2Writer) (sb : Jbd2Superblock) (ps : list Piece) (ahead : nat) (d : Device).
Hypothesis Hsbk : sbk = EXT4_SUPERBLOCK_OFFSET / dev_block_size d.
Hypothesis Hun : untorn d.
Hypothesis Hin : ∀ b, is_Some (log_effect [ps] !! b) → b < dev_block_count d.
Hypothesis Happ : ∀ b x, home b → log_effect [ps] !! b = Some x → block_at d b = x.

(** The log is applied already: with or without it, recovery finds the home blocks. *)
Lemma applied_recoverable w' sb' kept writes syncs : dev_unsynced d = [] → Forall (λ wr : Z * bytes, ¬ home wr.1) kept →
  log_on w sb (env_of sb) [ps] (crashed d kept writes syncs) ∨ log_on w' sb' (env_of sb') [] (crashed d kept writes syncs) →
  recoverable (block_at d) (crashed d kept writes syncs).
Proof.
  intros Hu Hk Hon. assert (∀ b, home b → block_at (crashed d kept writes syncs) b = block_at d b) as Hh by (intros; by apply home_image).
  destruct Hon as [Hon|Hon]; [|by eapply recover_empty]. eapply recover_log; [done|done|]. intros b Hb.
  destruct (log_effect [ps] !! b) as [x|] eqn:Hx; [|by apply Hh]. symmetry. by apply Happ.
Qed.
End finish.

Lemma finish_spec w sb ps ahead d has_csum d' w' out : sbk = EXT4_SUPERBLOCK_OFFSET / dev_block_size d → untorn d →
  logged w sb [ps] ahead d →
  (∀ b, is_Some (log_effect [ps] !! b) → b < dev_block_count d) →
  (∀ b x, home b → log_effect [ps] !! b = Some x → block_at d b = x) →
  finish_boundary has_csum w d = Ret (d', w', out) →
  (∀ d0, power_failure d' d0 → recoverable (block_at d) d0) ∧ touched (λ b, ¬ home b) d d' ∧
  (out = Ok () → quiescent w' (sb_at sb (jw_next_seq w) 0) ahead d').
Proof.
  intros Hsbk Hun Hlg Hin Happ. unfold finish_boundary. set (w2 := reset_after_checkpoint w).
  assert (logged w2 sb [ps] ahead d) as Hlg2.
  { destruct Hlg as [? Hon ? [] ? ? ?]. split; try done. by apply (log_on_format w). }
  pose proof (lg_synced _ _ _ _ _ Hlg) as Hu. pose proof (lg_base _ _ _ _ _ Hlg2) as Hb. clear Hlg.
  destruct (mark_log_empty w2 d) as [d1 o1] eqn:Hm.
  destruct (retail_spec w2 sb [ps] ahead 0 d [] (dev_writes d) d1 o1) as (new&ws&->&Hs&Hnew&Himg&Hdone);
    [done|done|lia|done|constructor|done|by rewrite add_writes_none|].
  assert (∀ n2 ws2 d0, Forall (λ wr, wr.1 = sbk) n2 → power_failure (add_writes d (new ++ n2) ws2) d0 → recoverable (block_at d) d0) as Hrec.
  { intros n2 ws2 d0 Hn2 (kept&writes&syncs&Hk&->)%image_synced; [|done].
    eapply applied_recoverable; [done|done|done|eapply Forall_sublist; [done|apply Forall_app; split; [done|by apply flags_not_home]]|].
    by apply (Himg n2). }
  assert (touched (λ b, ¬ home b) d (add_writes d new ws)) as Ht1 by (by apply touched_add).
  destruct o1 as [[]|e]; cycle 1.
  { intros [= <- <- <-]. split_and!; [|done|done]. intros d0 Hd0. eapply (Hrec [] ws); [constructor|by rewrite app_nil_r]. }
  destruct (ext4_write_needs_recovery has_csum false (add_writes d new ws)) as [[d2 o2]|] eqn:Hn; [|done]. simpl.
  destruct (needs_recovery_spec has_csum false (add_writes d new ws) d2 o2) as (n2&ws2&->&Hs2&Hn2); [by eapply untorn_touched|done|].
  change (dev_block_size (add_writes d new ws)) with (dev_block_size d) in Hn2. rewrite <-Hsbk in Hn2. rewrite add_writes_add.
  change (dev_writes (add_writes d new ws)) with ws in Hs2.
  assert (touched (λ b, ¬ home b) d (add_writes d (new ++ n2) ws2)) as Ht2.
  { apply touched_add; [by etrans|]. apply Forall_app. split; [done|by apply flags_not_home]. }
  destruct o2 as [[]|e]; [|intros [= <- <- <-]; split_and!; [by eauto|done|done]].
  destruct (sync_device (add_writes d (new ++ n2) ws2)) as [d3 o3] eqn:Hsync.
  destruct (sync_outcome _ _ _ Hsync) as (_&_&Hu3&Hpf).
  assert (touched (λ b, ¬ home b) d d3) as Ht3 by (etrans; [exact Ht2|by eapply touched_sync]).
  destruct o3 as [[]|e]; intros [= <- <- <-]; (split_and!; [by eauto|done|]); [|done]. intros _.
  destruct (power_failure_synced _ _ _ Hsync (synced_image _ (Hu3 eq_refl))) as (writes&syncs&->).
  rewrite crashed_adds. cbn [add_writes dev_unsynced]. rewrite Hu, app_nil_l.
  split; [by apply Hdone|done|cbn [sb_at jsb_start_block]; lia].
Qed.

(** ** Phase 2 *)

(** The blocks a boundary is given: whole blocks of the device outside the log. *)
Record home_writes (w : Jbd2Writer) (bs count : Z) (writes : smap bytes) : Prop := {
  hw_wf : sm_wf writes;
  hw_tags : 1 <= max_tags_per_descriptor_for_format bs (jw_is_64bit w) (jw_has_checksum w) (jw_tag_format w);
  hw_targets : Forall (λ b, target_ok (wide w) b ∧ b < count ∧ ∀ i, 0 <= i → resolve i ≠ Ok b) writes.*1;
  hw_data : Forall (λ bd, zlen bd.2 = bs ∧ bytes_ok bd.2) writes;
}.

(** The home blocks after the boundary. *)
Definition written (d : Device) (writes : smap bytes) (b : Z) : bytes := default (block_at d b) (sm_get b writes).

Lemma recoverable_ext (h h' : Z → bytes) d0 : (∀ b, home b → h b = h' b) → recoverable h d0 → recoverable h' d0.
Proof. intros He (d2&o&Hr&Hb). exists d2, o. split; [done|]. intros b Hh. by rewrite Hb, He. Qed.

Lemma away_writes w bs count writes kept : home_writes w bs count writes → kept `sublist_of` writes →
  Forall (λ wr : Z * bytes, ∀ i, 0 <= i → resolve i ≠ Ok wr.1) kept.
Proof.
  intros Hw Hk. eapply Forall_sublist; [done|]. pose proof (hw_targets _ _ _ _ Hw) as Ht. rewrite Forall_fmap in Ht.
  eapply Forall_impl; [exact Ht|]. by intros wr (_&_&?).
Qed.

Lemma target_in_range w bs count writes b : home_writes w bs count writes → is_Some (sm_get b writes) → b < count.
Proof.
  intros Hw [x Hx]. apply sm_get_elem in Hx; [|apply Hw]. pose proof (hw_targets _ _ _ _ Hw) as Ht. rewrite Forall_forall in Ht.
  apply (Ht b). apply list_elem_of_fmap. by exists (b, x).
Qed.

(** A partly done checkpoint: the log redoes all of it. *)
Lemma checkpoint_image w sb ps ahead d writes kept wr sy : logged w sb [ps] ahead d →
  home_writes w (dev_block_size d) (dev_block_count d) writes → (∀ b, log_effect [ps] !! b = sm_get b writes) →
  kept `sublist_of` writes → recoverable (written d writes) (crashed d kept wr sy).
Proof.
  intros Hlg Hw He Hk. eapply (recover_log w sb [ps]).
  - eapply lg_log, away_images; [done|by eapply away_writes].
  - intros b. rewrite He. by apply (target_in_range w (dev_block_size d) _ writes).
  - intros b _. rewrite He. unfold written. destruct (sm_get b writes) as [x|] eqn:Hx; [done|]. simpl.
    rewrite crashed_over by apply Hlg. destruct (write_all kept ∅ !! b) as [y|] eqn:Hy; [|done]. apply write_all_in in Hy.
    rewrite sm_get_None in Hx. destruct (Hx y). eapply elem_of_submseteq; [done|by apply sublist_submseteq].
Qed.

(** The checkpoint, once it is durable. *)
Lemma checkpointed w sb txns ahead d writes d1 d2 : untorn d → logged w sb txns ahead d →
  home_writes w (dev_block_size d) (dev_block_count d) writes → checkpoint_writes writes d = (d1, Ok ()) →
  sync_device d1 = (d2, Ok ()) →
  logged w sb txns ahead d2 ∧ touched (λ _, True) d d2 ∧ ∀ b, block_at d2 b = written d writes b.
Proof.
  intros Hun Hlg Hw Hc Hsync. destruct (checkpoint_writes_spec _ _ _ _ Hun Hc) as (new&ws&->&Hs&_&Hok). specialize (Hok eq_refl). subst new.
  assert (touched (λ _, True) d d2) as Ht2.
  { etrans; [|by eapply touched_sync]. apply touched_add; [done|]. by apply Forall_true. }
  destruct (sync_outcome _ _ _ Hsync) as (_&_&Hu2&_). pose proof (lg_synced _ _ _ _ _ Hlg) as Hu.
  destruct (power_failure_synced _ _ _ Hsync (synced_image _ (Hu2 eq_refl))) as (wr&sy&->).
  rewrite crashed_adds in *. cbn [add_writes dev_unsynced] in *. rewrite Hu, app_nil_l in *. split_and!; [|done|].
  - apply away_images; [done|by eapply away_writes].
  - intros b. rewrite crashed_over by done. unfold written. by rewrite write_all_sm by apply Hw.
Qed.

Lemma checkpoint_spec w sb ps ahead d writes has_csum d' w' out : sbk = EXT4_SUPERBLOCK_OFFSET / dev_block_size d → untorn d →
  logged w sb [ps] ahead d → home_writes w (dev_block_size d) (dev_block_count d) writes →
  (∀ b, log_effect [ps] !! b = sm_get b writes) → checkpoint has_csum w writes d = Ret (d', w', out) →
  (∀ d0, power_failure d' d0 → recoverable (written d writes) d0) ∧
  (out = Ok () → quiescent w' (sb_at sb (jw_next_seq w) 0) ahead d' ∧ ∀ b, home b → block_at d' b = written d writes b).
Proof.
  intros Hsbk Hun Hlg Hw He. unfold checkpoint. destruct (checkpoint_writes writes d) as [d1 o1] eqn:Hc.
  destruct (checkpoint_writes_spec _ _ _ _ Hun Hc) as (new&ws&Hd1&Hs&Hsub&_). pose proof (lg_synced _ _ _ _ _ Hlg) as Hu.
  assert (∀ d0, power_failure d1 d0 → recoverable (written d writes) d0) as Hrec.
  { intros d0. rewrite Hd1. intros (kept&wr&sy&Hk&->)%image_synced; [|done]. eapply checkpoint_image; [done..|by etrans]. }
  destruct o1 as [[]|e]; [|by intros [= <- <- <-]].
  destruct (sync_device d1) as [d2 o2] eqn:Hsync. destruct (sync_outcome _ _ _ Hsync) as (_&_&_&Hpf).
  destruct o2 as [[]|e]; [|intros [= <- <- <-]; by split; [auto|]].
  destruct (checkpointed _ _ _ _ _ _ _ _ Hun Hlg Hw Hc Hsync) as (Hlg2&Ht2&Hb2).
  intros Hrun. destruct (finish_spec w sb ps ahead d2 has_csum d' w' out) as (Himg&Hto&Hq); try done.
  - by rewrite (to_size _ _ _ Ht2).
  - by eapply untorn_touched.
  - intros b. rewrite He, (to_count _ _ _ Ht2). by apply (target_in_range w (dev_block_size d) _ writes).
  - intros b x _. rewrite He, Hb2. unfold written. by intros ->.
  - split; [|intros Ho; split; [by apply Hq|]].
    + intros d0 Hd0. eapply recoverable_ext; [|by apply Himg]. by intros b _.
    + intros b Hb. rewrite <-Hb2. apply Hto. tauto.
Qed.

(** ** Phase 1 *)

Lemma writes_items_ok w bs count writes : home_writes w bs count writes →
  Forall (item_ok w bs) (tx_body_items (writes_transaction writes)).
Proof.
  intros [_ Htags Ht Hd]. rewrite writes_transaction_items, Forall_fmap. rewrite Forall_fmap in Ht. rewrite Forall_forall in Ht, Hd |- *.
  intros [t x] Hin. destruct (Ht _ Hin) as (?&_&_). destruct (Hd _ Hin) as [Hz ?]. simpl in *. split_and!; [done|lia|done|done].
Qed.

Lemma writes_effect w bs count writes b : 4 <= bs <= u32_max → home_writes w bs count writes →
  log_effect [txn_pieces w bs (tx_body_items (writes_transaction writes))] !! b = sm_get b writes.
Proof.
  intros Hbs Hw. change (log_effect [?ps]) with (txn_effect ∅ ps).
  destruct (pieces_of_spec (length (tx_body_items (writes_transaction writes))) w bs (tx_body_items (writes_transaction writes)) Hbs ltac:(lia))
    as [_ Heff]; [by eapply writes_items_ok|].
  unfold txn_pieces. rewrite Heff, writes_transaction_items, <-write_all_sm by apply Hw. f_equal.
  generalize (∅ : gmap Z bytes). pose proof (hw_data _ _ _ _ Hw) as Hd. clear -Hd.
  induction Hd as [|[t x] writes [Hz _] _ IH]; intros m; [done|]. simpl in *. rewrite IH. unfold padded. by rewrite Hz, Z.sub_diag, app_nil_r.
Qed.

Lemma commit_writer w txn d d' w' r : commit_transaction w txn d = (d', w', r) →
  jw_base_head w' = jw_base_head w ∧ jw_total_blocks w' = jw_total_blocks w ∧ same_format w w'.
Proof.
  unfold commit_transaction. destruct (preflight_transaction _ _ _) as [[]|e]; [|by intros [= _ <- _]].
  destruct (write_phase _ _ _ _ d) as [d1 [[h st]|e]]; by intros [= _ <- _].
Qed.

(** The writer at the end of a durable log. *)
Lemma ready_logged w w' sb ps ahead d : writer_ready w' sb (env_of sb) [ps] ahead d → dev_unsynced d = [] →
  0 < jw_base_head w <= jw_total_blocks w → jw_base_head w' = jw_base_head w → jw_total_blocks w' = jw_total_blocks w →
  logged w' sb [ps] ahead d.
Proof.
  intros [Hlog Hfresh Hl _ _ Hseq Hsh] Hu Hb Hb' Ht'.
  assert (crashed d (dev_unsynced d) (dev_writes d) (dev_syncs d) = d) as Hd by (rewrite Hu; destruct d; simpl in Hu; by subst).
  specialize (Hlog (dev_writes d) (dev_syncs d)). specialize (Hfresh (dev_writes d) (dev_syncs d)). rewrite Hd in Hlog, Hfresh.
  simpl in Hseq, Hsh, Hfresh. split; rewrite ?Hseq; try done; [|lia|apply nth_seq_u32|lia].
  intros k Hk. specialize (Hfresh k Hk). assert (nth_seq (nth_seq (jsb_start_sequence sb) 1) k = nth_seq (jsb_start_sequence sb) (S k)) as ->; [|done].
  unfold nth_seq. rewrite Zplus_mod_idemp_l. f_equal. lia.
Qed.

Lemma home_writes_format w w' bs count writes : same_format w w' → home_writes w bs count writes → home_writes w' bs count writes.
Proof.
  destruct w as [s1 t1 h1 b1 q1 a1 i1 f1 c1 e1], w' as [s2 t2 h2 b2 q2 a2 i2 f2 c2 e2]. unfold same_format. simpl.
  intros (->&->&->&->) []. by split.
Qed.

Lemma power_failure_count d d0 : power_failure d d0 → dev_block_count d0 = dev_block_count d.
Proof. by intros (kept&writes&syncs&_&->). Qed.

Section phase1.
Context (w : Jbd2Writer) (sb : Jbd2Superblock) (ahead : nat) (d : Device) (writes : smap bytes).
Hypothesis Hsbk : sbk = EXT4_SUPERBLOCK_OFFSET / dev_block_size d.
Hypothesis Hun : untorn d.
Hypothesis Hq : quiescent w sb (S ahead) d.
Hypothesis Hw : home_writes w (dev_block_size d) (dev_block_count d) writes.
Local Notation sbL := (sb_at sb (jw_next_seq w) (jw_head w)).
Local Notation ps := (txn_pieces w (dev_block_size d) (tx_body_items (writes_transaction writes))).

Lemma run_bs : 4 <= dev_block_size d <= u32_max.
Proof. pose proof (lp_bs _ _ _ _ (lo_params _ _ _ _ _ (lg_log _ _ _ _ _ (qs_logged _ _ _ _ Hq)))) as Hbs. unfold JBD2_HEADER_SIZE in Hbs. lia. Qed.

Lemma quiet_run : jw_head w <= u32_max.
Proof.
  destruct Hq as [[_ Hon _ Hl Hb _ _] Hh _]. pose proof (lp_window _ _ _ _ (lo_params _ _ _ _ _ Hon)).
  pose proof (lp_total _ _ _ _ (lo_params _ _ _ _ _ Hon)). pose proof (ll_total _ _ Hl). lia.
Qed.

(** The live log is ready for the transaction. *)
Lemma live_ready new ws : (∀ wr sy, logged w sbL [] (S ahead) (crashed d new wr sy)) →
  writer_ready w sbL (env_of sbL) [] (S ahead) (add_writes d new ws).
Proof.
  intros Hlg. pose proof (qs_logged _ _ _ _ Hq) as [Hu _ _ _ Hb Hseq Hsh]. pose proof (qs_head _ _ _ _ Hq) as Hh.
  assert (∀ wr sy, crashed (add_writes d new ws) (dev_unsynced (add_writes d new ws)) wr sy = crashed d new wr sy) as Hc.
  { intros wr sy. cbn [add_writes dev_unsynced]. by rewrite crashed_adds, Hu. }
  split; try done.
  - intros wr sy. rewrite Hc. apply Hlg.
  - intros wr sy k Hk. rewrite Hc. by apply (Hlg wr sy).
  - apply (Hlg [] []).
  - simpl. lia.
  - lia.
  - simpl. by rewrite nth_seq_0.
Qed.

(** What recovery finds while the journal is written. *)
Lemma journal_image d1 d0 : touched (λ b, ¬ home b) d d1 → power_failure d1 d0 →
  ((log_on w sb (env_of sb) [] d0 ∨ log_on w sbL (env_of sbL) [] d0) → recoverable (block_at d) d0) ∧
  (log_on w sbL (env_of sbL) [ps] d0 → recoverable (written d writes) d0).
Proof.
  intros Ht Hp. assert (∀ b, home b → block_at d0 b = block_at d b) as Hb.
  { intros b Hb. assert (¬ ¬ home b) as Hnb by tauto. rewrite (settled_image d1); [by apply Ht| |done].
    apply (to_settled _ _ _ Ht); [done|]. apply settled_synced, Hq. }
  split; [intros [?|?]; by eapply recover_empty|]. intros Hon. eapply recover_log; [done|..].
  - intros b. rewrite (writes_effect w _ _ writes b run_bs Hw), (power_failure_count _ _ Hp), (to_count _ _ _ Ht).
    by apply (target_in_range w (dev_block_size d) _ writes).
  - intros b Hh. rewrite (writes_effect w _ _ writes b run_bs Hw), Hb by done. done.
Qed.
End phase1.

(** ** The boundary does not panic *)

(** The ext4 superblock's block holds a superblock. *)
Record flag_ok (d : Device) : Prop := {
  fo_block : sbk = EXT4_SUPERBLOCK_OFFSET / dev_block_size d;
  fo_room : EXT4_SUPERBLOCK_OFFSET mod dev_block_size d + 1024 <= dev_block_size d <= u32_max;
  fo_size : zlen (block_at d sbk) = dev_block_size d;
  fo_bytes : bytes_ok (block_at d sbk);
}.

Lemma flag_ok_touched (A : Z → Prop) d d' : touched A d d' → ¬ A sbk → flag_ok d → flag_ok d'.
Proof. intros [Hs _ _ _ Hb _] HA []. by split; rewrite ?Hs, ?(Hb sbk HA). Qed.

Lemma flag_ok_add d new ws : Forall (λ wr : Z * bytes, zlen wr.2 = dev_block_size d ∧ bytes_ok wr.2) new →
  flag_ok d → flag_ok (add_writes d new ws).
Proof.
  intros Hn []. assert (zlen (block_at (add_writes d new ws) sbk) = dev_block_size d ∧ bytes_ok (block_at (add_writes d new ws) sbk)) as [? ?].
  { unfold block_at. rewrite add_writes_blocks, write_all_union, lookup_union. rewrite Forall_forall in Hn.
    destruct (write_all new ∅ !! sbk) as [x|] eqn:Hx; [|unfold block_at in *; by destruct (dev_blocks d !! sbk)]. apply write_all_in, Hn in Hx.
    by destruct (dev_blocks d !! sbk). }
  by split.
Qed.

Lemma patch_needs_recovery_total `{!Crc32cStandard} b off has_csum set_flag : 0 <= off → off + 1024 <= zlen b → zlen b <= u32_max →
  bytes_ok b → ∃ b' changed, ext4_patch_needs_recovery b off has_csum set_flag = Ret (b', changed).
Proof.
  intros Ho Hr Hu Hb. unfold ext4_patch_needs_recovery, INCOMPAT_OFFSET, EXT4_SB_CHECKSUM_OFFSET. rewrite slice_ok by lia. simpl.
  destruct (_ =? le_value _); [by eauto|]. set (b1 := put b _ _). assert (zlen b1 = zlen b) as Hz1 by (apply put_length; rewrite ?zlen_le_bytes; lia).
  assert (bytes_ok b1) as Hb1 by (apply put_ok; [done|apply le_bytes_ok]). clearbody b1.
  destruct has_csum; [|by eauto]. rewrite !slice_ok by lia. simpl. rewrite skip_zero_tail_spec; [by eauto|done|by apply Forall_take, Forall_drop|].
  unfold zlen. rewrite length_take. unfold u32_max in *. lia.
Qed.

Lemma needs_recovery_total `{!Crc32cStandard} has_csum set_flag d : untorn d → flag_ok d →
  ∃ d' o, ext4_write_needs_recovery has_csum set_flag d = Ret (d', o) ∧ flag_ok d'.
Proof.
  intros Hun Hf. pose proof Hf as [Hk Hr Hz Hb]. unfold ext4_write_needs_recovery, ext4_superblock_location. rewrite <-Hk.
  unfold read_block. case_if; [by eauto|]. case_if; [by eauto|].
  assert (0 <= EXT4_SUPERBLOCK_OFFSET mod dev_block_size d) by (apply Z.mod_pos_bound; pose proof (zlen_nonneg (block_at d sbk));
    destruct (decide (dev_block_size d = 0)) as [E|]; [rewrite E, Zmod_0_r in Hr; unfold EXT4_SUPERBLOCK_OFFSET in Hr; lia|lia]).
  destruct (patch_needs_recovery_total (block_at d sbk) (EXT4_SUPERBLOCK_OFFSET mod dev_block_size d) has_csum set_flag) as (b'&changed&Hp);
    [lia|lia|lia|done|]. rewrite Hp. simpl. apply patch_needs_recovery_size in Hp as [Hz' Hb']; [|done].
  destruct changed; [|by eauto]. destruct (write_block sbk b' d) as [d' o] eqn:Hwb. exists d', o. split; [done|].
  destruct (write_block_untorn _ _ _ _ _ Hun Hwb) as (new&ws&->&_&Hn&_). apply flag_ok_add; [|done].
  destruct Hn as [->| ->]; [constructor|]. apply Forall_singleton. simpl. split; [lia|auto].
Qed.

Lemma write_log_tail_touched w start seq d d' o : untorn d → write_log_tail w start seq d = (d', o) →
  touched (λ b, resolve_segment_block (jw_segments w) 0 = Ok b) d d'.
Proof.
  intros Hun. unfold write_log_tail. case_if; [by intros [= <- _]|]. unfold mbind, devM_bind, lift.
  destruct (resolve_segment_block (jw_segments w) 0) as [a|e]; [|by intros [= <- _]].
  unfold read_block at 1. case_if; [by intros [= <- _]|]. case_if; [by intros [= <- _]|].
  destruct (ok_or _ _) as [sb|e]; [|by intros [= <- _]]. destruct (if has_bits _ _ then _ else _) as [raw|e]; [|by intros [= <- _]].
  intros Hwb. eapply touched_weaken; [|by eapply write_block_touched]. by intros b ->.
Qed.

Lemma tail_flag_ok w sb txns ahead start seq d d0 d' o : logged w sb txns ahead d0 → untorn d → flag_ok d →
  write_log_tail w start seq d = (d', o) → flag_ok d'.
Proof.
  intros Hlg Hun Hf Hrun. eapply flag_ok_touched; [by eapply write_log_tail_touched| |done]. pose proof (lg_base _ _ _ _ _ Hlg).
  rewrite <-(ll_resolve _ _ (lg_layout _ _ _ _ _ Hlg)) by lia. by apply clear.
Qed.

Lemma finish_total `{!Crc32cStandard} w sb txns ahead d d0 has_csum : logged w sb txns ahead d0 → untorn d → flag_ok d →
  ∃ r, finish_boundary has_csum w d = Ret r.
Proof.
  intros Hlg Hun Hf. unfold finish_boundary. set (w2 := reset_after_checkpoint w).
  destruct (mark_log_empty w2 d) as [d1 [[]|e]] eqn:Hm; [|by eauto].
  destruct (needs_recovery_total has_csum false d1) as (d2&o2&Hn&_).
  - eapply untorn_touched; [by eapply write_log_tail_touched|done].
  - eapply (tail_flag_ok w); [done|done|done|exact Hm].
  - rewrite Hn. simpl. destruct o2 as [[]|e]; [|by eauto]. destruct (sync_device d2) as [d3 [[]|e]]; by eauto.
Qed.

Lemma checkpoint_total `{!Crc32cStandard} w sb txns ahead d writes has_csum : logged w sb txns ahead d → untorn d → flag_ok d →
  home_writes w (dev_block_size d) (dev_block_count d) writes → ∃ r, checkpoint has_csum w writes d = Ret r.
Proof.
  intros Hlg Hun Hf Hw. unfold checkpoint. destruct (checkpoint_writes writes d) as [d1 o1] eqn:Hc.
  destruct (checkpoint_writes_spec _ _ _ _ Hun Hc) as (new&ws&->&Hs&Hsub&_). destruct o1 as [[]|e]; [|by eauto].
  destruct (sync_device (add_writes d new ws)) as [d2 o2] eqn:Hsync. destruct o2 as [[]|e]; [|by eauto].
  eapply finish_total; [done|..].
  - eapply (untorn_touched (λ _, True)); [|done]. etrans; [apply (touched_add _ d new ws); [done|by apply Forall_true]|by eapply touched_sync].
  - eapply (flag_ok_touched (λ _, False)); [by eapply touched_sync|tauto|]. apply flag_ok_add; [|done].
    eapply Forall_sublist; [done|apply Hw].
Qed.

(** ** The whole boundary *)

Lemma written_touched d d' writes b : touched (λ b, ¬ home b) d d' → home b → written d' writes b = written d writes b.
Proof. intros Ht Hb. unfold written. f_equal. apply Ht. tauto. Qed.

(** From the durable transaction on. *)
Lemma after_commit_spec `{!Crc32cStandard} w w1 sbL ps ahead d d3 writes has_csum : untorn d3 → flag_ok d3 →
  touched (λ b, ¬ home b) d d3 → logged w1 sbL [ps] ahead d3 → same_format w w1 →
  home_writes w (dev_block_size d) (dev_block_count d) writes → (∀ b, log_effect [ps] !! b = sm_get b writes) →
  ∃ d' w' out, checkpoint has_csum w1 writes d3 = Ret (d', w', out) ∧
  (∀ d0, power_failure d' d0 → recoverable (written d writes) d0) ∧
  (out = Ok () → (∀ b, home b → block_at d' b = written d writes b) ∧ ∃ sb', quiescent w' sb' ahead d').
Proof.
  intros Hun Hf Ht Hlg Hfmt Hw He. apply (home_writes_format w w1) in Hw; [|done]. rewrite <-(to_size _ _ _ Ht), <-(to_count _ _ _ Ht) in Hw.
  destruct (checkpoint_total w1 sbL [ps] ahead d3 writes has_csum Hlg Hun Hf Hw) as [[[d' w'] out] Hrun]. exists d', w', out. split; [done|].
  destruct (checkpoint_spec _ _ _ _ _ _ _ _ _ _ (fo_block _ Hf) Hun Hlg Hw He Hrun) as [Himg Hq]. split.
  - intros d0 Hd0. eapply recoverable_ext; [|by apply Himg]. intros b Hb. by apply written_touched.
  - intros Ho. destruct (Hq Ho) as [? Hb]. split; [|by eauto]. intros b Hh. rewrite Hb by done. by apply written_touched.
Qed.

(** Marking the log live. *)
Lemma live_spec w sb ahead d n0 ws0 d1 o1 : let sbL := sb_at sb (jw_next_seq w) (jw_head w) in
  untorn d → quiescent w sb (S ahead) d → Forall (λ wr, wr.1 = sbk) n0 → ws0 `suffix_of` dev_writes d →
  mark_log_live w (add_writes d n0 ws0) = (d1, o1) →
  touched (λ b, ¬ home b) d d1 ∧ (flag_ok (add_writes d n0 ws0) → flag_ok d1) ∧
  (∀ d0, power_failure d1 d0 → log_on w sb (env_of sb) [] d0 ∨ log_on w sbL (env_of sbL) [] d0) ∧
  (o1 = Ok () → writer_ready w sbL (env_of sbL) [] (S ahead) d1).
Proof.
  intros sbL Hun Hq Hn0 Hs0 Hm. pose proof Hq as [Hlg Hh Hst]. pose proof Hlg as [Hu _ _ Hl Hb _ _].
  pose proof (quiet_run w sb ahead d Hq) as Hmax. unfold mark_log_live in Hm. rewrite (proj2 (Z.ltb_ge _ _)) in Hm by done.
  assert (untorn (add_writes d n0 ws0)) as Hun0 by (by eapply (untorn_touched (λ _, True)); [apply touched_add; [done|by apply Forall_true]|]).
  assert (flag_ok (add_writes d n0 ws0) → flag_ok d1) as Hf1 by (intros Hf0; by eapply tail_flag_ok).
  destruct (retail_spec w sb [] (S ahead) (jw_head w) d n0 ws0 d1 o1) as (new&ws&->&Hs&Hnew&Himg&Hdone); [done|done|lia|done..|].
  split_and!.
  - by apply touched_add.
  - done.
  - intros d0 (kept&wr&sy&Hk&->)%image_synced; [|done]. apply (Himg []); [constructor|by rewrite app_nil_r].
  - intros Ho. apply live_ready; [done|]. intros wr sy. rewrite <-(app_nil_r new). by apply Hdone.
Qed.

(** The commit, once it is durable. *)
Lemma commit_logged w sb ahead d n0 ws0 writes d1 d2 d3 w1 r : let sbL := sb_at sb (jw_next_seq w) (jw_head w) in
  let ps := txn_pieces w (dev_block_size d) (tx_body_items (writes_transaction writes)) in
  untorn d → quiescent w sb (S ahead) d → home_writes w (dev_block_size d) (dev_block_count d) writes →
  Forall (λ wr, wr.1 = sbk) n0 → ws0 `suffix_of` dev_writes d → mark_log_live w (add_writes d n0 ws0) = (d1, Ok ()) →
  commit_transaction w (writes_transaction writes) d1 = (d2, w1, Ok r) → sync_device d2 = (d3, Ok ()) →
  logged w1 sbL [ps] ahead d3 ∧ same_format w w1 ∧ touched (λ b, ¬ home b) d d3 ∧ (flag_ok (add_writes d n0 ws0) → flag_ok d3).
Proof.
  intros sbL ps Hun Hq Hw Hn0 Hs0 Hm Hc Hsync. destruct (live_spec _ _ _ _ _ _ _ _ Hun Hq Hn0 Hs0 Hm) as (Ht1&Hf1&Himg&Hready).
  specialize (Hready eq_refl). pose proof (untorn_touched _ _ _ Ht1 Hun) as Hun1. pose proof (writes_items_ok _ _ _ _ Hw) as Hok.
  rewrite <-(to_size _ _ _ Ht1) in Hok. pose proof (commit_touched _ _ _ _ _ _ _ _ _ _ Hready Hun1 Hok Hc) as Htc.
  destruct (commit_transaction_spec w sbL (env_of sbL) [] (writes_transaction writes) ahead (λ _, True) d1 d2 w1 (Ok r))
    as [_ Hr]; [done|done|done|by apply untorn_quiet|done|done|].
  destruct r as [seq st], Hr as [_ Hr]. destruct (Hr d3 Hsync) as [Hready3 _]. destruct (commit_writer _ _ _ _ _ _ Hc) as (Hb'&Htot'&Hfmt).
  simpl app in Hready3. rewrite (to_size _ _ _ Ht1) in Hready3. split_and!; [|done| |].
  - eapply (ready_logged w); [exact Hready3| |apply Hq|done|done]. destruct (sync_outcome _ _ _ Hsync) as (_&_&Hu3&_). by apply Hu3.
  - etrans; [exact Ht1|]. etrans; [|by eapply touched_sync]. eapply touched_weaken; [|exact Htc]. intros b (i&?&?). by eapply address_not_home.
  - intros Hf0. eapply (flag_ok_touched (λ _, False)); [by eapply touched_sync|tauto|]. eapply flag_ok_touched; [exact Htc| |by apply Hf1].
    intros (i&?&?). by apply (clear i).
Qed.

Lemma journal_spec `{!Crc32cStandard} w sb ahead d n0 ws0 writes has_csum : untorn d → quiescent w sb (S ahead) d →
  home_writes w (dev_block_size d) (dev_block_count d) writes → Forall (λ wr, wr.1 = sbk) n0 → ws0 `suffix_of` dev_writes d →
  flag_ok (add_writes d n0 ws0) →
  ∃ d' w' out, journal_writes has_csum w (writes_transaction writes) writes (add_writes d n0 ws0) = Ret (d', w', out) ∧
  (∀ d0, power_failure d' d0 → recoverable (block_at d) d0 ∨ recoverable (written d writes) d0) ∧
  (out = Ok () → (∀ d0, power_failure d' d0 → recoverable (written d writes) d0) ∧
    (∀ b, home b → block_at d' b = written d writes b) ∧ ∃ sb', quiescent w' sb' ahead d').
Proof.
  intros Hun Hq Hw Hn0 Hs0 Hf0. pose proof Hq as [Hlg Hh Hst]. pose proof (lg_base _ _ _ _ _ Hlg) as Hb.
  set (sbL := sb_at sb (jw_next_seq w) (jw_head w)). unfold journal_writes.
  destruct (mark_log_live w (add_writes d n0 ws0)) as [d1 o1] eqn:Hm.
  destruct (live_spec _ _ _ _ _ _ _ _ Hun Hq Hn0 Hs0 Hm) as (Ht1&_&Hbefore&Hready).
  pose proof (journal_image w sb ahead d writes Hq Hw) as Hrec.
  destruct o1 as [[]|e]; [|eexists _, _, _; split_and!; [done| |done]; intros d0 Hd0; left; apply (Hrec _ _ Ht1 Hd0), Hbefore; done].
  specialize (Hready eq_refl). pose proof (untorn_touched _ _ _ Ht1 Hun) as Hun1. pose proof (writes_items_ok _ _ _ _ Hw) as Hok.
  rewrite <-(to_size _ _ _ Ht1) in Hok.
  destruct (commit_transaction w (writes_transaction writes) d1) as [[d2 w1] r] eqn:Hc.
  destruct (commit_transaction_spec w sbL (env_of sbL) [] (writes_transaction writes) ahead
    (λ d0, log_on w sb (env_of sb) [] d0 ∨ log_on w sbL (env_of sbL) [] d0) d1 d2 w1 r) as [Himg2 _];
    [done| |done|by apply untorn_quiet|done|done|].
  { intros d0 kept wr sy [?|?] ? ?; [left|right]; (eapply (log_on_stable w); [|lia| |done..]); simpl; [apply Hlg|lia|apply Hready|lia]. }
  assert (touched (λ b, ¬ home b) d d2) as Ht2.
  { etrans; [exact Ht1|]. eapply touched_weaken; [|exact (commit_touched _ _ _ _ _ _ _ _ _ _ Hready Hun1 Hok Hc)].
    intros b (i&?&?). by eapply address_not_home. }
  assert (∀ d0, power_failure d2 d0 → recoverable (block_at d) d0 ∨ recoverable (written d writes) d0) as Hrec2.
  { intros d0 Hd0. destruct (Hrec _ _ Ht2 Hd0) as [Hold Hnew]. simpl app in Himg2. rewrite (to_size _ _ _ Ht1) in Himg2.
    destruct (Himg2 d0 Hd0) as [?|[?|?]]; auto. }
  destruct r as [[seq st]|e]; [|by eexists _, _, _].
  destruct (sync_device d2) as [d3 o3] eqn:Hsync. destruct (sync_outcome _ _ _ Hsync) as (_&_&_&Hpf).
  destruct o3 as [[]|e]; [|eexists _, _, _; split_and!; [done|by auto|done]].
  destruct (commit_logged _ _ _ _ _ _ _ _ _ _ _ _ Hun Hq Hw Hn0 Hs0 Hm Hc Hsync) as (Hlg3&Hfmt&Ht3&Hf3).
  destruct (after_commit_spec w w1 sbL (txn_pieces w (dev_block_size d) (tx_body_items (writes_transaction writes))) ahead d d3 writes has_csum)
    as (d'&w'&out&Hrun&Hrec3&Hq3); try done; [by eapply untorn_touched|by apply Hf3| |].
  - intros b. eapply writes_effect; [by eapply run_bs|done].
  - exists d', w', out. split_and!; [done|by auto|]. intros Ho. destruct (Hq3 Ho). by split_and!.
Qed.

Lemma sm_wf_keys {V} (m m' : smap V) : m'.*1 = m.*1 → sm_wf m → sm_wf m'.
Proof.
  revert m'. induction m as [|[k v] m IH]; intros m'; [by intros ->%fmap_nil_inv|].
  intros ([k' v']&m2&[= <-]&Hm&->)%fmap_cons_inv. change (m.*1 = m2.*1) in Hm. rewrite !sm_wf_cons. intros [Hlt Hwf]. split; [|by apply IH].
  intros kv Hin. assert (kv.1 ∈ m.*1) as (kv'&->&Hin')%list_elem_of_fmap; [|by apply Hlt]. rewrite Hm. apply list_elem_of_fmap. by exists kv.
Qed.

Lemma patched_writes w bs count writes writes' off has_csum : 0 <= off → home_writes w bs count writes →
  patch_writes sbk off has_csum writes = Ret writes' →
  home_writes w bs count writes' ∧ ∀ d b, home b → written d writes' b = written d writes b.
Proof.
  intros Ho [Hwf Htags Ht Hd] Hp.
  destruct (patch_writes_spec sbk off has_csum writes writes' (λ x, zlen x = bs ∧ bytes_ok x) Ho) as (Hk&Hd'&Hg); [|done|done|].
  { intros b b' c Hb [Hz Hok]. apply patch_needs_recovery_size in Hb as [? ?]; [|done]. split; [lia|auto]. }
  split; [split; try done|].
  - by eapply sm_wf_keys.
  - by rewrite Hk.
  - intros d b [Hb _]. unfold written. by rewrite Hg.
Qed.

Lemma patch_writes_total `{!Crc32cStandard} bs off has_csum (writes : smap bytes) : 0 <= off → off + 1024 <= bs <= u32_max →
  Forall (λ bd, zlen bd.2 = bs ∧ bytes_ok bd.2) writes → ∃ writes', patch_writes sbk off has_csum writes = Ret writes'.
Proof.
  intros Ho Hb. induction 1 as [|[t x] writes [Hz Hx] _ [ws IH]]; [by eexists|]. simpl in *. rewrite IH.
  destruct (t =? sbk); [|by eexists]. destruct (patch_needs_recovery_total x off has_csum true) as (x'&c&->); [lia..|done|]. by eexists.
Qed.

End system.
