(* ===== verification/Jbd2Progress.v ===== *)
(** * The durability boundary succeeds on a healthy device

    What the writer and the boundary need in order to end with [Ok]: a device
    that answers, and a transaction the preflight accepts. *)

From stdpp Require Import base sorting numbers gmap list.
From S2P Require Import Prelude Sorted Wal WalReplay WalWriter Journal Jbd2 CrcIncr CrcLinear CrcCorrect Jbd2Replay Jbd2Writer Jbd2Codec Jbd2Order Jbd2Log Jbd2Apply Jbd2Commit Jbd2Crash Jbd2Boundary Jbd2Frame Jbd2Super Jbd2System.

Local Open Scope Z_scope.

#[local] Opaque be_bytes le_bytes zeros.

(** ** Computations that succeed *)

(** Every write and sync to come succeeds, and every block is whole. *)
Record healthy (d : Device) : Prop := {
  he_writes : dev_writes d = [];
  he_syncs : dev_syncs d = [];
  he_sized : ∀ b, zlen (block_at d b) = dev_block_size d;
}.

Record shape (d d' : Device) : Prop := {
  sh_size : dev_block_size d' = dev_block_size d;
  sh_count : dev_block_count d' = dev_block_count d;
  sh_unreadable : dev_unreadable d' = dev_unreadable d;
}.

#[global] Instance shape_preorder : PreOrder shape.
Proof. split; [by split|]. intros d1 d2 d3 [] []. split; congruence. Qed.

Definition succeeds {A} (m : devM A) (d : Device) (Q : A → Prop) : Prop :=
  ∃ a d', m d = (d', Ok a) ∧ healthy d' ∧ shape d d' ∧ Q a.

Lemma succeeds_ret {A} (a : A) d (Q : A → Prop) : healthy d → Q a → succeeds (mret a) d Q.
Proof. intros Hh Hq. by exists a, d. Qed.

Lemma succeeds_lift {A B} (r : res JournalError A) a (f : A → devM B) d (R : B → Prop) : r = Ok a →
  succeeds (f a) d R → succeeds (lift r ≫= f) d R.
Proof. by intros ->. Qed.

Lemma succeeds_bind {A B} (m : devM A) (f : A → devM B) d (Q : A → Prop) (R : B → Prop) : succeeds m d Q →
  (∀ a d', healthy d' → shape d d' → Q a → succeeds (f a) d' R) → succeeds (m ≫= f) d R.
Proof.
  intros (a&d1&Hm&Hh&Hs&Hq) Hf. destruct (Hf a d1 Hh Hs Hq) as (b&d2&Hr&Hh2&Hs2&HR). exists b, d2.
  split_and!; [|done|by etrans|done]. unfold mbind, devM_bind. by rewrite Hm.
Qed.

Lemma succeeds_eq {A} (m m' : devM A) d (Q : A → Prop) : m d = m' d → succeeds m' d Q → succeeds m d Q.
Proof. unfold succeeds. by intros ->. Qed.

Lemma healthy_add d new : healthy d → Forall (λ wr : Z * bytes, zlen wr.2 = dev_block_size d) new → healthy (add_writes d new []).
Proof.
  intros [Hw Hs Hz] Hn. split; [done|done|]. intros b. unfold block_at. rewrite add_writes_blocks, write_all_union, lookup_union.
  rewrite Forall_forall in Hn. specialize (Hz b). unfold block_at in Hz.
  destruct (write_all new ∅ !! b) as [x|] eqn:Hx; [|by destruct (dev_blocks d !! b)].
  apply write_all_in, Hn in Hx. by destruct (dev_blocks d !! b).
Qed.

Lemma write_block_succeeds a x d : healthy d → zlen x = dev_block_size d → a < dev_block_count d →
  succeeds (write_block a x) d (λ _, True).
Proof.
  intros Hh Hz Ha. exists (), (add_writes d [(a, x)] []). split_and!; [|by apply healthy_add; [|apply Forall_singleton]|done|done].
  unfold write_block, answer_write. rewrite (proj2 (Z.eqb_eq _ _)), (proj2 (Z.leb_gt _ _)), (he_writes _ Hh) by done. done.
Qed.

Lemma write_blocks_succeed (ws : list (Z * bytes)) d : healthy d →
  Forall (λ wr, zlen wr.2 = dev_block_size d ∧ wr.1 < dev_block_count d) ws → succeeds (write_blocks ws) d (λ _, True).
Proof.
  intros Hh Hf. revert d Hh Hf. induction ws as [|[a x] ws IH]; intros d Hh Hf; [by apply succeeds_ret|].
  apply Forall_cons in Hf as [[Hz Ha] Hf]. eapply succeeds_bind; [by apply write_block_succeeds|].
  intros [] d' Hh' [Hs Hc _] _. apply IH; [done|]. by rewrite Hs, Hc.
Qed.

Lemma write_contiguous_succeeds start (bl : list bytes) d : healthy d → 0 < dev_block_size d → bl ≠ [] →
  Forall (λ b, zlen b = dev_block_size d) bl → start + zlen bl <= dev_block_count d <= u64_max →
  succeeds (write_contiguous_blocks start (concat bl)) d (λ _, True).
Proof.
  intros Hh Hbs Hne Hz Hc. set (bs := dev_block_size d) in *. pose proof (zlen_concat bs bl Hz) as Hl.
  assert (1 <= zlen bl) by (destruct bl; [done|]; rewrite zlen_cons; pose proof (zlen_nonneg bl); lia).
  assert (zlen (concat bl) / bs = zlen bl) as Hdiv by (rewrite Hl, Z.mul_comm; apply Z.div_mul; lia).
  assert (zlen (concat bl) mod bs = 0) as Hmod by (rewrite Hl, Z.mul_comm; apply Z.mod_mul; lia).
  assert (block_run (length bl) (Z.to_nat bs) start (concat bl) = zip (seqZ start (Z.of_nat (length bl))) bl) as Hrun.
  { apply block_run_zip. eapply Forall_impl; [exact Hz|]. unfold zlen. simpl. intros. lia. }
  exists (), (add_writes d (zip (seqZ start (Z.of_nat (length bl))) bl) []). split_and!; [| |done|done].
  - unfold write_contiguous_blocks. fold bs. rewrite (proj2 (Z.eqb_neq bs 0)), Hmod, Hdiv by lia.
    rewrite (proj2 (Z.eqb_neq (zlen _) 0)), checked_add_ok by nia. rewrite (proj2 (Z.ltb_ge _ _)) by lia. simpl.
    assert (Z.to_nat (zlen bl) = length bl) as -> by (unfold zlen; lia). rewrite Hrun. unfold answer_write. by rewrite (he_writes _ Hh).
  - apply healthy_add; [done|]. apply Forall_lookup. intros k [a x] Hk. apply lookup_zip_Some in Hk as [_ Hx].
    exact (Forall_lookup_1 _ _ _ _ Hz Hx).
Qed.

Lemma sync_succeeds d : healthy d → succeeds sync_device d (λ _, True).
Proof.
  intros [Hw Hs Hz]. unfold succeeds, sync_device. rewrite Hs. eexists _, _. split_and!; [done| |done|done].
  split; [done|done|exact Hz].
Qed.

(** ** The commit *)

Section commit.
Context `{Crc32cAppend}.
Context (w : Jbd2Writer) (sb : Jbd2Superblock) (bs seq count : Z).
Hypothesis Hmatch : sb_matches w sb.
Hypothesis Hseed : 0 <= jw_csum_seed w <= u32_max.
Hypothesis Hbs : JBD2_HEADER_SIZE <= bs <= u32_max.
Hypothesis Hseq : 0 <= seq <= u32_max.
Hypothesis Htotal : jw_total_blocks w <= u32_max.
Hypothesis Hcount : count <= u64_max.
(** The journal lies on the device. *)
Hypothesis Hlog : ∀ i, 0 <= i < jw_total_blocks w → ∃ a, resolve_segment_block (jw_segments w) i = Ok a ∧ a < count.

Lemma alloc_block_succeeds head : 0 <= head < jw_total_blocks w →
  ∃ a, alloc_block w head = Ok (a, head + 1) ∧ a < count.
Proof.
  intros Hh. destruct (Hlog head Hh) as (a&Ha&Hc). exists a. split; [|done]. unfold alloc_block.
  rewrite (proj2 (Z.leb_gt _ _)), Ha by lia. simpl. unfold saturating_add, u64_max, u32_max in *. do 2 f_equal. lia.
Qed.

Lemma alloc_blocks_succeed n head : 0 <= head → head + Z.of_nat n <= jw_total_blocks w →
  ∃ l, alloc_blocks w n head = Ok (l, head + Z.of_nat n) ∧ Forall (λ a, a < count) l ∧ length l = n.
Proof.
  revert head. induction n as [|n IH]; intros head Hh Hle; cbn [alloc_blocks].
  { exists []. split_and!; [|done|done]. do 2 f_equal. lia. }
  destruct (alloc_block_succeeds head ltac:(lia)) as (a&->&Ha). cbn [mbind res_bind].
  destruct (IH (head + 1) ltac:(lia) ltac:(lia)) as (l&->&Hl&Hlen). cbn [mbind res_bind]. exists (a :: l).
  split_and!; [do 2 f_equal; lia|by constructor|simpl; lia].
Qed.

Lemma descriptor_run_succeeds addr addrs desc chunk d : healthy d → dev_block_size d = bs → dev_block_count d = count →
  Forall (λ a, a < count) (addr :: addrs) → length addrs = length chunk →
  Forall (λ b, zlen b = bs) (desc :: (cw_padded <$> chunk)) →
  succeeds (write_descriptor_run addr desc addrs chunk) d (λ _, True).
Proof.
  intros Hh Hd Hc Ha Hlen Hz. unfold write_descriptor_run.
  eapply (succeeds_bind _ _ _ (λ r, r = dev_contiguous d)); [by exists (dev_contiguous d), d|]. intros ? d1 Hh1 [Hs1 Hc1 _] ->.
  destruct (dev_contiguous d && physically_contiguous addr addrs) eqn:Hcont.
  - apply andb_true_iff in Hcont as [_ Hcont]. apply contiguous_seqZ in Hcont.
    apply (write_contiguous_succeeds addr (desc :: (cw_padded <$> chunk))); [done|unfold JBD2_HEADER_SIZE in Hbs; lia|done| |].
    + by rewrite Hs1, Hd.
    + rewrite Hc1, Hc, zlen_cons. unfold zlen. rewrite length_fmap, <-Hlen. split; [|done]. rewrite Hcont in Ha.
      rewrite Forall_forall in Ha. assert (addr + Z.of_nat (length addrs) < count); [|lia]. apply Ha, elem_of_seqZ. lia.
  - apply Forall_cons in Ha as [Ha Has]. apply Forall_cons in Hz as [Hz Hzs].
    eapply succeeds_bind; [apply write_block_succeeds; [done|by rewrite Hs1, Hd|by rewrite Hc1, Hc]|].
    intros [] d2 Hh2 [Hs2 Hc2 _] _. apply write_blocks_succeed; [done|]. rewrite Hs2, Hs1, Hc2, Hc1, Hd, Hc.
    apply Forall_lookup. intros k [a x] Hk. apply lookup_zip_Some in Hk as [Hk Hx].
    split; [exact (Forall_lookup_1 _ _ _ _ Hzs Hx)|exact (Forall_lookup_1 _ _ _ _ Has Hk)].
Qed.

Lemma write_piece_succeeds head p d : healthy d → dev_block_size d = bs → dev_block_count d = count → good_piece w bs p →
  0 <= head → head + piece_len p <= jw_total_blocks w →
  succeeds (write_piece w bs seq p head) d (λ h, h = head + piece_len p).
Proof.
  intros Hh Hd Hc Hgood Hhd Hle. destruct (good_piece_blocks w sb bs seq Hmatch Hseed Hbs Hseq p Hgood) as [Hbl _]. destruct Hgood as [Hok _ _].
  destruct p as [chunk|chunk]; cbn [write_piece piece_len piece_blocks] in *.
  - pose proof (zlen_nonneg chunk). eapply succeeds_lift; [by apply encode_descriptor_spec|].
    destruct (alloc_block_succeeds head ltac:(lia)) as (a&Ha&Hac). eapply succeeds_lift; [exact Ha|].
    destruct (alloc_blocks_succeed (length chunk) (head + 1)) as (l&Hl&Hlc&Hlen); [lia|unfold zlen in Hle; lia|].
    eapply succeeds_lift; [exact Hl|].
    eapply succeeds_bind; [apply descriptor_run_succeeds|]; [done|done|done|by constructor|done| |].
    + eapply Forall_impl; [exact Hbl|]. by intros ? [_ ?].
    + intros [] d4 Hh4 S4 _. apply succeeds_ret; [done|]. unfold zlen. lia.
  - eapply succeeds_lift; [by apply encode_revoke_spec; [apply Hbs|]|].
    destruct (alloc_block_succeeds head ltac:(lia)) as (a&Ha&Hac). eapply succeeds_lift; [exact Ha|].
    apply Forall_cons in Hbl as [[_ Hz] _].
    eapply succeeds_bind; [apply write_block_succeeds; [done|by rewrite Hd|by rewrite Hc]|].
    intros [] d3 Hh3 S3 _. by apply succeeds_ret.
Qed.

(** The body succeeds where its pieces fit. *)
Lemma write_body_succeeds fuel items head stats d : healthy d → dev_block_size d = bs → dev_block_count d = count →
  0 <= head → (length items <= fuel)%nat → Forall (item_ok w bs) items →
  head + pieces_len (pieces_of fuel w bs items) <= jw_total_blocks w →
  succeeds (write_body fuel w bs seq items head stats) d (λ r, r.1 = head + pieces_len (pieces_of fuel w bs items)).
Proof.
  assert (4 <= bs <= u32_max) as Hbs4 by (unfold JBD2_HEADER_SIZE in Hbs; lia).
  revert items head stats d. induction fuel as [|fuel IH]; intros items head stats d Hh Hd Hc Hhd Hl Hok Hfit.
  { apply succeeds_ret; [done|]. simpl. lia. }
  destruct (pieces_of_spec (S fuel) w bs items Hbs4 Hl Hok) as [Hgood _].
  destruct items as [|[t p|t] items]; [apply succeeds_ret; [done|simpl; lia]|..].
  - pose proof (proj1 (Forall_cons _ _ _) Hok) as [(_&_&_&Hmax) _].
    pose proof (write_body_writes w bs seq fuel t p items head stats d) as Hst. cbv zeta in Hst. cbn [pieces_of] in *.
    destruct (take_writes _ _ _) as [chunk rest] eqn:E. destruct Hst as [stats' Hst]. eapply succeeds_eq; [exact Hst|].
    apply take_writes_spec in E as (ws&Hit&->&_&Hne). specialize (Hne ltac:(lia) _ _ _ eq_refl).
    apply Forall_cons in Hgood as [Hp _]. cbn [pieces_len fold_right] in *. fold (pieces_len (pieces_of fuel w bs rest)) in *.
    pose proof (piece_len_pos (PieceWrites (uncurry (chunk_write bs) <$> ws))). pose proof (pieces_len_nonneg (pieces_of fuel w bs rest)).
    eapply succeeds_bind; [by apply write_piece_succeeds; [..|lia]|]. intros h d1 Hh1 [Hs1 Hc1 _] ->.
    rewrite Hit in Hl, Hok. apply Forall_app in Hok as [_ Hrest]. rewrite Z.add_assoc. apply IH; try done; [congruence|congruence|lia| |lia].
    destruct ws; [done|]. rewrite length_app in Hl. simpl in Hl. lia.
  - pose proof (proj1 (Forall_cons _ _ _) Hok) as [(_&Hmax) _].
    pose proof (write_body_revokes w bs seq fuel t items head stats d) as Hst. cbv zeta in Hst. cbn [pieces_of] in *.
    destruct (take_revokes _ _) as [chunk rest] eqn:E. destruct Hst as [stats' Hst]. eapply succeeds_eq; [exact Hst|].
    apply take_revokes_spec in E as (Hit&_&Hne). specialize (Hne ltac:(lia) _ _ eq_refl).
    apply Forall_cons in Hgood as [Hp _]. cbn [pieces_len fold_right] in *. fold (pieces_len (pieces_of fuel w bs rest)) in *.
    pose proof (piece_len_pos (PieceRevokes chunk)). pose proof (pieces_len_nonneg (pieces_of fuel w bs rest)).
    eapply succeeds_bind; [by apply write_piece_succeeds; [..|lia]|]. intros h d1 Hh1 [Hs1 Hc1 _] ->.
    rewrite Hit in Hl, Hok. apply Forall_app in Hok as [_ Hrest]. rewrite Z.add_assoc. apply IH; try done; [congruence|congruence|lia| |lia].
    destruct chunk; [done|]. rewrite length_app in Hl. simpl in Hl. lia.
Qed.

(** So does the transaction, with one block for its commit. *)
Lemma write_phase_succeeds txn d : healthy d → dev_block_size d = bs → dev_block_count d = count → 0 <= jw_head w →
  (jw_has_checksum w = true → 20 <= bs) → Forall (item_ok w bs) (tx_body_items txn) →
  jw_head w + txn_len (txn_pieces w bs (tx_body_items txn)) <= jw_total_blocks w →
  succeeds (write_phase w bs seq txn) d (λ _, True).
Proof.
  intros Hh Hd Hc Hhd H20 Hok Hfit. unfold txn_len, txn_pieces in Hfit. unfold write_phase.
  pose proof (pieces_len_nonneg (pieces_of (length (tx_body_items txn)) w bs (tx_body_items txn))).
  eapply succeeds_bind; [apply write_body_succeeds; try done; lia|]. intros [h1 st1] d1 Hh1 [Hs1 Hc1 _] Hr. simpl in Hr.
  eapply succeeds_bind; [by apply sync_succeeds|]. intros [] d2 Hh2 [Hs2 Hc2 _] _.
  eapply succeeds_lift; [by apply encode_commit_spec; split; [apply Hbs|]|].
  destruct (alloc_block_succeeds h1) as (a&Ha&Hac); [lia|]. eapply succeeds_lift; [exact Ha|].
  eapply succeeds_bind; [apply write_block_succeeds; [done| |by rewrite Hc2, Hc1, Hc]|].
  - rewrite Hs2, Hs1, Hd. eapply (commit_block_spec w sb bs seq Hmatch Hseed); [apply Hbs|done|]. by split; [apply Hbs|].
  - intros [] d3 Hh3 S3 _. by apply succeeds_ret.
Qed.
End commit.

(** ** Space *)

Lemma div_ceil_alt n t : 0 <= n → 1 <= t → div_ceil n t = (n + t - 1) / t.
Proof.
  intros Hn Ht. unfold div_ceil. pose proof (Z.div_mod n t ltac:(lia)) as Hd. pose proof (Z.mod_pos_bound n t ltac:(lia)).
  destruct (Z.ltb_spec 0 (n mod t)).
  - apply (Z.div_unique _ _ _ (n mod t - 1)); lia.
  - apply (Z.div_unique _ _ _ (t - 1)); lia.
Qed.

Lemma div_ceil_step n t : 1 <= n → 1 <= t → div_ceil n t = 1 + div_ceil (Z.max 0 (n - t)) t.
Proof.
  intros Hn Ht. rewrite !div_ceil_alt by lia. destruct (Z.le_gt_cases t n).
  - rewrite Z.max_r by lia. replace (n + t - 1) with (n - t + t - 1 + 1 * t) by lia. rewrite Z.div_add by lia. lia.
  - rewrite Z.max_l by lia. rewrite (Z.div_small (0 + t - 1)) by lia. symmetry. apply (Z.div_unique _ _ _ (n - 1)); lia.
Qed.

Lemma take_writes_map m bs (ws : list (Z * bytes)) :
  take_writes m bs (uncurry ItemWrite <$> ws) = (uncurry (chunk_write bs) <$> take m ws, uncurry ItemWrite <$> drop m ws).
Proof.
  revert ws. induction m as [|m IH]; intros [|[t x] ws]; [done..|].
  change (take_writes (S m) bs (uncurry ItemWrite <$> (t, x) :: ws)) with
    (let (chunk, rest) := take_writes m bs (uncurry ItemWrite <$> ws) in (chunk_write bs t x :: chunk, rest)). by rewrite IH.
Qed.

(** A transaction of writes takes the blocks the preflight counts. *)
Lemma pieces_len_writes fuel w bs (ws : list (Z * bytes)) :
  let tags := max_tags_per_descriptor_for_format bs (jw_is_64bit w) (jw_has_checksum w) (jw_tag_format w) in
  1 <= tags → (length ws <= fuel)%nat →
  pieces_len (pieces_of fuel w bs (uncurry ItemWrite <$> ws)) = div_ceil (zlen ws) tags + zlen ws.
Proof.
  intros tags Ht. assert (div_ceil 0 tags = 0) as H0 by (rewrite div_ceil_alt, Z.div_small; lia).
  revert ws. induction fuel as [|fuel IH]; intros ws Hl.
  { destruct ws; [|simpl in Hl; lia]. change (zlen _) with 0. by rewrite H0. }
  destruct ws as [|[t x] ws].
  { change (zlen _) with 0. by rewrite H0. }
  pose proof (take_writes_map (Z.to_nat tags) bs ((t, x) :: ws)) as Htw. cbn [fmap list_fmap uncurry] in Htw. cbn [pieces_of fmap list_fmap uncurry].
  fold tags. rewrite Htw. cbn [pieces_len fold_right piece_len].
  change (fold_right (λ (p : Piece) (acc : Z), piece_len p + acc) 0 ?l) with (pieces_len l).
  rewrite IH by (rewrite length_drop; simpl in *; lia). rewrite (div_ceil_step (zlen ((t, x) :: ws))) by (rewrite ?zlen_cons; pose proof (zlen_nonneg ws); lia).
  assert (Z.max 0 (zlen ((t, x) :: ws) - tags) = zlen (drop (Z.to_nat tags) ((t, x) :: ws))) as -> by (unfold zlen; rewrite length_drop; lia).
  change (chunk_write bs t x :: _) with (uncurry (chunk_write bs) <$> take (Z.to_nat tags) ((t, x) :: ws)).
  unfold zlen. rewrite ?length_fmap, length_take, length_drop. lia.
Qed.

Lemma writes_count (ws : smap bytes) : tx_write_count (writes_transaction ws) = Z.min (zlen ws) usize_max ∧
  tx_revoke_count (writes_transaction ws) = 0.
Proof.
  unfold writes_transaction. assert (∀ txn, 0 <= tx_write_count txn <= usize_max →
    tx_write_count (fold_left (λ txn bd, add_write txn bd.1 bd.2) ws txn) = Z.min (tx_write_count txn + zlen ws) usize_max ∧
    tx_revoke_count (fold_left (λ txn bd, add_write txn bd.1 bd.2) ws txn) = tx_revoke_count txn) as Hall.
  { induction ws as [|[t x] ws IH]; intros txn Ht; [change (zlen _) with 0; simpl; split; [lia|done]|]. pose proof (zlen_nonneg ws).
    simpl. destruct (IH (add_write txn t x)) as [-> ->]; [simpl; unfold saturating_add; lia|].
    split; [|done]. rewrite zlen_cons. simpl. unfold saturating_add. lia. }
  apply (Hall begin_transaction). done.
Qed.

Lemma preflight_fit w bs (ws : smap bytes) : preflight_transaction w bs (writes_transaction ws) = Ok () →
  1 <= max_tags_per_descriptor_for_format bs (jw_is_64bit w) (jw_has_checksum w) (jw_tag_format w) →
  0 <= jw_head w <= jw_total_blocks w → jw_total_blocks w <= u32_max →
  jw_head w + txn_len (txn_pieces w bs (tx_body_items (writes_transaction ws))) <= jw_total_blocks w.
Proof.
  intros Hp Ht Hh Htot. destruct (writes_count ws) as [Hwc Hrc]. rewrite writes_transaction_items. unfold txn_len, txn_pieces.
  rewrite length_fmap, pieces_len_writes by done.
  unfold preflight_transaction in Hp. rewrite Hrc in Hp. destruct (jw_aborted w); [done|]. destruct (bs <? _); [done|].
  destruct (_ && _); [done|]. destruct (_ && _); [done|]. simpl in Hp. destruct (existsb _ _); [done|].
  destruct (Z.ltb_spec (free_blocks w) (blocks_needed_for_format bs (tx_write_count (writes_transaction ws)) 0
    (jw_is_64bit w) (jw_has_checksum w) (jw_tag_format w))) as [|Hle]; [done|]. clear Hp.
  unfold free_blocks, saturating_sub, blocks_needed_for_format in Hle. rewrite Hwc in Hle.
  set (tags := max_tags_per_descriptor_for_format _ _ _ _) in *. rewrite (proj2 (Z.eqb_neq tags 0)), andb_false_r in Hle by lia. simpl in Hle.
  pose proof (zlen_nonneg ws). assert (0 <= div_ceil (zlen ws) tags) by (rewrite div_ceil_alt by lia; apply Z.div_pos; lia).
  unfold saturating_add, usize_max, u64_max, u32_max in *.
  destruct (Z.ltb_spec 0 (Z.min (zlen ws) (2 ^ 64 - 1))).
  - destruct (Z.le_gt_cases (zlen ws) (2 ^ 64 - 1)) as [Hs|Hs]; [rewrite (Z.min_l (zlen ws)) in Hle by done; lia|].
    rewrite (Z.min_r (zlen ws)) in Hle by lia. assert (0 <= div_ceil (2 ^ 64 - 1) tags) by (rewrite div_ceil_alt by lia; apply Z.div_pos; lia). lia.
  - assert (zlen ws = 0) as -> by lia. rewrite div_ceil_alt, Z.div_small in * by lia. lia.
Qed.

(** ** The boundary *)

Section boundary.
Context `{Crc32cStandard}.
Context (total : Z) (verify : bool) (resolve : Z → res JournalError Z) (sbk : Z).
Hypothesis clear : ∀ i, 0 <= i → resolve i ≠ Ok sbk.
Local Notation logged := (logged total verify resolve).
Local Notation quiescent := (quiescent total verify resolve).
Local Notation env_of := (env_of total verify resolve).

Lemma healthy_untorn d : healthy d → untorn d.
Proof. intros Hh torn. rewrite (he_writes _ Hh). apply not_elem_of_nil. Qed.

(** The ext4 superblock can be read. *)
Definition readable (d : Device) : Prop := sbk < dev_block_count d ∧ sbk ∉ dev_unreadable d.

Lemma readable_shape d d' : shape d d' → readable d → readable d'.
Proof. intros [_ Hc Hu]. unfold readable. by rewrite Hc, Hu. Qed.

Lemma flag_succeeds has_csum set_flag d : healthy d → flag_ok sbk d → readable d →
  ∃ d', ext4_write_needs_recovery has_csum set_flag d = Ret (d', Ok ()) ∧ healthy d' ∧ shape d d' ∧ flag_ok sbk d'.
Proof.
  intros Hh Hf [Hr Hu]. destruct (needs_recovery_total sbk has_csum set_flag d (healthy_untorn _ Hh) Hf) as (d'&o&Hn&Hf').
  pose proof Hn as Hn'. unfold ext4_write_needs_recovery, ext4_superblock_location in Hn. rewrite <-(fo_block _ _ Hf) in Hn.
  unfold read_block in Hn. rewrite (proj2 (Z.leb_gt _ _)), bool_decide_eq_false_2 in Hn by done.
  destruct (ext4_patch_needs_recovery _ _ _ _) as [[b' changed]|] eqn:Hp; [|done]. simpl in Hn.
  destruct changed; injection Hn as Hn.
  - apply patch_needs_recovery_size in Hp as [Hz _].
    + destruct (write_block_succeeds sbk b' d Hh) as ([]&d1&Hw&?&?&_); [rewrite Hz; apply Hf|done|]. exists d'.
      assert ((d', o) = (d1, Ok ())) as [= -> ->] by congruence. done.
    + destruct (decide (dev_block_size d = 0)) as [E|]; [rewrite E, Zmod_0_r; done|]. apply Z.mod_pos_bound.
      pose proof (fo_size _ _ Hf). pose proof (zlen_nonneg (block_at d sbk)). lia.
  - simplify_eq. by exists d'.
Qed.

Lemma tail_image_ok sb raw start seq : 1024 <= zlen raw → ∃ raw', tail_image sb raw start seq = Ok raw'.
Proof.
  intros Hr. unfold tail_image, JBD2_SB_SEQUENCE_OFFSET, JBD2_SB_START_OFFSET. case_if; [|by eauto]. unfold stamp_jbd2_superblock_checksum, JBD2_SB_STRUCT_SIZE.
  rewrite !put_length by (rewrite ?put_length; rewrite ?zlen_be_bytes; lia). rewrite (proj2 (Z.ltb_ge _ _)) by done. by eauto.
Qed.

(** A new tail is written over a log whose superblock is intact. *)
Lemma tail_succeeds w sb txns ahead start d0 n0 ws0 : logged w sb txns ahead d0 → Forall (λ wr, wr.1 = sbk) n0 →
  healthy (add_writes d0 n0 ws0) → 1024 <= dev_block_size d0 → 0 <= start <= u32_max →
  ∃ d', write_log_tail w start (jw_next_seq w) (add_writes d0 n0 ws0) = (d', Ok ()) ∧ healthy d' ∧ shape d0 d'.
Proof.
  intros Hlg Hn0 Hh Hbs Hst. pose proof Hlg as [_ Hon _ Hl Hb Hseq _].
  destruct (log_superblock _ _ _ _ _ _ _ Hon) as (a0&raw&Ha0&Hr&Hat&Hp).
  assert (resolve_segment_block (jw_segments w) 0 = Ok a0) as Hseg by (rewrite <-(ll_resolve _ _ Hl) by lia; done).
  assert (read_block a0 (add_writes d0 n0 ws0) = (add_writes d0 n0 ws0, Ok raw)) as Hr0.
  { apply read_added; [done|]. by eapply (not_superblock resolve sbk clear a0 n0 0). }
  assert (a0 < dev_block_count d0) as Hc by (by eapply at_idx_range).
  assert (zlen raw = dev_block_size d0) as Hz.
  { unfold read_block in Hr0. revert Hr0. case_if; [done|]. case_if; [done|]. intros [= <-]. apply (he_sized _ Hh). }
  destruct (tail_image_ok sb raw start (jw_next_seq w)) as [raw' Hi]; [lia|].
  destruct (tail_image_parse _ _ _ _ _ Hp Hseq Hst Hi) as [Hz' _].
  destruct (write_block_succeeds a0 raw' (add_writes d0 n0 ws0) Hh) as ([]&d'&Hw&Hh'&Hs&_); [simpl; lia|done|].
  exists d'. split_and!; [|done|by destruct Hs]. unfold write_log_tail. rewrite (proj2 (Z.eqb_neq _ _)) by lia.
  unfold mbind, devM_bind, lift. rewrite Hseg, Hr0, Hp. simpl. fold (tail_image sb raw start (jw_next_seq w)). by rewrite Hi.
Qed.

Lemma checkpoint_writes_succeed writes d : healthy d →
  Forall (λ bd, zlen bd.2 = dev_block_size d ∧ bd.1 < dev_block_count d) writes →
  ∃ d', checkpoint_writes writes d = (d', Ok ()) ∧ healthy d' ∧ shape d d'.
Proof.
  intros Hh Hf. revert d Hh Hf. induction writes as [|[t x] writes IH]; intros d Hh Hf; [by exists d|].
  apply Forall_cons in Hf as [[Hz Ht] Hf]. destruct (write_block_succeeds t x d Hh Hz Ht) as ([]&d1&Hw&Hh1&[Hs Hc Hu]&_).
  cbn [checkpoint_writes]. rewrite Hw. destruct (IH d1 Hh1) as (d2&->&?&?); [by rewrite Hs, Hc|]. exists d2.
  split_and!; [done|done|]. etrans; [by split|done].
Qed.

Lemma finish_succeeds w sb txns ahead d has_csum : logged w sb txns ahead d → healthy d → flag_ok sbk d → readable d →
  1024 <= dev_block_size d → ∃ d' w', finish_boundary has_csum w d = Ret (d', w', Ok ()).
Proof.
  intros Hlg Hh Hf Hr Hbs. unfold finish_boundary. set (w2 := reset_after_checkpoint w).
  assert (logged w2 sb txns ahead d) as Hlg2.
  { destruct Hlg as [? Hon ? [] ? ? ?]. split; try done. by apply (log_on_format total verify resolve w). }
  assert (add_writes d [] [] = d) as Hd by (rewrite <-(he_writes _ Hh); apply add_writes_none).
  destruct (tail_succeeds w2 sb txns ahead 0 d [] [] Hlg2) as (d1&Hm&Hh1&Hs1); [constructor|by rewrite Hd|done|done|].
  rewrite Hd in Hm. unfold mark_log_empty. rewrite Hm.
  destruct (flag_succeeds has_csum false d1) as (d2&Hn&Hh2&Hs2&_); [done| |by eapply readable_shape|].
  { eapply (tail_flag_ok total verify resolve sbk clear w2); [exact Hlg2|exact (healthy_untorn _ Hh)|done|exact Hm]. }
  rewrite Hn. simpl. destruct (sync_succeeds d2 Hh2) as ([]&d3&->&_). by eauto.
Qed.

(** The log lies on the device. *)
Lemma log_on_device w sb txns ahead d : logged w sb txns ahead d →
  ∀ i, 0 <= i < jw_total_blocks w → ∃ a, resolve_segment_block (jw_segments w) i = Ok a ∧ a < dev_block_count d.
Proof.
  intros [_ Hon _ Hl _ _ _] i Hi. pose proof (ll_total _ _ Hl).
  destruct (lo_rest _ _ _ _ _ Hon i ltac:(lia)) as (b&Hat&_). pose proof Hat as (_&a&Ha&_). exists a.
  rewrite <-(ll_resolve _ _ Hl) by done. split; [done|]. by eapply at_idx_range.
Qed.

Lemma commit_succeeds w sb ahead d d1 writes : quiescent w sb (S ahead) d → healthy d1 → shape d d1 →
  home_writes resolve w (dev_block_size d) (dev_block_count d) writes → dev_block_count d <= u64_max →
  preflight_transaction w (dev_block_size d) (writes_transaction writes) = Ok () →
  ∃ d2 w1 r, commit_transaction w (writes_transaction writes) d1 = (d2, w1, Ok r) ∧ healthy d2 ∧ shape d d2.
Proof.
  intros Hq Hh Hs Hw Hcount Hpre. pose proof (qs_logged _ _ _ _ _ _ _ Hq) as Hlg. pose proof (qs_head _ _ _ _ _ _ _ Hq) as Hhead.
  pose proof Hlg as [_ Hon _ Hl Hb Hseq _]. destruct (lo_params _ _ _ _ _ Hon) as [Hm _ Hseed Hbs H20 Htot Hwin].
  pose proof (ll_total _ _ Hl). assert (jw_total_blocks w <= u32_max) as Htotal by lia.
  destruct (write_phase_succeeds w sb (dev_block_size d) (jw_next_seq w) (dev_block_count d) Hm Hseed Hbs Hseq Htotal Hcount
    (log_on_device _ _ _ _ _ Hlg) (writes_transaction writes) d1) as ([h st]&d2&Hr&Hh2&Hs2&_); try done.
  - apply Hs.
  - apply Hs.
  - lia.
  - by eapply writes_items_ok.
  - apply preflight_fit; [done|apply Hw|lia|done].
  - unfold commit_transaction. rewrite (sh_size _ _ Hs), Hpre, Hr. eexists _, _, _. split_and!; [done|done|by etrans].
Qed.

End boundary.
