(* ===== verification/Jbd2Witness.v ===== *)
(** * JBD2: a concrete journal

    A device of 32 blocks of 1024 bytes with a journal of eight blocks at block 8,
    tag format v3 with checksums. *)

From stdpp Require Import base sorting numbers gmap list.
From S2P Require Import Prelude Sorted Wal WalReplay WalWriter Journal Jbd2 CrcIncr CrcLinear CrcCorrect Jbd2Replay Jbd2Writer Jbd2Codec Jbd2Order Jbd2Log Jbd2Apply Jbd2Commit Jbd2Crash Jbd2Boundary Jbd2Frame Jbd2Super Jbd2System Jbd2Progress.

Local Open Scope Z_scope.

#[local] Existing Instances BitwiseCrc BitwiseCrcAppend BitwiseCrcStandard.

(** ** The journal *)

(** Empty and marked so, or live from block 1 on. *)
Definition jsb_start (live : bool) : Z := if live then 1 else 0.
Definition jsb_raw (live : bool) : bytes :=
  be_bytes 4 JBD2_MAGIC ++ be_bytes 4 JBD2_BLOCKTYPE_SUPERBLOCK_V2 ++ be_bytes 4 0 ++ be_bytes 4 1024 ++ be_bytes 4 8 ++
  be_bytes 4 1 ++ be_bytes 4 5 ++ be_bytes 4 (jsb_start live) ++ zeros 8 ++ be_bytes 4 JBD2_FEATURE_INCOMPAT_CSUM_V3 ++ zeros 980.
Definition sample_sb (live : bool) : Jbd2Superblock :=
  mkJsb 1024 8 1 5 (jsb_start live) 0 0 JBD2_FEATURE_INCOMPAT_CSUM_V3 0 (replicate 16 0).

Definition sample_segments : list JournalSegment := [mkSegment 8 8].
Definition sample_resolve (i : Z) : res JournalError Z := resolve_segment_block sample_segments i.
Definition sample_env (live : bool) : ReplayEnv := env_of 8 true sample_resolve (sample_sb live).
Definition sample_seed : Z := Eval vm_compute in csum_seed (sample_sb true).
Definition sample_writer : Jbd2Writer := mkJwriter sample_segments 8 1 1 5 false false CsumV3 true sample_seed.
Definition sample_device (live : bool) : Device := mkDevice 1024 32 false {[8 := jsb_raw live]} [] ∅ [] [].

Lemma sample_resolves i a : 0 <= i → sample_resolve i = Ok a → 0 <= i < 8 ∧ a = 8 + i.
Proof.
  intros Hi. unfold sample_resolve, sample_segments. simpl. destruct (Z.ltb_spec i 8); [|done].
  unfold checked_add. destruct (Z.leb_spec (8 + i) u64_max); [|done]. simpl. intros [= <-]. lia.
Qed.

Lemma sample_resolve_ok i : 0 <= i < 8 → sample_resolve i = Ok (8 + i).
Proof.
  intros Hi. unfold sample_resolve, sample_segments. simpl. rewrite (proj2 (Z.ltb_lt _ _)) by lia.
  rewrite checked_add_ok by (unfold u64_max; lia). done.
Qed.

#[local] Opaque be_bytes le_bytes zeros.

Lemma sample_block_at live b : block_at (sample_device live) b = if decide (b = 8) then jsb_raw live else zeros 1024.
Proof.
  unfold block_at, dev_blocks, sample_device. cbn [dev_unsynced dev_durable dev_block_size write_all fold_left].
  case_decide; [subst; by rewrite lookup_singleton_eq|by rewrite lookup_singleton_ne].
Qed.

Lemma sample_at live j : 0 <= j < 8 → at_idx (sample_env live) (sample_device live) j (block_at (sample_device live) (8 + j)).
Proof.
  intros Hj. split; [lia|]. exists (8 + j). split; [by apply sample_resolve_ok|]. unfold read_block, sample_device at 1 2.
  cbn [dev_block_count dev_unreadable]. rewrite (proj2 (Z.leb_gt _ _)), bool_decide_eq_false_2 by (lia || set_solver). done.
Qed.

Lemma sample_parse live : parse_superblock (jsb_raw live) = Some (sample_sb live).
Proof. destruct live; vm_compute; reflexivity. Qed.

Lemma sample_fresh live seq : none_commits (sample_env live) seq (sample_device live).
Proof.
  intros j Hj. change ((env_window (sample_env live)).2) with 8 in Hj. exists (block_at (sample_device live) (8 + j)).
  split; [by apply sample_at|]. apply quiet_no_commit. rewrite sample_block_at. case_decide; [by eapply superblock_quiet, sample_parse|].
  intros h. assert (parse_header (zeros 1024) = None) as ->; [vm_compute; reflexivity|done].
Qed.

Lemma sample_seed_u32 : 0 <= sample_seed <= u32_max.
Proof. vm_compute. by split. Qed.

Lemma sample_log live : log_on sample_writer (sample_sb live) (sample_env live) [] (sample_device live).
Proof.
  pose proof sample_seed_u32. split; try done.
  - exists (jsb_raw live). split; [|apply sample_parse]. pose proof (sample_at live 0 ltac:(lia)) as Hat. by rewrite sample_block_at in Hat.
  - by destruct live.
  - by destruct live.
  - intros j Hj. destruct (sample_fresh live (nth_seq 5 0) j Hj) as (b&?&?). by exists b.
Qed.

Lemma sample_layout live : log_layout sample_writer (sample_env live).
Proof.
  split; [done|done|]. intros i j a Hi Hj Ha Hb. apply sample_resolves in Ha as [_ ->], Hb as [_ He]; lia.
Qed.

Lemma sample_logged live ahead : Z.of_nat ahead + 1 < 2 ^ 32 →
  logged 8 true sample_resolve sample_writer (sample_sb live) [] ahead (sample_device live).
Proof.
  intros Ha. split; try done.
  - apply sample_log.
  - intros k _. apply sample_fresh.
  - apply sample_layout.
Qed.

Lemma sample_quiescent ahead : Z.of_nat ahead + 1 < 2 ^ 32 →
  quiescent 8 true sample_resolve sample_writer (sample_sb false) ahead (sample_device false).
Proof. intros Ha. split; [by apply sample_logged|done|done]. Qed.

Lemma sample_ready ahead : Z.of_nat ahead + 1 < 2 ^ 32 →
  writer_ready sample_writer (sample_sb true) (sample_env true) [] ahead (sample_device true).
Proof.
  intros Ha. assert (∀ wr sy, logged 8 true sample_resolve sample_writer (sample_sb true) [] ahead (crashed (sample_device true) [] wr sy)) as Hlg.
  { intros wr sy. apply away_images; [by apply sample_logged|constructor]. }
  split; try done.
  - intros wr sy. apply (Hlg wr sy).
  - intros wr sy k Hk. by apply (Hlg wr sy).
  - apply sample_layout.
Qed.

(** ** Runs *)

Definition sample_payload : bytes := replicate 1024 7.
(** Two writes to block 20 and a revoke of block 21 between them. *)
Definition sample_txn : Jbd2Transaction :=
  add_write (add_revoke (add_write (add_write begin_transaction 20 [1; 2; 3]) 21 [4]) 21) 20 sample_payload.
Definition sample_commit_run : Device * Jbd2Writer * res JournalError (Z * Jbd2WriteStats) :=
  commit_transaction sample_writer sample_txn (sample_device true).

Lemma sample_items_ok : Forall (item_ok sample_writer 1024) (tx_body_items sample_txn).
Proof.
  assert (bytes_ok sample_payload) by (apply Forall_replicate; by compute).
  assert (zlen sample_payload = 1024) by (unfold zlen, sample_payload; by rewrite length_replicate).
  repeat constructor; simpl; try done; try (by vm_compute); lia.
Qed.

Definition sample_ps : list Piece := txn_pieces sample_writer 1024 (tx_body_items sample_txn).

(** The transaction fills the journal to its last block. *)
Lemma sample_commit_ok : match sample_commit_run.2 with Ok (seq, _) => seq = 5 | Err _ => False end.
Proof. vm_compute. reflexivity. Qed.


(** The log is durable, and a replay of it meets a failing write. *)
Definition sample_logged_device : Device := crashed (sync_device sample_commit_run.1.1).1 [] [WriteLanded 0] [].

Lemma sample_syncs : dev_syncs sample_commit_run.1.1 = [].
Proof. vm_compute. reflexivity. Qed.

Lemma sample_logged_on :
  log_on sample_commit_run.1.2 (sample_sb true) (sample_env true) [sample_ps] sample_logged_device.
Proof.
  destruct (commit_transaction_spec sample_writer (sample_sb true) (sample_env true) [] sample_txn 1
    (log_on sample_writer (sample_sb true) (sample_env true) []) (sample_device true)
    sample_commit_run.1.1 sample_commit_run.1.2 sample_commit_run.2) as [_ Hr].
  - by apply sample_ready.
  - by apply log_on_stable; [apply sample_layout|..].
  - intros d0 (kept&wr&sy&Hk&->). apply sublist_nil_r in Hk as ->. by apply (wr_log _ _ _ _ _ _ (sample_ready 0 eq_refl)).
  - intros torn k Hin. by apply not_elem_of_nil in Hin.
  - apply sample_items_ok.
  - unfold sample_commit_run. by destruct (commit_transaction _ _ _) as [[? ?] ?].
  - pose proof sample_commit_ok as Hok. destruct sample_commit_run.2 as [[seq st]|e]; [|by destruct Hok].
    destruct Hr as [_ Hr]. pose proof sample_syncs as Hs. unfold sample_logged_device. set (d2 := sample_commit_run.1.1) in *.
    clearbody d2. clear Hok. destruct (Hr (sync_device d2).1) as [_ Hlog].
    + unfold sync_device. by rewrite Hs.
    + apply Hlog. exists [], [WriteLanded 0], []. split; [apply sublist_nil_l|done].
Qed.

(** It sets block 20, the revoke having cancelled the write to block 21. *)
Lemma sample_effect b : log_effect [sample_ps] !! b = if decide (b = 20) then Some sample_payload else None.
Proof.
  change (log_effect [sample_ps]) with (txn_effect ∅ (pieces_of 4 sample_writer 1024 (tx_body_items sample_txn))).
  destruct (pieces_of_spec 4 sample_writer 1024 (tx_body_items sample_txn)) as [_ Heff]; [done|simpl; lia|apply sample_items_ok|].
  rewrite Heff. cbn [tx_body_items sample_txn add_write add_revoke begin_transaction app fold_left item_effect].
  assert (padded 1024 sample_payload = sample_payload) as -> by (vm_compute; reflexivity).
  case_decide; [subst; by rewrite lookup_insert_eq|]. rewrite lookup_insert_ne by done.
  destruct (decide (b = 21)) as [->|]; [by rewrite lookup_delete_eq|]. rewrite lookup_delete_ne, !lookup_insert_ne by done. done.
Qed.

Lemma sample_count : dev_block_count sample_logged_device = 32.
Proof. vm_compute. reflexivity. Qed.

Definition sample_replay_run : Device * res JournalError Jbd2ReplayOutcome :=
  replay_jbd2_inner 8 true sample_resolve sample_logged_device.

Lemma jbd2_replay_exact_witness :
  ∃ d2 o, replay_jbd2_inner 8 true sample_resolve (set_writes sample_replay_run.1 []) = (d2, Ok o) ∧
    ro_committed_sequences o = [5] ∧ replayed [sample_ps] sample_logged_device d2.
Proof.
  refine (proj2 (jbd2_replay_exact sample_commit_run.1.2 (sample_sb true) 8 true sample_resolve [sample_ps] sample_logged_device
    sample_replay_run.1 sample_replay_run.2 sample_logged_on _ _ _)).
  - intros b. rewrite sample_effect, sample_count. case_decide; [by subst|by intros [x [=]]].
  - intros i a Hi Ha. apply sample_resolves in Ha as [? ->]; [|done]. rewrite sample_effect. case_decide; [lia|done].
  - apply surjective_pairing.
Defined.

(** A truncated descriptor block. *)
Lemma strict_parse_agrees_witness :
  parse_descriptor_tags_strict_with_format [0; 0; 0; 9] true false CsumV3 =
    (if strict_descriptor_tag_count_with_format [0; 0; 0; 9] true false CsumV3
     then Some (parse_descriptor_tags_with_format [0; 0; 0; 9] true false CsumV3) else None) ∧
  ∀ n, strict_descriptor_tag_count_with_format [0; 0; 0; 9] true false CsumV3 = Some n →
    n = zlen (parse_descriptor_tags_with_format [0; 0; 0; 9] true false CsumV3).
Proof. apply strict_parse_agrees. by vm_compute. Defined.

(** ** The boundary *)

Definition sample_writes : smap bytes := [(20, sample_payload)].

Lemma sample_clear i : 0 <= i → sample_resolve i ≠ Ok 1.
Proof. intros Hi Hr. apply sample_resolves in Hr; lia. Qed.

Lemma sample_flag : flag_ok 1 (sample_device false).
Proof.
  split; [done|by vm_compute|rewrite sample_block_at; by vm_compute|rewrite sample_block_at; apply zeros_ok].
Qed.

Lemma sample_home_writes : home_writes sample_resolve sample_writer 1024 32 sample_writes.
Proof.
  split.
  - apply sm_wf_cons. split; [by intros kv ?%elem_of_nil|apply seq_strict_nil].
  - by vm_compute.
  - apply Forall_singleton. simpl. split_and!; [by vm_compute|done|]. intros i Hi Hr. apply sample_resolves in Hr; lia.
  - apply Forall_singleton. simpl. split; [by vm_compute|]. apply Forall_replicate. by compute.
Qed.


Lemma sample_healthy : healthy (sample_device false).
Proof. split; [done|done|]. intros b. rewrite sample_block_at. case_decide; vm_compute; reflexivity. Qed.


(** The preflight accepts it. *)
Example sample_boundary_succeeds :
  match ext4_journal_and_checkpoint true sample_writer sample_writes (sample_device false) with
  | Ret (_, _, _, out) => out = Ok ()
  | Panic => False
  end.
Proof. vm_compute. reflexivity. Qed.

(** ** Alternating writes and revokes *)

Definition alternating : Jbd2Transaction :=
  add_write (add_revoke (add_write (add_revoke (add_write begin_transaction 20 [1]) 21) 22 [2]) 23) 24 [3].
Definition alternating_run : Device * Jbd2Writer * res JournalError (Z * Jbd2WriteStats) :=
  commit_transaction sample_writer alternating (sample_device true).


(** ** A retry after a failed checkpoint *)

(** A journal of sixteen blocks. *)
Definition retry_raw : bytes :=
  be_bytes 4 JBD2_MAGIC ++ be_bytes 4 JBD2_BLOCKTYPE_SUPERBLOCK_V2 ++ be_bytes 4 0 ++ be_bytes 4 1024 ++ be_bytes 4 16 ++
  be_bytes 4 1 ++ be_bytes 4 5 ++ zeros 12 ++ be_bytes 4 JBD2_FEATURE_INCOMPAT_CSUM_V3 ++ zeros 980.
Definition retry_segments : list JournalSegment := [mkSegment 8 16].
Definition retry_writer : Jbd2Writer := mkJwriter retry_segments 16 1 1 5 false false CsumV3 true sample_seed.
(** The second home block of the first checkpoint fails, and so does the first
    log block of the retry. *)
Definition retry_device : Device :=
  mkDevice 1024 32 false {[8 := retry_raw]} [] ∅ (replicate 7 WriteDone ++ [WriteLanded 0; WriteDone; WriteLanded 0]) [].
Definition retry_writes : smap bytes := [(25, sample_payload); (26, sample_payload)].

Definition boundary_state (r : outcome (Device * Jbd2Writer * smap bytes * res BoundaryError ())) :
    Device * Jbd2Writer * option BoundaryError :=
  match r with
  | Ret (d, w, _, Ok _) => (d, w, None)
  | Ret (d, w, _, Err e) => (d, w, Some e)
  | Panic => (retry_device, retry_writer, None)
  end.
Definition retry_first : Device * Jbd2Writer * option BoundaryError :=
  boundary_state (ext4_journal_and_checkpoint false retry_writer retry_writes retry_device).
Definition retry_second : Device * Jbd2Writer * option BoundaryError :=
  boundary_state (ext4_journal_and_checkpoint false retry_first.1.2 retry_writes retry_first.1.1).
(** The power fails, and everything written so far has reached the device. *)
Definition retry_image : Device := crashed retry_second.1.1 (dev_unsynced retry_second.1.1) [] [].
Definition retry_recovered : Device * res JournalError Jbd2ReplayOutcome :=
  replay_jbd2_inner 16 true (resolve_segment_block retry_segments) retry_image.

