(* ===== verification/FastCommit.v ===== *)
(** * Fast commits

    The replay of the fast-commit area of a journal (ffs-journal, lib.rs): the
    tags, the operations they carry, and the scan that collects the operations
    of the committed transactions.  Applying the operations is ffs-core's. *)

From stdpp Require Import base numbers list.
From S2P Require Import Prelude Wal WalWriter Journal Jbd2.

Local Open Scope Z_scope.

(** ** Tags and operations *)

Definition EXT4_FC_SUPPORTED_FEATURES : Z := 0.

Inductive FcTag :=
| TagAddRange | TagDelRange | TagCreat | TagLink | TagUnlink | TagInode | TagPad | TagTail | TagHead.

#[global] Instance FcTag_eq_dec : EqDecision FcTag.
Proof. solve_decision. Defined.

Definition valid_payload_len (tag : FcTag) (len inode_size : Z) : bool :=
  match tag with
  | TagAddRange => len =? 16
  | TagDelRange => len =? 12
  | TagCreat | TagLink | TagUnlink => (9 <=? len) && (len <=? 263)
  | TagInode => (132 <=? len) && (len <=? 4 + inode_size)
  | TagPad => true
  | TagTail => 8 <=? len
  | TagHead => len =? 8
  end.

Definition from_u16 (val : Z) : option FcTag :=
  if val =? 1 then Some TagAddRange
  else if val =? 2 then Some TagDelRange
  else if val =? 3 then Some TagCreat
  else if val =? 4 then Some TagLink
  else if val =? 5 then Some TagUnlink
  else if val =? 6 then Some TagInode
  else if val =? 7 then Some TagPad
  else if val =? 8 then Some TagTail
  else if val =? 9 then Some TagHead
  else None.

Record FcDentry := mkFcDentry { fd_parent_ino : Z; fd_ino : Z; fd_name : bytes }.
Record FcExtentRange := mkFcExtentRange {
  fx_ino : Z;
  fx_logical_block : Z;
  fx_len : Z;
  fx_physical_block : Z;
  fx_unwritten : bool;
}.
Record FcDelRange := mkFcDelRange { fr_ino : Z; fr_logical_block : Z; fr_len : Z }.

Inductive FcOperation :=
| FcCreate (d : FcDentry)
| FcLink (d : FcDentry)
| FcUnlink (d : FcDentry)
| FcAddRange (r : FcExtentRange)
| FcDelete (r : FcDelRange)
| FcInodeUpdate (ino : Z) (raw_inode : bytes).

(** [uN::from_le_bytes] of the [n] bytes of [b] from [off] on, each indexed. *)
Definition le_int (n : Z) (b : bytes) (off : Z) : outcome Z := le_value <$> slice b off (off + n).

Definition EXT_INIT_MAX_LEN : Z := 32768.

Definition parse_dentry (payload : bytes) : outcome FcDentry :=
  parent_ino ← le_int 4 payload 0;
  ino ← le_int 4 payload 4;
  name ← slice_from payload 8;
  Ret (mkFcDentry parent_ino ino name).

Definition parse_add_range (payload : bytes) : outcome FcOperation :=
  ino ← le_int 4 payload 0;
  ee_block ← le_int 4 payload 4;
  ee_len ← le_int 2 payload 8;
  ee_start_hi ← le_int 2 payload 10;
  ee_start_lo ← le_int 4 payload 12;
  let unwritten := EXT_INIT_MAX_LEN <? ee_len in
  let actual_len := if unwritten then ee_len - EXT_INIT_MAX_LEN else ee_len in
  Ret (FcAddRange (mkFcExtentRange ino ee_block actual_len (Z.lor (Z.shiftl ee_start_hi 32) ee_start_lo) unwritten)).

Definition parse_del_range (payload : bytes) : outcome FcOperation :=
  ino ← le_int 4 payload 0;
  logical_block ← le_int 4 payload 4;
  len ← le_int 4 payload 8;
  Ret (FcDelete (mkFcDelRange ino logical_block len)).

(** [cond.then(|| f)]. *)
Definition when {A} (cond : bool) (f : outcome A) : outcome (option A) := if cond then Some <$> f else Ret None.

Definition parse_fc_operation (tag : FcTag) (payload : bytes) : outcome (option FcOperation) :=
  match tag with
  | TagInode =>
      when (4 <=? zlen payload)
        (ino ← le_int 4 payload 0; Ret (FcInodeUpdate ino (drop 4 payload)))
  | TagAddRange => when (16 <=? zlen payload) (parse_add_range payload)
  | TagDelRange => when (12 <=? zlen payload) (parse_del_range payload)
  | TagCreat | TagLink =>
      when (8 <=? zlen payload)
        (dentry ← parse_dentry payload;
         Ret (if bool_decide (tag = TagCreat) then FcCreate dentry else FcLink dentry))
  | TagUnlink => when (8 <=? zlen payload) (dentry ← parse_dentry payload; Ret (FcUnlink dentry))
  | TagHead | TagTail | TagPad => Ret None
  end.

(** ** The scan *)

Record FcReplayResult := mkFcReplayResult {
  fc_operations : list FcOperation;
  fc_last_tid : Z;
  fc_head_tid : option Z;
  fc_blocks_scanned : Z;
  fc_transactions_found : Z;
  fc_incomplete_transactions : Z;
  fc_fallback_required : bool;
}.

Record PendingFcTransaction := mkPendingFc { pf_active : bool; pf_operations : list FcOperation }.

Definition has_pending_work (p : PendingFcTransaction) : bool :=
  pf_active p || negb (bool_decide (pf_operations p = [])).

(** What the scan holds between two tags; [crc] covers the tags since the last
    HEAD or TAIL. *)
Record FcScan := mkFcScan {
  sc_result : FcReplayResult;
  sc_pending : PendingFcTransaction;
  sc_head_tid : option Z;
  sc_crc : Z;
}.

Definition require_fallback (r : FcReplayResult) : FcReplayResult :=
  mkFcReplayResult (fc_operations r) (fc_last_tid r) (fc_head_tid r) (fc_blocks_scanned r)
    (fc_transactions_found r) (fc_incomplete_transactions r) true.

Definition record_incomplete_transaction (r : FcReplayResult) : FcReplayResult :=
  mkFcReplayResult (fc_operations r) (fc_last_tid r) (fc_head_tid r) (fc_blocks_scanned r)
    (fc_transactions_found r) (saturating_add u64_max (fc_incomplete_transactions r) 1) (fc_fallback_required r).

Definition discard_pending_fc_transaction (s : FcScan) : FcScan :=
  if has_pending_work (sc_pending s) then
    mkFcScan (require_fallback (record_incomplete_transaction (sc_result s))) (mkPendingFc false [])
      (sc_head_tid s) (sc_crc s)
  else s.

Definition set_fallback (s : FcScan) : FcScan :=
  mkFcScan (require_fallback (sc_result s)) (sc_pending s) (sc_head_tid s) (sc_crc s).

(** How a tag leaves the loops: on to the next tag, [break 'blocks], or
    [return Ok(result)]. *)
Inductive FcControl := NextTag | BreakBlocks | ReturnResult.

Section crc.
Context `{Crc32cAppend}.

Definition crc_update (crc : Z) (b : bytes) : Z := not32 (crc32c_append (not32 crc) b).

Definition scan_head (tag_bytes payload : bytes) (s : FcScan) : outcome (FcScan * FcControl) :=
  fc_features ← le_int 4 payload 0;
  if negb (Z.land fc_features (not32 EXT4_FC_SUPPORTED_FEATURES) =? 0) then
    Ret (set_fallback (discard_pending_fc_transaction s), NextTag)
  else
    tid ← le_int 4 payload 4;
    if match sc_head_tid s with Some head => negb (head =? tid) | None => false end then Ret (s, ReturnResult)
    else
      let s := discard_pending_fc_transaction s in
      let r := sc_result s in
      let r :=
        mkFcReplayResult (fc_operations r) (fc_last_tid r) (Some tid) (saturating_add u64_max (fc_blocks_scanned r) 1)
          (fc_transactions_found r) (fc_incomplete_transactions r) (fc_fallback_required r) in
      Ret (mkFcScan r (mkPendingFc true (pf_operations (sc_pending s))) (Some tid) (crc_update 0 tag_bytes), NextTag).

Definition scan_tail (data : bytes) (tag_offset : Z) (payload : bytes) (s : FcScan) : outcome (FcScan * FcControl) :=
  match sc_head_tid s with
  | None => Ret (set_fallback s, NextTag)
  | Some head =>
      covered ← slice data tag_offset (tag_offset + 8);
      let crc := crc_update (sc_crc s) covered in
      tid ← le_int 4 payload 0;
      stored ← le_int 4 payload 4;
      let s := mkFcScan (sc_result s) (sc_pending s) (sc_head_tid s) crc in
      if negb (tid =? head) || negb (stored =? crc) then Ret (s, ReturnResult)
      else
        let r := sc_result s in
        let r :=
          mkFcReplayResult (fc_operations r ++ pf_operations (sc_pending s)) tid (fc_head_tid r) (fc_blocks_scanned r)
            (saturating_add u64_max (fc_transactions_found r) 1) (fc_incomplete_transactions r)
            (fc_fallback_required r) in
        Ret (mkFcScan r (mkPendingFc false []) (sc_head_tid s) 0, NextTag)
  end.

Definition scan_operation (tag : FcTag) (tag_bytes payload : bytes) (s : FcScan) : outcome (FcScan * FcControl) :=
  match sc_head_tid s with
  | None => Ret (set_fallback s, NextTag)
  | Some _ =>
      let crc := crc_update (sc_crc s) tag_bytes in
      operation ← parse_fc_operation tag payload;
      match operation with
      | Some operation =>
          Ret (mkFcScan (sc_result s) (mkPendingFc true (pf_operations (sc_pending s) ++ [operation])) (sc_head_tid s) crc,
               NextTag)
      | None =>
          let s := mkFcScan (sc_result s) (mkPendingFc true (pf_operations (sc_pending s))) (sc_head_tid s) crc in
          Ret (set_fallback (discard_pending_fc_transaction s), NextTag)
      end
  end.

(** [tag_bytes] is [data[tag_offset..pos]]. *)
Definition scan_tag (data : bytes) (tag_offset : Z) (tag : FcTag) (tag_bytes payload : bytes) (s : FcScan) :
    outcome (FcScan * FcControl) :=
  match tag with
  | TagHead => scan_head tag_bytes payload s
  | TagTail => scan_tail data tag_offset payload s
  | TagPad =>
      Ret (mkFcScan (sc_result s) (sc_pending s) (sc_head_tid s) (crc_update (sc_crc s) tag_bytes), NextTag)
  | _ => scan_operation tag tag_bytes payload s
  end.

(** The tags of one block, up to [end_]; one iteration advances by four at
    least, so the length of the data is fuel enough. *)
Fixpoint fc_block_loop (fuel : nat) (data : bytes) (inode_size end_ pos : Z) (s : FcScan) :
    outcome (res JournalError (FcScan * FcControl)) :=
  match fuel with
  | O => Ret (Ok (s, NextTag))
  | S fuel' =>
      if pos + 4 <=? end_ then
        let tag_offset := pos in
        tag_type ← le_int 2 data pos;
        tag_len ← le_int 2 data (pos + 2);
        if (tag_type =? 0) && (tag_len =? 0) then
          rest ← slice_from data pos;
          Ret (Ok (if existsb (λ byte, negb (byte =? 0)) rest then set_fallback (discard_pending_fc_transaction s) else s,
                   BreakBlocks))
        else
          let pos := pos + 4 in
          if end_ <? pos + tag_len then Ret (Ok (set_fallback (discard_pending_fc_transaction s), BreakBlocks))
          else
            payload ← slice data pos (pos + tag_len);
            let pos := pos + tag_len in
            match from_u16 tag_type with
            | None => Ret (Ok (set_fallback (discard_pending_fc_transaction s), BreakBlocks))
            | Some tag =>
                if negb (valid_payload_len tag tag_len inode_size) then Ret (Err (Corruption 0))
                else
                  tag_bytes ← slice data tag_offset pos;
                  '(s, control) ← scan_tag data tag_offset tag tag_bytes payload s;
                  match control with
                  | NextTag => fc_block_loop fuel' data inode_size end_ pos s
                  | _ => Ret (Ok (s, control))
                  end
            end
      else Ret (Ok (s, NextTag))
  end.

(** [(0..data.len()).step_by(block_size)]; there are no more blocks than bytes.
    No sum of these loops overflows: a slice has at most [isize::MAX] bytes, and
    past the first block [block_size] is at most the length. *)
Fixpoint fc_blocks_loop (fuel : nat) (data : bytes) (block_size inode_size block_start : Z) (s : FcScan) :
    outcome (res JournalError (FcScan * FcControl)) :=
  match fuel with
  | O => Ret (Ok (s, NextTag))
  | S fuel' =>
      if block_start <? zlen data then
        let end_ := Z.min (block_start + block_size) (zlen data) in
        r ← fc_block_loop (length data) data inode_size end_ block_start s;
        match r with
        | Err e => Ret (Err e)
        | Ok (s, NextTag) => fc_blocks_loop fuel' data block_size inode_size (block_start + block_size) s
        | Ok (s, control) => Ret (Ok (s, control))
        end
      else Ret (Ok (s, NextTag))
  end.

Definition fc_start : FcScan := mkFcScan (mkFcReplayResult [] 0 None 0 0 0 false) (mkPendingFc false []) None 0.

Definition replay_fast_commit (data : bytes) (block_size inode_size : Z) : outcome (res JournalError FcReplayResult) :=
  r ← fc_blocks_loop (length data) data (Z.max block_size 1) inode_size 0 fc_start;
  match r with
  | Err e => Ret (Err e)
  | Ok (s, ReturnResult) => Ret (Ok (sc_result s))
  | Ok (s, _) => Ret (Ok (sc_result (discard_pending_fc_transaction s)))
  end.
End crc.
