(* ===== verification/FastCommitCorrect.v ===== *)
(** * Fast commits: exactness of the replay

    The tags of a stream, what a reader should take from them, and that the scan
    takes exactly that. *)

From stdpp Require Import base numbers list.
From S2P Require Import Prelude Wal WalWriter Journal Jbd2 FastCommit.

Local Open Scope Z_scope.

(** ** Fields *)

Lemma split_field (n : nat) p : bytes_ok p → Z.of_nat n <= zlen p →
  ∃ x rest, p = le_bytes n x ++ rest ∧ 0 <= x < 256 ^ Z.of_nat n ∧ bytes_ok rest ∧ zlen rest = zlen p - Z.of_nat n.
Proof.
  intros Hp Hn. exists (le_value (take n p)), (drop n p).
  assert (length (take n p) = n) as Hl by (rewrite length_take; unfold zlen in Hn; lia).
  destruct (le_field n (take n p)) as [? Hv]; [by apply Forall_take|done|].
  rewrite Hv. split_and!; [by rewrite take_drop|lia|lia|by apply Forall_drop|].
  unfold zlen in *. rewrite length_drop. lia.
Qed.

Lemma le_int_at (n : nat) x pre post off : zlen pre = off → 0 <= x < 256 ^ Z.of_nat n →
  le_int (Z.of_nat n) (pre ++ le_bytes n x ++ post) off = Ret x.
Proof.
  intros Ho Hx. unfold le_int. rewrite slice_app; [|done|by rewrite zlen_le_bytes].
  cbn. by rewrite le_value_bytes.
Qed.

Lemma le_int_4 x pre post off : zlen pre = off → 0 <= x <= u32_max →
  le_int 4 (pre ++ le_bytes 4 x ++ post) off = Ret x.
Proof. intros Ho Hx. apply (le_int_at 4); [done|]. unfold u32_max in Hx. lia. Qed.
Lemma le_int_2 x pre post off : zlen pre = off → 0 <= x <= u16_max →
  le_int 2 (pre ++ le_bytes 2 x ++ post) off = Ret x.
Proof. intros Ho Hx. apply (le_int_at 2); [done|]. unfold u16_max in Hx. lia. Qed.
Lemma le_int_4_end x pre off : zlen pre = off → 0 <= x <= u32_max →
  le_int 4 (pre ++ le_bytes 4 x) off = Ret x.
Proof. intros Ho Hx. rewrite <-(app_nil_r (le_bytes 4 x)). by apply le_int_4. Qed.
Lemma le_int_4_start x post : 0 <= x <= u32_max → le_int 4 (le_bytes 4 x ++ post) 0 = Ret x.
Proof. by apply (le_int_4 x []). Qed.

Lemma lor_halves x : 0 <= x → Z.lor (Z.shiftl (x / 2 ^ 32) 32) (x mod 2 ^ 32) = x.
Proof.
  intros Hx. apply Z.bits_inj'. intros i Hi. rewrite Z.lor_spec, Z.shiftl_spec by done.
  destruct (Z.ltb_spec i 32).
  - by rewrite (Z.testbit_neg_r _ (i - 32)), Z.mod_pow2_bits_low by lia.
  - rewrite Z.mod_pow2_bits_high, Z.div_pow2_bits by lia. rewrite orb_false_r. f_equal. lia.
Qed.

(** ** Tags of a stream *)

Definition fc_tag : Type := Z * bytes.

Definition tag_image (t : fc_tag) : bytes := le_bytes 2 t.1 ++ le_bytes 2 (zlen t.2) ++ t.2.
Definition tags_image (ts : list fc_tag) : bytes := concat (tag_image <$> ts).

Definition tag_ok (t : fc_tag) : Prop :=
  0 <= t.1 <= u16_max ∧ zlen t.2 <= u16_max ∧ bytes_ok t.2 ∧ ¬ (t.1 = 0 ∧ zlen t.2 = 0).

(** What comes after the last tag of a block: too few bytes for another, a zero
    tag, or a tag that does not fit the block. *)
Inductive block_end :=
| BlockFull
| BlockZero (rest : bytes)
| BlockCut.

Inductive block_tags : bytes → list fc_tag → block_end → Prop :=
| bt_full b : zlen b < 4 → block_tags b [] BlockFull
| bt_zero rest : block_tags (le_bytes 2 0 ++ le_bytes 2 0 ++ rest) [] (BlockZero rest)
| bt_cut ty len rest : 0 <= ty <= u16_max → zlen rest < len <= u16_max →
    block_tags (le_bytes 2 ty ++ le_bytes 2 len ++ rest) [] BlockCut
| bt_tag t b ts e : tag_ok t → block_tags b ts e → block_tags (tag_image t ++ b) (t :: ts) e.

(** The tags of the blocks of [bs] bytes of a stream, up to where it ends; it
    ends clean where the blocks do, or at a zero tag with only zeros behind. *)
Inductive fc_stream (bs : nat) : bytes → list fc_tag → bool → Prop :=
| fs_done : fc_stream bs [] [] true
| fs_full data ts ts' clean : data ≠ [] → block_tags (take bs data) ts BlockFull →
    fc_stream bs (drop bs data) ts' clean → fc_stream bs data (ts ++ ts') clean
| fs_zero data ts rest : data ≠ [] → block_tags (take bs data) ts (BlockZero rest) →
    fc_stream bs data ts (is_all_zero (rest ++ drop bs data))
| fs_cut data ts : data ≠ [] → block_tags (take bs data) ts BlockCut → fc_stream bs data ts false.

(** ** What the tags say *)

(** An operation as the tag that carries it. *)
Definition dentry_payload (d : FcDentry) : bytes :=
  le_bytes 4 (fd_parent_ino d) ++ le_bytes 4 (fd_ino d) ++ fd_name d.
Definition op_tag (op : FcOperation) : fc_tag :=
  match op with
  | FcAddRange r =>
      (1, le_bytes 4 (fx_ino r) ++ le_bytes 4 (fx_logical_block r) ++
          le_bytes 2 (if fx_unwritten r then fx_len r + 32768 else fx_len r) ++
          le_bytes 2 (fx_physical_block r / 2 ^ 32) ++ le_bytes 4 (fx_physical_block r mod 2 ^ 32))
  | FcDelete r => (2, le_bytes 4 (fr_ino r) ++ le_bytes 4 (fr_logical_block r) ++ le_bytes 4 (fr_len r))
  | FcCreate d => (3, dentry_payload d)
  | FcLink d => (4, dentry_payload d)
  | FcUnlink d => (5, dentry_payload d)
  | FcInodeUpdate ino raw => (6, le_bytes 4 ino ++ raw)
  end.

Definition is_u32 (x : Z) : Prop := 0 <= x <= u32_max.

Definition dentry_ok (d : FcDentry) : Prop :=
  is_u32 (fd_parent_ino d) ∧ is_u32 (fd_ino d) ∧ bytes_ok (fd_name d) ∧ 1 <= zlen (fd_name d) <= 255.
Definition fc_op_ok (inode_size : Z) (op : FcOperation) : Prop :=
  match op with
  | FcAddRange r =>
      is_u32 (fx_ino r) ∧ is_u32 (fx_logical_block r) ∧ 0 <= fx_physical_block r < 2 ^ 48 ∧
      (if fx_unwritten r then 1 <= fx_len r <= 32767 else 0 <= fx_len r <= 32768)
  | FcDelete r => is_u32 (fr_ino r) ∧ is_u32 (fr_logical_block r) ∧ is_u32 (fr_len r)
  | FcCreate d | FcLink d | FcUnlink d => dentry_ok d
  | FcInodeUpdate ino raw => is_u32 ino ∧ bytes_ok raw ∧ 128 <= zlen raw <= inode_size
  end.

(** The items of a transaction: operations, and pads that end a block. *)
Inductive fc_item :=
| ItemOp (op : FcOperation)
| ItemPad (p : bytes).

Definition item_tag (i : fc_item) : fc_tag := match i with ItemOp op => op_tag op | ItemPad p => (7, p) end.
Definition item_ops (items : list fc_item) : list FcOperation :=
  omap (λ i, match i with ItemOp op => Some op | ItemPad _ => None end) items.
Definition fc_item_ok (inode_size : Z) (i : fc_item) : Prop :=
  match i with ItemOp op => fc_op_ok inode_size op | ItemPad _ => True end.

Definition head_tag (tid : Z) : fc_tag := (9, le_bytes 4 0 ++ le_bytes 4 tid).
Definition tail_tag (tid crc : Z) (pad : bytes) : fc_tag := (8, le_bytes 4 tid ++ le_bytes 4 crc ++ pad).
(** The part of a TAIL under its checksum. *)
Definition tail_covered (tid : Z) (pad : bytes) : bytes :=
  le_bytes 2 8 ++ le_bytes 2 (8 + zlen pad) ++ le_bytes 4 tid.

Section spec.
Context `{Crc32cAppend}.
Variable inode_size : Z.

(** [fc_open h pre tid covered ops]: with [h] the cycle so far, [pre] is the
    part of a transaction of the cycle [tid] before its TAIL; its checksum covers
    [covered]. *)
Inductive fc_open : option Z → list fc_tag → Z → bytes → list FcOperation → Prop :=
| open_next tid items : is_u32 tid → Forall (fc_item_ok inode_size) items →
    fc_open (Some tid) (item_tag <$> items) tid (tags_image (item_tag <$> items)) (item_ops items)
| open_head h tid pads items : h = None ∨ h = Some tid → is_u32 tid → Forall (fc_item_ok inode_size) items →
    fc_open h ((item_tag ∘ ItemPad <$> pads) ++ head_tag tid :: (item_tag <$> items)) tid
      (tags_image (head_tag tid :: (item_tag <$> items))) (item_ops items).

(** The committed transactions of a stream that needs no fallback: it ends
    between transactions, at a TAIL that does not match, or at a HEAD of another
    cycle. *)
Inductive fc_reads : option Z → list fc_tag → bool → list (list FcOperation) → option Z → Prop :=
| reads_end h pads : fc_reads h (item_tag ∘ ItemPad <$> pads) true [] h
| reads_commit h pre tid covered ops pad rest clean txns h' : fc_open h pre tid covered ops →
    fc_reads (Some tid) rest clean txns h' →
    fc_reads h (pre ++ tail_tag tid (crc_update 0 (covered ++ tail_covered tid pad)) pad :: rest) clean (ops :: txns) h'
| reads_torn h pre tid covered ops tid' crc pad rest clean : fc_open h pre tid covered ops →
    is_u32 tid' → is_u32 crc → ¬ (tid' = tid ∧ crc = crc_update 0 (covered ++ tail_covered tid' pad)) →
    fc_reads h (pre ++ tail_tag tid' crc pad :: rest) clean [] (Some tid)
| reads_stale h pre tid covered ops tid' rest clean : fc_open h pre tid covered ops →
    is_u32 tid' → tid' ≠ tid →
    fc_reads h (pre ++ head_tag tid' :: rest) clean [] (Some tid).
End spec.

(** ** Operations and their tags *)

Definition is_op_tag (tag : FcTag) : bool :=
  match tag with TagHead | TagTail | TagPad => false | _ => true end.

Ltac field_sizes := autorewrite with zlen; unfold u16_max, u32_max in *; lia.

Lemma parse_dentry_payload d : dentry_ok d → parse_dentry (dentry_payload d) = Ret d.
Proof.
  destruct d as [parent ino name]. intros (Hp&Hi&_). unfold parse_dentry, dentry_payload. cbn [fd_parent_ino fd_ino fd_name].
  rewrite le_int_4_start by done. cbn [mbind outcome_bind].
  rewrite (le_int_4 ino (le_bytes 4 parent) _ 4) by done. cbn [mbind outcome_bind].
  by rewrite app_assoc, (slice_from_app _ _ 8) by done.
Qed.

Lemma dentry_covers p : bytes_ok p → 9 <= zlen p <= 263 → ∃ d, dentry_ok d ∧ p = dentry_payload d.
Proof.
  intros Hp Hl. destruct (split_field 4 p) as (a&p1&->&Ha&H1&L1); [done|lia|].
  destruct (split_field 4 p1) as (b&p2&->&Hb&H2&L2); [done|lia|].
  exists (mkFcDentry a b p2). split; [|done]. unfold dentry_ok, is_u32, u32_max. cbn.
  rewrite zlen_app, zlen_app, !zlen_le_bytes in Hl. split_and!; [lia..|done|lia|lia].
Qed.

Lemma add_range_parses r : fc_op_ok 0 (FcAddRange r) → parse_add_range (op_tag (FcAddRange r)).2 = Ret (FcAddRange r).
Proof.
  destruct r as [ino block len phys unw]. unfold fc_op_ok, op_tag, parse_add_range.
  cbn [fx_ino fx_logical_block fx_len fx_physical_block fx_unwritten snd]. intros (Hi&Hb&Hp&Hl).
  set (ee := if unw then len + 32768 else len).
  assert (0 <= ee <= u16_max) by (unfold ee, u16_max; destruct unw; lia).
  assert (0 <= phys / 2 ^ 32 <= u16_max) by (unfold u16_max; split; [apply Z.div_pos; lia|];
    enough (phys / 2 ^ 32 < 2 ^ 16) by lia; apply Z.div_lt_upper_bound; lia).
  assert (0 <= phys mod 2 ^ 32 <= u32_max) by (unfold u32_max; pose proof (Z.mod_pos_bound phys (2 ^ 32)); lia).
  rewrite le_int_4_start by done. cbn [mbind outcome_bind].
  rewrite (le_int_4 block (le_bytes 4 ino) _ 4) by done. cbn [mbind outcome_bind].
  rewrite app_assoc, (le_int_2 ee (le_bytes 4 ino ++ le_bytes 4 block) _ 8) by done. cbn [mbind outcome_bind].
  rewrite app_assoc, (le_int_2 _ ((le_bytes 4 ino ++ le_bytes 4 block) ++ le_bytes 2 ee) _ 10) by done. cbn [mbind outcome_bind].
  rewrite app_assoc, (le_int_4_end _ (((le_bytes 4 ino ++ le_bytes 4 block) ++ le_bytes 2 ee) ++ le_bytes 2 (phys / 2 ^ 32)) 12) by done.
  cbn [mbind outcome_bind]. do 2 f_equal. unfold EXT_INIT_MAX_LEN.
  rewrite lor_halves by lia.
  subst ee. destruct unw.
  - rewrite (proj2 (Z.ltb_lt _ _)) by lia. f_equal. lia.
  - rewrite (proj2 (Z.ltb_ge _ _)) by lia. done.
Qed.

Definition tag_value (tag : FcTag) : Z :=
  match tag with
  | TagAddRange => 1 | TagDelRange => 2 | TagCreat => 3 | TagLink => 4 | TagUnlink => 5 | TagInode => 6
  | TagPad => 7 | TagTail => 8 | TagHead => 9
  end.

Lemma from_u16_value ty tag : from_u16 ty = Some tag ↔ ty = tag_value tag.
Proof.
  split.
  - unfold from_u16. repeat case_if; intros [= <-]; done.
  - intros ->. by destruct tag.
Qed.

Lemma op_parses inode_size op : fc_op_ok inode_size op →
  ∃ tag, from_u16 (op_tag op).1 = Some tag ∧ is_op_tag tag = true ∧
    valid_payload_len tag (zlen (op_tag op).2) inode_size = true ∧
    parse_fc_operation tag (op_tag op).2 = Ret (Some op).
Proof.
  assert (∀ d, dentry_ok d → 9 <= zlen (dentry_payload d) <= 263) as Hd.
  { intros d (_&_&_&?). unfold dentry_payload. autorewrite with zlen. lia. }
  destruct op as [d|d|d|r|r|ino raw]; intros Hop.
  1-3: pose proof (Hd d Hop); pose proof (parse_dentry_payload d Hop) as Hpd.
  1: exists TagCreat. 2: exists TagLink. 3: exists TagUnlink. 4: exists TagAddRange. 5: exists TagDelRange.
  6: exists TagInode.
  1-3: cbn [op_tag fst snd]; split_and!; [done|done| |]; cbn [valid_payload_len parse_fc_operation]; unfold when;
    [rewrite andb_true_iff; rewrite !Z.leb_le; lia|]; rewrite (proj2 (Z.leb_le _ _)) by lia; by rewrite Hpd.
  - pose proof (add_range_parses r Hop) as Hr.
    assert (zlen (op_tag (FcAddRange r)).2 = 16) as Hz by (cbn [op_tag snd]; autorewrite with zlen; lia).
    split_and!; [done|done|cbn [valid_payload_len]; by rewrite Hz|].
    cbn [parse_fc_operation]. unfold when. rewrite Hz. cbn [Z.leb Z.compare]. rewrite Hr. done.
  - destruct r as [ino block len]. destruct Hop as (?&?&?). cbn [fr_ino fr_logical_block fr_len] in *.
    split_and!; [done|done|done|]. cbn [op_tag snd parse_fc_operation fr_ino fr_logical_block fr_len].
    unfold when. rewrite (proj2 (Z.leb_le _ _)) by (autorewrite with zlen; lia). unfold parse_del_range.
    rewrite le_int_4_start by done. cbn [mbind outcome_bind]. rewrite (le_int_4 block (le_bytes 4 ino) _ 4) by done.
    cbn [mbind outcome_bind]. by rewrite app_assoc, (le_int_4_end len (le_bytes 4 ino ++ le_bytes 4 block) 8) by done.
  - destruct Hop as (?&?&?). cbn [op_tag fst snd]. split_and!; [done|done| |];
      cbn [valid_payload_len parse_fc_operation]; rewrite zlen_app, zlen_le_bytes.
    + rewrite andb_true_iff, !Z.leb_le. lia.
    + unfold when. rewrite (proj2 (Z.leb_le _ _)) by lia. by rewrite le_int_4_start by done.
Qed.

Lemma add_range_covers p : bytes_ok p → zlen p = 16 → ∃ r, fc_op_ok 0 (FcAddRange r) ∧ (1, p) = op_tag (FcAddRange r).
Proof.
  intros Hp Hl. destruct (split_field 4 p) as (ino&p1&->&Hi&H1&L1); [done|lia|].
  destruct (split_field 4 p1) as (block&p2&->&Hb&H2&L2); [done|lia|].
  destruct (split_field 2 p2) as (ee&p3&->&He&H3&L3); [done|lia|].
  destruct (split_field 2 p3) as (hi&p4&->&Hh&H4&L4); [done|lia|].
  destruct (split_field 4 p4) as (lo&p5&->&Hlo&H5&L5); [done|lia|].
  assert (p5 = []) as -> by (apply length_zero_iff_nil; unfold zlen in *; lia). rewrite app_nil_r.
  exists (mkFcExtentRange ino block (if 32768 <? ee then ee - 32768 else ee) (hi * 2 ^ 32 + lo) (32768 <? ee)).
  unfold fc_op_ok, op_tag, is_u32, u32_max. cbn [fx_ino fx_logical_block fx_len fx_physical_block fx_unwritten].
  change (256 ^ Z.of_nat 4) with (2 ^ 32) in *. change (256 ^ Z.of_nat 2) with (2 ^ 16) in *.
  split; [split_and!; [lia..|]; destruct (Z.ltb_spec 32768 ee); lia|].
  rewrite Z.div_add_l, (Z.div_small lo), Z.add_0_r by lia.
  rewrite (Z.add_comm (hi * 2 ^ 32)), Z.mod_add, (Z.mod_small lo) by lia.
  by destruct (Z.ltb_spec 32768 ee); rewrite ?Z.sub_add.
Qed.

Lemma op_covers inode_size tag p : bytes_ok p → is_op_tag tag = true → valid_payload_len tag (zlen p) inode_size = true →
  ∃ op, fc_op_ok inode_size op ∧ (tag_value tag, p) = op_tag op.
Proof.
  intros Hp. destruct tag; intros Ho; try done; cbn [valid_payload_len tag_value]; intros Hv;
    rewrite ?andb_true_iff, ?Z.leb_le, ?Z.eqb_eq in Hv.
  - destruct (add_range_covers p) as (r&Hr&->); [done..|]. by exists (FcAddRange r).
  - destruct (split_field 4 p) as (ino&p1&->&Hi&H1&L1); [done|lia|].
    destruct (split_field 4 p1) as (block&p2&->&Hb&H2&L2); [done|lia|].
    destruct (split_field 4 p2) as (len&p3&->&Hl&H3&L3); [done|lia|].
    assert (p3 = []) as -> by (apply length_zero_iff_nil; unfold zlen in *; lia). rewrite app_nil_r.
    exists (FcDelete (mkFcDelRange ino block len)). split; [|done].
    cbn. unfold is_u32, u32_max. lia.
  - destruct (dentry_covers p) as (d&Hd&->); [done..|]. by exists (FcCreate d).
  - destruct (dentry_covers p) as (d&Hd&->); [done..|]. by exists (FcLink d).
  - destruct (dentry_covers p) as (d&Hd&->); [done..|]. by exists (FcUnlink d).
  - destruct (split_field 4 p) as (ino&raw&->&Hi&H1&L1); [done|lia|].
    rewrite zlen_app, zlen_le_bytes in Hv. exists (FcInodeUpdate ino raw). split; [|done].
    cbn. unfold is_u32, u32_max. split_and!; [lia|lia|done|lia|lia].
Qed.

(** ** The scan, tag by tag *)

Lemma zlen_tag_image t : zlen (tag_image t) = 4 + zlen t.2.
Proof. unfold tag_image. autorewrite with zlen. lia. Qed.

Lemma existsb_all_zero b : existsb (λ byte, negb (byte =? 0)) b = negb (is_all_zero b).
Proof. unfold is_all_zero. induction b as [|x b IH]; [done|]. cbn. rewrite IH. by destruct (x =? 0). Qed.

Section run.
Context `{Crc32cAppend}.
Variable inode_size : Z.

Definition tag_step (t : fc_tag) (s : FcScan) : outcome (res JournalError (FcScan * FcControl)) :=
  match from_u16 t.1 with
  | None => Ret (Ok (set_fallback (discard_pending_fc_transaction s), BreakBlocks))
  | Some tag =>
      if negb (valid_payload_len tag (zlen t.2) inode_size) then Ret (Err (Corruption 0))
      else r ← scan_tag (tag_image t) 0 tag (tag_image t) t.2 s; Ret (Ok r)
  end.

Fixpoint tags_run (ts : list fc_tag) (s : FcScan) : outcome (res JournalError (FcScan * FcControl)) :=
  match ts with
  | [] => Ret (Ok (s, NextTag))
  | t :: ts' =>
      r ← tag_step t s;
      match r with
      | Ok (s, NextTag) => tags_run ts' s
      | _ => Ret r
      end
  end.

Lemma tags_run_app ts ts' s :
  tags_run (ts ++ ts') s =
    (r ← tags_run ts s; match r with Ok (s, NextTag) => tags_run ts' s | _ => Ret r end).
Proof.
  revert s. induction ts as [|t ts IH]; intros s; [done|]. cbn [app tags_run].
  destruct (tag_step t s) as [[[s' []]|]|]; try done. apply IH.
Qed.

Lemma scan_tag_local before after tag t s : valid_payload_len tag (zlen t.2) inode_size = true →
  scan_tag (before ++ tag_image t ++ after) (zlen before) tag (tag_image t) t.2 s =
  scan_tag (tag_image t) 0 tag (tag_image t) t.2 s.
Proof.
  intros Hv. destruct tag; try done. cbn [scan_tag valid_payload_len] in *. apply Z.leb_le in Hv.
  unfold scan_tail. destruct (sc_head_tid s); [|done].
  assert (zlen (take 8 (tag_image t)) = 8) as Hz
    by (pose proof (zlen_tag_image t); unfold zlen in *; rewrite length_take; lia).
  pose proof (take_drop 8 (tag_image t)) as Hs.
  pose proof (slice_app before (take 8 (tag_image t)) (drop 8 (tag_image t) ++ after) (zlen before) (zlen before + 8)) as H1.
  pose proof (slice_app [] (take 8 (tag_image t)) (drop 8 (tag_image t)) 0 (0 + 8)) as H2.
  rewrite (app_assoc (take 8 _)), Hs in H1. cbn [app] in H2. rewrite Hs in H2.
  by rewrite H1, H2 by (rewrite ?Hz; done).
Qed.

Definition block_ending (e : block_end) (after : bytes) (s : FcScan) : FcScan * FcControl :=
  match e with
  | BlockFull => (s, NextTag)
  | BlockZero rest =>
      (if is_all_zero (rest ++ after) then s else set_fallback (discard_pending_fc_transaction s), BreakBlocks)
  | BlockCut => (set_fallback (discard_pending_fc_transaction s), BreakBlocks)
  end.

Lemma block_loop_tag fuel before t b after s : tag_ok t →
  fc_block_loop (S fuel) (before ++ (tag_image t ++ b) ++ after) inode_size (zlen before + zlen (tag_image t ++ b))
    (zlen before) s =
    (r ← tag_step t s;
     match r with
     | Ok (s, NextTag) =>
         fc_block_loop fuel ((before ++ tag_image t) ++ b ++ after) inode_size
           (zlen (before ++ tag_image t) + zlen b) (zlen (before ++ tag_image t)) s
     | _ => Ret r
     end).
Proof.
  destruct t as [ty p]. intros (Hty&Hlen&_&Hnz). cbn [fst snd] in *. pose proof (zlen_nonneg p). pose proof (zlen_nonneg b).
  pose proof (zlen_tag_image (ty, p)) as Hz. cbn [snd] in Hz.
  cbn [fc_block_loop]. rewrite (proj2 (Z.leb_le _ _)) by (rewrite zlen_app; lia).
  assert (le_int 2 (before ++ (tag_image (ty, p) ++ b) ++ after) (zlen before) = Ret ty) as ->.
  { unfold tag_image. rewrite <-!app_assoc. by apply le_int_2. }
  assert (le_int 2 (before ++ (tag_image (ty, p) ++ b) ++ after) (zlen before + 2) = Ret (zlen p)) as ->.
  { unfold tag_image. rewrite <-!app_assoc. cbn [fst snd]. rewrite (app_assoc before).
    apply le_int_2; [by rewrite zlen_app, zlen_le_bytes|done]. }
  cbn [mbind outcome_bind]. replace ((ty =? 0) && (zlen p =? 0)) with false
    by (symmetry; apply andb_false_iff; rewrite !Z.eqb_neq; lia).
  rewrite (proj2 (Z.ltb_ge _ _)) by (rewrite zlen_app; lia).
  assert (slice (before ++ (tag_image (ty, p) ++ b) ++ after) (zlen before + 4) (zlen before + 4 + zlen p) = Ret p) as ->.
  { unfold tag_image. cbn [fst snd]. rewrite <-!app_assoc, (app_assoc before), (app_assoc (before ++ _)).
    apply slice_app; [|done]. autorewrite with zlen. lia. }
  cbn [mbind outcome_bind]. unfold tag_step. cbn [fst snd]. destruct (from_u16 ty) as [tag|]; [|done].
  destruct (valid_payload_len tag (zlen p) inode_size) eqn:Hv; [|done]. cbn [negb].
  rewrite <-app_assoc, (slice_app before (tag_image (ty, p)) (b ++ after)) by lia. cbn [mbind outcome_bind].
  rewrite (scan_tag_local before (b ++ after) tag (ty, p)) by done. cbn [snd].
  destruct (scan_tag _ 0 tag _ p s) as [[s' []]|]; try done. cbn [mbind outcome_bind].
  rewrite <-app_assoc. f_equal; rewrite !zlen_app; lia.
Qed.

Lemma block_loop_tags b ts e : block_tags b ts e → ∀ fuel before after s, (length b <= fuel)%nat →
  fc_block_loop fuel (before ++ b ++ after) inode_size (zlen before + zlen b) (zlen before) s =
    (r ← tags_run ts s; match r with Ok (s, NextTag) => Ret (Ok (block_ending e after s)) | _ => Ret r end).
Proof.
  induction 1 as [b Hb|rest|ty len rest Hty Hlen|t b ts e Ht _ IH]; intros fuel before after s Hf.
  - destruct fuel; [done|]. cbn [fc_block_loop tags_run block_ending]. by rewrite (proj2 (Z.leb_gt _ _)) by lia.
  - destruct fuel; [cbn in Hf; lia|]. pose proof (zlen_nonneg rest).
    cbn [fc_block_loop tags_run block_ending]. rewrite (proj2 (Z.leb_le _ _)) by (autorewrite with zlen; lia).
    rewrite <-!app_assoc, (le_int_2 0 before _ (zlen before)) by (done || (unfold u16_max; lia)).
    rewrite (app_assoc before), le_int_2
      by (rewrite ?zlen_app, ?zlen_le_bytes; unfold u16_max; lia). cbn [mbind outcome_bind]. rewrite <-app_assoc, slice_from_app by done.
    cbn [Z.eqb andb mbind outcome_bind]. rewrite existsb_all_zero.
    change (is_all_zero (le_bytes 2 0 ++ le_bytes 2 0 ++ rest ++ after)) with (is_all_zero (rest ++ after)).
    by destruct (is_all_zero (rest ++ after)).
  - destruct fuel; [cbn in Hf; lia|]. pose proof (zlen_nonneg rest).
    cbn [fc_block_loop tags_run block_ending]. rewrite (proj2 (Z.leb_le _ _)) by (autorewrite with zlen; lia).
    rewrite <-!app_assoc, (le_int_2 ty before _ (zlen before)) by done.
    rewrite (app_assoc before), le_int_2
      by (rewrite ?zlen_app, ?zlen_le_bytes; lia). cbn [mbind outcome_bind].
    replace (len =? 0) with false by (symmetry; apply Z.eqb_neq; lia). rewrite andb_false_r.
    by rewrite (proj2 (Z.ltb_lt _ _)) by (autorewrite with zlen; lia).
  - rewrite length_app in Hf. pose proof (zlen_tag_image t) as Hz. pose proof (zlen_nonneg t.2). unfold zlen in Hz at 1.
    destruct fuel; [lia|]. rewrite block_loop_tag by done. cbn [tags_run].
    destruct (tag_step t s) as [[[s' []]|]|]; try done. apply IH. lia.
Qed.

(** How the scan ends, given where the stream does. *)
Definition finish (clean : bool) (r : res JournalError (FcScan * FcControl)) : res JournalError FcReplayResult :=
  match r with
  | Err e => Err e
  | Ok (s, ReturnResult) => Ok (sc_result s)
  | Ok (s, BreakBlocks) => Ok (sc_result (discard_pending_fc_transaction s))
  | Ok (s, NextTag) =>
      let s := if clean then s else set_fallback (discard_pending_fc_transaction s) in
      Ok (sc_result (discard_pending_fc_transaction s))
  end.

Definition fc_scan_all (ts : list fc_tag) (clean : bool) (s : FcScan) : outcome (res JournalError FcReplayResult) :=
  finish clean <$> tags_run ts s.

Lemma blocks_loop_block (bs : nat) fuel before data ts e s : (0 < bs)%nat → data ≠ [] →
  block_tags (take bs data) ts e →
  fc_blocks_loop (S fuel) (before ++ data) (Z.of_nat bs) inode_size (zlen before) s =
    (r ← tags_run ts s;
     match r with
     | Ok (s, NextTag) =>
         match block_ending e (drop bs data) s with
         | (s, NextTag) => fc_blocks_loop fuel (before ++ data) (Z.of_nat bs) inode_size (zlen before + Z.of_nat bs) s
         | (s, control) => Ret (Ok (s, control))
         end
     | _ => Ret r
     end).
Proof.
  intros Hbs Hne Hb. cbn [fc_blocks_loop]. assert (0 < zlen data) by (destruct data; [done|rewrite zlen_cons; pose proof (zlen_nonneg data); lia]).
  rewrite (proj2 (Z.ltb_lt _ _)) by (rewrite zlen_app; lia).
  replace (Z.min (zlen before + Z.of_nat bs) (zlen (before ++ data))) with (zlen before + zlen (take bs data))
    by (unfold zlen; rewrite length_app, length_take; lia).
  pose proof (block_loop_tags _ _ _ Hb (length (before ++ data)) before (drop bs data) s) as Hl.
  rewrite take_drop in Hl. rewrite Hl by (rewrite length_app, length_take; lia).
  by destruct (tags_run ts s) as [[[s' []]|]|].
Qed.

Lemma blocks_loop_stream (bs : nat) data ts clean : (0 < bs)%nat → fc_stream bs data ts clean →
  ∀ fuel before s, (length data <= fuel)%nat →
  finish true <$> fc_blocks_loop fuel (before ++ data) (Z.of_nat bs) inode_size (zlen before) s = fc_scan_all ts clean s.
Proof.
  intros Hbs. induction 1 as [|data ts ts' clean Hne Hb _ IH|data ts rest Hne Hb|data ts Hne Hb]; intros fuel before s Hf;
    [|destruct fuel as [|fuel]; [destruct data; [done|cbn in Hf; lia]|]; rewrite (blocks_loop_block bs fuel before data _ _ s Hbs Hne Hb)..];
    unfold fc_scan_all.
  - cbn [tags_run]. destruct fuel; [done|]. cbn [fc_blocks_loop]. by rewrite app_nil_r, Z.ltb_irrefl.
  - rewrite tags_run_app. destruct (tags_run ts s) as [[[s' []]|]|]; try done. cbn [mbind outcome_bind block_ending].
    destruct (decide (length data <= bs)%nat) as [Hs|Hs].
    + rewrite drop_ge in IH by done. specialize (IH fuel (before ++ data) s' (Nat.le_0_l _)). rewrite app_nil_r in IH.
      unfold fc_scan_all in IH. rewrite <-IH.
      assert (∀ x, zlen (before ++ data) <= x →
        fc_blocks_loop fuel (before ++ data) (Z.of_nat bs) inode_size x s' = Ret (Ok (s', NextTag))) as Hend.
      { intros x Hx. destruct fuel; [done|]. cbn [fc_blocks_loop]. by rewrite (proj2 (Z.ltb_ge _ _)) by lia. }
      rewrite !Hend; [done|lia|rewrite zlen_app; unfold zlen in *; lia].
    + specialize (IH fuel (before ++ take bs data) s'). rewrite <-app_assoc, take_drop in IH.
      assert (zlen (before ++ take bs data) = zlen before + Z.of_nat bs) as Hz
        by (unfold zlen; rewrite length_app, length_take; lia).
      unfold fc_scan_all in IH. rewrite Hz in IH. apply IH. rewrite length_drop. lia.
  - by destruct (tags_run ts s) as [[[s' []]|]|].
  - by destruct (tags_run ts s) as [[[s' []]|]|].
Qed.

Lemma replay_scans (bs : nat) data ts clean : (0 < bs)%nat → fc_stream bs data ts clean →
  replay_fast_commit data (Z.of_nat bs) inode_size = fc_scan_all ts clean fc_start.
Proof.
  intros Hbs Hs. rewrite <-(blocks_loop_stream bs data ts clean Hbs Hs (length data) [] fc_start (Nat.le_refl _)).
  unfold replay_fast_commit. rewrite Z.max_l by lia.
  by destruct (fc_blocks_loop _ _ _ _ _ _) as [[[s []]|]|].
Qed.
End run.

(** Every buffer is a stream. *)
Lemma block_tags_total b : bytes_ok b → ∃ ts e, block_tags b ts e.
Proof.
  remember (length b) as n eqn:Hn. revert b Hn. induction (lt_wf n) as [n _ IH]. intros b -> Hb.
  destruct (Z.ltb_spec (zlen b) 4); [by eexists _, _; apply bt_full|].
  destruct (split_field 2 b) as (ty&b1&->&Hty&H1&L1); [done|lia|].
  destruct (split_field 2 b1) as (len&b2&->&Hlen&H2&L2); [done|lia|].
  change (256 ^ Z.of_nat 2) with (2 ^ 16) in *.
  destruct (decide (ty = 0 ∧ len = 0)) as [[-> ->]|Hnz]; [by eexists _, _; apply bt_zero|].
  destruct (Z.ltb_spec (zlen b2) len).
  { eexists _, _. apply bt_cut; unfold u16_max; lia. }
  assert (zlen (take (Z.to_nat len) b2) = len) as Hl by (unfold zlen in *; rewrite length_take; lia).
  destruct (IH (length (drop (Z.to_nat len) b2))) with (b := drop (Z.to_nat len) b2) as (ts&e&Ht); [|done|by apply Forall_drop|].
  { rewrite !length_app, length_drop, !le_bytes_length. lia. }
  exists ((ty, take (Z.to_nat len) b2) :: ts), e. rewrite <-(take_drop (Z.to_nat len) b2), <-Hl at 1.
  replace (le_bytes 2 ty ++ le_bytes 2 (zlen (take (Z.to_nat len) b2)) ++ take (Z.to_nat len) b2 ++ drop (Z.to_nat len) b2)
    with (tag_image (ty, take (Z.to_nat len) b2) ++ drop (Z.to_nat len) b2) by (unfold tag_image; by rewrite <-!app_assoc).
  apply bt_tag; [|done]. unfold tag_ok, u16_max. cbn [fst snd]. rewrite Hl. split_and!; [lia..|by apply Forall_take|lia].
Qed.

Lemma fc_stream_total (bs : nat) data : (0 < bs)%nat → bytes_ok data → ∃ ts clean, fc_stream bs data ts clean.
Proof.
  intros Hbs. remember (length data) as n eqn:Hn. revert data Hn. induction (lt_wf n) as [n _ IH]. intros data -> Hd.
  destruct (decide (data = [])) as [->|Hne]; [by eexists _, _; apply fs_done|].
  destruct (block_tags_total (take bs data)) as (ts&[|rest|]&Hb); [by apply Forall_take|..].
  - destruct (IH (length (drop bs data))) with (data := drop bs data) as (ts'&clean&Hs); [|done|by apply Forall_drop|].
    { rewrite length_drop. destruct data; [done|cbn [length]; lia]. }
    eexists _, _. by eapply fs_full.
  - eexists _, _. by eapply fs_zero.
  - eexists _, _. by eapply fs_cut.
Qed.

Lemma block_tags_ok b ts e : block_tags b ts e → Forall tag_ok ts.
Proof. induction 1; by constructor. Qed.
Lemma fc_stream_ok bs data ts clean : fc_stream bs data ts clean → Forall tag_ok ts.
Proof. induction 1; rewrite ?Forall_app; eauto using block_tags_ok. Qed.

(** ** Steps *)

Section steps.
Context `{Crc32cAppend}.
Variable inode_size : Z.

Lemma not32_twice x : not32 (not32 x) = x.
Proof. unfold not32. by rewrite Z.lxor_assoc, Z.lxor_nilpotent, Z.lxor_0_r. Qed.

Lemma crc_update_app c a b : crc_update (crc_update c a) b = crc_update c (a ++ b).
Proof. unfold crc_update. by rewrite not32_twice, crc32c_append_app. Qed.
Lemma crc_update_nil c : crc_update c [] = c.
Proof. unfold crc_update. by rewrite crc32c_append_nil, not32_twice. Qed.
Lemma crc_update_u32 b : is_u32 (crc_update 0 b).
Proof.
  unfold is_u32, crc_update. apply lxor_u32; [|by vm_compute]. apply crc32c_append_u32. by vm_compute.
Qed.

Lemma tags_image_app ts ts' : tags_image (ts ++ ts') = tags_image ts ++ tags_image ts'.
Proof. unfold tags_image. by rewrite fmap_app, concat_app. Qed.
Lemma tags_image_snoc ts t : tags_image (ts ++ [t]) = tags_image ts ++ tag_image t.
Proof. rewrite tags_image_app. unfold tags_image at 2. cbn. by rewrite app_nil_r. Qed.

Lemma step_pad p s :
  tag_step inode_size (7, p) s =
    Ret (Ok (mkFcScan (sc_result s) (sc_pending s) (sc_head_tid s) (crc_update (sc_crc s) (tag_image (7, p))), NextTag)).
Proof. done. Qed.

Definition add_op (op : FcOperation) (s : FcScan) : FcScan :=
  mkFcScan (sc_result s) (mkPendingFc true (pf_operations (sc_pending s) ++ [op])) (sc_head_tid s)
    (crc_update (sc_crc s) (tag_image (op_tag op))).

Lemma step_op op s : fc_op_ok inode_size op →
  tag_step inode_size (op_tag op) s =
    Ret (Ok (match sc_head_tid s with None => set_fallback s | Some _ => add_op op s end, NextTag)).
Proof.
  intros (tag&Ht&Hop&Hv&Hp)%op_parses. unfold tag_step. rewrite Ht, Hv. cbn [negb].
  assert (scan_tag (tag_image (op_tag op)) 0 tag (tag_image (op_tag op)) (op_tag op).2 s =
    scan_operation tag (tag_image (op_tag op)) (op_tag op).2 s) as -> by (by destruct tag).
  unfold scan_operation. destruct (sc_head_tid s) eqn:Hh; [|done]. rewrite Hp. unfold add_op. by rewrite Hh.
Qed.

Definition add_head (tid : Z) (s : FcScan) : FcScan :=
  let r := sc_result s in
  mkFcScan
    (mkFcReplayResult (fc_operations r) (fc_last_tid r) (Some tid) (saturating_add u64_max (fc_blocks_scanned r) 1)
       (fc_transactions_found r) (fc_incomplete_transactions r) (fc_fallback_required r))
    (mkPendingFc true (pf_operations (sc_pending s))) (Some tid) (crc_update 0 (tag_image (head_tag tid))).

Lemma step_head tid s : is_u32 tid →
  tag_step inode_size (head_tag tid) s =
    Ret (Ok (if match sc_head_tid s with Some head => negb (head =? tid) | None => false end then (s, ReturnResult)
             else (add_head tid (discard_pending_fc_transaction s), NextTag))).
Proof.
  intros Ht. unfold tag_step. cbn [head_tag fst snd].
  change (valid_payload_len TagHead (zlen (le_bytes 4 0 ++ le_bytes 4 tid)) inode_size) with true. cbn [from_u16 Z.eqb Pos.eqb negb scan_tag].
  unfold scan_head. rewrite (le_int_4_start 0 (le_bytes 4 tid)); [|unfold u32_max; lia]. cbn [mbind outcome_bind Z.land Z.eqb negb].
  rewrite (le_int_4_end tid (le_bytes 4 0) 4) by done. cbn [mbind outcome_bind].
  by destruct (match sc_head_tid s with Some head => negb (head =? tid) | None => false end).
Qed.

Lemma step_head_features f tid s : is_u32 f → f ≠ 0 → is_u32 tid →
  tag_step inode_size (9, le_bytes 4 f ++ le_bytes 4 tid) s =
    Ret (Ok (set_fallback (discard_pending_fc_transaction s), NextTag)).
Proof.
  intros Hf Hnz Ht. unfold tag_step. cbn [fst snd].
  change (valid_payload_len TagHead (zlen (le_bytes 4 f ++ le_bytes 4 tid)) inode_size) with true. cbn [from_u16 Z.eqb Pos.eqb negb scan_tag].
  unfold scan_head. rewrite le_int_4_start by done. cbn [mbind outcome_bind].
  assert (Z.land f (not32 EXT4_FC_SUPPORTED_FEATURES) = f) as ->.
  { change (not32 EXT4_FC_SUPPORTED_FEATURES) with (Z.ones 32). rewrite Z.land_ones, Z.mod_small; [done| |done].
    unfold is_u32, u32_max in Hf. lia. }
  by rewrite (proj2 (Z.eqb_neq _ _)) by done.
Qed.

Definition add_tail (tid : Z) (s : FcScan) : FcScan :=
  let r := sc_result s in
  mkFcScan
    (mkFcReplayResult (fc_operations r ++ pf_operations (sc_pending s)) tid (fc_head_tid r) (fc_blocks_scanned r)
       (saturating_add u64_max (fc_transactions_found r) 1) (fc_incomplete_transactions r) (fc_fallback_required r))
    (mkPendingFc false []) (sc_head_tid s) 0.

Lemma step_tail tid crc pad head s : is_u32 tid → is_u32 crc → sc_head_tid s = Some head →
  let crc' := crc_update (sc_crc s) (tail_covered tid pad) in
  tag_step inode_size (tail_tag tid crc pad) s =
    Ret (Ok (if negb (tid =? head) || negb (crc =? crc')
             then (mkFcScan (sc_result s) (sc_pending s) (sc_head_tid s) crc', ReturnResult) else (add_tail tid s, NextTag))).
Proof.
  intros Ht Hc Hh crc'. unfold tag_step. cbn [tail_tag fst snd].
  assert (zlen (le_bytes 4 tid ++ le_bytes 4 crc ++ pad) = 8 + zlen pad) as Hz by (autorewrite with zlen; lia).
  pose proof (zlen_nonneg pad). rewrite Hz.
  assert (valid_payload_len TagTail (8 + zlen pad) inode_size = true) as Hv by (apply Z.leb_le; lia).
  cbn [from_u16 Z.eqb Pos.eqb scan_tag]. rewrite Hv. cbn [negb]. unfold scan_tail. rewrite Hh.
  assert (slice (tag_image (tail_tag tid crc pad)) 0 (0 + 8) = Ret (tail_covered tid pad)) as Hs.
  { assert (tag_image (tail_tag tid crc pad) = [] ++ tail_covered tid pad ++ le_bytes 4 crc ++ pad) as ->
      by (unfold tag_image, tail_covered; cbn [tail_tag fst snd]; rewrite Hz; by rewrite <-!app_assoc).
    apply slice_app; [done|]. unfold tail_covered. autorewrite with zlen. done. }
  rewrite Hs. cbn [mbind outcome_bind].
  rewrite le_int_4_start by done. cbn [mbind outcome_bind]. rewrite (le_int_4 crc (le_bytes 4 tid) pad 4) by done.
  cbn [mbind outcome_bind]. fold crc'. unfold add_tail. rewrite Hh. by destruct (negb (tid =? head) || negb (crc =? crc')).
Qed.

Lemma step_tail_headless t s : from_u16 t.1 = Some TagTail → 8 <= zlen t.2 → sc_head_tid s = None →
  tag_step inode_size t s = Ret (Ok (set_fallback s, NextTag)).
Proof.
  intros Ht Hl Hh. unfold tag_step. rewrite Ht. cbn [valid_payload_len]. rewrite (proj2 (Z.leb_le _ _)) by done.
  cbn [negb scan_tag]. unfold scan_tail. by rewrite Hh.
Qed.

(** What a tag can be. *)
Inductive tag_kind : fc_tag → Prop :=
| kind_unknown t : from_u16 t.1 = None → tag_kind t
| kind_invalid t tag : from_u16 t.1 = Some tag → valid_payload_len tag (zlen t.2) inode_size = false → tag_kind t
| kind_item i : fc_item_ok inode_size i → tag_kind (item_tag i)
| kind_head tid : is_u32 tid → tag_kind (head_tag tid)
| kind_head_features f tid : is_u32 f → f ≠ 0 → is_u32 tid → tag_kind (9, le_bytes 4 f ++ le_bytes 4 tid)
| kind_tail tid crc pad : is_u32 tid → is_u32 crc → tag_kind (tail_tag tid crc pad).

Lemma tag_has_kind t : bytes_ok t.2 → tag_kind t.
Proof.
  destruct t as [ty p]. intros Hp. cbn [snd] in Hp.
  destruct (from_u16 ty) as [tag|] eqn:Ht; [|by apply kind_unknown].
  destruct (valid_payload_len tag (zlen p) inode_size) eqn:Hv; [|by eapply kind_invalid].
  apply from_u16_value in Ht as ->. destruct (is_op_tag tag) eqn:Hop.
  { destruct (op_covers inode_size tag p) as (op&Hok&->); [done..|]. by apply (kind_item (ItemOp op)). }
  destruct tag; try done; cbn [valid_payload_len tag_value] in *.
  - by apply (kind_item (ItemPad p)).
  - apply Z.leb_le in Hv. destruct (split_field 4 p) as (tid&p1&->&?&Hb1&L1); [done|lia|].
    destruct (split_field 4 p1) as (crc&pad&->&?&Hb2&L2); [done|lia|].
    apply (kind_tail tid crc pad); unfold is_u32, u32_max; lia.
  - apply Z.eqb_eq in Hv. destruct (split_field 4 p) as (f&p1&->&?&Hb1&L1); [done|lia|].
    destruct (split_field 4 p1) as (tid&p2&->&?&Hb2&L2); [done|lia|].
    assert (p2 = []) as -> by (apply length_zero_iff_nil; unfold zlen in *; lia). rewrite app_nil_r.
    assert (is_u32 f ∧ is_u32 tid) as [? ?] by (unfold is_u32, u32_max; lia).
    destruct (decide (f = 0)) as [->|]; [by apply (kind_head tid)|by apply kind_head_features].
Qed.

Lemma discard_fallback s : fc_fallback_required (sc_result s) = true →
  fc_fallback_required (sc_result (discard_pending_fc_transaction s)) = true.
Proof. unfold discard_pending_fc_transaction. by destruct (has_pending_work _). Qed.

(** A tag never makes the scan panic, and never takes a fallback back. *)
Lemma tag_step_total t s : bytes_ok t.2 → ∃ r, tag_step inode_size t s = Ret r ∧
  ∀ s' c, r = Ok (s', c) → fc_fallback_required (sc_result s) = true → fc_fallback_required (sc_result s') = true.
Proof.
  intros [t' Ht|t' tag Ht Hv|[op|p] Hi|tid Ht|f tid Hf Hnz Ht|tid crc pad Ht Hc]%tag_has_kind.
  - unfold tag_step. rewrite Ht. eexists. split; [done|]. by intros ? ? [= <- <-].
  - unfold tag_step. rewrite Ht, Hv. by eexists.
  - cbn [item_tag]. rewrite step_op by done. eexists. split; [done|]. intros ? ? [= <- <-]. by destruct (sc_head_tid s).
  - cbn [item_tag]. rewrite step_pad. eexists. split; [done|]. by intros ? ? [= <- <-].
  - rewrite step_head by done. eexists. split; [done|]. intros ? ? [= Hs].
    destruct (match sc_head_tid s with Some head => negb (head =? tid) | None => false end); simplify_eq; [done|].
    cbn. apply discard_fallback.
  - rewrite step_head_features by done. eexists. split; [done|]. by intros ? ? [= <- <-].
  - destruct (sc_head_tid s) as [head|] eqn:Hh.
    + rewrite (step_tail tid crc pad head) by done. eexists. split; [done|]. intros ? ? [= Hs].
      destruct (negb (tid =? head) || _); by simplify_eq.
    + rewrite step_tail_headless; [|done| |done].
      * eexists. split; [done|]. by intros ? ? [= <- <-].
      * cbn [tail_tag snd]. autorewrite with zlen. pose proof (zlen_nonneg pad). lia.
Qed.

Lemma finish_fallback clean s c r : fc_fallback_required (sc_result s) = true → finish clean (Ok (s, c)) = Ok r →
  fc_fallback_required r = true.
Proof.
  intros Hf. destruct c; cbn [finish]; intros [= <-]; [|by apply discard_fallback|done].
  destruct clean; by apply discard_fallback.
Qed.

Lemma fc_scan_total ts clean s : Forall tag_ok ts → ∃ out, fc_scan_all inode_size ts clean s = Ret out ∧
  ∀ r, out = Ok r → fc_fallback_required (sc_result s) = true → fc_fallback_required r = true.
Proof.
  unfold fc_scan_all. intros Hts. revert s. induction Hts as [|t ts (_&_&Hb&_) _ IH]; intros s; cbn [tags_run].
  - eexists. split; [done|]. intros r Hr Hf. by eapply finish_fallback.
  - destruct (tag_step_total t s Hb) as (r&->&Hm). cbn [mbind outcome_bind].
    destruct r as [[s' []]|e]; [| | |by eexists].
    { destruct (IH s') as (out&->&Hout). eexists. split; [done|]. eauto. }
    all: eexists; split; [done|]; intros r Hr Hf; eapply finish_fallback; [|done]; by eapply Hm.
Qed.
End steps.

(** ** Exactness *)

(** [r'] is [r] with the transactions [txns] of the cycle [h] added. *)
Definition extended (txns : list (list FcOperation)) (h : option Z) (r r' : FcReplayResult) : Prop :=
  fc_operations r' = fc_operations r ++ concat txns ∧
  fc_transactions_found r' = saturating_add u64_max (fc_transactions_found r) (zlen txns) ∧
  fc_head_tid r' = h ∧
  match txns with [] => fc_last_tid r' = fc_last_tid r | _ => Some (fc_last_tid r') = h end ∧
  fc_incomplete_transactions r' = fc_incomplete_transactions r ∧ fc_fallback_required r' = false.

Section exact.
Context `{Crc32cAppend}.
Variable inode_size : Z.
Implicit Types (h : option Z) (s : FcScan).

Local Abbreviation pad_tags pads := (item_tag ∘ ItemPad <$> pads).

(** The scan is inside a transaction of the cycle [tid], or before its first
    tag. *)
Definition opened (tid : Z) (covered : bytes) (ops : list FcOperation) (s : FcScan) : Prop :=
  sc_head_tid s = Some tid ∧ fc_head_tid (sc_result s) = Some tid ∧ pf_operations (sc_pending s) = ops ∧
  sc_crc s = crc_update 0 covered.

(** [pre] was read since the last TAIL, with the cycle [h] then. *)
Inductive reading h (pre : list fc_tag) s : Prop :=
| reading_pads pads : pre = pad_tags pads → sc_pending s = mkPendingFc false [] →
    sc_head_tid s = h → fc_head_tid (sc_result s) = h →
    (∀ tid, h = Some tid → is_u32 tid ∧ sc_crc s = crc_update 0 (tags_image pre)) → reading h pre s
| reading_open tid covered ops : fc_open inode_size h pre tid covered ops → opened tid covered ops s →
    pf_active (sc_pending s) = true → is_u32 tid → reading h pre s.

Lemma pads_as_items (pads : list bytes) :
  pad_tags pads = item_tag <$> (ItemPad <$> pads) ∧ item_ops (ItemPad <$> pads) = [] ∧
  Forall (fc_item_ok inode_size) (ItemPad <$> pads).
Proof.
  split; [by rewrite <-list_fmap_compose|]. unfold item_ops.
  induction pads as [|p pads [IH1 IH2]]; [by split; [|constructor]|]. split; [done|by constructor].
Qed.

(** Inside a cycle, what was read is the start of a transaction. *)
Lemma reading_opened h pre s tid : reading h pre s → sc_head_tid s = Some tid →
  is_u32 tid ∧ ∃ covered ops, fc_open inode_size h pre tid covered ops ∧ opened tid covered ops s.
Proof.
  intros [pads -> Hp Hh Hr Hc|tid' covered ops Ho Hop Ha Ht] Hs.
  - rewrite Hs in Hh. subst h. destruct (Hc tid) as [Ht Hcrc]; [done|]. split; [done|].
    destruct (pads_as_items pads) as (Hpt&Hops&Hok). rewrite Hpt in *.
    exists (tags_image (item_tag <$> (ItemPad <$> pads))), (item_ops (ItemPad <$> pads)). split; [by apply open_next|].
    split_and!; [done|done|by rewrite Hp, Hops|done].
  - assert (tid' = tid) as -> by (destruct Hop as [Hop _]; congruence). split; [done|]. by exists covered, ops.
Qed.

Lemma item_ops_app items items' : item_ops (items ++ items') = item_ops items ++ item_ops items'.
Proof. unfold item_ops. apply omap_app. Qed.

Lemma open_snoc h pre tid covered ops i : fc_open inode_size h pre tid covered ops → fc_item_ok inode_size i →
  fc_open inode_size h (pre ++ [item_tag i]) tid (covered ++ tag_image (item_tag i)) (ops ++ item_ops [i]).
Proof.
  intros [tid' items Ht Hi|h' tid' pads items Hh Ht Hi] Hok.
  - rewrite <-tags_image_snoc, <-item_ops_app. change [item_tag i] with (item_tag <$> [i]). rewrite <-fmap_app.
    apply open_next; [done|]. apply Forall_app. by split; [|constructor].
  - rewrite <-tags_image_snoc, <-app_assoc, <-!app_comm_cons, <-item_ops_app. change [item_tag i] with (item_tag <$> [i]).
    rewrite <-!fmap_app. apply open_head; [done..|]. apply Forall_app. by split; [|constructor].
Qed.

Lemma reading_item h pre s i s' : reading h pre s → fc_item_ok inode_size i →
  fc_fallback_required (sc_result s') = false →
  tag_step inode_size (item_tag i) s = Ret (Ok (s', NextTag)) →
  sc_result s' = sc_result s ∧ reading h (pre ++ [item_tag i]) s'.
Proof.
  intros Hr Hi Hf. destruct i as [op|p]; cbn [item_tag].
  - rewrite step_op by done. destruct (sc_head_tid s) as [tid|] eqn:Hh; intros [= <-]; [|done]. split; [done|].
    destruct (reading_opened _ _ _ _ Hr Hh) as (Ht&covered&ops&Ho&Hop). apply (open_snoc _ _ _ _ _ (ItemOp op)) in Ho; [|done].
    destruct Hop as (H1&H2&H3&H4). eapply reading_open; [done| |done|done].
    split_and!; [done|done|cbn; by rewrite H3|cbn; by rewrite H4, crc_update_app].
  - rewrite step_pad. intros [= <-]. split; [done|].
    destruct Hr as [pads -> Hp Hh Hr Hc|tid covered ops Ho (H1&H2&H3&H4) Ha Ht].
    + apply reading_pads with (pads := pads ++ [p]); [by rewrite fmap_app|done..|].
      intros tid Htid. destruct (Hc tid Htid) as [? Hcrc]. split; [done|]. cbn [sc_crc].
      by rewrite Hcrc, crc_update_app, tags_image_snoc.
    + apply (open_snoc _ _ _ _ _ (ItemPad p)) in Ho; [|done]. rewrite app_nil_r in Ho.
      eapply reading_open; [done| |done|done]. split_and!; [done|done|done|cbn; by rewrite H4, crc_update_app].
Qed.

Lemma fc_scan_cons t ts clean s :
  fc_scan_all inode_size (t :: ts) clean s =
    (r ← tag_step inode_size t s;
     match r with Ok (s, NextTag) => fc_scan_all inode_size ts clean s | r => Ret (finish clean r) end).
Proof. unfold fc_scan_all. cbn [tags_run]. by destruct (tag_step inode_size t s) as [[[? []]|]|]. Qed.

(** The scan of [ts] from [s] takes what the relation says, when [pre] was read
    before. *)
Definition sound ts clean : Prop := ∀ h pre s r, reading h pre s → fc_transactions_found (sc_result s) <= u64_max →
  fc_scan_all inode_size ts clean s = Ret (Ok r) → fc_fallback_required r = false →
  ∃ txns h', fc_reads inode_size h (pre ++ ts) clean txns h' ∧ extended txns h' (sc_result s) r.

Lemma no_txns h s r : fc_transactions_found (sc_result s) <= u64_max → fc_head_tid (sc_result s) = h →
  r = sc_result s → fc_fallback_required r = false → extended [] h (sc_result s) r.
Proof.
  intros Hn <- -> Hf. unfold extended. cbn [concat]. rewrite app_nil_r. split_and!; try done.
  unfold saturating_add. rewrite zlen_nil. lia.
Qed.

Lemma not_fallback ts clean s r : Forall tag_ok ts → fc_scan_all inode_size ts clean s = Ret (Ok r) →
  fc_fallback_required r = false → fc_fallback_required (sc_result s) = false.
Proof.
  intros Hts Hs Hr. destruct (fc_fallback_required (sc_result s)) eqn:Hf; [|done].
  destruct (fc_scan_total inode_size ts clean s Hts) as (out&Hout&Hm). rewrite Hs in Hout. injection Hout as <-.
  by rewrite (Hm r) in Hr.
Qed.

Lemma sound_nil clean : sound [] clean.
Proof.
  intros h pre s r Hr Hn [= <-] Hf. destruct clean; cbn [finish] in Hf; [|by rewrite discard_fallback in Hf].
  cbn [finish]. unfold discard_pending_fc_transaction in *.
  destruct (has_pending_work (sc_pending s)) eqn:Hw; [done|]. rewrite app_nil_r.
  destruct Hr as [pads -> Hp Hh Hr _|tid covered ops _ _ Ha _].
  - exists [], h. split; [apply reads_end|]. by apply no_txns.
  - unfold has_pending_work in Hw. by rewrite Ha in Hw.
Qed.

Lemma sound_item i ts clean : Forall tag_ok ts → fc_item_ok inode_size i → sound ts clean → sound (item_tag i :: ts) clean.
Proof.
  intros Hts Hi IH h pre s r Hr Hn. rewrite fc_scan_cons.
  assert (∃ s', tag_step inode_size (item_tag i) s = Ret (Ok (s', NextTag))) as [s' Hs'].
  { destruct i; cbn [item_tag]; [rewrite step_op by done|rewrite step_pad]; by eexists. }
  rewrite Hs'. cbn [mbind outcome_bind]. intros Hs Hf.
  destruct (reading_item h pre s i s') as [Hres Hr']; [done|done|by eapply not_fallback|done|].
  destruct (IH h (pre ++ [item_tag i]) s' r) as (txns&h'&Hreads&Hx); [done|by rewrite Hres|done|done|].
  rewrite <-app_assoc in Hreads. rewrite Hres in Hx. by exists txns, h'.
Qed.

Lemma sound_head tid ts clean : Forall tag_ok ts → is_u32 tid → sound ts clean → sound (head_tag tid :: ts) clean.
Proof.
  intros Hts Ht IH h pre s r Hr Hn. rewrite fc_scan_cons, step_head by done. cbn [mbind outcome_bind].
  destruct (match sc_head_tid s with Some head => negb (head =? tid) | None => false end) eqn:Hst; intros Hs Hf.
  - destruct (sc_head_tid s) as [head|] eqn:Hh; [|done]. apply negb_true_iff, Z.eqb_neq in Hst.
    destruct (reading_opened _ _ _ _ Hr Hh) as (_&covered&ops&Ho&_&Hhr&_). injection Hs as <-.
    exists [], (Some head). split; [by eapply reads_stale|]. by apply no_txns.
  - pose proof (not_fallback _ _ _ _ Hts Hs Hf) as Hf'. cbn in Hf'. unfold discard_pending_fc_transaction in *.
    destruct (has_pending_work (sc_pending s)) eqn:Hw; [done|].
    destruct Hr as [pads -> Hp Hh Hr _|tid' covered ops _ _ Ha _]; [|unfold has_pending_work in Hw; by rewrite Ha in Hw].
    assert (h = None ∨ h = Some tid) as Hht.
    { rewrite Hh in Hst. destruct h as [head|]; [right|by left]. apply negb_false_iff, Z.eqb_eq in Hst. by subst. }
    destruct (IH h (pad_tags pads ++ [head_tag tid]) (add_head tid s) r) as (txns&h'&Hreads&Hx); [|done|done|done|].
    { eapply reading_open with (ops := item_ops []); [by apply (open_head inode_size h tid pads [])| |done|done].
      split_and!; [done|done|cbn; by rewrite Hp|]. unfold tags_image. cbn. by rewrite ?app_nil_r. }
    rewrite <-app_assoc in Hreads. by exists txns, h'.
Qed.

Lemma open_same_cycle tid pre tid' covered ops : fc_open inode_size (Some tid) pre tid' covered ops → tid' = tid.
Proof. inversion 1 as [|? ? ? ? [?|?]]; congruence. Qed.

Lemma reads_same_cycle tid ts clean txns h : fc_reads inode_size (Some tid) ts clean txns h → h = Some tid.
Proof.
  remember (Some tid) as h0 eqn:Hh. intros Hr. revert tid Hh.
  induction Hr as [| h pre tid' covered ops pad rest clean txns h' Ho _ IH| |]; intros t0 ->;
    [done|..]; repeat match goal with Ho : fc_open _ _ _ _ _ _ |- _ => apply open_same_cycle in Ho as -> end; [|done..].
  by apply (IH t0).
Qed.

Lemma sound_tail tid crc pad ts clean : Forall tag_ok ts → is_u32 tid → is_u32 crc → sound ts clean →
  sound (tail_tag tid crc pad :: ts) clean.
Proof.
  intros Hts Ht Hc IH h pre s r Hr Hn. rewrite fc_scan_cons. destruct (sc_head_tid s) as [head|] eqn:Hh.
  2:{ rewrite step_tail_headless; [|done| |done]; [|cbn [tail_tag snd]; autorewrite with zlen; pose proof (zlen_nonneg pad); lia].
      intros Hs Hf. by apply not_fallback in Hs. }
  rewrite (step_tail inode_size tid crc pad head) by done. cbn [mbind outcome_bind].
  destruct (reading_opened _ _ _ _ Hr Hh) as (Hu&covered&ops&Ho&_&Hhr&Hops&Hcrc). rewrite Hcrc, crc_update_app.
  destruct (negb (tid =? head) || negb (crc =? crc_update 0 (covered ++ tail_covered tid pad))) eqn:Hm; intros Hs Hf.
  - injection Hs as <-. exists [], (Some head). split; [|by apply no_txns]. eapply reads_torn; [done..|].
    intros [-> ->]. by rewrite !Z.eqb_refl in Hm.
  - apply orb_false_iff in Hm as [Hm1%negb_false_iff%Z.eqb_eq Hm2%negb_false_iff%Z.eqb_eq]. subst head crc.
    destruct (IH (Some tid) [] (add_tail tid s) r) as (txns&h'&Hreads&Hx); [| |done|done|].
    { apply reading_pads with (pads := []); [done..|]. intros ? [= <-]. split; [done|]. cbn. by rewrite crc_update_nil. }
    { cbn. unfold saturating_add. lia. }
    exists (ops :: txns), h'. split; [by eapply reads_commit|].
    destruct Hx as (X1&X2&X3&X4&X5&X6). cbn in X1, X2, X4, X5. unfold extended.
    split_and!; [rewrite X1, Hops; cbn; by rewrite <-app_assoc| |done| |done|done].
    + rewrite X2, zlen_cons. unfold saturating_add. pose proof (zlen_nonneg txns). lia.
    + rewrite (reads_same_cycle _ _ _ _ _ Hreads) in *. destruct txns as [|? ?]; [by rewrite X4|done].
Qed.

Lemma scan_sound ts clean : Forall tag_ok ts → sound ts clean.
Proof.
  induction 1 as [|t ts Hok Hts IH]; [apply sound_nil|]. pose proof Hok as (_&_&Hb&_).
  destruct (tag_has_kind inode_size t Hb) as [t Ht|t tag Ht Hv|i Hi|tid Htid|f tid Hfu Hnz Htid|tid crc pad Htid Hc];
    [| |by apply sound_item|by apply sound_head| |by apply sound_tail]; intros h pre s r Hr Hn; rewrite fc_scan_cons.
  - unfold tag_step. rewrite Ht. intros [= <-] Hf. by rewrite discard_fallback in Hf.
  - unfold tag_step. by rewrite Ht, Hv.
  - rewrite step_head_features by done. cbn [mbind outcome_bind]. intros Hs Hf. by apply not_fallback in Hs.
Qed.

(** The scan reads [pre] from [s] and goes on from [s']. *)
Definition goes (pre : list fc_tag) s s' : Prop :=
  ∀ ts clean, fc_scan_all inode_size (pre ++ ts) clean s = fc_scan_all inode_size ts clean s'.

Lemma goes_cons t pre s s1 s2 : tag_step inode_size t s = Ret (Ok (s1, NextTag)) → goes pre s1 s2 → goes (t :: pre) s s2.
Proof. intros Ht Hg ts clean. cbn [app]. rewrite fc_scan_cons, Ht. apply Hg. Qed.
Lemma goes_app pre pre' s s1 s2 : goes pre s s1 → goes pre' s1 s2 → goes (pre ++ pre') s s2.
Proof. intros Hg Hg' ts clean. rewrite <-app_assoc, Hg. apply Hg'. Qed.

Lemma goes_items items s tid covered ops : Forall (fc_item_ok inode_size) items → opened tid covered ops s →
  ∃ s', goes (item_tag <$> items) s s' ∧ sc_result s' = sc_result s ∧
    opened tid (covered ++ tags_image (item_tag <$> items)) (ops ++ item_ops items) s'.
Proof.
  intros Hi. revert s covered ops. induction Hi as [|i items Hok _ IH]; intros s covered ops Ho.
  { exists s. split; [by intros ? ?|]. split; [done|]. cbn. by rewrite !app_nil_r. }
  assert (∃ s1, tag_step inode_size (item_tag i) s = Ret (Ok (s1, NextTag)) ∧ sc_result s1 = sc_result s ∧
    opened tid (covered ++ tag_image (item_tag i)) (ops ++ item_ops [i]) s1) as (s1&Hs1&Hr1&Ho1).
  { destruct Ho as (O1&O2&O3&O4). destruct i as [op|p]; cbn [item_tag]; [rewrite step_op, O1 by done|rewrite step_pad];
      eexists; split; [done| |done|]; (split; [done|]); unfold opened; cbn;
      rewrite ?app_nil_r, O4, crc_update_app; split_and!; try done; by rewrite O3. }
  destruct (IH s1 _ _ Ho1) as (s'&Hg&Hr&Ho'). exists s'. split; [by eapply goes_cons|]. split; [congruence|].
  rewrite <-!app_assoc, <-item_ops_app in Ho'. exact Ho'.
Qed.

Lemma goes_pads pads s : ∃ s', goes (pad_tags pads) s s' ∧ sc_result s' = sc_result s ∧
  sc_pending s' = sc_pending s ∧ sc_head_tid s' = sc_head_tid s.
Proof.
  revert s. induction pads as [|p pads IH]; intros s; [by exists s|].
  edestruct IH as (s'&Hg&Hr&Hp&Hh). exists s'. split; [eapply goes_cons; [apply step_pad|exact Hg]|].
  by rewrite Hr, Hp, Hh.
Qed.

(** Between transactions. *)
Definition idle h s : Prop :=
  sc_pending s = mkPendingFc false [] ∧ sc_head_tid s = h ∧ fc_head_tid (sc_result s) = h ∧ sc_crc s = 0 ∧
  fc_fallback_required (sc_result s) = false ∧ fc_transactions_found (sc_result s) <= u64_max.

(** The result but for the cycle and the count of HEADs. *)
Definition same_result (r r' : FcReplayResult) : Prop :=
  fc_operations r' = fc_operations r ∧ fc_last_tid r' = fc_last_tid r ∧
  fc_transactions_found r' = fc_transactions_found r ∧ fc_incomplete_transactions r' = fc_incomplete_transactions r ∧
  fc_fallback_required r' = fc_fallback_required r.

Lemma goes_open h pre tid covered ops s : fc_open inode_size h pre tid covered ops → idle h s →
  ∃ s', goes pre s s' ∧ same_result (sc_result s) (sc_result s') ∧ opened tid covered ops s' ∧ is_u32 tid.
Proof.
  intros [tid' items Ht Hi|h' tid' pads items Hh Ht Hi] (I1&I2&I3&I4&_).
  - destruct (goes_items items s tid' [] []) as (s'&Hg&Hr&Ho); [done| |].
    { split_and!; [done|done|by rewrite I1|by rewrite crc_update_nil]. }
    exists s'. rewrite Hr. by split_and!.
  - destruct (goes_pads pads s) as (s1&Hg1&Hr1&Hp1&Hh1).
    assert (tag_step inode_size (head_tag tid') s1 = Ret (Ok (add_head tid' s1, NextTag))) as Hs.
    { rewrite step_head by done. unfold discard_pending_fc_transaction. rewrite Hp1, I1, Hh1, I2.
      destruct Hh as [->| ->]; [done|]. by rewrite Z.eqb_refl. }
    destruct (goes_items items (add_head tid' s1) tid' (tag_image (head_tag tid')) []) as (s'&Hg&Hr&Ho); [done| |].
    { split_and!; [done|done|cbn; by rewrite Hp1, I1|done]. }
    exists s'. split; [eapply goes_app; [done|by eapply goes_cons]|]. rewrite Hr. split; [|done].
    unfold same_result. cbn. by rewrite Hr1.
Qed.

Lemma no_txns_same h s r r' : fc_transactions_found (sc_result s) <= u64_max → same_result (sc_result s) r' →
  fc_fallback_required (sc_result s) = false → fc_head_tid r' = h → r = r' → extended [] h (sc_result s) r.
Proof.
  intros Hn (S1&S2&S3&S4&S5) Hf Hh ->. unfold extended. cbn [concat]. rewrite app_nil_r, S5. split_and!; try done.
  rewrite S3. unfold saturating_add. rewrite zlen_nil. lia.
Qed.

Lemma scan_complete h ts clean txns h' : fc_reads inode_size h ts clean txns h' → ∀ s, idle h s →
  ∃ r, fc_scan_all inode_size ts clean s = Ret (Ok r) ∧ extended txns h' (sc_result s) r.
Proof.
  induction 1 as [h pads|h pre tid covered ops pad rest clean txns h' Ho Hreads IH|
    h pre tid covered ops tid' crc pad rest clean Ho Ht Hc Hbad|h pre tid covered ops tid' rest clean Ho Ht Hne];
    intros s Hi; pose proof Hi as (I1&I2&I3&I4&I5&I6);
    [|destruct (goes_open _ _ _ _ _ _ Ho Hi) as (s'&Hg&Hsame&(O1&O2&O3&O4)&Hu); rewrite Hg, fc_scan_cons..].
  - destruct (goes_pads pads s) as (s'&Hg&Hr&Hp&Hh). rewrite <-(app_nil_r (pad_tags pads)), Hg. eexists. split; [done|].
    unfold discard_pending_fc_transaction. rewrite Hp, I1. cbn. rewrite Hr. by apply no_txns.
  - rewrite (step_tail inode_size tid _ pad tid) by (done || apply crc_update_u32). cbn [mbind outcome_bind].
    rewrite O4, crc_update_app, !Z.eqb_refl. cbn [negb orb].
    destruct Hsame as (S1&S2&S3&S4&S5).
    destruct (IH (add_tail tid s')) as (r&Hr&Hx).
    { split_and!; [done|done|done|done|cbn; by rewrite S5|cbn; unfold saturating_add; lia]. }
    exists r. split; [done|]. destruct Hx as (X1&X2&X3&X4&X5&X6). cbn in X1, X2, X4, X5.
    rewrite (reads_same_cycle _ _ _ _ _ Hreads) in *. unfold extended.
    split_and!; [rewrite X1, O3, S1; cbn; by rewrite <-app_assoc| |done| |by rewrite X5|done].
    + rewrite X2, zlen_cons, S3. unfold saturating_add. pose proof (zlen_nonneg txns). lia.
    + destruct txns; [by rewrite X4|done].
  - rewrite (step_tail inode_size tid' crc pad tid) by done. cbn [mbind outcome_bind]. rewrite O4, crc_update_app.
    replace (negb (tid' =? tid) || negb (crc =? crc_update 0 (covered ++ tail_covered tid' pad))) with true.
    2:{ symmetry. apply orb_true_iff. rewrite !negb_true_iff, !Z.eqb_neq. lia. }
    eexists. split; [done|]. by eapply no_txns_same.
  - rewrite step_head, O1 by done. rewrite (proj2 (Z.eqb_neq tid tid')) by done. eexists. split; [done|].
    by eapply no_txns_same.
Qed.
End exact.

(** C21. Replaying the fast-commit area is exact on arbitrary bytes.  The replay
    never panics, and the bytes are always a stream of tags in one way or the
    other.  If the tags are transactions of one cycle, each closed by a TAIL with
    the cycle's tid and a matching checksum over its tags, up to the end of the
    stream, a TAIL that does not match or a HEAD of another cycle, then the replay
    returns exactly their operations, in order, asks for no fallback and counts no
    incomplete transaction; and it returns a result without a fallback only for
    such streams. *)
Theorem fast_commit_replay_exact `{Crc32cAppend} data block_size inode_size : bytes_ok data →
  let bs := Z.to_nat (Z.max block_size 1) in
  (∃ ts clean, fc_stream bs data ts clean) ∧
  ∀ ts clean, fc_stream bs data ts clean →
    ∃ out, replay_fast_commit data block_size inode_size = Ret out ∧
    (∀ txns h, fc_reads inode_size None ts clean txns h →
       ∃ r, out = Ok r ∧ extended txns h (sc_result fc_start) r) ∧
    (∀ r, out = Ok r → fc_fallback_required r = false →
       ∃ txns h, fc_reads inode_size None ts clean txns h ∧ extended txns h (sc_result fc_start) r).
Proof.
  intros Hd bs. assert (0 < bs)%nat as Hbs by (unfold bs; lia). split; [by apply fc_stream_total|]. intros ts clean Hs.
  pose proof (replay_scans inode_size bs data ts clean Hbs Hs) as Hr. unfold replay_fast_commit in Hr.
  unfold bs in Hr. rewrite Z2Nat.id, <-Z.max_assoc, Z.max_id in Hr by lia. fold (replay_fast_commit data block_size inode_size) in Hr.
  destruct (fc_scan_total inode_size ts clean fc_start (fc_stream_ok _ _ _ _ Hs)) as (out&Hout&_).
  exists out. split; [by rewrite Hr|]. split.
  - intros txns h Hreads. destruct (scan_complete inode_size None ts clean txns h Hreads fc_start) as (r&Hsc&Hx).
    { by split_and!. }
    rewrite Hout in Hsc. injection Hsc as ->. by exists r.
  - intros r -> Hf. apply (scan_sound inode_size ts clean (fc_stream_ok _ _ _ _ Hs) None [] fc_start r); [|done..].
    by apply reading_pads with (pads := []).
Qed.

(** Two blocks: a transaction, and one whose TAIL was torn. *)
#[local] Existing Instances BitwiseCrc BitwiseCrcAppend.

Definition fc_sample_op : FcOperation := FcAddRange (mkFcExtentRange 12 5 3 (2 ^ 40 + 9) true).
Definition fc_sample_txn : list fc_tag :=
  let body := [head_tag 7; op_tag fc_sample_op] in
  body ++ [tail_tag 7 (crc_update 0 (tags_image body ++ tail_covered 7 (zeros 20))) (zeros 20)].
Definition fc_sample : bytes :=
  tags_image fc_sample_txn ++ tags_image [op_tag (FcDelete (mkFcDelRange 12 5 3)); tail_tag 7 1 []].

Example fc_sample_replay : replay_fast_commit fc_sample 64 256 =
  Ret (Ok (mkFcReplayResult [fc_sample_op] 7 (Some 7) 1 1 0 false)).
Proof. vm_compute. reflexivity. Qed.

Lemma fast_commit_replay_exact_witness : bytes_ok fc_sample ∧ ∃ ts clean txns h,
  fc_stream 64 fc_sample ts clean ∧ fc_reads 256 None ts clean txns h ∧ concat txns = [fc_sample_op] ∧ h = Some 7.
Proof.
  assert (bytes_ok fc_sample) as Hok.
  { apply (bool_decide_unpack (Forall (λ b, 0 <= b < 256) fc_sample)). vm_compute. exact I. }
  split; [exact Hok|].
  destruct (fast_commit_replay_exact fc_sample 64 256 Hok) as [(ts&clean&Hs) Hall].
  destruct (Hall ts clean Hs) as (out&Hout&_&Hback). rewrite fc_sample_replay in Hout.
  destruct (Hback (mkFcReplayResult [fc_sample_op] 7 (Some 7) 1 1 0 false)) as (txns&h&Hr&Hops&_&Hh&_);
    [congruence|reflexivity|].
  exists ts, clean, txns, h. split_and!; [exact Hs|exact Hr|symmetry; exact Hops|symmetry; exact Hh].
Defined.
